(* ===== verification/_CoqProject ===== *)
-Q . S2P
Prelude.v
Rlp.v
RlpProofs.v
RlpStruct.v
LevmState.v
LevmMemory.v
LevmMemoryProofs.v
LevmGas.v
LevmOpcodes.v
LevmHost.v
LevmArith.v
LevmHandlers.v
LevmSystem.v
LevmVm.v
LevmDemo.v
LevmLogic.v
LevmFees.v
LevmMetering.v
LevmAlu.v
LevmJumps.v
LevmTermination.v
LevmExecution.v
LevmStatic.v
LevmTransaction.v
LevmFindings.v
TrieNode.v
TrieCodec.v
Trie.v
TrieLogic.v
TrieMap.v
TrieOps.v
TrieCorrect.v
TrieCommit.v
TrieHashed.v
TrieProof.v
TrieIter.v
TrieTheorems.v
VerifyRange.v
VerifyRangeProofs.v
Tx.v
TxProofs.v
BlockTypes.v
BlockCodecs.v
BlockRoots.v
Chain.v
ChainProofs.v
Store.v
StoreLogic.v
Blockchain.v
ForkChoice.v
BlockImport.v
WorldState.v
GenesisState.v
Mempool.v
MempoolProofs.v
Vm.v
Payload.v
PayloadQueue.v
PayloadProofs.v
MempoolPool.v
MempoolTheorems.v
PayloadImport.v
PayloadTheorems.v
Kademlia.v
KademliaProofs.v
Rlpx.v
RlpxProofs.v
Snap.v
SnapProofs.v
L2Bridge.v
L2BridgeProofs.v
L2Contracts.v
L2ContractsProofs.v
L2Theorems.v
