(* ===== verification/Prelude.v ===== *)
(** * Ethrex: a verification development of the lambda_ethereum_rust client

    Ethrex is an Ethereum execution client in Rust.  This library models it as
    executable definitions, from the byte encodings up to the chain that a node
    accepts, and proves what makes them correct.

    ** The program and what is modelled

    - crates/common/rlp, the serialisation every other part uses: [Rlp] (encode.rs,
      decode.rs, structs.rs), [RlpProofs], and [RlpStruct] with the tactics that
      derive the codec of a struct from those of its fields.  [RLPEncode] and
      [RLPDecode] are the traits, as classes; [RLPCodec] is what they promise.
    - crates/vm/levm, the virtual machine: errors, accounts, environment, call
      frames and stack ([LevmState]), memory.rs ([LevmMemory]), gas_cost.rs
      ([LevmGas]), opcodes.rs ([LevmOpcodes]), the account, gas and snapshot methods
      of [VM] ([LevmHost]), the handlers under opcode_handlers/ ([LevmArith],
      [LevmHandlers], [LevmSystem]), precompiles.rs (module [Precompile] of
      [LevmSystem]), and [VM::new], [execute] and [transact] ([LevmVm]).
    - crates/storage/trie, the Merkle Patricia trie: paths and nodes with both of
      their encodings ([TrieNode]), the state with its database, the operations,
      proofs and iteration ([Trie]), and verify_range.rs ([VerifyRange]).
    - crates/common/types: transactions ([Tx]), blocks, receipts and accounts
      ([BlockTypes]), fees, header validation, forks, genesis and blobs ([Chain]).
    - crates/storage/store: the in-memory engine and the store ([Store]).
    - crates/blockchain: import of blocks and fork choice ([Blockchain]), mempool.rs
      ([Mempool]), payload.rs ([Payload]).  crates/vm: the execution of blocks on
      revm ([Vm]).
    - crates/networking/p2p: the table of peers ([Kademlia]), the messages of RLPx
      ([Rlpx]), the answers of a snap peer ([Snap]).
    - crates/l2: the withdrawal tree, the committer and the SDK ([L2Bridge]) and the
      contracts CommonBridge.sol and OnChainProposer.sol ([L2Contracts]).

    A block comes from the payload builder, which takes transactions from the pool,
    or from a peer.  [add_block] validates it against its parent, executes it,
    checks the result against the header, applies the account updates to the tries
    of the store and stores it; fork choice then makes a stored block the head of
    the canonical chain.  On the L2 the committer publishes the root of the
    withdrawals of a block, against which the bridge contract checks claims.

    ** How code becomes definitions

    A definition has the name of the function it translates; a struct is a record,
    with its methods in a module of its own where names would clash.  A fallible
    function returns an [Outcome]: a value, an error of the source's enum, a panic,
    or [NoFuel].  Handlers of the machine run in the monad [M] over the machine and
    the current frame, operations of the trie and the store in [StateT]; both keep
    the state that an error leaves behind.  Machine integers are [Z] with checked
    operations at their width; the plain operators panic or wrap around according to
    [BuildProfile], over which the theorems quantify; one that holds in a single
    build says so.  The codec of RLP is that of a build with overflow checks: only
    [get_item_with_prefix] differs without them, and only where it panics with them
    ([wrapping_item_with_prefix]).  In LEVM, [U256], addresses and hashes are [Z];
    everywhere else hashes and addresses are byte strings.  Bytes are [list Z] in
    [0, 256); maps are [gmap].  The Rust stack is a list with its top first.

    Code of other crates is a parameter, with what its documentation promises as
    laws: digests and signatures ([Crypto], [Secp256k1]), the bloom filter
    ([EthBloom]), crc32 ([Crc32]), KZG ([Kzg]), revm ([Revm], [RevmLaws]; [Execution]
    where only the result of a block matters), binary search ([BinarySearch]), snappy
    and the points of k256 ([Snappy], [NodeKeys]), the order of a hash map
    ([HashMapIter]), the verifier contract ([Deployment]).  The theorems do not
    assume that the digest is injective: where they need it, they say on which
    inputs ([collision_free] for the nodes of a trie, [no_hash_collision] for the
    withdrawal tree).  [LevmDemo] has a toy instance of the digests, on which the
    theorems are instantiated.

    ** Fuel

    Loops that are not structural take fuel, and the termination theorems show that
    it is enough.
    - [execute]: the gas left and one ([fuel_for]); every opcode after which the loop
      continues spends gas.
    - [fake_exponential]: five times the width of its integers and eight; its terms
      grow at most until the counter passes the numerator and then at least halve.
    - The jump analysis and the vector decoder: the length of their input.
    - Operations on nodes: twice the length of the path and two ([trie_fuel]); a
      commit, the size of the cache and one ([commit_fuel]); range verification, 66 and the
      bytes of the proof.  Iteration takes any sufficient fuel.
    - Fork choice: the number of the head above the earliest block; each step goes
      to a parent, one number lower.
    - Filling a payload: the lengths of the queues and one; each round removes a
      transaction.
    - The withdrawal tree: the number of leaves and two; each level halves it.
      [Transactions.decode]: the limit of 256 and two.

    ** What is proved

    - Encodings: round trips of RLP ([RlpProofs]), transactions and their signatures
      ([TxProofs]), blocks, headers, receipts and accounts ([BlockCodecs]), trie
      nodes ([TrieCodec]) and all RLPx messages ([RlpxProofs]).
    - The interpreter ([LevmLogic], [LevmMetering], [LevmTermination],
      [LevmExecution]): it terminates and does not panic, stays within its gas (but
      for a precompile that a transaction calls), every opcode keeps the frame
      invariant, and a failed context is rolled back.  Static
      contexts change no visible state ([LevmStatic]); the arithmetic agrees with the
      functions on integers ([LevmAlu]); memory refines a zero-filled array
      ([LevmMemoryProofs]); the program counter stays on instructions ([LevmJumps]).
      Transactions ([LevmTransaction], [LevmFees]): validity, intrinsic gas, blob fee
      and settlement.  [LevmFindings]: inputs on which the code departs from the
      protocol.
    - The trie ([TrieLogic] to [TrieTheorems]) refines a finite map; its root is
      determined by the map and determines it; commits can be reopened, unless the
      root is encoded in fewer than 32 bytes; proofs are sound and complete; iteration lists the map in order.  Over hashed keys
      ([TrieHashed]) a commit keeps all other tries.  [VerifyRangeProofs]: what range
      verification shows, and where it accepts ranges that are not there.
    - Blocks: the roots of a block and its hash determine its contents
      ([BlockRoots]); header validation is exactly the rules of a valid child where
      the fee arithmetic fits in 64 bits ([ChainProofs]).
    - The store: importing blocks and choosing forks only ever reaches stores whose
      canonical chain is a chain of valid blocks ([ForkChoice], [BlockImport], over
      the logic of [StoreLogic]); the state at its roots is the map of the accounts
      that the updates describe, and the codes are theirs ([WorldState]), from the
      genesis file on ([GenesisState]).
    - The pool ([MempoolProofs], [MempoolPool], [MempoolTheorems]): what enters it,
      with which error the rest is refused, and what every reachable pool holds.
    - Payloads ([PayloadQueue], [PayloadProofs], [PayloadImport],
      [PayloadTheorems]): filling completes and leaves nothing out without a reason,
      and what is built without withdrawals is accepted by the import of blocks.
    - Peers: the invariant of the table ([KademliaProofs]); a snap peer answers the
      part of the state that is asked for ([SnapProofs]).
    - The bridge ([L2BridgeProofs], [L2ContractsProofs], [L2Theorems]): under any
      interleaving of calls each claim is paid at most once, against a published root
      of a verified block, and is a withdrawal of the block if the root is that of
      its withdrawals, which the contracts do not check; every withdrawal of a
      committed and verified block can be claimed.

    ** What is not modelled

    Allocation failure of the host below isize::MAX, logging and metrics.  The JSON
    forms (serde).  The libmdbx and redb engines, which only call those libraries.
    The asynchronous services (discovery, connections, handshakes and sync of the
    p2p crate, the JSON-RPC server, the watcher, prover and deployer of the L2) are
    I/O around the parts above.  The execution of blocks with LEVM in place of revm,
    which is a build option, is modelled only up to the machine itself.  The
    command-line tools, benchmarks and test runners. *)

From stdpp Require Import base decidable option list numbers gmap strings sorting.

Local Open Scope Z_scope.

(** ** Outcomes

    A Rust function returns [Ok] or [Err], or it panics; a fuelled definition
    may also run out of fuel.  [NoFuel] is an artefact of the model: the
    termination theorems show it never occurs with the stated fuel. *)

Inductive Outcome (E A : Type) : Type :=
| Ok (a : A)
| Err (e : E)
| Panic
| NoFuel.
Arguments Ok {E A} a.
Arguments Err {E A} e.
Arguments Panic {E A}.
Arguments NoFuel {E A}.

#[export] Instance outcome_ret E : MRet (Outcome E) := λ A a, Ok a.
#[export] Instance outcome_bind E : MBind (Outcome E) := λ A B f m,
  match m with
  | Ok a => f a
  | Err e => Err e
  | Panic => Panic
  | NoFuel => NoFuel
  end.
#[export] Instance outcome_fmap E : FMap (Outcome E) := λ A B f m,
  m ≫= λ a, Ok (f a).

(** [Option::ok_or], [Result::map_err], [Result::ok]. *)
Definition ok_or {E A} (o : option A) (e : E) : Outcome E A :=
  match o with Some a => Ok a | None => Err e end.
Definition map_err {E F A} (f : E → F) (m : Outcome E A) : Outcome F A :=
  match m with
  | Ok a => Ok a
  | Err e => Err (f e)
  | Panic => Panic
  | NoFuel => NoFuel
  end.
Definition is_err {E A} (m : Outcome E A) : bool :=
  match m with Err _ => true | _ => false end.

(** A fallible expression without a Rust panic and within its fuel. *)
Definition returns {E A} (m : Outcome E A) : Prop :=
  m ≠ Panic ∧ m ≠ NoFuel.

(** ** Machine integers

    An unsigned integer of [w] bits is a [Z] in [0, 2^w); [usize] is 64 bits
    wide. *)

Definition in_u (w x : Z) : Prop := 0 ≤ x < 2 ^ w.
Definition fits (w x : Z) : bool := (0 <=? x) && (x <? 2 ^ w).

Definition checked_add (w a b : Z) : option Z :=
  if fits w (a + b) then Some (a + b) else None.
Definition checked_sub (w a b : Z) : option Z :=
  if fits w (a - b) then Some (a - b) else None.
Definition checked_mul (w a b : Z) : option Z :=
  if fits w (a * b) then Some (a * b) else None.
Definition checked_div (a b : Z) : option Z :=
  if b =? 0 then None else Some (a / b).
Definition checked_rem (a b : Z) : option Z :=
  if b =? 0 then None else Some (a mod b).
Definition checked_pow (w a n : Z) : option Z :=
  if fits w (a ^ n) then Some (a ^ n) else None.
Definition saturating_add (w a b : Z) : Z := Z.min (a + b) (2 ^ w - 1).
Definition saturating_sub (a b : Z) : Z := Z.max (a - b) 0.
Definition wrap (w x : Z) : Z := x mod 2 ^ w.

(** [x.try_into()] to an unsigned type of [w] bits. *)
Definition try_into (w x : Z) : option Z :=
  if fits w x then Some x else None.

(** [usize::checked_next_multiple_of] for a positive multiple. *)
Definition checked_next_multiple_of (w a m : Z) : option Z :=
  let r := a mod m in
  if r =? 0 then Some a else checked_add w a (m - r).

(** [usize::div_ceil]. *)
Definition div_ceil (a b : Z) : Z :=
  a / b + (if a mod b =? 0 then 0 else 1).

(** The operators [+], [-] and [*] on an unsigned type: a result out of range
    panics in a build with overflow checks (debug) and wraps around in one
    without (release). *)
Class BuildProfile := overflow_checks : bool.

Section operators.
Context `{BuildProfile} {E : Type}.

Definition in_width (w x : Z) : Outcome E Z :=
  if fits w x then Ok x else if overflow_checks then Panic else Ok (wrap w x).
Definition u_add (w a b : Z) : Outcome E Z := in_width w (a + b).
Definition u_sub (w a b : Z) : Outcome E Z := in_width w (a - b).
Definition u_mul (w a b : Z) : Outcome E Z := in_width w (a * b).
End operators.

(** [Option::unwrap] and [expect]. *)
Definition unwrap {E A} (o : option A) : Outcome E A :=
  match o with Some a => Ok a | None => Panic end.

(** A fallible operation on a state behind [&self] with interior mutability or
    [&mut self]: the state reached is kept when the operation fails. *)
Definition StateT (S E A : Type) : Type := S → Outcome E A * S.
#[export] Instance state_ret S E : MRet (StateT S E) := λ A a s, (Ok a, s).
#[export] Instance state_bind S E : MBind (StateT S E) := λ A B f m s,
  let '(r, s) := m s in
  match r with
  | Ok a => f a s
  | Err e => (Err e, s)
  | Panic => (Panic, s)
  | NoFuel => (NoFuel, s)
  end.

Section state_operations.
Context {S E : Type}.

Definition state_lift {A} (m : Outcome E A) : StateT S E A := λ s, (m, s).
Definition state_gets {A} (f : S → A) : StateT S E A := λ s, (Ok (f s), s).
Definition state_modify (f : S → S) : StateT S E unit := λ s, (Ok tt, f s).
Definition state_throw {A} (e : E) : StateT S E A := λ s, (Err e, s).
End state_operations.

(** [?] on a result with another error. *)
Definition state_map_err {S E F A} (f : E → F) (m : StateT S E A) : StateT S F A := λ s,
  let '(r, s) := m s in (map_err f r, s).

(** The length of a Rust slice, as a [usize]. *)
Definition len {A} (l : list A) : Z := Z.of_nat (length l).

(** ** Automation *)

Create HintDb ethrex.
Create HintDb trie.

(** Turn boolean tests of the code into propositions. *)
Ltac propify :=
  repeat match goal with
  | H : andb _ _ = true |- _ => apply andb_true_iff in H as [??]
  | H : andb _ _ = false |- _ => apply andb_false_iff in H
  | H : orb _ _ = true |- _ => apply orb_true_iff in H
  | H : orb _ _ = false |- _ => apply orb_false_iff in H as [??]
  | H : negb _ = true |- _ => apply negb_true_iff in H
  | H : negb _ = false |- _ => apply negb_false_iff in H
  | H : Z.eqb _ _ = true |- _ => apply Z.eqb_eq in H
  | H : Z.eqb _ _ = false |- _ => apply Z.eqb_neq in H
  | H : Z.ltb _ _ = true |- _ => apply Z.ltb_lt in H
  | H : Z.ltb _ _ = false |- _ => apply Z.ltb_ge in H
  | H : Z.leb _ _ = true |- _ => apply Z.leb_le in H
  | H : Z.leb _ _ = false |- _ => apply Z.leb_gt in H
  | H : Z.gtb _ _ = true |- _ => rewrite Z.gtb_ltb in H
  | H : Z.gtb _ _ = false |- _ => rewrite Z.gtb_ltb in H
  | H : Z.geb _ _ = true |- _ => rewrite Z.geb_leb in H
  | H : Z.geb _ _ = false |- _ => rewrite Z.geb_leb in H
  end.

(** Case analysis on the innermost scrutinee of a match in a hypothesis. *)
Ltac destruct_inner H t :=
  lazymatch t with
  | context [match ?x with _ => _ end] => destruct_inner H x
  | _ => let E := fresh "E" in destruct t eqn:E
  end.
Ltac step_match_in H :=
  match type of H with
  | context [match ?x with _ => _ end] => destruct_inner H x
  end.

(** Evaluate a boolean test whose value linear arithmetic decides. *)
Ltac decide_tests :=
  repeat match goal with
  | |- context [Z.ltb ?a ?b] =>
      first [ rewrite (proj2 (Z.ltb_lt a b)) by lia
            | rewrite (proj2 (Z.ltb_ge a b)) by lia ]
  | |- context [Z.leb ?a ?b] =>
      first [ rewrite (proj2 (Z.leb_le a b)) by lia
            | rewrite (proj2 (Z.leb_gt a b)) by lia ]
  | |- context [Z.eqb ?a ?b] =>
      first [ rewrite (proj2 (Z.eqb_eq a b)) by lia
            | rewrite (proj2 (Z.eqb_neq a b)) by lia ]
  end; cbn [andb orb negb].

(** ** Lemmas on outcomes and checked arithmetic *)

Lemma fits_spec w x : fits w x = true ↔ in_u w x.
Proof. unfold fits, in_u. rewrite andb_true_iff, Z.leb_le, Z.ltb_lt. lia. Qed.

Lemma fits_false w x : fits w x = false ↔ ¬ in_u w x.
Proof. rewrite <-fits_spec. destruct (fits w x); naive_solver. Qed.

Lemma fits_true w x : in_u w x → fits w x = true.
Proof. apply fits_spec. Qed.

Lemma checked_add_Some w a b c :
  checked_add w a b = Some c ↔ c = a + b ∧ in_u w (a + b).
Proof.
  unfold checked_add. destruct (fits w (a + b)) eqn:E.
  - apply fits_spec in E. naive_solver.
  - apply fits_false in E. naive_solver.
Qed.

Lemma checked_sub_Some w a b c :
  checked_sub w a b = Some c ↔ c = a - b ∧ in_u w (a - b).
Proof.
  unfold checked_sub. destruct (fits w (a - b)) eqn:E.
  - apply fits_spec in E. naive_solver.
  - apply fits_false in E. naive_solver.
Qed.

Lemma checked_mul_Some w a b c :
  checked_mul w a b = Some c ↔ c = a * b ∧ in_u w (a * b).
Proof.
  unfold checked_mul. destruct (fits w (a * b)) eqn:E.
  - apply fits_spec in E. naive_solver.
  - apply fits_false in E. naive_solver.
Qed.

Lemma try_into_Some w x y : try_into w x = Some y ↔ y = x ∧ in_u w x.
Proof.
  unfold try_into. destruct (fits w x) eqn:E.
  - apply fits_spec in E. naive_solver.
  - apply fits_false in E. naive_solver.
Qed.

Lemma checked_add_in w a b : in_u w (a + b) → checked_add w a b = Some (a + b).
Proof. intros. by apply checked_add_Some. Qed.
Lemma checked_sub_in w a b : in_u w (a - b) → checked_sub w a b = Some (a - b).
Proof. intros. by apply checked_sub_Some. Qed.
Lemma checked_mul_in w a b : in_u w (a * b) → checked_mul w a b = Some (a * b).
Proof. intros. by apply checked_mul_Some. Qed.
Lemma try_into_in w x : in_u w x → try_into w x = Some x.
Proof. intros. by apply try_into_Some. Qed.
Lemma checked_add_None w a b : ¬ in_u w (a + b) → checked_add w a b = None.
Proof. intros ?%fits_false. unfold checked_add. by case_match. Qed.
Lemma checked_sub_None w a b : ¬ in_u w (a - b) → checked_sub w a b = None.
Proof. intros ?%fits_false. unfold checked_sub. by case_match. Qed.
Lemma checked_mul_None w a b : ¬ in_u w (a * b) → checked_mul w a b = None.
Proof. intros ?%fits_false. unfold checked_mul. by case_match. Qed.
Lemma try_into_None w x : ¬ in_u w x → try_into w x = None.
Proof. intros ?%fits_false. unfold try_into. by case_match. Qed.

Lemma checked_div_Some a b c : checked_div a b = Some c ↔ c = a / b ∧ b ≠ 0.
Proof. unfold checked_div. destruct (b =? 0) eqn:E; propify; naive_solver. Qed.

Lemma ok_or_Ok {E A} (o : option A) (e : E) a : ok_or o e = Ok a ↔ o = Some a.
Proof. destruct o; naive_solver. Qed.

Lemma bind_Ok {E A B} (m : Outcome E A) (f : A → Outcome E B) b :
  m ≫= f = Ok b ↔ ∃ a, m = Ok a ∧ f a = Ok b.
Proof. destruct m; unfold mbind, outcome_bind; naive_solver. Qed.

Lemma map_err_Ok {E F A} (f : E → F) (m : Outcome E A) a :
  map_err f m = Ok a ↔ m = Ok a.
Proof. destruct m; naive_solver. Qed.

Lemma checked_next_multiple_of_Some w a m r :
  0 ≤ a → 0 < m → checked_next_multiple_of w a m = Some r →
  a ≤ r < a + m ∧ r mod m = 0.
Proof.
  intros Ha Hm. unfold checked_next_multiple_of.
  pose proof (Z.mod_pos_bound a m Hm).
  destruct (a mod m =? 0) eqn:E; propify.
  - intros [= <-]. lia.
  - rewrite checked_add_Some. intros [-> _]. split; [lia|].
    replace (a + (m - a mod m)) with ((a / m + 1) * m)
      by (pose proof (Z.div_mod a m); lia).
    apply Z.mod_mul. lia.
Qed.

(** Fallible computations in a hypothesis [m = Ok a] are decomposed. *)
Ltac outcome_inv :=
  repeat match goal with
  | H : _ ≫= _ = Ok _ |- _ => apply bind_Ok in H as (? & ? & H)
  | H : ok_or _ _ = Ok _ |- _ => apply ok_or_Ok in H
  | H : map_err _ _ = Ok _ |- _ => apply map_err_Ok in H
  | H : checked_add _ _ _ = Some _ |- _ => apply checked_add_Some in H as [-> ?]
  | H : checked_sub _ _ _ = Some _ |- _ => apply checked_sub_Some in H as [-> ?]
  | H : checked_mul _ _ _ = Some _ |- _ => apply checked_mul_Some in H as [-> ?]
  | H : checked_div _ _ = Some _ |- _ => apply checked_div_Some in H as [-> ?]
  | H : try_into _ _ = Some _ |- _ => apply try_into_Some in H as [-> ?]
  | H : Ok _ = Ok _ |- _ => injection H as H
  | H : mret _ = Ok _ |- _ => injection H as H
  | H : Err _ = Ok _ |- _ => discriminate H
  | H : Panic = Ok _ |- _ => discriminate H
  | H : NoFuel = Ok _ |- _ => discriminate H
  end.

(** ** Bytes and big-endian numbers *)

Definition byte (b : Z) : Prop := 0 ≤ b < 256.
Definition bytes (bs : list Z) : Prop := Forall byte bs.

#[export] Instance byte_dec b : Decision (byte b).
Proof. unfold byte. apply _. Defined.
#[export] Instance bytes_dec bs : Decision (bytes bs).
Proof. unfold bytes. apply _. Defined.

(** [from_be_bytes] / [U256::from_big_endian]. *)
Definition be_decode (bs : list Z) : Z :=
  foldl (λ acc b, acc * 256 + b) 0 bs.

(** [to_be_bytes] / [U256::to_big_endian], [n] bytes wide. *)
Fixpoint be_encode (n : nat) (z : Z) : list Z :=
  match n with
  | O => []
  | S n => be_encode n (z / 256) ++ [z mod 256]
  end.

(** The bytes after the first non-zero one, that byte included. *)
Fixpoint strip_zeros (bs : list Z) : list Z :=
  match bs with
  | [] => []
  | b :: bs' => if b =? 0 then strip_zeros bs' else bs
  end.

Lemma be_decode_snoc bs b : be_decode (bs ++ [b]) = be_decode bs * 256 + b.
Proof. unfold be_decode. by rewrite foldl_app. Qed.

Lemma be_encode_length n z : length (be_encode n z) = n.
Proof.
  revert z. induction n as [|n IH]; intros z; [done|].
  cbn. rewrite length_app, IH. cbn. lia.
Qed.

Lemma be_encode_bytes n z : bytes (be_encode n z).
Proof.
  revert z. induction n as [|n IH]; intros z; [constructor|].
  cbn. apply Forall_app. split; [apply IH|].
  repeat constructor; pose proof (Z.mod_pos_bound z 256); lia.
Qed.

Lemma pow256_succ n : 256 ^ Z.of_nat (S n) = 256 * 256 ^ Z.of_nat n.
Proof. rewrite Nat2Z.inj_succ, Z.pow_succ_r; lia. Qed.

Lemma be_decode_encode n z :
  0 ≤ z < 256 ^ Z.of_nat n → be_decode (be_encode n z) = z.
Proof.
  revert z. induction n as [|n IH]; intros z Hz.
  - change (256 ^ Z.of_nat 0) with 1 in Hz. cbn. lia.
  - rewrite pow256_succ in Hz. cbn [be_encode]. rewrite be_decode_snoc, IH.
    + pose proof (Z.div_mod z 256). lia.
    + split; [apply Z.div_pos; lia|]. apply Z.div_lt_upper_bound; lia.
Qed.

Lemma be_decode_bound bs :
  bytes bs → 0 ≤ be_decode bs < 256 ^ Z.of_nat (length bs).
Proof.
  induction bs as [|b bs IH] using rev_ind; intros Hb.
  - cbn. lia.
  - apply Forall_app in Hb as [Hbs Hb]. rewrite Forall_singleton in Hb.
    specialize (IH Hbs). rewrite be_decode_snoc, length_app, Nat.add_comm.
    change (length [b] + length bs)%nat with (S (length bs)).
    rewrite pow256_succ. unfold byte in Hb. lia.
Qed.

Lemma be_encode_decode bs :
  bytes bs → be_encode (length bs) (be_decode bs) = bs.
Proof.
  induction bs as [|b bs IH] using rev_ind; intros Hb; [done|].
  apply Forall_app in Hb as [Hbs Hb]. rewrite Forall_singleton in Hb.
  rewrite be_decode_snoc, length_app, Nat.add_comm. unfold byte in Hb.
  change (length [b] + length bs)%nat with (S (length bs)). cbn [be_encode].
  rewrite Z.div_add_l, (Z.div_small b), Z.add_0_r, IH by (lia || done).
  f_equal. f_equal. rewrite Z.add_comm, Z.mod_add by lia.
  apply Z.mod_small. lia.
Qed.

Lemma be_decode_cons b bs :
  be_decode (b :: bs) = b * 256 ^ Z.of_nat (length bs) + be_decode bs.
Proof.
  induction bs as [|c bs IH] using rev_ind; [cbn; lia|].
  rewrite app_comm_cons, !be_decode_snoc, IH, length_app, Nat.add_comm.
  change (length [c] + length bs)%nat with (S (length bs)).
  rewrite pow256_succ. lia.
Qed.

Lemma be_decode_zeros k bs : be_decode (replicate k 0 ++ bs) = be_decode bs.
Proof.
  induction k as [|k IH]; [done|]. cbn [replicate app].
  rewrite be_decode_cons, IH. lia.
Qed.

Lemma strip_zeros_decode bs : be_decode (strip_zeros bs) = be_decode bs.
Proof.
  induction bs as [|b bs IH]; [done|]. cbn [strip_zeros].
  destruct (b =? 0) eqn:E; propify; [|done].
  rewrite IH, be_decode_cons. subst. lia.
Qed.

Lemma strip_zeros_bytes bs : bytes bs → bytes (strip_zeros bs).
Proof.
  induction 1 as [|b bs Hb Hbs IH]; cbn; [constructor|].
  destruct (b =? 0); [done|]. by constructor.
Qed.

Lemma strip_zeros_length bs : (length (strip_zeros bs) ≤ length bs)%nat.
Proof. induction bs as [|b bs IH]; cbn; [lia|]. destruct (b =? 0); cbn; lia. Qed.

(** [strip_zeros] is empty for zero, and starts with a non-zero byte else. *)
Lemma strip_zeros_head bs :
  strip_zeros bs = [] ∨ ∃ b bs', strip_zeros bs = b :: bs' ∧ b ≠ 0.
Proof.
  induction bs as [|b bs IH]; cbn; [by left|].
  destruct (b =? 0) eqn:E; propify; [done|]. right. eauto.
Qed.

Lemma strip_zeros_encode n z :
  0 ≤ z < 256 ^ Z.of_nat n → be_decode (strip_zeros (be_encode n z)) = z.
Proof. intros Hz. by rewrite strip_zeros_decode, be_decode_encode. Qed.

Lemma strip_zeros_replicate bs :
  replicate (length bs - length (strip_zeros bs)) 0 ++ strip_zeros bs = bs.
Proof.
  induction bs as [|b bs IH]; [done|]. cbn [strip_zeros].
  destruct (b =? 0) eqn:E; propify.
  - pose proof (strip_zeros_length bs). subst b. cbn [length].
    rewrite Nat.sub_succ_l by lia. cbn [replicate app]. by rewrite IH.
  - by rewrite Nat.sub_diag.
Qed.

#[export] Hint Resolve be_encode_bytes strip_zeros_bytes : ethrex.
#[export] Hint Rewrite @be_encode_length : ethrex.

(** ** Slices *)

(** [&l[a..b]] for in-range bounds. *)
Definition slice {A} (a b : Z) (l : list A) : list A :=
  take (Z.to_nat (b - a)) (drop (Z.to_nat a) l).

Lemma len_nonneg {A} (l : list A) : 0 ≤ len l.
Proof. unfold len. lia. Qed.

Lemma len_app {A} (l k : list A) : len (l ++ k) = len l + len k.
Proof. unfold len. rewrite length_app. lia. Qed.

Lemma len_cons {A} (x : A) l : len (x :: l) = len l + 1.
Proof. unfold len. cbn. lia. Qed.

Lemma len_nil {A} : len (@nil A) = 0.
Proof. done. Qed.

Lemma len_zero {A} (l : list A) : len l = 0 ↔ l = [].
Proof. unfold len. destruct l; cbn; naive_solver lia. Qed.

Lemma drop_len_app {A} (l k : list A) n :
  n = len l → drop (Z.to_nat n) (l ++ k) = k.
Proof. intros ->. unfold len. rewrite Nat2Z.id. apply drop_app_length. Qed.

Lemma take_len_app {A} (l k : list A) n :
  n = len l → take (Z.to_nat n) (l ++ k) = l.
Proof. intros ->. unfold len. rewrite Nat2Z.id. apply take_app_length. Qed.

#[export] Hint Rewrite @len_app @len_cons @len_nil : ethrex.

(** ** Sorting *)

(** [sort] of the standard library is stable: an element goes before those that
    are not smaller and came after it. *)
Section sorting.
Context {A : Type} (leb : A → A → bool).

Fixpoint sort_insert (x : A) (l : list A) : list A :=
  match l with
  | [] => [x]
  | y :: l' => if leb x y then x :: l else y :: sort_insert x l'
  end.
Definition stable_sort (l : list A) : list A := foldr sort_insert [] l.

Lemma sort_insert_perm x l : sort_insert x l ≡ₚ x :: l.
Proof.
  induction l as [|y l IH]; cbn; [done|]. destruct (leb x y); [done|].
  rewrite IH. apply Permutation_swap.
Qed.

Lemma stable_sort_perm l : stable_sort l ≡ₚ l.
Proof. induction l as [|x l IH]; cbn; [done|]. by rewrite sort_insert_perm, IH. Qed.

Hypothesis leb_total : ∀ x y, leb x y = true ∨ leb y x = true.
Hypothesis leb_trans : ∀ x y z, leb x y = true → leb y z = true → leb x z = true.

Lemma sort_insert_sorted x l :
  StronglySorted (λ a b, leb a b = true) l → StronglySorted (λ a b, leb a b = true) (sort_insert x l).
Proof.
  induction 1 as [|y l Hl IH Hy]; cbn; [by repeat constructor|].
  destruct (leb x y) eqn:E.
  - constructor; [by constructor|]. constructor; [done|]. eapply Forall_impl; [exact Hy|]. eauto.
  - assert (leb y x = true) as E' by (destruct (leb_total x y); congruence).
    constructor; [done|]. rewrite sort_insert_perm. by constructor.
Qed.

Lemma stable_sort_sorted l : StronglySorted (λ a b, leb a b = true) (stable_sort l).
Proof. induction l as [|x l IH]; cbn; [constructor|]. by apply sort_insert_sorted. Qed.
End sorting.
