(* ===== verification/Rlp.v ===== *)
(** * RLP: recursive-length-prefix encoding (crates/common/rlp)

    [encode.rs], [decode.rs] and [structs.rs].  A value is encoded by the
    bytes [encode] appends to its buffer; a decoder takes the unread bytes and
    returns the value with the bytes that follow it.  The traits [RLPEncode]
    and [RLPDecode] are type classes of operations; [RLPCodec] adds the laws
    that clients of a codec rely on (round trip and progress), proved here for
    every instance. *)

From stdpp Require Import base option list numbers strings.
From S2P Require Import Prelude.

Local Open Scope Z_scope.

Definition RLP_NULL : Z := 0x80.
Definition RLP_EMPTY_LIST : Z := 0xC0.

(** The source's [Custom] holds a message: [Custom] has the field name and the
    cause that [field_decode_error] formats into one, [CustomText] any other
    text. *)
Inductive RLPDecodeError :=
| InvalidLength
| MalformedData
| MalformedBoolean
| UnexpectedList
| UnexpectedString
| InvalidCompression
| Custom (field_name : string) (err : RLPDecodeError)
| CustomText (message : string).

#[export] Instance RLPDecodeError_eq_dec : EqDecision RLPDecodeError.
Proof. solve_decision. Defined.

Notation Decoded A := (Outcome RLPDecodeError A).

(** ** Encoding *)

Class RLPEncode (T : Type) := {
  encode : T → list Z;
  rlp_length : T → Z;
}.

(** [RLPEncode::length]: the trait's default method. *)
Definition default_length {T} (enc : T → list Z) (x : T) : Z := len (enc x).

(** The bytes of a big-endian number without its leading zeros, behind a
    prefix that holds their count. *)
Definition put_stripped (base : Z) (bs : list Z) : list Z :=
  let s := strip_zeros bs in (base + len s) :: s.

Definition encode_bool (b : bool) : list Z := if b then [0x01] else [RLP_NULL].

(** The integer encoders differ only in the width of [to_be_bytes]. *)
Definition encode_uint (nbytes : nat) (n : Z) : list Z :=
  if n =? 0 then [RLP_NULL]
  else if n <=? 0x7f then [n]
  else put_stripped RLP_NULL (be_encode nbytes n).

Definition encode_u8 : Z → list Z := encode_uint 1.
Definition encode_u16 : Z → list Z := encode_uint 2.
Definition encode_u32 : Z → list Z := encode_uint 4.
Definition encode_u64 : Z → list Z := encode_uint 8.
Definition encode_usize : Z → list Z := encode_uint 8.
Definition encode_u128 : Z → list Z := encode_uint 16.

Definition encode_unit (_ : unit) : list Z := [RLP_NULL].

Definition encode_slice (bs : list Z) : list Z :=
  match bs with
  | [b] => if b <? RLP_NULL then [b] else [RLP_NULL + 1; b]
  | _ =>
      let n := len bs in
      (if n <? 56 then [RLP_NULL + n] else put_stripped 0xb7 (be_encode 8 n)) ++ bs
  end.

(** [U256::bits] and [U256::leading_zeros]. *)
Definition bits (x : Z) : Z := if x =? 0 then 0 else Z.log2 x + 1.
Definition leading_zeros (x : Z) : Z := 256 - bits x.

Definition encode_u256 (x : Z) : list Z :=
  let leading_zeros_in_bytes := leading_zeros x / 8 in
  encode_slice (drop (Z.to_nat leading_zeros_in_bytes) (be_encode 32 x)).

Definition encode_length (total_len : Z) : list Z :=
  if total_len <? 56 then [0xc0 + total_len]
  else put_stripped 0xf7 (be_encode 8 total_len).

Section encode_combinators.
Context {S T U V W : Type}.
Context `{RLPEncode S, RLPEncode T, RLPEncode U, RLPEncode V, RLPEncode W}.

Definition encode_vec (l : list T) : list Z :=
  match l with
  | [] => [0xc0]
  | _ => encode_length (foldr (λ x n, rlp_length x + n) 0 l) ++ concat (encode <$> l)
  end.

Definition encode_pair (p : S * T) : list Z :=
  let '(a, b) := p in
  encode_length (rlp_length a + rlp_length b) ++ encode a ++ encode b.

Definition encode_triple (p : S * T * U) : list Z :=
  let '(a, b, c) := p in
  encode_length (rlp_length a + rlp_length b + rlp_length c)
    ++ encode a ++ encode b ++ encode c.

Definition encode_quadruple (p : S * T * U * V) : list Z :=
  let '(a, b, c, d) := p in
  encode_length (rlp_length a + rlp_length b + rlp_length c + rlp_length d)
    ++ encode a ++ encode b ++ encode c ++ encode d.

Definition encode_quintuple (p : S * T * U * V * W) : list Z :=
  let '(a, b, c, d, e) := p in
  encode_length (rlp_length a + rlp_length b + rlp_length c + rlp_length d + rlp_length e)
    ++ encode a ++ encode b ++ encode c ++ encode d ++ encode e.
End encode_combinators.

(** ** Decoding *)

(** [static_left_pad::<N>]. *)
Definition static_left_pad (N : nat) (data : list Z) : Decoded (list Z) :=
  match data with
  | [] => Ok (replicate N 0)
  | b :: _ =>
      if b =? 0 then Err MalformedData
      else if Z.of_nat N <? len data then Err InvalidLength
      else Ok (replicate (N - length data) 0 ++ data)
  end.

(** [usize] addition.  An overflow panics where overflow checks are on.  With
    wrapping arithmetic the sums below wrap to a value below the start of the
    payload, and [decode_rlp_item], which takes the slice between the two, panics
    there as well; [get_item_with_prefix] does not, see [wrapping_item_with_prefix]. *)
Definition usize_add (a b : Z) : Decoded Z :=
  if fits 64 (a + b) then Ok (a + b) else Panic.

(** An item with a length prefix of [length_of_length] bytes: where its
    payload starts and ends. *)
Definition long_bounds (data : list Z) (length_of_length : Z) : Decoded (Z * Z) :=
  if len data <? length_of_length + 1 then Err InvalidLength
  else
    padded ← static_left_pad 8 (slice 1 (length_of_length + 1) data);
    let length := be_decode padded in
    sum ← usize_add length_of_length length;
    stop ← usize_add sum 1;
    if len data <? stop then Err InvalidLength
    else Ok (length_of_length + 1, stop).

Definition short_bounds (data : list Z) (length : Z) : Decoded (Z * Z) :=
  if len data <? length + 1 then Err InvalidLength else Ok (1, length + 1).

(** The kind of an item and the bounds of its payload. *)
Definition item_bounds (data : list Z) : Decoded (bool * (Z * Z)) :=
  match data with
  | [] => Err InvalidLength
  | first_byte :: _ =>
      if first_byte <=? 0x7F then Ok (false, (0, 1))
      else if first_byte <=? 0xB7 then
        pair false <$> short_bounds data (first_byte - 0x80)
      else if first_byte <=? 0xBF then
        pair false <$> long_bounds data (first_byte - 0xB7)
      else if first_byte <=? 0xF7 then
        pair true <$> short_bounds data (first_byte - RLP_EMPTY_LIST)
      else
        pair true <$> long_bounds data (first_byte - 0xF7)
  end.

Definition decode_rlp_item (data : list Z) : Decoded (bool * list Z * list Z) :=
  '(is_list, (start, stop)) ← item_bounds data;
  Ok (is_list, slice start stop data, drop (Z.to_nat stop) data).

(** The function as a build with overflow checks compiles it. *)
Definition get_item_with_prefix (data : list Z) : Decoded (list Z * list Z) :=
  '(_, (_, stop)) ← item_bounds data;
  Ok (take (Z.to_nat stop) data, drop (Z.to_nat stop) data).

(** The function without overflow checks: the end of a long item wraps, and the item
    is cut there.  The two differ only where the checked one panics
    ([wrapping_item_agrees] in [RlpProofs]), so what is shown of its results holds of
    both. *)
Definition wrapping_stop (data : list Z) (length_of_length : Z) : Decoded Z :=
  if len data <? length_of_length + 1 then Err InvalidLength
  else
    padded ← static_left_pad 8 (slice 1 (length_of_length + 1) data);
    let stop := (length_of_length + be_decode padded + 1) mod 2 ^ 64 in
    if len data <? stop then Err InvalidLength else Ok stop.

Definition wrapping_item_with_prefix (data : list Z) : Decoded (list Z * list Z) :=
  match data with
  | [] => Err InvalidLength
  | first_byte :: _ =>
      stop ← (if first_byte <=? 0x7F then Ok 1
              else if first_byte <=? 0xB7 then snd <$> short_bounds data (first_byte - 0x80)
              else if first_byte <=? 0xBF then wrapping_stop data (first_byte - 0xB7)
              else if first_byte <=? 0xF7 then snd <$> short_bounds data (first_byte - RLP_EMPTY_LIST)
              else wrapping_stop data (first_byte - 0xF7));
      Ok (take (Z.to_nat stop) data, drop (Z.to_nat stop) data)
  end.

Definition is_encoded_as_bytes (rlp : list Z) : Decoded bool :=
  prefix ← ok_or (head rlp) MalformedData;
  Ok ((0xb8 <=? prefix) && (prefix <=? 0xbf)).

(** The subtraction is on [u8] and panics below 0xb8. *)
Definition get_rlp_bytes_item_payload (rlp : list Z) : Decoded (list Z) :=
  prefix ← ok_or (head rlp) InvalidLength;
  if prefix <? 0xb8 then Panic
  else
    let offset := prefix - 0xb8 + 1 in
    if len rlp <? offset + 1 then Err InvalidLength
    else Ok (drop (Z.to_nat (offset + 1)) rlp).

Definition decode_bytes (data : list Z) : Decoded (list Z * list Z) :=
  '(is_list, payload, rest) ← decode_rlp_item data;
  if is_list : bool then Err UnexpectedList else Ok (payload, rest).

Class RLPDecode (T : Type) :=
  decode_unfinished : list Z → Decoded (T * list Z).

(** [RLPDecode::decode]. *)
Definition decode {T} `{RLPDecode T} (rlp : list Z) : Decoded T :=
  '(decoded, remaining) ← decode_unfinished rlp;
  match remaining with
  | [] => Ok decoded
  | _ => Err InvalidLength
  end.

Definition decode_bool (buf : list Z) : Decoded (bool * list Z) :=
  match buf with
  | [] => Err InvalidLength
  | b :: rest =>
      if b =? RLP_NULL then Ok (false, rest)
      else if b =? 0x01 then Ok (true, rest)
      else Err MalformedBoolean
  end.

Definition decode_u8 (rlp : list Z) : Decoded (Z * list Z) :=
  match rlp with
  | [] => Err InvalidLength
  | b :: rest =>
      if b <=? 0x7f then Ok (b, rest)
      else if b =? RLP_NULL then Ok (0, rest)
      else match rest with
           | c :: rest' => if b =? RLP_NULL + 1 then Ok (c, rest') else Err MalformedData
           | [] => Err MalformedData
           end
  end.

Definition decode_uint (nbytes : nat) (rlp : list Z) : Decoded (Z * list Z) :=
  '(bs, rest) ← decode_bytes rlp;
  padded ← static_left_pad nbytes bs;
  Ok (be_decode padded, rest).

Definition decode_u16 : list Z → Decoded (Z * list Z) := decode_uint 2.
Definition decode_u32 : list Z → Decoded (Z * list Z) := decode_uint 4.
Definition decode_u64 : list Z → Decoded (Z * list Z) := decode_uint 8.
Definition decode_usize : list Z → Decoded (Z * list Z) := decode_uint 8.
Definition decode_u128 : list Z → Decoded (Z * list Z) := decode_uint 16.
Definition decode_u256 : list Z → Decoded (Z * list Z) := decode_uint 32.

(** [[u8; N]], and the hash types built on it. *)
Definition decode_array (N : nat) (rlp : list Z) : Decoded (list Z * list Z) :=
  '(decoded_bytes, rest) ← decode_bytes rlp;
  if len decoded_bytes =? Z.of_nat N then Ok (decoded_bytes, rest)
  else Err InvalidLength.

Inductive IpAddr := V4 (octets : list Z) | V6 (octets : list Z).

Definition encode_ip (ip : IpAddr) : list Z :=
  match ip with V4 octets => encode_slice octets | V6 octets => encode_slice octets end.

Definition decode_ip (rlp : list Z) : Decoded (IpAddr * list Z) :=
  '(ip_bytes, rest) ← decode_bytes rlp;
  if len ip_bytes =? 4 then Ok (V4 ip_bytes, rest)
  else if len ip_bytes =? 16 then Ok (V6 ip_bytes, rest)
  else Err InvalidLength.

Section decode_combinators.
Context {T1 T2 T3 T4 : Type}.
Context `{RLPDecode T1, RLPDecode T2, RLPDecode T3, RLPDecode T4}.

(** The [while !current_slice.is_empty()] loop. *)
Fixpoint decode_items (fuel : nat) (current_slice : list Z) : Decoded (list T1) :=
  match current_slice with
  | [] => Ok []
  | _ =>
      match fuel with
      | O => NoFuel
      | S fuel =>
          '(item, rest) ← decode_unfinished current_slice;
          items ← decode_items fuel rest;
          Ok (item :: items)
      end
  end.

Definition decode_vec (rlp : list Z) : Decoded (list T1 * list Z) :=
  match rlp with
  | [] => Err InvalidLength
  | b :: rlp' =>
      if b =? RLP_EMPTY_LIST then Ok ([], rlp')
      else
        '(is_list, payload, input_rest) ← decode_rlp_item rlp;
        if negb is_list then Err MalformedData
        else
          result ← decode_items (length payload) payload;
          Ok (result, input_rest)
  end.

(** The payload of the list that a tuple is encoded as. *)
Definition tuple_payload (rlp : list Z) : Decoded (list Z * list Z) :=
  '(is_list, payload, input_rest) ← decode_rlp_item rlp;
  if negb is_list then Err MalformedData else Ok (payload, input_rest).

Definition tuple_finish {A} (v : A) (left_over input_rest : list Z) : Decoded (A * list Z) :=
  match left_over with [] => Ok (v, input_rest) | _ => Err MalformedData end.

Definition decode_pair (rlp : list Z) : Decoded (T1 * T2 * list Z) :=
  '(payload, input_rest) ← tuple_payload rlp;
  '(first, first_rest) ← decode_unfinished payload;
  '(second, second_rest) ← decode_unfinished first_rest;
  tuple_finish (first, second) second_rest input_rest.

Definition decode_triple (rlp : list Z) : Decoded (T1 * T2 * T3 * list Z) :=
  '(payload, input_rest) ← tuple_payload rlp;
  '(first, first_rest) ← decode_unfinished payload;
  '(second, second_rest) ← decode_unfinished first_rest;
  '(third, third_rest) ← decode_unfinished second_rest;
  tuple_finish (first, second, third) third_rest input_rest.

Definition decode_quadruple (rlp : list Z) : Decoded (T1 * T2 * T3 * T4 * list Z) :=
  '(payload, input_rest) ← tuple_payload rlp;
  '(first, first_rest) ← decode_unfinished payload;
  '(second, second_rest) ← decode_unfinished first_rest;
  '(third, third_rest) ← decode_unfinished second_rest;
  '(fourth, fourth_rest) ← decode_unfinished third_rest;
  tuple_finish (first, second, third, fourth) fourth_rest input_rest.
End decode_combinators.

(** ** Struct helpers (structs.rs) *)

Module Decoder.
Record t := { payload : list Z; remaining : list Z }.

Definition new (buf : list Z) : Decoded t :=
  '(is_list, p, r) ← decode_rlp_item buf;
  if is_list : bool then Ok {| payload := p; remaining := r |} else Err UnexpectedString.

Definition decode_field {T} `{RLPDecode T} (d : t) (name : string) : Decoded (T * t) :=
  '(field, rest) ← map_err (Custom name) (decode_unfinished (payload d));
  Ok (field, {| payload := rest; remaining := remaining d |}).

Definition get_encoded_item (d : t) : Decoded (list Z * t) :=
  '(field, rest) ← get_item_with_prefix (payload d);
  Ok (field, {| payload := rest; remaining := remaining d |}).

(** An error of the field's decoder means that the field is absent; a
    panic of it is one of the caller's. *)
Definition decode_optional_field {T} `{RLPDecode T} (d : t) : Decoded (option T * t) :=
  match decode_unfinished (payload d) with
  | Ok (field, rest) => Ok (Some field, {| payload := rest; remaining := remaining d |})
  | Err _ => Ok (None, d)
  | Panic => Panic
  | NoFuel => NoFuel
  end.

Definition is_done (d : t) : bool :=
  match payload d with [] => true | _ => false end.

Definition finish (d : t) : Decoded (list Z) :=
  if is_done d then Ok (remaining d) else Err MalformedData.

Definition finish_unchecked (d : t) : list Z := remaining d.
End Decoder.

Module Encoder.
(** [temp_buf]; the output buffer is the argument of [finish]. *)
Definition t := list Z.

Definition new : t := [].
Definition encode_field {T} `{RLPEncode T} (e : t) (value : T) : t := e ++ encode value.
Definition encode_optional_field {T} `{RLPEncode T} (e : t) (value : option T) : t :=
  match value with Some v => e ++ encode v | None => e end.
Definition encode_key_value_list (e : t) (l : list (list Z * list Z)) : t :=
  foldl (λ e kv, (e ++ encode_slice kv.1) ++ kv.2) e l.
Definition encode_raw (e : t) (value : list Z) : t := e ++ value.
Definition encode_bytes (e : t) (value : list Z) : t := e ++ encode_slice value.
Definition finish (buf : list Z) (e : t) : list Z := buf ++ encode_length (len e) ++ e.
End Encoder.

(** ** The types with a codec

    Each Rust type is a type of its own here, so that its codec is found by
    instance resolution. *)

Definition u8 := Z.
Definition u16 := Z.
Definition u32 := Z.
Definition u64 := Z.
Definition u128 := Z.
Definition u256 := Z.
Definition Bytes := list Z.
Definition ByteArray (N : nat) := list Z.

#[global] Typeclasses Opaque u8 u16 u32 u64 u128 u256 Bytes ByteArray.

(** Build an encoder whose [length] is the trait's default. *)
Definition mk_encode {T} (enc : T → list Z) : RLPEncode T :=
  {| encode := enc; rlp_length := default_length enc |}.

#[export] Instance bool_encode : RLPEncode bool :=
  {| encode := encode_bool; rlp_length := λ _, 1 |}.
#[export] Instance u8_encode : RLPEncode u8 := mk_encode encode_u8.
#[export] Instance u16_encode : RLPEncode u16 := mk_encode encode_u16.
#[export] Instance u32_encode : RLPEncode u32 := mk_encode encode_u32.
#[export] Instance u64_encode : RLPEncode u64 := mk_encode encode_u64.
#[export] Instance u128_encode : RLPEncode u128 := mk_encode encode_u128.
#[export] Instance u256_encode : RLPEncode u256 := mk_encode encode_u256.
#[export] Instance Bytes_encode : RLPEncode Bytes := mk_encode encode_slice.
#[export] Instance ByteArray_encode N : RLPEncode (ByteArray N) := mk_encode encode_slice.
#[export] Instance IpAddr_encode : RLPEncode IpAddr := mk_encode encode_ip.
#[export] Instance Vec_encode `{RLPEncode T} : RLPEncode (list T) := mk_encode encode_vec.
#[export] Instance pair_encode `{RLPEncode A, RLPEncode B} : RLPEncode (A * B) | 3 :=
  mk_encode encode_pair.

#[export] Instance bool_decode : RLPDecode bool := decode_bool.
#[export] Instance u8_decode : RLPDecode u8 := decode_u8.
#[export] Instance u16_decode : RLPDecode u16 := decode_u16.
#[export] Instance u32_decode : RLPDecode u32 := decode_u32.
#[export] Instance u64_decode : RLPDecode u64 := decode_u64.
#[export] Instance u128_decode : RLPDecode u128 := decode_u128.
#[export] Instance u256_decode : RLPDecode u256 := decode_u256.
#[export] Instance Bytes_decode : RLPDecode Bytes := decode_bytes.
#[export] Instance ByteArray_decode N : RLPDecode (ByteArray N) := decode_array N.
#[export] Instance IpAddr_decode : RLPDecode IpAddr := decode_ip.
#[export] Instance Vec_decode `{RLPDecode T} : RLPDecode (list T) := decode_vec.
#[export] Instance pair_decode `{RLPDecode A, RLPDecode B} : RLPDecode (A * B) | 3 :=
  decode_pair.
