(* ===== verification/RlpProofs.v ===== *)
(** * Correctness of the RLP codecs

    The prefix written by an encoder is the one the decoder recognises
    ([decode_rlp_item_slice], [decode_rlp_item_list]); the codec laws for every
    scalar type, for [Bytes], fixed arrays, vectors and tuples; that a decoder
    splits its input; when it panics; and the struct helpers. *)

From stdpp Require Import base option list numbers strings.
From S2P Require Import Prelude Rlp.

Local Open Scope Z_scope.

(** The largest length of a Rust slice. *)
Definition isize_max : Z := 2 ^ 63 - 1.

(** ** The prefix of an item *)

Lemma static_left_pad_strip (N : nat) bs :
  length bs = N → static_left_pad N (strip_zeros bs) = Ok bs.
Proof.
  intros <-. pose proof (strip_zeros_length bs) as Hl.
  pose proof (strip_zeros_replicate bs) as Hr.
  destruct (strip_zeros_head bs) as [E|(b & bs' & E & Hb)].
  - rewrite E in *. cbn [static_left_pad].
    rewrite app_nil_r, Nat.sub_0_r in Hr. congruence.
  - unfold static_left_pad. rewrite E in *.
    destruct (b =? 0) eqn:Eb; propify; [done|]. unfold len. decide_tests.
    by rewrite Hr.
Qed.

(** A length of at least 56 is written with one to eight bytes. *)
Lemma stripped_length n :
  0 < n < 2 ^ 64 → 1 ≤ len (strip_zeros (be_encode 8 n)) ≤ 8.
Proof.
  intros Hn. pose proof (strip_zeros_length (be_encode 8 n)) as Hl.
  rewrite be_encode_length in Hl.
  pose proof (strip_zeros_encode 8 n) as Hd.
  unfold len. destruct (strip_zeros (be_encode 8 n)) as [|b s].
  - cbn in Hd. rewrite <-Hd in Hn by (change (256 ^ Z.of_nat 8) with (2 ^ 64); lia). lia.
  - cbn [length] in *. lia.
Qed.

Lemma long_bounds_put hd p rest n :
  56 ≤ n ≤ isize_max → len p = n →
  let s := strip_zeros (be_encode 8 n) in
  long_bounds (hd :: s ++ p ++ rest) (len s) = Ok (len s + 1, len s + n + 1).
Proof.
  intros Hn Hp s. unfold isize_max in Hn.
  assert (Hs : 1 ≤ len s ≤ 8) by (apply stripped_length; lia).
  assert (Hsl : slice 1 (len s + 1) (hd :: s ++ p ++ rest) = s).
  { unfold slice. change (Z.to_nat 1) with 1%nat. cbn [drop].
    apply take_len_app. lia. }
  unfold long_bounds. rewrite Hsl.
  rewrite len_cons, !len_app, Hp. pose proof (len_nonneg rest).
  assert (Hpad : static_left_pad 8 s = Ok (be_encode 8 n))
    by apply static_left_pad_strip, be_encode_length.
  decide_tests. rewrite Hpad. cbn [mbind outcome_bind].
  rewrite be_decode_encode by (change (256 ^ Z.of_nat 8) with (2 ^ 64); lia).
  unfold usize_add. rewrite fits_true by (unfold in_u; lia). cbn [mbind outcome_bind].
  rewrite fits_true by (unfold in_u; lia). cbn [mbind outcome_bind].
  by decide_tests.
Qed.

Lemma slice_payload (hd : Z) s p rest a b :
  a = len s + 1 → b = len s + len p + 1 →
  slice a b (hd :: s ++ p ++ rest) = p ∧
  drop (Z.to_nat b) (hd :: s ++ p ++ rest) = rest.
Proof.
  intros -> ->. unfold slice. split.
  - change (hd :: s ++ p ++ rest) with ((hd :: s) ++ p ++ rest).
    rewrite drop_len_app by (rewrite len_cons; lia).
    apply take_len_app. lia.
  - rewrite app_assoc.
    change (hd :: (s ++ p) ++ rest) with ((hd :: s ++ p) ++ rest).
    apply drop_len_app. rewrite len_cons, len_app. lia.
Qed.

(** A byte string is recognised as one, with its payload and what follows. *)
Lemma decode_rlp_item_slice bs rest :
  bytes bs → len bs ≤ isize_max →
  decode_rlp_item (encode_slice bs ++ rest) = Ok (false, bs, rest).
Proof.
  intros Hb Hl. unfold encode_slice, RLP_NULL. set (n := len bs) in *.
  assert (Hgen : decode_rlp_item
    (((if n <? 56 then [0x80 + n] else put_stripped 0xb7 (be_encode 8 n)) ++ bs) ++ rest)
    = Ok (false, bs, rest)).
  { pose proof (len_nonneg bs). destruct (n <? 56) eqn:E; propify.
    - cbn [app]. unfold decode_rlp_item, item_bounds. decide_tests.
      unfold short_bounds. rewrite len_cons, len_app. pose proof (len_nonneg rest).
      subst n. decide_tests. cbn [fmap outcome_fmap mbind outcome_bind].
      pose proof (slice_payload (0x80 + len bs) [] bs rest 1 (0x80 + len bs - 0x80 + 1))
        as [Hs Hd]; rewrite ?len_nil; [lia..|].
      cbn [app] in Hs, Hd. by rewrite Hs, Hd.
    - unfold put_stripped. set (s := strip_zeros (be_encode 8 n)).
      assert (Hs : 1 ≤ len s ≤ 8)
        by (apply stripped_length; unfold isize_max in Hl; lia).
      rewrite <-app_assoc. cbn [app].
      unfold decode_rlp_item, item_bounds. decide_tests.
      replace (0xb7 + len s - 0xB7) with (len s) by lia.
      rewrite (long_bounds_put _ bs rest n) by (done || lia).
      cbn [fmap outcome_fmap mbind outcome_bind].
      destruct (slice_payload (0xb7 + len s) s bs rest (len s + 1) (len s + n + 1))
        as [Hs1 Hs2]; [lia..|]. fold s. by rewrite Hs1, Hs2. }
  destruct bs as [|b [|b' bs]]; [exact Hgen| |exact Hgen].
  destruct (b <? 128) eqn:E; propify; [|exact Hgen].
  cbn [app]. unfold decode_rlp_item, item_bounds. by decide_tests.
Qed.

(** A list is recognised as one. *)
Lemma decode_rlp_item_list p rest :
  len p ≤ isize_max →
  decode_rlp_item (encode_length (len p) ++ p ++ rest) = Ok (true, p, rest).
Proof.
  intros Hl. unfold encode_length. pose proof (len_nonneg p).
  destruct (len p <? 56) eqn:E; propify.
  - cbn [app]. unfold decode_rlp_item, item_bounds. decide_tests.
    unfold short_bounds, RLP_EMPTY_LIST. rewrite len_cons, len_app. pose proof (len_nonneg rest).
    decide_tests. cbn [fmap outcome_fmap mbind outcome_bind].
    pose proof (slice_payload (0xc0 + len p) [] p rest 1 (0xc0 + len p - 0xc0 + 1))
      as [Hs Hd]; rewrite ?len_nil; [lia..|].
    cbn [app] in Hs, Hd. by rewrite Hs, Hd.
  - unfold put_stripped. set (s := strip_zeros (be_encode 8 (len p))).
    assert (Hs : 1 ≤ len s ≤ 8)
      by (apply stripped_length; unfold isize_max in Hl; lia).
    cbn [app]. unfold decode_rlp_item, item_bounds. decide_tests.
    replace (0xf7 + len s - 0xF7) with (len s) by lia.
    rewrite (long_bounds_put _ p rest (len p)) by (done || lia).
    cbn [fmap outcome_fmap mbind outcome_bind].
    destruct (slice_payload (0xf7 + len s) s p rest (len s + 1) (len s + len p + 1))
      as [Hs1 Hs2]; [lia..|]. fold s. by rewrite Hs1, Hs2.
Qed.

Lemma decode_bytes_slice bs rest :
  bytes bs → len bs ≤ isize_max →
  decode_bytes (encode_slice bs ++ rest) = Ok (bs, rest).
Proof. intros. unfold decode_bytes. by rewrite decode_rlp_item_slice. Qed.

(** An integer above 0x7f is encoded as its bytes without leading zeros. *)
Lemma encode_uint_slice nbytes n :
  (nbytes ≤ 32)%nat → 0 ≤ n < 256 ^ Z.of_nat nbytes →
  encode_uint nbytes n = encode_slice (strip_zeros (be_encode nbytes n)).
Proof.
  intros Hw Hn. unfold encode_uint, put_stripped.
  pose proof (strip_zeros_encode nbytes n Hn) as Hd.
  pose proof (strip_zeros_length (be_encode nbytes n)) as Hlen.
  rewrite be_encode_length in Hlen.
  pose proof (strip_zeros_bytes _ (be_encode_bytes nbytes n)) as Hby.
  destruct (strip_zeros_head (be_encode nbytes n)) as [E|(b & s & E & Hb)];
    rewrite E in *; unfold encode_slice, RLP_NULL.
  - cbn in Hd. subst n. done.
  - apply Forall_cons in Hby as [Hbb Hbs]. rewrite be_decode_cons in Hd.
    pose proof (be_decode_bound s Hbs). unfold byte in Hbb.
    destruct s as [|c s].
    + cbn in Hd. replace n with b by lia. unfold len. cbn [length].
      destruct (b <? 128) eqn:Eb; propify; by decide_tests.
    + assert (256 ≤ 256 ^ Z.of_nat (length (c :: s))).
      { cbn [length]. rewrite pow256_succ.
        pose proof (Z.pow_pos_nonneg 256 (Z.of_nat (length s))). lia. }
      assert (256 <= n) by nia. unfold len in *. cbn [length] in *. decide_tests. done.
Qed.

(** [U256] drops whole zero bytes by counting leading zero bits. *)
Lemma bits_bounds x k :
  0 < k → 256 ^ (k - 1) ≤ x < 256 ^ k → 8 * (k - 1) < bits x ≤ 8 * k.
Proof.
  intros Hk. change 256 with (2 ^ 8). rewrite <-!Z.pow_mul_r by lia. intros Hx.
  unfold bits. pose proof (Z.pow_pos_nonneg 2 (8 * (k - 1))).
  destruct (x =? 0) eqn:E; propify; [lia|].
  pose proof (Z.log2_le_mono _ _ (proj1 Hx)) as H1.
  rewrite Z.log2_pow2 in H1 by lia.
  pose proof (proj1 (Z.log2_lt_pow2 x (8 * k) ltac:(lia)) (proj2 Hx)). lia.
Qed.

Lemma u256_strip x :
  0 ≤ x < 2 ^ 256 →
  drop (Z.to_nat (leading_zeros x / 8)) (be_encode 32 x) = strip_zeros (be_encode 32 x).
Proof.
  intros Hx. change (2 ^ 256) with (256 ^ Z.of_nat 32) in Hx.
  pose proof (strip_zeros_encode 32 x Hx) as Hd.
  pose proof (strip_zeros_replicate (be_encode 32 x)) as Hr.
  pose proof (strip_zeros_length (be_encode 32 x)) as Hlen.
  pose proof (strip_zeros_bytes _ (be_encode_bytes 32 x)) as Hby.
  rewrite be_encode_length in Hr, Hlen.
  set (s := strip_zeros (be_encode 32 x)) in *.
  assert (Hk : leading_zeros x / 8 = 32 - len s).
  { destruct (strip_zeros_head (be_encode 32 x)) as [E|(b & s' & E & Hb)]; fold s in E.
    - rewrite E in *. cbn in Hd. by subst x.
    - assert (len s = len s' + 1) as Hls by (by rewrite E, len_cons).
      pose proof (be_decode_bound s Hby) as Hhi. rewrite Hd in Hhi.
      rewrite E in Hby, Hd. apply Forall_cons in Hby as [Hbb Hbs].
      rewrite be_decode_cons in Hd. pose proof (be_decode_bound s' Hbs) as Hlo. unfold byte in Hbb.
      pose proof (bits_bounds x (len s)) as Hbits. unfold leading_zeros.
      fold (len s) in Hhi. fold (len s') in *. pose proof (len_nonneg s').
      replace (len s - 1) with (len s') in Hbits by lia.
      assert (8 * len s' < bits x ≤ 8 * len s) as Hbx by (apply Hbits; [lia|nia]).
      unfold len in *. clear -Hbx Hls Hlen. Z.to_euclidean_division_equations. lia. }
  rewrite Hk. rewrite <-Hr at 1. unfold len.
  replace (Z.to_nat (32 - Z.of_nat (length s)))
    with (length (replicate (32 - length s) 0)) by (rewrite length_replicate; lia).
  apply drop_app_length.
Qed.

(** ** The codec laws *)

(** The values a type's codec is used for. *)
Class RLPValid (T : Type) := rlp_valid : T → Prop.

(** What a codec promises to the code that uses it. *)
Class RLPCodec (T : Type) `{RLPEncode T, RLPDecode T, RLPValid T} := {
  codec_length (x : T) : rlp_length x = len (encode x);
  codec_roundtrip (x : T) rest :
    rlp_valid x → len (encode x) ≤ isize_max →
    decode_unfinished (encode x ++ rest) = Ok (x, rest);
  codec_progress (x : T) d rest :
    decode_unfinished d = Ok (x, rest) → (length rest < length d)%nat;
  codec_fuel d : decode_unfinished (T := T) d ≠ NoFuel;
  codec_bytes (x : T) : rlp_valid x → bytes (encode x);
}.

#[export] Instance bool_valid : RLPValid bool := λ _, True.
#[export] Instance u8_valid : RLPValid u8 := in_u 8.
#[export] Instance u16_valid : RLPValid u16 := in_u 16.
#[export] Instance u32_valid : RLPValid u32 := in_u 32.
#[export] Instance u64_valid : RLPValid u64 := in_u 64.
#[export] Instance u128_valid : RLPValid u128 := in_u 128.
#[export] Instance u256_valid : RLPValid u256 := in_u 256.
#[export] Instance Bytes_valid : RLPValid Bytes := bytes.
#[export] Instance ByteArray_valid N : RLPValid (ByteArray N) :=
  λ bs, bytes bs ∧ length bs = N.
#[export] Instance IpAddr_valid : RLPValid IpAddr := λ ip,
  match ip with
  | V4 o => bytes o ∧ length o = 4%nat
  | V6 o => bytes o ∧ length o = 16%nat
  end.
#[export] Instance Vec_valid `{RLPValid T} : RLPValid (list T) := Forall rlp_valid.
#[export] Instance pair_valid `{RLPValid A, RLPValid B} : RLPValid (A * B) :=
  λ p, rlp_valid p.1 ∧ rlp_valid p.2.

(** Every item is at least one byte long. *)
Lemma item_bounds_stop data k a b :
  item_bounds data = Ok (k, (a, b)) → 1 ≤ b ≤ len data.
Proof.
  assert (Hshort : ∀ n a b, 0 ≤ n → short_bounds data n = Ok (a, b) → 1 ≤ b ≤ len data).
  { intros n a' b' Hn. unfold short_bounds.
    destruct (len data <? n + 1) eqn:E; propify; intros; simplify_eq. lia. }
  assert (Hlong : ∀ n a b, long_bounds data n = Ok (a, b) → 1 ≤ b ≤ len data).
  { intros n a' b'. unfold long_bounds, usize_add.
    destruct (len data <? n + 1); [done|]. intros H. outcome_inv.
    destruct (fits _ _) eqn:E1; [|done]. outcome_inv. subst.
    destruct (fits _ (_ + 1)) eqn:E2; [|done]. outcome_inv. subst.
    destruct (len data <? _) eqn:E3; propify; outcome_inv. simplify_eq.
    apply fits_spec in E1. unfold in_u in E1. lia. }
  unfold item_bounds. destruct data as [|c data']; [done|].
  repeat case_match; unfold fmap, outcome_fmap; intros Hi; outcome_inv; simplify_eq; propify;
    try (rewrite len_cons; pose proof (len_nonneg data'); lia);
    try (eapply Hlong; done); (eapply Hshort; [|done]); unfold RLP_EMPTY_LIST; lia.
Qed.

Lemma decode_rlp_item_progress data k p rest :
  decode_rlp_item data = Ok (k, p, rest) → (length rest < length data)%nat.
Proof.
  unfold decode_rlp_item. intros Hi. outcome_inv.
  destruct x as [k' [a b]]. simplify_eq.
  apply item_bounds_stop in H. rewrite length_drop. unfold len in H. lia.
Qed.

Lemma decode_bytes_progress data p rest :
  decode_bytes data = Ok (p, rest) → (length rest < length data)%nat.
Proof.
  unfold decode_bytes. intros Hi. outcome_inv. destruct x as [[k p'] r].
  destruct k; simplify_eq. by eapply decode_rlp_item_progress.
Qed.

Lemma decode_uint_roundtrip nbytes n rest :
  (nbytes ≤ 32)%nat → 0 ≤ n < 256 ^ Z.of_nat nbytes →
  decode_uint nbytes (encode_slice (strip_zeros (be_encode nbytes n)) ++ rest) = Ok (n, rest).
Proof.
  intros Hw Hn. unfold decode_uint.
  pose proof (strip_zeros_length (be_encode nbytes n)) as Hl. rewrite be_encode_length in Hl.
  rewrite decode_bytes_slice by (auto with ethrex || (unfold isize_max, len; lia)).
  cbn [mbind outcome_bind]. rewrite static_left_pad_strip by apply be_encode_length.
  cbn [mbind outcome_bind]. by rewrite be_decode_encode.
Qed.

Lemma decode_uint_progress nbytes d x rest :
  decode_uint nbytes d = Ok (x, rest) → (length rest < length d)%nat.
Proof.
  unfold decode_uint. intros Hi. outcome_inv. destruct x0 as [bs r]. outcome_inv.
  simplify_eq. by eapply decode_bytes_progress.
Qed.

Lemma uint_codec nbytes (n : Z) rest :
  (nbytes ≤ 32)%nat → in_u (8 * Z.of_nat nbytes) n →
  decode_uint nbytes (encode_uint nbytes n ++ rest) = Ok (n, rest).
Proof.
  intros Hw Hn. assert (0 ≤ n < 256 ^ Z.of_nat nbytes).
  { unfold in_u in Hn. change 256 with (2 ^ 8). rewrite <-Z.pow_mul_r by lia. lia. }
  rewrite encode_uint_slice by done. by apply decode_uint_roundtrip.
Qed.

(** ** No decoder runs out of fuel *)

Lemma static_left_pad_fuel N d : static_left_pad N d ≠ NoFuel.
Proof. unfold static_left_pad. repeat case_match; done. Qed.

Lemma item_bounds_fuel d : item_bounds d ≠ NoFuel.
Proof.
  unfold item_bounds, short_bounds, long_bounds, usize_add, fmap, outcome_fmap,
    mbind, outcome_bind, static_left_pad.
  repeat case_match; simplify_eq; done.
Qed.

Lemma bind_fuel {E A B} (m : Outcome E A) (f : A → Outcome E B) :
  m ≠ NoFuel → (∀ a, m = Ok a → f a ≠ NoFuel) → m ≫= f ≠ NoFuel.
Proof. destruct m; cbn; naive_solver. Qed.

Lemma decode_rlp_item_fuel d : decode_rlp_item d ≠ NoFuel.
Proof.
  apply bind_fuel; [apply item_bounds_fuel|]. by intros [? [? ?]].
Qed.

Lemma decode_bytes_fuel d : decode_bytes d ≠ NoFuel.
Proof.
  apply bind_fuel; [apply decode_rlp_item_fuel|]. by intros [[[] ?] ?].
Qed.

Lemma decode_uint_fuel n d : decode_uint n d ≠ NoFuel.
Proof.
  apply bind_fuel; [apply decode_bytes_fuel|]. intros [? ?] _.
  apply bind_fuel; [apply static_left_pad_fuel|]. done.
Qed.

#[export] Hint Resolve decode_uint_fuel decode_bytes_fuel decode_rlp_item_fuel : ethrex.

(** ** Encoders write bytes *)

Lemma put_stripped_bytes base n : 0 ≤ base ≤ 247 → bytes (put_stripped base (be_encode 8 n)).
Proof.
  intros. unfold put_stripped. constructor; [|apply strip_zeros_bytes, be_encode_bytes].
  pose proof (strip_zeros_length (be_encode 8 n)) as Hl. rewrite be_encode_length in Hl.
  unfold byte, len. lia.
Qed.

Lemma encode_slice_bytes bs : bytes bs → bytes (encode_slice bs).
Proof.
  intros Hb.
  assert (bytes ((if len bs <? 56 then [RLP_NULL + len bs] else put_stripped 0xb7 (be_encode 8 (len bs))) ++ bs))
    as Hgen.
  { apply Forall_app. split; [|done]. destruct (len bs <? 56) eqn:E; propify.
    - repeat constructor; unfold RLP_NULL; pose proof (len_nonneg bs); lia.
    - apply put_stripped_bytes. lia. }
  destruct bs as [|b [|b' bs]]; [exact Hgen| |exact Hgen].
  unfold encode_slice. destruct (b <? RLP_NULL); [exact Hb|exact Hgen].
Qed.

Lemma encode_length_bytes n : 0 ≤ n → bytes (encode_length n).
Proof.
  intros Hn. unfold encode_length. destruct (n <? 56) eqn:E; propify.
  - repeat constructor; lia.
  - apply put_stripped_bytes. lia.
Qed.

Lemma encode_uint_bytes nbytes n :
  (nbytes ≤ 32)%nat → in_u (8 * Z.of_nat nbytes) n → bytes (encode_uint nbytes n).
Proof.
  intros Hw Hn. assert (0 ≤ n < 256 ^ Z.of_nat nbytes).
  { unfold in_u in Hn. change 256 with (2 ^ 8). rewrite <-Z.pow_mul_r by lia. lia. }
  rewrite encode_uint_slice by done. apply encode_slice_bytes, strip_zeros_bytes, be_encode_bytes.
Qed.

(** ** Codec instances *)

Lemma bool_codec_roundtrip b rest : decode_bool (encode_bool b ++ rest) = Ok (b, rest).
Proof. by destruct b. Qed.

#[export] Instance bool_codec : RLPCodec bool.
Proof.
  split.
  - by intros [].
  - intros b rest _ _. apply bool_codec_roundtrip.
  - intros x [|b d] rest; [done|].
    unfold decode_unfinished, bool_decode, decode_bool.
    repeat case_match; intros; simplify_eq; cbn; lia.
  - intros [|b d]; [done|].
    unfold decode_unfinished, bool_decode, decode_bool. by repeat case_match.
  - intros [] _; by repeat constructor.
Qed.

Lemma u8_roundtrip n rest : in_u 8 n → decode_u8 (encode_u8 n ++ rest) = Ok (n, rest).
Proof.
  intros Hn. unfold in_u in Hn.
  unfold encode_u8, encode_uint, put_stripped, decode_u8, RLP_NULL.
  destruct (n =? 0) eqn:E0; propify; [by subst|].
  destruct (n <=? 0x7f) eqn:E1; propify; [cbn [app]; by decide_tests|].
  cbn [be_encode app strip_zeros]. rewrite Z.mod_small by lia. by decide_tests.
Qed.

#[export] Instance u8_codec : RLPCodec u8.
Proof.
  split.
  - done.
  - intros n rest Hn _. by apply u8_roundtrip.
  - intros x d rest. unfold decode_unfinished, u8_decode, decode_u8.
    repeat case_match; intros; simplify_eq; cbn; lia.
  - intros d. unfold decode_unfinished, u8_decode, decode_u8. by repeat case_match.
  - intros n Hn. apply (encode_uint_bytes 1); [lia|done].
Qed.

(** The wider integers share their proof. *)
Ltac solve_uint_codec n :=
  split;
  [ done
  | intros ? ? ? _; apply (uint_codec n); [lia|assumption]
  | intros ? ? ?; apply (decode_uint_progress n)
  | intros ?; apply (decode_uint_fuel n)
  | intros ? ?; apply (encode_uint_bytes n); [lia|assumption] ].

#[export] Instance u16_codec : RLPCodec u16.
Proof. solve_uint_codec 2%nat. Qed.
#[export] Instance u32_codec : RLPCodec u32.
Proof. solve_uint_codec 4%nat. Qed.
#[export] Instance u64_codec : RLPCodec u64.
Proof. solve_uint_codec 8%nat. Qed.
#[export] Instance u128_codec : RLPCodec u128.
Proof. solve_uint_codec 16%nat. Qed.

#[export] Instance u256_codec : RLPCodec u256.
Proof.
  split; [done| |intros ? ? ?; apply decode_uint_progress|intros ?; apply decode_uint_fuel|].
  - intros x rest Hx _. unfold encode, u256_encode, mk_encode, encode_u256.
    unfold rlp_valid, u256_valid, in_u in Hx. rewrite u256_strip by done.
    by apply decode_uint_roundtrip.
  - intros x _. apply encode_slice_bytes, Forall_drop, be_encode_bytes.
Qed.

Lemma encode_slice_length bs : len bs ≤ len (encode_slice bs).
Proof.
  assert (∀ p : list Z, len bs ≤ len (p ++ bs))
    by (intros p; rewrite len_app; pose proof (len_nonneg p); lia).
  unfold encode_slice. destruct bs as [|b [|b' bs]]; [done| |done].
  case_match; rewrite ?len_cons, ?len_nil; lia.
Qed.

#[export] Instance Bytes_codec : RLPCodec Bytes.
Proof.
  split.
  - done.
  - intros bs rest Hb Hl. pose proof (encode_slice_length bs).
    unfold encode, Bytes_encode, mk_encode in *. apply decode_bytes_slice; [done|lia].
  - intros ? ? ?. apply decode_bytes_progress.
  - intros d. apply decode_bytes_fuel.
  - apply encode_slice_bytes.
Qed.

#[export] Instance ByteArray_codec N : RLPCodec (ByteArray N).
Proof.
  split.
  - done.
  - intros bs rest [Hb Hn] Hl. pose proof (encode_slice_length bs).
    unfold encode, ByteArray_encode, mk_encode, decode_unfinished, ByteArray_decode,
      decode_array in *.
    rewrite decode_bytes_slice by (done || lia). cbn [mbind outcome_bind].
    unfold len. rewrite Hn. by rewrite Z.eqb_refl.
  - intros x d rest. unfold decode_unfinished, ByteArray_decode, decode_array. intros Hi.
    outcome_inv. destruct x0 as [bs r]. case_match; simplify_eq.
    by eapply decode_bytes_progress.
  - intros d. apply bind_fuel; [apply decode_bytes_fuel|].
    intros [? ?] _. by case_match.
  - intros bs [Hb _]. by apply encode_slice_bytes.
Qed.

#[export] Instance IpAddr_codec : RLPCodec IpAddr.
Proof.
  split.
  - done.
  - intros ip rest Hv Hl.
    unfold encode, IpAddr_encode, mk_encode, decode_unfinished, IpAddr_decode, decode_ip in *.
    destruct ip as [o|o]; destruct Hv as [Hb Hn]; cbn [encode_ip] in *;
      pose proof (encode_slice_length o);
      rewrite decode_bytes_slice by (done || lia); cbn [mbind outcome_bind];
      unfold len; rewrite Hn; done.
  - intros x d rest. unfold decode_unfinished, IpAddr_decode, decode_ip. intros Hi.
    outcome_inv. destruct x0 as [bs r]. repeat case_match; simplify_eq;
    by eapply decode_bytes_progress.
  - intros d. apply bind_fuel; [apply decode_bytes_fuel|].
    intros [? ?] _. by repeat case_match.
  - intros [o|o] [Hb _]; by apply encode_slice_bytes.
Qed.

(** ** Vectors and tuples, against the interface of their elements *)

Section combinators.
Context {T : Type} `{Hc : RLPCodec T}.

Lemma codec_nonempty (x : T) :
  rlp_valid x → len (encode x) ≤ isize_max → (0 < length (encode x))%nat.
Proof.
  intros Hv Hl. pose proof (codec_roundtrip x [] Hv Hl) as Hr.
  apply codec_progress in Hr. rewrite app_nil_r in Hr. lia.
Qed.

Lemma total_len_payload (l : list T) :
  foldr (λ x n, rlp_length x + n) 0 l = len (concat (encode <$> l)).
Proof.
  induction l as [|x l IH]; [done|]. cbn.
  by rewrite IH, len_app, codec_length.
Qed.

Lemma decode_items_concat fuel (l : list T) :
  Forall rlp_valid l → len (concat (encode <$> l)) ≤ isize_max →
  (length (concat (encode <$> l)) ≤ fuel)%nat →
  decode_items fuel (concat (encode <$> l)) = Ok l.
Proof.
  intros Hv. revert fuel. induction Hv as [|x l Hx Hv IH]; intros fuel Hl Hf.
  - by destruct fuel.
  - cbn in Hl, Hf |- *. rewrite len_app in Hl. rewrite length_app in Hf.
    set (rest := concat (encode <$> l)) in *. pose proof (len_nonneg rest).
    pose proof (codec_nonempty x Hx ltac:(lia)) as Hne.
    pose proof (codec_roundtrip x rest Hx) as Hr. specialize (Hr ltac:(lia)).
    destruct fuel as [|fuel]; [lia|].
    destruct (encode x ++ rest) as [|b d] eqn:E.
    { apply (f_equal length) in E. rewrite length_app in E. cbn in E. lia. }
    cbn [decode_items]. rewrite Hr. cbn [mbind outcome_bind].
    pose proof (len_nonneg (encode x)). by rewrite IH by lia.
Qed.

Lemma decode_items_fuel fuel d :
  (length d ≤ fuel)%nat → decode_items (T1 := T) fuel d ≠ NoFuel.
Proof.
  revert d. induction fuel as [|fuel IH]; intros d Hd.
  - destruct d; [done|cbn in Hd; lia].
  - destruct d as [|b d]; [done|]. cbn [decode_items].
    apply bind_fuel; [apply codec_fuel|]. intros [x r] Hx.
    apply codec_progress in Hx. cbn in *.
    apply bind_fuel; [apply IH; lia|done].
Qed.

Lemma decode_vec_roundtrip (l : list T) rest :
  Forall rlp_valid l → len (encode_vec l) ≤ isize_max →
  decode_vec (encode_vec l ++ rest) = Ok (l, rest).
Proof.
  intros Hv Hl. destruct l as [|x l]; [done|].
  unfold encode_vec in *. rewrite total_len_payload in *.
  set (p := concat (encode <$> x :: l)) in *. rewrite len_app in Hl.
  pose proof (len_nonneg (encode_length (len p))).
  assert (0 < length p)%nat as Hp.
  { apply Forall_cons in Hv as [Hx _]. subst p. cbn in *.
    rewrite len_app in *. pose proof (len_nonneg (concat (encode <$> l))).
    pose proof (codec_nonempty x Hx ltac:(lia)). rewrite length_app. lia. }
  rewrite <-app_assoc. pose proof (decode_rlp_item_list p rest ltac:(lia)) as Hi.
  unfold decode_vec. destruct (encode_length (len p) ++ p ++ rest) as [|b d] eqn:E.
  { done. }
  assert (b ≠ RLP_EMPTY_LIST) as Hb.
  { unfold encode_length, put_stripped, RLP_EMPTY_LIST in *.
    remember (strip_zeros (be_encode 8 (len p))) as s eqn:Es. clear Es.
    pose proof (len_nonneg s). assert (0 < len p) by (unfold len; lia).
    apply (f_equal head) in E.
    destruct (len p <? 56); cbn [app head] in E; injection E as E; lia. }
  rewrite (proj2 (Z.eqb_neq _ _) Hb), Hi. cbn [mbind outcome_bind negb].
  pose proof (decode_items_concat (length p) (x :: l) Hv) as Hd. fold p in Hd.
  by rewrite Hd by lia.
Qed.

Lemma decode_vec_fuel d : decode_vec (T1 := T) d ≠ NoFuel.
Proof.
  destruct d as [|b d]; [done|]. unfold decode_vec. case_match; [done|].
  apply bind_fuel; [apply decode_rlp_item_fuel|]. intros [[[] p] r] _; [|done].
  apply bind_fuel; [by apply decode_items_fuel|done].
Qed.

#[export] Instance Vec_codec : RLPCodec (list T).
Proof.
  split; [done|by intros ????; apply decode_vec_roundtrip| |apply decode_vec_fuel|].
  - intros l d rest. unfold decode_unfinished, Vec_decode, decode_vec.
    destruct d as [|b d]; [done|]. case_match; [intros; simplify_eq; cbn; lia|].
    intros Hi. outcome_inv. destruct x as [[[] p] r]; cbn in Hi; outcome_inv; simplify_eq.
    by eapply decode_rlp_item_progress.
  - intros l Hl. change (encode l) with (encode_vec l). unfold encode_vec.
    destruct l as [|x l]; [repeat constructor; lia|]. apply Forall_app. split.
    + apply encode_length_bytes. rewrite total_len_payload. apply len_nonneg.
    + apply Forall_concat, Forall_fmap. eapply Forall_impl; [exact Hl|apply codec_bytes].
Qed.
End combinators.
#[export] Existing Instance Vec_codec.

Lemma tuple_payload_list p n rest :
  n = len p → len p ≤ isize_max →
  tuple_payload (encode_length n ++ p ++ rest) = Ok (p, rest).
Proof. intros -> Hl. unfold tuple_payload. by rewrite decode_rlp_item_list. Qed.

Lemma tuple_payload_progress d p rest :
  tuple_payload d = Ok (p, rest) → (length rest < length d)%nat.
Proof.
  unfold tuple_payload. intros Hi. outcome_inv. destruct x as [[[] p'] r]; cbn in Hi;
    simplify_eq. by eapply decode_rlp_item_progress.
Qed.

Lemma tuple_payload_fuel d : tuple_payload d ≠ NoFuel.
Proof. apply bind_fuel; [apply decode_rlp_item_fuel|]. by intros [[[] ?] ?]. Qed.

(** One field of a tuple read off the front of the unread payload. *)
Ltac tuple_field :=
  rewrite <-?app_assoc, codec_roundtrip by (done || lia); cbn [mbind outcome_bind].

Section tuples.
Context {A B C D : Type}.
Context `{HA : RLPCodec A, HB : RLPCodec B, HC : RLPCodec C, HD : RLPCodec D}.

Lemma decode_pair_roundtrip (a : A) (b : B) rest :
  rlp_valid a → rlp_valid b → len (encode a ++ encode b) ≤ isize_max →
  decode_pair (encode_pair (a, b) ++ rest) = Ok ((a, b), rest).
Proof.
  intros Ha Hb Hl. pose proof Hl as Hl'. rewrite len_app in Hl'.
  pose proof (len_nonneg (encode a)). pose proof (len_nonneg (encode b)).
  unfold encode_pair, decode_pair. rewrite <-app_assoc.
  rewrite tuple_payload_list by (rewrite ?codec_length, ?len_app in *; lia).
  cbn [mbind outcome_bind]. tuple_field.
  rewrite <-(app_nil_r (encode b)). tuple_field. done.
Qed.

Lemma decode_triple_roundtrip (a : A) (b : B) (c : C) rest :
  rlp_valid a → rlp_valid b → rlp_valid c →
  len (encode a ++ encode b ++ encode c) ≤ isize_max →
  decode_triple (encode_triple (a, b, c) ++ rest) = Ok ((a, b, c), rest).
Proof.
  intros Ha Hb Hc Hl. pose proof Hl as Hl'. rewrite !len_app in Hl'.
  pose proof (len_nonneg (encode a)). pose proof (len_nonneg (encode b)).
  pose proof (len_nonneg (encode c)).
  unfold encode_triple, decode_triple. rewrite <-app_assoc.
  rewrite tuple_payload_list by (rewrite ?codec_length, ?len_app in *; lia).
  cbn [mbind outcome_bind]. tuple_field. tuple_field.
  rewrite <-(app_nil_r (encode c)). tuple_field. done.
Qed.

Lemma decode_quadruple_roundtrip (a : A) (b : B) (c : C) (d : D) rest :
  rlp_valid a → rlp_valid b → rlp_valid c → rlp_valid d →
  len (encode a ++ encode b ++ encode c ++ encode d) ≤ isize_max →
  decode_quadruple (encode_quadruple (a, b, c, d) ++ rest) = Ok ((a, b, c, d), rest).
Proof.
  intros Ha Hb Hc Hd Hl. pose proof Hl as Hl'. rewrite !len_app in Hl'.
  pose proof (len_nonneg (encode a)). pose proof (len_nonneg (encode b)).
  pose proof (len_nonneg (encode c)). pose proof (len_nonneg (encode d)).
  unfold encode_quadruple, decode_quadruple. rewrite <-app_assoc.
  rewrite tuple_payload_list by (rewrite ?codec_length, ?len_app in *; lia).
  cbn [mbind outcome_bind]. tuple_field. tuple_field. tuple_field.
  rewrite <-(app_nil_r (encode d)). tuple_field. done.
Qed.

#[export] Instance pair_codec : RLPCodec (A * B).
Proof.
  split.
  - done.
  - intros [a b] rest [Ha Hb] Hl. apply decode_pair_roundtrip; [done..|].
    unfold encode, pair_encode, mk_encode, encode_pair in Hl.
    rewrite len_app in Hl. pose proof (len_nonneg (encode_length (rlp_length a + rlp_length b))).
    lia.
  - intros p d rest. unfold decode_unfinished, pair_decode, decode_pair, tuple_finish.
    intros Hi. outcome_inv. destruct x as [pl r]. outcome_inv. destruct x as [a r1].
    outcome_inv. destruct x as [b r2]. destruct r2; simplify_eq.
    by eapply tuple_payload_progress.
  - intros d. apply bind_fuel; [apply tuple_payload_fuel|]. intros [pl r] _.
    apply bind_fuel; [apply codec_fuel|]. intros [a r1] _.
    apply bind_fuel; [apply codec_fuel|]. intros [b r2] _. by destruct r2.
  - intros [a b] [Ha Hb]. change (encode (a, b)) with (encode_pair (a, b)). unfold encode_pair.
    rewrite !codec_length. apply Forall_app. split.
    { apply encode_length_bytes. pose proof (len_nonneg (encode a)).
      pose proof (len_nonneg (encode b)). lia. }
    apply Forall_app. split; by apply codec_bytes.
Qed.
End tuples.
#[export] Existing Instance pair_codec.

(** ** What a decoder reads *)

Lemma static_left_pad_Ok N d p :
  static_left_pad N d = Ok p → be_decode p = be_decode d ∧ length p = N.
Proof.
  unfold static_left_pad. destruct d as [|b d].
  - intros [= <-]. rewrite <-(app_nil_r (replicate N 0)), be_decode_zeros.
    by rewrite app_nil_r, length_replicate.
  - unfold len. destruct (b =? 0); [done|]. destruct (_ <? _) eqn:E; [done|]. propify.
    intros [= <-]. rewrite be_decode_zeros, length_app, length_replicate.
    split; [done|]. cbn in *. lia.
Qed.

Lemma slice_bytes a b bs : bytes bs → bytes (slice a b bs).
Proof. intros H. unfold slice. by apply Forall_take, Forall_drop. Qed.

Lemma slice_length {A} a b (l : list A) :
  0 ≤ a ≤ b → b ≤ len l → len (slice a b l) = b - a.
Proof.
  intros Ha Hb. unfold slice, len in *. rewrite length_take, length_drop. lia.
Qed.

(** The eight-byte length of a long item. *)
Definition long_length (data : list Z) : Z := be_decode (slice 1 9 data).

Lemma long_bounds_spec data n a b :
  bytes data → 1 ≤ n → long_bounds data n = Ok (a, b) → a = n + 1 ∧ a ≤ b ≤ len data.
Proof.
  intros Hby Hn. unfold long_bounds, usize_add.
  destruct (len data <? n + 1) eqn:E0; [done|]. intros H. outcome_inv.
  apply static_left_pad_Ok in H0 as [Hv _].
  pose proof (be_decode_bound _ (slice_bytes 1 (n + 1) data Hby)) as Hb.
  destruct (fits _ _) eqn:E1; [|done]. outcome_inv. subst.
  destruct (fits _ (_ + 1)) eqn:E2; [|done]. outcome_inv. subst.
  destruct (len data <? n + be_decode x + 1) eqn:E3; propify; outcome_inv. simplify_eq. lia.
Qed.

Lemma item_bounds_spec data k a b :
  bytes data → item_bounds data = Ok (k, (a, b)) → 0 ≤ a ≤ 9 ∧ a ≤ b ≤ len data.
Proof.
  intros Hby. unfold item_bounds. destruct data as [|c data']; [done|].
  pose proof Hby as Hby'. apply Forall_cons in Hby' as [Hc _]. unfold byte in Hc.
  pose proof (len_nonneg data'). unfold RLP_EMPTY_LIST.
  repeat case_match; unfold fmap, outcome_fmap; intros Hi; outcome_inv; simplify_eq; propify;
    try (rewrite len_cons; lia);
    first
      [ match goal with H : long_bounds _ _ = _ |- _ =>
          apply long_bounds_spec in H as [-> ?]; [lia|done|lia] end
      | match goal with H : short_bounds _ _ = _ |- _ =>
          unfold short_bounds in H; case_match; simplify_eq; propify; lia end ].
Qed.

Lemma long_bounds_panic data n :
  bytes data → 1 ≤ n ≤ 8 →
  long_bounds data n = Panic ↔
  n = 8 ∧ 9 ≤ len data ∧ data !! 1%nat ≠ Some 0 ∧ 2 ^ 64 - 9 ≤ long_length data.
Proof.
  intros Hby Hn. unfold long_bounds, usize_add, long_length.
  pose proof (be_decode_bound _ (slice_bytes 1 (n + 1) data Hby)) as Hb.
  destruct (len data <? n + 1) eqn:E0; propify; [naive_solver lia|].
  pose proof (slice_length 1 (n + 1) data ltac:(lia) ltac:(lia)) as Hsl.
  assert (Hd : ∀ m, 1 < m → slice 1 m data !! 0%nat = data !! 1%nat).
  { intros m Hm. unfold slice. by rewrite lookup_take_lt, lookup_drop by lia. }
  destruct (static_left_pad 8 _) as [p|e| |] eqn:Ep; cbn [mbind outcome_bind].
  - pose proof Ep as Ep'. apply static_left_pad_Ok in Ep' as [Hv Hpl].
    assert (data !! 1%nat ≠ Some 0) as Hne.
    { rewrite <-(Hd (n + 1)) by lia. unfold static_left_pad in Ep.
      destruct (slice 1 (n + 1) data) as [|c s]; [rewrite len_nil in Hsl; lia|].
      cbn. destruct (c =? 0) eqn:Ec; propify; [done|]. congruence. }
    rewrite Hv.
    assert (256 ^ Z.of_nat (length (slice 1 (n + 1) data)) = 2 ^ (8 * n)) as Hpow.
    { fold (len (slice 1 (n + 1) data)). rewrite Hsl. change 256 with (2 ^ 8).
      rewrite <-Z.pow_mul_r by lia. f_equal. lia. }
    rewrite Hpow in Hb.
    assert (n ≤ 7 → 2 ^ (8 * n) ≤ 2 ^ 56) by (intros; apply Z.pow_le_mono_r; lia).
    destruct (fits 64 (n + _)) eqn:E1; cbn [mbind outcome_bind];
      [destruct (fits 64 (_ + 1)) eqn:E2; cbn [mbind outcome_bind]|];
      rewrite ?fits_spec, ?fits_false in *; unfold in_u in *.
    + split; [by case_match|]. intros (-> & _ & _ & ?). change (8 + 1) with 9 in *. lia.
    + split; [intros _|done]. assert (n = 8) as -> by lia. change (8 + 1) with 9 in *.
      split_and!; [done|lia|done|lia].
    + split; [intros _|done]. assert (n = 8) as -> by lia. change (8 + 1) with 9 in *.
      split_and!; [done|lia|done|lia].
  - split; [done|]. intros (-> & _ & Hne & Hge). unfold static_left_pad in Ep.
    change (8 + 1) with 9 in *.
    destruct (slice 1 9 data) as [|c s] eqn:Es; [done|].
    rewrite <-(Hd 9), Es in Hne by lia. cbn in Hne.
    destruct (c =? 0) eqn:Ec; propify; [congruence|].
    rewrite Hsl in Ep. done.
  - unfold static_left_pad in Ep. repeat case_match; done.
  - by apply static_left_pad_fuel in Ep.
Qed.

(** ** Properties *)

(** (round trip): every scalar encoder is inverted by its decoder, whatever
    bytes follow: booleans, the integers of each width, 256-bit words and byte
    strings. *)
Theorem rlp_scalars_roundtrip rest :
  (∀ b, decode_bool (encode_bool b ++ rest) = Ok (b, rest)) ∧
  (∀ n, in_u 8 n → decode_u8 (encode_u8 n ++ rest) = Ok (n, rest)) ∧
  (∀ n, in_u 16 n → decode_u16 (encode_u16 n ++ rest) = Ok (n, rest)) ∧
  (∀ n, in_u 32 n → decode_u32 (encode_u32 n ++ rest) = Ok (n, rest)) ∧
  (∀ n, in_u 64 n → decode_u64 (encode_u64 n ++ rest) = Ok (n, rest)) ∧
  (∀ n, in_u 64 n → decode_usize (encode_usize n ++ rest) = Ok (n, rest)) ∧
  (∀ n, in_u 128 n → decode_u128 (encode_u128 n ++ rest) = Ok (n, rest)) ∧
  (∀ n, in_u 256 n → decode_u256 (encode_u256 n ++ rest) = Ok (n, rest)) ∧
  (∀ bs, bytes bs → len bs ≤ isize_max →
     decode_bytes (encode_slice bs ++ rest) = Ok (bs, rest)).
Proof.
  split_and!; intros.
  - apply bool_codec_roundtrip.
  - by apply u8_roundtrip.
  - by apply (uint_codec 2); [lia|].
  - by apply (uint_codec 4); [lia|].
  - by apply (uint_codec 8); [lia|].
  - by apply (uint_codec 8); [lia|].
  - by apply (uint_codec 16); [lia|].
  - unfold encode_u256. rewrite u256_strip by done. by apply decode_uint_roundtrip.
  - by apply decode_bytes_slice.
Qed.

(** If the element type has a lawful codec, a vector of valid
    elements decodes to itself, and the whole-buffer [decode] accepts exactly
    its encoding. *)
Theorem rlp_vec_roundtrip {T} `{RLPCodec T} (l : list T) :
  Forall rlp_valid l → len (encode l) ≤ isize_max → decode (encode l) = Ok l.
Proof.
  intros Hv Hl. unfold decode. rewrite <-(app_nil_r (encode l)).
  by rewrite codec_roundtrip.
Qed.

Example rlp_vec_roundtrip_witness :
  decode (encode ([([0xde; 0xad; 0xbe; 0xef], 1024); ([], 0)] : list (Bytes * u64)))
  = Ok ([([0xde; 0xad; 0xbe; 0xef], 1024); ([], 0)] : list (Bytes * u64)).
Proof.
  apply rlp_vec_roundtrip.
  - repeat constructor; vm_compute; intuition congruence.
  - vm_compute. congruence.
Defined.

(** Without overflow checks the end of an item is the same where it does not overflow. *)
Lemma wrapping_stop_agrees data k :
  long_bounds data k ≠ Panic → wrapping_stop data k = snd <$> long_bounds data k.
Proof.
  unfold long_bounds, wrapping_stop, usize_add. destruct (len data <? k + 1); [done|].
  destruct (static_left_pad _ _) as [padded|e| |]; cbn [mbind outcome_bind]; try done.
  destruct (fits 64 (k + be_decode padded)) eqn:E1; cbn [mbind outcome_bind]; [|done].
  destruct (fits 64 (k + be_decode padded + 1)) eqn:E2; cbn [mbind outcome_bind]; [|done].
  intros _. unfold fits in E2. propify. rewrite Z.mod_small by lia. by destruct (len data <? _).
Qed.

Lemma wrapping_item_agrees data :
  get_item_with_prefix data ≠ Panic → wrapping_item_with_prefix data = get_item_with_prefix data.
Proof.
  unfold get_item_with_prefix, wrapping_item_with_prefix, item_bounds.
  destruct data as [|b data]; [done|]. set (d := b :: data).
  assert (∀ (k : bool) l, (long_bounds d l ≠ Panic → wrapping_stop d l = snd <$> long_bounds d l) →
    ('(_, (_, stop)) ← pair k <$> long_bounds d l;
     Ok (take (Z.to_nat stop) d, drop (Z.to_nat stop) d)) ≠ Panic →
    (stop ← wrapping_stop d l; Ok (take (Z.to_nat stop) d, drop (Z.to_nat stop) d)) =
    ('(_, (_, stop)) ← pair k <$> long_bounds d l;
     Ok (take (Z.to_nat stop) d, drop (Z.to_nat stop) d))) as Hlong.
  { intros k l Hw Hn. rewrite Hw by (by intros E; rewrite E in Hn).
    by destruct (long_bounds d l) as [[a c]|e| |]. }
  destruct (b <=? 0x7F); [done|]. destruct (b <=? 0xB7).
  { intros _. by destruct (short_bounds d _) as [[a c]|e| |]. }
  destruct (b <=? 0xBF); [apply Hlong, wrapping_stop_agrees|]. destruct (b <=? 0xF7).
  { intros _. by destruct (short_bounds d _) as [[a c]|e| |]. }
  apply Hlong, wrapping_stop_agrees.
Qed.

(** A decoded item is a slice of its input: the input is a
    prefix of at most nine bytes, then the payload, then the bytes returned as
    the rest; and [get_item_with_prefix] returns that prefix with the payload. *)
Theorem decode_rlp_item_splits data is_list payload rest :
  bytes data → decode_rlp_item data = Ok (is_list, payload, rest) →
  ∃ prefix, data = prefix ++ payload ++ rest ∧ len prefix ≤ 9 ∧
    get_item_with_prefix data = Ok (prefix ++ payload, rest).
Proof.
  intros Hby. unfold decode_rlp_item, get_item_with_prefix. intros H. outcome_inv.
  destruct x as [k [a b]]. pose proof H0 as Hi. rewrite Hi. simplify_eq.
  apply item_bounds_spec in H0 as [Ha Hb]; [|done]. cbn [mbind outcome_bind].
  exists (take (Z.to_nat a) data).
  assert (Hj : take (Z.to_nat a) data ++ slice a b data = take (Z.to_nat b) data).
  { unfold slice. replace (Z.to_nat b) with (Z.to_nat a + Z.to_nat (b - a))%nat by lia.
    by rewrite <-take_take_drop. }
  split_and!.
  - by rewrite app_assoc, Hj, take_drop.
  - unfold len. rewrite length_take. lia.
  - by rewrite Hj.
Qed.

Example decode_rlp_item_splits_witness :
  ∃ prefix, [0x83; 0x64; 0x6f; 0x67; 0x01] = prefix ++ [0x64; 0x6f; 0x67] ++ [0x01] ∧
    len prefix ≤ 9 ∧
    get_item_with_prefix [0x83; 0x64; 0x6f; 0x67; 0x01]
    = Ok (prefix ++ [0x64; 0x6f; 0x67], [0x01]).
Proof.
  apply (decode_rlp_item_splits _ false).
  - repeat constructor; vm_compute; intuition congruence.
  - vm_compute. reflexivity.
Defined.

(** (error): on bytes from the network, [decode_rlp_item] panics exactly
    when the prefix is 0xbf or 0xff, the eight length bytes are present and do
    not start with zero, and the length they hold is within nine of [2^64]:
    the sum of the header and payload sizes overflows [usize].  Every other
    input is decoded or rejected with an error. *)
Theorem decode_rlp_item_panics data :
  bytes data →
  decode_rlp_item data = Panic ↔
  (head data = Some 0xbf ∨ head data = Some 0xff) ∧
  9 ≤ len data ∧ data !! 1%nat ≠ Some 0 ∧ 2 ^ 64 - 9 ≤ long_length data.
Proof.
  intros Hby. unfold decode_rlp_item.
  assert (Hi : ∀ m : Decoded (bool * (Z * Z)),
    ('(k, (a, b)) ← m; Ok (k, slice a b data, drop (Z.to_nat b) data)) = Panic ↔ m = Panic).
  { intros [[? []]| | |]; done. }
  rewrite Hi. clear Hi. unfold item_bounds. destruct data as [|c data'].
  { cbn. naive_solver. }
  pose proof Hby as Hby'. apply Forall_cons in Hby' as [Hc _]. unfold byte in Hc.
  assert (Hf : ∀ (k : bool) (m : Decoded (Z * Z)), pair k <$> m = Panic ↔ m = Panic)
    by (by intros k []).
  assert (Hs : ∀ n, short_bounds (c :: data') n ≠ Panic)
    by (intros n; unfold short_bounds; by case_match).
  assert (Hc' : ∀ x, Some c = Some x ↔ c = x) by naive_solver.
  cbn [head]. unfold RLP_EMPTY_LIST. rewrite !Hc'.
  repeat case_match; propify; rewrite ?Hf, ?long_bounds_panic by (done || lia);
    (split; [intros Hp|intros (Hp & ? & ? & ?)]);
    try (by destruct (Hs _ Hp)); try done; try (destruct Hp as (? & ? & ? & ?));
    try lia; split_and!; try done; lia.
Qed.

Example decode_rlp_item_panics_witness :
  decode_rlp_item [0xbf; 255; 255; 255; 255; 255; 255; 255; 255] = Panic.
Proof.
  apply decode_rlp_item_panics.
  - repeat constructor; vm_compute; intuition congruence.
  - vm_compute. intuition congruence.
Defined.

(** Decoding a vector never runs out of fuel: each element
    decoder consumes at least one byte, so the loop over the payload ends. *)
Theorem decode_vec_terminates {T} `{RLPCodec T} data :
  decode_vec (T1 := T) data ≠ NoFuel.
Proof. apply decode_vec_fuel. Qed.

Example decode_vec_terminates_witness :
  decode_vec (T1 := u64) [0xc5; 0x83; 0x01; 0x02] ≠ NoFuel.
Proof. apply (decode_vec_terminates (T := u64)). Defined.

(** A struct of two fields written with [Encoder] has the
    encoding of the tuple of its fields, and [Decoder] reads the fields back in
    order and returns the bytes after it. *)
Theorem struct_roundtrip {A B} `{RLPCodec A, RLPCodec B} (a : A) (b : B) rest :
  rlp_valid a → rlp_valid b → len (encode a ++ encode b) ≤ isize_max →
  let buf := Encoder.finish []
    (Encoder.encode_field (Encoder.encode_field Encoder.new a) b) in
  buf = encode_pair (a, b) ∧
  ∃ d0 d1 d2,
    Decoder.new (buf ++ rest) = Ok d0 ∧
    Decoder.decode_field d0 "a" = Ok (a, d1) ∧
    Decoder.decode_field d1 "b" = Ok (b, d2) ∧
    Decoder.finish d2 = Ok rest.
Proof.
  intros Ha Hb Hl. pose proof Hl as Hl'. rewrite len_app in Hl'.
  pose proof (len_nonneg (encode a)). pose proof (len_nonneg (encode b)).
  unfold Encoder.finish, Encoder.encode_field, Encoder.new. cbn [app]. split.
  { unfold encode_pair. by rewrite len_app, !codec_length. }
  exists {| Decoder.payload := encode a ++ encode b; Decoder.remaining := rest |},
    {| Decoder.payload := encode b; Decoder.remaining := rest |},
    {| Decoder.payload := []; Decoder.remaining := rest |}.
  unfold Decoder.new, Decoder.decode_field. rewrite <-app_assoc.
  cbn [Decoder.payload Decoder.remaining]. split_and!.
  - by rewrite decode_rlp_item_list.
  - by rewrite codec_roundtrip by (done || lia).
  - pose proof (codec_roundtrip b []) as Hr. rewrite app_nil_r in Hr.
    by rewrite Hr by (done || lia).
  - done.
Qed.

Example struct_roundtrip_witness :
  let buf := Encoder.finish []
    (Encoder.encode_field (Encoder.encode_field Encoder.new (61 : u8)) (75 : u16)) in
  buf = [0xc2; 61; 75] ∧
  ∃ d0 d1 d2,
    Decoder.new (buf ++ []) = Ok d0 ∧
    Decoder.decode_field d0 "a" = Ok (61 : u8, d1) ∧
    Decoder.decode_field d1 "b" = Ok (75 : u16, d2) ∧
    Decoder.finish d2 = Ok [].
Proof.
  pose proof (struct_roundtrip (61 : u8) (75 : u16) []) as Hw.
  apply Hw; vm_compute; intuition congruence.
Defined.
