(* ===== verification/RlpStruct.v ===== *)
(** * Struct codecs

    Most types of the client are encoded field by field with [Encoder] and read
    back with [Decoder].  This file has the laws of those helpers from which
    the codec of such a type follows: [decoder_new_ok] and [decode_field_ok] for
    the round trip, [struct_body] for progress and termination, and the
    [struct_codec] tactic that applies them field by field. *)

From stdpp Require Import base option list numbers strings.
From S2P Require Import Prelude Rlp RlpProofs.

Local Open Scope Z_scope.

Declare Scope rlp_scope.
Delimit Scope rlp_scope with rlp.
Notation "e ⊕ x" := (Encoder.encode_field e x) (at level 50, left associativity) : rlp_scope.
Notation "e ⊕? x" := (Encoder.encode_optional_field e x)
  (at level 50, left associativity) : rlp_scope.

(** ** Writing *)

Definition as_list (e : list Z) : list Z := encode_length (len e) ++ e.

Lemma finish_as_list buf e : Encoder.finish buf e = buf ++ as_list e.
Proof. done. Qed.

Lemma as_list_length e : len e < len (as_list e).
Proof.
  unfold as_list. rewrite len_app. unfold encode_length, put_stripped.
  pose proof (len_nonneg (strip_zeros (be_encode 8 (len e)))).
  destruct (_ <? _); rewrite ?len_cons, ?len_nil; lia.
Qed.

Lemma as_list_bytes e : bytes e → bytes (as_list e).
Proof.
  intros He. apply Forall_app. split; [|done]. apply encode_length_bytes, len_nonneg.
Qed.

(** ** Reading *)

Lemma decoder_new_ok e rest :
  len e ≤ isize_max →
  Decoder.new (as_list e ++ rest) = Ok {| Decoder.payload := e; Decoder.remaining := rest |}.
Proof.
  intros. unfold Decoder.new, as_list. rewrite <-app_assoc.
  by rewrite decode_rlp_item_list.
Qed.

Section fields.
Context `{RLPCodec T}.

Lemma decode_field_ok (x : T) p r name :
  rlp_valid x → len (encode x) ≤ isize_max →
  Decoder.decode_field {| Decoder.payload := encode x ++ p; Decoder.remaining := r |} name
  = Ok (x, {| Decoder.payload := p; Decoder.remaining := r |}).
Proof.
  intros. unfold Decoder.decode_field. cbn [Decoder.payload Decoder.remaining].
  by rewrite codec_roundtrip.
Qed.

Lemma decode_optional_field_ok (x : T) p r :
  rlp_valid x → len (encode x) ≤ isize_max →
  Decoder.decode_optional_field
    {| Decoder.payload := encode x ++ p; Decoder.remaining := r |}
  = Ok (Some x, {| Decoder.payload := p; Decoder.remaining := r |}).
Proof.
  intros. unfold Decoder.decode_optional_field. cbn [Decoder.payload Decoder.remaining].
  by rewrite codec_roundtrip.
Qed.

Lemma decode_field_last (x : T) r name :
  rlp_valid x → len (encode x) ≤ isize_max →
  Decoder.decode_field {| Decoder.payload := encode x; Decoder.remaining := r |} name
  = Ok (x, {| Decoder.payload := []; Decoder.remaining := r |}).
Proof. intros. rewrite <-(app_nil_r (encode x)). by apply decode_field_ok. Qed.

Lemma decode_optional_field_last (x : T) r :
  rlp_valid x → len (encode x) ≤ isize_max →
  Decoder.decode_optional_field {| Decoder.payload := encode x; Decoder.remaining := r |}
  = Ok (Some x, {| Decoder.payload := []; Decoder.remaining := r |}).
Proof. intros. rewrite <-(app_nil_r (encode x)). by apply decode_optional_field_ok. Qed.

Lemma decode_optional_field_absent r :
  (∃ e, decode_unfinished (T := T) [] = Err e) →
  Decoder.decode_optional_field (T := T) {| Decoder.payload := []; Decoder.remaining := r |}
  = Ok (None, {| Decoder.payload := []; Decoder.remaining := r |}).
Proof. unfold Decoder.decode_optional_field. cbn. by intros [e ->]. Qed.
End fields.

Lemma struct_roundtrip_new {A} (k : Decoder.t → Decoded (A * list Z)) e rest x :
  len (as_list e) ≤ isize_max →
  (len e ≤ isize_max → k {| Decoder.payload := e; Decoder.remaining := rest |} = Ok (x, rest)) →
  (d ← Decoder.new (as_list e ++ rest); k d) = Ok (x, rest).
Proof.
  intros Hl Hk. pose proof (as_list_length e). rewrite decoder_new_ok by lia. apply Hk. lia.
Qed.

(** [struct_body r m]: what a struct decoder does after [Decoder::new].  It ends,
    and what it returns as unread are the bytes after the struct. *)
Definition struct_body {A} (r : list Z) (m : Decoded (A * list Z)) : Prop :=
  m ≠ NoFuel ∧ ∀ x rest, m = Ok (x, rest) → rest = r.

Lemma struct_body_field {T A} `{RLPCodec T} d name (k : T → Decoder.t → Decoded (A * list Z)) :
  (∀ x d', Decoder.remaining d' = Decoder.remaining d → struct_body (Decoder.remaining d') (k x d')) →
  struct_body (Decoder.remaining d) ('(x, d') ← Decoder.decode_field d name; k x d').
Proof.
  intros Hk. unfold Decoder.decode_field.
  pose proof (codec_fuel (T := T) (Decoder.payload d)) as Hf.
  destruct (decode_unfinished (Decoder.payload d)) as [[x rest]| | |]; [|done..].
  exact (Hk x {| Decoder.payload := rest; Decoder.remaining := Decoder.remaining d |} eq_refl).
Qed.

Lemma struct_body_optional {T A} `{RLPCodec T} d (k : option T → Decoder.t → Decoded (A * list Z)) :
  (∀ x d', Decoder.remaining d' = Decoder.remaining d → struct_body (Decoder.remaining d') (k x d')) →
  struct_body (Decoder.remaining d) ('(x, d') ← Decoder.decode_optional_field d; k x d').
Proof.
  intros Hk. unfold Decoder.decode_optional_field.
  pose proof (codec_fuel (T := T) (Decoder.payload d)) as Hf.
  destruct (decode_unfinished (Decoder.payload d)) as [[x rest]| | |]; [|by apply Hk|done..].
  exact (Hk (Some x) {| Decoder.payload := rest; Decoder.remaining := Decoder.remaining d |} eq_refl).
Qed.

Lemma struct_body_finish {A} d (x : A) :
  struct_body (Decoder.remaining d) (rest ← Decoder.finish d; Ok (x, rest)).
Proof. unfold Decoder.finish. destruct (Decoder.is_done d); split; cbn; naive_solver. Qed.

Lemma struct_new {A} (k : Decoder.t → Decoded (A * list Z)) data :
  (∀ d, struct_body (Decoder.remaining d) (k d)) →
  (d ← Decoder.new data; k d) ≠ NoFuel ∧
  ∀ x rest, (d ← Decoder.new data; k d) = Ok (x, rest) → (length rest < length data)%nat.
Proof.
  intros Hk. unfold Decoder.new.
  destruct (decode_rlp_item data) as [[[[] p] r]| | |] eqn:E; cbn; [|done..|].
  - destruct (Hk {| Decoder.payload := p; Decoder.remaining := r |}) as [Hf Hr].
    split; [done|]. intros x rest Heq. apply Hr in Heq as ->.
    by eapply decode_rlp_item_progress.
  - by apply decode_rlp_item_fuel in E.
Qed.

(** ** Automation *)

Lemma len_encode_nonneg `{RLPEncode T} (x : T) : 0 ≤ len (encode x).
Proof. apply len_nonneg. Qed.

(** The bytes of a struct as the concatenation of its fields. *)
Lemma field_app `{RLPEncode T} e (x : T) : Encoder.encode_field e x = e ++ encode x.
Proof. done. Qed.

Lemma optional_app `{RLPEncode T} e (x : option T) :
  Encoder.encode_optional_field e x = e ++ from_option encode [] x.
Proof. destruct x; cbn; by rewrite ?app_nil_r. Qed.

(** Bounds the size of every field by that of the struct. *)
Ltac field_sizes H :=
  rewrite ?len_app in H;
  repeat match type of H with
  | context [len (@encode ?T ?I ?x)] =>
      lazymatch goal with
      | _ : 0 ≤ len (@encode T I x) |- _ => fail
      | _ => pose proof (@len_encode_nonneg T I x)
      end
  end.

(** Splits the validity of a struct into that of its fields. *)
Ltac split_valid H :=
  lazymatch type of H with
  | @rlp_valid _ ?v ?x => change (v x) in H; unfold v in H; cbv beta in H
  end;
  repeat match goal with H : _ ∧ _ |- _ => destruct H end.

(** Reads the fields of a struct off the bytes that were written for it. *)
Ltac read_field :=
  first
    [ rewrite decode_field_ok by (first [assumption | lia])
    | rewrite decode_field_last by (first [assumption | lia])
    | rewrite decode_optional_field_ok by (first [assumption | lia])
    | rewrite decode_optional_field_last by (first [assumption | lia])
    | rewrite decode_optional_field_absent by (eexists; reflexivity) ];
  cbn [mbind outcome_bind].

Ltac struct_roundtrip Hv :=
  apply struct_roundtrip_new; [done|];
  unfold Encoder.new; rewrite ?field_app; cbn [app]; rewrite <-?app_assoc;
  let H := fresh "Hlen" in
  intros H; field_sizes H; split_valid Hv; repeat read_field;
  match goal with x : _ |- _ = Ok (?x, _) => by destruct x end.

(** [bytes] of a concatenation, by its parts. *)
Ltac app_bytes :=
  repeat lazymatch goal with
  | |- bytes (_ ++ _) => apply Forall_app; split
  | |- Forall _ (_ ++ _) => apply Forall_app; split
  end.

Ltac struct_progress :=
  lazymatch goal with
  | |- struct_body _ (mbind _ (Decoder.decode_field _ _)) =>
      apply struct_body_field; intros ? ? _; cbv beta; struct_progress
  | |- struct_body _ (mbind _ (Decoder.decode_optional_field _)) =>
      apply struct_body_optional; intros ? ? _; cbv beta; struct_progress
  | |- struct_body _ (mbind _ (Decoder.finish _)) => apply struct_body_finish
  end.

(** The codec of a struct, given its encoder and decoder. *)
Ltac struct_codec enc dec :=
  split;
  [ done
  | let x := fresh "x" in
    let Hv := fresh "Hv" in
    intros x ? Hv ?; change (decode_unfinished ?l) with (dec l);
    change (encode x) with (enc x) in *; struct_roundtrip Hv
  | intros ? ?; apply (struct_new _ _); intros; struct_progress
  | intros ?; apply (struct_new _ _); intros; struct_progress
  | let Hv := fresh "Hv" in
    intros ? Hv; apply as_list_bytes; unfold Encoder.new; rewrite ?field_app; cbn [app];
    split_valid Hv; app_bytes; by apply codec_bytes ].

(** ** Closed values *)

Lemma bytes_check bs : forallb (λ b, (0 <=? b) && (b <? 256)) bs = true → bytes bs.
Proof.
  intros Hb. apply Forall_forall. intros b Hin. rewrite forallb_forall in Hb.
  apply list_elem_of_In, Hb in Hin. unfold byte. propify. lia.
Qed.

(** Validity of a closed byte string, array or number. *)
Ltac check_bytes := apply bytes_check; vm_compute; reflexivity.
Ltac check_array := split; [check_bytes|vm_compute; reflexivity].
Ltac check_uint := split; [vm_compute; congruence|vm_compute; reflexivity].
Ltac check_valid :=
  lazymatch goal with
  | |- @rlp_valid (ByteArray _) _ _ => check_array
  | |- @rlp_valid Bytes _ _ => check_bytes
  | |- @rlp_valid bool _ _ => exact I
  | |- @rlp_valid _ _ _ => check_uint
  end.
