(* ===== verification/LevmState.v ===== *)
(** * LEVM: errors, data and the state monad (crates/vm/levm/src)

    The enums of [errors.rs], the records of [account.rs], [environment.rs],
    [call_frame.rs] and [vm.rs], the [Database] trait, and the monad in which
    the opcode handlers are written.  A handler mutates the machine and the
    current frame even when it fails afterwards, so the monad returns the
    state together with every outcome.

    A 256-bit word, an [H256] and an [Address] are each the number their
    big-endian bytes spell; conversions between a word and an [H256] are the
    identity. *)

From stdpp Require Import base option list numbers gmap.
From S2P Require Import Prelude.

Local Open Scope Z_scope.

(** ** Errors (errors.rs) *)

Module OutOfGasError.
Inductive t :=
| GasCostOverflow
| GasUsedOverflow
| CreationCostIsTooHigh
| ConsumedGasOverflow
| MaxGasLimitExceeded
| ArithmeticOperationDividedByZero
| MemoryExpansionCostOverflow.
End OutOfGasError.

Module InternalError.
Inductive t :=
| PCOverflowed
| PCUnderflowed
| ArithmeticOperationOverflow
| ArithmeticOperationUnderflow
| ArithmeticOperationDividedByZero
| AccountShouldHaveBeenCached
| ConversionError
| DivisionError
| CouldNotAccessLastCallframe
| BlobHashOutOfRange
| TriedToIndexEmptyCode
| CouldNotComputeCreateAddress
| CouldNotComputeCreate2Address
| SlicingError
| CouldNotPopCallframe
| AccountNotFound
| ExcessBlobGasShouldNotBeNone
| UtilsError
| PCOutOfBounds
| GasOverflow
| UndefinedState (code : Z)
| InvalidPrecompileAddress.
End InternalError.

Module PrecompileError.
Inductive t :=
| ParsingInputError
| GasConsumedOverflow
| NotEnoughGas
| DefaultError.
End PrecompileError.

Module TxValidationError.
Inductive t :=
| SenderNotEOA
| InsufficientAccountFunds
| NonceIsMax
| InitcodeSizeExceeded
| PriorityGreaterThanMaxFeePerGas
| IntrinsicGasTooLow
| GasAllowanceExceeded
| InsufficientMaxFeePerGas
| InsufficientMaxFeePerBlobGas
| Type3TxZeroBlobs
| Type3TxInvalidBlobVersionedHash
| Type3TxBlobCountExceeded
| Type3TxContractCreation
| GasLimitPriceProductOverflow.
End TxValidationError.

Inductive VMError :=
| StackUnderflow
| StackOverflow
| InvalidJump
| OpcodeNotAllowedInStaticContext
| OpcodeNotFound
| InvalidBytecode
| InvalidContractPrefix
| VeryLargeNumber
| FatalError
| InvalidTransaction
| RevertOpcode
| InvalidOpcode
| MissingBlobHashes
| BlobHashIndexOutOfBounds
| SenderAccountDoesNotExist
| AddressDoesNotMatchAnAccount
| GasPriceIsLowerThanBaseFee
| AddressAlreadyOccupied
| ContractOutputTooBig
| GasLimitPriceProductOverflow
| BalanceOverflow
| BalanceUnderflow
| GasRefundsUnderflow
| GasRefundsOverflow
| MemorySizeOverflow
| NonceOverflow
| NonceUnderflow
| OutOfGas (e : OutOfGasError.t)
| Internal (e : InternalError.t)
| TxValidation (e : TxValidationError.t)
| OutOfBounds
| PrecompileErr (e : PrecompileError.t).

#[export] Instance OutOfGasError_eq_dec : EqDecision OutOfGasError.t.
Proof. solve_decision. Defined.
#[export] Instance InternalError_eq_dec : EqDecision InternalError.t.
Proof. solve_decision. Defined.
#[export] Instance PrecompileError_eq_dec : EqDecision PrecompileError.t.
Proof. solve_decision. Defined.
#[export] Instance TxValidationError_eq_dec : EqDecision TxValidationError.t.
Proof. solve_decision. Defined.
#[export] Instance VMError_eq_dec : EqDecision VMError.
Proof. solve_decision. Defined.

(** [VMError::is_internal]. *)
Definition is_internal (e : VMError) : bool :=
  match e with Internal _ => true | _ => false end.

Inductive ResultReason := Stop | Revert_ | Return_ | SelfDestruct.
Inductive OpcodeSuccess := Continue | Result_ (r : ResultReason).
Inductive TxResult := Success | Revert (e : VMError).

Notation Result := (Outcome VMError).

(** ** Accounts (account.rs) *)

Record AccountInfo := {
  balance : Z;
  bytecode : list Z;
  nonce : Z;
}.

Record StorageSlot := {
  original_value : Z;
  current_value : Z;
}.

Record Account := {
  info : AccountInfo;
  storage : gmap Z StorageSlot;
}.

Definition default_info : AccountInfo := {| balance := 0; bytecode := []; nonce := 0 |}.

(** [Account::new]. *)
Definition new_account (bal : Z) (code : list Z) (n : Z) (st : gmap Z StorageSlot) : Account :=
  {| info := {| balance := bal; bytecode := code; nonce := n |}; storage := st |}.

(** [AccountInfo::is_empty]. *)
Definition is_empty (i : AccountInfo) : bool :=
  (balance i =? 0) && (nonce i =? 0) && match bytecode i with [] => true | _ => false end.

Definition has_nonce (i : AccountInfo) : bool := negb (nonce i =? 0).

Definition set_info (f : AccountInfo → AccountInfo) (a : Account) : Account :=
  {| info := f (info a); storage := storage a |}.
Definition set_balance (b : Z) (i : AccountInfo) : AccountInfo :=
  {| balance := b; bytecode := bytecode i; nonce := nonce i |}.
Definition set_nonce (n : Z) (i : AccountInfo) : AccountInfo :=
  {| balance := balance i; bytecode := bytecode i; nonce := n |}.
Definition set_code (c : list Z) (i : AccountInfo) : AccountInfo :=
  {| balance := balance i; bytecode := c; nonce := nonce i |}.
Definition set_storage (f : gmap Z StorageSlot → gmap Z StorageSlot) (a : Account) : Account :=
  {| info := info a; storage := f (storage a) |}.

(** ** The database behind the cache (db/mod.rs, db/cache.rs) *)

(** The [Database] trait. *)
Record Database := {
  get_account_info : Z → AccountInfo;
  get_storage_slot : Z → Z → Z;
  get_block_hash : Z → option Z;
}.

Notation CacheDB := (gmap Z Account).

(** The in-memory [Db] and its [Database] implementation. *)
Record Db := {
  accounts : gmap Z Account;
  block_hashes : gmap Z Z;
}.

Definition db_database (d : Db) : Database := {|
  get_account_info a := default default_info (info <$> accounts d !! a);
  get_storage_slot a k :=
    default 0 (acc ← accounts d !! a; original_value <$> storage acc !! k);
  get_block_hash n := block_hashes d !! n;
|}.

(** ** Logs, environment, substate, frames, machine *)

Record Log := {
  log_address : Z;
  topics : list Z;
  log_data : list Z;
}.

Record Environment := {
  origin : Z;
  refunded_gas : Z;
  env_gas_limit : Z;
  block_number : Z;
  coinbase : Z;
  timestamp : Z;
  prev_randao : option Z;
  chain_id : Z;
  base_fee_per_gas : Z;
  gas_price : Z;
  block_excess_blob_gas : option Z;
  block_blob_gas_used : option Z;
  tx_blob_hashes : list Z;
  tx_max_priority_fee_per_gas : option Z;
  tx_max_fee_per_gas : option Z;
  tx_max_fee_per_blob_gas : option Z;
  block_gas_limit : Z;
  transient_storage : gmap (Z * Z) Z;
}.

Record Substate := {
  selfdestruct_set : gset Z;
  touched_accounts : gset Z;
  touched_storage_slots : gmap Z (gset Z);
  created_accounts : gset Z;
}.

(** The stack is kept with its top first: index [i] of the Rust vector is
    position [len - 1 - i] here. *)
Record CallFrame := {
  gas_limit : Z;
  gas_used : Z;
  pc : Z;
  msg_sender : Z;
  to : Z;
  code_address : Z;
  code : list Z;
  msg_value : Z;
  stack : list Z;
  memory : list Z;
  calldata : list Z;
  output : list Z;
  sub_return_data : list Z;
  is_static : bool;
  logs : list Log;
  depth : Z;
  valid_jump_destinations : gset Z;
  create_op_called : bool;
}.

Inductive TxKind := Call (address : Z) | Create.

Record VM := {
  call_frames : list CallFrame;
  env : Environment;
  accrued_substate : Substate;
  db : Database;
  cache : CacheDB;
  tx_kind : TxKind;
  access_list : list (Z * list Z);
}.

Record TransactionReport := {
  result : TxResult;
  new_state : CacheDB;
  report_gas_used : Z;
  gas_refunded : Z;
  report_output : list Z;
  report_logs : list Log;
  created_address : option Z;
}.

(** ** Field updates *)

Definition set_gas_used (v : Z) (f : CallFrame) : CallFrame :=
  Build_CallFrame (gas_limit f) v (pc f) (msg_sender f) (to f) (code_address f) (code f)
    (msg_value f) (stack f) (memory f) (calldata f) (output f) (sub_return_data f)
    (is_static f) (logs f) (depth f) (valid_jump_destinations f) (create_op_called f).
Definition set_pc (v : Z) (f : CallFrame) : CallFrame :=
  Build_CallFrame (gas_limit f) (gas_used f) v (msg_sender f) (to f) (code_address f) (code f)
    (msg_value f) (stack f) (memory f) (calldata f) (output f) (sub_return_data f)
    (is_static f) (logs f) (depth f) (valid_jump_destinations f) (create_op_called f).
Definition set_code_of (v : list Z) (dests : gset Z) (f : CallFrame) : CallFrame :=
  Build_CallFrame (gas_limit f) (gas_used f) (pc f) (msg_sender f) (to f) (code_address f) v
    (msg_value f) (stack f) (memory f) (calldata f) (output f) (sub_return_data f)
    (is_static f) (logs f) (depth f) dests (create_op_called f).
Definition set_stack (v : list Z) (f : CallFrame) : CallFrame :=
  Build_CallFrame (gas_limit f) (gas_used f) (pc f) (msg_sender f) (to f) (code_address f) (code f)
    (msg_value f) v (memory f) (calldata f) (output f) (sub_return_data f)
    (is_static f) (logs f) (depth f) (valid_jump_destinations f) (create_op_called f).
Definition set_memory (v : list Z) (f : CallFrame) : CallFrame :=
  Build_CallFrame (gas_limit f) (gas_used f) (pc f) (msg_sender f) (to f) (code_address f) (code f)
    (msg_value f) (stack f) v (calldata f) (output f) (sub_return_data f)
    (is_static f) (logs f) (depth f) (valid_jump_destinations f) (create_op_called f).
Definition set_calldata (v : list Z) (f : CallFrame) : CallFrame :=
  Build_CallFrame (gas_limit f) (gas_used f) (pc f) (msg_sender f) (to f) (code_address f) (code f)
    (msg_value f) (stack f) (memory f) v (output f) (sub_return_data f)
    (is_static f) (logs f) (depth f) (valid_jump_destinations f) (create_op_called f).
Definition set_output (v : list Z) (f : CallFrame) : CallFrame :=
  Build_CallFrame (gas_limit f) (gas_used f) (pc f) (msg_sender f) (to f) (code_address f) (code f)
    (msg_value f) (stack f) (memory f) (calldata f) v (sub_return_data f)
    (is_static f) (logs f) (depth f) (valid_jump_destinations f) (create_op_called f).
Definition set_sub_return_data (v : list Z) (f : CallFrame) : CallFrame :=
  Build_CallFrame (gas_limit f) (gas_used f) (pc f) (msg_sender f) (to f) (code_address f) (code f)
    (msg_value f) (stack f) (memory f) (calldata f) (output f) v
    (is_static f) (logs f) (depth f) (valid_jump_destinations f) (create_op_called f).
Definition set_logs (v : list Log) (f : CallFrame) : CallFrame :=
  Build_CallFrame (gas_limit f) (gas_used f) (pc f) (msg_sender f) (to f) (code_address f) (code f)
    (msg_value f) (stack f) (memory f) (calldata f) (output f) (sub_return_data f)
    (is_static f) v (depth f) (valid_jump_destinations f) (create_op_called f).

Definition set_refunded_gas (v : Z) (e : Environment) : Environment :=
  Build_Environment (origin e) v (env_gas_limit e) (block_number e) (coinbase e) (timestamp e)
    (prev_randao e) (chain_id e) (base_fee_per_gas e) (gas_price e) (block_excess_blob_gas e)
    (block_blob_gas_used e) (tx_blob_hashes e) (tx_max_priority_fee_per_gas e)
    (tx_max_fee_per_gas e) (tx_max_fee_per_blob_gas e) (block_gas_limit e) (transient_storage e).
Definition set_transient_storage (v : gmap (Z * Z) Z) (e : Environment) : Environment :=
  Build_Environment (origin e) (refunded_gas e) (env_gas_limit e) (block_number e) (coinbase e)
    (timestamp e) (prev_randao e) (chain_id e) (base_fee_per_gas e) (gas_price e)
    (block_excess_blob_gas e) (block_blob_gas_used e) (tx_blob_hashes e)
    (tx_max_priority_fee_per_gas e) (tx_max_fee_per_gas e) (tx_max_fee_per_blob_gas e)
    (block_gas_limit e) v.

Definition set_touched_accounts (v : gset Z) (s : Substate) : Substate :=
  Build_Substate (selfdestruct_set s) v (touched_storage_slots s) (created_accounts s).
Definition set_touched_slots (v : gmap Z (gset Z)) (s : Substate) : Substate :=
  Build_Substate (selfdestruct_set s) (touched_accounts s) v (created_accounts s).
Definition set_selfdestruct_set (v : gset Z) (s : Substate) : Substate :=
  Build_Substate v (touched_accounts s) (touched_storage_slots s) (created_accounts s).
Definition set_created_accounts (v : gset Z) (s : Substate) : Substate :=
  Build_Substate (selfdestruct_set s) (touched_accounts s) (touched_storage_slots s) v.

Definition set_call_frames (v : list CallFrame) (m : VM) : VM :=
  Build_VM v (env m) (accrued_substate m) (db m) (cache m) (tx_kind m) (access_list m).
Definition set_env (v : Environment) (m : VM) : VM :=
  Build_VM (call_frames m) v (accrued_substate m) (db m) (cache m) (tx_kind m) (access_list m).
Definition set_substate (v : Substate) (m : VM) : VM :=
  Build_VM (call_frames m) (env m) v (db m) (cache m) (tx_kind m) (access_list m).
Definition set_cache (v : CacheDB) (m : VM) : VM :=
  Build_VM (call_frames m) (env m) (accrued_substate m) (db m) v (tx_kind m) (access_list m).

(** ** The state monad *)

Definition ST (S A : Type) : Type := S → Result A * S.

#[export] Instance st_ret S : MRet (ST S) := λ A a s, (Ok a, s).
#[export] Instance st_bind S : MBind (ST S) := λ A B f m s,
  match m s with
  | (Ok a, s') => f a s'
  | (Err e, s') => (Err e, s')
  | (Panic, s') => (Panic, s')
  | (NoFuel, s') => (NoFuel, s')
  end.

(** A fallible expression that reads no state ([expr?]). *)
Definition lift {S A} (m : Result A) : ST S A := λ s, (m, s).
Definition throw {S A} (e : VMError) : ST S A := λ s, (Err e, s).
Definition gets {S A} (f : S → A) : ST S A := λ s, (Ok (f s), s).
Definition modify {S} (f : S → S) : ST S unit := λ s, (Ok tt, f s).

(** The state of a handler: the machine and the frame being executed. *)
Notation St := (VM * CallFrame)%type.
Notation M := (ST St).

Definition on_vm {A} (m : ST VM A) : M A := λ s,
  let '(r, v) := m s.1 in (r, (v, s.2)).
Definition on_frame {A} (m : ST CallFrame A) : M A := λ s,
  let '(r, f) := m s.2 in (r, (s.1, f)).
Definition frame {A} (f : CallFrame → A) : M A := gets (λ s, f s.2).
Definition machine {A} (f : VM → A) : M A := gets (λ s, f s.1).
Definition upd_frame (f : CallFrame → CallFrame) : M unit := modify (λ s, (s.1, f s.2)).
Definition upd_vm (f : VM → VM) : M unit := modify (λ s, (f s.1, s.2)).

(** [From] conversions of the [?] operator. *)
Definition oog {A} (o : option A) (e : OutOfGasError.t) : Result A := ok_or o (OutOfGas e).
Definition internal {A} (o : option A) (e : InternalError.t) : Result A := ok_or o (Internal e).

(** ** The call-frame operations (call_frame.rs) *)

Definition STACK_LIMIT : Z := 1024.

Definition pop : M Z :=
  s ← frame stack;
  match s with
  | [] => throw StackUnderflow
  | x :: s' => _ ← upd_frame (set_stack s'); mret x
  end.

Definition push (value : Z) : M unit :=
  s ← frame stack;
  if STACK_LIMIT <=? len s then throw StackOverflow
  else upd_frame (set_stack (value :: s)).

(** [Stack::get] at an index of the Rust vector. *)
Definition stack_get (s : list Z) (index : Z) : Result Z :=
  if len s <=? index then Err StackUnderflow
  else ok_or (s !! Z.to_nat (len s - 1 - index)) StackUnderflow.

(** [Stack::swap] of two indices of the Rust vector. *)
Definition stack_swap (s : list Z) (a b : Z) : Result (list Z) :=
  if (len s <=? a) || (len s <=? b) then Err StackUnderflow
  else
    let i := Z.to_nat (len s - 1 - a) in
    let j := Z.to_nat (len s - 1 - b) in
    x ← ok_or (s !! i) StackUnderflow;
    y ← ok_or (s !! j) StackUnderflow;
    Ok (<[j := x]> (<[i := y]> s)).

Definition increment_pc_by (count : Z) : M unit :=
  p ← frame pc;
  p' ← lift (internal (checked_add 64 p count) InternalError.PCOverflowed);
  upd_frame (set_pc p').

Definition increment_pc : M unit := increment_pc_by 1.

(** ** Addresses (vm.rs) *)

Definition address_to_word (address : Z) : Z :=
  be_decode (replicate 12 0 ++ be_encode 20 address).

Definition word_to_address (word : Z) : Z :=
  be_decode (drop 12 (be_encode 32 word)).
