(* ===== verification/LevmMemory.v ===== *)
(** * LEVM: memory (crates/vm/levm/src/memory.rs)

    Memory is a byte vector that grows in 32-byte words.  The operations that
    take [&mut Memory] are in the state monad over it; an error after a resize
    leaves the resized memory behind, as in the code.  [Vec::try_reserve] fails
    above [isize::MAX]; exhaustion of the host's memory is not modelled. *)

From stdpp Require Import base option list numbers.
From S2P Require Import Prelude LevmState.

Local Open Scope Z_scope.

Definition WORD_SIZE_IN_BYTES_USIZE : Z := 32.
Definition MEMORY_EXPANSION_QUOTIENT : Z := 512.

Notation Memory := (list Z).
Notation MM := (ST Memory).

Definition try_resize (unchecked_new_size : Z) : MM unit :=
  memory ← gets id;
  if (unchecked_new_size =? 0) || (unchecked_new_size <=? len memory) then mret tt
  else
    new_size ← lift (ok_or (checked_next_multiple_of 64 unchecked_new_size
                              WORD_SIZE_IN_BYTES_USIZE) OutOfBounds);
    if len memory <? new_size then
      additional_size ← lift (internal (checked_sub 64 new_size (len memory))
                                InternalError.ArithmeticOperationUnderflow);
      if 2 ^ 63 - 1 <? len memory + additional_size then throw MemorySizeOverflow
      else modify (λ m, m ++ replicate (Z.to_nat additional_size) 0)
    else mret tt.

Definition load_range (offset size : Z) : MM (list Z) :=
  if size =? 0 then mret []
  else
    offset ← lift (ok_or (try_into 64 offset) VeryLargeNumber);
    stop ← lift (ok_or (checked_add 64 offset size) OutOfBounds);
    _ ← try_resize stop;
    memory ← gets id;
    if len memory <? stop then throw OutOfBounds
    else mret (slice offset stop memory).

Definition load_word (offset : Z) : MM Z :=
  bs ← load_range offset WORD_SIZE_IN_BYTES_USIZE;
  mret (be_decode bs).

(** Write [data] over the bytes from [at_offset], at most [data_size] of them. *)
Definition overwrite (memory data : list Z) (at_offset data_size : Z) : list Z :=
  let d := take (Z.to_nat data_size) data in
  take (Z.to_nat at_offset) memory ++ d ++ drop (Z.to_nat at_offset + length d) memory.

Definition try_store (data : list Z) (at_offset data_size : Z) : MM unit :=
  if data_size =? 0 then mret tt
  else
    at_offset ← lift (ok_or (try_into 64 at_offset) VeryLargeNumber);
    stop ← lift (ok_or (checked_add 64 at_offset data_size) OutOfBounds);
    memory ← gets id;
    if len memory <? stop then throw OutOfBounds
    else modify (λ m, overwrite m data at_offset data_size).

(** The size a store of [size] bytes at [offset] needs. *)
Definition store_size (offset size : Z) : Result Z :=
  sum ← ok_or (checked_add 256 offset size) OutOfBounds;
  ok_or (try_into 64 sum) VeryLargeNumber.

Definition try_store_word (offset word : Z) : MM unit :=
  new_size ← lift (store_size offset WORD_SIZE_IN_BYTES_USIZE);
  _ ← try_resize new_size;
  try_store (be_encode 32 word) offset WORD_SIZE_IN_BYTES_USIZE.

Definition try_store_data (offset : Z) (data : list Z) : MM unit :=
  new_size ← lift (store_size offset (len data));
  _ ← try_resize new_size;
  try_store data offset (len data).

Definition try_store_range (offset size : Z) (data : list Z) : MM unit :=
  if size =? 0 then mret tt
  else
    new_size ← lift (store_size offset size);
    _ ← try_resize new_size;
    try_store data offset size.

(** The loop that fills the temporary buffer fails on the first index that
    overflows; the loop that writes it back stays below [to_offset + size]. *)
Definition try_copy_within (from_offset to_offset size : Z) : MM unit :=
  if size =? 0 then mret tt
  else
    from_offset ← lift (ok_or (try_into 64 from_offset) VeryLargeNumber);
    to_offset ← lift (ok_or (try_into 64 to_offset) VeryLargeNumber);
    stop ← lift (ok_or (checked_add 64 to_offset size) OutOfBounds);
    _ ← try_resize stop;
    _ ← lift (ok_or (checked_add 64 from_offset (size - 1)) OutOfBounds);
    memory ← gets id;
    let temporary_buffer :=
      (λ i, default 0 (memory !! (Z.to_nat from_offset + i)%nat)) <$> seq 0 (Z.to_nat size) in
    modify (λ m, overwrite m temporary_buffer to_offset size).

(** [cost]: the total price of a memory of [memory_size] bytes. *)
Definition cost (memory_size : Z) : Result Z :=
  rounded ← oog (checked_add 64 memory_size (WORD_SIZE_IN_BYTES_USIZE - 1))
              OutOfGasError.MemoryExpansionCostOverflow;
  let memory_size_word := rounded / WORD_SIZE_IN_BYTES_USIZE in
  square ← oog (checked_mul 64 memory_size_word memory_size_word)
             OutOfGasError.MemoryExpansionCostOverflow;
  quadratic ← oog (checked_div square MEMORY_EXPANSION_QUOTIENT)
                OutOfGasError.MemoryExpansionCostOverflow;
  linear ← oog (checked_mul 64 3 memory_size_word)
             OutOfGasError.MemoryExpansionCostOverflow;
  oog (checked_add 64 quadratic linear) OutOfGasError.MemoryExpansionCostOverflow.

Definition expansion_cost (new_memory_size current_memory_size : Z) : Result Z :=
  if new_memory_size <=? current_memory_size then Ok 0
  else
    new_cost ← cost new_memory_size;
    current_cost ← cost current_memory_size;
    internal (checked_sub 64 new_cost current_cost) InternalError.ArithmeticOperationUnderflow.

Definition calculate_memory_size (offset size : Z) : Result Z :=
  if size =? 0 then Ok 0
  else
    offset ← oog (try_into 64 offset) OutOfGasError.ConsumedGasOverflow;
    ok_or (sum ← checked_add 64 offset size;
           checked_next_multiple_of 64 sum WORD_SIZE_IN_BYTES_USIZE) OutOfBounds.

(** A memory operation of a handler, on the current frame's memory. *)
Definition on_memory {A} (m : MM A) : M A :=
  on_frame (λ f, let '(r, mem) := m (memory f) in (r, set_memory mem f)).
