(* ===== verification/LevmMemoryProofs.v ===== *)
(** * LEVM memory: proofs

    The byte vector of memory.rs implements an unbounded array of bytes that is
    zero where nothing was written, together with a size in whole words; and
    the expansion cost of gas_cost.rs pays for exactly the growth. *)

From stdpp Require Import base option list numbers.
From S2P Require Import Prelude LevmState LevmMemory.

Local Open Scope Z_scope.

(** ** The shape of a memory *)

Definition round32 (n : Z) : Z := 32 * ((n + 31) / 32).

(** The largest size [Vec] can hold, in whole words. *)
Definition MEM_LIMIT : Z := 2 ^ 63 - 32.

Definition mem_ok (mem : Memory) : Prop := len mem mod 32 = 0 ∧ len mem ≤ MEM_LIMIT.

Lemma round32_bounds n : n ≤ round32 n < n + 32.
Proof.
  unfold round32. pose proof (Z.div_mod (n + 31) 32).
  pose proof (Z.mod_pos_bound (n + 31) 32). lia.
Qed.

Lemma round32_mod n : round32 n mod 32 = 0.
Proof. unfold round32. rewrite Z.mul_comm. apply Z.mod_mul. lia. Qed.

Lemma round32_id n : n mod 32 = 0 → round32 n = n.
Proof.
  intros Hn. apply Z.mod_divide in Hn as [k ->]; [|lia]. unfold round32.
  rewrite Z.div_add_l by lia. change (31 / 32) with 0. lia.
Qed.

Lemma round32_mono m n : m ≤ n → round32 m ≤ round32 n.
Proof. intros. unfold round32. pose proof (Z.div_le_mono (m + 31) (n + 31) 32). lia. Qed.

Lemma next_multiple_32 w n :
  0 ≤ n → round32 n < 2 ^ w → checked_next_multiple_of w n 32 = Some (round32 n).
Proof.
  intros Hn Hw. unfold checked_next_multiple_of.
  pose proof (round32_bounds n). pose proof (Z.mod_pos_bound n 32).
  assert (round32 n = n + (if n mod 32 =? 0 then 0 else 32 - n mod 32)) as E.
  { unfold round32. pose proof (Z.div_mod n 32). destruct (n mod 32 =? 0) eqn:E; propify.
    - replace (n + 31) with (n / 32 * 32 + 31) by lia. rewrite Z.div_add_l by lia.
      change (31 / 32) with 0. lia.
    - replace (n + 31) with ((n / 32 + 1) * 32 + (n mod 32 - 1)) by lia.
      rewrite Z.div_add_l, (Z.div_small (n mod 32 - 1)) by lia. lia. }
  destruct (n mod 32 =? 0); [f_equal; lia|].
  apply checked_add_Some. unfold in_u. lia.
Qed.

Lemma next_multiple_32_None w n :
  0 ≤ n < 2 ^ w → 2 ^ w ≤ round32 n → checked_next_multiple_of w n 32 = None.
Proof.
  intros Hn Hw. destruct (checked_next_multiple_of w n 32) as [r|] eqn:E; [|done].
  unfold checked_next_multiple_of in E. pose proof (round32_bounds n).
  destruct (n mod 32 =? 0) eqn:E0; propify; simplify_eq.
  - rewrite round32_id in Hw by done. lia.
  - pose proof E as E'. apply checked_add_Some in E' as [-> Hu]. unfold in_u in Hu.
    pose proof (Z.div_mod n 32). pose proof (Z.mod_pos_bound n 32). unfold round32 in *.
    assert ((n + 31) / 32 = n / 32 + 1); [|lia].
    replace (n + 31) with ((n / 32 + 1) * 32 + (n mod 32 - 1)) by lia.
    rewrite Z.div_add_l, (Z.div_small (n mod 32 - 1)) by lia. lia.
Qed.

(** ** Growing *)

Definition grow (mem : Memory) (n : Z) : Memory :=
  mem ++ replicate (Z.to_nat (round32 n - len mem)) 0.

Lemma len_replicate {A} n (x : A) : len (replicate n x) = Z.of_nat n.
Proof. unfold len. by rewrite length_replicate. Qed.

Lemma len_grow mem n : len (grow mem n) = Z.max (len mem) (round32 n).
Proof. unfold grow. rewrite len_app, len_replicate. pose proof (len_nonneg mem). lia. Qed.

Lemma grow_small mem n : mem_ok mem → n ≤ len mem → grow mem n = mem.
Proof.
  intros [Hm _] Hn. apply round32_mono in Hn. rewrite (round32_id (len mem)) in Hn by done.
  unfold grow. replace (Z.to_nat (round32 n - len mem)) with 0%nat by lia. apply app_nil_r.
Qed.

Lemma grow_ok mem n : mem_ok mem → n ≤ MEM_LIMIT → mem_ok (grow mem n).
Proof.
  intros [Hm Hl] Hn. unfold mem_ok. rewrite len_grow.
  pose proof (round32_mod n). apply round32_mono in Hn.
  rewrite (round32_id MEM_LIMIT) in Hn by done.
  destruct (Z.max_spec (len mem) (round32 n)) as [[_ ->]|[_ ->]]; done.
Qed.

(** [try_resize] either grows the memory to the words that hold [n] bytes or
    fails and leaves it alone. *)
Lemma try_resize_spec mem n :
  mem_ok mem → 0 ≤ n < 2 ^ 64 →
  try_resize n mem =
    if n <=? MEM_LIMIT then (Ok tt, grow mem n)
    else (Err (if round32 n <? 2 ^ 64 then MemorySizeOverflow else OutOfBounds), mem).
Proof.
  intros Hm Hn. unfold try_resize, mbind, st_bind, gets, lift, throw, modify, mret, st_ret.
  cbn -[Z.pow Z.leb Z.ltb round32 checked_next_multiple_of].
  pose proof (len_nonneg mem) as Hl. pose proof Hm as [_ Hmax].
  pose proof (round32_bounds n) as Hr. unfold MEM_LIMIT in *.
  destruct ((n =? 0) || (n <=? len mem)) eqn:E.
  { assert (n ≤ len mem) by (apply orb_true_iff in E as [E|E]; propify; lia).
    rewrite (proj2 (Z.leb_le n (2 ^ 63 - 32))) by lia. by rewrite grow_small. }
  propify. destruct (decide (round32 n < 2 ^ 64)) as [Hlt|Hge].
  - rewrite next_multiple_32 by lia. cbn -[Z.pow Z.leb Z.ltb round32].
    rewrite (proj2 (Z.ltb_lt (len mem) (round32 n))) by lia.
    unfold checked_sub. rewrite fits_true by (unfold in_u; lia).
    cbn -[Z.pow Z.leb Z.ltb round32].
    replace (len mem + (round32 n - len mem)) with (round32 n) by lia.
    rewrite (proj2 (Z.ltb_lt (round32 n) (2 ^ 64))) by lia.
    pose proof (round32_mod n) as H32.
    destruct (n <=? 2 ^ 63 - 32) eqn:E2; propify.
    + assert (round32 n ≤ 2 ^ 63 - 32) as Hle.
      { rewrite <- (round32_id (2 ^ 63 - 32)) by done. by apply round32_mono. }
      by rewrite (proj2 (Z.ltb_ge (2 ^ 63 - 1) (round32 n))) by lia.
    + assert (2 ^ 63 ≤ round32 n).
      { pose proof (round32_mono (2 ^ 63 - 31) n ltac:(lia)) as Hmono.
        change (round32 (2 ^ 63 - 31)) with (2 ^ 63) in Hmono. lia. }
      by rewrite (proj2 (Z.ltb_lt (2 ^ 63 - 1) (round32 n))) by lia.
  - rewrite next_multiple_32_None by lia. cbn -[Z.pow Z.leb Z.ltb round32].
    rewrite (proj2 (Z.leb_gt n (2 ^ 63 - 32))) by lia.
    by rewrite (proj2 (Z.ltb_ge (round32 n) (2 ^ 64))) by lia.
Qed.

(** ** Contents *)

(** The byte at an address: zero where the vector ends. *)
Definition byte_at (mem : Memory) (i : nat) : Z := default 0 (mem !! i).

Lemma byte_at_grow mem n i : byte_at (grow mem n) i = byte_at mem i.
Proof.
  unfold byte_at, grow. destruct (decide (i < length mem)%nat) as [Hi|Hi].
  - by rewrite lookup_app_l.
  - rewrite lookup_app_r, (lookup_ge_None_2 mem) by lia.
    destruct (replicate _ _ !! _) eqn:E; [|done].
    by apply lookup_replicate in E as [-> _].
Qed.

Lemma len_overwrite mem data off size :
  0 ≤ off → off + Z.min size (len data) ≤ len mem → 0 ≤ size →
  len (overwrite mem data off size) = len mem.
Proof.
  unfold overwrite, len. intros. rewrite !length_app, length_take, length_drop, length_take.
  lia.
Qed.

Lemma byte_at_overwrite mem data off size i :
  0 ≤ off → 0 ≤ size → off + Z.min size (len data) ≤ len mem →
  byte_at (overwrite mem data off size) i =
    if bool_decide (off ≤ Z.of_nat i < off + Z.min size (len data))
    then byte_at data (i - Z.to_nat off) else byte_at mem i.
Proof.
  unfold byte_at, overwrite, len. intros Ho Hs Hb.
  set (d := take (Z.to_nat size) data).
  assert (length d = Z.to_nat (Z.min size (Z.of_nat (length data)))) as Hd
    by (subst d; rewrite length_take; lia).
  assert (length (take (Z.to_nat off) mem) = Z.to_nat off) as Ht by (rewrite length_take; lia).
  case_bool_decide as Hi.
  - rewrite lookup_app_r, lookup_app_l by lia. rewrite Ht. subst d.
    by rewrite lookup_take_lt by lia.
  - destruct (decide (Z.of_nat i < off)).
    + rewrite lookup_app_l, lookup_take_lt by lia. done.
    + rewrite lookup_app_r, lookup_app_r by lia. rewrite Ht, lookup_drop. f_equal. f_equal. lia.
Qed.

(** The bytes of a range. *)
Definition read (mem : Memory) (off size : Z) : list Z :=
  byte_at mem <$> seq (Z.to_nat off) (Z.to_nat size).

Lemma slice_read mem off size :
  0 ≤ off → 0 ≤ size → off + size ≤ len mem → slice off (off + size) mem = read mem off size.
Proof.
  unfold slice, read, len. intros Ho Hs Hl. replace (off + size - off) with size by lia.
  apply list_eq. intros i. rewrite list_lookup_fmap.
  destruct (decide (i < Z.to_nat size)%nat) as [Hi|Hi].
  - rewrite lookup_take_lt, lookup_drop, lookup_seq_lt by done. simpl. unfold byte_at.
    destruct (lookup_lt_is_Some_2 mem (Z.to_nat off + i)) as [b ->]; [lia|done].
  - rewrite lookup_take_ge, lookup_seq_ge by lia. done.
Qed.

Lemma read_ext mem mem' off size :
  (∀ i, byte_at mem' i = byte_at mem i) → read mem' off size = read mem off size.
Proof. intros He. apply list_fmap_ext. intros ? i _. apply He. Qed.

(** ** The operations against an unbounded array *)

(** What a caller may rely on: a size and the byte at every address. *)
Record Spec := { spec_size : Z; spec_byte : nat → Z }.

Definition abs (mem : Memory) : Spec := {| spec_size := len mem; spec_byte := byte_at mem |}.

#[export] Instance spec_equiv : Equiv Spec := λ a b,
  spec_size a = spec_size b ∧ ∀ i, spec_byte a i = spec_byte b i.

#[export] Instance spec_equivalence : Equivalence (≡@{Spec}).
Proof.
  split.
  - by intros a.
  - intros a b [??]. split; [done|]. by intros i.
  - intros a b c [Hs1 Hb1] [Hs2 Hb2]. split; [by rewrite Hs1|]. intros i. by rewrite Hb1.
Qed.

(** The size in bytes of the words that hold [size] bytes from [off]. *)
Definition extent (off size : Z) : Z := if size =? 0 then 0 else round32 (off + size).

Definition spec_touch (off size : Z) (a : Spec) : Spec :=
  {| spec_size := Z.max (spec_size a) (extent off size); spec_byte := spec_byte a |}.

Definition spec_load (off size : Z) (a : Spec) : list Z :=
  spec_byte a <$> seq (Z.to_nat off) (Z.to_nat size).

Definition in_range (off size : Z) (i : nat) : bool :=
  bool_decide (off ≤ Z.of_nat i < off + size).

Definition spec_store (off : Z) (data : list Z) (a : Spec) : Spec :=
  {| spec_size := Z.max (spec_size a) (round32 (off + len data));
     spec_byte i := if in_range off (len data) i then byte_at data (i - Z.to_nat off)
                    else spec_byte a i |}.

(** The bytes of the source as they were before the copy, zeros past its end. *)
Definition spec_copy (src dst size : Z) (a : Spec) : Spec :=
  {| spec_size := Z.max (spec_size a) (extent dst size);
     spec_byte i := if in_range dst size i
                    then spec_byte a (Z.to_nat src + (i - Z.to_nat dst)) else spec_byte a i |}.

Lemma load_range_spec mem off size :
  mem_ok mem → 0 ≤ off → 0 ≤ size → off + size ≤ MEM_LIMIT →
  load_range off size mem =
    (Ok (read mem off size), if size =? 0 then mem else grow mem (off + size)).
Proof.
  intros Hm Ho Hs Hl. unfold MEM_LIMIT in Hl. unfold load_range.
  destruct (size =? 0) eqn:E; propify; [by subst|].
  unfold mbind, st_bind, lift. unfold try_into. rewrite fits_true by (unfold in_u; lia). simpl.
  unfold checked_add. rewrite fits_true by (unfold in_u; lia). simpl.
  rewrite try_resize_spec by (done || lia).
  rewrite (proj2 (Z.leb_le (off + size) MEM_LIMIT)) by (unfold MEM_LIMIT; lia). simpl.
  pose proof (round32_bounds (off + size)).
  rewrite len_grow, (proj2 (Z.ltb_ge _ (off + size))) by lia. unfold mret, st_ret.
  rewrite slice_read by (rewrite ?len_grow; lia).
  f_equal. f_equal. apply read_ext, byte_at_grow.
Qed.

Lemma try_store_spec mem data off size :
  0 ≤ off → 0 ≤ size → off + size ≤ len mem → len mem ≤ MEM_LIMIT →
  try_store data off size mem = (Ok tt, overwrite mem data off size).
Proof.
  intros Ho Hs Hl Hm. unfold MEM_LIMIT in Hm. unfold try_store.
  destruct (size =? 0) eqn:E; propify.
  { subst. unfold overwrite. simpl. by rewrite Nat.add_0_r, take_drop. }
  unfold mbind, st_bind, lift. unfold try_into. rewrite fits_true by (unfold in_u; lia). simpl.
  unfold checked_add. rewrite fits_true by (unfold in_u; lia). simpl.
  by rewrite (proj2 (Z.ltb_ge _ (off + size))) by lia.
Qed.

Lemma store_size_spec off size :
  0 ≤ off → 0 ≤ size → off + size ≤ MEM_LIMIT → store_size off size = Ok (off + size).
Proof.
  intros Ho Hs Hl. unfold MEM_LIMIT in Hl. unfold store_size, checked_add.
  rewrite fits_true by (unfold in_u; lia). simpl.
  unfold try_into. by rewrite fits_true by (unfold in_u; lia).
Qed.

Lemma try_store_data_spec mem off data :
  mem_ok mem → 0 ≤ off → off + len data ≤ MEM_LIMIT →
  try_store_data off data mem =
    (Ok tt, overwrite (grow mem (off + len data)) data off (len data)).
Proof.
  intros Hm Ho Hl. pose proof (len_nonneg data) as Hd. unfold MEM_LIMIT in *.
  unfold try_store_data, mbind, st_bind, lift. rewrite store_size_spec by done. simpl.
  rewrite try_resize_spec by (done || lia).
  rewrite (proj2 (Z.leb_le (off + len data) MEM_LIMIT)) by done.
  pose proof (round32_bounds (off + len data)).
  destruct (grow_ok mem (off + len data)); [done..|].
  apply try_store_spec; rewrite ?len_grow in *; unfold MEM_LIMIT in *; lia.
Qed.

Lemma try_copy_within_spec mem src dst size :
  mem_ok mem → 0 ≤ src → 0 ≤ dst → 0 < size → dst + size ≤ MEM_LIMIT →
  src + size ≤ 2 ^ 64 →
  try_copy_within src dst size mem =
    (Ok tt, overwrite (grow mem (dst + size)) (read mem src size) dst size).
Proof.
  intros Hm Hs Hd Hz Hl Hsz. unfold MEM_LIMIT in Hl. unfold try_copy_within.
  rewrite (proj2 (Z.eqb_neq size 0)) by lia.
  unfold mbind, st_bind, lift, try_into.
  rewrite !fits_true by (unfold in_u; lia). simpl.
  unfold checked_add. rewrite fits_true by (unfold in_u; lia). simpl.
  rewrite try_resize_spec by (done || lia).
  rewrite (proj2 (Z.leb_le (dst + size) MEM_LIMIT)) by (unfold MEM_LIMIT; lia). simpl.
  rewrite fits_true by (unfold in_u; lia). simpl. unfold gets, modify. simpl.
  f_equal. f_equal. unfold read.
  assert (seq (Z.to_nat src) (Z.to_nat size) = Nat.add (Z.to_nat src) <$> seq 0 (Z.to_nat size))
    as -> by (rewrite fmap_add_seq; f_equal; lia).
  rewrite <- list_fmap_compose.
  apply list_fmap_ext. intros ? i _. simpl. apply (byte_at_grow mem).
Qed.

Lemma grow_touch mem off size :
  size ≠ 0 → abs (grow mem (off + size)) ≡ spec_touch off size (abs mem).
Proof.
  intros Hs. split; simpl; [|apply byte_at_grow].
  unfold extent. by rewrite len_grow, (proj2 (Z.eqb_neq size 0)).
Qed.

(** Writing [data] into memory that has been grown for it. *)
Lemma abs_overwrite_grow mem off data size :
  0 ≤ off → len data = size →
  let mem' := overwrite (grow mem (off + size)) data off size in
  len mem' = Z.max (len mem) (round32 (off + size)) ∧
  ∀ i, byte_at mem' i =
    if in_range off size i then byte_at data (i - Z.to_nat off) else byte_at mem i.
Proof.
  intros Ho <- mem'. subst mem'. pose proof (len_nonneg data).
  pose proof (round32_bounds (off + len data)). split.
  - rewrite len_overwrite; rewrite ?len_grow; lia.
  - intros i. rewrite byte_at_overwrite by (rewrite ?len_grow; lia).
    rewrite Z.min_id, byte_at_grow. done.
Qed.

Lemma len_read mem off size : 0 ≤ size → len (read mem off size) = size.
Proof. intros. unfold read, len. rewrite length_fmap, length_seq. lia. Qed.

Lemma byte_at_read mem off size i :
  (i < Z.to_nat size)%nat → byte_at (read mem off size) i = byte_at mem (Z.to_nat off + i).
Proof.
  intros Hi. unfold read, byte_at at 1. by rewrite list_lookup_fmap, lookup_seq_lt.
Qed.

(** C33: memory.rs implements an unbounded zero-filled byte array.  For any
    well-shaped memory and any access below the largest size a vector can have,
    a load returns the bytes of the range, a store and a copy change exactly
    the target range (the copy reads the source as it was before, also when the
    ranges overlap, and zeros past the end), and the size becomes that of the
    words which hold the range accessed. *)
Theorem memory_refines mem off src size data :
  mem_ok mem → 0 ≤ off → 0 ≤ src → 0 ≤ size → off + size ≤ MEM_LIMIT →
  off + len data ≤ MEM_LIMIT → src + size ≤ 2 ^ 64 →
  (∃ mem', load_range off size mem = (Ok (spec_load off size (abs mem)), mem') ∧
     abs mem' ≡ spec_touch off size (abs mem) ∧ mem_ok mem') ∧
  (∃ mem', try_store_data off data mem = (Ok tt, mem') ∧
     abs mem' ≡ spec_store off data (abs mem) ∧ mem_ok mem') ∧
  (∃ mem', try_copy_within src off size mem = (Ok tt, mem') ∧
     abs mem' ≡ spec_copy src off size (abs mem) ∧ mem_ok mem').
Proof.
  intros Hm Ho Hsrc Hs Hl Hd Hsz. split_and!.
  - rewrite load_range_spec by done. eexists; split; [done|].
    destruct (size =? 0) eqn:E; propify.
    + subst. split; [|done]. split; [|done]. simpl. unfold extent. simpl.
      pose proof (len_nonneg mem). lia.
    + split; [by apply grow_touch|by apply grow_ok].
  - rewrite try_store_data_spec by done. eexists; split; [done|].
    destruct (abs_overwrite_grow mem off data (len data)) as [Hlen Hb]; [done..|].
    split; [done|]. pose proof (grow_ok mem (off + len data)) as Hg.
    unfold mem_ok in *. rewrite Hlen, <- len_grow. by apply Hg.
  - destruct (decide (size = 0)) as [->|Hne].
    { exists mem. split; [done|]. split; [|done]. split; simpl.
      - simpl. unfold extent. simpl. pose proof (len_nonneg mem). lia.
      - intros i. unfold in_range. rewrite bool_decide_eq_false_2 by lia. done. }
    rewrite try_copy_within_spec by (done || lia). eexists; split; [done|].
    destruct (abs_overwrite_grow mem off (read mem src size) size) as [Hlen Hb];
      [done|by apply len_read|].
    split; [split; simpl|].
    + unfold extent. by rewrite Hlen, (proj2 (Z.eqb_neq size 0)).
    + intros i. rewrite Hb. unfold in_range. case_bool_decide; [|done].
      rewrite byte_at_read by lia. done.
    + pose proof (grow_ok mem (off + size)) as Hg. unfold mem_ok in *.
      rewrite Hlen, <- len_grow. by apply Hg.
Qed.

Lemma memory_refines_witness :
  ∃ mem', try_copy_within 0 16 32 (be_encode 32 (2 ^ 255 + 5)) = (Ok tt, mem') ∧
    abs mem' ≡ spec_copy 0 16 32 (abs (be_encode 32 (2 ^ 255 + 5))).
Proof.
  destruct (memory_refines (be_encode 32 (2 ^ 255 + 5)) 16 0 32 []) as (_ & _ & mem' & H & Ha & _);
    [by split|done..|].
  by exists mem'.
Defined.

(** ** Costs *)

(** The price of [a] words in the Yellow Paper: C_mem(a). *)
Definition word_cost (a : Z) : Z := 3 * a + a * a / 512.

Lemma word_cost_mono a b : 0 ≤ a ≤ b → word_cost a ≤ word_cost b.
Proof.
  intros. unfold word_cost. pose proof (Z.div_le_mono (a * a) (b * b) 512). nia.
Qed.

Lemma word_cost_bounds a : 0 ≤ a → 3 * a ≤ word_cost a.
Proof. intros. unfold word_cost. pose proof (Z.div_pos (a * a) 512). nia. Qed.

(** The number of words of a memory whose price a [usize] can hold. *)
Definition MAX_WORDS : Z := 2 ^ 32 - 1.

(** [cost] on every input: the price, or an out-of-gas error. *)
Lemma cost_spec n :
  0 ≤ n < 2 ^ 64 →
  cost n = if (n + 31) / 32 <=? MAX_WORDS then Ok (word_cost ((n + 31) / 32))
           else Err (OutOfGas OutOfGasError.MemoryExpansionCostOverflow).
Proof.
  intros Hn. unfold cost, oog, MAX_WORDS. change (WORD_SIZE_IN_BYTES_USIZE - 1) with 31.
  change WORD_SIZE_IN_BYTES_USIZE with 32. change MEMORY_EXPANSION_QUOTIENT with 512.
  pose proof (Z.div_mod (n + 31) 32). pose proof (Z.mod_pos_bound (n + 31) 32).
  destruct (decide (in_u 64 (n + 31))) as [Hu|Hu]; unfold in_u in Hu.
  2: { rewrite checked_add_None by done.
       by rewrite (proj2 (Z.leb_gt ((n + 31) / 32) _)) by lia. }
  rewrite checked_add_in by done. cbn -[Z.pow Z.div Z.mul Z.leb checked_add checked_mul].
  set (w := (n + 31) / 32) in *. assert (0 ≤ w) by (apply Z.div_pos; lia).
  destruct (w <=? 2 ^ 32 - 1) eqn:Hw; propify.
  - assert (0 ≤ w * w ≤ (2 ^ 32 - 1) * (2 ^ 32 - 1))
      by (split; [|apply Z.mul_le_mono_nonneg]; lia).
    rewrite !checked_mul_in by (unfold in_u; lia). cbn -[Z.pow Z.div Z.mul checked_add].
    assert (0 ≤ w * w / 512 < 2 ^ 63).
    { split; [apply Z.div_pos; lia|]. apply Z.div_lt_upper_bound; lia. }
    rewrite checked_add_in by (unfold in_u; lia). unfold word_cost.
    cbn -[Z.pow Z.div Z.mul]. f_equal. lia.
  - assert (2 ^ 32 * 2 ^ 32 ≤ w * w) by (apply Z.mul_le_mono_nonneg; lia).
    rewrite (checked_mul_None 64 w w) by (unfold in_u; lia). done.
Qed.

Lemma cost_Ok n c :
  0 ≤ n < 2 ^ 64 → cost n = Ok c →
  c = word_cost ((n + 31) / 32) ∧ (n + 31) / 32 ≤ MAX_WORDS.
Proof. intros Hn. rewrite cost_spec by done. destruct (_ <=? _) eqn:E; propify; naive_solver. Qed.

Lemma expansion_cost_Ok new cur c :
  0 ≤ cur < 2 ^ 64 → 0 ≤ new < 2 ^ 64 → expansion_cost new cur = Ok c →
  0 ≤ c ∧ new ≤ Z.max cur (32 * MAX_WORDS).
Proof.
  intros Hc Hn. unfold expansion_cost. destruct (new <=? cur) eqn:E; propify.
  { intros [= <-]. lia. }
  intros H. outcome_inv. apply cost_Ok in H0 as [-> Hw]; [|done]. subst.
  unfold internal in H. outcome_inv. unfold in_u in *. subst.
  pose proof (Z.div_mod (new + 31) 32). pose proof (Z.mod_pos_bound (new + 31) 32).
  unfold MAX_WORDS in *. lia.
Qed.

(** The expansion cost is the difference of the Yellow Paper's prices of
    the two sizes, it is an out-of-gas error exactly when the price of the new
    size does not fit in a [usize], and the subtraction never underflows. *)
Theorem expansion_cost_spec new cur :
  0 ≤ cur < 2 ^ 64 → 0 ≤ new < 2 ^ 64 →
  expansion_cost new cur =
    if (new <=? cur) then Ok 0
    else if (new + 31) / 32 <=? MAX_WORDS
         then Ok (word_cost ((new + 31) / 32) - word_cost ((cur + 31) / 32))
         else Err (OutOfGas OutOfGasError.MemoryExpansionCostOverflow).
Proof.
  intros Hc Hn. unfold expansion_cost. destruct (new <=? cur) eqn:E; propify; [done|].
  rewrite !cost_spec by done.
  assert ((cur + 31) / 32 ≤ (new + 31) / 32) by (apply Z.div_le_mono; lia).
  assert (0 ≤ (cur + 31) / 32) by (apply Z.div_pos; lia).
  destruct ((new + 31) / 32 <=? MAX_WORDS) eqn:Hw; propify; [|done].
  rewrite (proj2 (Z.leb_le ((cur + 31) / 32) MAX_WORDS)) by lia. cbn -[Z.pow Z.div word_cost].
  pose proof (word_cost_mono ((cur + 31) / 32) ((new + 31) / 32)).
  pose proof (word_cost_mono ((new + 31) / 32) MAX_WORDS).
  pose proof (word_cost_bounds ((cur + 31) / 32)).
  unfold internal, checked_sub. rewrite fits_true; [done|].
  assert (word_cost MAX_WORDS < 2 ^ 64) by done. unfold in_u. lia.
Qed.

Lemma expansion_cost_spec_witness :
  expansion_cost 1024 64 = Ok (word_cost 32 - word_cost 2).
Proof. rewrite (expansion_cost_spec 1024 64) by done. done. Defined.

(** The size [calculate_memory_size] announces is the size an access gets. *)
Lemma calculate_memory_size_spec off size :
  0 ≤ off → 0 ≤ size → off + size ≤ MEM_LIMIT →
  calculate_memory_size off size = Ok (extent off size).
Proof.
  intros Ho Hs Hl. unfold MEM_LIMIT in Hl. unfold calculate_memory_size, extent.
  destruct (size =? 0) eqn:E; propify; [done|].
  unfold oog, try_into. rewrite fits_true by (unfold in_u; lia). simpl.
  unfold checked_add. rewrite fits_true by (unfold in_u; lia).
  cbn -[Z.pow checked_next_multiple_of].
  pose proof (round32_bounds (off + size)). by rewrite next_multiple_32 by lia.
Qed.

Lemma calculate_memory_size_Ok off size n :
  0 ≤ size → calculate_memory_size off size = Ok n →
  0 ≤ n < 2 ^ 64 ∧ (size ≠ 0 → 0 ≤ off ∧ off + size ≤ n).
Proof.
  intros Hs. unfold calculate_memory_size, oog.
  destruct (size =? 0) eqn:E; propify; [intros [= <-]; lia|].
  intros H. outcome_inv. apply bind_Some in H as (sum & Hsum & H).
  change WORD_SIZE_IN_BYTES_USIZE with 32 in H. outcome_inv. unfold in_u in *. apply checked_next_multiple_of_Some in H as Hb; [|lia..].
  unfold checked_next_multiple_of in H.
  destruct (_ mod 32 =? 0); [injection H as <-; lia|]. outcome_inv. unfold in_u in *. lia.
Qed.

(** An access pays for the memory it gets.  When an opcode has charged the
    expansion to the size that [calculate_memory_size] computes for a range,
    loading or storing that range makes the memory exactly as large as paid
    for, and never fails. *)
Theorem paid_memory_is_allocated mem off size data n c :
  mem_ok mem → 0 ≤ size → len data = size → 0 < size →
  calculate_memory_size off size = Ok n → expansion_cost n (len mem) = Ok c →
  ∃ mem1 mem2,
    load_range off size mem = (Ok (read mem off size), mem1) ∧
    try_store_data off data mem = (Ok tt, mem2) ∧
    len mem1 = Z.max (len mem) n ∧ len mem2 = Z.max (len mem) n.
Proof.
  intros Hm Hs Hd Hz Hn Hc. pose proof (len_nonneg mem). pose proof Hm as [_ Hmax].
  destruct (calculate_memory_size_Ok off size n) as [Hn64 Hoff]; [done..|].
  destruct Hoff as [Ho Hle]; [lia|].
  apply expansion_cost_Ok in Hc as [_ Hn2]; [|unfold MEM_LIMIT in *; lia..].
  assert (off + size ≤ MEM_LIMIT) by (unfold MEM_LIMIT, MAX_WORDS in *; lia).
  rewrite calculate_memory_size_spec in Hn by done.
  unfold extent in Hn. rewrite (proj2 (Z.eqb_neq size 0)) in Hn by lia. injection Hn as <-.
  rewrite load_range_spec, try_store_data_spec by (rewrite ?Hd; done).
  rewrite (proj2 (Z.eqb_neq size 0)) by lia. do 2 eexists. split_and!; [done..| |].
  - apply len_grow.
  - rewrite Hd. by apply (abs_overwrite_grow mem off data size).
Qed.

Lemma paid_memory_is_allocated_witness :
  ∃ mem1 mem2, load_range 40 2 [] = (Ok (read [] 40 2), mem1) ∧
    try_store_data 40 [7; 9] [] = (Ok tt, mem2) ∧
    len mem1 = Z.max (len (@nil Z)) 64 ∧ len mem2 = Z.max (len (@nil Z)) 64.
Proof.
  by apply (paid_memory_is_allocated [] 40 2 [7; 9] 64 (word_cost 2)).
Defined.
