(* ===== verification/LevmGas.v ===== *)
(** * LEVM: gas costs (crates/vm/levm/src/gas_cost.rs) *)

From stdpp Require Import base option list numbers.
From S2P Require Import Prelude Rlp LevmState LevmMemory.

Local Open Scope Z_scope.

Module Gas.

Definition STOP := 0.
Definition ADD := 3.
Definition MUL := 5.
Definition SUB := 3.
Definition DIV := 5.
Definition SDIV := 5.
Definition MOD := 5.
Definition SMOD := 5.
Definition ADDMOD := 8.
Definition MULMOD := 8.
Definition EXP_STATIC := 10.
Definition EXP_DYNAMIC_BASE := 50.
Definition SIGNEXTEND := 5.
Definition LT := 3.
Definition GT := 3.
Definition SLT := 3.
Definition SGT := 3.
Definition EQ := 3.
Definition ISZERO := 3.
Definition AND := 3.
Definition OR := 3.
Definition XOR := 3.
Definition NOT := 3.
Definition BYTE := 3.
Definition SHL := 3.
Definition SHR := 3.
Definition SAR := 3.
Definition KECCAK25_STATIC := 30.
Definition KECCAK25_DYNAMIC_BASE := 6.
Definition CALLDATALOAD := 3.
Definition CALLDATASIZE := 2.
Definition CALLDATACOPY_STATIC := 3.
Definition CALLDATACOPY_DYNAMIC_BASE := 3.
Definition RETURNDATASIZE := 2.
Definition RETURNDATACOPY_STATIC := 3.
Definition RETURNDATACOPY_DYNAMIC_BASE := 3.
Definition ADDRESS := 2.
Definition ORIGIN := 2.
Definition CALLER := 2.
Definition BLOCKHASH := 20.
Definition COINBASE := 2.
Definition TIMESTAMP := 2.
Definition NUMBER := 2.
Definition PREVRANDAO := 2.
Definition GASLIMIT := 2.
Definition CHAINID := 2.
Definition SELFBALANCE := 5.
Definition BASEFEE := 2.
Definition BLOBHASH := 3.
Definition BLOBBASEFEE := 2.
Definition POP := 2.
Definition MLOAD_STATIC := 3.
Definition MSTORE_STATIC := 3.
Definition MSTORE8_STATIC := 3.
Definition JUMP := 8.
Definition JUMPI := 10.
Definition PC := 2.
Definition MSIZE := 2.
Definition GAS := 2.
Definition JUMPDEST := 1.
Definition TLOAD := 100.
Definition TSTORE := 100.
Definition MCOPY_STATIC := 3.
Definition MCOPY_DYNAMIC_BASE := 3.
Definition PUSH0 := 2.
Definition PUSHN := 3.
Definition DUPN := 3.
Definition SWAPN := 3.
Definition LOGN_STATIC := 375.
Definition LOGN_DYNAMIC_BASE := 375.
Definition LOGN_DYNAMIC_BYTE_BASE := 8.
Definition CALLVALUE := 2.
Definition CODESIZE := 2.
Definition CODECOPY_STATIC := 3.
Definition CODECOPY_DYNAMIC_BASE := 3.
Definition GASPRICE := 2.
Definition SELFDESTRUCT_STATIC := 5000.
Definition SELFDESTRUCT_DYNAMIC := 25000.
Definition DEFAULT_STATIC := 0.
Definition DEFAULT_COLD_DYNAMIC := 2600.
Definition DEFAULT_WARM_DYNAMIC := 100.
Definition SLOAD_STATIC := 0.
Definition SLOAD_COLD_DYNAMIC := 2100.
Definition SLOAD_WARM_DYNAMIC := 100.
Definition SSTORE_STATIC := 0.
Definition SSTORE_COLD_DYNAMIC := 2100.
Definition SSTORE_DEFAULT_DYNAMIC := 100.
Definition SSTORE_STORAGE_CREATION := 20000.
Definition SSTORE_STORAGE_MODIFICATION := 2900.
Definition SSTORE_STIPEND := 2300.
Definition EXTCODECOPY_STATIC := 0.
Definition EXTCODECOPY_DYNAMIC_BASE := 3.
Definition CALL_POSITIVE_VALUE := 9000.
Definition CALL_POSITIVE_VALUE_STIPEND := 2300.
Definition CALL_TO_EMPTY_ACCOUNT := 25000.
Definition CALLCODE_POSITIVE_VALUE := 9000.
Definition CALLCODE_POSITIVE_VALUE_STIPEND := 2300.
Definition COLD_ADDRESS_ACCESS_COST := 2600.
Definition INIT_CODE_WORD_COST := 2.
Definition CODE_DEPOSIT_COST := 200.
Definition CREATE_BASE_COST := 32000.
Definition CALLDATA_COST_ZERO_BYTE := 4.
Definition CALLDATA_COST_NON_ZERO_BYTE := 16.
Definition BLOB_GAS_PER_BLOB := 131072.
Definition ACCESS_LIST_STORAGE_KEY_COST := 1900.
Definition ACCESS_LIST_ADDRESS_COST := 2400.
Definition ECRECOVER_COST := 3000.
Definition SHA2_256_STATIC_COST := 60.
Definition SHA2_256_DYNAMIC_BASE := 12.
Definition RIPEMD_160_STATIC_COST := 600.
Definition RIPEMD_160_DYNAMIC_BASE := 120.
Definition IDENTITY_STATIC_COST := 15.
Definition IDENTITY_DYNAMIC_BASE := 3.
Definition MODEXP_STATIC_COST := 0.
Definition MODEXP_DYNAMIC_BASE := 200.
Definition MODEXP_DYNAMIC_QUOTIENT := 3.
Definition WORD_SIZE := 32.

(** [u64] arithmetic whose overflow is [GasCostOverflow]. *)
Definition add (a b : Z) : Result Z := oog (checked_add 64 a b) OutOfGasError.GasCostOverflow.
Definition mul (a b : Z) : Result Z := oog (checked_mul 64 a b) OutOfGasError.GasCostOverflow.

Definition exp (exponent : Z) : Result Z :=
  bits7 ← add (bits exponent) 7;
  exponent_byte_size ← ok_or (try_into 64 (bits7 / 8)) VeryLargeNumber;
  exponent_byte_size_cost ← mul EXP_DYNAMIC_BASE exponent_byte_size;
  add EXP_STATIC exponent_byte_size_cost.

Definition copy_behavior (new_memory_size current_memory_size size dynamic_base static_cost : Z)
    : Result Z :=
  rounded ← add size WORD_SIZE;
  minimum_word_size ← ok_or (try_into 64 (saturating_sub rounded 1 / WORD_SIZE)) VeryLargeNumber;
  expansion ← expansion_cost new_memory_size current_memory_size;
  memory_expansion_cost ← ok_or (try_into 64 expansion) VeryLargeNumber;
  minimum_word_size_cost ← mul dynamic_base minimum_word_size;
  total ← add static_cost minimum_word_size_cost;
  add total memory_expansion_cost.

Definition calldatacopy (new_memory_size current_memory_size size : Z) : Result Z :=
  copy_behavior new_memory_size current_memory_size size
    CALLDATACOPY_DYNAMIC_BASE CALLDATACOPY_STATIC.

Definition codecopy (new_memory_size current_memory_size size : Z) : Result Z :=
  copy_behavior new_memory_size current_memory_size size CODECOPY_DYNAMIC_BASE CODECOPY_STATIC.

Definition returndatacopy (new_memory_size current_memory_size size : Z) : Result Z :=
  copy_behavior new_memory_size current_memory_size size
    RETURNDATACOPY_DYNAMIC_BASE RETURNDATACOPY_STATIC.

Definition keccak256 (new_memory_size current_memory_size size : Z) : Result Z :=
  copy_behavior new_memory_size current_memory_size size KECCAK25_DYNAMIC_BASE KECCAK25_STATIC.

Definition log (new_memory_size current_memory_size size number_of_topics : Z) : Result Z :=
  expansion ← expansion_cost new_memory_size current_memory_size;
  topics_cost ← mul LOGN_DYNAMIC_BASE number_of_topics;
  size ← ok_or (try_into 64 size) VeryLargeNumber;
  bytes_cost ← mul LOGN_DYNAMIC_BYTE_BASE size;
  memory_expansion_cost ← ok_or (try_into 64 expansion) VeryLargeNumber;
  a ← add topics_cost LOGN_STATIC;
  b ← add a bytes_cost;
  add b memory_expansion_cost.

Definition mem_expansion_behavior (new_memory_size current_memory_size static_cost : Z)
    : Result Z :=
  expansion ← expansion_cost new_memory_size current_memory_size;
  memory_expansion_cost ← ok_or (try_into 64 expansion) RevertOpcode;
  add static_cost memory_expansion_cost.

Definition mload (new_memory_size current_memory_size : Z) : Result Z :=
  mem_expansion_behavior new_memory_size current_memory_size MLOAD_STATIC.
Definition mstore (new_memory_size current_memory_size : Z) : Result Z :=
  mem_expansion_behavior new_memory_size current_memory_size MSTORE_STATIC.
Definition mstore8 (new_memory_size current_memory_size : Z) : Result Z :=
  mem_expansion_behavior new_memory_size current_memory_size MSTORE8_STATIC.

Definition sload (storage_slot_was_cold : bool) : Result Z :=
  add SLOAD_STATIC (if storage_slot_was_cold then SLOAD_COLD_DYNAMIC else SLOAD_WARM_DYNAMIC).

Definition sstore (storage_slot : StorageSlot) (new_value : Z) (storage_slot_was_cold : bool)
    (current_call_frame : CallFrame) : Result Z :=
  gas_left ← oog (checked_sub 64 (gas_limit current_call_frame) (gas_used current_call_frame))
               OutOfGasError.ConsumedGasOverflow;
  if gas_left <=? SSTORE_STIPEND then Err (OutOfGas OutOfGasError.MaxGasLimitExceeded)
  else
    let base_dynamic_gas :=
      if new_value =? current_value storage_slot then SSTORE_DEFAULT_DYNAMIC
      else if current_value storage_slot =? original_value storage_slot then
        if original_value storage_slot =? 0 then SSTORE_STORAGE_CREATION
        else SSTORE_STORAGE_MODIFICATION
      else SSTORE_DEFAULT_DYNAMIC in
    base_dynamic_gas ←
      (if storage_slot_was_cold then add base_dynamic_gas SSTORE_COLD_DYNAMIC
       else Ok base_dynamic_gas);
    add SSTORE_STATIC base_dynamic_gas.

Definition mcopy (new_memory_size current_memory_size size : Z) : Result Z :=
  rounded ← add size WORD_SIZE;
  let words := saturating_sub rounded 1 / WORD_SIZE in
  expansion ← expansion_cost new_memory_size current_memory_size;
  memory_expansion_cost ← ok_or (try_into 64 expansion) VeryLargeNumber;
  words_copied ← ok_or (try_into 64 words) VeryLargeNumber;
  copied_words_cost ← mul MCOPY_DYNAMIC_BASE words_copied;
  total ← add MCOPY_STATIC copied_words_cost;
  add total memory_expansion_cost.

Definition compute_gas_create (new_memory_size current_memory_size code_size_in_memory : Z)
    (is_create_2 : bool) : Result Z :=
  rounded ← add code_size_in_memory 31;
  words ← oog (checked_div rounded 32) OutOfGasError.ArithmeticOperationDividedByZero;
  minimum_word_size ← ok_or (try_into 64 words) VeryLargeNumber;
  init_code_cost ← mul minimum_word_size INIT_CODE_WORD_COST;
  expansion ← expansion_cost new_memory_size current_memory_size;
  memory_expansion_cost ← ok_or (try_into 64 expansion) VeryLargeNumber;
  hash_cost ← (if is_create_2 then mul minimum_word_size KECCAK25_DYNAMIC_BASE else Ok 0);
  a ← oog (checked_add 64 memory_expansion_cost init_code_cost)
        OutOfGasError.CreationCostIsTooHigh;
  b ← oog (checked_add 64 a CREATE_BASE_COST) OutOfGasError.CreationCostIsTooHigh;
  oog (checked_add 64 b hash_cost) OutOfGasError.CreationCostIsTooHigh.

Definition create (new_memory_size current_memory_size code_size_in_memory : Z) : Result Z :=
  compute_gas_create new_memory_size current_memory_size code_size_in_memory false.
Definition create_2 (new_memory_size current_memory_size code_size_in_memory : Z) : Result Z :=
  compute_gas_create new_memory_size current_memory_size code_size_in_memory true.

Definition selfdestruct (address_was_cold account_is_empty : bool) (balance_to_transfer : Z)
    : Result Z :=
  gas_cost ←
    (if address_was_cold then add SELFDESTRUCT_STATIC COLD_ADDRESS_ACCESS_COST
     else Ok SELFDESTRUCT_STATIC);
  if account_is_empty && (0 <? balance_to_transfer) then add gas_cost SELFDESTRUCT_DYNAMIC
  else Ok gas_cost.

(** The loop over the transaction data, from an accumulated cost. *)
Fixpoint tx_calldata_from (calldata_cost : Z) (calldata : list Z) : Result Z :=
  match calldata with
  | [] => Ok calldata_cost
  | byte :: rest =>
      calldata_cost ←
        oog (checked_add 64 calldata_cost
               (if negb (byte =? 0) then CALLDATA_COST_NON_ZERO_BYTE
                else CALLDATA_COST_ZERO_BYTE))
          OutOfGasError.GasUsedOverflow;
      tx_calldata_from calldata_cost rest
  end.
Definition tx_calldata (calldata : list Z) : Result Z := tx_calldata_from 0 calldata.

Definition tx_creation (code_length number_of_words : Z) : Result Z :=
  a ← oog (checked_mul 64 code_length 200) OutOfGasError.CreationCostIsTooHigh;
  creation_cost ← oog (checked_add 64 a 32000) OutOfGasError.CreationCostIsTooHigh;
  words_cost ← mul number_of_words 2;
  oog (checked_add 64 creation_cost words_cost) OutOfGasError.GasUsedOverflow.

Definition address_access_cost (address_was_cold : bool)
    (static_cost cold_dynamic_cost warm_dynamic_cost : Z) : Result Z :=
  add static_cost (if address_was_cold then cold_dynamic_cost else warm_dynamic_cost).

(** BALANCE, EXTCODESIZE, EXTCODEHASH and the call family use the same three
    constants under names of their own. *)
Definition default_access_cost (address_was_cold : bool) : Result Z :=
  address_access_cost address_was_cold DEFAULT_STATIC DEFAULT_COLD_DYNAMIC DEFAULT_WARM_DYNAMIC.

Definition balance (address_was_cold : bool) : Result Z := default_access_cost address_was_cold.
Definition extcodesize (address_was_cold : bool) : Result Z :=
  default_access_cost address_was_cold.
Definition extcodehash (address_was_cold : bool) : Result Z :=
  default_access_cost address_was_cold.

Definition extcodecopy (size new_memory_size current_memory_size : Z) (address_was_cold : bool)
    : Result Z :=
  base_access_cost ← copy_behavior new_memory_size current_memory_size size
                       EXTCODECOPY_DYNAMIC_BASE EXTCODECOPY_STATIC;
  expansion_access_cost ← address_access_cost address_was_cold EXTCODECOPY_STATIC
                            DEFAULT_COLD_DYNAMIC DEFAULT_WARM_DYNAMIC;
  add base_access_cost expansion_access_cost.

Definition call (new_memory_size current_memory_size : Z) (address_was_cold address_is_empty : bool)
    (value_to_transfer : Z) : Result Z :=
  expansion ← expansion_cost new_memory_size current_memory_size;
  memory_expansion_cost ← ok_or (try_into 64 expansion) VeryLargeNumber;
  access ← default_access_cost address_was_cold;
  positive_value_cost ←
    (if negb (value_to_transfer =? 0) then
       internal (checked_sub 64 CALL_POSITIVE_VALUE CALL_POSITIVE_VALUE_STIPEND)
         InternalError.ArithmeticOperationUnderflow
     else Ok 0);
  let value_to_empty_account :=
    if address_is_empty && negb (value_to_transfer =? 0) then CALL_TO_EMPTY_ACCOUNT else 0 in
  a ← add memory_expansion_cost access;
  b ← add a positive_value_cost;
  dynamic_gas ← add b value_to_empty_account;
  add DEFAULT_STATIC dynamic_gas.

Definition callcode (new_memory_size current_memory_size : Z) (address_was_cold : bool)
    (value_to_transfer : Z) : Result Z :=
  expansion ← expansion_cost new_memory_size current_memory_size;
  memory_expansion_cost ← ok_or (try_into 64 expansion) VeryLargeNumber;
  access ← default_access_cost address_was_cold;
  positive_value_cost ←
    (if negb (value_to_transfer =? 0) then
       internal (checked_sub 64 CALLCODE_POSITIVE_VALUE CALLCODE_POSITIVE_VALUE_STIPEND)
         InternalError.ArithmeticOperationUnderflow
     else Ok 0);
  a ← add memory_expansion_cost access;
  dynamic_gas ← add a positive_value_cost;
  add DEFAULT_STATIC dynamic_gas.

Definition delegatecall (new_memory_size current_memory_size : Z) (address_was_cold : bool)
    : Result Z :=
  expansion ← expansion_cost new_memory_size current_memory_size;
  memory_expansion_cost ← ok_or (try_into 64 expansion) VeryLargeNumber;
  access ← default_access_cost address_was_cold;
  dynamic_gas ← add memory_expansion_cost access;
  add DEFAULT_STATIC dynamic_gas.

Definition staticcall (new_memory_size current_memory_size : Z) (address_was_cold : bool)
    : Result Z :=
  expansion ← expansion_cost new_memory_size current_memory_size;
  memory_expansion_cost ← ok_or (try_into 64 expansion) VeryLargeNumber;
  access ← default_access_cost address_was_cold;
  dynamic_gas ← add memory_expansion_cost access;
  add DEFAULT_STATIC dynamic_gas.

(** The loop of [fake_exponential], on integers of [w] bits: [u64] in
    gas_cost.rs and [U256] in opcode_handlers/block.rs, which differ in the
    error [e] of a division by zero. *)
Fixpoint fake_exponential_loop (w : Z) (e : InternalError.t) (fuel : nat)
    (numerator denominator i output numerator_accum : Z) : Result Z :=
  if numerator_accum <=? 0 then Ok output
  else match fuel with
  | O => NoFuel
  | S fuel =>
      output ← internal (checked_add w output numerator_accum)
                 InternalError.ArithmeticOperationOverflow;
      mult_numerator ← internal (checked_mul w numerator_accum numerator)
                         InternalError.ArithmeticOperationOverflow;
      mult_denominator ← internal (checked_mul w denominator i)
                           InternalError.ArithmeticOperationOverflow;
      numerator_accum ← internal (checked_div mult_numerator mult_denominator) e;
      i ← internal (checked_add w i 1) InternalError.ArithmeticOperationOverflow;
      fake_exponential_loop w e fuel numerator denominator i output numerator_accum
  end.

(** The number of iterations has a bound that depends on the width only: while
    [numerator] is at least twice [denominator * i] the accumulator doubles and
    overflows within [w] rounds, and once it is at most half of it the
    accumulator halves. *)
Definition fake_exponential_fuel (w : Z) : nat := Z.to_nat (5 * w + 8).

Definition fake_exponential_w (w : Z) (e : InternalError.t) (factor numerator denominator : Z)
    : Result Z :=
  numerator_accum ← internal (checked_mul w factor denominator)
                      InternalError.ArithmeticOperationOverflow;
  output ← fake_exponential_loop w e (fake_exponential_fuel w) numerator denominator 1 0
             numerator_accum;
  internal (checked_div output denominator) e.

Definition fake_exponential (factor numerator denominator : Z) : Result Z :=
  fake_exponential_w 64 InternalError.ArithmeticOperationOverflow factor numerator denominator.

Definition precompile (data_size static_cost dynamic_base : Z) : Result Z :=
  data_size ← ok_or (try_into 64 data_size) (PrecompileErr PrecompileError.ParsingInputError);
  rounded ← add data_size 31;
  dynamic_gas ← mul dynamic_base (rounded / 32);
  add static_cost dynamic_gas.

Definition sha2_256 (data_size : Z) : Result Z :=
  precompile data_size SHA2_256_STATIC_COST SHA2_256_DYNAMIC_BASE.
Definition ripemd_160 (data_size : Z) : Result Z :=
  precompile data_size RIPEMD_160_STATIC_COST RIPEMD_160_DYNAMIC_BASE.
Definition identity (data_size : Z) : Result Z :=
  precompile data_size IDENTITY_STATIC_COST IDENTITY_DYNAMIC_BASE.

Definition modexp (exponent base_size exponent_size modulus_size : Z) : Result Z :=
  let max_length := Z.max base_size modulus_size in
  rounded ← add max_length 7;
  let words := rounded / WORD_SIZE in
  multiplication_complexity ← oog (checked_pow 64 words 2) OutOfGasError.GasCostOverflow;
  iteration_count ←
    (if (exponent_size <=? WORD_SIZE) && (exponent =? 0) then Ok 0
     else if exponent_size <=? WORD_SIZE then
       n ← internal (checked_sub 64 (bits exponent) 1) InternalError.ArithmeticOperationUnderflow;
       internal (try_into 64 n) InternalError.ConversionError
     else
       extra ← internal (checked_sub 64 exponent_size WORD_SIZE)
                 InternalError.ArithmeticOperationUnderflow;
       extra_bits ← internal (checked_mul 64 8 extra) InternalError.ArithmeticOperationOverflow;
       two_256 ← internal (checked_pow 64 2 256) InternalError.ArithmeticOperationOverflow;
       mask ← internal (checked_sub 64 two_256 1) InternalError.ArithmeticOperationOverflow;
       n ← internal (checked_sub 64 (bits (Z.land exponent mask)) 1)
             InternalError.ArithmeticOperationUnderflow;
       n ← internal (try_into 64 n) InternalError.ConversionError;
       internal (checked_add 64 extra_bits n) InternalError.ArithmeticOperationOverflow);
  let calculate_iteration_count := Z.max iteration_count 1 in
  product ← mul multiplication_complexity calculate_iteration_count;
  let dynamic_gas := Z.max MODEXP_DYNAMIC_BASE (product / MODEXP_DYNAMIC_QUOTIENT) in
  add MODEXP_STATIC_COST dynamic_gas.

Definition max_message_call_gas (current_call_frame : CallFrame) : Result Z :=
  remaining_gas ← internal (checked_sub 64 (gas_limit current_call_frame)
                              (gas_used current_call_frame)) InternalError.GasOverflow;
  internal (checked_sub 64 remaining_gas (remaining_gas / 64)) InternalError.GasOverflow.

End Gas.
