(* ===== verification/LevmOpcodes.v ===== *)
(** * LEVM: opcodes and jump destinations

    The [Opcode] enum with its conversions (opcodes.rs), and
    [get_valid_jump_destinations] (vm.rs). *)

From stdpp Require Import base option list numbers gmap.
From S2P Require Import Prelude LevmState.

Local Open Scope Z_scope.

Module Opcode.

Inductive t :=
| STOP | ADD | MUL | SUB | DIV | SDIV | MOD | SMOD | ADDMOD | MULMOD | EXP | SIGNEXTEND
| LT | GT | SLT | SGT | EQ | ISZERO | AND | OR | XOR | NOT | BYTE | SHL | SHR | SAR
| KECCAK256 | ADDRESS | BALANCE | ORIGIN | CALLER | CALLVALUE | CALLDATALOAD
| CALLDATASIZE | CALLDATACOPY | CODESIZE | CODECOPY | GASPRICE | EXTCODESIZE
| EXTCODECOPY | RETURNDATASIZE | RETURNDATACOPY | EXTCODEHASH | BLOCKHASH | COINBASE
| TIMESTAMP | NUMBER | PREVRANDAO | GASLIMIT | CHAINID | SELFBALANCE | BASEFEE | BLOBHASH
| BLOBBASEFEE | POP | MLOAD | MSTORE | MSTORE8 | SLOAD | SSTORE | JUMP | JUMPI | PC
| MSIZE | GAS | JUMPDEST | TLOAD | TSTORE | MCOPY | PUSH0 | PUSH1 | PUSH2 | PUSH3 | PUSH4
| PUSH5 | PUSH6 | PUSH7 | PUSH8 | PUSH9 | PUSH10 | PUSH11 | PUSH12 | PUSH13 | PUSH14
| PUSH15 | PUSH16 | PUSH17 | PUSH18 | PUSH19 | PUSH20 | PUSH21 | PUSH22 | PUSH23 | PUSH24
| PUSH25 | PUSH26 | PUSH27 | PUSH28 | PUSH29 | PUSH30 | PUSH31 | PUSH32 | DUP1 | DUP2
| DUP3 | DUP4 | DUP5 | DUP6 | DUP7 | DUP8 | DUP9 | DUP10 | DUP11 | DUP12 | DUP13 | DUP14
| DUP15 | DUP16 | SWAP1 | SWAP2 | SWAP3 | SWAP4 | SWAP5 | SWAP6 | SWAP7 | SWAP8 | SWAP9
| SWAP10 | SWAP11 | SWAP12 | SWAP13 | SWAP14 | SWAP15 | SWAP16 | LOG0 | LOG1 | LOG2
| LOG3 | LOG4 | CREATE | CALL | CALLCODE | RETURN | DELEGATECALL | CREATE2 | STATICCALL
| REVERT | INVALID | SELFDESTRUCT.

(** [u8::from(opcode)]: the discriminant. *)
Definition to_u8 (opcode : t) : Z :=
  match opcode with
  | STOP => 0x00 | ADD => 0x01 | MUL => 0x02 | SUB => 0x03 | DIV => 0x04 | SDIV => 0x05
  | MOD => 0x06 | SMOD => 0x07 | ADDMOD => 0x08 | MULMOD => 0x09 | EXP => 0x0a
  | SIGNEXTEND => 0x0b | LT => 0x10 | GT => 0x11 | SLT => 0x12 | SGT => 0x13 | EQ => 0x14
  | ISZERO => 0x15 | AND => 0x16 | OR => 0x17 | XOR => 0x18 | NOT => 0x19 | BYTE => 0x1a
  | SHL => 0x1b | SHR => 0x1c | SAR => 0x1d | KECCAK256 => 0x20 | ADDRESS => 0x30
  | BALANCE => 0x31 | ORIGIN => 0x32 | CALLER => 0x33 | CALLVALUE => 0x34 | CALLDATALOAD => 0x35
  | CALLDATASIZE => 0x36 | CALLDATACOPY => 0x37 | CODESIZE => 0x38 | CODECOPY => 0x39
  | GASPRICE => 0x3a | EXTCODESIZE => 0x3b | EXTCODECOPY => 0x3c | RETURNDATASIZE => 0x3d
  | RETURNDATACOPY => 0x3e | EXTCODEHASH => 0x3f | BLOCKHASH => 0x40 | COINBASE => 0x41
  | TIMESTAMP => 0x42 | NUMBER => 0x43 | PREVRANDAO => 0x44 | GASLIMIT => 0x45 | CHAINID => 0x46
  | SELFBALANCE => 0x47 | BASEFEE => 0x48 | BLOBHASH => 0x49 | BLOBBASEFEE => 0x4a | POP => 0x50
  | MLOAD => 0x51 | MSTORE => 0x52 | MSTORE8 => 0x53 | SLOAD => 0x54 | SSTORE => 0x55
  | JUMP => 0x56 | JUMPI => 0x57 | PC => 0x58 | MSIZE => 0x59 | GAS => 0x5a | JUMPDEST => 0x5b
  | TLOAD => 0x5c | TSTORE => 0x5d | MCOPY => 0x5e | PUSH0 => 0x5f | PUSH1 => 0x60
  | PUSH2 => 0x61 | PUSH3 => 0x62 | PUSH4 => 0x63 | PUSH5 => 0x64 | PUSH6 => 0x65 | PUSH7 => 0x66
  | PUSH8 => 0x67 | PUSH9 => 0x68 | PUSH10 => 0x69 | PUSH11 => 0x6a | PUSH12 => 0x6b
  | PUSH13 => 0x6c | PUSH14 => 0x6d | PUSH15 => 0x6e | PUSH16 => 0x6f | PUSH17 => 0x70
  | PUSH18 => 0x71 | PUSH19 => 0x72 | PUSH20 => 0x73 | PUSH21 => 0x74 | PUSH22 => 0x75
  | PUSH23 => 0x76 | PUSH24 => 0x77 | PUSH25 => 0x78 | PUSH26 => 0x79 | PUSH27 => 0x7a
  | PUSH28 => 0x7b | PUSH29 => 0x7c | PUSH30 => 0x7d | PUSH31 => 0x7e | PUSH32 => 0x7f
  | DUP1 => 0x80 | DUP2 => 0x81 | DUP3 => 0x82 | DUP4 => 0x83 | DUP5 => 0x84 | DUP6 => 0x85
  | DUP7 => 0x86 | DUP8 => 0x87 | DUP9 => 0x88 | DUP10 => 0x89 | DUP11 => 0x8a | DUP12 => 0x8b
  | DUP13 => 0x8c | DUP14 => 0x8d | DUP15 => 0x8e | DUP16 => 0x8f | SWAP1 => 0x90 | SWAP2 => 0x91
  | SWAP3 => 0x92 | SWAP4 => 0x93 | SWAP5 => 0x94 | SWAP6 => 0x95 | SWAP7 => 0x96 | SWAP8 => 0x97
  | SWAP9 => 0x98 | SWAP10 => 0x99 | SWAP11 => 0x9a | SWAP12 => 0x9b | SWAP13 => 0x9c
  | SWAP14 => 0x9d | SWAP15 => 0x9e | SWAP16 => 0x9f | LOG0 => 0xa0 | LOG1 => 0xa1 | LOG2 => 0xa2
  | LOG3 => 0xa3 | LOG4 => 0xa4 | CREATE => 0xf0 | CALL => 0xf1 | CALLCODE => 0xf2
  | RETURN => 0xf3 | DELEGATECALL => 0xf4 | CREATE2 => 0xf5 | STATICCALL => 0xfa | REVERT => 0xfd
  | INVALID => 0xfe | SELFDESTRUCT => 0xff
  end.

(** [Opcode::from(byte)]: the bytes the table does not name are [INVALID]. *)
Definition from (byte : Z) : t :=
  match byte with
  | 0x00 => STOP | 0x01 => ADD | 0x16 => AND | 0x17 => OR | 0x18 => XOR | 0x19 => NOT
  | 0x1a => BYTE | 0x1b => SHL | 0x1c => SHR | 0x1d => SAR | 0x02 => MUL | 0x03 => SUB
  | 0x04 => DIV | 0x05 => SDIV | 0x06 => MOD | 0x07 => SMOD | 0x08 => ADDMOD | 0x09 => MULMOD
  | 0x0a => EXP | 0x0b => SIGNEXTEND | 0x10 => LT | 0x11 => GT | 0x12 => SLT | 0x13 => SGT
  | 0x14 => EQ | 0x15 => ISZERO | 0x20 => KECCAK256 | 0x30 => ADDRESS | 0x31 => BALANCE
  | 0x32 => ORIGIN | 0x33 => CALLER | 0x34 => CALLVALUE | 0x35 => CALLDATALOAD
  | 0x36 => CALLDATASIZE | 0x37 => CALLDATACOPY | 0x38 => CODESIZE | 0x39 => CODECOPY
  | 0x3a => GASPRICE | 0x3b => EXTCODESIZE | 0x3c => EXTCODECOPY | 0x3d => RETURNDATASIZE
  | 0x3e => RETURNDATACOPY | 0x3f => EXTCODEHASH | 0x40 => BLOCKHASH | 0x41 => COINBASE
  | 0x42 => TIMESTAMP | 0x43 => NUMBER | 0x44 => PREVRANDAO | 0x45 => GASLIMIT | 0x46 => CHAINID
  | 0x47 => SELFBALANCE | 0x48 => BASEFEE | 0x49 => BLOBHASH | 0x4a => BLOBBASEFEE | 0x50 => POP
  | 0x56 => JUMP | 0x57 => JUMPI | 0x58 => PC | 0x5b => JUMPDEST | 0x5f => PUSH0 | 0x60 => PUSH1
  | 0x61 => PUSH2 | 0x62 => PUSH3 | 0x63 => PUSH4 | 0x64 => PUSH5 | 0x65 => PUSH6 | 0x66 => PUSH7
  | 0x67 => PUSH8 | 0x68 => PUSH9 | 0x69 => PUSH10 | 0x6a => PUSH11 | 0x6b => PUSH12
  | 0x6c => PUSH13 | 0x6d => PUSH14 | 0x6e => PUSH15 | 0x6f => PUSH16 | 0x70 => PUSH17
  | 0x71 => PUSH18 | 0x72 => PUSH19 | 0x73 => PUSH20 | 0x74 => PUSH21 | 0x75 => PUSH22
  | 0x76 => PUSH23 | 0x77 => PUSH24 | 0x78 => PUSH25 | 0x79 => PUSH26 | 0x7a => PUSH27
  | 0x7b => PUSH28 | 0x7c => PUSH29 | 0x7d => PUSH30 | 0x7e => PUSH31 | 0x7f => PUSH32
  | 0x80 => DUP1 | 0x81 => DUP2 | 0x82 => DUP3 | 0x83 => DUP4 | 0x84 => DUP5 | 0x85 => DUP6
  | 0x86 => DUP7 | 0x87 => DUP8 | 0x88 => DUP9 | 0x89 => DUP10 | 0x8a => DUP11 | 0x8b => DUP12
  | 0x8c => DUP13 | 0x8d => DUP14 | 0x8e => DUP15 | 0x8f => DUP16 | 0x90 => SWAP1 | 0x91 => SWAP2
  | 0x92 => SWAP3 | 0x93 => SWAP4 | 0x94 => SWAP5 | 0x95 => SWAP6 | 0x96 => SWAP7 | 0x97 => SWAP8
  | 0x98 => SWAP9 | 0x99 => SWAP10 | 0x9a => SWAP11 | 0x9b => SWAP12 | 0x9c => SWAP13
  | 0x9d => SWAP14 | 0x9e => SWAP15 | 0x9f => SWAP16 | 0xa0 => LOG0 | 0xa1 => LOG1 | 0xa2 => LOG2
  | 0xa3 => LOG3 | 0xa4 => LOG4 | 0x51 => MLOAD | 0x52 => MSTORE | 0x53 => MSTORE8
  | 0x54 => SLOAD | 0x55 => SSTORE | 0x59 => MSIZE | 0x5a => GAS | 0x5e => MCOPY | 0x5c => TLOAD
  | 0x5d => TSTORE | 0xf0 => CREATE | 0xf1 => CALL | 0xf2 => CALLCODE | 0xf3 => RETURN
  | 0xf5 => CREATE2 | 0xf4 => DELEGATECALL | 0xfa => STATICCALL | 0xfd => REVERT
  | 0xff => SELFDESTRUCT
  | _ => INVALID
  end.

Lemma from_to_u8 op : from (to_u8 op) = op.
Proof. by destruct op. Qed.

(** [(lo..=hi).contains(&op)]: the derived order is that of the discriminants. *)
Definition in_range (lo hi op : t) : bool :=
  (to_u8 lo <=? to_u8 op) && (to_u8 op <=? to_u8 hi).

End Opcode.

#[export] Instance Opcode_eq_dec : EqDecision Opcode.t.
Proof.
  refine (λ a b, cast_if (decide (Opcode.to_u8 a = Opcode.to_u8 b))); [|congruence].
  rewrite <- (Opcode.from_to_u8 a), <- (Opcode.from_to_u8 b); congruence.
Defined.

(** The loop of [get_valid_jump_destinations]; it advances [pc] every round, so
    [length code] rounds reach the end. *)
Fixpoint jump_destinations_loop (fuel : nat) (bytes : list Z) (pc : Z) (dests : gset Z)
    : Result (gset Z) :=
  match bytes !! Z.to_nat pc with
  | None => Ok dests
  | Some opcode_number =>
      match fuel with
      | O => NoFuel
      | S fuel =>
          let current_opcode := Opcode.from opcode_number in
          '(pc, dests) ←
            (if bool_decide (current_opcode = Opcode.JUMPDEST) then Ok (pc, {[pc]} ∪ dests)
             else if Opcode.in_range Opcode.PUSH1 Opcode.PUSH32 current_opcode then
               size_to_push ← internal (checked_sub 8 opcode_number (Opcode.to_u8 Opcode.PUSH1))
                                InternalError.ArithmeticOperationUnderflow;
               skip_length ← internal (checked_add 8 size_to_push 1)
                               InternalError.ArithmeticOperationOverflow;
               pc ← internal (checked_add 64 pc skip_length)
                      InternalError.ArithmeticOperationOverflow;
               Ok (pc, dests)
             else Ok (pc, dests));
          pc ← internal (checked_add 64 pc 1) InternalError.ArithmeticOperationOverflow;
          jump_destinations_loop fuel bytes pc dests
      end
  end.

Definition get_valid_jump_destinations (bytes : list Z) : Result (gset Z) :=
  jump_destinations_loop (length bytes) bytes 0 ∅.

(** [get_valid_jump_destinations(..).unwrap_or_default()]. *)
Definition jump_destinations_of (bytes : list Z) : gset Z :=
  match get_valid_jump_destinations bytes with Ok d => d | _ => ∅ end.

(** [CallFrame::new]. *)
Definition new_call_frame (msg_sender to code_address : Z) (bytecode : list Z) (msg_value : Z)
    (calldata : list Z) (is_static : bool) (gas_limit gas_used depth : Z)
    (create_op_called : bool) : CallFrame :=
  {| gas_limit := gas_limit; gas_used := gas_used; pc := 0; msg_sender := msg_sender; to := to;
     code_address := code_address; code := bytecode; msg_value := msg_value; stack := [];
     memory := []; calldata := calldata; output := []; sub_return_data := [];
     is_static := is_static; logs := []; depth := depth;
     valid_jump_destinations := jump_destinations_of bytecode;
     create_op_called := create_op_called |}.

(** [CallFrame::new_from_bytecode]. *)
Definition new_from_bytecode (bytecode : list Z) : CallFrame :=
  new_call_frame 0 0 0 bytecode 0 [] false (2 ^ 64 - 1) 0 0 false.

(** [CallFrame::assign_bytecode]. *)
Definition assign_bytecode (bytecode : list Z) : M unit :=
  upd_frame (set_code_of bytecode (jump_destinations_of bytecode)).

(** [CallFrame::next_opcode]: past the end of the code the opcode is STOP. *)
Definition next_opcode (f : CallFrame) : Opcode.t :=
  match code f !! Z.to_nat (pc f) with
  | Some byte => Opcode.from byte
  | None => Opcode.STOP
  end.

(** [get_n_value] and [get_number_of_topics]. *)
Definition get_n_value (op base_opcode : Opcode.t) : Result Z :=
  n ← ok_or (checked_sub 64 (Opcode.to_u8 op) (Opcode.to_u8 base_opcode)) InvalidOpcode;
  ok_or (checked_add 64 n 1) InvalidOpcode.
Definition get_number_of_topics (op : Opcode.t) : Result Z :=
  ok_or (checked_sub 8 (Opcode.to_u8 op) (Opcode.to_u8 Opcode.LOG0)) InvalidOpcode.
