(* ===== verification/LevmHost.v ===== *)
(** * LEVM: gas accounting, accounts and substate (crates/vm/levm/src/vm.rs)

    The methods of [VM] that the opcode handlers share: the gas meter, the
    account cache in front of the database, the warm sets, the addresses of
    created contracts, and the snapshot that a failed context is rolled back
    to.  The cryptographic crates are the class [Crypto]. *)

From stdpp Require Import base option list numbers gmap.
From S2P Require Import Prelude Rlp LevmState.

Local Open Scope Z_scope.

(** The cryptographic crates: Keccak-256, SHA-256, RIPEMD-160 and the recovery
    interface of libsecp256k1. *)
Class Crypto := {
  keccak : list Z → list Z;
  sha256_digest : list Z → list Z;
  ripemd160_digest : list Z → list Z;
  Message : Type;
  Signature : Type;
  RecoveryId : Type;
  parse_message : list Z → option Message;
  parse_rpc : Z → option RecoveryId;
  parse_standard_slice : list Z → option Signature;
  recover : Message → Signature → RecoveryId → option (list Z);
}.

(** The digest sizes and byte range the crates document. *)
Class CryptoLaws `(Crypto) := {
  keccak_length d : length (keccak d) = 32%nat;
  keccak_bytes d : bytes (keccak d);
  sha256_bytes d : bytes (sha256_digest d);
  ripemd160_bytes d : bytes (ripemd160_digest d);
}.

(** [VM::increase_consumed_gas]. *)
Definition increase_consumed_gas (gas : Z) : M unit :=
  used ← frame gas_used;
  potential_consumed_gas ← lift (oog (checked_add 64 used gas) OutOfGasError.ConsumedGasOverflow);
  limit ← frame gas_limit;
  if limit <? potential_consumed_gas then throw (OutOfGas OutOfGasError.MaxGasLimitExceeded)
  else upd_frame (set_gas_used potential_consumed_gas).

Definition is_create (vm : VM) : bool :=
  match tx_kind vm with Create => true | Call _ => false end.

(** ** Accounts *)

(** [get_account]: the cache first, then the database, whose answer is cached. *)
Definition get_account (address : Z) : ST VM Account :=
  vm ← gets id;
  match cache vm !! address with
  | Some acc => mret acc
  | None =>
      let account := {| info := get_account_info (db vm) address; storage := ∅ |} in
      _ ← modify (set_cache (<[address := account]> (cache vm)));
      mret account
  end.

(** [VM::get_account_mut]: the reference it returns is written back with
    [put_account]. *)
Definition get_account_mut (address : Z) : ST VM Account :=
  vm ← gets id;
  _ ← (match cache vm !! address with
       | Some _ => mret tt
       | None =>
           let account := {| info := get_account_info (db vm) address; storage := ∅ |} in
           modify (set_cache (<[address := account]> (cache vm)))
       end);
  vm ← gets id;
  lift (internal (cache vm !! address) InternalError.AccountNotFound).

Definition put_account (address : Z) (account : Account) : ST VM unit :=
  modify (λ vm, set_cache (<[address := account]> (cache vm)) vm).

Definition remove_account (address : Z) : ST VM unit :=
  modify (λ vm, set_cache (delete address (cache vm)) vm).

Definition increase_account_balance (address increase : Z) : ST VM unit :=
  account ← get_account_mut address;
  b ← lift (ok_or (checked_add 256 (balance (info account)) increase) BalanceOverflow);
  put_account address (set_info (set_balance b) account).

Definition decrease_account_balance (address decrease : Z) : ST VM unit :=
  account ← get_account_mut address;
  b ← lift (ok_or (checked_sub 256 (balance (info account)) decrease) BalanceUnderflow);
  put_account address (set_info (set_balance b) account).

Definition increment_account_nonce (address : Z) : ST VM Z :=
  account ← get_account_mut address;
  n ← lift (ok_or (checked_add 64 (nonce (info account)) 1) NonceOverflow);
  _ ← put_account address (set_info (set_nonce n) account);
  mret n.

Definition decrement_account_nonce (address : Z) : ST VM unit :=
  account ← get_account_mut address;
  n ← lift (ok_or (checked_sub 64 (nonce (info account)) 1) NonceUnderflow);
  put_account address (set_info (set_nonce n) account).

Definition update_account_bytecode (address : Z) (new_bytecode : list Z) : ST VM unit :=
  account ← get_account_mut address;
  put_account address (set_info (set_code new_bytecode) account).

Definition update_account_storage (address key new_value : Z) : ST VM unit :=
  account ← get_account_mut address;
  let original := match storage account !! key with
                  | Some slot => original_value slot | None => 0 end in
  put_account address
    (set_storage (λ st, <[key := {| original_value := original;
                                    current_value := new_value |}]> st) account).

(** [VM::access_account]: [true] when the address was cold. *)
Definition access_account (address : Z) : ST VM (AccountInfo * bool) :=
  vm ← gets id;
  let touched := touched_accounts (accrued_substate vm) in
  let address_was_cold := negb (bool_decide (address ∈ touched)) in
  _ ← modify (set_substate (set_touched_accounts ({[address]} ∪ touched) (accrued_substate vm)));
  let account := match cache vm !! address with
                 | Some account => info account
                 | None => get_account_info (db vm) address
                 end in
  mret (account, address_was_cold).

(** The slot as the cache or the database has it. *)
Definition lookup_slot (vm : VM) (address key : Z) : StorageSlot :=
  let from_db := let value := get_storage_slot (db vm) address key in
                 {| original_value := value; current_value := value |} in
  match cache vm !! address with
  | Some account => match storage account !! key with Some slot => slot | None => from_db end
  | None => from_db
  end.

(** [VM::access_storage_slot]. *)
Definition access_storage_slot (address key : Z) : ST VM (StorageSlot * bool) :=
  vm ← gets id;
  let slots := default ∅ (touched_storage_slots (accrued_substate vm) !! address) in
  let storage_slot_was_cold := negb (bool_decide (key ∈ slots)) in
  _ ← modify (set_substate
                (set_touched_slots
                   (<[address := {[key]} ∪ slots]> (touched_storage_slots (accrued_substate vm)))
                   (accrued_substate vm)));
  let storage_slot := lookup_slot vm address key in
  account ← get_account_mut address;
  _ ← put_account address (set_storage (λ st, <[key := storage_slot]> st) account);
  mret (storage_slot, storage_slot_was_cold).

(** ** Snapshots *)

(** The backup [execute] takes on entry. *)
Record Backup := {
  backup_cache : CacheDB;
  backup_substate : Substate;
  backup_refunded_gas : Z;
  backup_transient_storage : gmap (Z * Z) Z;
}.

Definition take_backup (vm : VM) : Backup := {|
  backup_cache := cache vm;
  backup_substate := accrued_substate vm;
  backup_refunded_gas := refunded_gas (env vm);
  backup_transient_storage := transient_storage (env vm);
|}.

Definition restore_state (b : Backup) (vm : VM) : VM :=
  set_env (set_transient_storage (backup_transient_storage b)
             (set_refunded_gas (backup_refunded_gas b) (env vm)))
    (set_substate (backup_substate b) (set_cache (backup_cache b) vm)).

(** ** Hash-dependent operations *)

Section Hashes.
Context `{Crypto}.

Definition EMPTY_CODE_HASH : Z :=
  0xc5d2460186f7233c927e7db2dcc703c0e500b653ca82273b7bfad8045d85a470.

Definition bytecode_hash (i : AccountInfo) : Z := be_decode (keccak (bytecode i)).

Definition has_code (i : AccountInfo) : bool :=
  negb (match bytecode i with [] => true | _ => false end
        || (bytecode_hash i =? EMPTY_CODE_HASH)).

Definition has_code_or_nonce (a : Account) : bool := has_code (info a) || has_nonce (info a).

(** [&hash[12..]], when there are that many bytes, as an address. *)
Definition address_of_hash (hash : list Z) (e : InternalError.t) : Result Z :=
  if len hash <? 12 then Err (Internal e) else Ok (be_decode (drop 12 hash)).

(** [VM::calculate_create_address]: Keccak of the RLP list of the sender and
    its nonce. *)
Definition calculate_create_address (sender_address sender_nonce : Z) : Result Z :=
  let encoded := encode ((be_encode 20 sender_address : ByteArray 20), (sender_nonce : u64)) in
  address_of_hash (keccak encoded) InternalError.CouldNotComputeCreateAddress.

(** [VM::calculate_create2_address]. *)
Definition calculate_create2_address (sender_address : Z) (initialization_code : list Z)
    (salt : Z) : Result Z :=
  let init_code_hash := keccak initialization_code in
  address_of_hash
    (keccak ([0xff] ++ be_encode 20 sender_address ++ be_encode 32 salt ++ init_code_hash))
    InternalError.CouldNotComputeCreate2Address.

End Hashes.
