(* ===== verification/LevmArith.v ===== *)
(** * LEVM: arithmetic, comparison and bitwise handlers

    opcode_handlers/arithmetic.rs and opcode_handlers/bitwise_comparison.rs.
    A word is a [Z] in [0, 2^256); the operations of the [U256] type that the
    handlers use are written out first. *)

From stdpp Require Import base option list numbers.
From S2P Require Import Prelude LevmState LevmGas LevmHost.

Local Open Scope Z_scope.

(** ** [U256] *)

Definition U256_MAX : Z := 2 ^ 256 - 1.
Definition u256_not (x : Z) : Z := U256_MAX - x.
Definition u256_byte (x index : Z) : Z := Z.land (Z.shiftr x (8 * index)) 255.
Definition overflowing_add (a b : Z) : Z := wrap 256 (a + b).
Definition overflowing_sub (a b : Z) : Z := wrap 256 (a - b).
Definition overflowing_mul (a b : Z) : Z := wrap 256 (a * b).

(** [U256::overflowing_pow] by repeated squaring. *)
Fixpoint pow_pos (base : Z) (exponent : positive) : Z :=
  match exponent with
  | xH => wrap 256 base
  | xO e => let h := pow_pos base e in overflowing_mul h h
  | xI e => let h := pow_pos base e in overflowing_mul base (overflowing_mul h h)
  end.
Definition overflowing_pow (base exponent : Z) : Z :=
  match exponent with
  | Zpos e => pow_pos base e
  | _ => 1
  end.

Definition is_negative (value : Z) : bool := Z.testbit value 255.
Definition negate (value : Z) : Z := overflowing_add (u256_not value) 1.
Definition abs (value : Z) : Z := if is_negative value then negate value else value.
Definition u256_from_bool (value : bool) : Z := if value then 1 else 0.

(** ** Shifts by repeated doubling and halving *)

Fixpoint shift_left_loop (shifts_left : nat) (result : Z) : Result Z :=
  match shifts_left with
  | O => Ok result
  | S shifts_left =>
      result ←
        match checked_mul 256 result 2 with
        | Some num => Ok num
        | None =>
            only_most_representative_bit_on ←
              internal (checked_pow 256 2 255) InternalError.ArithmeticOperationOverflow;
            partial_result ← internal (checked_sub 256 result only_most_representative_bit_on)
                               InternalError.ArithmeticOperationUnderflow;
            internal (checked_mul 256 partial_result 2) InternalError.ArithmeticOperationOverflow
        end;
      shift_left_loop shifts_left result
  end.
Definition checked_shift_left (value shift : Z) : Result Z :=
  shift_left_loop (Z.to_nat shift) value.

Fixpoint shift_right_loop (shifts_left : nat) (result : Z) : Result Z :=
  match shifts_left with
  | O => Ok result
  | S shifts_left =>
      result ← internal (checked_div result 2) InternalError.ArithmeticOperationDividedByZero;
      shift_right_loop shifts_left result
  end.
Definition checked_shift_right (value shift : Z) : Result Z :=
  shift_right_loop (Z.to_nat shift) value.

Definition arithmetic_shift_right (value shift : Z) : Result Z :=
  if is_negative value then
    shifted ← checked_shift_right value shift;
    n ← internal (checked_sub 256 256 shift) InternalError.ArithmeticOperationUnderflow;
    mask ← checked_shift_left U256_MAX n;
    Ok (Z.lor shifted mask)
  else checked_shift_right value shift.

(** Push a result and go on. *)
Definition push_continue (value : Z) : M OpcodeSuccess :=
  _ ← push value; mret Continue.

(** ** arithmetic.rs *)

Definition op_add : M OpcodeSuccess :=
  _ ← increase_consumed_gas Gas.ADD;
  augend ← pop;
  addend ← pop;
  push_continue (overflowing_add augend addend).

Definition op_sub : M OpcodeSuccess :=
  _ ← increase_consumed_gas Gas.SUB;
  minuend ← pop;
  subtrahend ← pop;
  push_continue (overflowing_sub minuend subtrahend).

Definition op_mul : M OpcodeSuccess :=
  _ ← increase_consumed_gas Gas.MUL;
  multiplicand ← pop;
  multiplier ← pop;
  push_continue (overflowing_mul multiplicand multiplier).

Definition op_div : M OpcodeSuccess :=
  _ ← increase_consumed_gas Gas.DIV;
  dividend ← pop;
  divisor ← pop;
  match checked_div dividend divisor with
  | None => push_continue 0
  | Some quotient => push_continue quotient
  end.

Definition op_sdiv : M OpcodeSuccess :=
  _ ← increase_consumed_gas Gas.SDIV;
  dividend ← pop;
  divisor ← pop;
  if (divisor =? 0) || (dividend =? 0) then push_continue 0
  else
    let abs_dividend := abs dividend in
    let abs_divisor := abs divisor in
    let quotient :=
      match checked_div abs_dividend abs_divisor with
      | Some quot =>
          if xorb (is_negative dividend) (is_negative divisor) then negate quot else quot
      | None => 0
      end in
    push_continue quotient.

Definition op_mod : M OpcodeSuccess :=
  _ ← increase_consumed_gas Gas.MOD;
  dividend ← pop;
  divisor ← pop;
  push_continue (default 0 (checked_rem dividend divisor)).

Definition op_smod : M OpcodeSuccess :=
  _ ← increase_consumed_gas Gas.SMOD;
  unchecked_dividend ← pop;
  unchecked_divisor ← pop;
  if (unchecked_divisor =? 0) || (unchecked_dividend =? 0) then push_continue 0
  else
    let divisor := abs unchecked_divisor in
    let dividend := abs unchecked_dividend in
    match checked_rem dividend divisor with
    | None => push_continue 0
    | Some unchecked_remainder =>
        push_continue (if is_negative unchecked_dividend then negate unchecked_remainder
                       else unchecked_remainder)
    end.

Definition op_addmod : M OpcodeSuccess :=
  _ ← increase_consumed_gas Gas.ADDMOD;
  augend ← pop;
  addend ← pop;
  modulus ← pop;
  if modulus =? 0 then push_continue 0
  else
    sum ← lift (internal (checked_add 512 augend addend)
                  InternalError.ArithmeticOperationOverflow);
    rem ← lift (internal (checked_rem sum modulus) InternalError.ArithmeticOperationOverflow);
    sum_mod ← lift (internal (try_into 256 rem) InternalError.ArithmeticOperationOverflow);
    push_continue sum_mod.

Definition op_mulmod : M OpcodeSuccess :=
  _ ← increase_consumed_gas Gas.MULMOD;
  multiplicand ← pop;
  multiplier ← pop;
  modulus ← pop;
  if (modulus =? 0) || (multiplicand =? 0) || (multiplier =? 0) then push_continue 0
  else
    product ← lift (internal (checked_mul 512 multiplicand multiplier)
                      InternalError.ArithmeticOperationOverflow);
    rem ← lift (internal (checked_rem product modulus)
                  InternalError.ArithmeticOperationOverflow);
    product_mod ← lift (internal (try_into 256 rem) InternalError.ArithmeticOperationOverflow);
    push_continue product_mod.

Definition op_exp : M OpcodeSuccess :=
  base ← pop;
  exponent ← pop;
  gas_cost ← lift (Gas.exp exponent);
  _ ← increase_consumed_gas gas_cost;
  push_continue (overflowing_pow base exponent).

(** The word that SIGNEXTEND leaves for a byte size below 32. *)
Definition signextend (byte_size_minus_one value_to_extend : Z) : Result Z :=
  sign_bit_index ← internal (total_bits ← checked_mul 256 8 byte_size_minus_one;
                             checked_add 256 total_bits 7)
                     InternalError.ArithmeticOperationOverflow;
  shifted_value ← checked_shift_right value_to_extend sign_bit_index;
  let sign_bit := Z.land shifted_value 1 in
  power ← checked_shift_left 1 sign_bit_index;
  sign_bit_mask ← internal (checked_sub 256 power 1) InternalError.ArithmeticOperationUnderflow;
  Ok (if sign_bit =? 0 then Z.land value_to_extend sign_bit_mask
      else Z.lor value_to_extend (u256_not sign_bit_mask)).

Definition op_signextend : M OpcodeSuccess :=
  _ ← increase_consumed_gas Gas.SIGNEXTEND;
  byte_size_minus_one ← pop;
  value_to_extend ← pop;
  if 31 <? byte_size_minus_one then push_continue value_to_extend
  else
    result ← lift (signextend byte_size_minus_one value_to_extend);
    push_continue result.

(** ** bitwise_comparison.rs *)

Definition op_lt : M OpcodeSuccess :=
  _ ← increase_consumed_gas Gas.LT;
  lho ← pop;
  rho ← pop;
  push_continue (u256_from_bool (lho <? rho)).

Definition op_gt : M OpcodeSuccess :=
  _ ← increase_consumed_gas Gas.GT;
  lho ← pop;
  rho ← pop;
  push_continue (u256_from_bool (rho <? lho)).

Definition op_slt : M OpcodeSuccess :=
  _ ← increase_consumed_gas Gas.SLT;
  lho ← pop;
  rho ← pop;
  let lho_is_negative := is_negative lho in
  let rho_is_negative := is_negative rho in
  push_continue (if Bool.eqb lho_is_negative rho_is_negative then u256_from_bool (lho <? rho)
                 else u256_from_bool lho_is_negative).

Definition op_sgt : M OpcodeSuccess :=
  _ ← increase_consumed_gas Gas.SGT;
  lho ← pop;
  rho ← pop;
  let lho_is_negative := is_negative lho in
  let rho_is_negative := is_negative rho in
  push_continue (if Bool.eqb lho_is_negative rho_is_negative then u256_from_bool (rho <? lho)
                 else u256_from_bool rho_is_negative).

Definition op_eq : M OpcodeSuccess :=
  _ ← increase_consumed_gas Gas.EQ;
  lho ← pop;
  rho ← pop;
  push_continue (u256_from_bool (lho =? rho)).

Definition op_iszero : M OpcodeSuccess :=
  _ ← increase_consumed_gas Gas.ISZERO;
  operand ← pop;
  push_continue (u256_from_bool (operand =? 0)).

Definition op_and : M OpcodeSuccess :=
  _ ← increase_consumed_gas Gas.AND;
  a ← pop;
  b ← pop;
  push_continue (Z.land a b).

Definition op_or : M OpcodeSuccess :=
  _ ← increase_consumed_gas Gas.OR;
  a ← pop;
  b ← pop;
  push_continue (Z.lor a b).

Definition op_xor : M OpcodeSuccess :=
  _ ← increase_consumed_gas Gas.XOR;
  a ← pop;
  b ← pop;
  push_continue (Z.lxor a b).

Definition op_not : M OpcodeSuccess :=
  _ ← increase_consumed_gas Gas.NOT;
  a ← pop;
  push_continue (u256_not a).

Definition op_byte : M OpcodeSuccess :=
  _ ← increase_consumed_gas Gas.BYTE;
  op1 ← pop;
  op2 ← pop;
  match try_into 64 op1 with
  | None => push_continue 0
  | Some byte_index =>
      if byte_index <? Gas.WORD_SIZE then
        rest ← lift (internal (checked_sub 64 Gas.WORD_SIZE byte_index)
                       InternalError.ArithmeticOperationUnderflow);
        byte_to_push ← lift (internal (checked_sub 64 rest 1)
                               InternalError.ArithmeticOperationUnderflow);
        push_continue (u256_byte op2 byte_to_push)
      else push_continue 0
  end.

Definition op_shl : M OpcodeSuccess :=
  _ ← increase_consumed_gas Gas.SHL;
  shift ← pop;
  value ← pop;
  if shift <? 256 then
    result ← lift (checked_shift_left value shift);
    push_continue result
  else push_continue 0.

Definition op_shr : M OpcodeSuccess :=
  _ ← increase_consumed_gas Gas.SHR;
  shift ← pop;
  value ← pop;
  if shift <? 256 then
    result ← lift (checked_shift_right value shift);
    push_continue result
  else push_continue 0.

Definition op_sar : M OpcodeSuccess :=
  _ ← increase_consumed_gas Gas.SAR;
  shift ← pop;
  value ← pop;
  res ← lift (if shift <? 256 then arithmetic_shift_right value shift
              else Ok (if is_negative value then U256_MAX else 0));
  push_continue res.
