(* ===== verification/LevmHandlers.v ===== *)
(** * LEVM: stack, memory, storage, flow, block and environment handlers

    opcode_handlers/{stack_memory_storage_flow, push, dup, exchange, logging,
    keccak, block, environment}.rs.  Each handler charges gas, pops, checks and
    writes in the order of the code, so that a failure leaves the state the
    code leaves. *)

From stdpp Require Import base option list numbers gmap.
From S2P Require Import Prelude LevmState LevmMemory LevmGas LevmOpcodes LevmHost LevmArith.

Local Open Scope Z_scope.

(** [stack.pop()?.try_into().map_err(|_| VeryLargeNumber)?] into a [usize]. *)
Definition pop_usize : M Z :=
  x ← pop;
  lift (ok_or (try_into 64 x) VeryLargeNumber).

(** [vec![0u8; size]]: allocating more than [isize::MAX] bytes panics. *)
Definition zero_vec (size : Z) : Result (list Z) :=
  if 2 ^ 63 - 1 <? size then Panic else Ok (replicate (Z.to_nat size) 0).

(** Write the bytes of an iterator over the start of a buffer. *)
Definition fill (data src : list Z) : list Z :=
  take (length data) src ++ drop (length src) data.

(** The bytes [src.skip(offset).take(size)]. *)
Definition skip_take (offset size : Z) (src : list Z) : list Z :=
  take (Z.to_nat size) (drop (Z.to_nat offset) src).

(** ** push.rs, dup.rs, exchange.rs *)

Definition read_bytcode_slice (f : CallFrame) (n_bytes : Z) : Result (list Z) :=
  pc_offset ← internal (checked_add 64 (pc f) 1) InternalError.ArithmeticOperationOverflow;
  Ok (take (Z.to_nat n_bytes) (drop (Z.to_nat pc_offset) (code f))).

(** The bytes are placed from index [32 - n_bytes]; missing ones stay zero. *)
Definition bytes_to_word (read_n_bytes : list Z) (n_bytes : Z) : Result (list Z) :=
  start_index ← internal (checked_sub 64 Gas.WORD_SIZE n_bytes)
                  InternalError.ArithmeticOperationUnderflow;
  let room := Z.to_nat (Gas.WORD_SIZE - start_index) in
  Ok (replicate (Z.to_nat start_index) 0 ++ fill (replicate room 0) read_n_bytes).

Definition op_push (n_bytes : Z) : M OpcodeSuccess :=
  _ ← increase_consumed_gas Gas.PUSHN;
  f ← frame id;
  read_n_bytes ← lift (read_bytcode_slice f n_bytes);
  value_to_push ← lift (bytes_to_word read_n_bytes n_bytes);
  _ ← push (be_decode value_to_push);
  _ ← increment_pc_by n_bytes;
  mret Continue.

Definition op_push0 : M OpcodeSuccess :=
  _ ← increase_consumed_gas Gas.PUSH0;
  push_continue 0.

Definition op_dup (depth : Z) : M OpcodeSuccess :=
  _ ← increase_consumed_gas Gas.DUPN;
  s ← frame stack;
  if len s <? depth then throw StackUnderflow
  else
    index ← lift (ok_or (checked_sub 64 (len s) depth) StackUnderflow);
    value_at_depth ← lift (stack_get s index);
    push_continue value_at_depth.

Definition swap_at (s : list Z) (depth : Z) : Result (list Z) :=
  stack_top_index ← ok_or (checked_sub 64 (len s) 1) StackUnderflow;
  if len s <? depth then Err StackUnderflow
  else
    to_swap_index ← ok_or (checked_sub 64 stack_top_index depth) StackUnderflow;
    stack_swap s stack_top_index to_swap_index.

Definition op_swap (depth : Z) : M OpcodeSuccess :=
  _ ← increase_consumed_gas Gas.SWAPN;
  s ← frame stack;
  s ← lift (swap_at s depth);
  _ ← upd_frame (set_stack s);
  mret Continue.

(** ** stack_memory_storage_flow.rs *)

Definition op_pop : M OpcodeSuccess :=
  _ ← increase_consumed_gas Gas.POP;
  _ ← pop;
  mret Continue.

Definition op_tload : M OpcodeSuccess :=
  _ ← increase_consumed_gas Gas.TLOAD;
  key ← pop;
  sender ← frame msg_sender;
  ts ← machine (λ vm, transient_storage (env vm));
  push_continue (default 0 (ts !! (sender, key))).

Definition op_tstore : M OpcodeSuccess :=
  _ ← increase_consumed_gas Gas.TSTORE;
  static ← frame is_static;
  if static : bool then throw OpcodeNotAllowedInStaticContext
  else
    key ← pop;
    value ← pop;
    sender ← frame msg_sender;
    _ ← upd_vm (λ vm, set_env (set_transient_storage
                  (<[(sender, key) := value]> (transient_storage (env vm))) (env vm)) vm);
    mret Continue.

Definition op_mload : M OpcodeSuccess :=
  offset ← pop;
  new_memory_size ← lift (calculate_memory_size offset WORD_SIZE_IN_BYTES_USIZE);
  mem ← frame memory;
  gas_cost ← lift (Gas.mload new_memory_size (len mem));
  _ ← increase_consumed_gas gas_cost;
  word ← on_memory (load_word offset);
  push_continue word.

Definition op_mstore : M OpcodeSuccess :=
  offset ← pop;
  new_memory_size ← lift (calculate_memory_size offset WORD_SIZE_IN_BYTES_USIZE);
  mem ← frame memory;
  gas_cost ← lift (Gas.mstore new_memory_size (len mem));
  _ ← increase_consumed_gas gas_cost;
  value ← pop;
  _ ← on_memory (try_store_data offset (be_encode 32 value));
  mret Continue.

Definition op_mstore8 : M OpcodeSuccess :=
  offset ← pop;
  new_memory_size ← lift (calculate_memory_size offset 1);
  mem ← frame memory;
  gas_cost ← lift (Gas.mstore8 new_memory_size (len mem));
  _ ← increase_consumed_gas gas_cost;
  value ← pop;
  _ ← on_memory (try_store_data offset (drop 31 (be_encode 32 value)));
  mret Continue.

Definition op_sload : M OpcodeSuccess :=
  storage_slot_key ← pop;
  address ← frame to;
  '(storage_slot, storage_slot_was_cold) ← on_vm (access_storage_slot address storage_slot_key);
  gas_cost ← lift (Gas.sload storage_slot_was_cold);
  _ ← increase_consumed_gas gas_cost;
  push_continue (current_value storage_slot).

(** The refund counter after writing [new_value] over [slot]. *)
Definition sstore_refund (gas_refunds : Z) (slot : StorageSlot) (new_value : Z) : Result Z :=
  if negb (new_value =? current_value slot) then
    if current_value slot =? original_value slot then
      if negb (original_value slot =? 0) && (new_value =? 0) then
        ok_or (checked_add 64 gas_refunds 4800) GasRefundsOverflow
      else Ok gas_refunds
    else if negb (original_value slot =? 0) then
      if current_value slot =? 0 then
        ok_or (checked_sub 64 gas_refunds 4800) GasRefundsUnderflow
      else if new_value =? 0 then
        ok_or (checked_add 64 gas_refunds 4800) GasRefundsOverflow
      else Ok gas_refunds
    else if new_value =? original_value slot then
      if original_value slot =? 0 then
        ok_or (checked_add 64 gas_refunds 19900) GasRefundsOverflow
      else ok_or (checked_add 64 gas_refunds 2800) GasRefundsOverflow
    else Ok gas_refunds
  else Ok gas_refunds.

Definition op_sstore : M OpcodeSuccess :=
  static ← frame is_static;
  if static : bool then throw OpcodeNotAllowedInStaticContext
  else
    key ← pop;
    new_storage_slot_value ← pop;
    address ← frame to;
    '(storage_slot, storage_slot_was_cold) ← on_vm (access_storage_slot address key);
    f ← frame id;
    gas_cost ← lift (Gas.sstore storage_slot new_storage_slot_value storage_slot_was_cold f);
    _ ← increase_consumed_gas gas_cost;
    gas_refunds ← machine (λ vm, refunded_gas (env vm));
    gas_refunds ← lift (sstore_refund gas_refunds storage_slot new_storage_slot_value);
    _ ← upd_vm (λ vm, set_env (set_refunded_gas gas_refunds (env vm)) vm);
    _ ← on_vm (update_account_storage address key new_storage_slot_value);
    mret Continue.

Definition op_msize : M OpcodeSuccess :=
  _ ← increase_consumed_gas Gas.MSIZE;
  mem ← frame memory;
  push_continue (len mem).

Definition op_gas : M OpcodeSuccess :=
  _ ← increase_consumed_gas Gas.GAS;
  f ← frame id;
  remaining_gas ← lift (oog (checked_sub 64 (gas_limit f) (gas_used f))
                          OutOfGasError.ConsumedGasOverflow);
  push_continue remaining_gas.

Definition op_mcopy : M OpcodeSuccess :=
  dest_offset ← pop;
  src_offset ← pop;
  size ← pop_usize;
  new_memory_size_for_dest ← lift (calculate_memory_size dest_offset size);
  new_memory_size_for_src ← lift (calculate_memory_size src_offset size);
  mem ← frame memory;
  gas_cost ← lift (Gas.mcopy (Z.max new_memory_size_for_dest new_memory_size_for_src)
                     (len mem) size);
  _ ← increase_consumed_gas gas_cost;
  _ ← on_memory (try_copy_within src_offset dest_offset size);
  mret Continue.

Definition is_valid_jump_addr (f : CallFrame) (jump_address : Z) : bool :=
  bool_decide (jump_address ∈ valid_jump_destinations f).

Definition jump (jump_address : Z) : M unit :=
  jump_address_usize ← lift (ok_or (try_into 64 jump_address) VeryLargeNumber);
  f ← frame id;
  if is_valid_jump_addr f jump_address_usize then upd_frame (set_pc jump_address_usize)
  else throw InvalidJump.

Definition op_jump : M OpcodeSuccess :=
  _ ← increase_consumed_gas Gas.JUMP;
  jump_address ← pop;
  _ ← jump jump_address;
  mret Continue.

Definition op_jumpi : M OpcodeSuccess :=
  jump_address ← pop;
  condition ← pop;
  _ ← increase_consumed_gas Gas.JUMPI;
  _ ← (if negb (condition =? 0) then jump jump_address else increment_pc);
  mret Continue.

Definition op_jumpdest : M OpcodeSuccess :=
  _ ← increase_consumed_gas Gas.JUMPDEST;
  mret Continue.

Definition op_pc : M OpcodeSuccess :=
  _ ← increase_consumed_gas Gas.PC;
  p ← frame pc;
  push_continue p.

(** ** logging.rs, keccak.rs *)

Fixpoint pop_topics (number_of_topics : nat) : M (list Z) :=
  match number_of_topics with
  | O => mret []
  | S n => topic ← pop; rest ← pop_topics n; mret (topic :: rest)
  end.

Definition op_log (number_of_topics : Z) : M OpcodeSuccess :=
  static ← frame is_static;
  if static : bool then throw OpcodeNotAllowedInStaticContext
  else
    offset ← pop;
    size ← pop_usize;
    topics ← pop_topics (Z.to_nat number_of_topics);
    new_memory_size ← lift (calculate_memory_size offset size);
    mem ← frame memory;
    gas_cost ← lift (Gas.log new_memory_size (len mem) size number_of_topics);
    _ ← increase_consumed_gas gas_cost;
    address ← frame to;
    data ← on_memory (load_range offset size);
    let log := {| log_address := address; topics := topics; log_data := data |} in
    _ ← upd_frame (λ f, set_logs (logs f ++ [log]) f);
    mret Continue.

Definition op_keccak256 `{Crypto} : M OpcodeSuccess :=
  offset ← pop;
  size ← pop_usize;
  new_memory_size ← lift (calculate_memory_size offset size);
  mem ← frame memory;
  gas_cost ← lift (Gas.keccak256 new_memory_size (len mem) size);
  _ ← increase_consumed_gas gas_cost;
  data ← on_memory (load_range offset size);
  push_continue (be_decode (keccak data)).

(** ** block.rs *)

Definition LAST_AVAILABLE_BLOCK_LIMIT : Z := 256.
Definition MIN_BASE_FEE_PER_BLOB_GAS : Z := 1.
Definition BLOB_BASE_FEE_UPDATE_FRACTION : Z := 3338477.

(** A handler that charges [cost] and pushes a word read from the state. *)
Definition push_env (cost : Z) (f : St → Z) : M OpcodeSuccess :=
  _ ← increase_consumed_gas cost;
  value ← gets f;
  push_continue value.

Definition op_blockhash : M OpcodeSuccess :=
  _ ← increase_consumed_gas Gas.BLOCKHASH;
  number ← pop;
  vm ← machine id;
  if (number <? saturating_sub (block_number (env vm)) LAST_AVAILABLE_BLOCK_LIMIT)
     || (block_number (env vm) <=? number) then push_continue 0
  else
    number ← lift (ok_or (try_into 64 number) VeryLargeNumber);
    match get_block_hash (db vm) number with
    | Some block_hash => push_continue block_hash
    | None => push_continue 0
    end.

Definition op_coinbase : M OpcodeSuccess :=
  push_env Gas.COINBASE (λ s, address_to_word (coinbase (env s.1))).
Definition op_timestamp : M OpcodeSuccess :=
  push_env Gas.TIMESTAMP (λ s, timestamp (env s.1)).
Definition op_number : M OpcodeSuccess :=
  push_env Gas.NUMBER (λ s, block_number (env s.1)).
Definition op_prevrandao : M OpcodeSuccess :=
  push_env Gas.PREVRANDAO (λ s, default 0 (prev_randao (env s.1))).
Definition op_gaslimit : M OpcodeSuccess :=
  push_env Gas.GASLIMIT (λ s, block_gas_limit (env s.1)).
Definition op_chainid : M OpcodeSuccess :=
  push_env Gas.CHAINID (λ s, chain_id (env s.1)).
Definition op_basefee : M OpcodeSuccess :=
  push_env Gas.BASEFEE (λ s, base_fee_per_gas (env s.1)).

Definition op_selfbalance : M OpcodeSuccess :=
  _ ← increase_consumed_gas Gas.SELFBALANCE;
  address ← frame to;
  account ← on_vm (get_account address);
  push_continue (balance (info account)).

Definition op_blobhash : M OpcodeSuccess :=
  _ ← increase_consumed_gas Gas.BLOBHASH;
  index ← pop;
  blob_hashes ← machine (λ vm, tx_blob_hashes (env vm));
  if len blob_hashes <? index then push_continue 0
  else
    index ← lift (internal (try_into 64 index) InternalError.ConversionError);
    blob_hash ← lift (internal (blob_hashes !! Z.to_nat index) InternalError.BlobHashOutOfRange);
    push_continue blob_hash.

(** [fake_exponential] of block.rs, on [U256]. *)
Definition fake_exponential_u256 (factor numerator denominator : Z) : Result Z :=
  Gas.fake_exponential_w 256 InternalError.ArithmeticOperationDividedByZero
    factor numerator denominator.

Definition get_blob_gasprice (vm : VM) : Result Z :=
  excess ← internal (block_excess_blob_gas (env vm)) InternalError.ExcessBlobGasShouldNotBeNone;
  fake_exponential_u256 MIN_BASE_FEE_PER_BLOB_GAS excess BLOB_BASE_FEE_UPDATE_FRACTION.

Definition op_blobbasefee : M OpcodeSuccess :=
  _ ← increase_consumed_gas Gas.BLOBBASEFEE;
  vm ← machine id;
  blob_base_fee ← lift (get_blob_gasprice vm);
  push_continue blob_base_fee.

(** ** environment.rs *)

Definition op_address : M OpcodeSuccess := push_env Gas.ADDRESS (λ s, to s.2).
Definition op_origin : M OpcodeSuccess := push_env Gas.ORIGIN (λ s, origin (env s.1)).
Definition op_caller : M OpcodeSuccess := push_env Gas.CALLER (λ s, msg_sender s.2).
Definition op_callvalue : M OpcodeSuccess := push_env Gas.CALLVALUE (λ s, msg_value s.2).
Definition op_calldatasize : M OpcodeSuccess :=
  push_env Gas.CALLDATASIZE (λ s, len (calldata s.2)).
Definition op_codesize : M OpcodeSuccess := push_env Gas.CODESIZE (λ s, len (code s.2)).
Definition op_gasprice : M OpcodeSuccess := push_env Gas.GASPRICE (λ s, gas_price (env s.1)).
Definition op_returndatasize : M OpcodeSuccess :=
  push_env Gas.RETURNDATASIZE (λ s, len (sub_return_data s.2)).

Definition op_balance : M OpcodeSuccess :=
  word ← pop;
  '(account_info, address_was_cold) ← on_vm (access_account (word_to_address word));
  gas_cost ← lift (Gas.balance address_was_cold);
  _ ← increase_consumed_gas gas_cost;
  push_continue (balance account_info).

Definition op_calldataload : M OpcodeSuccess :=
  _ ← increase_consumed_gas Gas.CALLDATALOAD;
  data ← frame calldata;
  offset ← pop;
  if len data <? offset then push_continue 0
  else
    offset ← lift (internal (try_into 64 offset) InternalError.ConversionError);
    push_continue (be_decode (fill (replicate 32 0) (skip_take offset 32 data))).

Definition op_calldatacopy : M OpcodeSuccess :=
  dest_offset ← pop;
  calldata_offset ← pop;
  size ← pop_usize;
  new_memory_size ← lift (calculate_memory_size dest_offset size);
  mem ← frame memory;
  gas_cost ← lift (Gas.calldatacopy new_memory_size (len mem) size);
  _ ← increase_consumed_gas gas_cost;
  if size =? 0 then mret Continue
  else
    data ← lift (zero_vec size);
    input ← frame calldata;
    if len input <? calldata_offset then
      _ ← on_memory (try_store_data dest_offset data);
      mret Continue
    else
      calldata_offset ← lift (internal (try_into 64 calldata_offset)
                                InternalError.ConversionError);
      _ ← on_memory (try_store_data dest_offset
                       (fill data (skip_take calldata_offset size input)));
      mret Continue.

(** The tail CODECOPY and EXTCODECOPY share: copy [size] bytes of [src] from
    [offset], zeros past its end. *)
Definition copy_code (src : list Z) (dest_offset offset size : Z) : M OpcodeSuccess :=
  if size =? 0 then mret Continue
  else
    data ← lift (zero_vec size);
    data ← (if offset <? len src then
              offset ← lift (internal (try_into 64 offset) InternalError.ConversionError);
              mret (fill data (skip_take offset size src))
            else mret data);
    _ ← on_memory (try_store_data dest_offset data);
    mret Continue.

Definition op_codecopy : M OpcodeSuccess :=
  destination_offset ← pop;
  code_offset ← pop;
  size ← pop_usize;
  new_memory_size ← lift (calculate_memory_size destination_offset size);
  mem ← frame memory;
  gas_cost ← lift (Gas.codecopy new_memory_size (len mem) size);
  _ ← increase_consumed_gas gas_cost;
  bytes ← frame code;
  copy_code bytes destination_offset code_offset size.

Definition op_extcodesize : M OpcodeSuccess :=
  word ← pop;
  '(account_info, address_was_cold) ← on_vm (access_account (word_to_address word));
  gas_cost ← lift (Gas.extcodesize address_was_cold);
  _ ← increase_consumed_gas gas_cost;
  push_continue (len (bytecode account_info)).

Definition op_extcodecopy : M OpcodeSuccess :=
  word ← pop;
  dest_offset ← pop;
  offset ← pop;
  size ← pop_usize;
  '(account_info, address_was_cold) ← on_vm (access_account (word_to_address word));
  new_memory_size ← lift (calculate_memory_size dest_offset size);
  mem ← frame memory;
  gas_cost ← lift (Gas.extcodecopy size new_memory_size (len mem) address_was_cold);
  _ ← increase_consumed_gas gas_cost;
  copy_code (bytecode account_info) dest_offset offset size.

Definition op_returndatacopy : M OpcodeSuccess :=
  dest_offset ← pop;
  returndata_offset ← pop_usize;
  size ← pop_usize;
  new_memory_size ← lift (calculate_memory_size dest_offset size);
  mem ← frame memory;
  gas_cost ← lift (Gas.returndatacopy new_memory_size (len mem) size);
  _ ← increase_consumed_gas gas_cost;
  if (size =? 0) && (returndata_offset =? 0) then mret Continue
  else
    returned ← frame sub_return_data;
    copy_limit ← lift (ok_or (checked_add 64 returndata_offset size) VeryLargeNumber);
    if len returned <? copy_limit then throw OutOfBounds
    else
      data ← lift (zero_vec size);
      _ ← on_memory (try_store_data dest_offset
                       (fill data (skip_take returndata_offset size returned)));
      mret Continue.

Definition op_extcodehash `{Crypto} : M OpcodeSuccess :=
  word ← pop;
  '(account_info, address_was_cold) ← on_vm (access_account (word_to_address word));
  gas_cost ← lift (Gas.extcodehash address_was_cold);
  _ ← increase_consumed_gas gas_cost;
  if is_empty account_info then push_continue 0
  else push_continue (bytecode_hash account_info).
