(* ===== verification/LevmSystem.v ===== *)
(** * LEVM: precompiles and system handlers

    precompiles.rs and opcode_handlers/system.rs.  A handler that runs a
    sub-context takes the interpreter, [execute], as an argument: LevmVm ties
    the knot. *)

From stdpp Require Import base option list numbers gmap.
From S2P Require Import Prelude LevmState LevmMemory LevmGas LevmOpcodes LevmHost LevmArith.
From S2P Require Import LevmHandlers.

Local Open Scope Z_scope.

(** ** precompiles.rs *)

Module Precompile.
Section Precompiles.
Context `{Crypto}.

Definition ECRECOVER_ADDRESS : Z := 1.
Definition SHA2_256_ADDRESS : Z := 2.
Definition RIPEMD_160_ADDRESS : Z := 3.
Definition IDENTITY_ADDRESS : Z := 4.
Definition MODEXP_ADDRESS : Z := 5.
Definition ECADD_ADDRESS : Z := 6.
Definition ECMUL_ADDRESS : Z := 7.
Definition ECPAIRING_ADDRESS : Z := 8.
Definition BLAKE2F_ADDRESS : Z := 9.
Definition POINT_EVALUATION_ADDRESS : Z := 10.

Definition PRECOMPILES : list Z :=
  [ECRECOVER_ADDRESS; SHA2_256_ADDRESS; RIPEMD_160_ADDRESS; IDENTITY_ADDRESS; MODEXP_ADDRESS;
   ECADD_ADDRESS; ECMUL_ADDRESS; ECPAIRING_ADDRESS; BLAKE2F_ADDRESS; POINT_EVALUATION_ADDRESS].

Definition is_precompile (callee_address : Z) : bool :=
  bool_decide (callee_address ∈ PRECOMPILES).

(** The mutable state of a precompile is [consumed_gas]. *)
Notation P := (ST Z).

Definition increase_precompile_consumed_gas (gas_for_call gas_cost : Z) : P unit :=
  if gas_for_call <? gas_cost then throw (PrecompileErr PrecompileError.NotEnoughGas)
  else
    consumed_gas ← gets id;
    total ← lift (ok_or (checked_add 64 consumed_gas gas_cost)
                    (PrecompileErr PrecompileError.GasConsumedOverflow));
    modify (λ _, total).

Definition fill_with_zeros (slice : list Z) : list Z := fill (replicate 128 0) (take 128 slice).

Definition ecrecover (calldata : list Z) (gas_for_call : Z) : P (list Z) :=
  _ ← increase_precompile_consumed_gas gas_for_call Gas.ECRECOVER_COST;
  let calldata := fill_with_zeros calldata in
  message ← lift (ok_or (parse_message (slice 0 32 calldata))
                    (PrecompileErr PrecompileError.ParsingInputError));
  let v := be_decode (slice 32 64 calldata) in
  if negb ((v =? 27) || (v =? 28)) then mret []
  else
    v ← lift (internal (try_into 8 v) InternalError.ConversionError);
    match parse_rpc v with
    | None => mret []
    | Some recovery_id =>
        signature ← lift (ok_or (parse_standard_slice (slice 64 128 calldata))
                            (PrecompileErr PrecompileError.ParsingInputError));
        match recover message signature recovery_id with
        | None => mret []
        | Some public_key =>
            let hash := keccak (slice 1 65 public_key) in
            mret (replicate 12 0 ++ slice 12 32 hash)
        end
    end.

Definition sha2_256 (calldata : list Z) (gas_for_call : Z) : P (list Z) :=
  gas_cost ← lift (Gas.sha2_256 (len calldata));
  _ ← increase_precompile_consumed_gas gas_for_call gas_cost;
  mret (sha256_digest calldata).

Definition ripemd_160 (calldata : list Z) (gas_for_call : Z) : P (list Z) :=
  gas_cost ← lift (Gas.ripemd_160 (len calldata));
  _ ← increase_precompile_consumed_gas gas_for_call gas_cost;
  mret (replicate 12 0 ++ ripemd160_digest calldata).

(** The remaining precompiles return no bytes and charge nothing. *)
Definition identity (calldata : list Z) (gas_for_call : Z) : P (list Z) := mret [].
Definition modexp (calldata : list Z) (gas_for_call : Z) : P (list Z) := mret [].
Definition ecadd (calldata : list Z) (gas_for_call : Z) : P (list Z) := mret [].
Definition ecmul (calldata : list Z) (gas_for_call : Z) : P (list Z) := mret [].
Definition ecpairing (calldata : list Z) (gas_for_call : Z) : P (list Z) := mret [].
Definition blake2f (calldata : list Z) (gas_for_call : Z) : P (list Z) := mret [].
Definition point_evaluation (calldata : list Z) (gas_for_call : Z) : P (list Z) := mret [].

Definition dispatch (callee_address : Z) (calldata : list Z) (gas_for_call : Z) : P (list Z) :=
  if callee_address =? ECRECOVER_ADDRESS then ecrecover calldata gas_for_call
  else if callee_address =? IDENTITY_ADDRESS then identity calldata gas_for_call
  else if callee_address =? SHA2_256_ADDRESS then sha2_256 calldata gas_for_call
  else if callee_address =? RIPEMD_160_ADDRESS then ripemd_160 calldata gas_for_call
  else if callee_address =? MODEXP_ADDRESS then modexp calldata gas_for_call
  else if callee_address =? ECADD_ADDRESS then ecadd calldata gas_for_call
  else if callee_address =? ECMUL_ADDRESS then ecmul calldata gas_for_call
  else if callee_address =? ECPAIRING_ADDRESS then ecpairing calldata gas_for_call
  else if callee_address =? BLAKE2F_ADDRESS then blake2f calldata gas_for_call
  else if callee_address =? POINT_EVALUATION_ADDRESS then point_evaluation calldata gas_for_call
  else throw (Internal InternalError.InvalidPrecompileAddress).

Definition execute_precompile : ST CallFrame (list Z) := λ f,
  let '(r, consumed_gas) := dispatch (code_address f) (calldata f) (gas_limit f) (gas_used f) in
  (r, set_gas_used consumed_gas f).

End Precompiles.
End Precompile.

(** ** system.rs *)

Definition SUCCESS_FOR_CALL : Z := 1.
Definition REVERT_FOR_CALL : Z := 0.
Definition CREATE_DEPLOYMENT_FAIL : Z := 0.
Definition INIT_CODE_MAX_SIZE : Z := 49152.

(** Run [self.execute(&mut new_call_frame)] from a handler: the machine is
    shared, the frame is the callee's own. *)
Definition run_sub (execute : M TransactionReport) (new_call_frame : CallFrame)
    : M TransactionReport := λ s,
  let '(r, (vm, _)) := execute (s.1, new_call_frame) in (r, (vm, s.2)).

Section System.
Context `{Crypto}.
Variable execute : M TransactionReport.

Definition generic_call (gas_limit value msg_sender to code_address : Z)
    (should_transfer_value is_static : bool) (args_offset args_size ret_offset ret_size : Z)
    : M OpcodeSuccess :=
  _ ← upd_frame (set_sub_return_data []);
  '(sender_account_info, _) ← on_vm (access_account msg_sender);
  if should_transfer_value && (balance sender_account_info <? value) then
    push_continue REVERT_FOR_CALL
  else
    d ← frame depth;
    new_depth ← lift (internal (checked_add 64 d 1) InternalError.ArithmeticOperationOverflow);
    if 1024 <? new_depth then push_continue REVERT_FOR_CALL
    else
      '(code_account_info, _) ← on_vm (access_account code_address);
      let recipient_bytecode := bytecode code_account_info in
      calldata ← on_memory (load_range args_offset args_size);
      f ← frame id;
      gas_cap ← lift (Gas.max_message_call_gas f);
      gas_limit ← lift (internal (try_into 64 (Z.min gas_limit gas_cap))
                          InternalError.ConversionError);
      let new_frame := new_call_frame msg_sender to code_address recipient_bytecode value
                         calldata is_static gas_limit 0 new_depth false in
      _ ← (if should_transfer_value then
             _ ← on_vm (decrease_account_balance msg_sender value);
             on_vm (increase_account_balance to value)
           else mret tt);
      tx_report ← run_sub execute new_frame;
      used ← frame gas_used;
      used ← lift (oog (checked_add 64 used (report_gas_used tx_report))
                     OutOfGasError.ConsumedGasOverflow);
      _ ← upd_frame (set_gas_used used);
      _ ← upd_frame (λ f, set_logs (logs f ++ report_logs tx_report) f);
      _ ← on_memory (try_store_range ret_offset ret_size (report_output tx_report));
      _ ← upd_frame (set_sub_return_data (report_output tx_report));
      match result tx_report with
      | Success => push_continue SUCCESS_FOR_CALL
      | Revert _ =>
          _ ← (if should_transfer_value then
                 _ ← on_vm (decrease_account_balance to value);
                 on_vm (increase_account_balance msg_sender value)
               else mret tt);
          push_continue REVERT_FOR_CALL
      end.

Definition op_call : M OpcodeSuccess :=
  gas ← pop;
  callee_word ← pop;
  let callee := word_to_address callee_word in
  value_to_transfer ← pop;
  args_start_offset ← pop;
  args_size ← pop_usize;
  return_data_start_offset ← pop;
  return_data_size ← pop_usize;
  f ← frame id;
  if is_static f && negb (value_to_transfer =? 0) then throw OpcodeNotAllowedInStaticContext
  else
    let current_memory_size := len (memory f) in
    new_memory_size_for_args ← lift (calculate_memory_size args_start_offset args_size);
    new_memory_size_for_return_data ←
      lift (calculate_memory_size return_data_start_offset return_data_size);
    let new_memory_size := Z.max new_memory_size_for_args new_memory_size_for_return_data in
    '(account_info, address_was_cold) ← on_vm (access_account callee);
    gas_cost ← lift (Gas.call new_memory_size current_memory_size address_was_cold
                       (is_empty account_info) value_to_transfer);
    _ ← increase_consumed_gas gas_cost;
    f ← frame id;
    let gas_for_subcall :=
      if negb (value_to_transfer =? 0)
      then saturating_add 256 gas Gas.CALL_POSITIVE_VALUE_STIPEND else gas in
    generic_call gas_for_subcall value_to_transfer (to f) callee callee true (is_static f)
      args_start_offset args_size return_data_start_offset return_data_size.

Definition op_callcode : M OpcodeSuccess :=
  gas ← pop;
  code_word ← pop;
  let code_address := word_to_address code_word in
  value_to_transfer ← pop;
  args_start_offset ← pop;
  args_size ← pop_usize;
  return_data_start_offset ← pop;
  return_data_size ← pop_usize;
  mem ← frame memory;
  new_memory_size_for_args ← lift (calculate_memory_size args_start_offset args_size);
  new_memory_size_for_return_data ←
    lift (calculate_memory_size return_data_start_offset return_data_size);
  let new_memory_size := Z.max new_memory_size_for_args new_memory_size_for_return_data in
  '(_, address_was_cold) ← on_vm (access_account code_address);
  gas_cost ← lift (Gas.callcode new_memory_size (len mem) address_was_cold value_to_transfer);
  _ ← increase_consumed_gas gas_cost;
  f ← frame id;
  let gas_for_subcall :=
    if negb (value_to_transfer =? 0)
    then saturating_add 256 gas Gas.CALLCODE_POSITIVE_VALUE_STIPEND else gas in
  generic_call gas_for_subcall value_to_transfer (to f) (to f) code_address true (is_static f)
    args_start_offset args_size return_data_start_offset return_data_size.

Definition op_return : M OpcodeSuccess :=
  offset ← pop;
  size ← pop_usize;
  if size =? 0 then mret (Result_ Return_)
  else
    new_memory_size ← lift (calculate_memory_size offset size);
    mem ← frame memory;
    expansion ← lift (expansion_cost new_memory_size (len mem));
    memory_expansion_cost ← lift (internal (try_into 64 expansion)
                                    InternalError.ConversionError);
    _ ← increase_consumed_gas memory_expansion_cost;
    data ← on_memory (load_range offset size);
    _ ← upd_frame (set_output data);
    mret (Result_ Return_).

Definition op_delegatecall : M OpcodeSuccess :=
  gas ← pop;
  code_word ← pop;
  let code_address := word_to_address code_word in
  args_start_offset ← pop;
  args_size ← pop_usize;
  return_data_start_offset ← pop;
  return_data_size ← pop_usize;
  '(_, address_was_cold) ← on_vm (access_account code_address);
  mem ← frame memory;
  new_memory_size_for_args ← lift (calculate_memory_size args_start_offset args_size);
  new_memory_size_for_return_data ←
    lift (calculate_memory_size return_data_start_offset return_data_size);
  let new_memory_size := Z.max new_memory_size_for_args new_memory_size_for_return_data in
  gas_cost ← lift (Gas.delegatecall new_memory_size (len mem) address_was_cold);
  _ ← increase_consumed_gas gas_cost;
  f ← frame id;
  generic_call gas (msg_value f) (msg_sender f) (to f) code_address false (is_static f)
    args_start_offset args_size return_data_start_offset return_data_size.

Definition op_staticcall : M OpcodeSuccess :=
  gas ← pop;
  code_word ← pop;
  let code_address := word_to_address code_word in
  args_start_offset ← pop;
  args_size ← pop_usize;
  return_data_start_offset ← pop;
  return_data_size ← pop_usize;
  '(_, address_was_cold) ← on_vm (access_account code_address);
  mem ← frame memory;
  new_memory_size_for_args ← lift (calculate_memory_size args_start_offset args_size);
  new_memory_size_for_return_data ←
    lift (calculate_memory_size return_data_start_offset return_data_size);
  let new_memory_size := Z.max new_memory_size_for_args new_memory_size_for_return_data in
  gas_cost ← lift (Gas.staticcall new_memory_size (len mem) address_was_cold);
  _ ← increase_consumed_gas gas_cost;
  f ← frame id;
  generic_call gas 0 (to f) code_address code_address true true
    args_start_offset args_size return_data_start_offset return_data_size.

Definition generic_create (value_in_wei_to_send code_offset_in_memory code_size_in_memory : Z)
    (salt : option Z) : M OpcodeSuccess :=
  f ← frame id;
  if is_static f then throw OpcodeNotAllowedInStaticContext
  else if INIT_CODE_MAX_SIZE <? code_size_in_memory then
    throw (OutOfGas OutOfGasError.ConsumedGasOverflow)
  else
    max_message_call_gas ← lift (Gas.max_message_call_gas f);
    _ ← increase_consumed_gas max_message_call_gas;
    _ ← upd_frame (set_sub_return_data []);
    let deployer_address := to f in
    '(deployer_account_info, _) ← on_vm (access_account deployer_address);
    code ← on_memory (load_range code_offset_in_memory code_size_in_memory);
    new_address ← lift (match salt with
                        | Some salt => calculate_create2_address deployer_address code salt
                        | None => calculate_create_address deployer_address
                                    (nonce deployer_account_info)
                        end);
    _ ← upd_vm (λ vm, set_substate (set_touched_accounts
                  ({[new_address]} ∪ touched_accounts (accrued_substate vm))
                  (accrued_substate vm)) vm);
    new_depth ← lift (internal (checked_add 64 (depth f) 1)
                        InternalError.ArithmeticOperationOverflow);
    if (balance deployer_account_info <? value_in_wei_to_send) || (1024 <? new_depth)
       || (nonce deployer_account_info =? 2 ^ 64 - 1) then
      used ← frame gas_used;
      used ← lift (internal (checked_sub 64 used max_message_call_gas)
                     InternalError.GasOverflow);
      _ ← upd_frame (set_gas_used used);
      push_continue CREATE_DEPLOYMENT_FAIL
    else
      existing ← on_vm (get_account new_address);
      if has_code_or_nonce existing then
        _ ← on_vm (increment_account_nonce deployer_address);
        push_continue CREATE_DEPLOYMENT_FAIL
      else
        new_balance ← lift (ok_or (checked_add 256 value_in_wei_to_send
                                     (balance (info existing))) BalanceOverflow);
        _ ← on_vm (put_account new_address (new_account new_balance [] 1 ∅));
        _ ← on_vm (increment_account_nonce deployer_address);
        _ ← on_vm (decrease_account_balance deployer_address value_in_wei_to_send);
        let new_frame := new_call_frame deployer_address new_address new_address code
                           value_in_wei_to_send [] false max_message_call_gas 0 new_depth true in
        _ ← upd_vm (λ vm, set_substate (set_created_accounts
                      ({[new_address]} ∪ created_accounts (accrued_substate vm))
                      (accrued_substate vm)) vm);
        tx_report ← run_sub execute new_frame;
        unused_gas ← lift (internal (checked_sub 64 max_message_call_gas
                                       (report_gas_used tx_report)) InternalError.GasOverflow);
        used ← frame gas_used;
        used ← lift (internal (checked_sub 64 used unused_gas) InternalError.GasOverflow);
        _ ← upd_frame (set_gas_used used);
        _ ← upd_frame (λ f, set_logs (logs f ++ report_logs tx_report) f);
        match result tx_report with
        | Success => push_continue (address_to_word new_address)
        | Revert err =>
            _ ← on_vm (increase_account_balance deployer_address value_in_wei_to_send);
            _ ← on_vm (remove_account new_address);
            _ ← upd_vm (λ vm, set_substate (set_created_accounts
                          (created_accounts (accrued_substate vm) ∖ {[new_address]})
                          (accrued_substate vm)) vm);
            _ ← (if bool_decide (err = RevertOpcode) then
                   upd_frame (set_sub_return_data (report_output tx_report))
                 else mret tt);
            push_continue CREATE_DEPLOYMENT_FAIL
        end.

Definition op_create : M OpcodeSuccess :=
  value_in_wei_to_send ← pop;
  code_offset_in_memory ← pop;
  code_size_in_memory ← pop_usize;
  new_size ← lift (calculate_memory_size code_offset_in_memory code_size_in_memory);
  mem ← frame memory;
  gas_cost ← lift (Gas.create new_size (len mem) code_size_in_memory);
  _ ← increase_consumed_gas gas_cost;
  generic_create value_in_wei_to_send code_offset_in_memory code_size_in_memory None.

Definition op_create2 : M OpcodeSuccess :=
  value_in_wei_to_send ← pop;
  code_offset_in_memory ← pop;
  code_size_in_memory ← pop_usize;
  salt ← pop;
  new_size ← lift (calculate_memory_size code_offset_in_memory code_size_in_memory);
  mem ← frame memory;
  gas_cost ← lift (Gas.create_2 new_size (len mem) code_size_in_memory);
  _ ← increase_consumed_gas gas_cost;
  generic_create value_in_wei_to_send code_offset_in_memory code_size_in_memory (Some salt).

Definition op_revert : M OpcodeSuccess :=
  offset ← pop;
  size ← pop_usize;
  new_memory_size ← lift (calculate_memory_size offset size);
  mem ← frame memory;
  expansion ← lift (expansion_cost new_memory_size (len mem));
  memory_expansion_cost ← lift (internal (try_into 64 expansion) InternalError.ConversionError);
  _ ← increase_consumed_gas memory_expansion_cost;
  data ← on_memory (load_range offset size);
  _ ← upd_frame (set_output data);
  throw RevertOpcode.

Definition op_invalid : M OpcodeSuccess := throw InvalidOpcode.

Definition op_selfdestruct : M OpcodeSuccess :=
  f ← frame id;
  if is_static f then throw OpcodeNotAllowedInStaticContext
  else
    target_word ← pop;
    let target_address := word_to_address target_word in
    '(target_account_info, target_account_is_cold) ← on_vm (access_account target_address);
    '(current_account_info, _) ← on_vm (access_account (to f));
    let balance_to_transfer := balance current_account_info in
    gas_cost ← lift (Gas.selfdestruct target_account_is_cold (is_empty target_account_info)
                       balance_to_transfer);
    _ ← increase_consumed_gas gas_cost;
    _ ← on_vm (increase_account_balance target_address balance_to_transfer);
    _ ← on_vm (decrease_account_balance (to f) balance_to_transfer);
    created ← machine (λ vm, created_accounts (accrued_substate vm));
    _ ← (if bool_decide (to f ∈ created) then
           upd_vm (λ vm, set_substate (set_selfdestruct_set
                     ({[to f]} ∪ selfdestruct_set (accrued_substate vm))
                     (accrued_substate vm)) vm)
         else mret tt);
    mret (Result_ SelfDestruct).

End System.
