(* ===== verification/LevmVm.v ===== *)
(** * LEVM: the interpreter and the transaction (crates/vm/levm/src/vm.rs)

    [VM::new], the interpreter loop [VM::execute] with its snapshot and
    roll-back, and [VM::transact] with the validations before and the
    settlement after the execution.

    [execute] calls itself through the CALL and CREATE families; the model
    gives it fuel.  A step that continues charges at least one unit of gas and
    a sub-context gets at most what is left, so one unit of fuel more than the
    remaining gas is enough (LevmTermination). *)

From stdpp Require Import base option list numbers gmap.
From S2P Require Import Prelude LevmState LevmMemory LevmGas LevmOpcodes LevmHost LevmArith.
From S2P Require Import LevmHandlers LevmSystem.

Local Open Scope Z_scope.

Definition TX_BASE_COST : Z := 21000.
Definition MAX_CODE_SIZE : Z := 0x6000.
Definition INVALID_CONTRACT_PREFIX : Z := 0xef.
Definition MAX_BLOB_COUNT : Z := 6.
Definition VALID_BLOB_PREFIXES : list Z := [0x01; 0x02].

Section Machine.
Context `{Crypto}.

(** ** The interpreter *)

(** The [match opcode] of the loop. *)
Definition dispatch (execute : M TransactionReport) (opcode : Opcode.t) : M OpcodeSuccess :=
  match opcode with
  | Opcode.STOP => mret (Result_ Stop)
  | Opcode.ADD => op_add
  | Opcode.MUL => op_mul
  | Opcode.SUB => op_sub
  | Opcode.DIV => op_div
  | Opcode.SDIV => op_sdiv
  | Opcode.MOD => op_mod
  | Opcode.SMOD => op_smod
  | Opcode.ADDMOD => op_addmod
  | Opcode.MULMOD => op_mulmod
  | Opcode.EXP => op_exp
  | Opcode.SIGNEXTEND => op_signextend
  | Opcode.LT => op_lt
  | Opcode.GT => op_gt
  | Opcode.SLT => op_slt
  | Opcode.SGT => op_sgt
  | Opcode.EQ => op_eq
  | Opcode.ISZERO => op_iszero
  | Opcode.KECCAK256 => op_keccak256
  | Opcode.CALLDATALOAD => op_calldataload
  | Opcode.CALLDATASIZE => op_calldatasize
  | Opcode.CALLDATACOPY => op_calldatacopy
  | Opcode.RETURNDATASIZE => op_returndatasize
  | Opcode.RETURNDATACOPY => op_returndatacopy
  | Opcode.JUMP => op_jump
  | Opcode.JUMPI => op_jumpi
  | Opcode.JUMPDEST => op_jumpdest
  | Opcode.PC => op_pc
  | Opcode.BLOCKHASH => op_blockhash
  | Opcode.COINBASE => op_coinbase
  | Opcode.TIMESTAMP => op_timestamp
  | Opcode.NUMBER => op_number
  | Opcode.PREVRANDAO => op_prevrandao
  | Opcode.GASLIMIT => op_gaslimit
  | Opcode.CHAINID => op_chainid
  | Opcode.BASEFEE => op_basefee
  | Opcode.BLOBHASH => op_blobhash
  | Opcode.BLOBBASEFEE => op_blobbasefee
  | Opcode.PUSH0 => op_push0
  | Opcode.AND => op_and
  | Opcode.OR => op_or
  | Opcode.XOR => op_xor
  | Opcode.NOT => op_not
  | Opcode.BYTE => op_byte
  | Opcode.SHL => op_shl
  | Opcode.SHR => op_shr
  | Opcode.SAR => op_sar
  | Opcode.POP => op_pop
  | Opcode.MLOAD => op_mload
  | Opcode.MSTORE => op_mstore
  | Opcode.MSTORE8 => op_mstore8
  | Opcode.SLOAD => op_sload
  | Opcode.SSTORE => op_sstore
  | Opcode.MSIZE => op_msize
  | Opcode.GAS => op_gas
  | Opcode.MCOPY => op_mcopy
  | Opcode.CALL => op_call execute
  | Opcode.CALLCODE => op_callcode execute
  | Opcode.RETURN => op_return
  | Opcode.DELEGATECALL => op_delegatecall execute
  | Opcode.STATICCALL => op_staticcall execute
  | Opcode.CREATE => op_create execute
  | Opcode.CREATE2 => op_create2 execute
  | Opcode.TLOAD => op_tload
  | Opcode.TSTORE => op_tstore
  | Opcode.SELFBALANCE => op_selfbalance
  | Opcode.ADDRESS => op_address
  | Opcode.ORIGIN => op_origin
  | Opcode.BALANCE => op_balance
  | Opcode.CALLER => op_caller
  | Opcode.CALLVALUE => op_callvalue
  | Opcode.CODECOPY => op_codecopy
  | Opcode.CODESIZE => op_codesize
  | Opcode.GASPRICE => op_gasprice
  | Opcode.EXTCODESIZE => op_extcodesize
  | Opcode.EXTCODECOPY => op_extcodecopy
  | Opcode.EXTCODEHASH => op_extcodehash
  | Opcode.REVERT => op_revert
  | Opcode.INVALID => op_invalid
  | Opcode.SELFDESTRUCT => op_selfdestruct
  | op =>
      if Opcode.in_range Opcode.PUSH1 Opcode.PUSH32 op then
        n_bytes ← lift (get_n_value op Opcode.PUSH1);
        op_push n_bytes
      else if Opcode.in_range Opcode.DUP1 Opcode.DUP16 op then
        depth ← lift (get_n_value op Opcode.DUP1);
        op_dup depth
      else if Opcode.in_range Opcode.SWAP1 Opcode.SWAP16 op then
        depth ← lift (get_n_value op Opcode.SWAP1);
        op_swap depth
      else if Opcode.in_range Opcode.LOG0 Opcode.LOG4 op then
        number_of_topics ← lift (get_number_of_topics op);
        op_log number_of_topics
      else throw OpcodeNotFound
  end.

Definition make_report (r : TxResult) (vm : VM) (used refunded : Z) (out : list Z)
    (ls : list Log) : TransactionReport := {|
  result := r;
  new_state := cache vm;
  report_gas_used := used;
  gas_refunded := refunded;
  report_output := out;
  report_logs := ls;
  created_address := None;
|}.

(** The report of a context that ends: [current_call_frame]'s gas, output and
    logs. *)
Definition end_report (r : TxResult) : M TransactionReport :=
  s ← gets id;
  mret (make_report r s.1 (gas_used s.2) (refunded_gas (env s.1)) (output s.2) (logs s.2)).

Definition push_call_frame : M unit :=
  f ← frame id;
  upd_vm (λ vm, set_call_frames (call_frames vm ++ [f]) vm).

(** The checks on the code a creation returns: its size, its first byte and
    the deposit. *)
Definition validate_create (contract_code : list Z) (code_deposit_cost : Z)
    : M (option VMError) := λ s,
  if MAX_CODE_SIZE <? len contract_code then (Ok (Some ContractOutputTooBig), s)
  else if default 0 (head contract_code) =? INVALID_CONTRACT_PREFIX then
    (Ok (Some InvalidContractPrefix), s)
  else match increase_consumed_gas code_deposit_cost s with
       | (Ok _, s') => (Ok None, s')
       | (_, s') => (Ok (Some (OutOfGas OutOfGasError.MaxGasLimitExceeded)), s')
       end.

(** [Ok(OpcodeSuccess::Result(_))]: a context that stops. *)
Definition finish_success (backup : Backup) : M TransactionReport :=
  _ ← push_call_frame;
  vm ← machine id;
  f ← frame id;
  if (is_create vm && (depth f =? 0)) || create_op_called f then
    let contract_code := output f in
    code_length ← lift (internal (try_into 64 (len contract_code))
                          InternalError.ConversionError);
    code_deposit_cost ← lift (internal (checked_mul 64 code_length Gas.CODE_DEPOSIT_COST)
                                InternalError.ArithmeticOperationOverflow);
    invalid ← validate_create contract_code code_deposit_cost;
    match invalid with
    | None =>
        _ ← on_vm (update_account_bytecode (to f) contract_code);
        end_report Success
    | Some error =>
        _ ← upd_frame (λ f, set_gas_used (gas_limit f) f);
        _ ← upd_vm (restore_state backup);
        end_report (Revert error)
    end
  else end_report Success.

(** [Err(error)]: a context that fails. *)
Definition finish_error (backup : Backup) (error : VMError) : M TransactionReport :=
  _ ← push_call_frame;
  if is_internal error then throw error
  else
    _ ← (if bool_decide (error = RevertOpcode) then mret tt
         else upd_frame (λ f,
                let left_gas := saturating_sub (gas_limit f) (gas_used f) in
                set_gas_used (saturating_add 64 (gas_used f) left_gas) f));
    _ ← upd_vm (restore_state backup);
    end_report (Revert error).

(** The precompile branch of [execute]. *)
Definition run_precompile (backup : Backup) : M TransactionReport := λ s,
  match Precompile.execute_precompile s.2 with
  | (Ok out, f) =>
      (_ ← push_call_frame;
       s' ← gets id;
       mret (make_report Success s'.1 (gas_used s'.2) 0 out (logs s'.2))) (s.1, f)
  | (Err error, f) =>
      if is_internal error then (Err error, (s.1, f))
      else
        (_ ← push_call_frame;
         _ ← upd_vm (restore_state backup);
         s' ← gets id;
         mret (make_report (Revert error) s'.1 (gas_limit s'.2) 0 [] (logs s'.2))) (s.1, f)
  | (Panic, f) => (Panic, (s.1, f))
  | (NoFuel, f) => (NoFuel, (s.1, f))
  end.

(** [execute] given its loop. *)
Definition execute_with (loop : Backup → M TransactionReport) : M TransactionReport :=
  s ← gets id;
  let backup := take_backup s.1 in
  if Precompile.is_precompile (code_address s.2) then run_precompile backup
  else loop backup.

(** What follows one opcode: the program counter moves on, except after a jump,
    and the result decides how the loop goes on. *)
Definition after_opcode (opcode : Opcode.t) (op_result : Result OpcodeSuccess)
    (backup : Backup) (continue : M TransactionReport) : M TransactionReport :=
  let next : M unit :=
    if bool_decide (opcode = Opcode.JUMP) || bool_decide (opcode = Opcode.JUMPI) then mret tt
    else increment_pc in
  match op_result with
  | Ok Continue => _ ← next; continue
  | Ok (Result_ _) => _ ← next; finish_success backup
  | Err error => _ ← next; finish_error backup error
  | Panic => lift Panic
  | NoFuel => lift NoFuel
  end.

(** The [loop] of [execute]. *)
Fixpoint run (fuel : nat) (backup : Backup) : M TransactionReport := λ s,
  match fuel with
  | O => (NoFuel, s)
  | S fuel =>
      let opcode := next_opcode s.2 in
      let '(op_result, s') := dispatch (execute_with (run fuel)) opcode s in
      after_opcode opcode op_result backup (run fuel backup) s'
  end.

Definition execute (fuel : nat) : M TransactionReport := execute_with (run fuel).

(** The fuel that is enough for a frame. *)
Definition fuel_for (f : CallFrame) : nat := Z.to_nat (gas_limit f - gas_used f + 1).

(** ** [VM::new] *)

(** The warm storage slots of the access list: a later entry for an address
    replaces an earlier one. *)
Fixpoint access_list_slots (access_list : list (Z * list Z)) (slots : gmap Z (gset Z))
    : gmap Z (gset Z) :=
  match access_list with
  | [] => slots
  | (address, keys) :: rest =>
      access_list_slots rest (<[address := list_to_set keys]> slots)
  end.

Definition default_touched_accounts (e : Environment) (access_list : list (Z * list Z))
    : gset Z :=
  list_to_set [origin e; coinbase e] ∪ list_to_set access_list.*1
  ∪ list_to_set Precompile.PRECOMPILES.

Definition new_vm (kind : TxKind) (e : Environment) (value : Z) (calldata : list Z)
    (d : Database) (c : CacheDB) (access_list : list (Z * list Z)) : Result VM :=
  let touched := default_touched_accounts e access_list in
  let slots := access_list_slots access_list ∅ in
  let blank := {| call_frames := []; env := e;
                  accrued_substate := {| selfdestruct_set := ∅; touched_accounts := touched;
                                         touched_storage_slots := slots;
                                         created_accounts := ∅ |};
                  db := d; cache := c; tx_kind := kind; access_list := access_list |} in
  match kind with
  | Call address_to =>
      let '(account, vm) := get_account address_to blank in
      account ← account;
      let initial_call_frame :=
        new_call_frame (origin e) address_to address_to (bytecode (info account)) value calldata
          false (env_gas_limit e) 0 0 false in
      Ok (set_call_frames [initial_call_frame]
            (set_substate (set_touched_accounts ({[address_to]} ∪ touched)
                             (accrued_substate vm)) vm))
  | Create =>
      let '(account, vm) := get_account (origin e) blank in
      account ← account;
      new_contract_address ←
        map_err (λ _, Internal InternalError.CouldNotComputeCreateAddress)
          (calculate_create_address (origin e) (nonce (info account)));
      let initial_call_frame :=
        new_call_frame (origin e) new_contract_address new_contract_address [] value calldata
          false (env_gas_limit e) 0 0 false in
      Ok (set_call_frames [initial_call_frame]
            (set_substate
               (set_created_accounts {[new_contract_address]}
                  (set_touched_accounts ({[new_contract_address]} ∪ touched)
                     (accrued_substate vm))) vm))
  end.

(** ** Before the execution *)

Fixpoint access_list_key_costs (cost : Z) (keys : list Z) : Result Z :=
  match keys with
  | [] => Ok cost
  | _ :: keys =>
      cost ← oog (checked_add 64 cost Gas.ACCESS_LIST_STORAGE_KEY_COST)
               OutOfGasError.ConsumedGasOverflow;
      access_list_key_costs cost keys
  end.

Fixpoint access_list_cost_from (access_lists_cost : Z) (access_list : list (Z * list Z))
    : Result Z :=
  match access_list with
  | [] => Ok access_lists_cost
  | (_, keys) :: rest =>
      cost ← oog (checked_add 64 access_lists_cost Gas.ACCESS_LIST_ADDRESS_COST)
               OutOfGasError.ConsumedGasOverflow;
      cost ← access_list_key_costs cost keys;
      access_list_cost_from cost rest
  end.

(** The amount [add_intrinsic_gas] charges. *)
Definition intrinsic_gas (vm : VM) (calldata : list Z) : Result Z :=
  calldata_cost ← Gas.tx_calldata calldata;
  intrinsic ← oog (checked_add 64 0 calldata_cost) OutOfGasError.ConsumedGasOverflow;
  intrinsic ← oog (checked_add 64 intrinsic TX_BASE_COST) OutOfGasError.ConsumedGasOverflow;
  intrinsic ←
    (if is_create vm then
       intrinsic ← oog (checked_add 64 intrinsic Gas.CREATE_BASE_COST)
                     OutOfGasError.ConsumedGasOverflow;
       let number_of_words := div_ceil (len calldata) Gas.WORD_SIZE in
       doubled ← oog (checked_mul 64 number_of_words 2) OutOfGasError.ConsumedGasOverflow;
       double_number_of_words ← internal (try_into 64 doubled) InternalError.ConversionError;
       oog (checked_add 64 intrinsic double_number_of_words) OutOfGasError.ConsumedGasOverflow
     else Ok intrinsic);
  access_lists_cost ← access_list_cost_from 0 (access_list vm);
  oog (checked_add 64 intrinsic access_lists_cost) OutOfGasError.ConsumedGasOverflow.

(** A handler whose errors are replaced ([.map_err(..)]). *)
Definition map_error {A} (f : VMError → VMError) (m : M A) : M A := λ s,
  let '(r, s') := m s in (map_err f r, s').

Definition add_intrinsic_gas : M unit :=
  s ← gets id;
  intrinsic ← lift (intrinsic_gas s.1 (calldata s.2));
  map_error (λ _, TxValidation TxValidationError.IntrinsicGasTooLow)
    (increase_consumed_gas intrinsic).

Definition blob_gas (vm : VM) : Result Z :=
  blobhash_amount ← internal (try_into 64 (len (tx_blob_hashes (env vm))))
                      InternalError.ConversionError;
  Ok (default 0 (checked_mul 64 blobhash_amount Gas.BLOB_GAS_PER_BLOB)).

Definition get_max_blob_gas_price (vm : VM) : Result Z :=
  blob_gas_used ← blob_gas vm;
  internal (checked_mul 256 (default 0 (tx_max_fee_per_blob_gas (env vm))) blob_gas_used)
    (InternalError.UndefinedState 1).

Definition get_base_fee_per_blob_gas (vm : VM) : Result Z :=
  excess ← ok_or (try_into 64 (default 0 (block_excess_blob_gas (env vm)))) VeryLargeNumber;
  Gas.fake_exponential MIN_BASE_FEE_PER_BLOB_GAS excess BLOB_BASE_FEE_UPDATE_FRACTION.

Definition get_blob_gas_price (vm : VM) : Result Z :=
  blob_gas_price ← blob_gas vm;
  base_fee_per_blob_gas ← get_base_fee_per_blob_gas vm;
  internal (checked_mul 256 blob_gas_price base_fee_per_blob_gas)
    (InternalError.UndefinedState 1).

Definition tx_error {A} (o : option A) (e : TxValidationError.t) : Result A :=
  ok_or o (TxValidation e).

(** The type-3 checks (11) to (15). *)
Definition validate_blobs (vm : VM) : Result unit :=
  let blob_hashes := tx_blob_hashes (env vm) in
  if match blob_hashes with [] => true | _ => false end then
    Err (TxValidation TxValidationError.Type3TxZeroBlobs)
  else if existsb (λ h, negb (bool_decide (u256_byte h 31 ∈ VALID_BLOB_PREFIXES))) blob_hashes
  then Err (TxValidation TxValidationError.Type3TxInvalidBlobVersionedHash)
  else if MAX_BLOB_COUNT <? len blob_hashes then
    Err (TxValidation TxValidationError.Type3TxBlobCountExceeded)
  else if is_create vm then Err (TxValidation TxValidationError.Type3TxContractCreation)
  else Ok tt.

(** The up-front cost: the balance check against the maximum fees, and the
    amount to deduct. *)
Definition up_front_cost (vm : VM) (sender_balance value : Z) : Result Z :=
  let e := env vm in
  gaslimit_price_product ← tx_error (checked_mul 256 (gas_price e) (env_gas_limit e))
                             TxValidationError.GasLimitPriceProductOverflow;
  max_blob_gas_cost ← get_max_blob_gas_price vm;
  gas_fee_for_valid_tx ←
    tx_error (checked_mul 256 (default (gas_price e) (tx_max_fee_per_gas e)) (env_gas_limit e))
      TxValidationError.GasLimitPriceProductOverflow;
  a ← tx_error (checked_add 256 gas_fee_for_valid_tx value)
        TxValidationError.InsufficientAccountFunds;
  balance_for_valid_tx ← tx_error (checked_add 256 a max_blob_gas_cost)
                           TxValidationError.InsufficientAccountFunds;
  if sender_balance <? balance_for_valid_tx then
    Err (TxValidation TxValidationError.InsufficientAccountFunds)
  else
    blob_gas_cost ← get_blob_gas_price vm;
    b ← tx_error (checked_add 256 gaslimit_price_product value)
          TxValidationError.InsufficientAccountFunds;
    tx_error (checked_add 256 b blob_gas_cost) TxValidationError.InsufficientAccountFunds.

(** [VM::prepare_execution]. *)
Definition prepare_execution : M unit :=
  vm ← machine id;
  let sender_address := origin (env vm) in
  sender_account ← on_vm (get_account sender_address);
  f ← frame id;
  cost ← lift (up_front_cost vm (balance (info sender_account)) (msg_value f));
  _ ← map_error (λ _, TxValidation TxValidationError.InsufficientAccountFunds)
        (on_vm (decrease_account_balance sender_address cost));
  _ ← (if is_create vm then mret tt
       else on_vm (increase_account_balance (to f) (msg_value f)));
  _ ← (if default (gas_price (env vm)) (tx_max_fee_per_gas (env vm))
          <? base_fee_per_gas (env vm)
       then throw (TxValidation TxValidationError.InsufficientMaxFeePerGas) else mret tt);
  _ ← (if is_create vm && (INIT_CODE_MAX_SIZE <? len (calldata f))
       then throw (TxValidation TxValidationError.InitcodeSizeExceeded) else mret tt);
  _ ← add_intrinsic_gas;
  _ ← map_error (λ _, TxValidation TxValidationError.NonceIsMax)
        (on_vm (increment_account_nonce sender_address));
  _ ← (match tx_max_priority_fee_per_gas (env vm), tx_max_fee_per_gas (env vm) with
       | Some tx_max_priority_fee, Some tx_max_fee =>
           if tx_max_fee <? tx_max_priority_fee
           then throw (TxValidation TxValidationError.PriorityGreaterThanMaxFeePerGas)
           else mret tt
       | _, _ => mret tt
       end);
  _ ← (if has_code (info sender_account)
       then throw (TxValidation TxValidationError.SenderNotEOA) else mret tt);
  _ ← (if block_gas_limit (env vm) <? env_gas_limit (env vm)
       then throw (TxValidation TxValidationError.GasAllowanceExceeded) else mret tt);
  _ ← (match tx_max_fee_per_blob_gas (env vm) with
       | Some tx_max_fee_per_blob =>
           base_fee ← lift (get_base_fee_per_blob_gas vm);
           _ ← (if tx_max_fee_per_blob <? base_fee
                then throw (TxValidation TxValidationError.InsufficientMaxFeePerBlobGas)
                else mret tt);
           lift (validate_blobs vm)
       | None => mret tt
       end);
  if is_create vm then
    _ ← assign_bytecode (calldata f);
    upd_frame (set_calldata [])
  else mret tt.

(** ** After the execution *)

(** The [for] loop that removes the destructed accounts. *)
Definition destruct_accounts : ST VM unit :=
  modify (λ vm, set_cache
    (filter (λ kv, kv.1 ∉ selfdestruct_set (accrued_substate vm)) (cache vm)) vm).

(** [VM::post_execution_changes]; the refund it writes into the report is
    returned. *)
Definition post_execution_changes (initial_call_frame : CallFrame) (report : TransactionReport)
    : ST VM Z :=
  let sender_address := msg_sender initial_call_frame in
  let receiver_address := to initial_call_frame in
  _ ← (match result report with
       | Revert _ =>
           _ ← remove_account receiver_address;
           increase_account_balance sender_address (msg_value initial_call_frame)
       | Success => mret tt
       end);
  vm ← gets id;
  let e := env vm in
  let consumed_gas := report_gas_used report in
  fifth ← lift (internal (checked_div consumed_gas 5) (InternalError.UndefinedState (-1)));
  let refunded := Z.min (gas_refunded report) fifth in
  gas_to_return ← lift (internal (gas ← checked_sub 64 (env_gas_limit e) consumed_gas;
                                  checked_add 64 gas refunded)
                          (InternalError.UndefinedState 0));
  wei_return_amount ← lift (internal (checked_mul 256 (gas_price e) gas_to_return)
                              (InternalError.UndefinedState 1));
  _ ← increase_account_balance sender_address wei_return_amount;
  gas_to_pay_coinbase ← lift (internal (checked_sub 64 consumed_gas refunded)
                                (InternalError.UndefinedState 2));
  priority_fee_per_gas ← lift (ok_or (checked_sub 256 (gas_price e) (base_fee_per_gas e))
                                 GasPriceIsLowerThanBaseFee);
  coinbase_fee ← lift (ok_or (checked_mul 256 gas_to_pay_coinbase priority_fee_per_gas)
                         BalanceOverflow);
  _ ← (if negb (coinbase_fee =? 0) then increase_account_balance (coinbase e) coinbase_fee
       else mret tt);
  _ ← destruct_accounts;
  mret refunded.

(** The report with the refund and the final cache. *)
Definition settle (initial_call_frame : CallFrame) (report : TransactionReport)
    : ST VM TransactionReport :=
  refunded ← post_execution_changes initial_call_frame report;
  vm ← gets id;
  mret {| result := result report; new_state := cache vm;
          report_gas_used := report_gas_used report; gas_refunded := refunded;
          report_output := report_output report; report_logs := report_logs report;
          created_address := created_address report |}.

Definition handle_create_non_empty_account (initial_call_frame : CallFrame)
    : ST VM TransactionReport :=
  vm ← gets id;
  settle initial_call_frame
    (make_report (Revert AddressAlreadyOccupied) vm (env_gas_limit (env vm)) 0 [] []).

(** The body of [VM::transact] once the initial frame is popped. *)
Definition transact_frame : M TransactionReport :=
  _ ← prepare_execution;
  vm ← machine id;
  f ← frame id;
  occupied ←
    (if is_create vm then
       new_acc ← on_vm (get_account (to f));
       bal ← lift (internal (checked_add 256 (balance (info new_acc)) (msg_value f))
                     InternalError.ArithmeticOperationOverflow);
       if has_code_or_nonce new_acc then mret true
       else
         _ ← on_vm (put_account (to f) (new_account bal [] 1 ∅));
         mret false
     else mret false);
  if occupied : bool then on_vm (handle_create_non_empty_account f)
  else
    report ← (λ s, execute (fuel_for s.2) s);
    f ← frame id;
    on_vm (settle f report).

(** [VM::transact]. *)
Definition transact : ST VM TransactionReport := λ vm,
  match rev (call_frames vm) with
  | [] => (Err (Internal InternalError.CouldNotPopCallframe), vm)
  | f :: rest =>
      let '(r, (vm', _)) := transact_frame (set_call_frames (rev rest) vm, f) in (r, vm')
  end.

End Machine.
