(* ===== verification/LevmDemo.v ===== *)
(** * LEVM: concrete machines

    A concrete instance of the cryptographic interface and small machines, on
    which the theorems are instantiated and the interpreter is run.  The hash
    is a toy that satisfies the laws the crates document. *)

From stdpp Require Import base option list numbers gmap.
From S2P Require Import Prelude LevmState LevmOpcodes LevmHost LevmSystem LevmVm.

Local Open Scope Z_scope.

Definition demo_hash (d : list Z) : Z :=
  let mask := Z.ones 256 in foldl (λ a b, Z.land (a * 257 + b + 1) mask) 7 d.

(** The [n] low bytes of a number, the most significant one first, by shifts. *)
Fixpoint demo_bytes (n : nat) (z : Z) (acc : list Z) : list Z :=
  match n with
  | O => acc
  | S n => demo_bytes n (Z.shiftr z 8) (Z.land z 255 :: acc)
  end.

Lemma demo_bytes_ok n z acc :
  bytes acc → bytes (demo_bytes n z acc) ∧ length (demo_bytes n z acc) = (n + length acc)%nat.
Proof.
  revert z acc. induction n as [|n IH]; intros z acc Ha; [done|]. cbn [demo_bytes].
  destruct (IH (Z.shiftr z 8) (Z.land z 255 :: acc)) as [Hb Hl].
  - constructor; [|done]. change 255 with (Z.ones 8). rewrite Z.land_ones by lia.
    apply Z.mod_pos_bound. lia.
  - split; [done|]. rewrite Hl. cbn [length]. lia.
Qed.

#[export] Instance demo_crypto : Crypto := {
  keccak d := demo_bytes 32 (demo_hash d) [];
  sha256_digest d := demo_bytes 32 (demo_hash (1 :: d)) [];
  ripemd160_digest d := demo_bytes 20 (demo_hash (2 :: d)) [];
  Message := list Z;
  Signature := list Z;
  RecoveryId := Z;
  parse_message d := if len d =? 32 then Some d else None;
  parse_rpc v := if (v =? 27) || (v =? 28) then Some (v - 27) else None;
  parse_standard_slice d := if len d =? 64 then Some d else None;
  recover m s r := Some (4 :: s);
}.

#[export] Instance demo_crypto_laws : CryptoLaws demo_crypto.
Proof.
  split; intros; [exact (proj2 (demo_bytes_ok 32 _ [] (Forall_nil_2 _)))|exact (proj1 (demo_bytes_ok _ _ [] (Forall_nil_2 _)))..].
Qed.

Definition demo_env (limit : Z) : Environment := {|
  origin := 100; refunded_gas := 0; env_gas_limit := limit; block_number := 1000;
  coinbase := 555; timestamp := 1700000000; prev_randao := Some 77; chain_id := 1;
  base_fee_per_gas := 7; gas_price := 10; block_excess_blob_gas := Some 0;
  block_blob_gas_used := Some 0; tx_blob_hashes := []; tx_max_priority_fee_per_gas := None;
  tx_max_fee_per_gas := None; tx_max_fee_per_blob_gas := None; block_gas_limit := 30000000;
  transient_storage := ∅;
|}.

(** A database: the sender 100 with funds, and contracts by address. *)
Definition demo_db (contracts : list (Z * list Z)) : Database := {|
  get_account_info a :=
    if a =? 100 then {| balance := 10 ^ 18; bytecode := []; nonce := 3 |}
    else {| balance := 50; bytecode := default [] (list_to_map (M := gmap Z (list Z)) contracts !! a);
            nonce := 0 |};
  get_storage_slot a k := if k =? 1 then 11 else 0;
  get_block_hash n := if n <? 1000 then Some (n * 3 + 1) else None;
|}.

Definition demo_substate : Substate := {|
  selfdestruct_set := ∅; touched_accounts := ∅; touched_storage_slots := ∅;
  created_accounts := ∅;
|}.

Definition demo_vm (limit : Z) (contracts : list (Z * list Z)) : VM := {|
  call_frames := []; env := demo_env limit; accrued_substate := demo_substate;
  db := demo_db contracts; cache := ∅; tx_kind := Call 42; access_list := [];
|}.

(** A frame of account 42, called by 100, running [bytecode]. *)
Definition demo_frame (bytecode : list Z) (limit : Z) : CallFrame :=
  new_call_frame 100 42 42 bytecode 0 [] false limit 0 0 false.

Definition demo (bytecode : list Z) (limit : Z) : St := (demo_vm limit [], demo_frame bytecode limit).
