(* ===== verification/LevmLogic.v ===== *)
(** * LEVM: reasoning about the handlers

    [keeps R m]: whatever its outcome, [m] takes a state to one that [R]
    relates to it.  For a preorder [R] the rules below follow the syntax of the
    monad, so that the tactic [keeps] proves a handler from facts about its
    primitives, which are collected in the hint database [keeps].
    [within P m]: every outcome of [m] satisfies [P].  [charges m]: when [m]
    goes on with the next opcode, gas has been spent. *)

From stdpp Require Import base option list numbers gmap.
From S2P Require Import Prelude Rlp LevmState LevmMemory LevmGas LevmOpcodes LevmHost LevmArith.
From S2P Require Import LevmHandlers LevmSystem LevmVm.

Local Open Scope Z_scope.

Create HintDb keeps.

(** ** Relations between the state before and after *)

Definition keeps {S A} (R : S → S → Prop) (m : ST S A) : Prop := ∀ s, R s (m s).2.

Section Keeps.
Context {S : Type} (R : S → S → Prop) `{!PreOrder R}.

Lemma keeps_ret {A} (a : A) : keeps R (mret a).
Proof. intros s. reflexivity. Qed.

Lemma keeps_lift {A} (r : Result A) : keeps R (lift r).
Proof. intros s. reflexivity. Qed.

Lemma keeps_throw {A} e : keeps R (throw e : ST S A).
Proof. intros s. reflexivity. Qed.

Lemma keeps_gets {A} (f : S → A) : keeps R (gets f).
Proof. intros s. reflexivity. Qed.

Lemma keeps_modify (f : S → S) : (∀ s, R s (f s)) → keeps R (modify f).
Proof. intros Hf s. apply Hf. Qed.

Lemma keeps_bind {A B} (m : ST S A) (k : A → ST S B) :
  keeps R m → (∀ a, keeps R (k a)) → keeps R (m ≫= k).
Proof.
  intros Hm Hk s. specialize (Hm s). unfold mbind, st_bind.
  destruct (m s) as [[a| | |] s']; simpl in *; try done.
  etrans; [apply Hm|apply Hk].
Qed.

(** A continuation that may use the value of a fallible expression. *)
Lemma keeps_bind_lift {A B} (r : Result A) (k : A → ST S B) :
  (∀ a, r = Ok a → keeps R (k a)) → keeps R (lift r ≫= k).
Proof. intros Hk s. destruct r; simpl; try reflexivity. by apply Hk. Qed.

(** A continuation that may use the value read from the state. *)
Lemma keeps_bind_gets {A B} (f : S → A) (k : A → ST S B) :
  (∀ s, R s (k (f s) s).2) → keeps R (gets f ≫= k).
Proof. intros Hk s. apply Hk. Qed.

End Keeps.

(** A computation that succeeds, taken apart. *)
Lemma st_bind_Ok {S A B} (m : ST S A) (k : A → ST S B) s b s' :
  (m ≫= k) s = (Ok b, s') ↔ ∃ a s1, m s = (Ok a, s1) ∧ k a s1 = (Ok b, s').
Proof.
  unfold mbind, st_bind. destruct (m s) as [[a| | |] s1]; [|naive_solver..].
  split; [by eauto|]. by intros (?&?&[= <- <-]&?).
Qed.

Lemma keeps_Ok {S A} (R : S → S → Prop) (m : ST S A) s a s' :
  keeps R m → m s = (Ok a, s') → R s s'.
Proof. intros Hm E. specialize (Hm s). by rewrite E in Hm. Qed.

(** A relation on the frame, read on the whole state. *)
Definition both (Rv : VM → VM → Prop) (Rf : CallFrame → CallFrame → Prop) (s s' : St) : Prop :=
  Rv s.1 s'.1 ∧ Rf s.2 s'.2.

#[export] Instance both_preorder Rv Rf `{!PreOrder Rv, !PreOrder Rf} : PreOrder (both Rv Rf).
Proof.
  split; [intros [v f]; split; reflexivity|].
  intros [v1 f1] [v2 f2] [v3 f3] [??] [??]; split; simpl in *; etrans; eauto.
Qed.

(** No claim about the machine. *)
Definition any_vm (vm vm' : VM) : Prop := True.
#[export] Instance any_vm_preorder : PreOrder any_vm.
Proof. by split. Qed.

Section Both.
Context (Rv : VM → VM → Prop) (Rf : CallFrame → CallFrame → Prop) `{!PreOrder Rv, !PreOrder Rf}.

Lemma keeps_on_vm {A} (m : ST VM A) : keeps Rv m → keeps (both Rv Rf) (on_vm m).
Proof.
  intros Hm [v f]. specialize (Hm v). unfold on_vm; simpl. destruct (m v) as [r v']; simpl in *.
  by split.
Qed.

Lemma keeps_on_frame {A} (m : ST CallFrame A) : keeps Rf m → keeps (both Rv Rf) (on_frame m).
Proof.
  intros Hm [v f]. specialize (Hm f). unfold on_frame; simpl.
  destruct (m f) as [r f']; simpl in *. by split.
Qed.

Lemma keeps_upd_frame g : (∀ f, Rf f (g f)) → keeps (both Rv Rf) (upd_frame g).
Proof. intros Hg [v f]. split; [reflexivity|apply Hg]. Qed.

Lemma keeps_upd_vm g : (∀ v, Rv v (g v)) → keeps (both Rv Rf) (upd_vm g).
Proof. intros Hg [v f]. split; [apply Hg|reflexivity]. Qed.

End Both.

Ltac keeps_step :=
  match goal with
  | |- keeps _ (let x := _ in _) => cbv zeta
  | |- keeps _ (mret _) => apply keeps_ret; apply _
  | |- keeps _ (lift _) => apply keeps_lift; apply _
  | |- keeps _ (throw _) => apply keeps_throw; apply _
  | |- keeps _ (gets _) => apply keeps_gets; apply _
  | |- keeps _ (frame _) => apply keeps_gets; apply _
  | |- keeps _ (machine _) => apply keeps_gets; apply _
  | |- keeps _ _ => solve [auto 2 with keeps nocore]
  | |- keeps _ (lift _ ≫= _) => apply keeps_bind_lift; [apply _|intros ? ?]
  | |- keeps _ (_ ≫= _) => apply keeps_bind; [apply _| |intros ?]
  | |- keeps _ (if ?b then _ else _) => destruct b
  | |- keeps _ (let '(_, _) := ?p in _) => destruct p
  | |- keeps _ (match ?x with _ => _ end) => destruct x
  end.
Ltac keeps := repeat keeps_step.

(** ** Outcomes *)

Definition within {S A} (P : Result A → Prop) (m : ST S A) : Prop := ∀ s, P (m s).1.

Lemma within_bind {S A B} (m : ST S A) (k : A → ST S B) :
  within returns m → (∀ a, within returns (k a)) → within returns (m ≫= k).
Proof.
  intros Hm Hk s. specialize (Hm s). unfold mbind, st_bind.
  destruct (m s) as [[a| | |] s']; simpl in *; [apply Hk|done|destruct Hm|destruct Hm]; done.
Qed.

Lemma within_lift {S A} (r : Result A) : returns r → within (S:=S) returns (lift r).
Proof. by intros Hr s. Qed.

Lemma returns_Ok {E A} (a : A) : returns (Ok a : Outcome E A).
Proof. done. Qed.
Lemma returns_Err {E A} (e : E) : returns (Err e : Outcome E A).
Proof. done. Qed.
Lemma returns_ok_or {E A} (o : option A) (e : E) : returns (ok_or o e).
Proof. by destruct o. Qed.
Lemma returns_bind {E A B} (m : Outcome E A) (k : A → Outcome E B) :
  returns m → (∀ a, m = Ok a → returns (k a)) → returns (m ≫= k).
Proof. intros [??] Hk. destruct m; [by apply Hk|done..]. Qed.
Lemma returns_if {E A} (b : bool) (m n : Outcome E A) :
  returns m → returns n → returns (if b then m else n).
Proof. by destruct b. Qed.
#[export] Hint Resolve returns_Ok returns_Err returns_ok_or returns_if : ethrex.
