(* ===== verification/LevmFees.v ===== *)
(** * LEVM: the blob base fee

    [fake_exponential] of gas_cost.rs (on [u64]) and of block.rs (on [U256]):
    the loop ends on every input within a number of rounds that depends on the
    width only, and what it returns is the Taylor sum of EIP-4844. *)

From stdpp Require Import base option list numbers.
From S2P Require Import Prelude LevmState LevmMemory LevmGas LevmHandlers LevmLogic.

Local Open Scope Z_scope.

Section FakeExponential.
Variables (w : Z) (e : InternalError.t) (numerator denominator : Z).
Hypothesis Hw : 0 ≤ w.
Hypothesis Hn : 0 ≤ numerator.
Hypothesis Hd : 0 < denominator.

Notation loop := (Gas.fake_exponential_loop w e).
Notation next i accum := (accum * numerator / (denominator * i)).

(** One round either ends or continues with the next term. *)
Lemma loop_S fuel i output accum :
  0 < i → 0 ≤ output →
  (∀ o, 0 ≤ o → 0 < accum → output + accum < 2 ^ w → accum * numerator < 2 ^ w →
     returns (loop fuel numerator denominator (i + 1) o (next i accum))) →
  returns (loop (S fuel) numerator denominator i output accum).
Proof.
  intros Hi Ho0 IH. simpl. destruct (accum <=? 0) eqn:E; propify; [apply returns_Ok|].
  apply returns_bind; [apply returns_ok_or|]. intros o Ho.
  apply returns_bind; [apply returns_ok_or|]. intros mn Hmn.
  apply returns_bind; [apply returns_ok_or|]. intros md Hmd.
  apply returns_bind; [apply returns_ok_or|]. intros a Ha.
  apply returns_bind; [apply returns_ok_or|]. intros j Hj.
  unfold internal in *. outcome_inv. unfold in_u in *. apply IH; lia.
Qed.

(** Once the numerator is at most half of [denominator * i], the term halves. *)
Lemma loop_halving k : ∀ fuel i output accum,
  (k ≤ fuel)%nat → 0 < i → 0 ≤ output → 2 * numerator ≤ denominator * i →
  accum < 2 ^ Z.of_nat k → returns (loop fuel numerator denominator i output accum).
Proof.
  induction k as [|k IH]; intros fuel i output accum Hf Hi Ho Hle Ha.
  - destruct fuel; simpl; rewrite (proj2 (Z.leb_le accum 0)) by lia; apply returns_Ok.
  - destruct fuel as [|fuel]; [lia|].
    apply loop_S; [done..|]. intros o Ho' Hpos _ _. apply IH; [lia..|nia|].
    rewrite Nat2Z.inj_succ, Z.pow_succ_r in Ha by lia.
    apply Z.div_lt_upper_bound; [nia|]. nia.
Qed.

(** Until then there are at most [t] rounds. *)
Lemma loop_middle t : ∀ fuel i output accum,
  (t + Z.to_nat w ≤ fuel)%nat → 0 < i → 0 ≤ output →
  2 * numerator ≤ denominator * (i + Z.of_nat t) →
  accum < 2 ^ w → returns (loop fuel numerator denominator i output accum).
Proof.
  induction t as [|t IH]; intros fuel i output accum Hf Hi Ho Hle Ha.
  - apply (loop_halving (Z.to_nat w)); [lia..|by rewrite Z2Nat.id].
  - destruct fuel as [|fuel]; [lia|].
    apply loop_S; [done..|]. intros o Ho' Hpos _ Hmul. apply IH; [lia..|nia|].
    apply Z.div_lt_upper_bound; nia.
Qed.

(** While the numerator is at least twice [denominator * i] the term doubles,
    until it overflows. *)
Lemma loop_doubling k : ∀ fuel i output accum,
  (k < fuel)%nat → 0 < i → 0 ≤ output → 2 * denominator * (i + Z.of_nat k) ≤ numerator →
  2 ^ w ≤ accum * 2 ^ Z.of_nat k → returns (loop fuel numerator denominator i output accum).
Proof.
  induction k as [|k IH]; intros fuel i output accum Hf Hi Ho Hle Ha;
    (destruct fuel as [|fuel]; [lia|]); apply loop_S; try done; intros o Ho' Hpos Hsum _.
  - lia.
  - apply IH; [lia..|]. rewrite Nat2Z.inj_succ, Z.pow_succ_r in Ha by lia.
    assert (2 * accum ≤ next i accum) by (apply Z.div_le_lower_bound; nia).
    pose proof (Z.pow_pos_nonneg 2 (Z.of_nat k)). nia.
Qed.

Lemma fake_exponential_loop_returns output accum :
  0 ≤ output → accum < 2 ^ w →
  returns (loop (Gas.fake_exponential_fuel w) numerator denominator 1 output accum).
Proof.
  intros Ho Ha. unfold Gas.fake_exponential_fuel.
  destruct (decide (2 * denominator * (1 + w) ≤ numerator)) as [Hbig|Hsmall].
  - destruct (decide (accum ≤ 0)).
    { destruct (Z.to_nat _); simpl; rewrite (proj2 (Z.leb_le accum 0)) by lia; apply returns_Ok. }
    apply (loop_doubling (Z.to_nat w)); rewrite ?Z2Nat.id by lia; [lia..|].
    pose proof (Z.pow_pos_nonneg 2 w). nia.
  - apply (loop_middle (Z.to_nat (4 * w + 4))); rewrite ?Z2Nat.id by lia; [lia..|nia|done].
Qed.

End FakeExponential.

(** Both uses of the loop return, whatever the factor and the numerator. *)
Lemma fake_exponential_w_returns w e factor numerator denominator :
  0 ≤ w → 0 ≤ denominator →
  returns (Gas.fake_exponential_w w e factor numerator denominator).
Proof.
  intros Hw Hd. unfold Gas.fake_exponential_w.
  apply returns_bind; [apply returns_ok_or|]. intros accum Ha.
  apply returns_bind; [|intros; apply returns_ok_or].
  unfold internal in Ha. outcome_inv. unfold in_u in *.
  destruct (decide (denominator = 0)) as [->|].
  { rewrite Z.mul_0_r. destruct (Gas.fake_exponential_fuel w); simpl; apply returns_Ok. }
  destruct (decide (0 ≤ numerator)); [apply fake_exponential_loop_returns; lia|].
  unfold Gas.fake_exponential_fuel. replace (Z.to_nat (5 * w + 8)) with (S (Z.to_nat (5 * w + 7)))
    by lia. simpl. destruct (_ <=? 0) eqn:E; propify; [apply returns_Ok|].
  apply returns_bind; [apply returns_ok_or|]. intros o Ho.
  rewrite (checked_mul_None w _ numerator) by (unfold in_u; nia). apply returns_Err.
Qed.

(** ** The sum of EIP-4844 *)

Section Taylor.
Variables (factor numerator denominator : Z).

(** The terms, in unbounded integers. *)
Fixpoint term (k : nat) : Z :=
  match k with
  | O => factor * denominator
  | S k => term k * numerator / (denominator * (Z.of_nat k + 1))
  end.

Fixpoint sum_terms (k : nat) : Z :=
  match k with O => 0 | S k => sum_terms k + term k end.

Lemma term_nonneg k : 0 ≤ factor → 0 ≤ numerator → 0 < denominator → 0 ≤ term k.
Proof. intros. induction k; simpl; [nia|]. apply Z.div_pos; nia. Qed.

Lemma loop_sum w e fuel : ∀ k r,
  Gas.fake_exponential_loop w e fuel numerator denominator (Z.of_nat k + 1) (sum_terms k) (term k)
    = Ok r →
  ∃ n, term n ≤ 0 ∧ r = sum_terms n.
Proof.
  induction fuel as [|fuel IH]; intros k r H.
  - simpl in H. destruct (term k <=? 0) eqn:E; propify; [|done]. injection H as <-. eauto.
  - simpl in H. destruct (term k <=? 0) eqn:E; propify; [injection H as <-; eauto|].
    unfold internal in H. outcome_inv. apply (IH (S k)).
    rewrite Nat2Z.inj_succ. unfold Z.succ. done.
Qed.

End Taylor.

(** C13: the blob base fee is always computed, and it is EIP-4844's: on every
    input of its width [fake_exponential] returns (the loop ends within the
    fuel of the model), and a successful result is the sum of the terms
    [factor * (numerator/denominator)^k / k!], rounded down step by step, up to
    the first term that vanishes. *)
Theorem fake_exponential_correct factor numerator denominator :
  in_u 64 factor → in_u 64 numerator → in_u 64 denominator →
  returns (Gas.fake_exponential factor numerator denominator) ∧
  ∀ r, Gas.fake_exponential factor numerator denominator = Ok r →
    0 < denominator ∧
    ∃ n, term factor numerator denominator n = 0 ∧
         r = sum_terms factor numerator denominator n / denominator.
Proof.
  intros Hf Hn Hd. split; [apply fake_exponential_w_returns; unfold in_u in *; lia|].
  intros r H. unfold Gas.fake_exponential, Gas.fake_exponential_w, internal in H.
  outcome_inv. unfold in_u in *. assert (0 < denominator) as Hpos by lia. split; [done|].
  apply (loop_sum factor numerator denominator _ _ _ 0) in H1 as (n & Hterm & ->).
  exists n. split; [|done]. pose proof (term_nonneg factor numerator denominator n). lia.
Qed.

Lemma fake_exponential_correct_witness :
  returns (Gas.fake_exponential 1 10000000 3338477) ∧
  Gas.fake_exponential 1 10000000 3338477 = Ok 19.
Proof.
  split; [apply (fake_exponential_correct 1 10000000 3338477); done|]. by vm_compute.
Defined.
