(* ===== verification/LevmMetering.v ===== *)
(** * LEVM: metering

    What every opcode does to its frame: the context (code, addresses, gas
    limit, ...) is constant, the gas meter only goes up and stays below the
    limit, the stack stays below 1024 words and the memory well-shaped.  The
    facts about the primitives are hints of the database [keeps]; the handlers
    follow by their structure. *)

From stdpp Require Import base option list numbers gmap.
From S2P Require Import Prelude Rlp LevmState LevmMemory LevmMemoryProofs LevmGas LevmOpcodes.
From S2P Require Import LevmHost LevmArith LevmHandlers LevmSystem LevmVm LevmLogic.

Local Open Scope Z_scope.

(** ** The invariant and the step relations *)

Definition frame_ok (f : CallFrame) : Prop :=
  0 ≤ gas_used f ≤ gas_limit f ∧ gas_limit f < 2 ^ 64 ∧
  len (stack f) ≤ STACK_LIMIT ∧ mem_ok (memory f).

(** The part of a frame that is fixed while it runs. *)
Definition context (f : CallFrame) :=
  (gas_limit f, msg_sender f, to f, code_address f, code f, msg_value f, calldata f,
   is_static f, depth f, valid_jump_destinations f, create_op_called f).

Definition frame_step (f f' : CallFrame) : Prop :=
  context f' = context f ∧
  (frame_ok f → frame_ok f' ∧ gas_used f ≤ gas_used f').

#[export] Instance frame_step_preorder : PreOrder frame_step.
Proof.
  split; [by intros f|].
  intros f1 f2 f3 [Hc1 H1] [Hc2 H2]. split; [by rewrite Hc2|].
  intros H. destruct (H1 H) as [H1' ?]. destruct (H2 H1') as [??]. split; [done|lia].
Qed.

(** The part of the machine that is fixed during a transaction: the database,
    the transaction and the environment apart from its two counters. *)
Definition fixed_env (e : Environment) : Environment :=
  set_refunded_gas 0 (set_transient_storage ∅ e).
Definition vm_fixed (vm : VM) := (db vm, tx_kind vm, access_list vm, fixed_env (env vm)).
Definition vm_step (vm vm' : VM) : Prop := vm_fixed vm' = vm_fixed vm.

#[export] Instance vm_step_preorder : PreOrder vm_step.
Proof. split; [by intros vm|]. unfold vm_step. intros ??? H1 H2. by rewrite H2. Qed.

Notation step := (both vm_step frame_step).

(** ** Primitives *)

(** A frame update whose effect on the invariant is arithmetic. *)
Ltac frame_arith :=
  lazymatch goal with |- both _ _ _ _ => split; [done|] | _ => idtac end;
  split; [done|]; intros (?&?&?&?); unfold frame_ok; simpl in *;
  autorewrite with ethrex in *; split_and!; try done; lia.

Lemma keeps_set_stack s :
  (∀ f, len (s f) ≤ Z.max (len (stack f)) STACK_LIMIT) →
  keeps step (upd_frame (λ f, set_stack (s f) f)).
Proof.
  intros Hs. apply keeps_upd_frame; [apply _|]. intros f. split; [done|].
  intros (?&?&?&?). specialize (Hs f). unfold frame_ok. simpl. split_and!; try done; lia.
Qed.

Lemma keeps_pop : keeps step pop.
Proof.
  intros [vm f]. unfold pop, frame, mbind, st_bind, gets. simpl.
  destruct (stack f) as [|x s] eqn:E; [reflexivity|].
  split; [done|]. split; [done|]. intros (?&?&Hs&?). simpl in *.
  rewrite E, len_cons in Hs. unfold frame_ok. simpl. split_and!; try done; lia.
Qed.

Lemma keeps_push v : keeps step (push v).
Proof.
  intros [vm f]. unfold push, frame, mbind, st_bind, gets. simpl.
  destruct (STACK_LIMIT <=? len (stack f)) eqn:E; [reflexivity|]. propify.
  frame_arith.
Qed.

Lemma keeps_increase_consumed_gas c : 0 ≤ c → keeps step (increase_consumed_gas c).
Proof.
  intros Hc [vm f]. unfold increase_consumed_gas, frame, mbind, st_bind, gets, lift. simpl.
  destruct (oog _ _) as [p| | |] eqn:E; try reflexivity. unfold oog in E. outcome_inv.
  destruct (gas_limit f <? gas_used f + c) eqn:E; [reflexivity|]. propify.
  frame_arith.
Qed.

Lemma keeps_increment_pc_by n : keeps step (increment_pc_by n).
Proof.
  unfold increment_pc_by. keeps. apply keeps_upd_frame; [apply _|]. by intros f.
Qed.

Lemma keeps_increment_pc : keeps step increment_pc.
Proof. apply keeps_increment_pc_by. Qed.

(** Updates of fields that the invariant does not mention. *)
Lemma keeps_set_pc n : keeps step (upd_frame (set_pc n)).
Proof. apply keeps_upd_frame; [apply _|]. by intros f. Qed.
Lemma keeps_set_output o : keeps step (upd_frame (set_output o)).
Proof. apply keeps_upd_frame; [apply _|]. by intros f. Qed.
Lemma keeps_set_sub_return_data o : keeps step (upd_frame (set_sub_return_data o)).
Proof. apply keeps_upd_frame; [apply _|]. by intros f. Qed.
Lemma keeps_set_logs g : keeps step (upd_frame (λ f, set_logs (g f) f)).
Proof. apply keeps_upd_frame; [apply _|]. by intros f. Qed.

#[export] Hint Resolve keeps_pop keeps_push keeps_increment_pc_by keeps_increment_pc keeps_set_pc
  keeps_set_output keeps_set_sub_return_data keeps_set_logs : keeps.

(** ** Memory *)

Definition mem_step (m m' : Memory) : Prop := mem_ok m → mem_ok m'.
#[export] Instance mem_step_preorder : PreOrder mem_step.
Proof. split; unfold mem_step; [by intros m ?|]. intros m1 m2 m3. naive_solver. Qed.

Lemma keeps_on_memory {A} (m : MM A) : keeps mem_step m → keeps step (on_memory m).
Proof.
  intros Hm. apply keeps_on_frame; [apply _|]. intros f. specialize (Hm (memory f)).
  destruct (m (memory f)) as [r mem']; simpl in *. split; [done|].
  intros (?&?&?&?). unfold frame_ok. simpl. split_and!; try done; try lia; by apply Hm.
Qed.

Lemma keeps_try_resize n : 0 ≤ n < 2 ^ 64 → keeps mem_step (try_resize n).
Proof.
  intros Hn mem Hm. rewrite try_resize_spec by done.
  destruct (n <=? MEM_LIMIT) eqn:E; propify; [by apply grow_ok|done].
Qed.

(** Writing a range that lies within the memory keeps its length. *)
Lemma mem_step_overwrite mem data off size :
  0 ≤ off → off + size ≤ len mem → mem_step mem (overwrite mem data off size).
Proof.
  intros Ho Hl Hm. destruct (decide (0 ≤ size)) as [Hs|Hs].
  - unfold mem_ok. rewrite len_overwrite; [done|..]; lia.
  - unfold overwrite. replace (Z.to_nat size) with 0%nat by lia. simpl.
    by rewrite Nat.add_0_r, take_drop.
Qed.

Lemma keeps_try_store data off size : keeps mem_step (try_store data off size).
Proof.
  unfold try_store. destruct (size =? 0); [keeps|].
  apply keeps_bind_lift; [apply _|]. intros o Ho. outcome_inv.
  apply keeps_bind_lift; [apply _|]. intros e He. outcome_inv. unfold in_u in *.
  apply keeps_bind_gets. intros mem. unfold id.
  destruct (len mem <? off + size) eqn:E; propify; [reflexivity|].
  apply mem_step_overwrite; lia.
Qed.

Lemma store_size_Ok off size n : store_size off size = Ok n → n = off + size ∧ 0 ≤ n < 2 ^ 64.
Proof. unfold store_size. intros H. outcome_inv. done. Qed.

Lemma keeps_load_range off size : keeps mem_step (load_range off size).
Proof.
  unfold load_range. destruct (size =? 0); [keeps|].
  apply keeps_bind_lift; [apply _|]. intros o Ho.
  apply keeps_bind_lift; [apply _|]. intros e He. outcome_inv. unfold in_u in *.
  apply keeps_bind; [apply _|by apply keeps_try_resize|]. intros _. keeps.
Qed.

Lemma keeps_load_word off : keeps mem_step (load_word off).
Proof. unfold load_word. apply keeps_bind; [apply _|apply keeps_load_range|]. intros. keeps. Qed.

Lemma keeps_store_with {A} off size (m : MM A) :
  keeps mem_step m →
  keeps mem_step (new_size ← lift (store_size off size); _ ← try_resize new_size; m).
Proof.
  intros Hm. apply keeps_bind_lift; [apply _|]. intros n Hn. apply store_size_Ok in Hn as [-> Hn].
  apply keeps_bind; [apply _|by apply keeps_try_resize|]. done.
Qed.

Lemma keeps_try_store_data off data : keeps mem_step (try_store_data off data).
Proof. apply keeps_store_with, keeps_try_store. Qed.

Lemma keeps_try_store_range off size data : keeps mem_step (try_store_range off size data).
Proof.
  unfold try_store_range. destruct (size =? 0); [keeps|].
  by apply keeps_store_with, keeps_try_store.
Qed.

Lemma keeps_try_copy_within src dst size : keeps mem_step (try_copy_within src dst size).
Proof.
  unfold try_copy_within. destruct (size =? 0) eqn:E; propify; [keeps|].
  apply keeps_bind_lift; [apply _|]. intros a Ha.
  apply keeps_bind_lift; [apply _|]. intros b Hb.
  apply keeps_bind_lift; [apply _|]. intros e He. outcome_inv. unfold in_u in *.
  intros mem Hm. unfold mbind, st_bind, lift, gets, modify. rewrite try_resize_spec by done.
  destruct (dst + size <=? MEM_LIMIT) eqn:El; propify; [|done]. simpl.
  assert (mem_ok (grow mem (dst + size))) as Hg by (by apply grow_ok).
  destruct (ok_or _ _); simpl; try done. unfold id.
  pose proof (round32_bounds (dst + size)).
  apply mem_step_overwrite; rewrite ?len_grow; (lia || done).
Qed.

#[export] Hint Resolve keeps_load_range keeps_load_word keeps_try_store_data keeps_try_store_range
  keeps_try_copy_within keeps_on_memory : keeps.

(** ** Accounts and the substate *)

Lemma keeps_set_cache c : keeps vm_step (modify (λ vm, set_cache (c vm) vm)).
Proof. by intros vm. Qed.
Lemma keeps_set_cache' c : keeps vm_step (modify (set_cache c)).
Proof. by intros vm. Qed.
Lemma keeps_set_substate s : keeps vm_step (modify (λ vm, set_substate (s vm) vm)).
Proof. by intros vm. Qed.
Lemma keeps_set_substate' s : keeps vm_step (modify (set_substate s)).
Proof. by intros vm. Qed.
#[export] Hint Resolve keeps_set_cache keeps_set_cache' keeps_set_substate keeps_set_substate'
  : keeps.

Lemma keeps_get_account a : keeps vm_step (get_account a).
Proof. unfold get_account. keeps. Qed.
Lemma keeps_get_account_mut a : keeps vm_step (get_account_mut a).
Proof. unfold get_account_mut. keeps. Qed.
Lemma keeps_put_account a acc : keeps vm_step (put_account a acc).
Proof. apply keeps_set_cache. Qed.
Lemma keeps_remove_account a : keeps vm_step (remove_account a).
Proof. apply keeps_set_cache. Qed.
#[export] Hint Resolve keeps_get_account keeps_get_account_mut keeps_put_account
  keeps_remove_account : keeps.

Lemma keeps_increase_account_balance a v : keeps vm_step (increase_account_balance a v).
Proof. unfold increase_account_balance. keeps. Qed.
Lemma keeps_decrease_account_balance a v : keeps vm_step (decrease_account_balance a v).
Proof. unfold decrease_account_balance. keeps. Qed.
Lemma keeps_increment_account_nonce a : keeps vm_step (increment_account_nonce a).
Proof. unfold increment_account_nonce. keeps. Qed.
Lemma keeps_update_account_bytecode a c : keeps vm_step (update_account_bytecode a c).
Proof. unfold update_account_bytecode. keeps. Qed.
Lemma keeps_update_account_storage a k v : keeps vm_step (update_account_storage a k v).
Proof. unfold update_account_storage. keeps. Qed.
Lemma keeps_access_account a : keeps vm_step (access_account a).
Proof. unfold access_account. keeps. Qed.
Lemma keeps_access_storage_slot a k : keeps vm_step (access_storage_slot a k).
Proof. unfold access_storage_slot. keeps. Qed.
#[export] Hint Resolve keeps_increase_account_balance keeps_decrease_account_balance
  keeps_increment_account_nonce keeps_update_account_bytecode keeps_update_account_storage
  keeps_access_account keeps_access_storage_slot : keeps.

Lemma keeps_step_on_vm {A} (m : ST VM A) : keeps vm_step m → keeps step (on_vm m).
Proof. apply keeps_on_vm. apply _. Qed.
Lemma keeps_step_upd_vm g : (∀ vm, vm_step vm (g vm)) → keeps step (upd_vm g).
Proof. apply keeps_upd_vm. apply _. Qed.
#[export] Hint Resolve keeps_step_on_vm : keeps.
#[export] Hint Extern 2 (keeps _ (upd_vm _)) => apply keeps_step_upd_vm; by intros ? : keeps.

(** ** Costs are positive *)

Create HintDb gas.

Lemma add_Ok a b c : Gas.add a b = Ok c → c = a + b ∧ 0 ≤ c < 2 ^ 64.
Proof. unfold Gas.add, oog. intros H. by outcome_inv. Qed.
Lemma mul_Ok a b c : Gas.mul a b = Ok c → c = a * b ∧ 0 ≤ c < 2 ^ 64.
Proof. unfold Gas.mul, oog. intros H. by outcome_inv. Qed.

Lemma default_access_cost_Ok b c :
  Gas.default_access_cost b = Ok c → c = if b then 2600 else 100.
Proof. destruct b; by intros [= <-]. Qed.

Lemma default_access_cost_pos b c : Gas.default_access_cost b = Ok c → 0 < c.
Proof. intros ->%default_access_cost_Ok. by destruct b. Qed.

(** Every summand of a cost is a [u64]; what is left is linear arithmetic. *)
Ltac gas_inv :=
  repeat match goal with
  | H : Gas.add _ _ = Ok _ |- _ => apply add_Ok in H as [-> ?]
  | H : Gas.mul _ _ = Ok _ |- _ => apply mul_Ok in H as [-> ?]
  | H : Gas.default_access_cost _ = Ok _ |- _ => apply default_access_cost_pos in H
  | _ => progress (unfold oog, internal in *; outcome_inv)
  end; unfold in_u in *.

Lemma exp_pos e c : Gas.exp e = Ok c → 0 < c.
Proof. unfold Gas.exp. intros H. gas_inv. unfold Gas.EXP_STATIC. lia. Qed.

Lemma copy_behavior_pos n m size base static c :
  0 < static → Gas.copy_behavior n m size base static = Ok c → 0 < c.
Proof. unfold Gas.copy_behavior. intros ? H. gas_inv. lia. Qed.

Lemma log_pos n m size t c : Gas.log n m size t = Ok c → 0 < c.
Proof. unfold Gas.log. intros H. gas_inv. unfold Gas.LOGN_STATIC in *. lia. Qed.

Lemma mem_expansion_behavior_pos n m static c :
  0 < static → Gas.mem_expansion_behavior n m static = Ok c → 0 < c.
Proof. unfold Gas.mem_expansion_behavior. intros ? H. gas_inv. lia. Qed.

Lemma sload_pos b c : Gas.sload b = Ok c → 0 < c.
Proof. destruct b; intros [= <-]; done. Qed.

Lemma sstore_pos slot v b f c : Gas.sstore slot v b f = Ok c → 0 < c.
Proof.
  unfold Gas.sstore. intros H. gas_inv. destruct (_ <=? _); [done|].
  repeat case_match; gas_inv; subst; vm_compute; congruence.
Qed.

Lemma mcopy_pos n m size c : Gas.mcopy n m size = Ok c → 0 < c.
Proof. unfold Gas.mcopy. intros H. gas_inv. unfold Gas.MCOPY_STATIC in *. lia. Qed.

Lemma compute_gas_create_pos n m size b c : Gas.compute_gas_create n m size b = Ok c → 0 < c.
Proof.
  unfold Gas.compute_gas_create. intros H. gas_inv. unfold Gas.CREATE_BASE_COST in *.
  destruct b; gas_inv; subst; unfold Gas.INIT_CODE_WORD_COST in *; lia.
Qed.

Lemma extcodecopy_pos size n m b c : Gas.extcodecopy size n m b = Ok c → 0 < c.
Proof.
  unfold Gas.extcodecopy, Gas.copy_behavior.
  change (Gas.address_access_cost b Gas.EXTCODECOPY_STATIC Gas.DEFAULT_COLD_DYNAMIC
            Gas.DEFAULT_WARM_DYNAMIC) with (Gas.default_access_cost b).
  intros H. gas_inv. lia.
Qed.

Lemma call_pos n m cold empty v c : Gas.call n m cold empty v = Ok c → 0 < c.
Proof.
  unfold Gas.call. intros H. gas_inv.
  destruct (v =? 0), empty; simpl in *; gas_inv; subst;
    unfold Gas.DEFAULT_STATIC, Gas.CALL_TO_EMPTY_ACCOUNT, Gas.CALL_POSITIVE_VALUE,
      Gas.CALL_POSITIVE_VALUE_STIPEND in *; lia.
Qed.

Lemma callcode_pos n m cold v c : Gas.callcode n m cold v = Ok c → 0 < c.
Proof.
  unfold Gas.callcode. intros H. gas_inv.
  destruct (v =? 0); simpl in *; gas_inv; subst;
    unfold Gas.DEFAULT_STATIC, Gas.CALLCODE_POSITIVE_VALUE,
      Gas.CALLCODE_POSITIVE_VALUE_STIPEND in *; lia.
Qed.

Lemma delegatecall_pos n m cold c : Gas.delegatecall n m cold = Ok c → 0 < c.
Proof.
  unfold Gas.delegatecall. intros H. gas_inv.
  unfold Gas.DEFAULT_STATIC in *. lia.
Qed.

Lemma staticcall_pos n m cold c : Gas.staticcall n m cold = Ok c → 0 < c.
Proof. apply delegatecall_pos. Qed.

Lemma selfdestruct_pos cold empty v c : Gas.selfdestruct cold empty v = Ok c → 0 < c.
Proof.
  unfold Gas.selfdestruct. destruct cold, empty, (0 <? v); simpl; intros H; gas_inv;
    subst; unfold Gas.SELFDESTRUCT_STATIC, Gas.SELFDESTRUCT_DYNAMIC,
      Gas.COLD_ADDRESS_ACCESS_COST in *; lia.
Qed.

(** The functions that only fix the constants of the ones above. *)
Lemma copy_family_pos n m size c :
  Gas.calldatacopy n m size = Ok c ∨ Gas.codecopy n m size = Ok c ∨
  Gas.returndatacopy n m size = Ok c ∨ Gas.keccak256 n m size = Ok c → 0 < c.
Proof. intros [H|[H|[H|H]]]; by eapply copy_behavior_pos, H. Qed.
Lemma mem_family_pos n m c :
  Gas.mload n m = Ok c ∨ Gas.mstore n m = Ok c ∨ Gas.mstore8 n m = Ok c → 0 < c.
Proof. intros [H|[H|H]]; by eapply mem_expansion_behavior_pos, H. Qed.
Lemma create_family_pos n m size c :
  Gas.create n m size = Ok c ∨ Gas.create_2 n m size = Ok c → 0 < c.
Proof. intros [H|H]; by eapply compute_gas_create_pos, H. Qed.
Lemma access_family_pos b c :
  Gas.balance b = Ok c ∨ Gas.extcodesize b = Ok c ∨ Gas.extcodehash b = Ok c → 0 < c.
Proof. intros [H|[H|H]]; by eapply default_access_cost_pos, H. Qed.

#[export] Hint Resolve exp_pos log_pos sload_pos sstore_pos mcopy_pos extcodecopy_pos call_pos
  callcode_pos delegatecall_pos staticcall_pos selfdestruct_pos : gas.

(** Solve [0 < c] for a constant or for the result of a cost function. *)
Ltac gas_positive :=
  match goal with
  | H : ?r = Ok ?c |- 0 < ?c =>
      first [ solve [eauto 2 with gas nocore]
            | solve [eapply copy_family_pos; eauto]
            | solve [eapply mem_family_pos; eauto]
            | solve [eapply create_family_pos; eauto]
            | solve [eapply access_family_pos; eauto] ]
  | |- _ => by vm_compute
  end.

Lemma conversion_nonneg x e c : internal (try_into 64 x) e = Ok c → 0 ≤ c.
Proof. unfold internal. intros H. outcome_inv. unfold in_u in *. subst. lia. Qed.

#[export] Hint Extern 1 (keeps _ (increase_consumed_gas _)) =>
  apply keeps_increase_consumed_gas;
  first [ apply Z.lt_le_incl; gas_positive | eapply conversion_nonneg; eassumption ] : keeps.

(** ** The handlers *)

Lemma keeps_push_continue v : keeps step (push_continue v).
Proof. unfold push_continue. keeps. Qed.
Lemma keeps_pop_usize : keeps step pop_usize.
Proof. unfold pop_usize. keeps. Qed.
#[export] Hint Resolve keeps_push_continue keeps_pop_usize : keeps.

Lemma keeps_push_env c f : 0 < c → keeps step (push_env c f).
Proof.
  intros. unfold push_env. apply keeps_bind; [apply _| |intros _; keeps].
  apply keeps_increase_consumed_gas. lia.
Qed.
Lemma keeps_copy_code src dst off size : keeps step (copy_code src dst off size).
Proof. unfold copy_code. keeps. Qed.
Lemma keeps_jump a : keeps step (jump a).
Proof. unfold jump. keeps. Qed.
Lemma keeps_pop_topics n : keeps step (pop_topics n).
Proof. induction n; simpl; keeps. Qed.
#[export] Hint Resolve keeps_copy_code keeps_jump keeps_pop_topics : keeps.
#[export] Hint Extern 1 (keeps _ (push_env _ _)) => apply keeps_push_env; by vm_compute : keeps.

Lemma keeps_op_push n : keeps step (op_push n).
Proof. unfold op_push. keeps. Qed.
Lemma keeps_op_dup n : keeps step (op_dup n).
Proof. unfold op_dup. keeps. Qed.
Lemma keeps_op_log n : keeps step (op_log n).
Proof. unfold op_log. keeps. Qed.

(** SWAP puts back a stack of the same length. *)
Lemma swap_at_length s depth s' : swap_at s depth = Ok s' → len s' = len s.
Proof.
  unfold swap_at, stack_swap. intros E. outcome_inv.
  destruct (len s <? depth); [done|]. outcome_inv. destruct (_ || _); [done|]. outcome_inv.
  subst. unfold len. by rewrite !length_insert.
Qed.

Lemma keeps_swap_stack {B} depth (m : M B) :
  keeps step m →
  keeps step (s ← frame stack; s ← lift (swap_at s depth); _ ← upd_frame (set_stack s); m).
Proof.
  intros Hm [vm f]. unfold frame, mbind, st_bind, gets, lift. simpl.
  destruct (swap_at (stack f) depth) as [s'| | |] eqn:E; simpl; try reflexivity.
  apply swap_at_length in E. etrans; [|apply Hm]. frame_arith.
Qed.
#[export] Hint Extern 1 (keeps _ (frame stack ≫= _)) =>
  apply keeps_swap_stack; apply keeps_ret; apply _ : keeps.
Lemma keeps_op_swap n : keeps step (op_swap n).
Proof. unfold op_swap. keeps. Qed.
#[export] Hint Resolve keeps_op_push keeps_op_dup keeps_op_log keeps_op_swap : keeps.

Ltac head t := lazymatch t with ?f _ => head f | _ => t end.
Ltac unfold_keeps :=
  match goal with |- keeps _ ?m => let h := head m in unfold h end.

(** The opcodes that run another context. *)
Definition calls (op : Opcode.t) : bool :=
  match op with
  | Opcode.CALL | Opcode.CALLCODE | Opcode.DELEGATECALL | Opcode.STATICCALL
  | Opcode.CREATE | Opcode.CREATE2 => true
  | _ => false
  end.

(** The handler of every opcode but the ones above. *)
Ltac dispatch_cases op :=
  destruct op; intros E; try discriminate E; clear E; unfold dispatch; cbv beta iota;
  repeat match goal with
  | |- context [Opcode.in_range ?a ?b ?c] =>
      let v := eval vm_compute in (Opcode.in_range a b c) in
      change (Opcode.in_range a b c) with v; cbv iota
  end.

Lemma keeps_dispatch `{Crypto} exec op :
  calls op = false → keeps step (dispatch exec op).
Proof.
  dispatch_cases op; first [solve [keeps] | unfold_keeps; solve [keeps]].
Qed.
