(* ===== verification/LevmAlu.v ===== *)
(** * LEVM: the arithmetic and bitwise opcodes compute what they should

    The handlers of arithmetic.rs and bitwise_comparison.rs shift by repeated
    doubling and halving, divide through absolute values and extend signs with
    masks.  Here each is compared with the mathematical function on integers:
    [alu] is the table of those functions, over words read as unsigned or, with
    [signed], as two's-complement numbers. *)

From stdpp Require Import base option list numbers gmap.
From S2P Require Import Prelude LevmState LevmMemory LevmMemoryProofs LevmGas LevmOpcodes.
From S2P Require Import LevmHost LevmArith LevmHandlers LevmSystem LevmVm LevmLogic LevmMetering.
From S2P Require Import LevmDemo.

Local Open Scope Z_scope.

Notation W := (2 ^ 256) (only parsing).
Notation word := (in_u 256) (only parsing).

(** ** Reference functions *)

(** The low [w] bits of a word as a two's-complement number. *)
Definition signed_at (w x : Z) : Z :=
  if x mod 2 ^ w <? 2 ^ (w - 1) then x mod 2 ^ w else x mod 2 ^ w - 2 ^ w.
Definition signed (x : Z) : Z := signed_at 256 x.

Inductive Instr :=
  | Unary (f : Z → Z)
  | Binary (f : Z → Z → Z)
  | Ternary (f : Z → Z → Z → Z).

(** What an instruction does to a stack, top first; [None] is an underflow. *)
Definition instr_run (i : Instr) (s : list Z) : option (list Z) :=
  match i, s with
  | Unary f, a :: s => Some (f a :: s)
  | Binary f, a :: b :: s => Some (f a b :: s)
  | Ternary f, a :: b :: c :: s => Some (f a b c :: s)
  | _, _ => None
  end.

Definition bit (b : bool) : Z := if b then 1 else 0.

(** Gas and function of the opcodes of fixed price. *)
Definition alu (op : Opcode.t) : option (Z * Instr) :=
  match op with
  | Opcode.ADD => Some (3, Binary (λ a b, (a + b) mod W))
  | Opcode.MUL => Some (5, Binary (λ a b, (a * b) mod W))
  | Opcode.SUB => Some (3, Binary (λ a b, (a - b) mod W))
  | Opcode.DIV => Some (5, Binary (λ a b, if b =? 0 then 0 else a / b))
  | Opcode.SDIV =>
      Some (5, Binary (λ a b, if b =? 0 then 0 else Z.quot (signed a) (signed b) mod W))
  | Opcode.MOD => Some (5, Binary (λ a b, if b =? 0 then 0 else a mod b))
  | Opcode.SMOD =>
      Some (5, Binary (λ a b, if b =? 0 then 0 else Z.rem (signed a) (signed b) mod W))
  | Opcode.ADDMOD => Some (8, Ternary (λ a b n, if n =? 0 then 0 else (a + b) mod n))
  | Opcode.MULMOD => Some (8, Ternary (λ a b n, if n =? 0 then 0 else (a * b) mod n))
  | Opcode.SIGNEXTEND =>
      Some (5, Binary (λ k x, if k <? 32 then signed_at (8 * (k + 1)) x mod W else x))
  | Opcode.LT => Some (3, Binary (λ a b, bit (a <? b)))
  | Opcode.GT => Some (3, Binary (λ a b, bit (b <? a)))
  | Opcode.SLT => Some (3, Binary (λ a b, bit (signed a <? signed b)))
  | Opcode.SGT => Some (3, Binary (λ a b, bit (signed b <? signed a)))
  | Opcode.EQ => Some (3, Binary (λ a b, bit (a =? b)))
  | Opcode.ISZERO => Some (3, Unary (λ a, bit (a =? 0)))
  | Opcode.AND => Some (3, Binary Z.land)
  | Opcode.OR => Some (3, Binary Z.lor)
  | Opcode.XOR => Some (3, Binary Z.lxor)
  | Opcode.NOT => Some (3, Unary (λ a, Z.lnot a mod W))
  | Opcode.BYTE => Some (3, Binary (λ i x, if i <? 32 then x / 256 ^ (31 - i) mod 256 else 0))
  | Opcode.SHL => Some (3, Binary (λ n x, if n <? 256 then (x * 2 ^ n) mod W else 0))
  | Opcode.SHR => Some (3, Binary (λ n x, x / 2 ^ n))
  | Opcode.SAR => Some (3, Binary (λ n x, (signed x / 2 ^ n) mod W))
  | _ => None
  end.

(** ** Words *)

Lemma is_negative_spec x : word x → is_negative x = (2 ^ 255 <=? x).
Proof.
  intros [H0 H1]. unfold is_negative. rewrite Z.testbit_eqb by done.
  assert (x / 2 ^ 255 = if 2 ^ 255 <=? x then 1 else 0) as ->.
  { symmetry. destruct (Z.leb_spec (2 ^ 255) x).
    - apply (Z.div_unique x (2 ^ 255) 1 (x - 2 ^ 255)); lia.
    - rewrite Z.div_small; lia. }
  by destruct (2 ^ 255 <=? x).
Qed.

Lemma signed_spec x : word x → signed x = if is_negative x then x - W else x.
Proof.
  intros Hx. rewrite is_negative_spec by done. destruct Hx as [H0 H1].
  unfold signed, signed_at. rewrite Z.mod_small by lia.
  destruct (Z.leb_spec (2 ^ 255) x), (Z.ltb_spec x (2 ^ (256 - 1))); try done; lia.
Qed.

Lemma negate_spec x : word x → negate x = (- x) mod W.
Proof.
  intros Hx. unfold negate, overflowing_add, wrap, u256_not, U256_MAX.
  replace (2 ^ 256 - 1 - x + 1) with (- x + 1 * 2 ^ 256) by lia. by rewrite Z_mod_plus_full.
Qed.

Lemma abs_spec x : word x → abs x = Z.abs (signed x).
Proof.
  intros Hx. rewrite signed_spec by done. unfold abs.
  pose proof (is_negative_spec x Hx) as Hn. destruct Hx.
  destruct (is_negative x); [|lia]. rewrite negate_spec by done.
  symmetry in Hn. apply Z.leb_le in Hn.
  rewrite <- (Z_mod_plus_full _ 1), Z.mod_small; lia.
Qed.

Lemma signed_bound x : word x → - 2 ^ 255 ≤ signed x < 2 ^ 255.
Proof.
  intros Hx. rewrite signed_spec by done. pose proof (is_negative_spec x Hx) as Hn.
  destruct Hx. destruct (is_negative x); symmetry in Hn.
  - apply Z.leb_le in Hn. lia.
  - apply Z.leb_gt in Hn. lia.
Qed.

Lemma signed_zero x : word x → signed x = 0 ↔ x = 0.
Proof.
  intros Hx. rewrite signed_spec by done. destruct Hx. destruct (is_negative x) eqn:E; [|done].
  rewrite is_negative_spec in E by done. apply Z.leb_le in E. lia.
Qed.

Lemma signed_neg x : word x → is_negative x = (signed x <? 0).
Proof.
  intros Hx. rewrite signed_spec by done. pose proof (is_negative_spec x Hx) as Hn. destruct Hx.
  destruct (is_negative x); lia.
Qed.

(** ** Shifts *)

Lemma shift_left_loop_spec n : ∀ x, word x →
  shift_left_loop n x = Ok ((x * 2 ^ Z.of_nat n) mod W).
Proof.
  induction n as [|n IH]; intros x Hx; simpl shift_left_loop.
  - rewrite Z.mul_1_r, Z.mod_small by done. done.
  - assert (∀ y, word y → (y = x * 2 ∨ y = x * 2 - W) →
      shift_left_loop n y = Ok ((x * 2 ^ Z.of_nat (S n)) mod W)) as Hy.
    { intros y Hw Hy. rewrite IH by done. f_equal. rewrite Nat2Z.inj_succ, Z.pow_succ_r by lia.
      destruct Hy as [->| ->]; [f_equal; lia|].
      replace ((x * 2 - W) * 2 ^ Z.of_nat n)
        with (x * (2 * 2 ^ Z.of_nat n) + (- 2 ^ Z.of_nat n) * W) by ring.
      apply Z_mod_plus_full. }
    destruct Hx as [H0 H1]. destruct (decide (x < 2 ^ 255)).
    + rewrite checked_mul_in by (unfold in_u; lia). apply Hy; unfold in_u; lia.
    + rewrite checked_mul_None by (unfold in_u; lia).
      change (checked_pow 256 2 255) with (Some (2 ^ 255)). simpl.
      rewrite checked_sub_in by (unfold in_u; lia). simpl.
      rewrite checked_mul_in by (unfold in_u; lia). apply Hy; unfold in_u; lia.
Qed.

Lemma checked_shift_left_spec x n : word x → 0 ≤ n →
  checked_shift_left x n = Ok ((x * 2 ^ n) mod W).
Proof. intros. unfold checked_shift_left. by rewrite shift_left_loop_spec, Z2Nat.id. Qed.

Lemma shift_right_loop_spec n : ∀ x, shift_right_loop n x = Ok (x / 2 ^ Z.of_nat n).
Proof.
  induction n as [|n IH]; intros x; simpl shift_right_loop; [by rewrite Z.div_1_r|].
  unfold checked_div; simpl. rewrite IH, Nat2Z.inj_succ, Z.pow_succ_r by lia.
  by rewrite Z.div_div by lia.
Qed.

Lemma checked_shift_right_spec x n : 0 ≤ n → checked_shift_right x n = Ok (x / 2 ^ n).
Proof. intros. unfold checked_shift_right. by rewrite shift_right_loop_spec, Z2Nat.id. Qed.

(** Or-ing disjoint parts is adding them. *)
Lemma lor_high_low x y n : 0 ≤ n → 0 ≤ x < 2 ^ n → Z.lor x (y * 2 ^ n) = x + y * 2 ^ n.
Proof.
  intros Hn Hx. rewrite <- Z.add_lor_land.
  assert (Z.land x (y * 2 ^ n) = 0) as ->; [|lia].
  apply Z.bits_inj'. intros i Hi. rewrite Z.land_spec, Z.bits_0.
  destruct (decide (i < n)).
  - rewrite Z.mul_pow2_bits_low by done. apply andb_false_r.
  - rewrite <- (Z.mod_small x (2 ^ n)), Z.mod_pow2_bits_high by lia. done.
Qed.

Lemma arithmetic_shift_right_spec x n : word x → 0 ≤ n < 256 →
  arithmetic_shift_right x n = Ok ((signed x / 2 ^ n) mod W).
Proof.
  intros Hx Hn. pose proof (is_negative_spec x Hx) as Hneg. unfold arithmetic_shift_right.
  rewrite signed_spec by done. destruct Hx as [H0 H1].
  assert (2 ^ n * 2 ^ (256 - n) = W) as Hp by (rewrite <- Z.pow_add_r by lia; f_equal; lia).
  assert (0 < 2 ^ n) by lia. assert (0 < 2 ^ (256 - n)) by lia.
  assert (0 ≤ x / 2 ^ n < 2 ^ (256 - n)) as Hd.
  { split; [apply Z.div_pos; lia|]. apply Z.div_lt_upper_bound; lia. }
  rewrite checked_shift_right_spec by lia. destruct (is_negative x); simpl.
  - rewrite checked_sub_in by (unfold in_u; lia). simpl.
    rewrite checked_shift_left_spec by (unfold U256_MAX, in_u; lia). simpl. f_equal.
    replace (U256_MAX * 2 ^ (256 - n)) with
      ((2 ^ n - 1) * 2 ^ (256 - n) + (2 ^ (256 - n) - 1) * W)
      by (unfold U256_MAX; rewrite <- Hp; ring).
    rewrite Z_mod_plus_full, Z.mod_small by nia.
    rewrite lor_high_low by lia. replace (x - W) with (x + (- 2 ^ (256 - n)) * 2 ^ n) by lia.
    rewrite Z.div_add by lia. rewrite <- (Z_mod_plus_full _ 1), Z.mod_small; nia.
  - f_equal. symmetry. apply Z.mod_small. nia.
Qed.

(** A shift by 256 or more, which the handler treats apart. *)
Lemma sar_large x n : word x → 256 ≤ n →
  (signed x / 2 ^ n) mod W = if is_negative x then U256_MAX else 0.
Proof.
  intros Hx Hn. pose proof (signed_bound x Hx) as Hb. rewrite signed_neg by done.
  assert (2 ^ 255 ≤ 2 ^ n) by (apply Z.pow_le_mono_r; lia).
  destruct (Z.ltb_spec (signed x) 0).
  - rewrite <- (Z.div_unique (signed x) (2 ^ n) (-1) (signed x + 2 ^ n)); [done|lia|lia].
  - by rewrite Z.div_small by lia.
Qed.

(** ** Sign extension *)

Lemma mod_split x n : 0 ≤ n → x mod 2 ^ (n + 1) = x mod 2 ^ n + 2 ^ n * ((x / 2 ^ n) mod 2).
Proof. intros Hn. rewrite Z.pow_add_r, Z.rem_mul_r by lia. done. Qed.

Lemma lor_high_mask x n : word x → 0 ≤ n < 256 →
  Z.lor x (u256_not (2 ^ n - 1)) = x mod 2 ^ n + (W - 2 ^ n).
Proof.
  intros [H0 H1] Hn. unfold u256_not, U256_MAX.
  assert (2 ^ 256 - 2 ^ n = Z.ones (256 - n) * 2 ^ n) as Hm.
  { rewrite Z.ones_equiv. replace (2 ^ 256) with (2 ^ (256 - n) * 2 ^ n); [lia|].
    rewrite <- Z.pow_add_r by lia. f_equal. lia. }
  replace (2 ^ 256 - 1 - (2 ^ n - 1)) with (2 ^ 256 - 2 ^ n) by lia. rewrite Hm.
  rewrite <- lor_high_low by (try apply Z.mod_pos_bound; lia).
  apply Z.bits_inj'. intros i Hi. rewrite !Z.lor_spec. destruct (decide (i < n)).
  - by rewrite Z.mod_pow2_bits_low by lia.
  - rewrite Z.mul_pow2_bits by lia. rewrite Z.mod_pow2_bits_high by lia.
    destruct (decide (i < 256)).
    + rewrite Z.ones_spec_low by lia. apply orb_true_r.
    + rewrite <- (Z.mod_small x (2 ^ 256)), Z.mod_pow2_bits_high by lia. done.
Qed.

Lemma signextend_spec k x : word x → 0 ≤ k < 32 →
  signextend k x = Ok (signed_at (8 * (k + 1)) x mod W).
Proof.
  intros Hx Hk. unfold signextend. rewrite (checked_mul_in 256) by (unfold in_u; lia). simpl.
  rewrite checked_add_in by (unfold in_u; lia). cbn [ok_or internal mbind].
  set (n := 8 * k + 7). assert (0 ≤ n < 256) as Hn by lia.
  assert (2 ^ n < W) by (apply Z.pow_lt_mono_r; lia). assert (0 < 2 ^ n) by lia.
  simpl. rewrite checked_shift_right_spec by lia. simpl.
  rewrite checked_shift_left_spec by (unfold in_u; lia). simpl.
  rewrite Z.mul_1_l, (Z.mod_small (2 ^ n)) by lia.
  rewrite checked_sub_in by (unfold in_u; lia). simpl. f_equal. unfold signed_at.
  replace (8 * (k + 1)) with (n + 1) by lia. replace (n + 1 - 1) with n by lia.
  rewrite mod_split, Z.pow_add_r by lia.
  change (Z.land ?z 1) with (Z.land z (Z.ones 1)). rewrite Z.land_ones by lia.
  change (2 ^ 1) with 2. pose proof (Z.mod_pos_bound x (2 ^ n)) as Hlow.
  rewrite Zmod_even. destruct (Z.even (x / 2 ^ n)).
  - rewrite Z.eqb_refl, Z.mul_0_r, Z.add_0_r.
    replace (2 ^ n - 1) with (Z.ones n) by (rewrite Z.ones_equiv; lia).
    rewrite Z.land_ones by lia. rewrite (proj2 (Z.ltb_lt _ _)) by lia.
    rewrite (Z.mod_small (x mod 2 ^ n)) by lia. done.
  - change (1 =? 0) with false. cbv iota. rewrite lor_high_mask by done.
    rewrite (proj2 (Z.ltb_ge _ _)) by lia.
    rewrite Z.mul_1_r, <- (Z_mod_plus_full _ 1 W).
    rewrite (Z.mod_small (_ + 1 * W)) by lia. lia.
Qed.

(** ** Signed division and comparison *)

Lemma quot_abs a b : b ≠ 0 →
  Z.quot a b = if xorb (a <? 0) (b <? 0) then - (Z.abs a / Z.abs b) else Z.abs a / Z.abs b.
Proof.
  intros Hb. rewrite <- Z.quot_div_nonneg by lia. rewrite Z.quot_abs by done.
  destruct (Z.ltb_spec a 0), (Z.ltb_spec b 0); simpl.
  - rewrite Z.abs_eq; [done|]. rewrite <- Z.quot_opp_opp by done. apply Z.quot_pos; lia.
  - assert (Z.quot a b ≤ 0); [|lia]. rewrite <- (Z.opp_involutive a), Z.quot_opp_l by done.
    pose proof (Z.quot_pos (- a) b). lia.
  - assert (Z.quot a b ≤ 0); [|lia]. rewrite <- (Z.opp_involutive b), Z.quot_opp_r by lia.
    pose proof (Z.quot_pos a (- b)). lia.
  - rewrite Z.abs_eq; [done|]. apply Z.quot_pos; lia.
Qed.

Lemma rem_abs a b : b ≠ 0 →
  Z.rem a b = if a <? 0 then - (Z.abs a mod Z.abs b) else Z.abs a mod Z.abs b.
Proof.
  intros Hb. rewrite <- Z.rem_mod_nonneg by lia. rewrite Z.rem_abs_r by done.
  destruct (Z.ltb_spec a 0).
  - rewrite Z.abs_neq, Z.rem_opp_l by lia. lia.
  - by rewrite Z.abs_eq.
Qed.

Lemma signed_ltb a b : word a → word b →
  (if Bool.eqb (is_negative a) (is_negative b) then u256_from_bool (a <? b)
   else u256_from_bool (is_negative a)) = bit (signed a <? signed b).
Proof.
  intros Ha Hb. rewrite !signed_spec by done. unfold u256_from_bool, bit.
  pose proof (is_negative_spec a Ha) as HA. pose proof (is_negative_spec b Hb) as HB.
  destruct Ha, Hb. destruct (is_negative a), (is_negative b); simpl;
    symmetry in HA, HB; repeat case_match; try done; lia.
Qed.

(** ** The handlers *)

(** What an opcode of cost [c] that computes [i] does in a state: it runs out
    of gas, or underflows the stack, or replaces its operands by the result. *)
Definition alu_outcome (c : Z) (i : Instr) (s : St) (o : Result OpcodeSuccess * St) : Prop :=
  if gas_limit s.2 <? gas_used s.2 + c then ∃ e, o.1 = Err (OutOfGas e)
  else match instr_run i (stack s.2) with
       | Some st => o = (Ok Continue, (s.1, set_stack st (set_gas_used (gas_used s.2 + c) s.2)))
       | None => o.1 = Err StackUnderflow
       end.

Lemma charge_run c s {A} (k : M A) :
  frame_ok s.2 → 0 ≤ c →
  (gas_limit s.2 <? gas_used s.2 + c = true ∧
   ∃ e, ((increase_consumed_gas c ≫= λ _, k) s).1 = Err (OutOfGas e)) ∨
  (gas_limit s.2 <? gas_used s.2 + c = false ∧
   (increase_consumed_gas c ≫= λ _, k) s = k (s.1, set_gas_used (gas_used s.2 + c) s.2)).
Proof.
  intros (?&?&_) Hc. destruct s as [v f]. simpl in *.
  unfold increase_consumed_gas, mbind, st_bind, frame, gets, lift. simpl.
  destruct (decide (in_u 64 (gas_used f + c))) as [Hin|Hout].
  - rewrite checked_add_in by done. simpl. destruct (Z.ltb_spec (gas_limit f) (gas_used f + c)).
    + left. split; [done|]. by eexists.
    + by right.
  - rewrite checked_add_None by done. left.
    split; [apply Z.ltb_lt; unfold in_u in Hout; lia|]. by eexists.
Qed.

Lemma push_continue_spec x s : len (stack s.2) < STACK_LIMIT →
  push_continue x s = (Ok Continue, (s.1, set_stack (x :: stack s.2) s.2)).
Proof.
  intros Hs. unfold push_continue, push, mbind, st_bind, frame, gets. simpl.
  destruct (Z.leb_spec STACK_LIMIT (len (stack s.2))); [lia|]. by destruct s.
Qed.

(** The proof of the three shapes: [k] is the handler after the charge. *)
Ltac alu_shape s c k :=
  intros Hk Hok Hst Hc; unfold alu_outcome;
  destruct (charge_run c s k Hok Hc) as [[-> ?]|[-> ->]]; [done|];
  destruct Hok as (_&_&Hlen&_); destruct s as [v f0]; simpl in *;
  unfold pop, frame, upd_frame, gets, modify, mbind, st_bind; simpl;
  destruct (stack f0) as [|? [|? [|? ?]]]; try done; simpl;
  rewrite ?Forall_cons in Hst; rewrite ?len_cons in Hlen; destruct_and?;
  rewrite Hk, push_continue_spec by (simpl; rewrite ?len_cons; done || lia); done.

Section Shapes.
Context (s : St) (c : Z).

Lemma alu_unary f (k : Z → M OpcodeSuccess) :
  (∀ a s', word a → k a s' = push_continue (f a) s') →
  frame_ok s.2 → Forall word (stack s.2) → 0 ≤ c →
  alu_outcome c (Unary f) s ((_ ← increase_consumed_gas c; a ← pop; k a) s).
Proof. alu_shape s c (a ← pop; k a). Qed.

Lemma alu_binary f (k : Z → Z → M OpcodeSuccess) :
  (∀ a b s', word a → word b → k a b s' = push_continue (f a b) s') →
  frame_ok s.2 → Forall word (stack s.2) → 0 ≤ c →
  alu_outcome c (Binary f) s ((_ ← increase_consumed_gas c; a ← pop; b ← pop; k a b) s).
Proof. alu_shape s c (a ← pop; b ← pop; k a b). Qed.

Lemma alu_ternary f (k : Z → Z → Z → M OpcodeSuccess) :
  (∀ a b d s', word a → word b → word d → k a b d s' = push_continue (f a b d) s') →
  frame_ok s.2 → Forall word (stack s.2) → 0 ≤ c →
  alu_outcome c (Ternary f) s
    ((_ ← increase_consumed_gas c; a ← pop; b ← pop; d ← pop; k a b d) s).
Proof. alu_shape s c (a ← pop; b ← pop; d ← pop; k a b d). Qed.

End Shapes.

Lemma sdiv_spec a b : word a → word b →
  (if (b =? 0) || (a =? 0) then 0
   else match checked_div (abs a) (abs b) with
        | Some q => if xorb (is_negative a) (is_negative b) then negate q else q
        | None => 0
        end) = if b =? 0 then 0 else Z.quot (signed a) (signed b) mod W.
Proof.
  intros Ha Hb. destruct (Z.eqb_spec b 0) as [|Hb0]; [done|].
  assert (signed b ≠ 0) as Hsb by (by rewrite signed_zero).
  destruct (Z.eqb_spec a 0) as [->|Ha0]; [done|]. simpl orb. cbv iota.
  unfold checked_div. rewrite !abs_spec, (proj2 (Z.eqb_neq _ _)) by (done || lia).
  rewrite !signed_neg, quot_abs by done.
  pose proof (signed_bound a Ha). pose proof (signed_bound b Hb).
  assert (0 ≤ Z.abs (signed a) / Z.abs (signed b) ≤ 2 ^ 255).
  { split; [apply Z.div_pos; lia|]. apply Z.div_le_upper_bound; nia. }
  destruct (xorb _ _); [by rewrite negate_spec by (unfold in_u; lia)|].
  rewrite (Z.mod_small (_ / _)); [done|lia].
Qed.

Lemma smod_spec a b : word a → word b → b ≠ 0 →
  (if is_negative a then negate (abs a mod abs b) else abs a mod abs b)
  = Z.rem (signed a) (signed b) mod W.
Proof.
  intros Ha Hb Hb0. assert (signed b ≠ 0) as Hsb by (by rewrite signed_zero).
  rewrite signed_neg, !abs_spec, rem_abs by done.
  pose proof (signed_bound b Hb).
  pose proof (Z.mod_pos_bound (Z.abs (signed a)) (Z.abs (signed b))).
  destruct (_ <? _); [by rewrite negate_spec by (unfold in_u; lia)|].
  rewrite (Z.mod_small (_ mod _)); [done|lia].
Qed.

Lemma byte_spec i x : 0 ≤ i < 32 → u256_byte x (31 - i) = x / 256 ^ (31 - i) mod 256.
Proof.
  intros Hi. unfold u256_byte. change 255 with (Z.ones 8). rewrite Z.land_ones by lia.
  rewrite Z.shiftr_div_pow2, Z.pow_mul_r by lia. done.
Qed.

Lemma not_spec x : word x → u256_not x = Z.lnot x mod W.
Proof.
  intros [??]. unfold u256_not, U256_MAX. rewrite <- (Z_mod_plus_full _ 1).
  rewrite Z.mod_small; unfold Z.lnot; lia.
Qed.

Lemma lift_Ok {A B} r (a : A) (k : A → M B) s : r = Ok a → (lift r ≫= k) s = k a s.
Proof. by intros ->. Qed.
Lemma lift_internal {A B} o e (a : A) (k : A → M B) s :
  o = Some a → (lift (internal o e) ≫= k) s = k a s.
Proof. by intros ->. Qed.

Section Handlers.
Context (s : St).

Lemma op_smod_k a b : word a → word b →
  (if (b =? 0) || (a =? 0) then push_continue 0
   else match checked_rem (abs a) (abs b) with
        | None => push_continue 0
        | Some r => push_continue (if is_negative a then negate r else r)
        end) s
  = push_continue (if b =? 0 then 0 else Z.rem (signed a) (signed b) mod W) s.
Proof.
  intros Ha Hb. destruct (Z.eqb_spec b 0) as [|Hb0]; [done|].
  assert (signed b ≠ 0) as Hsb by (by rewrite signed_zero).
  destruct (Z.eqb_spec a 0) as [->|Ha0]; [done|]. simpl orb. cbv iota.
  unfold checked_rem. rewrite (proj2 (Z.eqb_neq _ _)) by (rewrite abs_spec; done || lia).
  by rewrite smod_spec.
Qed.

(** The remainder of a sum or product computed in 512 bits. *)
Lemma wide_rem x n (k : Z → M OpcodeSuccess) : word n → n ≠ 0 →
  (rem ← lift (internal (checked_rem x n) InternalError.ArithmeticOperationOverflow);
   r ← lift (internal (try_into 256 rem) InternalError.ArithmeticOperationOverflow); k r) s
  = k (x mod n) s.
Proof.
  intros [??] Hn. pose proof (Z.mod_pos_bound x n).
  rewrite (lift_internal _ _ (x mod n))
    by (unfold checked_rem; by rewrite (proj2 (Z.eqb_neq _ _))).
  by rewrite (lift_internal _ _ (x mod n)) by (apply try_into_in; unfold in_u; lia).
Qed.

Lemma op_byte_k i x : word i →
  (match try_into 64 i with
   | None => push_continue 0
   | Some byte_index =>
       if byte_index <? Gas.WORD_SIZE then
         rest ← lift (internal (checked_sub 64 Gas.WORD_SIZE byte_index)
                        InternalError.ArithmeticOperationUnderflow);
         byte_to_push ← lift (internal (checked_sub 64 rest 1)
                                InternalError.ArithmeticOperationUnderflow);
         push_continue (u256_byte x byte_to_push)
       else push_continue 0
   end) s = push_continue (if i <? 32 then x / 256 ^ (31 - i) mod 256 else 0) s.
Proof.
  intros [H0 H1]. destruct (decide (in_u 64 i)) as [Hin|Hout].
  - rewrite try_into_in by done. change Gas.WORD_SIZE with 32. destruct (Z.ltb_spec i 32); [|done].
    rewrite (lift_internal _ _ (32 - i)) by (apply checked_sub_in; unfold in_u; lia).
    rewrite (lift_internal _ _ (32 - i - 1)) by (apply checked_sub_in; unfold in_u; lia).
    replace (32 - i - 1) with (31 - i) by lia. by rewrite byte_spec.
  - rewrite try_into_None by done. unfold in_u in Hout. by rewrite (proj2 (Z.ltb_ge _ _)) by lia.
Qed.

Lemma op_addmod_k a b n : word a → word b → word n →
  (if n =? 0 then push_continue 0
   else
     sum ← lift (internal (checked_add 512 a b) InternalError.ArithmeticOperationOverflow);
     rem ← lift (internal (checked_rem sum n) InternalError.ArithmeticOperationOverflow);
     sum_mod ← lift (internal (try_into 256 rem) InternalError.ArithmeticOperationOverflow);
     push_continue sum_mod) s
  = push_continue (if n =? 0 then 0 else (a + b) mod n) s.
Proof.
  intros Ha Hb Hn. destruct (Z.eqb_spec n 0); [done|].
  rewrite (lift_internal _ _ (a + b)); [by rewrite wide_rem|].
  apply checked_add_in. unfold in_u in *. lia.
Qed.

Lemma op_mulmod_k a b n : word a → word b → word n →
  (if (n =? 0) || (a =? 0) || (b =? 0) then push_continue 0
   else
     product ← lift (internal (checked_mul 512 a b) InternalError.ArithmeticOperationOverflow);
     rem ← lift (internal (checked_rem product n) InternalError.ArithmeticOperationOverflow);
     product_mod ← lift (internal (try_into 256 rem) InternalError.ArithmeticOperationOverflow);
     push_continue product_mod) s
  = push_continue (if n =? 0 then 0 else (a * b) mod n) s.
Proof.
  intros Ha Hb Hn. destruct (Z.eqb_spec n 0); [done|].
  destruct (Z.eqb_spec a 0) as [->|]; [by rewrite Z.mod_0_l|].
  destruct (Z.eqb_spec b 0) as [->|]; [by rewrite Z.mul_0_r, Z.mod_0_l|]. cbv [orb].
  rewrite (lift_internal _ _ (a * b)); [by rewrite wide_rem|].
  apply checked_mul_in. unfold in_u in *. change (2 ^ 512) with (2 ^ 256 * 2 ^ 256). nia.
Qed.

Lemma op_signextend_k k x : word k → word x →
  (if 31 <? k then push_continue x else result ← lift (signextend k x); push_continue result) s
  = push_continue (if k <? 32 then signed_at (8 * (k + 1)) x mod W else x) s.
Proof.
  intros [Hk _] Hx. destruct (Z.ltb_spec 31 k), (Z.ltb_spec k 32); try lia; [done|].
  by erewrite lift_Ok by (apply signextend_spec; done).
Qed.

Lemma op_shl_k n x : word n → word x →
  (if n <? 256 then result ← lift (checked_shift_left x n); push_continue result
   else push_continue 0) s
  = push_continue (if n <? 256 then (x * 2 ^ n) mod W else 0) s.
Proof.
  intros [Hn _] Hx. destruct (n <? 256); [|done].
  by erewrite lift_Ok by (by apply checked_shift_left_spec).
Qed.

Lemma op_shr_k n x : word n → word x →
  (if n <? 256 then result ← lift (checked_shift_right x n); push_continue result
   else push_continue 0) s = push_continue (x / 2 ^ n) s.
Proof.
  intros [Hn _] [Hx Hlt]. destruct (Z.ltb_spec n 256).
  - by erewrite lift_Ok by (by apply checked_shift_right_spec).
  - rewrite Z.div_small; [done|]. assert (2 ^ 256 ≤ 2 ^ n) by (apply Z.pow_le_mono_r; lia). lia.
Qed.

Lemma op_sar_k n x : word n → word x →
  (res ← lift (if n <? 256 then arithmetic_shift_right x n
               else Ok (if is_negative x then U256_MAX else 0)); push_continue res) s
  = push_continue ((signed x / 2 ^ n) mod W) s.
Proof.
  intros [Hn _] Hx. apply lift_Ok. destruct (Z.ltb_spec n 256).
  - by apply arithmetic_shift_right_spec.
  - by rewrite sar_large.
Qed.

End Handlers.

(** Every handler of the table is one of the three shapes over its function. *)
Lemma alu_dispatch exec op c i s :
  alu op = Some (c, i) → frame_ok s.2 → Forall word (stack s.2) →
  alu_outcome c i s (dispatch exec op s).
Proof.
  intros Ha Hok Hst. destruct op; try discriminate Ha; injection Ha as <- <-; unfold dispatch;
    match goal with |- alu_outcome _ _ _ (?o _) => unfold o end;
    first [apply alu_unary | apply alu_binary | apply alu_ternary]; try done; intros.
  all: try (by apply op_smod_k || by apply op_addmod_k || by apply op_mulmod_k).
  all: try (by apply op_signextend_k || by apply op_byte_k).
  all: try (by apply op_shl_k || by apply op_shr_k || by apply op_sar_k).
  - by unfold checked_div; destruct (_ =? 0).
  - rewrite <- sdiv_spec by done. by destruct (_ || _).
  - by unfold checked_rem; destruct (_ =? 0).
  - by rewrite signed_ltb.
  - rewrite <- signed_ltb by done. by destruct (is_negative a), (is_negative b).
  - by rewrite not_spec.
Qed.

Lemma word_mod x : word (x mod W).
Proof. by apply Z.mod_pos_bound. Qed.

Lemma word_bit b : word (bit b).
Proof. by destruct b. Qed.

Lemma word_bits x : (∀ i, 256 ≤ i → Z.testbit x i = false) → word x.
Proof.
  intros Hx. assert (x = x mod W) as ->; [|apply word_mod].
  apply Z.bits_inj'. intros i Hi. destruct (decide (i < 256)).
  - by rewrite Z.mod_pow2_bits_low.
  - rewrite Z.mod_pow2_bits_high by lia. apply Hx. lia.
Qed.

Lemma testbit_word x i : word x → 256 ≤ i → Z.testbit x i = false.
Proof. intros [??] Hi. rewrite <- (Z.mod_small x W) by done. by rewrite Z.mod_pow2_bits_high. Qed.

Lemma word_div x n : word x → 0 ≤ n → word (x / n).
Proof.
  intros [??] Hn. destruct (decide (n = 0)) as [->|]; [by rewrite Z.div_0_r|].
  split; [apply Z.div_pos; lia|]. apply Z.div_lt_upper_bound; nia.
Qed.

Lemma word_rem x n : word n → n ≠ 0 → word (x mod n).
Proof. intros [??] Hn. pose proof (Z.mod_pos_bound x n). unfold in_u. lia. Qed.

(** The functions of the table map words to words. *)
Lemma alu_words op c i s st :
  alu op = Some (c, i) → Forall word s → instr_run i s = Some st → Forall word st.
Proof.
  intros Ha Hs. destruct op; try discriminate Ha; injection Ha as <- <-;
    destruct s as [|x [|y [|z s]]]; intros Hst; try discriminate Hst; injection Hst as <-;
    rewrite ?Forall_cons in *; destruct_and?; split_and?; try done;
    repeat case_match; propify;
    try first [apply word_mod | apply word_bit | by apply word_div | by apply word_rem | done].
  all: try (apply word_bits; intros; rewrite ?Z.land_spec, ?Z.lor_spec, ?Z.lxor_spec;
            by rewrite !testbit_word).
  all: apply word_div; [done|]; unfold in_u in *; lia.
Qed.

(** C21: the arithmetic, comparison and bitwise opcodes.  For each opcode of
    [alu], in a frame that satisfies its invariant and has words on its stack,
    the handler charges the opcode's price and replaces its operands by the
    value of the mathematical function: wrap-around addition, subtraction and
    multiplication; truncated signed division and remainder of two's-complement
    numbers; modular sums and products without intermediate overflow; sign
    extension; comparisons; bit operations; shifts, also by 256 and more.  The
    loops and masks of the code agree with div, mod and powers of two.  Too
    little gas and too few operands are the only other outcomes. *)
Theorem alu_correct (exec : M TransactionReport) (op : Opcode.t) (c : Z) (i : Instr) (s : St) :
  alu op = Some (c, i) → frame_ok s.2 → Forall word (stack s.2) →
  alu_outcome c i s (dispatch exec op s) ∧
  (∀ st, instr_run i (stack s.2) = Some st → Forall word st).
Proof.
  intros Ha Hok Hst. split; [by apply alu_dispatch|].
  intros st. by eapply alu_words.
Qed.

Definition sdiv_state : St :=
  (demo_vm 100 [], set_stack [W - 7; 2; 1] (demo_frame [] 100)).

Lemma alu_correct_witness :
  dispatch (execute 0) Opcode.SDIV sdiv_state
  = (Ok Continue, (sdiv_state.1, set_stack [W - 3; 1] (set_gas_used 5 sdiv_state.2))).
Proof.
  assert (frame_ok sdiv_state.2) as Hok by (by vm_compute).
  assert (Forall word (stack sdiv_state.2)) as Hst by (repeat constructor; by vm_compute).
  destruct (alu_correct (execute 0) Opcode.SDIV 5 _ sdiv_state eq_refl Hok Hst) as [Ho _].
  exact Ho.
Defined.

(** ** EXP *)

(** The bytes of an exponent, without leading zeros. *)
Definition byte_size (x : Z) : Z := if x =? 0 then 0 else Z.log2 x / 8 + 1.

Lemma pow_pos_spec base e : pow_pos base e = base ^ Zpos e mod W.
Proof.
  induction e as [e IH|e IH|]; simpl pow_pos; unfold overflowing_mul, wrap.
  - rewrite IH, <- Zmult_mod, Zmult_mod_idemp_r. f_equal.
    rewrite Pos2Z.inj_xI, Z.pow_add_r, Z.pow_mul_r, Z.pow_1_r, Z.pow_2_r by lia.
    rewrite Z.pow_mul_l. ring.
  - rewrite IH, <- Zmult_mod. f_equal.
    rewrite Pos2Z.inj_xO, Z.pow_mul_r, Z.pow_2_r, Z.pow_mul_l by lia. ring.
  - by rewrite Z.pow_1_r.
Qed.

Lemma overflowing_pow_spec base e : 0 ≤ e → overflowing_pow base e = base ^ e mod W.
Proof. destruct e; [done|by rewrite <- pow_pos_spec|done]. Qed.

Lemma log2_word x : word x → 0 ≤ Z.log2 x < 256.
Proof.
  intros [H0 H1]. split; [apply Z.log2_nonneg|].
  destruct (decide (x = 0)) as [->|]; [done|]. apply Z.log2_lt_pow2; lia.
Qed.

Lemma exp_cost x : word x → Gas.exp x = Ok (10 + 50 * byte_size x).
Proof.
  intros Hx. pose proof (log2_word x Hx) as Hl. unfold Gas.exp, Gas.add, Gas.mul, Rlp.bits, byte_size, oog.
  assert (0 ≤ Z.log2 x / 8 < 32).
  { split; [apply Z.div_pos; lia|apply Z.div_lt_upper_bound; lia]. }
  destruct (Z.eqb_spec x 0); [done|].
  rewrite checked_add_in by (unfold in_u; lia). cbn [ok_or mbind outcome_bind].
  replace (Z.log2 x + 1 + 7) with (Z.log2 x + 1 * 8) by lia. rewrite Z.div_add by lia.
  rewrite try_into_in by (unfold in_u; lia). cbn [ok_or mbind outcome_bind].
  rewrite checked_mul_in by (unfold in_u, Gas.EXP_DYNAMIC_BASE; lia).
  cbn [ok_or mbind outcome_bind].
  rewrite checked_add_in by (unfold in_u, Gas.EXP_DYNAMIC_BASE, Gas.EXP_STATIC; lia). done.
Qed.

Lemma op_exp_run v f base exponent st c :
  stack f = base :: exponent :: st → Gas.exp exponent = Ok c →
  op_exp (v, f) = (increase_consumed_gas c ≫= λ _, push_continue (overflowing_pow base exponent))
                    (v, set_stack st f).
Proof.
  intros Hst Hc. unfold op_exp, pop, frame, upd_frame, gets, modify, lift, mbind, st_bind. simpl.
  rewrite Hst. simpl. by rewrite Hc.
Qed.

(** EXP.  With two operands on the stack, EXP charges 10 gas and 50 for
    each byte of the exponent and leaves base ^ exponent modulo 2^256, or runs
    out of gas; square-and-multiply agrees with the power of integers. *)
Theorem exp_correct (exec : M TransactionReport) (s : St) (base exponent : Z) (st : list Z) :
  frame_ok s.2 → stack s.2 = base :: exponent :: st → word exponent →
  alu_outcome (10 + 50 * byte_size exponent) (Binary (λ a b, a ^ b mod W)) s
    (dispatch exec Opcode.EXP s).
Proof.
  intros Hok Hst Hx. unfold dispatch, alu_outcome. destruct s as [v f]. simpl in *.
  assert (0 ≤ byte_size exponent) as Hb.
  { unfold byte_size. case_match; [done|]. pose proof (log2_word _ Hx).
    pose proof (Z.div_pos (Z.log2 exponent) 8). lia. }
  assert (frame_ok (set_stack st f) ∧ len st < STACK_LIMIT) as [Hok1 Hlen].
  { destruct Hok as (?&?&Hl&?). rewrite Hst, !len_cons in Hl. split; [split_and!|]; simpl; try done; lia. }
  rewrite (op_exp_run _ _ _ _ _ _ Hst (exp_cost _ Hx)), Hst.
  destruct (charge_run (10 + 50 * byte_size exponent) (v, set_stack st f)
    (push_continue (overflowing_pow base exponent)) Hok1) as [[E ?]|[E ->]];
    [lia|simpl in E; by rewrite E..|].
  simpl in E. rewrite E. rewrite push_continue_spec by done. simpl.
  rewrite overflowing_pow_spec by apply Hx. done.
Qed.

Definition exp_state : St := (demo_vm 200 [], set_stack [3; 258; 1] (demo_frame [] 200)).

Lemma exp_correct_witness :
  dispatch (execute 0) Opcode.EXP exp_state
  = (Ok Continue, (exp_state.1, set_stack [3 ^ 258 mod W; 1] (set_gas_used 110 exp_state.2))).
Proof.
  assert (frame_ok exp_state.2) as Hok by (by vm_compute).
  assert (word 258) as Hx by (by vm_compute).
  exact (exp_correct (execute 0) exp_state 3 258 [1] Hok eq_refl Hx).
Defined.
