(* ===== verification/LevmJumps.v ===== *)
(** * LEVM: jump destinations and control flow

    The analysis of vm.rs's [get_valid_jump_destinations] against an inductive
    definition of where instructions start, and the consequence for the
    interpreter: the program counter only ever stands at the start of an
    instruction, never inside the data of a PUSH. *)

From stdpp Require Import base option list numbers gmap.
From S2P Require Import Prelude LevmState LevmMemory LevmGas LevmOpcodes LevmHost LevmArith.
From S2P Require Import LevmHandlers LevmSystem LevmVm LevmDemo LevmLogic LevmMetering.

Local Open Scope Z_scope.

(** ** Where instructions start *)

Definition JUMPDEST_BYTE : Z := 0x5b.

(** The bytes of immediate data after an opcode. *)
Definition push_bytes (b : Z) : Z := if (0x60 <=? b) && (b <=? 0x7f) then b - 0x5f else 0.

(** [reach code p q]: reading instruction after instruction from [p] comes to
    [q].  Behind the last byte there are no instructions. *)
Inductive reach (code : list Z) : Z → Z → Prop :=
  | reach_here p : reach code p p
  | reach_next p b q :
      code !! Z.to_nat p = Some b → reach code (p + 1 + push_bytes b) q → reach code p q.

Definition instruction_at (code : list Z) (p : Z) : Prop := reach code 0 p.

Lemma reach_snoc code p q b :
  reach code p q → code !! Z.to_nat q = Some b → reach code p (q + 1 + push_bytes b).
Proof.
  induction 1 as [p|p b' q Hb' Hr IH]; intros Hb; (eapply reach_next; [done|]);
    [apply reach_here|by apply IH].
Qed.

Lemma push_bytes_bound b : byte b → 0 ≤ push_bytes b ≤ 32.
Proof. intros [??]. unfold push_bytes. case_match; propify; lia. Qed.

(** A fact about all bytes, by enumeration. *)
Lemma forall_byte (P : Z → bool) : forallb P (seqZ 0 256) = true → ∀ b, byte b → P b = true.
Proof. intros HP b [??]. rewrite forallb_forall in HP. apply HP, list_elem_of_In, elem_of_seqZ. lia. Qed.

Lemma from_jumpdest b : byte b →
  bool_decide (Opcode.from b = Opcode.JUMPDEST) = (b =? JUMPDEST_BYTE).
Proof.
  intros Hb. apply eqb_prop. revert b Hb. refine (forall_byte _ _). by vm_compute.
Qed.

Lemma from_push b : byte b →
  Opcode.in_range Opcode.PUSH1 Opcode.PUSH32 (Opcode.from b) = (0x60 <=? b) && (b <=? 0x7f).
Proof.
  intros Hb. apply eqb_prop. revert b Hb. refine (forall_byte _ _). by vm_compute.
Qed.

(** ** The analysis *)

Section Analysis.
Context (code : list Z) (Hbytes : bytes code) (Hlen : len code < 2 ^ 63).

Lemma byte_of p b : code !! Z.to_nat p = Some b → byte b ∧ (0 ≤ p → p < len code).
Proof.
  intros Hb. split; [by eapply Forall_lookup_1|].
  apply lookup_lt_Some in Hb. unfold len. lia.
Qed.

(** One round: the destination set and the next position. *)
Lemma jump_destinations_round fuel p b dests :
  0 ≤ p → code !! Z.to_nat p = Some b →
  jump_destinations_loop (S fuel) code p dests =
  jump_destinations_loop fuel code (p + 1 + push_bytes b)
    (if b =? JUMPDEST_BYTE then {[p]} ∪ dests else dests).
Proof.
  intros Hp Hb. destruct (byte_of p b Hb) as [Hbyte Hlt]. specialize (Hlt Hp).
  simpl jump_destinations_loop. rewrite Hb, from_jumpdest, from_push by done.
  unfold push_bytes, internal. destruct Hbyte. change (Opcode.to_u8 Opcode.PUSH1) with 0x60.
  destruct (Z.eqb_spec b JUMPDEST_BYTE) as [->|].
  - simpl. rewrite checked_add_in by (unfold in_u; lia). simpl. f_equal. lia.
  - destruct ((0x60 <=? b) && (b <=? 0x7f)) eqn:E; propify.
    + rewrite checked_sub_in by (unfold in_u; lia). simpl.
      rewrite checked_add_in by (unfold in_u; lia). simpl.
      rewrite checked_add_in by (unfold in_u; lia). simpl.
      rewrite checked_add_in by (unfold in_u; lia). simpl. f_equal. lia.
    + simpl. rewrite checked_add_in by (unfold in_u; lia). simpl. f_equal. lia.
Qed.

Lemma jump_destinations_loop_spec fuel : ∀ p dests,
  0 ≤ p → len code - p ≤ Z.of_nat fuel →
  ∃ d, jump_destinations_loop fuel code p dests = Ok d ∧
    ∀ q, q ∈ d ↔ q ∈ dests ∨ reach code p q ∧ code !! Z.to_nat q = Some JUMPDEST_BYTE.
Proof.
  induction fuel as [|fuel IH]; intros p dests Hp Hf;
    (destruct (code !! Z.to_nat p) as [b|] eqn:Hb; [|exists dests; split;
       [by simpl; rewrite Hb|]; intros q; split; [by left|]; intros [?|[Hr Hq]]; [done|];
       inversion Hr; congruence]).
  - destruct (byte_of p b Hb) as [_ Hlt]. specialize (Hlt Hp). lia.
  - rewrite (jump_destinations_round _ _ b) by done. destruct (byte_of p b Hb) as [Hbyte _].
    pose proof (push_bytes_bound b Hbyte).
    destruct (IH (p + 1 + push_bytes b) (if b =? JUMPDEST_BYTE then {[p]} ∪ dests else dests))
      as (d & -> & Hd); [lia|lia|]. exists d. split; [done|]. intros q. rewrite Hd.
    assert (reach code p q ↔ q = p ∨ reach code (p + 1 + push_bytes b) q) as ->.
    { split; [intros Hr; inversion Hr; [by left|right; congruence]|].
      intros [->|?]; [apply reach_here|by eapply reach_next]. }
    destruct (Z.eqb_spec b JUMPDEST_BYTE); set_solver.
Qed.

End Analysis.

(** C32: jump-destination analysis.  For every code a Rust vector can hold the
    scan ends without error, and a position is a valid destination exactly when
    an instruction starts there and the instruction is JUMPDEST; a 0x5b byte
    inside PUSH data is not one. *)
Theorem jump_destinations_correct (code : list Z) :
  bytes code → len code < 2 ^ 63 →
  ∃ d, get_valid_jump_destinations code = Ok d ∧
    ∀ p, p ∈ d ↔ instruction_at code p ∧ code !! Z.to_nat p = Some JUMPDEST_BYTE.
Proof.
  intros Hb Hl. unfold get_valid_jump_destinations.
  destruct (jump_destinations_loop_spec code Hb Hl (length code) 0 ∅) as (d & -> & Hd);
    [done|unfold len; lia|].
  exists d. split; [done|]. intros p. rewrite Hd. set_solver.
Qed.

(** 60 5b 5b: PUSH1 0x5b, JUMPDEST. *)
Lemma jump_destinations_correct_witness :
  ∃ d, get_valid_jump_destinations [0x60; 0x5b; 0x5b] = Ok d ∧
    ∀ p, p ∈ d ↔ instruction_at [0x60; 0x5b; 0x5b] p ∧
                 [0x60; 0x5b; 0x5b] !! Z.to_nat p = Some JUMPDEST_BYTE.
Proof.
  apply (jump_destinations_correct [0x60; 0x5b; 0x5b]); [repeat constructor; done|done].
Defined.

(** ** Control flow *)

(** The frame part that only control flow changes. *)
Definition sits (f f' : CallFrame) : Prop :=
  (pc f', code f', valid_jump_destinations f') = (pc f, code f, valid_jump_destinations f).
#[export] Instance sits_preorder : PreOrder sits.
Proof. split; [by intros f|]. unfold sits. intros ??? H1 H2. by rewrite H2. Qed.

Notation flow := (both any_vm sits).

Lemma flow_upd_vm g : keeps flow (upd_vm g).
Proof. apply keeps_upd_vm; [apply _|done]. Qed.
Lemma flow_on_vm {A} (m : ST VM A) : keeps flow (on_vm m).
Proof. apply keeps_on_vm; [apply _|done]. Qed.
Lemma flow_upd_frame g : (∀ f, sits f (g f)) → keeps flow (upd_frame g).
Proof. apply keeps_upd_frame; apply _. Qed.
Lemma flow_on_memory {A} (m : MM A) : keeps flow (on_memory m).
Proof.
  apply keeps_on_frame; [apply _|]. intros f. by destruct (m (memory f)) as [r mem'].
Qed.
Lemma flow_run_sub exec f : keeps flow (run_sub exec f).
Proof. intros s. unfold run_sub. by destruct (exec (s.1, f)) as [r [vm f']]. Qed.
#[local] Hint Resolve flow_upd_vm flow_on_vm flow_on_memory flow_run_sub : keeps.
#[local] Hint Extern 1 (keeps flow (upd_frame _)) =>
  apply flow_upd_frame; intros ?; reflexivity : keeps.

Lemma flow_pop : keeps flow pop.
Proof. unfold pop. keeps. Qed.
Lemma flow_push v : keeps flow (push v).
Proof. unfold push. keeps. Qed.
Lemma flow_increase c : keeps flow (increase_consumed_gas c).
Proof. unfold increase_consumed_gas. keeps. Qed.
#[local] Hint Resolve flow_pop flow_push flow_increase : keeps.
Lemma flow_pop_topics n : keeps flow (pop_topics n).
Proof. induction n as [|n IH]; simpl; keeps; apply IH. Qed.
#[local] Hint Resolve flow_pop_topics : keeps.

(** The opcodes that move the program counter themselves. *)
Definition moves (op : Opcode.t) : bool :=
  match op with Opcode.JUMP | Opcode.JUMPI => true | _ => false end
  || Opcode.in_range Opcode.PUSH1 Opcode.PUSH32 op.

Section Flow.
Context `{Crypto}.

Lemma flow_generic_call exec gl v a b c t st ao asz ro rs :
  keeps flow (generic_call exec gl v a b c t st ao asz ro rs).
Proof. unfold generic_call, push_continue. keeps. Qed.
Lemma flow_generic_create exec v off size salt :
  keeps flow (generic_create exec v off size salt).
Proof. unfold generic_create, push_continue. keeps. Qed.

Hint Resolve flow_generic_call flow_generic_create : keeps.

Lemma flow_dispatch exec op : moves op = false → keeps flow (dispatch exec op).
Proof. dispatch_cases op; repeat first [keeps_step | unfold_keeps]. Qed.

End Flow.

(** The interpreter stands at an instruction of its code. *)
Definition code_ok (f : CallFrame) : Prop :=
  bytes (code f) ∧ len (code f) < 2 ^ 63 ∧
  valid_jump_destinations f = jump_destinations_of (code f) ∧ instruction_at (code f) (pc f).

Lemma reach_bound cd p q : bytes cd → reach cd p q → 0 ≤ p ≤ len cd + 32 → 0 ≤ q ≤ len cd + 32.
Proof.
  intros Hb. induction 1 as [p|p b q Hp Hr IH]; [done|]. intros Hpos. apply IH.
  destruct (byte_of cd Hb p b Hp) as [Hby Hlt].
  pose proof (push_bytes_bound b Hby). specialize (Hlt (proj1 Hpos)). lia.
Qed.

Lemma code_ok_pc f : code_ok f → 0 ≤ pc f ≤ len (code f) + 32.
Proof.
  intros (Hb&_&_&Hi). eapply reach_bound; [done|exact Hi|]. pose proof (len_nonneg (code f)). lia.
Qed.

(** A frame that keeps its code and comes to an instruction is fine. *)
Lemma code_ok_at f f' p :
  code_ok f → instruction_at (code f) p → sits f (set_pc (pc f) f') → pc f' = p → code_ok f'.
Proof.
  intros (?&?&Hd&_) Hi [= Hc Hv] <-. unfold code_ok. by rewrite Hc, Hv, Hd.
Qed.

Lemma increment_pc_by_run n s :
  0 ≤ n ≤ 33 → 0 ≤ pc s.2 ≤ 2 ^ 63 + 64 →
  increment_pc_by n s = (Ok tt, (s.1, set_pc (pc s.2 + n) s.2)).
Proof.
  intros Hn Hp. unfold increment_pc_by, frame, upd_frame, gets, modify, lift, mbind, st_bind. simpl.
  rewrite checked_add_in by (unfold in_u; lia). by destruct s.
Qed.

Lemma valid_destination f p :
  code_ok f → p ∈ valid_jump_destinations f → instruction_at (code f) p.
Proof.
  intros (Hb&Hl&->&_). unfold jump_destinations_of, get_valid_jump_destinations.
  destruct (jump_destinations_loop_spec (code f) Hb Hl (length (code f)) 0 ∅) as (d & -> & Hd);
    [done|unfold len; lia|]. rewrite Hd. set_solver.
Qed.

Lemma jump_Ok a s u s' : jump a s = (Ok u, s') →
  s'.1 = s.1 ∧ s'.2 = set_pc a s.2 ∧ a ∈ valid_jump_destinations s.2.
Proof.
  unfold jump. rewrite st_bind_Ok. intros (p & s1 & Hp & Hk). injection Hp as Hp <-. outcome_inv.
  revert Hk. unfold frame, mbind, st_bind, gets, is_valid_jump_addr. simpl.
  case_bool_decide; [|done]. by intros [= _ <-].
Qed.

(** After a jump the frame stands at its destination; JUMPI without a jump
    moves on by one. *)
Lemma jump_flow f s s' a :
  code_ok f → sits f s.2 → jump a s = (Ok tt, s') → code_ok s'.2 ∧ code s'.2 = code f.
Proof.
  intros Hok [= Hp Hc Hd] (_ & Hs & Hin)%jump_Ok. rewrite Hs, Hd in *. split; [|done].
  apply (code_ok_at f _ a); [done|by apply valid_destination| |done].
  unfold sits. simpl. by rewrite Hc, Hd.
Qed.

Section ControlFlow.
Context `{Crypto}.

Lemma dispatch_push exec op :
  Opcode.in_range Opcode.PUSH1 Opcode.PUSH32 op = true →
  dispatch exec op = (n ← lift (get_n_value op Opcode.PUSH1); op_push n).
Proof. intros E. destruct op; try discriminate E; reflexivity. Qed.

Lemma push_u8 b : byte b →
  implb (Opcode.in_range Opcode.PUSH1 Opcode.PUSH32 (Opcode.from b))
    (Opcode.to_u8 (Opcode.from b) =? b) = true.
Proof. revert b. refine (forall_byte _ _). by vm_compute. Qed.

Lemma get_n_value_push b : byte b →
  Opcode.in_range Opcode.PUSH1 Opcode.PUSH32 (Opcode.from b) = true →
  get_n_value (Opcode.from b) Opcode.PUSH1 = Ok (push_bytes b) ∧ 0 < push_bytes b.
Proof.
  intros Hb Hr. pose proof (push_u8 b Hb) as Hu. rewrite Hr in Hu. apply Z.eqb_eq in Hu.
  rewrite from_push in Hr by done. unfold get_n_value, push_bytes. rewrite Hu, Hr.
  change (Opcode.to_u8 Opcode.PUSH1) with 0x60. propify.
  rewrite checked_sub_in by (unfold in_u; lia). simpl.
  rewrite checked_add_in by (unfold in_u; lia). simpl. split; [f_equal|]; lia.
Qed.

Lemma op_push_flow n s s' :
  0 ≤ n ≤ 32 → 0 ≤ pc s.2 ≤ 2 ^ 63 → op_push n s = (Ok Continue, s') →
  sits (set_pc (pc s.2 + n) s.2) s'.2.
Proof.
  intros Hn Hp. unfold op_push. rewrite st_bind_Ok. intros (u1 & s1 & H1 & Hk).
  apply (keeps_Ok flow) in H1 as [_ H1]; [|apply flow_increase]. revert Hk.
  rewrite !st_bind_Ok. setoid_rewrite st_bind_Ok. setoid_rewrite st_bind_Ok.
  setoid_rewrite st_bind_Ok.
  intros (f & s2 & [= <- <-] & r & s3 & [= _ <-] & w & s4 & [= _ <-] & u2 & s5 & H2 & Hk).
  apply (keeps_Ok flow) in H2 as [_ H2]; [|apply flow_push].
  apply st_bind_Ok in Hk as (u3 & s6 & Hi & Hr). injection Hr as <-.
  assert (sits s.2 s5.2) as Hs by (by etrans). injection Hs as Hpc Hc Hd.
  rewrite increment_pc_by_run in Hi by (rewrite ?Hpc; lia). injection Hi as _ <-.
  unfold sits. simpl. by rewrite Hpc, Hc, Hd.
Qed.

Lemma next_opcode_byte exec s s1 :
  bytes (code s.2) → dispatch exec (next_opcode s.2) s = (Ok Continue, s1) →
  ∃ b, code s.2 !! Z.to_nat (pc s.2) = Some b ∧ byte b ∧ next_opcode s.2 = Opcode.from b.
Proof.
  intros Hb. unfold next_opcode. destruct (code s.2 !! _) as [b|] eqn:E; [|done]. intros _.
  exists b. split_and!; [done| |done]. by eapply Forall_lookup_1.
Qed.

(** The opcodes that leave the program counter to the loop. *)
Lemma step_plain exec s s1 b :
  code_ok s.2 → code s.2 !! Z.to_nat (pc s.2) = Some b → byte b →
  moves (Opcode.from b) = false → dispatch exec (Opcode.from b) s = (Ok Continue, s1) →
  sits s.2 s1.2 ∧ increment_pc s1 = (Ok tt, (s1.1, set_pc (pc s.2 + 1) s1.2)) ∧
  instruction_at (code s.2) (pc s.2 + 1).
Proof.
  intros Hok Hb Hby Hm Hd. pose proof (code_ok_pc _ Hok) as Hpc. pose proof Hok as (_&Hl&_&Hi).
  apply (keeps_Ok flow) in Hd as [_ Hs]; [|by apply flow_dispatch].
  split; [done|]. injection Hs as Hp Hc Hv. split.
  - unfold increment_pc. rewrite increment_pc_by_run by (rewrite ?Hp; lia). by rewrite Hp.
  - pose proof (reach_snoc _ _ _ _ Hi Hb) as Hr. unfold moves in Hm.
    apply orb_false_iff in Hm as [_ Hr']. rewrite from_push in Hr' by done.
    unfold push_bytes in Hr. rewrite Hr', Z.add_0_r in Hr. done.
Qed.

Lemma step_push exec s s1 b :
  code_ok s.2 → code s.2 !! Z.to_nat (pc s.2) = Some b → byte b →
  Opcode.in_range Opcode.PUSH1 Opcode.PUSH32 (Opcode.from b) = true →
  dispatch exec (Opcode.from b) s = (Ok Continue, s1) →
  increment_pc s1 = (Ok tt, (s1.1, set_pc (pc s.2 + 1 + push_bytes b) s1.2)) ∧
  sits s.2 (set_pc (pc s.2) s1.2).
Proof.
  intros Hok Hb Hby Hr Hd. pose proof (code_ok_pc _ Hok) as Hpc. pose proof Hok as (Hbs&Hl&_&_).
  pose proof (push_bytes_bound b Hby). destruct (byte_of _ Hbs _ _ Hb) as [_ Hlt].
  specialize (Hlt (proj1 Hpc)). destruct (get_n_value_push b Hby Hr) as [Hn _].
  rewrite dispatch_push, Hn in Hd by done.
  apply (op_push_flow (push_bytes b) s) in Hd as Hs; [|lia..]. injection Hs as Hp Hc Hv.
  split; [|unfold sits; simpl; by rewrite Hc, Hv].
  unfold increment_pc. rewrite increment_pc_by_run by (rewrite ?Hp; lia). rewrite Hp.
  by replace (pc s.2 + push_bytes b + 1) with (pc s.2 + 1 + push_bytes b) by lia.
Qed.

Lemma step_jump s s1 : code_ok s.2 → op_jump s = (Ok Continue, s1) →
  code_ok s1.2 ∧ code s1.2 = code s.2.
Proof.
  intros Hok Hr. unfold op_jump in Hr. apply st_bind_Ok in Hr as (u & s2 & H1 & Hr).
  apply st_bind_Ok in Hr as (a & s3 & H2 & Hr). apply st_bind_Ok in Hr as ([] & s4 & Hj & Hr).
  injection Hr as <-. apply (keeps_Ok flow) in H1 as [_ H1]; [|apply flow_increase].
  apply (keeps_Ok flow) in H2 as [_ H2]; [|apply flow_pop].
  eapply jump_flow; [done| |done]. by etrans.
Qed.

Lemma step_jumpi s s1 b : code_ok s.2 → code s.2 !! Z.to_nat (pc s.2) = Some b →
  push_bytes b = 0 → op_jumpi s = (Ok Continue, s1) → code_ok s1.2 ∧ code s1.2 = code s.2.
Proof.
  intros Hok Hb Hpb. pose proof (code_ok_pc _ Hok) as Hpc. pose proof Hok as (_&Hl&_&Hi).
  intros Hr. unfold op_jumpi in Hr. apply st_bind_Ok in Hr as (a & s2 & H1 & Hr).
  apply st_bind_Ok in Hr as (c & s3 & H2 & Hr). apply st_bind_Ok in Hr as (u & s4 & H3 & Hr).
  apply st_bind_Ok in Hr as ([] & s5 & Hj & Hr). injection Hr as <-.
  apply (keeps_Ok flow) in H1 as [_ H1]; [|apply flow_pop].
  apply (keeps_Ok flow) in H2 as [_ H2]; [|apply flow_pop].
  apply (keeps_Ok flow) in H3 as [_ H3]; [|apply flow_increase].
  assert (sits s.2 s4.2) as Hs by (etrans; [done|by etrans]).
  destruct (negb _); [by eapply jump_flow|]. injection Hs as Hp Hc Hv. unfold increment_pc in Hj.
  rewrite increment_pc_by_run in Hj by (rewrite ?Hp; lia). injection Hj as <-. split; [|done].
  apply (code_ok_at s.2 _ (pc s.2 + 1)); [done| |unfold sits; simpl; by rewrite Hc, Hv|
    simpl; by rewrite Hp].
  pose proof (reach_snoc _ _ _ _ Hi Hb) as Hn. by rewrite Hpb, Z.add_0_r in Hn.
Qed.

(** C31: control flow stays on instructions.  A frame whose destinations were
    computed from its code and whose program counter stands at the start of an
    instruction is again such a frame when the loop continues after any opcode:
    PUSH skips its data, a jump lands on an analysed JUMPDEST, everything else
    moves by one.  The counter never overflows on the way. *)
Theorem control_flow_integrity exec (b : Backup) (k : M TransactionReport) (s s1 : St) :
  code_ok s.2 → dispatch exec (next_opcode s.2) s = (Ok Continue, s1) →
  ∃ s2, after_opcode (next_opcode s.2) (Ok Continue) b k s1 = k s2 ∧
        code_ok s2.2 ∧ code s2.2 = code s.2.
Proof.
  intros Hok Hd. pose proof Hok as (Hbs&_&_&Hi).
  destruct (next_opcode_byte exec s s1 Hbs Hd) as (byt & Hb & Hby & Hop). rewrite Hop in *.
  unfold after_opcode. destruct (moves (Opcode.from byt)) eqn:Hm.
  - unfold moves in Hm. pose proof (from_push byt Hby) as Hfp.
    destruct (Opcode.in_range _ _ _) eqn:Hr.
    + destruct (step_push exec s s1 byt) as [Hinc Hs]; try done.
      exists (s1.1, set_pc (pc s.2 + 1 + push_bytes byt) s1.2). split.
      * rewrite !bool_decide_eq_false_2 by (intros E; rewrite E in Hr; discriminate).
        cbv [orb]. unfold mbind, st_bind. by rewrite Hinc.
      * injection Hs as Hc Hv. split; [|done].
        eapply code_ok_at; [done|by apply reach_snoc|unfold sits; simpl; by rewrite Hc, Hv|done].
    + assert (push_bytes byt = 0) as Hpb by (unfold push_bytes; by rewrite <- Hfp).
      exists s1. destruct (Opcode.from byt) eqn:Eop; try discriminate Hm; (split; [done|]).
      * by apply step_jump.
      * by eapply step_jumpi.
  - destruct (step_plain exec s s1 byt) as (Hs & Hinc & Hn); try done.
    exists (s1.1, set_pc (pc s.2 + 1) s1.2). split.
    + rewrite !bool_decide_eq_false_2 by (intros E; rewrite E in Hm; discriminate).
      cbv [orb]. unfold mbind, st_bind. by rewrite Hinc.
    + injection Hs as Hp Hc Hv. split; [|done].
      eapply code_ok_at; [done|exact Hn|unfold sits; simpl; by rewrite Hc, Hv|done].
Qed.

End ControlFlow.

(** Every frame that the machine creates starts so. *)
Lemma code_ok_new a b c cd v d st gl gu dep cr :
  bytes cd → len cd < 2 ^ 63 → code_ok (new_call_frame a b c cd v d st gl gu dep cr).
Proof. intros Hb Hl. split_and!; [done..|apply reach_here]. Qed.

Definition push_state : St := demo [0x60; 0x5b; 0x5b] 100.

Lemma control_flow_integrity_witness :
  ∃ s1 s2, dispatch (execute 0) (next_opcode push_state.2) push_state = (Ok Continue, s1) ∧
    after_opcode (next_opcode push_state.2) (Ok Continue) (take_backup push_state.1)
      (end_report Success) s1 = end_report Success s2 ∧
    code_ok s2.2 ∧ code s2.2 = [0x60; 0x5b; 0x5b].
Proof.
  assert (code_ok push_state.2) as Hok.
  { apply code_ok_new; [repeat constructor; done|done]. }
  exists (push_state.1, set_pc 1 (set_stack [0x5b] (set_gas_used 3 push_state.2))).
  assert (dispatch (execute 0) (next_opcode push_state.2) push_state
    = (Ok Continue, (push_state.1, set_pc 1 (set_stack [0x5b] (set_gas_used 3 push_state.2)))))
    as Hd by (by vm_compute).
  destruct (control_flow_integrity (execute 0) (take_backup push_state.1) (end_report Success)
    push_state _ Hok Hd) as (s2 & Ha & Hc & Hcode).
  exists s2. split_and!; [exact Hd|exact Ha|exact Hc|exact Hcode].
Defined.
