(* ===== verification/LevmTermination.v ===== *)
(** * LEVM: termination, gas and panics

    Every opcode that continues spends gas; a sub-context never gets more gas
    than its caller has left; no handler panics.  So [execute] ends, with fuel
    for the remaining gas, and reports at most the gas limit of its frame. *)

From stdpp Require Import base option list numbers gmap.
From S2P Require Import Prelude Rlp LevmState LevmMemory LevmMemoryProofs LevmGas LevmOpcodes.
From S2P Require Import LevmHost LevmArith LevmHandlers LevmSystem LevmVm LevmLogic LevmFees.
From S2P Require Import LevmMetering.

Local Open Scope Z_scope.

(** ** Opcodes that continue have spent gas *)

Definition charges (m : M OpcodeSuccess) : Prop := ∀ s s',
  frame_ok s.2 → m s = (Ok Continue, s') → gas_used s.2 < gas_used s'.2.

Lemma charges_bind {A} (m : M A) k :
  keeps step m → (∀ a, charges (k a)) → charges (m ≫= k).
Proof.
  intros Hm Hk s s' Hok E. destruct (Hm s) as [_ [_ Hs]]. specialize (Hs Hok) as [Hok' Hle].
  unfold mbind, st_bind in E. destruct (m s) as [[a| | |] s1]; simpl in *; try discriminate E.
  specialize (Hk a s1 s' Hok' E). lia.
Qed.

Lemma charges_bind_lift {A} (r : Result A) k :
  (∀ a, r = Ok a → charges (k a)) → charges (lift r ≫= k).
Proof. intros Hk s s' Hok E. destruct r; try discriminate E. by apply (Hk a eq_refl s). Qed.

Lemma increase_consumed_gas_Ok c s s' :
  increase_consumed_gas c s = (Ok tt, s') →
  s' = (s.1, set_gas_used (gas_used s.2 + c) s.2) ∧ gas_used s.2 + c ≤ gas_limit s.2 ∧
  in_u 64 (gas_used s.2 + c).
Proof.
  unfold increase_consumed_gas, frame, mbind, st_bind, gets, lift. simpl.
  destruct (oog _ _) as [p| | |] eqn:E; try done. unfold oog in E. outcome_inv.
  destruct (_ <? _) eqn:E; [done|]. propify. by intros [= <-].
Qed.

Lemma charges_gas c k : 0 < c → (∀ a, keeps step (k a)) → charges (increase_consumed_gas c ≫= k).
Proof.
  intros Hc Hk s s' Hok E. unfold mbind, st_bind in E.
  destruct (increase_consumed_gas c s) as [[[]| | |] s1] eqn:E1; try discriminate E.
  apply increase_consumed_gas_Ok in E1 as (-> & Hle & Hu).
  destruct (Hk tt (s.1, set_gas_used (gas_used s.2 + c) s.2)) as [_ [_ Hs]]. rewrite E in Hs.
  simpl in Hs. destruct Hok as ((?&?)&?&?&?).
  destruct Hs as [_ Hs]; [|lia]. unfold frame_ok; simpl; split_and!; (done || lia).
Qed.

Lemma charges_push_env c f : 0 < c → charges (push_env c f).
Proof. intros. unfold push_env. apply charges_gas; [done|]. intros; keeps. Qed.

Lemma charges_throw e : charges (throw e).
Proof. by intros s s' _ E. Qed.
Lemma charges_result r : charges (mret (Result_ r)).
Proof. by intros s s' _ E. Qed.

Ltac charges_step :=
  match goal with
  | |- charges (throw _) => apply charges_throw
  | |- charges (mret (Result_ _)) => apply charges_result
  | |- charges (push_env _ _) => apply charges_push_env; by vm_compute
  | |- charges (increase_consumed_gas _ ≫= _) => apply charges_gas; [gas_positive|intros; keeps]
  | |- charges (lift _ ≫= _) => apply charges_bind_lift; intros ? ?
  | |- charges (_ ≫= _) => apply charges_bind; [keeps|intros ?]
  | |- charges (if ?b then _ else _) => destruct b
  | |- charges (let '(_, _) := ?p in _) => destruct p
  | |- charges (match ?x with _ => _ end) => destruct x
  | |- charges ?m => let h := head m in unfold h
  end.
Ltac charges := repeat charges_step.

Lemma charges_dispatch `{Crypto} exec op : calls op = false → charges (dispatch exec op).
Proof.
  dispatch_cases op; solve [charges].
Qed.

(** ** No panics *)

Create HintDb returns.

Ltac returns_step :=
  match goal with
  | |- returns (Ok _) => apply returns_Ok
  | |- returns (Err _) => apply returns_Err
  | |- returns (mret _) => apply returns_Ok
  | |- returns (ok_or _ _) => apply returns_ok_or
  | |- returns _ => solve [auto 2 with returns nocore]
  | |- returns (_ ≫= _) => apply returns_bind; [|intros ? ?]
  | |- returns (if ?b then _ else _) => destruct b
  | |- returns (match ?x with _ => _ end) => destruct x
  | |- returns ?m => let h := head m in unfold h
  end.
Ltac returns := repeat returns_step.

Lemma returns_shift_left n x : returns (shift_left_loop n x).
Proof. revert x. induction n; intros x; simpl; returns; auto. Qed.
Lemma returns_shift_right n x : returns (shift_right_loop n x).
Proof. revert x. induction n; intros x; simpl; returns; auto. Qed.
#[export] Hint Resolve returns_shift_left returns_shift_right : returns.

Definition total {S A} (m : ST S A) : Prop := ∀ s, returns (m s).1.

Lemma total_bind {S A B} (m : ST S A) (k : A → ST S B) :
  total m → (∀ a, total (k a)) → total (m ≫= k).
Proof.
  intros Hm Hk s. specialize (Hm s). unfold mbind, st_bind.
  destruct (m s) as [[a| | |] s']; simpl in *; [apply Hk|done|destruct Hm|destruct Hm]; done.
Qed.
Lemma total_lift {S A} (r : Result A) : returns r → total (S:=S) (lift r).
Proof. by intros Hr s. Qed.
Lemma total_gets {S A} (f : S → A) : total (gets f).
Proof. by intros s. Qed.
Lemma total_modify {S} (f : S → S) : total (modify f).
Proof. by intros s. Qed.
Lemma total_throw {S A} e : total (throw e : ST S A).
Proof. by intros s. Qed.
Lemma total_ret {S A} (a : A) : total (mret a : ST S A).
Proof. by intros s. Qed.

Ltac total_step :=
  match goal with
  | |- total (let x := _ in _) => cbv zeta
  | |- total (lift _) => apply total_lift; returns
  | |- total (gets _) => apply total_gets
  | |- total (modify _) => apply total_modify
  | |- total (throw _) => apply total_throw
  | |- total (mret _) => apply total_ret
  | |- total _ => solve [auto 1 with returns nocore]
  | |- total (_ ≫= _) => apply total_bind; [|intros ?]
  | |- total (if ?b then _ else _) => destruct b
  | |- total (let '(_, _) := ?p in _) => destruct p
  | |- total (match ?x with _ => _ end) => destruct x
  | |- total ?m => let h := head m in unfold h
  end.
Ltac total := repeat total_step.

(** [safe m]: from a frame in its invariant, [m] does not panic or run out of
    fuel. *)
Definition safe {A} (m : M A) : Prop := ∀ s, frame_ok s.2 → returns (m s).1.

Lemma safe_total {A} (m : M A) : total m → safe m.
Proof. intros Hm s _. apply Hm. Qed.

Lemma safe_on_vm {A} (m : ST VM A) : total m → safe (on_vm m).
Proof. intros Hm s _. specialize (Hm s.1). unfold on_vm. by destruct (m s.1). Qed.

Lemma safe_on_memory {A} (m : MM A) : total m → safe (on_memory m).
Proof.
  intros Hm s _. specialize (Hm (memory s.2)). unfold on_memory, on_frame.
  by destruct (m (memory s.2)).
Qed.

Lemma safe_bind {A B} (m : M A) (k : A → M B) :
  keeps step m → safe m → (∀ a, safe (k a)) → safe (m ≫= k).
Proof.
  intros Hk Hm Hs s Hok. destruct (Hk s) as [_ [_ Hok']]. specialize (Hm s Hok).
  unfold mbind, st_bind. specialize (Hok' Hok) as [Hok' _].
  destruct (m s) as [[a| | |] s']; simpl in *; [by apply Hs|done|destruct Hm|destruct Hm]; done.
Qed.

Lemma safe_bind_lift {A B} (r : Result A) (k : A → M B) :
  returns r → (∀ a, r = Ok a → safe (k a)) → safe (lift r ≫= k).
Proof. intros Hr Hk s Hok. destruct r; simpl; [by apply Hk|..]; try done; by destruct Hr. Qed.

Lemma safe_bind_memory {B} (k : Memory → M B) :
  (∀ mem, mem_ok mem → safe (k mem)) → safe (frame memory ≫= k).
Proof. intros Hk s Hok. apply (Hk (memory s.2)); [|done]. by destruct Hok as (?&?&?&?). Qed.

Lemma pop_usize_Ok s n s' : pop_usize s = (Ok n, s') → 0 ≤ n < 2 ^ 64.
Proof.
  unfold pop_usize, mbind, st_bind, lift. destruct (pop s) as [[x| | |] s1]; try done.
  simpl. destruct (ok_or _ _) eqn:E; [|done..]. intros [= <- <-]. by outcome_inv.
Qed.

Lemma safe_bind_pop_usize {B} (k : Z → M B) :
  (∀ n, 0 ≤ n < 2 ^ 64 → safe (k n)) → safe (pop_usize ≫= k).
Proof.
  intros Hk s Hok. destruct (keeps_pop_usize s) as [_ [_ Hok']]. specialize (Hok' Hok) as [Hok' _].
  unfold mbind, st_bind. destruct (pop_usize s) as [r s'] eqn:E. simpl in *.
  assert (total pop_usize) as Hr by total. specialize (Hr s). rewrite E in Hr.
  destruct r; simpl; [|done|by destruct Hr..].
  apply Hk; [|done]. by apply pop_usize_Ok in E.
Qed.

(** An allocation whose memory has been paid for is small. *)
Lemma zero_vec_returns off size n mem c :
  0 ≤ size < 2 ^ 64 → mem_ok mem → calculate_memory_size off size = Ok n →
  expansion_cost n (len mem) = Ok c → returns (zero_vec size).
Proof.
  intros Hs [_ Hm] Hn Hc. pose proof (len_nonneg mem).
  destruct (calculate_memory_size_Ok off size n) as [Hn64 Hoff]; [lia|done|].
  apply expansion_cost_Ok in Hc as [_ Hle]; [|unfold MEM_LIMIT in *; lia..].
  unfold zero_vec. destruct (2 ^ 63 - 1 <? size) eqn:E; propify; [|apply returns_Ok].
  unfold MEM_LIMIT, MAX_WORDS in *. lia.
Qed.

#[export] Hint Extern 1 (returns (Gas.fake_exponential_w _ _ _ _ _)) =>
  by apply fake_exponential_w_returns : returns.

Lemma total_pop_topics n : total (pop_topics n).
Proof. induction n; simpl; total; done. Qed.
#[export] Hint Resolve total_pop_topics : returns.

(** The cost of a copy includes the expansion. *)
Lemma copy_behavior_expansion n m size base static c :
  Gas.copy_behavior n m size base static = Ok c → ∃ e, expansion_cost n m = Ok e.
Proof. unfold Gas.copy_behavior. intros H. outcome_inv. eauto. Qed.
Lemma extcodecopy_expansion size n m b c :
  Gas.extcodecopy size n m b = Ok c → ∃ e, expansion_cost n m = Ok e.
Proof. unfold Gas.extcodecopy. intros H. outcome_inv. by eapply copy_behavior_expansion. Qed.

Ltac zero_vec :=
  match goal with
  | H : Gas.extcodecopy _ _ _ _ = Ok _ |- _ => apply extcodecopy_expansion in H as [??]
  | H : _ _ _ _ = Ok _ |- _ => apply copy_behavior_expansion in H as [??]
  end; eapply zero_vec_returns; eassumption.

Ltac safe_step :=
  match goal with
  | |- safe (on_vm _) => apply safe_on_vm; total
  | |- safe (on_memory _) => apply safe_on_memory; total
  | |- safe (frame memory ≫= _) => apply safe_bind_memory; intros ? ?
  | |- safe (pop_usize ≫= _) => apply safe_bind_pop_usize; intros ? ?
  | |- safe (lift (zero_vec _) ≫= _) =>
      apply safe_bind_lift; [zero_vec|intros ? ?]
  | |- safe (lift _ ≫= _) => apply safe_bind_lift; [returns|intros ? ?]
  | |- safe (_ ≫= _) => apply safe_bind; [keeps| |intros ?]
  | |- safe (if ?b then _ else _) => destruct b
  | |- safe (let '(_, _) := ?p in _) => destruct p
  | |- safe (match ?x with _ => _ end) => destruct x
  | |- safe ?m => solve [apply safe_total; total]
  | |- safe ?m => let h := head m in unfold h
  end.
Ltac safe := repeat safe_step.

Lemma safe_dispatch `{Crypto} exec op : calls op = false → safe (dispatch exec op).
Proof. dispatch_cases op; solve [safe]. Qed.

(** ** Sub-contexts *)

(** What an interpreter with [fuel] guarantees to a handler that calls it: for
    a fresh frame with less gas than fuel it returns, and reports at most the
    gas it was given. *)
Definition exec_ok (fuel : nat) (exec : M TransactionReport) : Prop := ∀ s,
  frame_ok s.2 → gas_used s.2 = 0 → gas_limit s.2 < Z.of_nat fuel →
  returns (exec s).1 ∧ vm_step s.1 (exec s).2.1 ∧
  ∀ report, (exec s).1 = Ok report → 0 ≤ report_gas_used report ≤ gas_limit s.2.

Definition remaining (f : CallFrame) : Z := gas_limit f - gas_used f.

Definition ready (fuel : nat) (s : St) : Prop :=
  frame_ok s.2 ∧ remaining s.2 < Z.of_nat fuel.

Lemma ready_step fuel s s' : ready fuel s → step s s' → ready fuel s'.
Proof.
  intros [Hok Hr] [_ [Hc Hs]]. destruct (Hs Hok) as [Hok' Hle]. split; [done|].
  assert (gas_limit s'.2 = gas_limit s.2) by (unfold context in Hc; congruence).
  unfold remaining in *. lia.
Qed.

(** From a ready state: returns, and moves along [step]. *)
Definition good (fuel : nat) {A} (m : M A) : Prop := ∀ s,
  ready fuel s → returns (m s).1 ∧ step s (m s).2.

Lemma good_intro fuel {A} (m : M A) : keeps step m → safe m → good fuel m.
Proof. intros Hk Hs s [Hok _]. split; [by apply Hs|apply Hk]. Qed.

Lemma good_bind fuel {A B} (m : M A) (k : A → M B) :
  good fuel m → (∀ a, good fuel (k a)) → good fuel (m ≫= k).
Proof.
  intros Hm Hk s Hs. destruct (Hm s Hs) as [Hr Hst]. unfold mbind, st_bind.
  pose proof (ready_step _ _ _ Hs Hst) as Hs'.
  destruct (m s) as [[a| | |] s']; simpl in *; [|by split|by destruct Hr..].
  destruct (Hk a s' Hs') as [??]. split; [done|]. by etrans.
Qed.

Lemma good_bind_lift fuel {A B} (r : Result A) (k : A → M B) :
  returns r → (∀ a, r = Ok a → good fuel (k a)) → good fuel (lift r ≫= k).
Proof.
  intros Hr Hk s Hs. destruct r; [by apply (Hk a eq_refl)| |by destruct Hr..].
  split; [done|reflexivity].
Qed.

(** An opcode of a caller with one unit of fuel more: it spends that unit. *)
Definition good_op (fuel : nat) (m : M OpcodeSuccess) : Prop := ∀ s,
  ready (S fuel) s →
  returns (m s).1 ∧ step s (m s).2 ∧
  ((m s).1 = Ok Continue → gas_used s.2 < gas_used (m s).2.2).

Lemma good_op_bind fuel {A} (m : M A) k :
  keeps step m → safe m → (∀ a, good_op fuel (k a)) → good_op fuel (m ≫= k).
Proof.
  intros Hk Hm Hop s Hs. pose proof (Hk s) as Hst. pose proof (Hm s (proj1 Hs)) as Hr.
  pose proof (ready_step _ _ _ Hs Hst) as Hs'. unfold mbind, st_bind.
  pose proof Hst as [_ [_ Hle]]. specialize (Hle (proj1 Hs)) as [_ Hle].
  destruct (m s) as [[a| | |] s']; simpl in *; [|by split_and!|by destruct Hr..].
  destruct (Hop a s' Hs') as (?&?&Hc). split_and!; [done|by etrans|]. intros E.
  specialize (Hc E). lia.
Qed.

Lemma good_op_bind_lift fuel {A} (r : Result A) k :
  returns r → (∀ a, r = Ok a → good_op fuel (k a)) → good_op fuel (lift r ≫= k).
Proof.
  intros Hr Hk s Hs. destruct r; [by apply (Hk a eq_refl)| |by destruct Hr..].
  split; [done|]. split; [reflexivity|done].
Qed.

Lemma good_op_gas fuel c k :
  0 < c → (∀ a, good fuel (k a)) → good_op fuel (increase_consumed_gas c ≫= k).
Proof.
  intros Hc Hk s Hs. pose proof (keeps_increase_consumed_gas c ltac:(lia) s) as Hst.
  pose proof (ready_step _ _ _ Hs Hst) as [Hok' _].
  assert (total (increase_consumed_gas c)) as Ht by total. specialize (Ht s).
  unfold mbind, st_bind. destruct (increase_consumed_gas c s) as [[[]| | |] s'] eqn:E;
    simpl in *; [|by split_and!|by destruct Ht..].
  apply increase_consumed_gas_Ok in E as (-> & Hle & _).
  destruct (Hk tt (s.1, set_gas_used (gas_used s.2 + c) s.2)) as [Hr Hst'].
  { split; [done|]. destruct Hs as [_ Hs]. unfold remaining in *. simpl in *. lia. }
  split_and!; [done|by etrans|]. intros _. destruct Hst' as [_ [_ Hst']].
  specialize (Hst' Hok') as [_ Hst']. simpl in *. lia.
Qed.

Lemma good_op_intro fuel m : keeps step m → safe m → charges m → good_op fuel m.
Proof.
  intros Hk Hs Hc s [Hok _]. split_and!; [by apply Hs|apply Hk|]. intros E.
  apply (Hc s); [done|]. rewrite <- E. by destruct (m s).
Qed.

(** [run_sub] leaves the caller's frame alone. *)
Lemma run_sub_spec fuel exec f s :
  exec_ok fuel exec → frame_ok f → gas_used f = 0 → gas_limit f < Z.of_nat fuel →
  returns (run_sub exec f s).1 ∧ (run_sub exec f s).2.2 = s.2 ∧
  vm_step s.1 (run_sub exec f s).2.1 ∧
  ∀ report, (run_sub exec f s).1 = Ok report → 0 ≤ report_gas_used report ≤ gas_limit f.
Proof.
  intros He Hok H0 Hf. specialize (He (s.1, f) Hok H0 Hf). simpl in He. unfold run_sub.
  destruct (exec (s.1, f)) as [r [vm f']]. naive_solver.
Qed.

Lemma new_call_frame_ok a b c code v d st gl dep cr :
  0 ≤ gl < 2 ^ 64 → frame_ok (new_call_frame a b c code v d st gl 0 dep cr).
Proof. intros. unfold frame_ok, STACK_LIMIT, mem_ok; simpl. split_and!; done || lia. Qed.

Lemma max_message_call_gas_Ok f g :
  Gas.max_message_call_gas f = Ok g → 0 ≤ g ≤ remaining f ∧ g < 2 ^ 64.
Proof.
  unfold Gas.max_message_call_gas, internal. intros H. outcome_inv. unfold in_u in *.
  subst. unfold remaining. pose proof (Z.div_pos (gas_limit f - gas_used f) 64). lia.
Qed.

(** A step on the machine only. *)
Definition only_vm {A} (m : M A) : Prop := ∀ s,
  returns (m s).1 ∧ (m s).2.2 = s.2 ∧ vm_step s.1 (m s).2.1.

Lemma only_vm_on_vm {A} (m : ST VM A) : keeps vm_step m → total m → only_vm (on_vm m).
Proof.
  intros Hk Ht s. specialize (Hk s.1). specialize (Ht s.1). unfold on_vm.
  by destruct (m s.1) as [r v].
Qed.
Lemma only_vm_ret {A} (a : A) : only_vm (mret a).
Proof. by intros s. Qed.
Lemma only_vm_bind {A B} (m : M A) (k : A → M B) :
  only_vm m → (∀ a, only_vm (k a)) → only_vm (m ≫= k).
Proof.
  intros Hm Hk s. specialize (Hm s) as (Hr & Hf & Hv). unfold mbind, st_bind.
  destruct (m s) as [[a| | |] s']; simpl in *; [|done|by destruct Hr..].
  specialize (Hk a s') as (? & Hf' & ?). split_and!; [done|congruence|by etrans].
Qed.

(** As [good], for the states whose frame is [f]. *)
Definition good_f (fuel : nat) (f : CallFrame) {A} (m : M A) : Prop := ∀ s,
  ready fuel s → s.2 = f → returns (m s).1 ∧ step s (m s).2.

Lemma good_f_read fuel {A} (k : CallFrame → M A) :
  (∀ f, frame_ok f → remaining f < Z.of_nat fuel → good_f fuel f (k f)) →
  good fuel (frame id ≫= k).
Proof. intros Hk s Hs. by apply (Hk s.2); destruct Hs. Qed.

Lemma good_f_frame fuel f {A B} (g : CallFrame → A) (k : A → M B) :
  good_f fuel f (k (g f)) → good_f fuel f (frame g ≫= k).
Proof. intros Hk s Hs <-. by apply Hk. Qed.

Lemma good_f_lift fuel f {A B} (r : Result A) (k : A → M B) :
  returns r → (∀ a, r = Ok a → good_f fuel f (k a)) → good_f fuel f (lift r ≫= k).
Proof.
  intros Hr Hk s Hs Hf. destruct r; [by apply (Hk a eq_refl)| |by destruct Hr..].
  split; [done|reflexivity].
Qed.

Lemma good_f_only fuel f {A B} (m : M A) (k : A → M B) :
  only_vm m → (∀ a, good_f fuel f (k a)) → good_f fuel f (m ≫= k).
Proof.
  intros Hm Hk s Hs <-. specialize (Hm s) as (Hr & Hf & Hv).
  assert (step s (m s).2) as Hst by (split; [done|rewrite Hf; reflexivity]).
  pose proof (ready_step _ _ _ Hs Hst) as Hs'. unfold mbind, st_bind.
  destruct (m s) as [[a| | |] s']; simpl in *; [|by split|by destruct Hr..].
  destruct (Hk a s' Hs' Hf) as [??]. split; [done|]. by etrans.
Qed.

Lemma good_f_sub fuel f exec nf {B} (k : TransactionReport → M B) :
  exec_ok fuel exec → frame_ok nf → gas_used nf = 0 → gas_limit nf < Z.of_nat fuel →
  (∀ rep, 0 ≤ report_gas_used rep ≤ gas_limit nf → good_f fuel f (k rep)) →
  good_f fuel f (run_sub exec nf ≫= k).
Proof.
  intros He Hok H0 Hl Hk s Hs <-.
  destruct (run_sub_spec fuel exec nf s) as (Hr & Hf & Hv & Hrep); [done..|].
  assert (step s (run_sub exec nf s).2) as Hst by (split; [done|rewrite Hf; reflexivity]).
  pose proof (ready_step _ _ _ Hs Hst) as Hs'. unfold mbind, st_bind.
  destruct (run_sub exec nf s) as [[a| | |] s']; simpl in *; [|by split|by destruct Hr..].
  destruct (Hk a (Hrep _ eq_refl) s' Hs' Hf) as [??]. split; [done|]. by etrans.
Qed.

Lemma good_f_set_gas fuel f g {B} (k : unit → M B) :
  gas_used f ≤ g ≤ gas_limit f → good fuel (k tt) →
  good_f fuel f (upd_frame (set_gas_used g) ≫= k).
Proof.
  intros Hg Hk s Hs <-. assert (step s (s.1, set_gas_used g s.2)) as Hst.
  { frame_arith. }
  pose proof (ready_step _ _ _ Hs Hst) as Hs'. destruct (Hk _ Hs') as [??].
  split; [done|]. by etrans.
Qed.

Ltac only_vm :=
  repeat match goal with
  | |- only_vm (on_vm _) => apply only_vm_on_vm; [keeps|total]
  | |- only_vm (mret _) => apply only_vm_ret
  | |- only_vm (_ ≫= _) => apply only_vm_bind; [|intros ?]
  | |- only_vm (if ?b then _ else _) => destruct b
  end.

Ltac good_step :=
  match goal with
  | |- good _ (push_continue _) => apply good_intro; [keeps|safe]
  | |- good _ (lift _ ≫= _) => apply good_bind_lift; [returns|intros ? ?]
  | |- good _ (_ ≫= _) => apply good_bind; [apply good_intro; [keeps|safe]|intros ?]
  | |- good _ (if ?b then _ else _) => destruct b
  | |- good _ (let '(_, _) := ?p in _) => destruct p
  | |- good _ (match ?x with _ => _ end) => destruct x
  end.

Lemma good_generic_call `{Crypto} fuel exec gl v sender to_ code_ transfer static ao as_ ro rs :
  exec_ok fuel exec →
  good fuel (generic_call exec gl v sender to_ code_ transfer static ao as_ ro rs).
Proof.
  intros He. unfold generic_call. repeat lazymatch goal with
  | |- good _ (frame id ≫= _) => fail
  | |- _ => good_step
  end.
  apply good_f_read. intros f Hok Hrem.
  apply good_f_lift; [returns|]. intros cap Hcap%max_message_call_gas_Ok.
  apply good_f_lift; [returns|]. intros gl' Hgl'. unfold internal in Hgl'. outcome_inv.
  unfold in_u in *.
  apply good_f_only; [only_vm|]. intros _.
  apply good_f_sub; [done|apply new_call_frame_ok; lia|done|simpl; lia|].
  simpl. intros rep Hrep. apply good_f_frame.
  apply good_f_lift; [returns|]. intros g Hg. unfold oog in Hg. outcome_inv.
  apply good_f_set_gas; [unfold remaining in *; lia|].
  repeat good_step.
Qed.

(** The tail of [generic_create], after [m] units were reserved: at most those
    are given back. *)
Definition lowers (m : Z) {A} (c : M A) : Prop := ∀ s, frame_ok s.2 →
  returns (c s).1 ∧ vm_step s.1 (c s).2.1 ∧ context (c s).2.2 = context s.2 ∧
  frame_ok (c s).2.2 ∧ gas_used s.2 - m ≤ gas_used (c s).2.2.

Lemma lowers_intro m {A} (c : M A) : 0 ≤ m → keeps step c → safe c → lowers m c.
Proof.
  intros Hm Hk Hs s Hok. destruct (Hk s) as [Hv [Hc Hf]]. destruct (Hf Hok).
  split_and!; try done; [by apply Hs..|lia].
Qed.

Lemma lowers_bind m {A B} (c : M A) (k : A → M B) :
  keeps step c → safe c → (∀ a, lowers m (k a)) → 0 ≤ m → lowers m (c ≫= k).
Proof.
  intros Hk Hs Hl Hm s Hok. destruct (Hk s) as [Hv [Hc Hf]]. destruct (Hf Hok) as [Hok' Hle].
  specialize (Hs s Hok) as Hr. unfold mbind, st_bind.
  destruct (c s) as [[a| | |] s']; simpl in *; [|split_and!; (done || lia)|by destruct Hr..].
  destruct (Hl a s' Hok') as (?&?&?&?&?). split_and!; try done; [by etrans|congruence|lia].
Qed.

Lemma lowers_lift m {A B} (r : Result A) (k : A → M B) :
  returns r → (∀ a, r = Ok a → lowers m (k a)) → 0 ≤ m → lowers m (lift r ≫= k).
Proof.
  intros Hr Hk Hm s Hok. destruct r; [by apply (Hk a eq_refl)| |by destruct Hr..].
  split_and!; try done. simpl. lia.
Qed.

Lemma lowers_sub fuel m exec nf {B} (k : TransactionReport → M B) :
  exec_ok fuel exec → frame_ok nf → gas_used nf = 0 → gas_limit nf < Z.of_nat fuel →
  (∀ rep, 0 ≤ report_gas_used rep ≤ gas_limit nf → lowers m (k rep)) → 0 ≤ m →
  lowers m (run_sub exec nf ≫= k).
Proof.
  intros He Hok0 H0 Hl Hk Hm s Hok.
  destruct (run_sub_spec fuel exec nf s) as (Hr & Hf & Hv & Hrep); [done..|].
  unfold mbind, st_bind. destruct (run_sub exec nf s) as [[a| | |] s']; simpl in *;
    [|rewrite Hf; split_and!; (done || lia)|by destruct Hr..].
  rewrite <- Hf in Hok. destruct (Hk a (Hrep _ eq_refl) s' Hok) as (?&?&?&?&?).
  rewrite Hf in *. split_and!; try done. by etrans.
Qed.

(** Giving [x] units back. *)
Lemma lowers_refund m x e {A} (c : M A) :
  0 ≤ x ≤ m → keeps step c → safe c →
  lowers m (used ← frame gas_used;
            used ← lift (internal (checked_sub 64 used x) e);
            _ ← upd_frame (set_gas_used used);
            c).
Proof.
  intros Hx Hk Hs s Hok. unfold frame, mbind, st_bind, gets, lift. simpl.
  destruct (internal _ _) as [g| | |] eqn:E; simpl.
  2: split_and!; (done || lia).
  2-3: unfold internal, ok_or in E; by case_match.
  unfold internal in E. outcome_inv. unfold in_u in *.
  set (s1 := (s.1, set_gas_used (gas_used s.2 - x) s.2)).
  assert (frame_ok s1.2) as Hok1.
  { destruct Hok as (?&?&?&?). unfold frame_ok. simpl. split_and!; (done || lia). }
  destruct (Hk s1) as [Hv [Hc Hf]]. destruct (Hf Hok1) as [Hok2 Hle].
  specialize (Hs s1 Hok1). simpl in *. split_and!; try done. lia.
Qed.

(** Reserving and then running such a tail never lowers the gas used. *)
Lemma good_reserve fuel m {A} (k : unit → M A) :
  0 ≤ m → lowers m (k tt) → good fuel (increase_consumed_gas m ≫= k).
Proof.
  intros Hm Hk s [Hok _]. pose proof (keeps_increase_consumed_gas m Hm s) as [Hv [Hc Hf]].
  assert (total (increase_consumed_gas m)) as Ht by total. specialize (Ht s).
  destruct (Hf Hok) as [Hok' _]. unfold mbind, st_bind.
  destruct (increase_consumed_gas m s) as [[[]| | |] s'] eqn:E; simpl in *;
    [|split; [done|]; by split|by destruct Ht..].
  apply increase_consumed_gas_Ok in E as (-> & Hle & _).
  destruct (Hk _ Hok') as (?&?&?&?&?). simpl in *. split; [done|]. split; [done|].
  split; [by etrans|]. intros _. split; [done|lia].
Qed.

Lemma good_f_good fuel f {A} (m : M A) : good fuel m → good_f fuel f m.
Proof. intros Hm s Hs _. by apply Hm. Qed.

Ltac lowers_step :=
  match goal with
  | |- lowers _ (push_continue _) => apply lowers_intro; [lia|keeps|safe]
  | |- lowers _ (frame gas_used ≫= _) =>
      apply lowers_refund; [lia|keeps|safe]
  | |- lowers _ (lift _ ≫= _) => apply lowers_lift; [returns|intros ? ?|lia]
  | |- lowers _ (run_sub _ _ ≫= _) => fail 1
  | |- lowers _ (_ ≫= _) => apply lowers_bind; [keeps|safe|intros ?|lia]
  | |- lowers _ (if ?b then _ else _) => destruct b
  | |- lowers _ (let '(_, _) := ?p in _) => destruct p
  | |- lowers _ (match ?x with _ => _ end) => destruct x
  end.

Lemma good_generic_create `{Crypto} fuel exec v off size salt :
  exec_ok fuel exec → good fuel (generic_create exec v off size salt).
Proof.
  intros He. unfold generic_create. apply good_f_read. intros f Hok Hrem. apply good_f_good.
  destruct (is_static f); [apply good_intro; [keeps|safe]|].
  destruct (INIT_CODE_MAX_SIZE <? size); [apply good_intro; [keeps|safe]|].
  apply good_bind_lift; [returns|]. intros m Hm%max_message_call_gas_Ok.
  apply good_reserve; [lia|]. repeat lowers_step.
  eapply lowers_sub; [done|apply new_call_frame_ok; lia|done|simpl; lia| |lia].
  simpl. intros rep Hrep. apply lowers_lift; [returns| |lia]. intros u Hu.
  unfold internal in Hu. outcome_inv. unfold in_u in *. lowers_step.
Qed.

(** ** The opcodes *)

Ltac good_op_step :=
  match goal with
  | |- good_op _ (throw _) => apply good_op_intro; [keeps|safe|charges]
  | |- good_op _ (increase_consumed_gas _ ≫= _) => apply good_op_gas; [gas_positive|intros _]
  | |- good_op _ (lift _ ≫= _) => apply good_op_bind_lift; [returns|intros ? ?]
  | |- good_op _ (_ ≫= _) => apply good_op_bind; [keeps|safe|intros ?]
  | |- good_op _ (if ?b then _ else _) => destruct b
  | |- good_op _ (let '(_, _) := ?p in _) => destruct p
  | |- good _ (frame id ≫= _) => apply good_bind; [apply good_intro; [keeps|safe]|intros ?]
  | |- good _ (generic_call _ _ _ _ _ _ _ _ _ _ _ _) => by apply good_generic_call
  | |- good _ (generic_create _ _ _ _ _) => by apply good_generic_create
  | |- good_op _ ?m => let h := head m in unfold h
  end.

(** Every opcode, with an interpreter for the sub-contexts. *)
Lemma good_dispatch `{Crypto} fuel exec op : exec_ok fuel exec → good_op fuel (dispatch exec op).
Proof.
  intros He. destruct (calls op) eqn:Ec.
  - destruct op; try discriminate Ec; unfold dispatch; repeat good_op_step.
  - apply good_op_intro; [by apply keeps_dispatch|by apply safe_dispatch|by apply charges_dispatch].
Qed.

(** ** The interpreter *)

(** What a context guarantees: it returns, keeps the machine's fixed part, and
    reports gas up to the limit of its frame. *)
Definition settles (s : St) (o : Result TransactionReport * St) : Prop :=
  returns o.1 ∧ vm_step s.1 o.2.1 ∧ context o.2.2 = context s.2 ∧
  ∀ report, o.1 = Ok report → 0 ≤ report_gas_used report ≤ gas_limit s.2.

Lemma settles_step s s' o : step s s' → frame_ok s.2 → settles s' o → settles s o.
Proof.
  intros [Hv [Hc _]] Hok (?&?&Hc'&Hrep). split_and!; [done|by etrans|by rewrite Hc'|].
  assert (gas_limit s'.2 = gas_limit s.2) as <- by (unfold context in Hc; congruence). done.
Qed.

Lemma end_report_spec r s :
  end_report r s = (Ok (make_report r s.1 (gas_used s.2) (refunded_gas (env s.1))
                          (output s.2) (logs s.2)), s).
Proof. done. Qed.

Lemma vm_step_restore b vm : vm_step vm (restore_state b vm).
Proof. done. Qed.

Lemma keeps_push_call_frame : keeps step push_call_frame.
Proof. unfold push_call_frame. keeps. Qed.

Lemma finish_error_settles b e s : frame_ok s.2 → settles s (finish_error b e s).
Proof.
  intros Hok. unfold finish_error, push_call_frame, frame, upd_vm, upd_frame, mbind, st_bind, gets.
  unfold modify. simpl. destruct (is_internal e); [by split_and!|]. destruct Hok as (?&?&?&?).
  case_bool_decide; simpl; (split_and!; [done..|]); intros rep [= <-]; simpl;
    unfold saturating_sub, saturating_add; lia.
Qed.

Lemma settles_bind {A} (m : M A) k s :
  frame_ok s.2 → keeps step m → safe m →
  (∀ a s', step s s' → frame_ok s'.2 → settles s' (k a s')) → settles s ((m ≫= k) s).
Proof.
  intros Hok Hk Hs Hc. pose proof (Hk s) as Hst. pose proof Hst as [Hv [Hc' Hf]].
  destruct (Hf Hok) as [Hok' _]. specialize (Hs s Hok) as Hr. unfold mbind, st_bind.
  destruct (m s) as [[a| | |] s']; simpl in *; [|by split_and!|by destruct Hr..].
  apply (settles_step s s'); [done..|]. by apply Hc.
Qed.

Lemma settles_bind_lift {A} (r : Result A) k s :
  frame_ok s.2 → returns r → (∀ a, r = Ok a → settles s (k a s)) →
  settles s ((lift r ≫= k) s).
Proof.
  intros Hok Hr Hk. destruct r; [by apply Hk|by split_and!|by destruct Hr..].
Qed.

Lemma settles_end r s : frame_ok s.2 → settles s (end_report r s).
Proof.
  intros (?&?&?&?). rewrite end_report_spec. split_and!; try done.
  intros rep [= <-]. simpl. lia.
Qed.

Lemma keeps_validate_create c d : 0 ≤ d → keeps step (validate_create c d).
Proof.
  intros Hd s. unfold validate_create. destruct (_ <? _); [reflexivity|].
  destruct (_ =? _); [reflexivity|]. pose proof (keeps_increase_consumed_gas d Hd s).
  by destruct (increase_consumed_gas d s) as [[| | |] s'].
Qed.

Lemma safe_validate_create c d : safe (validate_create c d).
Proof.
  intros s _. unfold validate_create. destruct (_ <? _); [done|]. destruct (_ =? _); [done|].
  by destruct (increase_consumed_gas d s) as [[| | |] s'].
Qed.

Lemma keeps_spend_all : keeps step (upd_frame (λ f, set_gas_used (gas_limit f) f)).
Proof. apply keeps_upd_frame; [apply _|]. intros f. frame_arith. Qed.
#[export] Hint Resolve keeps_push_call_frame keeps_spend_all : keeps.

Lemma finish_success_settles b s : frame_ok s.2 → settles s (finish_success b s).
Proof.
  intros Hok. unfold finish_success.
  apply settles_bind; [done|keeps|safe|]. intros _ s1 _ Hok1.
  apply settles_bind; [done|keeps|safe|]. intros vm s2 _ Hok2.
  apply settles_bind; [done|keeps|safe|]. intros f s3 _ Hok3.
  destruct (_ || _); [|by apply settles_end].
  apply settles_bind_lift; [done|returns|]. intros n _.
  apply settles_bind_lift; [done|returns|]. intros d Hd.
  apply ok_or_Ok, checked_mul_Some in Hd as [-> [Hd _]].
  apply settles_bind; [done|by apply keeps_validate_create|apply safe_validate_create|].
  intros [error|] s5 _ Hok5.
  - apply settles_bind; [done|keeps|safe|]. intros _ s6 _ Hok6.
    apply settles_bind; [done|keeps|safe|]. intros _ s7 _ Hok7. by apply settles_end.
  - apply settles_bind; [done|keeps|safe|]. intros _ s6 _ Hok6. by apply settles_end.
Qed.

Lemma keeps_next opcode :
  keeps step (if bool_decide (opcode = Opcode.JUMP) || bool_decide (opcode = Opcode.JUMPI)
              then mret tt else increment_pc).
Proof. keeps. Qed.

(** ** Precompiles *)

(** A precompile charges at most once, and at most the gas of the call. *)
Definition charged (gas c c' : Z) : Prop := c' = c ∨ ∃ cost, 0 ≤ cost ≤ gas ∧ c' = c + cost.

Lemma charged_then {A} gas cost (k : unit → ST Z A) c :
  0 ≤ cost → keeps eq (k tt) →
  charged gas c ((Precompile.increase_precompile_consumed_gas gas cost ≫= k) c).2.
Proof.
  intros Hc Hk. unfold Precompile.increase_precompile_consumed_gas, mbind, st_bind.
  destruct (gas <? cost) eqn:E; propify; [by left|].
  unfold gets, lift, modify. simpl. destruct (ok_or _ _) eqn:E2; try by left.
  outcome_inv. rewrite <- (Hk (c + cost)). right. exists cost. lia.
Qed.

Lemma precompile_cost_nonneg n static base c :
  Gas.precompile n static base = Ok c → 0 ≤ c.
Proof. unfold Gas.precompile. intros H. gas_inv. lia. Qed.

Section Interpreter.
Context `{Crypto}.

Lemma precompile_charged address data gas c :
  charged gas c (Precompile.dispatch address data gas c).2 ∧
  returns (Precompile.dispatch address data gas c).1.
Proof.
  split.
  - unfold Precompile.dispatch. repeat case_match; try by left.
    + apply charged_then; [done|]. keeps.
    + unfold Precompile.sha2_256, mbind at 1, st_bind at 1, lift.
      destruct (Gas.sha2_256 _) eqn:E; [|by left..].
      apply charged_then; [by eapply precompile_cost_nonneg, E|]. keeps.
    + unfold Precompile.ripemd_160, mbind at 1, st_bind at 1, lift.
      destruct (Gas.ripemd_160 _) eqn:E; [|by left..].
      apply charged_then; [by eapply precompile_cost_nonneg, E|]. keeps.
  - revert c. change (total (Precompile.dispatch address data gas)). total.
Qed.

Lemma run_precompile_settles b s :
  frame_ok s.2 → gas_used s.2 = 0 → settles s (run_precompile b s).
Proof.
  intros Hok H0. unfold run_precompile, Precompile.execute_precompile.
  destruct (precompile_charged (code_address s.2) (calldata s.2) (gas_limit s.2) (gas_used s.2))
    as [Hc Hr].
  destruct (Precompile.dispatch _ _ _ _) as [[out|error| |] g]; simpl in *;
    [| |by destruct Hr..]; destruct Hok as (?&?&?&?).
  - split_and!; try done. intros rep [= <-]. simpl. destruct Hc as [->|(cost & ? & ->)]; lia.
  - destruct (is_internal error); [by split_and!|].
    split_and!; try done. intros rep [= <-]. simpl. lia.
Qed.

Lemma execute_with_ok fuel loop :
  (∀ b s, ready fuel s → settles s (loop b s)) → exec_ok fuel (execute_with loop).
Proof.
  intros Hl s Hok H0 Hf. unfold execute_with, mbind, st_bind, gets. cbv beta iota. unfold id.
  destruct (Precompile.is_precompile _).
  - by destruct (run_precompile_settles (take_backup s.1) s) as (?&?&?&?).
  - destruct (Hl (take_backup s.1) s) as (?&?&?&?); [|done]. split; [done|].
    unfold remaining. lia.
Qed.

Lemma run_settles fuel : ∀ b s, ready fuel s → settles s (run fuel b s).
Proof.
  induction fuel as [|fuel IH]; intros b s Hs.
  { destruct Hs as [((?&?)&?) Hr]. unfold remaining in Hr. lia. }
  simpl. destruct (good_dispatch fuel (execute_with (run fuel)) (next_opcode s.2))
    with (s := s) as (Hr & Hst & Hc); [by apply execute_with_ok|done|].
  pose proof (ready_step _ _ _ Hs Hst) as Hs'.
  destruct (dispatch _ _ s) as [r s']. simpl in *.
  apply (settles_step s s'); [done|apply Hs|]. unfold after_opcode.
  destruct r as [[|reason]|error| |]; [| | |by destruct Hr..].
  all: apply settles_bind; [apply Hs'|apply keeps_next|safe|]; intros _ s2 Hst2 Hok2.
  - apply IH. apply (ready_step _ s'); [|done]. split; [apply Hs'|]. specialize (Hc eq_refl).
    destruct Hs as [_ Hrem], Hst as [_ [Hctx _]].
    assert (gas_limit s'.2 = gas_limit s.2) by (unfold context in Hctx; congruence).
    unfold remaining in *. lia.
  - by apply finish_success_settles.
  - by apply finish_error_settles.
Qed.

End Interpreter.
