(* ===== verification/LevmExecution.v ===== *)
(** * LEVM: properties of the interpreter

    The theorems about [execute]: it ends, it stays within its gas, its opcodes
    preserve the frame invariant, and a context that fails leaves no trace. *)

From stdpp Require Import base option list numbers gmap.
From S2P Require Import Prelude Rlp LevmState LevmMemory LevmMemoryProofs LevmGas LevmOpcodes.
From S2P Require Import LevmHost LevmArith LevmHandlers LevmSystem LevmVm LevmLogic.
From S2P Require Import LevmMetering LevmTermination LevmDemo.

Local Open Scope Z_scope.

(** ** More fuel does not change a result *)

Definition extends {S A} (m m' : ST S A) : Prop := ∀ s, (m s).1 ≠ NoFuel → m' s = m s.

Lemma extends_refl {S A} (m : ST S A) : extends m m.
Proof. by intros s. Qed.

Lemma extends_bind {S A B} (m m' : ST S A) (k k' : A → ST S B) :
  extends m m' → (∀ a, extends (k a) (k' a)) → extends (m ≫= k) (m' ≫= k').
Proof.
  intros Hm Hk s. unfold mbind, st_bind. specialize (Hm s). destruct (m s) as [r s'] eqn:E.
  simpl in *. intros Hn. destruct r; rewrite Hm by done; try done. by apply Hk.
Qed.

Lemma extends_run_sub exec exec' f : extends exec exec' → extends (run_sub exec f) (run_sub exec' f).
Proof.
  intros He s. unfold run_sub. specialize (He (s.1, f)).
  destruct (exec (s.1, f)) as [r [vm f']] eqn:E. simpl in *. intros Hn. by rewrite He.
Qed.

Ltac extends_step :=
  match goal with
  | |- extends ?m ?m => exact (extends_refl m)
  | |- extends (run_sub _ _) _ => by apply extends_run_sub
  | |- extends (_ ≫= _) (_ ≫= _) => apply extends_bind; [|intros ?]
  | |- extends (if ?b then _ else _) _ => destruct b
  | |- extends (let '(_, _) := ?p in _) _ => destruct p
  | |- extends (match ?x with _ => _ end) _ => destruct x
  | |- extends (let x := _ in _) _ => cbv zeta
  end.

Section Execution.
Context `{Crypto}.

Lemma extends_generic_call exec exec' gl v a b c t st ao asz ro rs :
  extends exec exec' →
  extends (generic_call exec gl v a b c t st ao asz ro rs)
    (generic_call exec' gl v a b c t st ao asz ro rs).
Proof. intros He. unfold generic_call. repeat extends_step. Qed.

Lemma extends_generic_create exec exec' v off size salt :
  extends exec exec' →
  extends (generic_create exec v off size salt) (generic_create exec' v off size salt).
Proof. intros He. unfold generic_create. repeat extends_step. Qed.

Lemma extends_dispatch exec exec' op :
  extends exec exec' → extends (dispatch exec op) (dispatch exec' op).
Proof.
  intros He. destruct (calls op) eqn:Ec.
  - destruct op; try discriminate Ec; unfold dispatch;
      match goal with |- extends ?m _ => let h := head m in unfold h end;
      repeat extends_step;
      by first [apply extends_generic_call | apply extends_generic_create].
  - destruct op; try discriminate Ec; unfold dispatch; cbv beta iota; apply extends_refl.
Qed.

Lemma extends_execute_with loop loop' :
  (∀ b, extends (loop b) (loop' b)) → extends (execute_with loop) (execute_with loop').
Proof. intros Hl. unfold execute_with. repeat extends_step. apply Hl. Qed.

Lemma extends_run fuel : ∀ fuel' b, (fuel ≤ fuel')%nat → extends (run fuel b) (run fuel' b).
Proof.
  induction fuel as [|fuel IH]; intros fuel' b Hle s; [done|].
  destruct fuel' as [|fuel']; [lia|]. simpl.
  assert (extends (execute_with (run fuel)) (execute_with (run fuel'))) as He.
  { apply extends_execute_with. intros b'. apply IH. lia. }
  pose proof (extends_dispatch _ _ (next_opcode s.2) He s) as Hd.
  destruct (dispatch (execute_with (run fuel)) _ s) as [r s'] eqn:E. simpl in *. intros Hn.
  assert (r ≠ NoFuel) as Hr by (intros ->; by apply Hn). rewrite Hd by done.
  destruct r as [[|]|error| |]; try done. revert Hn. unfold after_opcode.
  apply extends_bind; [apply extends_refl|]. intros _. apply IH. lia.
Qed.

Lemma ready_fuel_for s : frame_ok s.2 → ready (fuel_for s.2) s.
Proof. intros Hok. split; [done|]. destruct Hok as ((?&?)&?). unfold fuel_for, remaining. lia. Qed.

Lemma execute_returns fuel s :
  frame_ok s.2 → (fuel_for s.2 ≤ fuel)%nat → returns (execute fuel s).1.
Proof.
  intros Hok Hf. unfold execute, execute_with, mbind, st_bind, gets. cbv beta iota. unfold id.
  destruct (Precompile.is_precompile _).
  - unfold run_precompile, Precompile.execute_precompile.
    destruct (precompile_charged (code_address s.2) (calldata s.2) (gas_limit s.2) (gas_used s.2))
      as [_ Hr].
    destruct (Precompile.dispatch _ _ _ _) as [[| | |] g]; simpl in *; try done;
      [|by destruct Hr..]. by destruct (is_internal _).
  - pose proof (run_settles (fuel_for s.2) (take_backup s.1) s (ready_fuel_for s Hok)) as (Hr&_).
    rewrite (extends_run (fuel_for s.2)) by (done || apply Hr). done.
Qed.

(** C5: execution terminates.  From a frame in its invariant (gas within the
    limit, at most 1024 words on the stack, a well-shaped memory), whatever the
    code, the database and the calls it makes, [execute] returns a report or an
    error: it does not loop and does not panic.  One unit of fuel more than the
    gas left is enough, and more fuel gives the same outcome. *)
Theorem execute_terminates (s : St) (fuel : nat) :
  frame_ok s.2 → (fuel_for s.2 ≤ fuel)%nat →
  returns (execute fuel s).1 ∧ execute fuel s = execute (fuel_for s.2) s.
Proof.
  intros Hok Hf. split; [by apply execute_returns|].
  apply extends_execute_with; [|by apply execute_returns].
  intros b. by apply extends_run.
Qed.

(** A precompile compares its price with the whole limit of the frame. *)
Lemma run_precompile_gas b s report :
  frame_ok s.2 → (run_precompile b s).1 = Ok report →
  0 ≤ report_gas_used report ≤ gas_limit s.2 + gas_used s.2 ∧
  vm_fixed (run_precompile b s).2.1 = vm_fixed s.1 ∧
  context (run_precompile b s).2.2 = context s.2.
Proof.
  intros Hok. unfold run_precompile, Precompile.execute_precompile.
  destruct (precompile_charged (code_address s.2) (calldata s.2) (gas_limit s.2) (gas_used s.2))
    as [Hc Hr].
  destruct (Precompile.dispatch _ _ _ _) as [[out|error| |] g]; simpl in *;
    [| |by destruct Hr..]; destruct Hok as (?&?&?&?).
  - intros [= <-]. simpl. split; [|done]. destruct Hc as [->|(cost & ? & ->)]; lia.
  - destruct (is_internal error); [done|]. intros [= <-]. simpl. split; [|done]. lia.
Qed.

(** C13: gas accounting is sound.  The gas that a context reports lies between zero
    and its gas limit.  Only a precompile whose frame has already used gas, which is
    the case when a transaction calls it, can report more, since it compares its price
    with the whole limit: by at most that gas.  The database, the transaction and the
    block environment are those from before, and so are the code, the addresses and
    the limits of the frame. *)
Theorem execute_gas_bounded (s : St) (fuel : nat) (report : TransactionReport) :
  frame_ok s.2 → (fuel_for s.2 ≤ fuel)%nat → (execute fuel s).1 = Ok report →
  0 ≤ report_gas_used report
    ≤ gas_limit s.2 + (if Precompile.is_precompile (code_address s.2) then gas_used s.2 else 0) ∧
  vm_fixed (execute fuel s).2.1 = vm_fixed s.1 ∧
  context (execute fuel s).2.2 = context s.2.
Proof.
  intros Hok Hf. unfold execute, execute_with, mbind, st_bind, gets. cbv beta iota. unfold id.
  destruct (Precompile.is_precompile _); [by apply run_precompile_gas|].
  rewrite (extends_run (fuel_for s.2)); [|done|by apply run_settles, ready_fuel_for].
  destruct (run_settles (fuel_for s.2) (take_backup s.1) s) as (?&?&?&?);
    [by apply ready_fuel_for|]. rewrite Z.add_0_r. eauto.
Qed.

(** C17: the frame invariant.  Every one of the opcodes, also when it fails,
    keeps the gas used within the limit and never lowers it, keeps the stack at
    1024 words or less and the memory in whole words, and leaves the frame's
    context and the machine's fixed part alone; an opcode after which the loop
    continues has spent gas. *)
Theorem opcode_invariant (fuel : nat) (op : Opcode.t) (s : St) :
  ready (S fuel) s →
  let '(r, s') := dispatch (execute fuel) op s in
  returns r ∧ frame_ok s'.2 ∧ gas_used s.2 ≤ gas_used s'.2 ∧ context s'.2 = context s.2 ∧
  vm_fixed s'.1 = vm_fixed s.1 ∧ (r = Ok Continue → gas_used s.2 < gas_used s'.2).
Proof.
  intros Hs. destruct (good_dispatch fuel (execute fuel) op) with (s := s) as (Hr & Hst & Hc);
    [apply execute_with_ok, run_settles|done|].
  destruct Hst as [Hv [Hctx Hf]]. destruct (Hf (proj1 Hs)) as [Hok' Hle].
  destruct (dispatch (execute fuel) op s) as [r s']. by split_and!.
Qed.

(** ** Failure leaves no trace *)

(** A report of failure comes with the machine of the backup. *)
Definition rolled_back (b : Backup) (o : Result TransactionReport * St) : Prop :=
  ∀ report e, o.1 = Ok report → result report = Revert e →
    take_backup o.2.1 = b ∧ new_state report = backup_cache b.

Lemma rolled_back_bind {A} b (m : M A) k s :
  (∀ a s', m s = (Ok a, s') → rolled_back b (k a s')) → rolled_back b ((m ≫= k) s).
Proof. intros Hk. unfold mbind, st_bind. destruct (m s) as [[| | |] s'] eqn:E; try done. by eapply Hk. Qed.

Lemma rolled_back_success b s : rolled_back b (end_report Success s).
Proof. by intros rep e [= <-]. Qed.

Lemma rolled_back_restore b error s :
  rolled_back b ((_ ← upd_vm (restore_state b); end_report (Revert error)) s).
Proof. intros rep e [= <-] _. by destruct b. Qed.

Lemma finish_success_rolled_back b s : rolled_back b (finish_success b s).
Proof.
  unfold finish_success. do 3 (apply rolled_back_bind; intros ? ? _).
  destruct (_ || _); [|apply rolled_back_success].
  do 3 (apply rolled_back_bind; intros ? ? _). case_match.
  - apply rolled_back_bind. intros _ ? _. apply rolled_back_restore.
  - apply rolled_back_bind. intros _ ? _. apply rolled_back_success.
Qed.

Lemma finish_error_rolled_back b e s : rolled_back b (finish_error b e s).
Proof.
  unfold finish_error. apply rolled_back_bind. intros _ s1 _. destruct (is_internal e); [done|].
  apply rolled_back_bind. intros _ s2 _. apply rolled_back_restore.
Qed.

Lemma run_rolled_back fuel : ∀ b s, rolled_back b (run fuel b s).
Proof.
  induction fuel as [|fuel IH]; intros b s; simpl; [done|].
  destruct (dispatch _ _ s) as [r s']. unfold after_opcode.
  destruct r as [[|]|error| |]; try done; apply rolled_back_bind; intros _ s2 _;
    [apply IH|apply finish_success_rolled_back|apply finish_error_rolled_back].
Qed.

(** C8: a failed context is rolled back.  When [execute] reports a failure
    (REVERT, an exceptional halt, a creation whose code is rejected, a failing
    precompile), the account cache, the substate (warm sets, created and
    destructed accounts), the refund counter and the transient storage are
    exactly those from before the context, and the state in the report is that
    cache. *)
Theorem failed_context_is_rolled_back (fuel : nat) (s : St) (report : TransactionReport) e :
  (execute fuel s).1 = Ok report → result report = Revert e →
  take_backup (execute fuel s).2.1 = take_backup s.1 ∧ new_state report = cache s.1.
Proof.
  unfold execute, execute_with, mbind, st_bind, gets. cbv beta iota. unfold id.
  destruct (Precompile.is_precompile _); [|apply run_rolled_back].
  unfold run_precompile. destruct (Precompile.execute_precompile s.2) as [[| | |] f]; try done.
  - by intros [= <-].
  - destruct (is_internal _); [done|]. intros [= <-] _. done.
Qed.

(** ** Errors *)

Definition internal_only {A} (o : Result A) : Prop := ∀ e, o = Err e → is_internal e = true.

Lemma internal_only_bind {S A B} (m : ST S A) (k : A → ST S B) s :
  internal_only (m s).1 → (∀ a s', internal_only (k a s').1) → internal_only ((m ≫= k) s).1.
Proof.
  intros Hm Hk. unfold mbind, st_bind. destruct (m s) as [[| | |] s']; simpl in *; try done.
  intros e' [= ->]. by apply Hm.
Qed.

Lemma internal_only_internal {A} (o : option A) e : internal_only (internal o e).
Proof. by destruct o; intros e' [= <-]. Qed.

Lemma internal_only_get_account_mut a vm : internal_only (get_account_mut a vm).1.
Proof.
  unfold get_account_mut. apply internal_only_bind; [done|]. intros vm' s.
  apply internal_only_bind; [by case_match|]. intros _ s'.
  apply internal_only_bind; [done|]. intros. apply internal_only_internal.
Qed.

Lemma internal_only_update_bytecode a c s :
  internal_only (on_vm (update_account_bytecode a c) s).1.
Proof.
  pose proof (internal_only_get_account_mut a s.1) as Hg.
  unfold on_vm, update_account_bytecode, mbind, st_bind.
  destruct (get_account_mut a s.1) as [[| | |] ?]; try done.
  intros e' [= <-]. by apply Hg.
Qed.

Lemma finish_success_internal b s : internal_only (finish_success b s).1.
Proof.
  unfold finish_success. do 3 (apply internal_only_bind; [done|intros ? ?]).
  destruct (_ || _); [|done].
  do 2 (apply internal_only_bind; [apply internal_only_internal|intros ? ?]).
  apply internal_only_bind; [unfold validate_create; by repeat case_match|]. intros r ?.
  case_match; [done|]. apply internal_only_bind; [apply internal_only_update_bytecode|done].
Qed.

Lemma finish_error_internal b e s : internal_only (finish_error b e s).1.
Proof.
  unfold finish_error. apply internal_only_bind; [done|]. intros _ s'.
  destruct (is_internal e) eqn:E; [by intros e' [= <-]|].
  apply internal_only_bind; [by case_bool_decide|]. done.
Qed.

Lemma run_internal fuel : ∀ b s, internal_only (run fuel b s).1.
Proof.
  induction fuel as [|fuel IH]; intros b s; simpl; [done|].
  destruct (dispatch _ _ s) as [r s']. unfold after_opcode.
  destruct r as [[|]|error| |]; try done; apply internal_only_bind.
  all: try (case_match; [done|]; unfold increment_pc, increment_pc_by;
            apply internal_only_bind; [done|]; intros; apply internal_only_bind;
            [apply internal_only_internal|done]).
  - intros _ s2. apply IH.
  - intros _ s2. apply finish_success_internal.
  - intros _ s2. apply finish_error_internal.
Qed.

(** C15: [execute] fails only with an internal error.  Every other error of an
    opcode (out of gas, stack under- and overflow, a bad jump, a write in a
    static context, ...) becomes a report with the result [Revert]. *)
Theorem execute_errors_are_internal (fuel : nat) (s : St) e :
  (execute fuel s).1 = Err e → is_internal e = true.
Proof.
  unfold execute, execute_with, mbind, st_bind, gets. cbv beta iota. unfold id.
  destruct (Precompile.is_precompile _); [|apply run_internal].
  unfold run_precompile. destruct (Precompile.execute_precompile s.2) as [[| | |] f]; try done.
  destruct (is_internal _) eqn:E; [|done]. by intros [= <-].
Qed.

End Execution.

(** ** The theorems on concrete programs *)

(** PUSH1 2, PUSH1 3, ADD, PUSH1 0, MSTORE, PUSH1 32, PUSH1 0, RETURN. *)
Definition add_program : list Z :=
  [0x60; 2; 0x60; 3; 0x01; 0x60; 0; 0x52; 0x60; 32; 0x60; 0; 0xf3].

(** PUSH1 1, PUSH1 5, TSTORE, PUSH1 0, PUSH1 0, REVERT. *)
Definition revert_program : list Z := [0x60; 1; 0x60; 5; 0x5d; 0x60; 0; 0x60; 0; 0xfd].

(** PUSH1 0, BLOBHASH. *)
Definition blobhash_program : list Z := [0x60; 0; 0x49].

Lemma demo_frame_ok code limit : 0 ≤ limit < 2 ^ 64 → frame_ok (demo_frame code limit).
Proof. intros. by apply new_call_frame_ok. Qed.

Lemma execute_terminates_witness :
  returns (execute 101 (demo add_program 100)).1 ∧
  execute 101 (demo add_program 100) = execute 101 (demo add_program 100).
Proof.
  apply (execute_terminates (demo add_program 100) 101); [by apply demo_frame_ok|].
  unfold fuel_for. simpl. lia.
Defined.

Lemma execute_gas_bounded_witness :
  ∃ report, (execute 101 (demo add_program 100)).1 = Ok report ∧
    0 ≤ report_gas_used report ≤ 100.
Proof.
  destruct (execute 101 (demo add_program 100)).1 as [report| | |] eqn:E;
    [|by vm_compute in E..].
  exists report. split; [done|].
  refine (proj1 (execute_gas_bounded (demo add_program 100) 101 report _ _ E)).
  all: clear E report.
  - by apply demo_frame_ok.
  - unfold fuel_for. simpl. lia.
Defined.

Lemma opcode_invariant_witness :
  let '(r, s') := dispatch (execute 100) Opcode.PC (demo add_program 100) in
  returns r ∧ frame_ok s'.2 ∧ 0 ≤ gas_used s'.2 ∧
  context s'.2 = context (demo_frame add_program 100) ∧
  vm_fixed s'.1 = vm_fixed (demo_vm 100 []) ∧ (r = Ok Continue → 0 < gas_used s'.2).
Proof.
  apply (opcode_invariant 100 Opcode.PC (demo add_program 100)).
  split; [by apply demo_frame_ok|done].
Defined.

Lemma failed_context_is_rolled_back_witness :
  ∃ report, (execute 201 (demo revert_program 200)).1 = Ok report ∧
    new_state report = cache (demo_vm 200 []).
Proof.
  destruct (execute 201 (demo revert_program 200)).1 as [report| | |] eqn:E;
    [|by vm_compute in E..].
  exists report. split; [done|].
  refine (proj2 (failed_context_is_rolled_back 201 (demo revert_program 200) report RevertOpcode
                   E _)).
  vm_compute in E. by injection E as <-.
Defined.

Lemma execute_errors_are_internal_witness :
  is_internal (Internal InternalError.BlobHashOutOfRange) = true.
Proof.
  apply (execute_errors_are_internal 101 (demo blobhash_program 100)). by vm_compute.
Defined.
