(* ===== verification/LevmStatic.v ===== *)
(** * LEVM: static contexts change nothing

    A context entered with STATICCALL must not modify the state (EIP-214).  The
    state is what a reader sees through the cache: reading an account or a slot
    fills the cache, so equality of caches would be too strong.  [pure m]: in a
    static frame [m] keeps the frame static and its logs, and when it succeeds
    the visible state is the one from before. *)

From stdpp Require Import base option list numbers gmap.
From S2P Require Import Prelude Rlp LevmState LevmMemory LevmGas LevmOpcodes LevmHost LevmArith.
From S2P Require Import LevmHandlers LevmSystem LevmVm LevmDemo LevmLogic LevmMetering.

Local Open Scope Z_scope.

Create HintDb pure.

(** ** The visible state *)

Definition account_view (vm : VM) (a : Z) : AccountInfo :=
  default (get_account_info (db vm) a) (info <$> cache vm !! a).

(** Balances, nonces, code and storage by address, transient storage, the
    refund counter and the sets of created and destructed accounts. *)
Definition same_state (vm vm' : VM) : Prop :=
  db vm' = db vm ∧
  (∀ a, account_view vm' a = account_view vm a) ∧
  (∀ a k, lookup_slot vm' a k = lookup_slot vm a k) ∧
  transient_storage (env vm') = transient_storage (env vm) ∧
  refunded_gas (env vm') = refunded_gas (env vm) ∧
  created_accounts (accrued_substate vm') = created_accounts (accrued_substate vm) ∧
  selfdestruct_set (accrued_substate vm') = selfdestruct_set (accrued_substate vm).

#[export] Instance same_state_equivalence : Equivalence same_state.
Proof.
  split; unfold same_state.
  - intros vm. by split_and!.
  - intros vm1 vm2 (?&?&?&?&?&?&?). by split_and!.
  - intros vm1 vm2 vm3 (H1&H2&H3&H4&H5&H6&H7) (G1&G2&G3&G4&G5&G6&G7).
    split_and!; intros; try congruence; by etrans.
Qed.

(** A frame inside a static call: not a creation, below the transaction. *)
Definition static (f : CallFrame) : Prop :=
  is_static f = true ∧ create_op_called f = false ∧ 0 < depth f.

Definition same_frame (f f' : CallFrame) : Prop :=
  (is_static f', create_op_called f', depth f', logs f')
  = (is_static f, create_op_called f, depth f, logs f).

Definition ok {A} (r : Result A) : Prop := match r with Ok _ => True | _ => False end.

Definition pure {A} (m : M A) : Prop := ∀ s, static s.2 →
  same_frame s.2 (m s).2.2 ∧ db (m s).2.1 = db s.1 ∧
  (ok (m s).1 → same_state s.1 (m s).2.1).

Lemma same_frame_static f f' : same_frame f f' → static f → static f'.
Proof. intros [= H1 H2 H3 H4]. unfold static. by rewrite H1, H2, H3. Qed.

Lemma same_frame_trans f1 f2 f3 : same_frame f1 f2 → same_frame f2 f3 → same_frame f1 f3.
Proof. unfold same_frame. congruence. Qed.

Lemma static_is_static f : static f → is_static f = true.
Proof. by intros [-> _]. Qed.

(** ** Rules *)

Lemma pure_ret {A} (a : A) : pure (mret a).
Proof. by intros s. Qed.
Lemma pure_lift {A} (r : Result A) : pure (lift r).
Proof. by intros s. Qed.
Lemma pure_throw {A} e : pure (throw e : M A).
Proof. by intros s. Qed.
Lemma pure_frame {A} (g : CallFrame → A) : pure (frame g).
Proof. by intros s. Qed.
Lemma pure_gets {A} (g : St → A) : pure (gets g).
Proof. by intros s. Qed.
Lemma pure_machine {A} (g : VM → A) : pure (machine g).
Proof. by intros s. Qed.

Lemma pure_bind {A B} (m : M A) (k : A → M B) : pure m → (∀ a, pure (k a)) → pure (m ≫= k).
Proof.
  intros Hm Hk s Hs. unfold mbind, st_bind. destruct (Hm s Hs) as (Hf & Hd & Ho).
  destruct (m s) as [[a| | |] s1]; simpl in *; try done.
  destruct (Hk a s1) as (Hf' & Hd' & Ho'); [by eapply same_frame_static|].
  split_and!; [by eapply same_frame_trans|congruence|]. intros Hok. etrans; [by apply Ho|by apply Ho'].
Qed.

(** What a static frame answers when it is read. *)
Lemma pure_bind_frame {B} (k : CallFrame → M B) :
  (∀ f, static f → pure (k f)) → pure (frame id ≫= k).
Proof. intros Hk s Hs. by apply Hk. Qed.
Lemma pure_bind_is_static {B} (k : bool → M B) : pure (k true) → pure (frame is_static ≫= k).
Proof. intros Hk s Hs. unfold mbind, st_bind, frame, gets. simpl. rewrite (proj1 Hs). by apply Hk. Qed.

Lemma pure_bind_depth {B} (k : Z → M B) :
  (∀ d, 0 < d → pure (k d)) → pure (frame depth ≫= k).
Proof. intros Hk s Hs. apply Hk; [apply Hs|done]. Qed.
Lemma pure_bind_lift {A B} (r : Result A) (k : A → M B) :
  (∀ a, r = Ok a → pure (k a)) → pure (lift r ≫= k).
Proof. intros Hk s Hs. destruct r; [by apply Hk|done..]. Qed.

Lemma pure_upd_frame g : (∀ f, same_frame f (g f)) → pure (upd_frame g).
Proof. intros Hg s Hs. simpl. split_and!; [apply Hg|done|done]. Qed.

Lemma pure_on_memory {A} (m : MM A) : pure (on_memory m).
Proof.
  intros s Hs. unfold on_memory, on_frame. destruct (m (memory s.2)) as [r mem']. done.
Qed.

Lemma pure_on_vm {A} (m : ST VM A) :
  (∀ vm, db (m vm).2 = db vm ∧ (ok (m vm).1 → same_state vm (m vm).2)) → pure (on_vm m).
Proof. intros Hm s Hs. unfold on_vm. specialize (Hm s.1). by destruct (m s.1). Qed.

Lemma pure_upd_vm g : (∀ vm, same_state vm (g vm)) → pure (upd_vm g).
Proof. intros Hg s Hs. simpl. split_and!; [done|apply Hg|done]. Qed.

(** ** Reading accounts and slots *)

Definition slot_in (vm : VM) (acc : Account) (a k : Z) : StorageSlot :=
  default (let value := get_storage_slot (db vm) a k in
           {| original_value := value; current_value := value |}) (storage acc !! k).

Lemma lookup_slot_cached vm a k acc :
  cache vm !! a = Some acc → lookup_slot vm a k = slot_in vm acc a k.
Proof. intros E. unfold lookup_slot, slot_in. rewrite E. by destruct (storage acc !! k). Qed.

(** Writing an entry that shows what was there before. *)
Lemma same_put vm a acc :
  info acc = account_view vm a → (∀ k, slot_in vm acc a k = lookup_slot vm a k) →
  same_state vm (set_cache (<[a := acc]> (cache vm)) vm).
Proof.
  intros Hi Hs. unfold same_state. simpl. split_and!; try done.
  - intros b. unfold account_view. simpl. destruct (decide (a = b)) as [->|].
    + rewrite lookup_insert_eq. done.
    + by rewrite lookup_insert_ne.
  - intros b k. destruct (decide (a = b)) as [->|].
    + rewrite (lookup_slot_cached _ b k acc) by (simpl; by rewrite lookup_insert_eq).
      by rewrite <- Hs.
    + unfold lookup_slot. simpl. by rewrite lookup_insert_ne.
Qed.

Lemma get_account_mut_spec a vm : ∃ acc vm',
  get_account_mut a vm = (Ok acc, vm') ∧ same_state vm vm' ∧ cache vm' !! a = Some acc.
Proof.
  unfold get_account_mut, gets, modify, mbind, st_bind. simpl.
  destruct (cache vm !! a) as [acc|] eqn:E; simpl.
  - rewrite E. by exists acc, vm.
  - rewrite lookup_insert_eq. simpl. do 2 eexists. split; [done|].
    split; [|simpl; by rewrite lookup_insert_eq].
    apply same_put; simpl; [unfold account_view; by rewrite E|].
    intros k. unfold slot_in, lookup_slot. by rewrite E.
Qed.

Lemma cached_view vm a acc : cache vm !! a = Some acc → account_view vm a = info acc.
Proof. intros E. unfold account_view. by rewrite E. Qed.

Lemma pure_get_account a : pure (on_vm (get_account a)).
Proof.
  apply pure_on_vm. intros vm. unfold get_account, gets, modify, mbind, st_bind. simpl.
  destruct (cache vm !! a) as [acc|] eqn:E; simpl; [done|]. split; [done|]. intros _.
  apply same_put; simpl; [unfold account_view; by rewrite E|].
  intros k. unfold slot_in, lookup_slot. by rewrite E.
Qed.

Lemma pure_access_account a : pure (on_vm (access_account a)).
Proof. by apply pure_on_vm. Qed.

Lemma pure_access_storage_slot a k : pure (on_vm (access_storage_slot a k)).
Proof.
  apply pure_on_vm. intros vm. unfold access_storage_slot, gets, modify, mbind, st_bind. simpl.
  set (vm1 := set_substate _ vm).
  assert (same_state vm vm1) as H1 by done.
  destruct (get_account_mut_spec a vm1) as (acc & vm2 & -> & H2 & Hc). simpl.
  assert (same_state vm2 (set_cache (<[a := set_storage (λ st, <[k := lookup_slot vm a k]> st) acc]>
    (cache vm2)) vm2)) as H3.
  { apply same_put; simpl; [by rewrite (cached_view _ _ acc)|]. intros k'.
    unfold slot_in. simpl. destruct (decide (k = k')) as [->|].
    - rewrite lookup_insert_eq. destruct H2 as (_&_&Hs&_). rewrite Hs. done.
    - rewrite lookup_insert_ne by done. by rewrite (lookup_slot_cached _ a k' acc). }
  split; [apply H2|]. intros _. etrans; [exact H1|]. by etrans.
Qed.

(** ** Transfers of nothing, and to oneself *)

Lemma balance_change_spec (f : Z → option Z) e a vm :
  let m := (account ← get_account_mut a; b ← lift (ok_or (f (balance (info account))) e);
            put_account a (set_info (set_balance b) account)) in
  db (m vm).2 = db vm ∧
  (ok (m vm).1 → ∃ b vm1, f (balance (account_view vm a)) = Some b ∧ same_state vm vm1 ∧
     ∃ acc, cache vm1 !! a = Some acc ∧
       (m vm).2 = set_cache (<[a := set_info (set_balance b) acc]> (cache vm1)) vm1).
Proof.
  unfold mbind, st_bind. destruct (get_account_mut_spec a vm) as (acc & vm1 & -> & H1 & Hc).
  pose proof H1 as (Hdb & Hv & _). specialize (Hv a). rewrite (cached_view _ _ acc) in Hv by done.
  rewrite <- Hv. unfold lift. destruct (f _) as [b|]; simpl; [|done]. split; [done|]. intros _.
  exists b, vm1. eauto.
Qed.

Lemma set_balance_id i : set_balance (balance i) i = i.
Proof. by destruct i. Qed.

(** Rewriting the balance of a cached account. *)
Lemma same_balance vm a acc b :
  cache vm !! a = Some acc → balance (info acc) = b →
  same_state vm (set_cache (<[a := set_info (set_balance b) acc]> (cache vm)) vm).
Proof.
  intros Hc <-. apply same_put; simpl.
  - by rewrite set_balance_id, (cached_view _ _ acc).
  - intros k. by rewrite (lookup_slot_cached _ a k acc).
Qed.

Lemma pure_balance_zero (f : Z → option Z) e a :
  (∀ x b, f x = Some b → b = x) →
  pure (on_vm (account ← get_account_mut a; b ← lift (ok_or (f (balance (info account))) e);
               put_account a (set_info (set_balance b) account))).
Proof.
  intros Hf. apply pure_on_vm. intros vm. destruct (balance_change_spec f e a vm) as [Hd Ho].
  split; [done|]. intros (b & vm1 & Hb & H1 & acc & Hc & ->)%Ho. etrans; [exact H1|].
  apply same_balance; [done|]. apply Hf in Hb as ->.
  rewrite <- (cached_view vm1 a acc Hc). by destruct H1 as (_&->&_).
Qed.

Lemma pure_decrease_zero a : pure (on_vm (decrease_account_balance a 0)).
Proof.
  apply (pure_balance_zero (λ x, checked_sub 256 x 0)). intros x b [-> _]%checked_sub_Some. lia.
Qed.
Lemma pure_increase_zero a : pure (on_vm (increase_account_balance a 0)).
Proof.
  apply (pure_balance_zero (λ x, checked_add 256 x 0)). intros x b [-> _]%checked_add_Some. lia.
Qed.

Lemma increase_cached vm a acc v :
  cache vm !! a = Some acc →
  increase_account_balance a v vm =
  match checked_add 256 (balance (info acc)) v with
  | Some b => (Ok tt, set_cache (<[a := set_info (set_balance b) acc]> (cache vm)) vm)
  | None => (Err BalanceOverflow, vm)
  end.
Proof.
  intros E. unfold increase_account_balance, get_account_mut, gets, mbind, st_bind. simpl.
  rewrite E. simpl. rewrite E. simpl. by destruct (checked_add _ _ _).
Qed.

Lemma pure_transfer a b v : v = 0 ∨ a = b →
  pure (_ ← on_vm (decrease_account_balance a v); on_vm (increase_account_balance b v)).
Proof.
  intros [->| ->].
  { apply pure_bind; [apply pure_decrease_zero|]. intros _. apply pure_increase_zero. }
  intros s Hs. unfold mbind, st_bind, on_vm.
  destruct (balance_change_spec (λ x, checked_sub 256 x v) BalanceUnderflow b s.1) as [Hd1 Ho1].
  change (account ← _; _) with (decrease_account_balance b v) in Hd1, Ho1.
  destruct (decrease_account_balance b v s.1) as [[[]| | |] vm2] eqn:E1; simpl in *; try done.
  destruct (Ho1 I) as (x & vm1 & Hx & H1 & acc & Hc & ->). clear Ho1 E1.
  rewrite (increase_cached _ _ (set_info (set_balance x) acc)) by (simpl; by rewrite lookup_insert_eq).
  simpl. destruct (checked_add 256 x v) as [y|] eqn:Ey; simpl; [|done].
  split_and!; [done|done|]. intros _. etrans; [exact H1|].
  apply checked_sub_Some in Hx as [-> _]. apply checked_add_Some in Ey as [-> _].
  assert (account_view s.1 b = info acc) as Hv
    by (rewrite <- (cached_view vm1 b acc Hc); symmetry; apply H1).
  pose proof (same_balance vm1 b acc (balance (info acc)) Hc eq_refl) as Hsame.
  rewrite Hv. rewrite insert_insert_eq.
  replace (balance (info acc) - v + v) with (balance (info acc)) by lia. exact Hsame.
Qed.

(** ** Handlers *)

#[export] Hint Resolve pure_on_memory pure_get_account pure_access_account
  pure_access_storage_slot : pure.
#[export] Hint Extern 1 (pure (upd_frame _)) =>
  apply pure_upd_frame; intros ?; reflexivity : pure.

Ltac pure_step :=
  lazymatch goal with
  | |- pure (let x := _ in _) => cbv zeta
  | |- pure (mret _) => apply pure_ret
  | |- pure (lift _) => apply pure_lift
  | |- pure (throw _) => apply pure_throw
  | |- pure (frame _) => apply pure_frame
  | |- pure (machine _) => apply pure_machine
  | |- pure (gets _) => apply pure_gets
  | |- pure (frame is_static ≫= _) => apply pure_bind_is_static
  | |- pure (frame id ≫= _) => apply pure_bind_frame; intros ? ?
  | |- pure (frame depth ≫= _) => apply pure_bind_depth; intros ? ?
  | |- pure (lift _ ≫= _) => apply pure_bind_lift; intros ? ?
  | |- pure (_ ≫= _) => apply pure_bind; [|intros ?]
  | H : static ?f |- pure (if is_static ?f then _ else _) => rewrite (static_is_static f H)
  | |- pure (if ?b then _ else _) => destruct b eqn:?
  | |- pure (let '(_, _) := ?p in _) => destruct p
  | |- pure (match ?x with _ => _ end) => destruct x
  | |- pure _ => solve [auto 2 with pure nocore]
  end.
Ltac unfold_pure := match goal with |- pure ?m => let h := head m in unfold h end.
Ltac pure := repeat first [pure_step | unfold_pure].

Lemma pure_pop : pure pop.
Proof. unfold pop. pure. Qed.
Lemma pure_push v : pure (push v).
Proof. unfold push. pure. Qed.
Lemma pure_increase c : pure (increase_consumed_gas c).
Proof. unfold increase_consumed_gas. pure. Qed.
Lemma pure_increment_pc_by n : pure (increment_pc_by n).
Proof. unfold increment_pc_by. pure. Qed.
#[export] Hint Resolve pure_pop pure_push pure_increase pure_increment_pc_by : pure.
Lemma pure_pop_topics n : pure (pop_topics n).
Proof. induction n as [|n IH]; simpl; pure; apply IH. Qed.
#[export] Hint Resolve pure_pop_topics : pure.

(** What a context does when it is entered in a static frame. *)
Definition pure_context (exec : M TransactionReport) : Prop := ∀ s, static s.2 →
  db (exec s).2.1 = db s.1 ∧
  ∀ report, (exec s).1 = Ok report →
    same_state s.1 (exec s).2.1 ∧ report_logs report = logs s.2.

Lemma pure_run_sub {B} exec nf (k : TransactionReport → M B) :
  pure_context exec → static nf → logs nf = [] →
  (∀ report, report_logs report = [] → pure (k report)) → pure (run_sub exec nf ≫= k).
Proof.
  intros He Hs Hl Hk s Hst. unfold run_sub, mbind, st_bind.
  destruct (He (s.1, nf) Hs) as [Hd Hr].
  destruct (exec (s.1, nf)) as [[report| | |] [vm f']]; simpl in *; try done.
  destruct (Hr report eq_refl) as [Hsame Hlogs]. rewrite Hl in Hlogs.
  destruct (Hk report Hlogs (vm, s.2) Hst) as (Hf & Hd' & Ho). simpl in *.
  split_and!; [done|congruence|]. intros Hok. etrans; [exact Hsame|by apply Ho].
Qed.

(** Appending the empty logs of a sub-context. *)
Lemma pure_append_logs ls : ls = [] → pure (upd_frame (λ f, set_logs (logs f ++ ls) f)).
Proof. intros ->. apply pure_upd_frame. intros f. unfold same_frame. simpl. by rewrite app_nil_r. Qed.

Section Static.
Context `{Crypto}.

Lemma pure_generic_call exec gl v a b c t ao asz ro rs :
  pure_context exec → (t = true → v = 0 ∨ a = b) →
  pure (generic_call exec gl v a b c t true ao asz ro rs).
Proof.
  intros He Ht. unfold generic_call.
  assert (∀ x y, (x = a ∧ y = b) ∨ (x = b ∧ y = a) →
    pure (if t then _ ← on_vm (decrease_account_balance x v); on_vm (increase_account_balance y v)
          else mret tt)) as Htr.
  { intros x y Hxy. destruct t; [|apply pure_ret]. apply pure_transfer.
    destruct (Ht eq_refl) as [->| ->]; [by left|right]. by destruct Hxy as [[-> ->]|[-> ->]]. }
  repeat lazymatch goal with
  | |- pure (run_sub _ _ ≫= _) =>
      apply pure_run_sub;
        [done|unfold internal in *; outcome_inv; split_and!; simpl; done || lia|done|
         intros report Hl]
  | |- pure ((if t then _ else _) ≫= _) => apply pure_bind; [by apply Htr; auto|intros _]
  | |- pure (upd_frame _) => first [pure_step | by apply pure_append_logs]
  | |- pure (push_continue _) => unfold push_continue
  | |- _ => pure_step
  end.
Qed.

(** CREATE fails at once. *)
Lemma pure_generic_create exec v off size salt : pure (generic_create exec v off size salt).
Proof.
  unfold generic_create. apply pure_bind_frame. intros f [-> _]. apply pure_throw.
Qed.

Lemma pure_dispatch exec op : pure_context exec → pure (dispatch exec op).
Proof.
  intros He. destruct (calls op) eqn:Ec.
  - destruct op; try discriminate Ec; unfold dispatch; unfold_pure;
      repeat lazymatch goal with
      | |- pure (generic_create _ _ _ _ _) => apply pure_generic_create
      | H : static ?f |- pure (generic_call _ _ _ _ _ _ _ (is_static ?f) _ _ _ _) =>
          rewrite (static_is_static f H); apply pure_generic_call; [done|intros Ht]
      | |- pure (generic_call _ _ _ _ _ _ _ _ _ _ _ _) => apply pure_generic_call; [done|intros Ht]
      | |- pure pop_usize => unfold pop_usize
      | |- _ => pure_step
      end.
    1: left; destruct H0 as [Hst _]; rewrite Hst in Heqb; simpl in Heqb; by propify.
    all: first [by left | by right | discriminate Ht].
  - destruct op; try discriminate Ec; clear Ec; unfold dispatch; cbv beta iota;
      repeat match goal with
      | |- context [Opcode.in_range ?a ?b ?c] =>
          let v := eval vm_compute in (Opcode.in_range a b c) in
          change (Opcode.in_range a b c) with v; cbv iota
      end; repeat first [pure_step | unfold_pure].
Qed.

(** ** Contexts *)

(** A context in progress: [vm0] is the machine it was entered with. *)
Definition pure_end (vm0 : VM) (ls : list Log) (o : Result TransactionReport * St) : Prop :=
  db o.2.1 = db vm0 ∧
  ∀ report, o.1 = Ok report → same_state vm0 o.2.1 ∧ report_logs report = ls.

Lemma same_restore vm0 vm : db vm = db vm0 → same_state vm0 (restore_state (take_backup vm0) vm).
Proof. intros Hd. unfold same_state, account_view, lookup_slot. simpl. by rewrite Hd. Qed.

Lemma finish_error_pure vm0 e s :
  db s.1 = db vm0 → pure_end vm0 (logs s.2) (finish_error (take_backup vm0) e s).
Proof.
  intros Hd. unfold finish_error, pure_end. destruct (is_internal e); [done|].
  destruct (bool_decide _); (split; [done|]); intros rep [= <-]; (split; [|done]);
    by apply same_restore.
Qed.

Lemma finish_success_pure vm0 s :
  static s.2 → same_state vm0 s.1 → pure_end vm0 (logs s.2) (finish_success (take_backup vm0) s).
Proof.
  intros (_&Hc&Hdep) Hs. unfold finish_success, pure_end, mbind, st_bind. simpl.
  rewrite Hc, (proj2 (Z.eqb_neq _ 0)), andb_false_r by lia. simpl.
  split; [apply Hs|]. by intros rep [= <-].
Qed.

Lemma run_precompile_pure s : pure_end s.1 (logs s.2) (run_precompile (take_backup s.1) s).
Proof.
  unfold run_precompile, Precompile.execute_precompile, pure_end.
  destruct (Precompile.dispatch _ _ _ _) as [[out|error| |] g]; simpl; try done.
  - split; [done|]. by intros rep [= <-].
  - destruct (is_internal error); [done|]. split; [done|]. intros rep [= <-].
    split; [|done]. by apply same_restore.
Qed.

Lemma execute_with_pure loop :
  (∀ s, static s.2 → pure_end s.1 (logs s.2) (loop (take_backup s.1) s)) →
  pure_context (execute_with loop).
Proof.
  intros Hl s Hs. unfold execute_with, mbind, st_bind, gets. cbv beta iota. unfold id.
  destruct (Precompile.is_precompile _); [apply run_precompile_pure|by apply Hl].
Qed.

Lemma pure_end_bind {A} (m : M A) k vm0 s :
  pure m → static s.2 → db s.1 = db vm0 →
  (∀ a s', static s'.2 → logs s'.2 = logs s.2 → db s'.1 = db vm0 → same_state s.1 s'.1 →
     pure_end vm0 (logs s'.2) (k a s')) →
  pure_end vm0 (logs s.2) ((m ≫= k) s).
Proof.
  intros Hm Hs Hd Hk. destruct (Hm s Hs) as (Hf & Hd' & Ho). unfold mbind, st_bind.
  destruct (m s) as [[a| | |] s']; simpl in *; [|split; simpl; [congruence|done]..].
  pose proof Hf as [= _ _ _ Hl]. rewrite <- Hl.
  apply Hk; [by eapply same_frame_static|done|congruence|by apply Ho].
Qed.

Lemma run_pure fuel : ∀ vm0 s, static s.2 → same_state vm0 s.1 →
  pure_end vm0 (logs s.2) (run fuel (take_backup vm0) s).
Proof.
  induction fuel as [|fuel IH]; intros vm0 s Hs Hsame; simpl run.
  { split; [apply Hsame|done]. }
  assert (pure_context (execute_with (run fuel))) as He
    by (apply execute_with_pure; intros s' ?; by apply IH).
  destruct (pure_dispatch _ (next_opcode s.2) He s Hs) as (Hf & Hd & Ho).
  destruct (dispatch _ _ s) as [r s1]. simpl in Hf, Hd, Ho.
  assert (db s1.1 = db vm0) as Hd0 by (rewrite Hd; apply Hsame).
  assert (static s1.2) as Hs1 by (by eapply same_frame_static).
  pose proof Hf as [= _ _ _ Hl]. rewrite <- Hl. unfold after_opcode.
  assert (pure (if bool_decide (next_opcode s.2 = Opcode.JUMP) ||
    bool_decide (next_opcode s.2 = Opcode.JUMPI) then mret tt else increment_pc)) as Hn
    by (destruct (_ || _); [apply pure_ret|apply pure_increment_pc_by]).
  destruct r as [[|res]|error| |]; try (by split; [done|]);
    (apply pure_end_bind; [done..|]; intros [] s2 Hs2 _ Hd2 Hsame2).
  - apply IH; [done|]. etrans; [exact Hsame|]. etrans; [by apply Ho|done].
  - apply finish_success_pure; [done|]. etrans; [exact Hsame|]. etrans; [by apply Ho|done].
  - by apply finish_error_pure.
Qed.

(** C12: static contexts change nothing (EIP-214).  When [execute] returns from
    a frame entered with the static flag, then whatever the code did, and
    whatever contexts it called in turn, every account has the balance, nonce
    and code, every slot the value, that it had before; transient storage, the
    refund counter and the sets of created and destructed accounts are the
    same, and no log was added. *)
Theorem static_context_is_pure (fuel : nat) (s : St) (report : TransactionReport) :
  is_static s.2 = true → create_op_called s.2 = false → 0 < depth s.2 →
  (execute fuel s).1 = Ok report →
  same_state s.1 (execute fuel s).2.1 ∧ report_logs report = logs s.2.
Proof.
  intros H1 H2 H3 Hr. assert (static s.2) as Hs by done.
  by apply (execute_with_pure (run fuel) (λ s' Hs', run_pure fuel s'.1 s' Hs' ltac:(done)) s Hs).
Qed.

End Static.

(** A static frame that reads a slot: PUSH1 1, SLOAD. *)
Definition sload_state : St :=
  (demo_vm 3000 [], new_call_frame 100 42 42 [0x60; 0x01; 0x54] 0 [] true 3000 0 1 false).

Lemma static_context_is_pure_witness :
  ∃ report, (execute 10 sload_state).1 = Ok report ∧
    same_state sload_state.1 (execute 10 sload_state).2.1 ∧ report_logs report = [].
Proof.
  destruct (execute 10 sload_state).1 as [report| | |] eqn:E; [|by vm_compute in E..].
  destruct (static_context_is_pure 10 sload_state report eq_refl eq_refl eq_refl E) as [H1 H2].
  exists report. split; [reflexivity|]. split; [exact H1|exact H2].
Defined.
