(* ===== verification/LevmTransaction.v ===== *)
(** * LEVM: transactions

    [VM::new], [prepare_execution], [transact] and [post_execution_changes]:
    a transaction comes to an end, what is accepted satisfies the validity rules
    of the protocol, the intrinsic gas has its closed form, and the fees are
    settled to the wei. *)

From stdpp Require Import base option list numbers gmap.
From S2P Require Import Prelude Rlp LevmState LevmMemory LevmMemoryProofs LevmGas LevmOpcodes.
From S2P Require Import LevmHost LevmArith LevmHandlers LevmSystem LevmVm LevmDemo LevmLogic.
From S2P Require Import LevmFees LevmMetering LevmTermination LevmExecution LevmStatic.

Local Open Scope Z_scope.

(** ** Termination *)

Lemma total_on_vm {A} (m : ST VM A) : total m → total (on_vm m).
Proof. intros Hm s. specialize (Hm s.1). unfold on_vm. by destruct (m s.1). Qed.
Lemma total_map_error {A} f (m : M A) : total m → total (map_error f m).
Proof.
  intros Hm s. specialize (Hm s). unfold map_error. destruct (m s) as [[| | |] s'']; simpl in *;
    [done..|destruct Hm; done|destruct Hm; done].
Qed.
Lemma total_upd_frame g : total (upd_frame g).
Proof. by intros s. Qed.
Ltac total_tx :=
  repeat match goal with
  | |- total (on_vm _) => apply total_on_vm
  | |- total (map_error _ _) => apply total_map_error
  | |- total (upd_frame _) => apply total_upd_frame
  | |- total _ => total_step
  end.

Lemma returns_access_list_key_costs keys : ∀ c, returns (access_list_key_costs c keys).
Proof. induction keys as [|k keys IH]; intros c; simpl; returns; apply IH. Qed.
#[local] Hint Resolve returns_access_list_key_costs : returns.
Lemma returns_access_list_cost l : ∀ c, returns (access_list_cost_from c l).
Proof. induction l as [|[a keys] l IH]; intros c; simpl; returns; apply IH. Qed.
#[local] Hint Resolve returns_access_list_cost : returns.
Lemma returns_tx_calldata d : returns (Gas.tx_calldata d).
Proof.
  unfold Gas.tx_calldata. generalize 0. induction d as [|b d IH]; intros c; simpl; returns; apply IH.
Qed.
#[local] Hint Resolve returns_tx_calldata : returns.

Section Transaction.
Context `{Crypto}.

Lemma returns_intrinsic_gas vm d : returns (intrinsic_gas vm d).
Proof. unfold intrinsic_gas. returns. Qed.
Hint Resolve returns_intrinsic_gas : returns.

Lemma total_prepare_execution : total prepare_execution.
Proof. unfold prepare_execution, add_intrinsic_gas. total_tx. Qed.

Lemma total_settle f report : total (settle f report).
Proof. unfold settle, post_execution_changes. total. Qed.

(** Everything before the execution keeps the frame in its invariant. *)
Definition stays_ok (f f' : CallFrame) : Prop := frame_ok f → frame_ok f'.
#[local] Instance stays_ok_preorder : PreOrder stays_ok.
Proof. split; unfold stays_ok; [by intros f|]. intros ??? H1 H2 H3. by apply H2, H1. Qed.

Lemma keeps_map_error {A} R f (m : M A) : keeps R m → keeps R (map_error f m).
Proof. intros Hm s. specialize (Hm s). unfold map_error. by destruct (m s). Qed.

Lemma intrinsic_gas_nonneg vm d c : intrinsic_gas vm d = Ok c → 0 ≤ c.
Proof. unfold intrinsic_gas, oog. intros Hi. outcome_inv. unfold in_u in *. lia. Qed.

Lemma stays_ok_increase c : 0 ≤ c → keeps (both any_vm stays_ok) (increase_consumed_gas c).
Proof.
  intros Hc s. destruct (keeps_increase_consumed_gas c Hc s) as [_ [_ Hok]]. split; [done|].
  intros Hs. by destruct (Hok Hs).
Qed.

Lemma stays_ok_upd_frame g :
  (∀ f, frame_ok f → frame_ok (g f)) → keeps (both any_vm stays_ok) (upd_frame g).
Proof. intros Hg. apply keeps_upd_frame; [apply _|exact Hg]. Qed.

Lemma stays_ok_on_vm {A} (m : ST VM A) : keeps (both any_vm stays_ok) (on_vm m).
Proof. apply keeps_on_vm; [apply _|done]. Qed.
#[local] Hint Resolve stays_ok_on_vm : keeps.

Lemma keeps_prepare_execution : keeps (both any_vm stays_ok) prepare_execution.
Proof.
  unfold prepare_execution, add_intrinsic_gas, assign_bytecode.
  repeat match goal with
  | |- keeps _ (map_error _ (increase_consumed_gas _)) =>
      apply keeps_map_error, stays_ok_increase; by eapply intrinsic_gas_nonneg
  | |- keeps _ (map_error _ _) => apply keeps_map_error
  | |- keeps _ (upd_frame _) => apply stays_ok_upd_frame; by intros f
  | |- _ => keeps_step
  end.
Qed.

Lemma returns_bind_at {S A B} (m : ST S A) (k : A → ST S B) s :
  returns (m s).1 → (∀ a s', m s = (Ok a, s') → returns (k a s').1) → returns ((m ≫= k) s).1.
Proof.
  intros Hm Hk. unfold mbind, st_bind. destruct (m s) as [[a| | |] s']; simpl in *;
    [by apply Hk|done|destruct Hm; done|destruct Hm; done].
Qed.

Lemma returns_transact_frame s : frame_ok s.2 → returns (transact_frame s).1.
Proof.
  intros Hok. unfold transact_frame.
  apply returns_bind_at; [apply total_prepare_execution|]. intros [] s1 E1.
  destruct (keeps_Ok _ _ _ _ _ keeps_prepare_execution E1) as [_ Hok1]. specialize (Hok1 Hok).
  apply returns_bind_at; [done|]. intros vm s2 [= _ <-].
  apply returns_bind_at; [done|]. intros f s3 [= _ <-].
  match goal with |- returns ((?m ≫= ?k) s1).1 =>
    assert (total m ∧ keeps (both any_vm stays_ok) m) as [Ht Hk] end.
  { split; [total_tx|keeps]. }
  apply returns_bind_at; [apply Ht|]. intros occupied s4 E4.
  destruct (keeps_Ok _ _ _ _ _ Hk E4) as [_ Hok4]. specialize (Hok4 Hok1).
  destruct occupied; [apply total_on_vm; unfold handle_create_non_empty_account;
    apply total_bind; [apply total_gets|]; intros; apply total_settle|].
  apply returns_bind_at; [by apply execute_returns|]. intros report s5 E5.
  apply returns_bind_at; [done|]. intros g s6 E6. apply total_on_vm, total_settle.
Qed.

(** C20: a transaction terminates.  A machine made by [VM::new] for any
    transaction whose gas limit is a u64, over any database, block environment
    and code, runs [transact] to the end: it yields a report or an error and
    neither loops nor panics. *)
Theorem transact_terminates kind e value data d c al vm :
  new_vm kind e value data d c al = Ok vm → 0 ≤ env_gas_limit e < 2 ^ 64 →
  returns (transact vm).1.
Proof.
  intros Hn Hg.
  assert (∃ f, call_frames vm = [f] ∧ frame_ok f) as (f & Hf & Hok).
  { unfold new_vm in Hn. destruct kind as [|to_].
    all: destruct (get_account _ _) as [[account| | |] vm'] in Hn; simpl in Hn; try discriminate Hn.
    all: outcome_inv; try subst vm; eexists; (split; [reflexivity|]); split_and!; simpl; done || lia. }
  unfold transact. rewrite Hf. simpl.
  destruct (transact_frame _) as [r [vm' f']] eqn:E. simpl.
  change r with (r, (vm', f')).1. rewrite <- E. by apply returns_transact_frame.
Qed.

(** ** Intrinsic gas *)

Definition calldata_gas (data : list Z) : Z :=
  foldr (λ b g, (if b =? 0 then 4 else 16) + g) 0 data.
Definition access_list_gas (al : list (Z * list Z)) : Z :=
  foldr (λ entry g, 2400 + 1900 * len entry.2 + g) 0 al.

(** 21000, the calldata by byte, the access list by entry; a creation pays
    32000 more and 2 for each word of init code. *)
Definition intrinsic_spec (create : bool) (data : list Z) (al : list (Z * list Z)) : Z :=
  21000 + calldata_gas data + access_list_gas al
  + (if create then 32000 + 2 * div_ceil (len data) 32 else 0).

Lemma calldata_gas_nonneg data : 0 ≤ calldata_gas data.
Proof. induction data as [|b d IH]; simpl; [done|]. destruct (b =? 0); lia. Qed.
Lemma access_list_gas_nonneg al : 0 ≤ access_list_gas al.
Proof. induction al as [|[a k] al IH]; simpl; [done|]. pose proof (len_nonneg k). lia. Qed.

Lemma words_nonneg (data : list Z) : 0 ≤ div_ceil (len data) 32.
Proof.
  pose proof (len_nonneg data). pose proof (Z.div_pos (len data) 32). unfold div_ceil.
  case_match; lia.
Qed.

(** One checked addition of a sum of costs. *)
Lemma add_cost c x e (k : Z → Result Z) g t :
  in_u 64 c → 0 ≤ x → 0 ≤ t →
  (∀ c', in_u 64 c' → k c' = Ok g ↔ g = c' + t ∧ c' + t < 2 ^ 64) →
  (c' ← oog (checked_add 64 c x) e; k c') = Ok g ↔ g = c + (x + t) ∧ c + (x + t) < 2 ^ 64.
Proof.
  intros Hc Hx Ht Hk. rewrite Z.add_assoc. unfold oog. rewrite bind_Ok.
  setoid_rewrite ok_or_Ok. setoid_rewrite checked_add_Some. unfold in_u in *. split.
  - intros (y & [-> Hy] & Hr). by apply Hk.
  - intros [-> Hlt]. exists (c + x). split; [split; [done|lia]|]. apply Hk; lia.
Qed.

Lemma tx_calldata_from_spec data : ∀ c g, in_u 64 c →
  Gas.tx_calldata_from c data = Ok g ↔ g = c + calldata_gas data ∧ c + calldata_gas data < 2 ^ 64.
Proof.
  induction data as [|b data IH]; intros c g Hc; simpl.
  - rewrite Z.add_0_r. unfold in_u in Hc. naive_solver.
  - replace (if negb (b =? 0) then Gas.CALLDATA_COST_NON_ZERO_BYTE else Gas.CALLDATA_COST_ZERO_BYTE)
      with (if b =? 0 then 4 else 16) by (by destruct (b =? 0)).
    apply add_cost; [done|by destruct (b =? 0)|apply calldata_gas_nonneg|]. intros. by apply IH.
Qed.

Lemma access_list_key_costs_spec keys : ∀ c g, in_u 64 c →
  access_list_key_costs c keys = Ok g ↔ g = c + 1900 * len keys ∧ c + 1900 * len keys < 2 ^ 64.
Proof.
  induction keys as [|k keys IH]; intros c g Hc; simpl.
  - rewrite (len_nil (A:=Z)), Z.mul_0_r, Z.add_0_r. unfold in_u in Hc. naive_solver.
  - rewrite len_cons. pose proof (len_nonneg keys).
    replace (1900 * (len keys + 1)) with (1900 + 1900 * len keys) by lia.
    apply add_cost; [done|done|lia|]. intros. by apply IH.
Qed.

Lemma access_list_cost_spec al : ∀ c g, in_u 64 c →
  access_list_cost_from c al = Ok g ↔ g = c + access_list_gas al ∧ c + access_list_gas al < 2 ^ 64.
Proof.
  induction al as [|[a keys] al IH]; intros c g Hc; simpl.
  - rewrite Z.add_0_r. unfold in_u in Hc. naive_solver.
  - rewrite <- Z.add_assoc. pose proof (len_nonneg keys). pose proof (access_list_gas_nonneg al).
    apply add_cost; [done|done|lia|]. intros c' Hc'. rewrite bind_Ok.
    setoid_rewrite access_list_key_costs_spec; [|done]. unfold in_u in *. split.
    + intros (y & [-> Hy] & Hr). apply IH in Hr as [-> ?]; unfold in_u; lia.
    + intros [-> Hlt]. exists (c' + 1900 * len keys). split; [lia|]. apply IH; unfold in_u; lia.
Qed.

(** Checked operations whose results fit. *)
Ltac run_checked :=
  repeat (first [rewrite checked_add_in by (unfold in_u; lia)
                |rewrite checked_mul_in by (unfold in_u; lia)
                |rewrite try_into_in by (unfold in_u; lia)]; cbn [ok_or mbind outcome_bind]).

(** Intrinsic gas: the amount charged before execution is 21000, 4 per
    zero and 16 per non-zero byte of calldata, 2400 per address and 1900 per key
    of the access list, and for a creation 32000 and 2 per word of init code;
    exactly when that sum does not fit in a u64 there is an error instead. *)
Theorem intrinsic_gas_spec (vm : VM) (data : list Z) (g : Z) :
  intrinsic_gas vm data = Ok g ↔
  g = intrinsic_spec (is_create vm) data (access_list vm) ∧ in_u 64 g.
Proof.
  pose proof (calldata_gas_nonneg data) as Hd. pose proof (access_list_gas_nonneg (access_list vm)) as Ha.
  assert (0 ≤ div_ceil (len data) 32) as Hw by apply words_nonneg.
  assert (in_u 64 0) as H0 by done.
  unfold intrinsic_gas, intrinsic_spec, Gas.tx_calldata, oog, internal.
  change Gas.WORD_SIZE with 32. change Gas.CREATE_BASE_COST with 32000. change TX_BASE_COST with 21000.
  split.
  - intros Hi. outcome_inv.
    repeat match goal with
    | E : Gas.tx_calldata_from _ _ = Ok _ |- _ => apply tx_calldata_from_spec in E as [-> ?]; [|done]
    | E : access_list_cost_from _ _ = Ok _ |- _ => apply access_list_cost_spec in E as [-> ?]; [|done]
    | E : (if is_create vm then _ else _) = _ |- _ => destruct (is_create vm)
    end; outcome_inv; unfold in_u in *; lia.
  - intros [-> Hin]. unfold in_u in Hin. destruct (is_create vm);
      rewrite (proj2 (tx_calldata_from_spec data 0 (0 + calldata_gas data) H0)) by lia;
      cbn [mbind outcome_bind]; run_checked;
      rewrite (proj2 (access_list_cost_spec (access_list vm) 0 (0 + access_list_gas (access_list vm)) H0))
        by lia;
      cbn [mbind outcome_bind]; run_checked; f_equal; lia.
Qed.

Lemma lift_bind_Ok {S A B} (r : Result A) (k : A → ST S B) s b s' :
  (lift r ≫= k) s = (Ok b, s') → ∃ a, r = Ok a ∧ k a s = (Ok b, s').
Proof. intros (a & s1 & [= -> <-] & Hk)%st_bind_Ok. eauto. Qed.
Lemma gets_bind_Ok {S A B} (g : S → A) (k : A → ST S B) s b s' :
  (gets g ≫= k) s = (Ok b, s') → k (g s) s = (Ok b, s').
Proof. done. Qed.

(** ** Accounts as the settlement sees them *)

(** What the account operations leave alone. *)
Definition same_env (vm vm' : VM) : Prop :=
  db vm' = db vm ∧ env vm' = env vm ∧ tx_kind vm' = tx_kind vm ∧
  access_list vm' = access_list vm ∧ accrued_substate vm' = accrued_substate vm.

#[local] Instance same_env_preorder : PreOrder same_env.
Proof. split; unfold same_env; [done|]. intros vm1 vm2 vm3. intuition congruence. Qed.

(** [vm'] differs from [vm] in account [a], which now is [i]. *)
Definition writes (a : Z) (i : AccountInfo) (vm vm' : VM) : Prop :=
  same_env vm vm' ∧
  ∀ b, account_view vm' b = if decide (b = a) then i else account_view vm b.

Lemma get_account_mut_env a vm : same_env vm (get_account_mut a vm).2.
Proof.
  unfold get_account_mut, gets, modify, mbind, st_bind. simpl.
  by destruct (cache vm !! a).
Qed.

(** The shape of the operations that update one field of an account. *)
Lemma update_Ok {A} a (f : AccountInfo → Result A) (g : A → AccountInfo → AccountInfo) vm r vm' :
  (account ← get_account_mut a; b ← lift (f (info account));
   put_account a (set_info (g b) account)) vm = (Ok r, vm') →
  ∃ b, f (account_view vm a) = Ok b ∧ writes a (g b (account_view vm a)) vm vm'.
Proof.
  intros Hr. apply st_bind_Ok in Hr as (acc & vm1 & H1 & Hr).
  apply st_bind_Ok in Hr as (b & vm2 & H2 & Hr). injection H2 as Hf <-. injection Hr as _ <-.
  pose proof (get_account_mut_env a vm) as Henv. rewrite H1 in Henv. simpl in Henv.
  destruct (get_account_mut_spec a vm) as (acc' & vm1' & E & Hs & Hc).
  rewrite H1 in E. injection E as -> ->. destruct Hs as (_ & Hv & _).
  assert (account_view vm a = info acc') as Ha by (rewrite <- Hv; by apply cached_view).
  exists b. rewrite Ha. split; [done|]. split; [exact Henv|]. intros c. unfold account_view at 1.
  simpl. destruct (decide (c = a)) as [->|].
  - by rewrite lookup_insert_eq.
  - rewrite lookup_insert_ne by done. apply Hv.
Qed.

Definition bal (vm : VM) (a : Z) : Z := balance (account_view vm a).

Lemma increase_Ok a v vm r vm' : increase_account_balance a v vm = (Ok r, vm') →
  writes a (set_balance (bal vm a + v) (account_view vm a)) vm vm' ∧ in_u 256 (bal vm a + v).
Proof.
  intros Hr. apply (update_Ok a (λ i, ok_or (checked_add 256 (balance i) v) BalanceOverflow)
    set_balance) in Hr as (b & Hb & Hw). outcome_inv. done.
Qed.

Lemma decrease_Ok a v vm r vm' : decrease_account_balance a v vm = (Ok r, vm') →
  writes a (set_balance (bal vm a - v) (account_view vm a)) vm vm' ∧ in_u 256 (bal vm a - v).
Proof.
  intros Hr. apply (update_Ok a (λ i, ok_or (checked_sub 256 (balance i) v) BalanceUnderflow)
    set_balance) in Hr as (b & Hb & Hw). outcome_inv. done.
Qed.

Lemma increment_Ok a vm n vm' : increment_account_nonce a vm = (Ok n, vm') →
  writes a (set_nonce (nonce (account_view vm a) + 1) (account_view vm a)) vm vm' ∧
  in_u 64 (nonce (account_view vm a) + 1).
Proof.
  intros Hr. unfold increment_account_nonce in Hr.
  apply st_bind_Ok in Hr as (acc & vm1 & H1 & Hr). apply st_bind_Ok in Hr as (m & vm2 & H2 & Hr).
  apply st_bind_Ok in Hr as (u & vm3 & H3 & Hr). injection Hr as _ <-.
  destruct (update_Ok a (λ i, ok_or (checked_add 64 (nonce i) 1) NonceOverflow) set_nonce vm u vm3)
    as (b & Hb & Hw).
  { apply st_bind_Ok. exists acc, vm1. split; [done|]. apply st_bind_Ok. by exists m, vm2. }
  outcome_inv. done.
Qed.

(** ** Settlement *)

(** An amount that goes to account [a]. *)
Definition paid (a b amount : Z) : Z := if decide (b = a) then amount else 0.

Lemma increase_bal a v vm r vm' : increase_account_balance a v vm = (Ok r, vm') →
  same_env vm vm' ∧ ∀ b, bal vm' b = bal vm b + paid a b v.
Proof.
  intros [[Henv Hv] _]%increase_Ok. split; [done|]. intros b. unfold bal, paid. rewrite Hv.
  destruct (decide (b = a)) as [->|]; simpl; [done|lia].
Qed.

(** The balances when the value transfer of a failed transaction is undone. *)
Definition undone (vm : VM) (f : CallFrame) (r : TxResult) (b : Z) : Z :=
  match r with
  | Success => bal vm b
  | Revert _ =>
      (if decide (b = to f) then balance (get_account_info (db vm) b) else bal vm b)
      + paid (msg_sender f) b (msg_value f)
  end.

Lemma undo_bal f r vm u vm' :
  (match r with
   | Revert _ => _ ← remove_account (to f);
                 increase_account_balance (msg_sender f) (msg_value f)
   | Success => mret tt
   end) vm = (Ok u, vm') →
  same_env vm vm' ∧ ∀ b, bal vm' b = undone vm f r b.
Proof.
  destruct r as [|e]; [by intros [= _ <-]|]. intros Hr.
  apply st_bind_Ok in Hr as ([] & vm1 & H1 & H2). injection H1 as <-.
  apply increase_bal in H2 as [Henv Hb]. split; [done|]. intros b. rewrite Hb. unfold undone. f_equal.
  unfold bal, account_view. simpl. destruct (decide (b = to f)) as [->|].
  - by rewrite lookup_delete_eq.
  - by rewrite lookup_delete_ne.
Qed.

Lemma destruct_accounts_bal vm b :
  b ∉ selfdestruct_set (accrued_substate vm) → bal (destruct_accounts vm).2 b = bal vm b.
Proof.
  intros Hb. unfold bal, account_view, destruct_accounts. simpl. f_equal. f_equal. f_equal.
  destruct (cache vm !! b) as [acc|] eqn:E.
  - by apply map_lookup_filter_Some.
  - apply map_lookup_filter_None. by left.
Qed.

(** C19: settlement.  When a transaction is settled, the refund is the counter
    capped at a fifth of the gas used; the sender gets back the price of the
    unused and the refunded gas; the fee recipient gets the priority fee of the
    gas paid for; a failed transaction also returns the value to the sender and
    restores the receiver to what the database has; the accounts that destroyed
    themselves are dropped from the cache with whatever they had or are paid; and no
    other balance changes.  Of the price of the whole gas limit, what is not returned
    and not paid to the recipient is the burnt base fee. *)
Theorem settlement_correct (f : CallFrame) (report report' : TransactionReport) (vm vm' : VM) :
  settle f report vm = (Ok report', vm') →
  let e := env vm in
  let used := report_gas_used report in
  let refund := Z.min (gas_refunded report) (used / 5) in
  let returned := gas_price e * (env_gas_limit e - used + refund) in
  let tip := (used - refund) * (gas_price e - base_fee_per_gas e) in
  gas_refunded report' = refund ∧ used ≤ env_gas_limit e ∧
  new_state report' = cache vm' ∧
  (∀ a, a ∉ selfdestruct_set (accrued_substate vm) →
     bal vm' a = undone vm f (result report) a
                 + paid (msg_sender f) a returned + paid (coinbase e) a tip) ∧
  (∀ a, a ∈ selfdestruct_set (accrued_substate vm) → cache vm' !! a = None) ∧
  gas_price e * env_gas_limit e = returned + tip + (used - refund) * base_fee_per_gas e.
Proof.
  intros Hs. apply st_bind_Ok in Hs as (refunded & vm6 & Hp & Hs). injection Hs as <- <-.
  unfold post_execution_changes in Hp. apply st_bind_Ok in Hp as (u1 & vm1 & H1 & Hp).
  apply undo_bal in H1 as [He1 Hb1]. apply gets_bind_Ok in Hp.
  apply lift_bind_Ok in Hp as (fifth & H2 & Hp). apply lift_bind_Ok in Hp as (gas & H3 & Hp).
  apply lift_bind_Ok in Hp as (wei & H4 & Hp). apply st_bind_Ok in Hp as (u2 & vm2 & H5 & Hp).
  apply increase_bal in H5 as [He2 Hb2].
  apply lift_bind_Ok in Hp as (gas' & H6 & Hp). apply lift_bind_Ok in Hp as (prio & H7 & Hp).
  apply lift_bind_Ok in Hp as (fee & H8 & Hp). apply st_bind_Ok in Hp as (u3 & vm3 & H9 & Hp).
  assert (same_env vm2 vm3 ∧ ∀ b, bal vm3 b = bal vm2 b + paid (coinbase (env vm1)) b fee)
    as [He3 Hb3].
  { destruct (Z.eqb_spec fee 0) as [->|]; simpl in H9; [|by apply increase_bal in H9].
    injection H9 as _ <-. split; [done|]. intros b. unfold paid. case_decide; lia. }
  injection Hp as <- <-. unfold id, internal in *. outcome_inv. clear H9.
  assert (env vm1 = env vm) as Henv by apply He1. rewrite Henv in *.
  apply bind_Some in H3 as (left & [-> Hl]%checked_sub_Some & [-> _]%checked_add_Some).
  assert (accrued_substate vm3 = accrued_substate vm) as Es.
  { destruct He1 as (_&_&_&_&E1), He2 as (_&_&_&_&E2), He3 as (_&_&_&_&E3). congruence. }
  split; [done|]. split; [unfold in_u in Hl; lia|]. split; [done|]. split_and!; [| |ring].
  - intros a Ha. pose proof (destruct_accounts_bal vm3 a) as Hd. simpl in Hd.
    rewrite Hd by (by rewrite Es). by rewrite Hb3, Hb2, Hb1.
  - intros a Ha. apply map_lookup_filter_None. right. intros acc _ Hn. apply Hn. by rewrite Es.
Qed.

(** ** Acceptance *)

Lemma on_vm_Ok {A} (m : ST VM A) s a s' : on_vm m s = (Ok a, s') →
  ∃ vm', m s.1 = (Ok a, vm') ∧ s' = (vm', s.2).
Proof. unfold on_vm. destruct (m s.1) as [r vm']. intros [= -> <-]. eauto. Qed.

Lemma map_error_Ok {A} f (m : M A) s a s' : map_error f m s = (Ok a, s') → m s = (Ok a, s').
Proof.
  unfold map_error. destruct (m s) as [r s1]. intros [= Hr <-].
  by apply map_err_Ok in Hr as ->.
Qed.

(** A guard that was passed. *)
Lemma guard_Ok {A} (b : bool) e (k : unit → M A) s a s' :
  ((if b then throw e else mret tt) ≫= k) s = (Ok a, s') → b = false ∧ k tt s = (Ok a, s').
Proof. by destruct b. Qed.

Lemma get_account_view a vm acc vm' : get_account a vm = (Ok acc, vm') →
  info acc = account_view vm a ∧ same_env vm vm' ∧ ∀ b, account_view vm' b = account_view vm b.
Proof.
  unfold get_account, gets, modify, mbind, st_bind, account_view. simpl.
  destruct (cache vm !! a) as [acc'|] eqn:E; intros [= <- <-]; rewrite ?E; [done|].
  split; [done|]. split; [done|]. intros b. simpl. destruct (decide (b = a)) as [->|].
  - by rewrite lookup_insert_eq, E.
  - by rewrite lookup_insert_ne.
Qed.

Lemma increase_gas_Ok c s u s' : increase_consumed_gas c s = (Ok u, s') →
  s' = (s.1, set_gas_used (gas_used s.2 + c) s.2) ∧ gas_used s.2 + c ≤ gas_limit s.2.
Proof.
  unfold increase_consumed_gas. intros Hr. apply gets_bind_Ok in Hr.
  apply lift_bind_Ok in Hr as (p & Hp & Hr). apply gets_bind_Ok in Hr. unfold oog in Hp. outcome_inv.
  destruct (_ <? _) eqn:E; [done|]. injection Hr as _ <-. propify. destruct s. done.
Qed.

(** The cost that is deducted, and the balance it is checked against. *)
Lemma up_front_cost_Ok vm b v c : up_front_cost vm b v = Ok c →
  ∃ max_blob blob, get_max_blob_gas_price vm = Ok max_blob ∧ get_blob_gas_price vm = Ok blob ∧
    default (gas_price (env vm)) (tx_max_fee_per_gas (env vm)) * env_gas_limit (env vm)
      + v + max_blob ≤ b ∧
    c = gas_price (env vm) * env_gas_limit (env vm) + v + blob.
Proof.
  unfold up_front_cost, tx_error. intros Hc. outcome_inv.
  destruct (_ <? _) eqn:E; [done|]. outcome_inv. propify. eauto 10.
Qed.

Lemma validate_blobs_Ok vm : validate_blobs vm = Ok tt →
  1 ≤ len (tx_blob_hashes (env vm)) ≤ MAX_BLOB_COUNT ∧ is_create vm = false ∧
  Forall (λ h, u256_byte h 31 ∈ VALID_BLOB_PREFIXES) (tx_blob_hashes (env vm)).
Proof.
  unfold validate_blobs. destruct (tx_blob_hashes (env vm)) as [|h hs] eqn:E; [done|].
  destruct (existsb _ _) eqn:Ex; [done|]. destruct (MAX_BLOB_COUNT <? _) eqn:El; [done|].
  destruct (is_create vm); [done|]. intros _. rewrite len_cons in *. pose proof (len_nonneg hs).
  propify. split; [lia|]. split; [done|]. apply Forall_forall. intros x Hx.
  destruct (decide (u256_byte x 31 ∈ VALID_BLOB_PREFIXES)) as [|Hn]; [done|].
  exfalso. rewrite <- not_true_iff_false in Ex. apply Ex, existsb_exists. exists x.
  split; [by apply list_elem_of_In|]. by rewrite bool_decide_eq_false_2.
Qed.

(** The rules a transaction has to satisfy, over the machine before it. *)
Record valid_tx (vm : VM) (f : CallFrame) : Prop := {
  tx_funds : ∃ max_blob, get_max_blob_gas_price vm = Ok max_blob ∧
    default (gas_price (env vm)) (tx_max_fee_per_gas (env vm)) * env_gas_limit (env vm)
      + msg_value f + max_blob ≤ bal vm (origin (env vm));
  tx_base_fee :
    base_fee_per_gas (env vm) ≤ default (gas_price (env vm)) (tx_max_fee_per_gas (env vm));
  tx_init_code : is_create vm = true → len (calldata f) ≤ INIT_CODE_MAX_SIZE;
  tx_intrinsic : ∃ g, intrinsic_gas vm (calldata f) = Ok g ∧ gas_used f + g ≤ gas_limit f;
  tx_nonce : nonce (account_view vm (origin (env vm))) < 2 ^ 64 - 1;
  tx_priority : ∀ priority max_fee, tx_max_priority_fee_per_gas (env vm) = Some priority →
    tx_max_fee_per_gas (env vm) = Some max_fee → priority ≤ max_fee;
  tx_eoa : has_code (account_view vm (origin (env vm))) = false;
  tx_block_gas : env_gas_limit (env vm) ≤ block_gas_limit (env vm);
  tx_blobs : ∀ max_fee, tx_max_fee_per_blob_gas (env vm) = Some max_fee →
    (∃ base_fee, get_base_fee_per_blob_gas vm = Ok base_fee ∧ base_fee ≤ max_fee) ∧
    1 ≤ len (tx_blob_hashes (env vm)) ≤ MAX_BLOB_COUNT ∧ is_create vm = false ∧
    Forall (λ h, u256_byte h 31 ∈ VALID_BLOB_PREFIXES) (tx_blob_hashes (env vm));
}.

Definition nonce_of (vm : VM) (a : Z) : Z := nonce (account_view vm a).

(** A balance update, seen on all accounts. *)
Lemma writes_balance a b vm vm' :
  writes a (set_balance b (account_view vm a)) vm vm' →
  same_env vm vm' ∧ (∀ c, bal vm' c = if decide (c = a) then b else bal vm c) ∧
  ∀ c, nonce_of vm' c = nonce_of vm c.
Proof.
  intros [Henv Hv]. split; [done|]. unfold bal, nonce_of.
  split; intros c; rewrite Hv; by destruct (decide (c = a)) as [->|].
Qed.

Lemma writes_nonce a n vm vm' :
  writes a (set_nonce n (account_view vm a)) vm vm' →
  same_env vm vm' ∧ (∀ c, nonce_of vm' c = if decide (c = a) then n else nonce_of vm c) ∧
  ∀ c, bal vm' c = bal vm c.
Proof.
  intros [Henv Hv]. split; [done|]. unfold bal, nonce_of.
  split; intros c; rewrite Hv; by destruct (decide (c = a)) as [->|].
Qed.

Lemma intrinsic_gas_env vm vm' d : same_env vm vm' → intrinsic_gas vm' d = intrinsic_gas vm d.
Proof. intros (_&_&E1&E2&_). unfold intrinsic_gas, is_create. by rewrite E1, E2. Qed.

(** The first half of [prepare_execution]: the checks on funds and the
    payments. *)
Lemma prepare_payments s sender cost s1 s2 (u1 u2 : unit) :
  on_vm (decrease_account_balance sender cost) s = (Ok u1, s1) →
  (if is_create s.1 then mret tt
   else on_vm (increase_account_balance (to s.2) (msg_value s.2))) s1 = (Ok u2, s2) →
  s2.2 = s.2 ∧ same_env s.1 s2.1 ∧ (∀ a, nonce_of s2.1 a = nonce_of s.1 a) ∧
  ∀ a, bal s2.1 a = bal s.1 a - paid sender a cost
                    + (if is_create s.1 then 0 else paid (to s.2) a (msg_value s.2)).
Proof.
  intros (vm1 & H1 & ->)%on_vm_Ok H2. apply decrease_Ok in H1 as [Hw _].
  apply writes_balance in Hw as (He1 & Hb1 & Hn1).
  assert (∀ a, bal vm1 a = bal s.1 a - paid sender a cost) as Hb1'.
  { intros a. rewrite Hb1. unfold paid. destruct (decide (a = sender)) as [->|]; lia. }
  destruct (is_create s.1).
  - injection H2 as _ <-. split_and!; [done..|]. intros a. rewrite Z.add_0_r. apply Hb1'.
  - apply on_vm_Ok in H2 as (vm2 & H2 & ->). simpl in *. apply increase_Ok in H2 as [Hw _].
    apply writes_balance in Hw as (He2 & Hb2 & Hn2). split_and!; [done|by etrans|..].
    + intros a. by rewrite Hn2.
    + intros a. rewrite Hb2, <- Hb1'. unfold paid. destruct (decide (a = to s.2)) as [->|]; lia.
Qed.

Lemma priority_Ok {A} (priority max_fee : option Z) (k : unit → M A) s a s' :
  ((match priority, max_fee with
    | Some tx_max_priority_fee, Some tx_max_fee =>
        if tx_max_fee <? tx_max_priority_fee
        then throw (TxValidation TxValidationError.PriorityGreaterThanMaxFeePerGas)
        else mret tt
    | _, _ => mret tt
    end) ≫= k) s = (Ok a, s') →
  (∀ p m, priority = Some p → max_fee = Some m → p ≤ m) ∧ k tt s = (Ok a, s').
Proof.
  destruct priority as [p|], max_fee as [m|]; try by (intros Hk; split; [|exact Hk]).
  intros [Hg Hk]%guard_Ok. propify. split; [|done]. by intros ?? [= <-] [= <-].
Qed.

Lemma blobs_Ok {A} vm (k : unit → M A) s a s' :
  ((match tx_max_fee_per_blob_gas (env vm) with
    | Some tx_max_fee_per_blob =>
        base_fee ← lift (get_base_fee_per_blob_gas vm);
        _ ← (if tx_max_fee_per_blob <? base_fee
             then throw (TxValidation TxValidationError.InsufficientMaxFeePerBlobGas)
             else mret tt);
        lift (validate_blobs vm)
    | None => mret tt
    end) ≫= k) s = (Ok a, s') →
  (∀ max_fee, tx_max_fee_per_blob_gas (env vm) = Some max_fee →
    (∃ base_fee, get_base_fee_per_blob_gas vm = Ok base_fee ∧ base_fee ≤ max_fee) ∧
    validate_blobs vm = Ok tt) ∧ k tt s = (Ok a, s').
Proof.
  destruct (tx_max_fee_per_blob_gas (env vm)) as [m|]; [|by intros Hk; split; [|exact Hk]].
  intros Hk. apply st_bind_Ok in Hk as ([] & s1 & Hb & Hk).
  apply lift_bind_Ok in Hb as (base & Hbase & Hb). apply guard_Ok in Hb as [Hg Hb].
  injection Hb as Hv <-. propify. split; [|done]. intros ? [= <-]. eauto.
Qed.

Lemma assign_Ok (b : bool) d s (u : unit) s' :
  (if b then _ ← assign_bytecode d; upd_frame (set_calldata []) else mret tt) s = (Ok u, s') →
  s'.1 = s.1.
Proof. destruct b; by intros [= _ <-]. Qed.

(** C18: only valid transactions are executed.  When [prepare_execution]
    succeeds, the sender can pay the maximum fees, the value and the blobs; the
    fee cap covers the base fee and the priority fee; the gas covers the
    intrinsic cost and fits in the block; the sender is not a contract and its
    nonce can grow; init code and blobs respect their limits.  The sender has
    then paid the gas limit at the effective price, the value and the blob fee,
    the receiver of a call has the value, and the sender's nonce has grown by
    one; no other balance or nonce has changed. *)
Theorem accepted_transaction_is_valid (s s' : St) (u : unit) :
  prepare_execution s = (Ok u, s') →
  let e := env s.1 in
  valid_tx s.1 s.2 ∧
  (∀ a, nonce_of s'.1 a = nonce_of s.1 a + paid (origin e) a 1) ∧
  ∃ blob, get_blob_gas_price s.1 = Ok blob ∧
    ∀ a, bal s'.1 a =
      bal s.1 a - paid (origin e) a (gas_price e * env_gas_limit e + msg_value s.2 + blob)
      + (if is_create s.1 then 0 else paid (to s.2) a (msg_value s.2)).
Proof.
  unfold prepare_execution. intros Hp. apply gets_bind_Ok in Hp. unfold id in Hp.
  apply st_bind_Ok in Hp as (acc & s1 & (vm1 & Hg & ->)%on_vm_Ok & Hp).
  apply get_account_view in Hg as (Hacc & He1 & Hv1). apply gets_bind_Ok in Hp. simpl in Hp.
  apply lift_bind_Ok in Hp as (cost & Hc & Hp).
  apply st_bind_Ok in Hp as (u1 & s2 & H1%map_error_Ok & Hp).
  apply st_bind_Ok in Hp as (u2 & s3 & H2 & Hp).
  assert (is_create vm1 = is_create s.1) as Hcr by (unfold is_create; by rewrite (proj1 (proj2 (proj2 He1)))).
  rewrite <- Hcr in H2. pose proof (prepare_payments (vm1, s.2) _ _ _ _ _ _ H1 H2)
    as (Hf3 & He3 & Hn3 & Hb3). clear H1 H2. simpl in *.
  apply guard_Ok in Hp as [G1 Hp]. apply guard_Ok in Hp as [G2 Hp].
  apply st_bind_Ok in Hp as (u3 & s4 & H4 & Hp). unfold add_intrinsic_gas in H4.
  apply gets_bind_Ok in H4. apply lift_bind_Ok in H4 as (g & Hi & H4%map_error_Ok).
  apply increase_gas_Ok in H4 as [-> Hgas]. unfold id in *.
  apply st_bind_Ok in Hp as (u4 & s5 & H5%map_error_Ok & Hp).
  apply on_vm_Ok in H5 as (vm5 & H5 & ->). apply increment_Ok in H5 as [Hw Hmax].
  apply writes_nonce in Hw as (_ & Hn5 & Hb5). simpl in *.
  apply priority_Ok in Hp as [Hprio Hp]. apply guard_Ok in Hp as [Hcode Hp].
  apply guard_Ok in Hp as [Hblock Hp]. apply blobs_Ok in Hp as [Hblobs Hp].
  apply assign_Ok in Hp as Hs'. apply up_front_cost_Ok in Hc as (mb & blob & Hmb & Hblob & Hle & ->).
  rewrite Hf3, (intrinsic_gas_env s.1) in * by (by etrans). rewrite Hacc, Hcr in *.
  assert (∀ a, nonce_of s3.1 a = nonce_of s.1 a) as Hn by (intros a; rewrite Hn3; unfold nonce_of; by rewrite Hv1).
  simpl in Hs'. rewrite Hs'. split.
  - fold (nonce_of s3.1 (origin (env s.1))) in Hmax. rewrite Hn in Hmax. unfold in_u in Hmax.
    propify. split; try done; [by exists mb|..].
    + intros Hc. destruct G2 as [G2|G2]; [congruence|lia].
    + by exists g.
    + unfold nonce_of in Hmax. lia.
    + intros m Hm. destruct (Hblobs m Hm) as [? Hv]. split; [done|]. by apply validate_blobs_Ok.
  - split.
    + intros a. rewrite Hn5, Hn. unfold paid. destruct (decide _) as [->|]; [|lia].
      fold (nonce_of s3.1 (origin (env s.1))). by rewrite Hn.
    + exists blob. split; [done|]. intros a. rewrite Hb5, Hb3. unfold bal. by rewrite Hv1.
Qed.

End Transaction.

(** A transfer of 5 wei to account 42, which has no code. *)
Definition transfer_vm : Result VM :=
  new_vm (Call 42) (demo_env 21000) 5 [] (demo_db []) ∅ [].

Lemma transact_terminates_witness : ∃ vm, transfer_vm = Ok vm ∧ returns (transact vm).1.
Proof.
  destruct transfer_vm as [vm| | |] eqn:E; [|by vm_compute in E..].
  exists vm. split; [reflexivity|].
  apply (transact_terminates (Call 42) (demo_env 21000) 5 [] (demo_db []) ∅ [] vm); [exact E|done].
Defined.

(** The settlement of a plain transfer: 21000 gas at price 10, base fee 7. *)
Definition transfer_report : TransactionReport :=
  make_report Success (demo_vm 30000 []) 21000 0 [] [].
Definition transfer_frame : CallFrame := demo_frame [] 30000.

Lemma settlement_correct_witness :
  ∃ report vm', settle transfer_frame transfer_report (demo_vm 30000 []) = (Ok report, vm') ∧
    bal vm' 100 = 10 ^ 18 + 10 * 9000 ∧ bal vm' 555 = 50 + 21000 * 3.
Proof.
  destruct (settle transfer_frame transfer_report (demo_vm 30000 [])) as [[report| | |] vm'] eqn:E;
    [|by vm_compute in E..].
  destruct (settlement_correct transfer_frame transfer_report report (demo_vm 30000 []) vm' E)
    as (_ & _ & _ & Hb & _ & _).
  exists report, vm'. split; [reflexivity|].
  split; (rewrite Hb; [by vm_compute|apply not_elem_of_empty]).
Defined.

Definition transfer_state : St :=
  (demo_vm 21000 [], new_call_frame 100 42 42 [] 5 [] false 21000 0 0 false).

Lemma accepted_transaction_is_valid_witness :
  ∃ s', prepare_execution transfer_state = (Ok tt, s') ∧ valid_tx transfer_state.1 transfer_state.2 ∧
    nonce_of s'.1 100 = 4 ∧ bal s'.1 100 = 10 ^ 18 - 210005 ∧ bal s'.1 42 = 55.
Proof.
  destruct (prepare_execution transfer_state) as [[[]| | |] s'] eqn:E; [|by vm_compute in E..].
  destruct (accepted_transaction_is_valid transfer_state s' tt E) as (Hv & Hn & blob & Hb & Hbal).
  assert (blob = 0) as -> by (vm_compute in Hb; congruence). clear E.
  exists s'. split; [reflexivity|]. split; [exact Hv|]. rewrite Hn, !Hbal. by vm_compute.
Defined.
