(* ===== verification/LevmFindings.v ===== *)
(** * LEVM: where the code departs from the protocol

    Theorems about inputs on which the machine does something the Ethereum
    rules, or the comments beside the code, rule out.  Each is about the
    definitions the other files prove correct elsewhere. *)

From stdpp Require Import base option list numbers gmap.
From S2P Require Import Prelude LevmState LevmMemory LevmGas LevmOpcodes LevmHost LevmArith.
From S2P Require Import LevmHandlers LevmSystem LevmVm LevmDemo.

Local Open Scope Z_scope.

(** C17: BLOBHASH at its bound.  With the number of blobs as its index, whatever
    the transaction, the guard lets the index through and the lookup that "should never fail"
    fails with an internal error, which [execute] does not turn into a failed
    context.  EIP-4844 gives zero. *)
Theorem blobhash_at_length_aborts (vm : VM) (f : CallFrame) (st : list Z) :
  stack f = len (tx_blob_hashes (env vm)) :: st → len (tx_blob_hashes (env vm)) < 2 ^ 64 →
  0 ≤ gas_used f → gas_used f + Gas.BLOBHASH ≤ gas_limit f < 2 ^ 64 →
  (op_blobhash (vm, f)).1 = Err (Internal InternalError.BlobHashOutOfRange).
Proof.
  intros Hst Hlen H0 Hgas. pose proof (len_nonneg (tx_blob_hashes (env vm))).
  unfold op_blobhash, increase_consumed_gas, pop, frame, machine, upd_frame, gets, modify, lift,
    mbind, st_bind, oog, internal. simpl.
  rewrite checked_add_in by (unfold in_u, Gas.BLOBHASH in *; lia). simpl.
  rewrite (proj2 (Z.ltb_ge _ _)) by lia. simpl. rewrite Hst. simpl.
  rewrite Z.ltb_irrefl. rewrite try_into_in by (unfold in_u; lia). simpl.
  unfold len at 1. rewrite Nat2Z.id, lookup_ge_None_2 by done. done.
Qed.

Lemma tstore_run vm f key value st :
  stack f = key :: value :: st → is_static f = false →
  0 ≤ gas_used f → gas_used f + Gas.TSTORE ≤ gas_limit f < 2 ^ 64 →
  transient_storage (env (op_tstore (vm, f)).2.1)
  = <[(msg_sender f, key) := value]> (transient_storage (env vm)).
Proof.
  intros Hst Hstat H1 Hg1. unfold op_tstore, increase_consumed_gas, pop, frame, upd_frame, upd_vm,
    gets, modify, lift, mbind, st_bind, oog. simpl.
  rewrite checked_add_in by (unfold in_u, Gas.TSTORE in *; lia). simpl.
  rewrite (proj2 (Z.ltb_ge _ _)) by lia. simpl. rewrite Hstat. simpl. by rewrite Hst.
Qed.

(** C16: transient storage is shared.  What TSTORE writes in the context of one contract, TLOAD reads in the
    context of any other contract with the same caller: the map is keyed by the
    caller and not by the contract, as EIP-1153 has it. *)
Theorem transient_storage_is_shared (vm : VM) (f f' : CallFrame) (key value : Z) (st st' : list Z) :
  stack f = key :: value :: st → stack f' = key :: st' → is_static f = false →
  msg_sender f' = msg_sender f → len (stack f') ≤ 1024 →
  0 ≤ gas_used f → gas_used f + Gas.TSTORE ≤ gas_limit f < 2 ^ 64 →
  0 ≤ gas_used f' → gas_used f' + Gas.TLOAD ≤ gas_limit f' < 2 ^ 64 →
  let vm' := (op_tstore (vm, f)).2.1 in
  (op_tload (vm', f')).1 = Ok Continue ∧ stack (op_tload (vm', f')).2.2 = value :: st'.
Proof.
  intros Hst Hst' Hstat Hsender Hlen H1 Hg1 H2 Hg2 vm'.
  pose proof (tstore_run vm f key value st Hst Hstat H1 Hg1) as Hts. fold vm' in Hts.
  clearbody vm'. unfold op_tload, push_continue, push, increase_consumed_gas, pop, frame, machine,
    upd_frame, gets, modify, lift, mbind, st_bind, oog. simpl.
  rewrite checked_add_in by (unfold in_u, Gas.TLOAD in *; lia). simpl.
  rewrite (proj2 (Z.ltb_ge _ _)) by lia. simpl. rewrite Hst'. simpl.
  rewrite Hts, Hsender, lookup_insert_eq. rewrite Hst', len_cons in Hlen.
  rewrite (proj2 (Z.leb_gt _ _)) by (unfold STACK_LIMIT; lia). done.
Qed.

(** Setting a slot back to its non-zero original value gives no refund, where
    EIP-3529 gives 2800: the branch that would add it cannot be reached. *)
Theorem sstore_reset_gives_no_refund (refunds original current : Z) :
  original ≠ 0 → current ≠ 0 → current ≠ original →
  sstore_refund refunds {| original_value := original; current_value := current |} original
  = Ok refunds.
Proof.
  intros H1 H2 H3. unfold sstore_refund. simpl.
  rewrite (proj2 (Z.eqb_neq original current)), (proj2 (Z.eqb_neq current original)),
    (proj2 (Z.eqb_neq original 0)), (proj2 (Z.eqb_neq current 0)) by done. done.
Qed.

(** A repeated address in the access list: only the keys of its last entry
    become warm, though all of them are charged for. *)
Theorem access_list_last_entry_wins (a : Z) (keys keys' : list Z) (rest : list (Z * list Z)) slots :
  access_list_slots ((a, keys) :: (a, keys') :: rest) slots
  = access_list_slots ((a, keys') :: rest) slots.
Proof. simpl. by rewrite insert_insert_eq. Qed.

(** ** Runs *)

(** Account 43 emits an empty log and reverts; account 42 calls it and stops. *)
Definition log_and_revert : list Z := [0x60; 0; 0x60; 0; 0xa0; 0x60; 0; 0x60; 0; 0xfd].
Definition call_43 : list Z :=
  [0x60; 0; 0x60; 0; 0x60; 0; 0x60; 0; 0x60; 0; 0x60; 43; 0x61; 0x0f; 0xff; 0xf1; 0x00].

(** The caller's call fails (zero on its stack), it succeeds itself, and its
    report contains the log of the reverted context. *)
Theorem reverted_logs_survive :
  let '(r, s) := execute 20 (demo_vm 10000 [(43, log_and_revert)], demo_frame call_43 10000) in
  stack s.2 = [0] ∧ match r with Ok report => result report = Success ∧ len (report_logs report) = 1
                    | _ => False end.
Proof. vm_compute. auto. Qed.

(** A transaction straight to the SHA-256 precompile whose gas limit covers the
    intrinsic gas (21000) and the price of the precompile (60), but not both:
    the price is compared with the whole limit, more than the limit is consumed,
    and the settlement fails with an internal error. *)
Theorem precompile_overspends :
  match new_vm (Call 2) (demo_env 21050) 0 [] (demo_db []) ∅ [] with
  | Ok vm => (transact vm).1 = Err (Internal (InternalError.UndefinedState 0))
  | _ => False
  end.
Proof. vm_compute. reflexivity. Qed.

(** MCOPY of 32 bytes from offset 96 to offset 0 of an empty memory: the gas
    pays for four words and the memory has one, so MSIZE is too small. *)
Theorem mcopy_leaves_memory_short :
  let '(r, s) := op_mcopy (demo_vm 100 [], set_stack [0; 96; 32] (demo_frame [] 100)) in
  r = Ok Continue ∧ len (memory s.2) = 32 ∧ gas_used s.2 = 3 + 3 * 1 + 3 * 4.
Proof. vm_compute. auto. Qed.

(** RETURNDATACOPY of nothing, from a position inside the return data: the
    memory grows to the destination and only the static price is charged. *)
Theorem returndatacopy_grows_for_free :
  let f := set_stack [3200; 1; 0] (set_sub_return_data [7] (demo_frame [] 100)) in
  let '(r, s) := op_returndatacopy (demo_vm 100 [], f) in
  r = Ok Continue ∧ len (memory s.2) = 3200 ∧ gas_used s.2 = 3.
Proof. vm_compute. auto. Qed.

(** The price of MODEXP is an error for every exponent longer than 32 bytes:
    the mask is computed as a power of two that no usize can hold. *)
Theorem modexp_long_exponent_fails (exponent base_size exponent_size modulus_size : Z) :
  32 < exponent_size →
  match Gas.modexp exponent base_size exponent_size modulus_size with Err _ => True | _ => False end.
Proof.
  intros Hlong. unfold Gas.modexp, Gas.add, oog, internal. change Gas.WORD_SIZE with 32.
  destruct (checked_add 64 _ 7) as [rounded|]; [|done]. simpl.
  destruct (checked_pow 64 _ 2) as [complexity|]; [|done]. simpl.
  rewrite (proj2 (Z.leb_gt _ _)) by done. simpl.
  destruct (checked_sub 64 exponent_size 32) as [extra|]; [|done]. simpl.
  destruct (checked_mul 64 8 extra) as [extra_bits|]; [|done]. simpl.
  change (checked_pow 64 2 256) with (@None Z). done.
Qed.

(** ** Instances *)

Definition blobhash_frame : CallFrame := set_stack [0] (demo_frame [] 100).

Lemma blobhash_at_length_aborts_witness :
  (op_blobhash (demo_vm 100 [], blobhash_frame)).1
  = Err (Internal InternalError.BlobHashOutOfRange).
Proof. apply (blobhash_at_length_aborts (demo_vm 100 []) blobhash_frame []); done. Defined.

(** Account 100 calls 42, which stores, and then 43, which reads. *)
Definition tstore_frame : CallFrame := set_stack [1; 7] (demo_frame [] 200).
Definition tload_frame : CallFrame :=
  set_stack [1] (new_call_frame 100 43 43 [] 0 [] false 200 0 0 false).

Lemma transient_storage_is_shared_witness :
  to tstore_frame ≠ to tload_frame ∧
  let vm' := (op_tstore (demo_vm 200 [], tstore_frame)).2.1 in
  (op_tload (vm', tload_frame)).1 = Ok Continue ∧ stack (op_tload (vm', tload_frame)).2.2 = [7].
Proof.
  split; [done|].
  apply (transient_storage_is_shared (demo_vm 200 []) tstore_frame tload_frame 1 7 [] []); done.
Defined.
