(* ===== verification/TrieNode.v ===== *)
(** * Trie: nibbles, node hashes, nodes and their codecs

    crates/storage/trie: nibbles.rs, node_hash.rs, node.rs, the data and
    encoders of node/{leaf, extension, branch}.rs, and rlp.rs, the codec of the
    database.  A nibble list is a [list Z]; 16 at its end is the leaf flag.
    Arithmetic on [u8] wraps, which does not happen on nibbles. *)

From stdpp Require Import base option list numbers strings gmap.
From S2P Require Import Prelude Rlp LevmHost.

Local Open Scope Z_scope.

(** ** error.rs *)

(** The errors of the in-memory build; the database bindings add their own. *)
Inductive TrieError :=
  | RLPDecodeErr (e : RLPDecodeError)
  | Verify
  | InconsistentTree
  | LockError.

Notation TrieResult := (Outcome TrieError).

(** ** nibbles.rs *)

Definition Nibbles := list Z.

Module Nibbles.

Definition from_raw (bs : list Z) (is_leaf : bool) : Nibbles :=
  flat_map (λ b, [Z.land (Z.shiftr b 4) 15; Z.land b 15]) bs ++ (if is_leaf then [16] else []).

Definition from_bytes (bs : list Z) : Nibbles := from_raw bs true.

(** [skip_prefix]: the rest of the path when it starts with [prefix]. *)
Fixpoint skip_prefix (path prefix : Nibbles) : option Nibbles :=
  match prefix, path with
  | [], _ => Some path
  | p :: prefix, x :: path => if x =? p then skip_prefix path prefix else None
  | _ :: _, [] => None
  end.

(** [<[u8] as Ord>::cmp]. *)
Fixpoint cmp (a b : list Z) : comparison :=
  match a, b with
  | [], [] => Eq
  | [], _ :: _ => Lt
  | _ :: _, [] => Gt
  | x :: a, y :: b => match Z.compare x y with Eq => cmp a b | c => c end
  end.

Definition compare_prefix (path prefix : Nibbles) : comparison :=
  if len prefix <? len path then cmp (take (length prefix) path) prefix else cmp path prefix.

Fixpoint count_prefix (a b : Nibbles) : nat :=
  match a, b with
  | x :: a, y :: b => if x =? y then S (count_prefix a b) else O
  | _, _ => O
  end.

(** [next_choice]: the first nibble, when it is a choice, and the path without
    its first nibble. *)
Definition next_choice (path : Nibbles) : option nat * Nibbles :=
  match path with
  | [] => (None, [])
  | x :: path => (if x <? 16 then Some (Z.to_nat x) else None, path)
  end.

(** Slices and indexing panic out of range. *)
Definition slice (path : Nibbles) (start stop : nat) : TrieResult Nibbles :=
  if (start <=? stop)%nat && (stop <=? length path)%nat
  then Ok (take (stop - start) (drop start path)) else Panic.
Definition offset (path : Nibbles) (n : nat) : TrieResult Nibbles :=
  slice path n (length path).
Definition at_ (path : Nibbles) (i : nat) : TrieResult nat :=
  match path !! i with Some x => Ok (Z.to_nat x) | None => Panic end.

Definition is_leaf (path : Nibbles) : bool :=
  match last path with Some x => x =? 16 | None => false end.

(** [hex[i * 2] * 16 + hex[i * 2 + 1]] over the pairs. *)
Fixpoint pack (hex : list Z) : list Z :=
  match hex with
  | a :: b :: rest => wrap 8 (wrap 8 (a * 16) + b) :: pack rest
  | _ => []
  end.

Definition encode_compact (path : Nibbles) : list Z :=
  let leaf := is_leaf path in
  let hex := if leaf then removelast path else path in
  let '(v, hex) :=
    match hex with
    | x :: rest => if (length hex mod 2 =? 1)%nat then (wrap 8 (0x10 + x), rest) else (0, hex)
    | [] => (0, [])
    end in
  wrap 8 (v + (if leaf then 0x20 else 0)) :: pack hex.

Definition keybytes_to_hex (keybytes : list Z) : list Z :=
  flat_map (λ b, [b / 16; b mod 16]) keybytes ++ [16].

Definition compact_to_hex (compact : list Z) : list Z :=
  match compact with
  | [] => []
  | _ =>
      let base := keybytes_to_hex compact in
      let flag := default 0 (head base) in
      let base := if flag <? 2 then take (length base - 1) base else base in
      drop (Z.to_nat (2 - Z.land flag 1)) base
  end.

Definition decode_compact (compact : list Z) : Nibbles := compact_to_hex compact.

(** The pairs of [data.chunks(2)], an odd last nibble as a high one. *)
Fixpoint chunks (data : list Z) : list Z :=
  match data with
  | [] => []
  | [x] => [wrap 8 (Z.shiftl x 4)]
  | a :: b :: rest => Z.lor (wrap 8 (Z.shiftl a 4)) b :: chunks rest
  end.
Definition to_bytes (path : Nibbles) : list Z :=
  chunks (if is_leaf path then removelast path else path).

End Nibbles.

(** ** node_hash.rs *)

(** A hash is its 32 bytes. *)
Inductive NodeHash :=
  | Hashed (h : list Z)
  | Inline (encoded : list Z).

#[export] Instance NodeHash_eq_dec : EqDecision NodeHash.
Proof. solve_decision. Defined.

Definition node_hash_default : NodeHash := Inline [].
Definition is_valid (h : NodeHash) : bool := match h with Inline [] => false | _ => true end.
Definition node_hash_from_vec (v : list Z) : NodeHash :=
  if len v =? 32 then Hashed v else Inline v.
Definition node_hash_to_vec (h : NodeHash) : list Z :=
  match h with Hashed v => v | Inline v => v end.

Section Hashing.
Context `{Crypto}.

Definition from_encoded_raw (encoded : list Z) : NodeHash :=
  if 32 <=? len encoded then Hashed (keccak encoded) else Inline encoded.
Definition finalize (h : NodeHash) : list Z :=
  match h with Inline x => keccak x | Hashed x => x end.

End Hashing.

(** ** The nodes *)

Inductive Node :=
  | Branch (choices : list NodeHash) (value : list Z)
  | Extension (prefix : Nibbles) (child : NodeHash)
  | Leaf (partial : Nibbles) (value : list Z).

#[export] Instance Node_eq_dec : EqDecision Node.
Proof. solve_decision. Defined.

Definition EMPTY_CHOICES : list NodeHash := replicate 16 node_hash_default.

(** ** The encoding that is hashed *)

Definition leaf_encode_raw (partial : Nibbles) (value : list Z) : list Z :=
  Encoder.finish []
    (Encoder.encode_bytes (Encoder.encode_bytes Encoder.new (Nibbles.encode_compact partial))
       value).

Definition extension_encode_raw (prefix : Nibbles) (child : NodeHash) : list Z :=
  let encoder := Encoder.encode_bytes Encoder.new (Nibbles.encode_compact prefix) in
  Encoder.finish []
    (match child with
     | Inline x => Encoder.encode_raw encoder x
     | Hashed x => Encoder.encode_bytes encoder x
     end).

Definition encode_choice (encoder : Encoder.t) (child : NodeHash) : Encoder.t :=
  match child with
  | Hashed hash => Encoder.encode_bytes encoder hash
  | Inline [] => Encoder.encode_bytes encoder []
  | Inline raw => Encoder.encode_raw encoder raw
  end.

Definition branch_encode_raw (choices : list NodeHash) (value : list Z) : list Z :=
  Encoder.finish []
    (Encoder.encode_bytes (foldl encode_choice Encoder.new choices) value).

Definition encode_raw (n : Node) : list Z :=
  match n with
  | Branch choices value => branch_encode_raw choices value
  | Extension prefix child => extension_encode_raw prefix child
  | Leaf partial value => leaf_encode_raw partial value
  end.

Definition compute_hash `{Crypto} (n : Node) : NodeHash := from_encoded_raw (encode_raw n).

(** The items of the list, until it ends or there are more than 17: [n] more
    make 18. *)
Fixpoint raw_items (n : nat) (decoder : Decoder.t) : Decoded (list (list Z)) :=
  match n with
  | O => Ok []
  | S n =>
      '(item, decoder) ← Decoder.get_encoded_item decoder;
      if Decoder.is_done decoder || (n =? 0)%nat then Ok [item]
      else rest ← raw_items n decoder; Ok (item :: rest)
  end.

Definition decode_child (rlp : list Z) : Decoded NodeHash :=
  match decode_bytes rlp with
  | Ok (hash, []) =>
      if len hash =? 32 then Ok (Hashed hash)
      else match hash with [] => Ok (Inline []) | _ => Ok (Inline rlp) end
  | Ok _ | Err _ => Ok (Inline rlp)
  | Panic => Panic
  | NoFuel => NoFuel
  end.

Fixpoint decode_children (items : list (list Z)) : Decoded (list NodeHash) :=
  match items with
  | [] => Ok []
  | item :: items => c ← decode_child item; cs ← decode_children items; Ok (c :: cs)
  end.

(** [Node::decode_raw]. *)
Definition decode_raw (rlp : list Z) : Decoded Node :=
  decoder ← Decoder.new rlp;
  items ← raw_items 18 decoder;
  match items with
  | [item0; item1] =>
      '(path, _) ← decode_bytes item0;
      let path := Nibbles.decode_compact path in
      if Nibbles.is_leaf path then
        '(value, _) ← decode_bytes item1;
        Ok (Leaf path value)
      else
        child ← decode_child item1;
        Ok (Extension path child)
  | _ =>
      if (length items =? 17)%nat then
        choices ← decode_children (take 16 items);
        '(value, _) ← decode_bytes (default [] (items !! 16%nat));
        Ok (Branch choices value)
      else Err (CustomText "Invalid arg count for Node")
  end.

(** ** The encoding of the database (rlp.rs) *)

(** A [Vec<u8>] goes through the codec of vectors: a list of small integers. *)
Notation VecU8 := (list u8).

Definition decode_vec_u8 (d : Decoder.t) (name : string) : Decoded (list Z * Decoder.t) :=
  Decoder.decode_field (T := VecU8) d name.

#[export] Instance NodeHash_encode : RLPEncode NodeHash :=
  mk_encode (λ h, encode (node_hash_to_vec h : VecU8)).
#[export] Instance NodeHash_decode : RLPDecode NodeHash := λ rlp,
  '(hash, rest) ← (decode_unfinished rlp : Decoded (VecU8 * list Z));
  Ok (node_hash_from_vec hash, rest).

Definition encode_nibbles (n : Nibbles) : list Z :=
  Encoder.finish [] (Encoder.encode_field Encoder.new (n : VecU8)).
Definition decode_nibbles (rlp : list Z) : Decoded (Nibbles * list Z) :=
  decoder ← Decoder.new rlp;
  '(data, decoder) ← decode_vec_u8 decoder "data"%string;
  rest ← Decoder.finish decoder;
  Ok (data, rest).

(** [Nibbles] as a type with a codec of its own. *)
Record NibblesField := { nibbles_data : Nibbles }.
#[export] Instance NibblesField_encode : RLPEncode NibblesField :=
  mk_encode (λ n, encode_nibbles (nibbles_data n)).
#[export] Instance NibblesField_decode : RLPDecode NibblesField := λ rlp,
  '(data, rest) ← decode_nibbles rlp; Ok ({| nibbles_data := data |}, rest).

Definition encode_branch (choices : list NodeHash) (value : list Z) : list Z :=
  Encoder.finish []
    (Encoder.encode_field (Encoder.encode_field Encoder.new choices) (value : VecU8)).
Definition encode_extension (prefix : Nibbles) (child : NodeHash) : list Z :=
  Encoder.finish []
    (Encoder.encode_field (Encoder.encode_field Encoder.new {| nibbles_data := prefix |}) child).
Definition encode_leaf (partial : Nibbles) (value : list Z) : list Z :=
  Encoder.finish []
    (Encoder.encode_field (Encoder.encode_field Encoder.new {| nibbles_data := partial |})
       (value : VecU8)).

Definition decode_branch (rlp : list Z) : Decoded (Node * list Z) :=
  decoder ← Decoder.new rlp;
  '(choices, decoder) ← Decoder.decode_field (T := list NodeHash) decoder "choices"%string;
  if negb (length choices =? 16)%nat then Err (CustomText "Error decoding field 'choices' of type [H256;16]: Invalid Length")
  else
    '(value, decoder) ← decode_vec_u8 decoder "value"%string;
    rest ← Decoder.finish decoder;
    Ok (Branch choices value, rest).
Definition decode_extension (rlp : list Z) : Decoded (Node * list Z) :=
  decoder ← Decoder.new rlp;
  '(prefix, decoder) ← Decoder.decode_field (T := NibblesField) decoder "prefix"%string;
  '(child, decoder) ← Decoder.decode_field (T := NodeHash) decoder "child"%string;
  rest ← Decoder.finish decoder;
  Ok (Extension (nibbles_data prefix) child, rest).
Definition decode_leaf (rlp : list Z) : Decoded (Node * list Z) :=
  decoder ← Decoder.new rlp;
  '(partial, decoder) ← Decoder.decode_field (T := NibblesField) decoder "partial"%string;
  '(value, decoder) ← decode_vec_u8 decoder "value"%string;
  rest ← Decoder.finish decoder;
  Ok (Leaf (nibbles_data partial) value, rest).

(** The type byte comes first. *)
Definition encode_node (n : Node) : list Z :=
  match n with
  | Branch choices value => 0 :: encode_branch choices value
  | Extension prefix child => 1 :: encode_extension prefix child
  | Leaf partial value => 2 :: encode_leaf partial value
  end.
Definition decode_node_unfinished (rlp : list Z) : Decoded (Node * list Z) :=
  match rlp with
  | [] => Err InvalidLength
  | t :: rlp =>
      if t =? 0 then decode_branch rlp
      else if t =? 1 then decode_extension rlp
      else if t =? 2 then decode_leaf rlp
      else Err MalformedData
  end.
#[export] Instance Node_decode : RLPDecode Node := decode_node_unfinished.
