(* ===== verification/TrieCodec.v ===== *)
(** * Trie: correctness of the node codecs

    The compact form of paths, the encoding of nodes that is hashed
    ([encode_raw] / [decode_raw]) and the encoding of the database (rlp.rs):
    each decoder inverts its encoder on the nodes a trie holds. *)

From stdpp Require Import base option list numbers strings.
From S2P Require Import Prelude Rlp RlpProofs RlpStruct LevmHost TrieNode.

Local Open Scope Z_scope.

(** ** Nibbles *)

Definition nibble (x : Z) : Prop := 0 ≤ x < 16.
Definition nibbles (k : list Z) : Prop := Forall nibble k.

#[export] Instance nibble_dec x : Decision (nibble x).
Proof. unfold nibble. apply _. Defined.
#[export] Instance nibbles_dec k : Decision (nibbles k).
Proof. unfold nibbles. apply _. Defined.

(** A path is a key with or without the leaf flag at its end. *)
Definition flagged (leaf : bool) (k : list Z) : Nibbles := k ++ (if leaf then [16] else []).

Lemma is_leaf_flagged leaf k : nibbles k → Nibbles.is_leaf (flagged leaf k) = leaf.
Proof.
  intros Hk. unfold Nibbles.is_leaf, flagged. destruct leaf; [by rewrite last_snoc|].
  rewrite app_nil_r. destruct (last k) as [x|] eqn:E; [|done].
  rewrite last_lookup in E. pose proof (Forall_lookup_1 _ _ _ _ Hk E) as Hx.
  cbn in Hx. unfold nibble in Hx. apply Z.eqb_neq. lia.
Qed.

Lemma removelast_flagged (leaf : bool) k :
  (if leaf then removelast (flagged leaf k) else flagged leaf k) = k.
Proof. unfold flagged. destruct leaf; [apply removelast_last|apply app_nil_r]. Qed.

Lemma div_mod_byte a b : nibble a → nibble b →
  wrap 8 (wrap 8 (a * 16) + b) / 16 = a ∧ wrap 8 (wrap 8 (a * 16) + b) mod 16 = b.
Proof.
  unfold nibble, wrap. intros. change (2 ^ 8) with 256.
  rewrite (Z.mod_small (a * 16)), (Z.mod_small (a * 16 + b)) by lia.
  split; symmetry; [apply Z.div_unique with b|apply Z.mod_unique with a]; lia.
Qed.

(** Two nibbles per byte, and back. *)
Definition unpack (bs : list Z) : list Z := flat_map (λ b, [b / 16; b mod 16]) bs.

Lemma unpack_pack k : nibbles k → Nat.even (length k) = true → unpack (Nibbles.pack k) = k.
Proof.
  induction k as [k IH] using (induction_ltof1 _ (@length Z)). unfold ltof in IH.
  intros Hk He. destruct k as [|a [|b k]]; [done|done|].
  inversion Hk as [|? ? Ha Hk']; inversion Hk' as [|? ? Hb Hk'']; subst.
  cbn. destruct (div_mod_byte a b Ha Hb) as [-> ->]. do 2 f_equal.
  apply IH; [cbn; lia|done|done].
Qed.

Lemma pack_length k : (length (Nibbles.pack k) * 2 ≤ length k)%nat.
Proof.
  induction k as [k IH] using (induction_ltof1 _ (@length Z)). unfold ltof in IH.
  destruct k as [|a [|b k]]; cbn; [lia..|]. specialize (IH k). cbn in IH. lia.
Qed.

Lemma pack_bytes k : bytes (Nibbles.pack k).
Proof.
  induction k as [k IH] using (induction_ltof1 _ (@length Z)). unfold ltof in IH.
  destruct k as [|a [|b k]]; cbn; [constructor..|]. constructor; [|apply IH; cbn; lia].
  unfold byte, wrap. apply Z.mod_pos_bound. done.
Qed.

Lemma encode_compact_bytes p : bytes (Nibbles.encode_compact p).
Proof.
  unfold Nibbles.encode_compact.
  repeat case_match; constructor; try apply pack_bytes; try (unfold byte, wrap; apply Z.mod_pos_bound; done).
Qed.

Lemma encode_compact_length p : len (Nibbles.encode_compact p) ≤ len p + 1.
Proof.
  unfold Nibbles.encode_compact.
  set (hex := if Nibbles.is_leaf p then removelast p else p).
  assert (length hex ≤ length p)%nat as Hh.
  { subst hex. case_match; [|done]. destruct p as [|x p] using rev_ind; [done|].
    rewrite removelast_last, length_app. lia. }
  destruct hex as [|x rest] eqn:E; cbn [length] in Hh.
  { unfold len. cbn. lia. }
  pose proof (pack_length rest). pose proof (pack_length (x :: rest)). cbn [length] in *.
  repeat case_match; simplify_eq; unfold len; cbn [length]; lia.
Qed.

Lemma even_mod n : Nat.even n = negb (n mod 2 =? 1)%nat.
Proof.
  destruct (Nat.Even_or_Odd n) as [[c ->]|[c ->]].
  - rewrite Nat.even_even, Nat.mul_comm, Nat.Div0.mod_mul. done.
  - rewrite Nat.even_odd, Nat.mul_comm, Nat.add_comm, Nat.Div0.mod_add. done.
Qed.

(** The compact form of a path determines it. *)
Lemma decode_encode_compact leaf k :
  nibbles k → Nibbles.decode_compact (Nibbles.encode_compact (flagged leaf k)) = flagged leaf k.
Proof.
  intros Hk. unfold Nibbles.encode_compact. rewrite is_leaf_flagged by done.
  rewrite removelast_flagged.
  assert (∀ v hex, nibbles hex → Nat.even (length hex) = true → nibble v →
    Nibbles.decode_compact ((if leaf then 32 else 0) :: Nibbles.pack hex) = flagged leaf hex ∧
    Nibbles.decode_compact ((if leaf then 48 else 16) + v :: Nibbles.pack hex)
      = flagged leaf (v :: hex)) as Hgen.
  { intros v hex Hh He Hv. unfold Nibbles.decode_compact, Nibbles.compact_to_hex,
      Nibbles.keybytes_to_hex. cbn [flat_map].
    fold (unpack (Nibbles.pack hex)). rewrite unpack_pack by done.
    assert (((if leaf then 48 else 16) + v) / 16 = if leaf then 3 else 1) as ->.
    { symmetry. apply Z.div_unique with v; unfold nibble in Hv; destruct leaf; lia. }
    assert (((if leaf then 48 else 16) + v) mod 16 = v) as ->.
    { symmetry. apply Z.mod_unique with (if leaf then 3 else 1);
        unfold nibble in Hv; destruct leaf; lia. }
    unfold flagged. destruct leaf; cbn; rewrite ?app_nil_r; [done|].
    rewrite length_app. cbn [length]. rewrite Nat.add_1_r.
    change (0 / 16) with 0. change (0 mod 16) with 0. cbn [Z.ltb Z.compare take].
    by rewrite take_app_length. }
  destruct k as [|x k].
  { destruct (Hgen 0 [] Hk eq_refl) as [Hg _]; [unfold nibble; lia|]. by destruct leaf. }
  inversion Hk as [|? ? Hx Hk']; subst.
  pose proof (even_mod (length (x :: k))) as He.
  destruct (length (x :: k) mod 2 =? 1)%nat eqn:E; cbn [negb] in He.
  - destruct (Hgen x k Hk') as [_ Hg]; [|done|].
    { cbn [length] in He. rewrite Nat.even_succ, <-Nat.negb_even in He. by destruct (Nat.even _). }
    unfold nibble in Hx. unfold wrap. change (2 ^ 8) with 256. rewrite (Z.mod_small (16 + x)) by lia.
    rewrite Z.mod_small by (destruct leaf; lia).
    by replace (16 + x + (if leaf then 32 else 0)) with ((if leaf then 48 else 16) + x)
      by (destruct leaf; lia).
  - destruct (Hgen 0 (x :: k) Hk He) as [Hg _]; [unfold nibble; lia|]. by destruct leaf.
Qed.

(** ** Items *)

(** Bytes that are one item wherever they stand. *)
Definition is_item (it : list Z) : Prop :=
  ∀ rest, ∃ k p, decode_rlp_item (it ++ rest) = Ok (k, p, rest).

(** The bytes of a list. *)
Definition list_item (raw : list Z) : Prop :=
  ∃ p, len p ≤ isize_max ∧ raw = encode_length (len p) ++ p.

Lemma slice_is_item bs : bytes bs → len bs ≤ isize_max → is_item (encode_slice bs).
Proof. intros ? ? rest. by rewrite decode_rlp_item_slice; eauto. Qed.

Lemma list_item_decode p rest :
  len p ≤ isize_max → decode_rlp_item ((encode_length (len p) ++ p) ++ rest) = Ok (true, p, rest).
Proof. intros. by rewrite <-app_assoc, decode_rlp_item_list. Qed.

Lemma list_is_item raw : list_item raw → is_item raw.
Proof. intros (p & Hp & ->) rest. by rewrite list_item_decode by done; eauto. Qed.

Lemma is_item_nonempty it : is_item it → it ≠ [].
Proof.
  intros Hi ->. destruct (Hi []) as (k & p & Hd). done.
Qed.

Lemma get_item_with_prefix_item it rest :
  is_item it → get_item_with_prefix (it ++ rest) = Ok (it, rest).
Proof.
  intros Hi. destruct (Hi rest) as (k & p & Hd). unfold decode_rlp_item in Hd.
  unfold get_item_with_prefix. apply bind_Ok in Hd as ([k' [a b]] & -> & Hd).
  cbn [mbind outcome_bind]. injection Hd as _ _ Hr.
  rewrite Hr. do 2 f_equal. apply (app_inv_tail rest). by rewrite <-Hr at 2; rewrite take_drop.
Qed.

Lemma raw_items_concat n items r :
  Forall is_item items → items ≠ [] → (length items ≤ n)%nat →
  raw_items n {| Decoder.payload := concat items; Decoder.remaining := r |} = Ok items.
Proof.
  intros Hi. revert n. induction Hi as [|it items Hit Hi IH]; [done|]. intros n _ Hn.
  destruct n as [|n]; cbn [length] in Hn; [lia|]. cbn [raw_items concat].
  unfold Decoder.get_encoded_item. cbn [Decoder.payload Decoder.remaining].
  rewrite get_item_with_prefix_item by done. cbn [mbind outcome_bind].
  unfold Decoder.is_done. cbn [Decoder.payload].
  destruct items as [|it' items]; [done|].
  assert (Hne : concat (it' :: items) ≠ []).
  { cbn. inversion Hi as [|? ? Hit' _]; subst. apply is_item_nonempty in Hit'.
    by destruct it'. }
  destruct (concat (it' :: items)) as [|z zs] eqn:Ec; [done|]. rewrite <-Ec in *.
  destruct n as [|n]; [cbn in Hn; lia|]. cbn [orb Nat.eqb].
  by rewrite IH by (done || lia).
Qed.

(** ** The children of a node *)

(** What a choice holds: nothing, a hash, or the encoding of a small node. *)
Definition child_ok (h : NodeHash) : Prop :=
  match h with
  | Hashed x => length x = 32%nat ∧ bytes x
  | Inline [] => True
  | Inline raw => list_item raw ∧ bytes raw ∧ len raw < 32
  end.

Definition child_item (h : NodeHash) : list Z :=
  match h with
  | Hashed x => encode_slice x
  | Inline [] => encode_slice []
  | Inline raw => raw
  end.

Lemma encode_choice_item e h : encode_choice e h = e ++ child_item h.
Proof. by destruct h as [x|[|b raw]]. Qed.

Lemma encode_choices_items e cs : foldl encode_choice e cs = e ++ concat (child_item <$> cs).
Proof.
  revert e. induction cs as [|h cs IH]; intros e; cbn; [by rewrite app_nil_r|].
  by rewrite IH, encode_choice_item, <-app_assoc.
Qed.

Lemma len_32 (x : list Z) : length x = 32%nat → len x = 32.
Proof. unfold len. lia. Qed.

Lemma child_item_is_item h : child_ok h → is_item (child_item h).
Proof.
  destruct h as [x|[|b raw]]; cbn [child_ok child_item].
  - intros [Hl%len_32 Hb]. apply slice_is_item; [done|]. rewrite Hl. done.
  - intros _. apply slice_is_item; [constructor|done].
  - intros [? _]. by apply list_is_item.
Qed.

Lemma decode_child_item h : child_ok h → decode_child (child_item h) = Ok h.
Proof.
  unfold decode_child. destruct h as [x|[|b raw]]; cbn [child_ok child_item].
  - intros [Hl%len_32 Hb]. pose proof (decode_bytes_slice x []) as Hd.
    rewrite app_nil_r in Hd. rewrite Hd by (rewrite ?Hl; done). by rewrite Hl.
  - done.
  - intros [(p & Hp & ->) _]. unfold decode_bytes.
    pose proof (list_item_decode p [] Hp) as Hd. rewrite app_nil_r in Hd. by rewrite Hd.
Qed.

Lemma decode_children_items cs :
  Forall child_ok cs → decode_children (child_item <$> cs) = Ok cs.
Proof.
  induction 1 as [|h cs Hh Hcs IH]; [done|]. cbn [fmap list_fmap decode_children].
  by rewrite decode_child_item, IH.
Qed.

(** ** Nodes *)

Definition node_ok (n : Node) : Prop :=
  match n with
  | Leaf p v => (∃ k, p = flagged true k ∧ nibbles k) ∧ bytes v
  | Extension p c => nibbles p ∧ child_ok c ∧ c ≠ Inline []
  | Branch cs v => length cs = 16%nat ∧ Forall child_ok cs ∧ bytes v
  end.

Definition node_items (n : Node) : list (list Z) :=
  match n with
  | Leaf p v => [encode_slice (Nibbles.encode_compact p); encode_slice v]
  | Extension p c => [encode_slice (Nibbles.encode_compact p); child_item c]
  | Branch cs v => (child_item <$> cs) ++ [encode_slice v]
  end.

(** A node is hashed as the list of its items. *)
Lemma encode_raw_items n :
  node_ok n → encode_raw n = encode_length (len (concat (node_items n))) ++ concat (node_items n).
Proof.
  destruct n as [cs v|p c|p v]; cbn [node_ok encode_raw node_items].
  - intros _. unfold branch_encode_raw, Encoder.finish, Encoder.encode_bytes.
    rewrite encode_choices_items, concat_app. cbn [concat]. by rewrite app_nil_r.
  - intros (_ & _ & Hc). unfold extension_encode_raw, Encoder.finish, Encoder.encode_bytes,
      Encoder.encode_raw, Encoder.new. cbn [concat app]. rewrite app_nil_r.
    by destruct c as [x|[|b raw]].
  - intros _. unfold leaf_encode_raw, Encoder.finish, Encoder.encode_bytes, Encoder.new.
    cbn [concat app]. by rewrite app_nil_r.
Qed.

Lemma concat_length_elem (l : list (list Z)) it : it ∈ l → len it ≤ len (concat l).
Proof.
  induction 1 as [it l|it it' l _ IH]; cbn; rewrite len_app.
  - pose proof (len_nonneg (concat l)). lia.
  - pose proof (len_nonneg it'). lia.
Qed.

Lemma encode_raw_list_item n :
  node_ok n → len (encode_raw n) ≤ isize_max → list_item (encode_raw n).
Proof.
  intros Hn Hl. rewrite encode_raw_items in Hl |- * by done. rewrite len_app in Hl.
  eexists. split; [|done]. pose proof (len_nonneg (encode_length (len (concat (node_items n))))). lia.
Qed.

Lemma node_items_spec n :
  node_ok n → len (concat (node_items n)) ≤ isize_max →
  Forall is_item (node_items n) ∧
  match n with
  | Leaf p v => len (Nibbles.encode_compact p) ≤ isize_max ∧ len v ≤ isize_max
  | Extension p c => len (Nibbles.encode_compact p) ≤ isize_max
  | Branch cs v => len v ≤ isize_max
  end.
Proof.
  intros Hn Hl.
  assert (∀ bs, encode_slice bs ∈ node_items n → len bs ≤ isize_max) as Hs.
  { intros bs Hb%concat_length_elem. pose proof (encode_slice_length bs). lia. }
  pose proof encode_compact_bytes as Hcb.
  destruct n as [cs v|p c|p v]; cbn [node_ok node_items] in *.
  - destruct Hn as (_ & Hcs & Hv). specialize (Hs v). rewrite elem_of_app in Hs.
    split; [|apply Hs; right; constructor]. apply Forall_app. split.
    + apply Forall_fmap. eapply Forall_impl; [exact Hcs|]. apply child_item_is_item.
    + apply Forall_singleton, slice_is_item; [done|]. apply Hs. right. constructor.
  - destruct Hn as (_ & Hc & _). pose proof (Hs (Nibbles.encode_compact p)) as Hp.
    split; [|apply Hp; constructor]. repeat constructor; [|by apply child_item_is_item].
    apply slice_is_item; [done|]. apply Hp. constructor.
  - destruct Hn as (_ & Hv). pose proof (Hs (Nibbles.encode_compact p)) as Hp. specialize (Hs v).
    split; [|split; [apply Hp|apply Hs]; repeat constructor].
    repeat constructor; apply slice_is_item; try done; [apply Hp|apply Hs]; repeat constructor.
Qed.

(** The encoding that is hashed determines the node. *)
Lemma decode_encode_raw n :
  node_ok n → len (encode_raw n) ≤ isize_max → decode_raw (encode_raw n) = Ok n.
Proof.
  intros Hn Hl. rewrite encode_raw_items in Hl |- * by done.
  set (items := node_items n) in *.
  assert (Hl' : len (concat items) ≤ isize_max).
  { rewrite len_app in Hl. pose proof (len_nonneg (encode_length (len (concat items)))). lia. }
  destruct (node_items_spec n Hn Hl') as [Hi Hsz].
  unfold decode_raw, Decoder.new.
  pose proof (list_item_decode (concat items) [] Hl') as Hd. rewrite app_nil_r in Hd.
  rewrite Hd. cbn [mbind outcome_bind]. subst items.
  assert (Hlen : (node_items n ≠ [] ∧ length (node_items n) ≤ 18)%nat).
  { destruct n as [cs v|p c|p v]; cbn; [|split; [done|lia]..]. destruct Hn as [Hc _].
    rewrite length_app, length_fmap, Hc. split; [by destruct (child_item <$> cs)|cbn; lia]. }
  rewrite raw_items_concat by tauto. cbn [mbind outcome_bind].
  destruct n as [cs v|p c|p v]; cbn [node_items node_ok] in *.
  - destruct Hn as (Hc & Hcs & Hv).
    assert (length ((child_item <$> cs) ++ [encode_slice v]) = 17%nat) as H17
      by (rewrite length_app, length_fmap, Hc; done).
    assert (take 16 ((child_item <$> cs) ++ [encode_slice v]) = child_item <$> cs) as Ht.
    { rewrite take_app_le by (rewrite length_fmap, Hc; lia).
      apply take_ge. by rewrite length_fmap, Hc. }
    assert (((child_item <$> cs) ++ [encode_slice v]) !! 16%nat = Some (encode_slice v)) as Hv16.
    { rewrite lookup_app_r by (rewrite length_fmap, Hc; lia). by rewrite length_fmap, Hc. }
    destruct ((child_item <$> cs) ++ [encode_slice v]) as [|i0 [|i1 [|i2 items]]];
      try discriminate H17.
    rewrite H17, Ht, Hv16. cbn [Nat.eqb default]. rewrite decode_children_items by done.
    cbn [mbind outcome_bind default from_option id].
    pose proof (decode_bytes_slice v [] Hv Hsz) as Hdv. rewrite app_nil_r in Hdv. by rewrite Hdv.
  - destruct Hn as (Hp & Hc & Hne).
    pose proof (decode_bytes_slice _ [] (encode_compact_bytes p) Hsz) as Hdp.
    rewrite app_nil_r in Hdp. rewrite Hdp. cbn [mbind outcome_bind].
    pose proof (decode_encode_compact false p Hp) as Hdc. pose proof (is_leaf_flagged false p Hp) as Hlf.
    unfold flagged in Hdc, Hlf. rewrite app_nil_r in Hdc, Hlf. rewrite Hdc, Hlf.
    by rewrite decode_child_item.
  - destruct Hn as ((k & -> & Hk) & Hv). destruct Hsz as [Hsp Hsv].
    pose proof (decode_bytes_slice _ [] (encode_compact_bytes (flagged true k)) Hsp) as Hdp.
    rewrite app_nil_r in Hdp. rewrite Hdp. cbn [mbind outcome_bind].
    rewrite decode_encode_compact, is_leaf_flagged by done.
    pose proof (decode_bytes_slice v [] Hv Hsv) as Hdv. rewrite app_nil_r in Hdv. by rewrite Hdv.
Qed.

(** ** Bytes *)

Lemma child_item_bytes h : child_ok h → bytes (child_item h).
Proof.
  destruct h as [x|[|b raw]]; cbn [child_ok child_item].
  - intros [_ ?]. by apply encode_slice_bytes.
  - intros _. apply encode_slice_bytes. constructor.
  - tauto.
Qed.

Lemma encode_raw_bytes n : node_ok n → bytes (encode_raw n).
Proof.
  intros Hn. rewrite encode_raw_items by done. apply Forall_app.
  split; [apply encode_length_bytes, len_nonneg|].
  apply Forall_concat. destruct n as [cs v|p c|p v]; cbn [node_ok node_items] in *.
  - destruct Hn as (_ & Hcs & Hv). apply Forall_app. split.
    + apply Forall_fmap. eapply Forall_impl; [exact Hcs|]. apply child_item_bytes.
    + apply Forall_singleton. by apply encode_slice_bytes.
  - destruct Hn as (_ & Hc & _).
    repeat constructor; [apply encode_slice_bytes, encode_compact_bytes|by apply child_item_bytes].
  - destruct Hn as (_ & Hv).
    repeat constructor; apply encode_slice_bytes; [apply encode_compact_bytes|done].
Qed.

(** ** The encoding of the database *)

#[export] Instance NodeHash_valid : RLPValid NodeHash := λ h,
  bytes (node_hash_to_vec h) ∧
  match h with Hashed x => length x = 32%nat | Inline x => length x ≠ 32%nat end.
#[export] Instance NibblesField_valid : RLPValid NibblesField := λ n, bytes (nibbles_data n).

Lemma u8s_valid (bs : list Z) : bytes bs → rlp_valid (bs : VecU8).
Proof. intros Hb. eapply Forall_impl; [exact Hb|]. done. Qed.

#[export] Instance NodeHash_codec : RLPCodec NodeHash.
Proof.
  split.
  - done.
  - intros h rest [Hb Hh] Hl. unfold decode_unfinished, NodeHash_decode.
    pose proof (codec_roundtrip (node_hash_to_vec h : VecU8) rest (u8s_valid _ Hb) Hl) as Hr.
    unfold encode at 1, NodeHash_encode, mk_encode. rewrite Hr. cbn [mbind outcome_bind]. unfold node_hash_from_vec.
    destruct h as [x|x]; cbn [node_hash_to_vec].
    + by rewrite (len_32 x Hh).
    + destruct (len x =? 32) eqn:E; propify; [|done]. unfold len in E. lia.
  - intros h d rest. unfold decode_unfinished, NodeHash_decode. intros Hd.
    apply bind_Ok in Hd as ([v r] & Hd & [= _ ->]). by apply (codec_progress (T := VecU8)) in Hd.
  - intros d. apply bind_fuel; [apply (codec_fuel (T := VecU8))|]. by intros [? ?].
  - intros h [Hb _]. apply (codec_bytes (node_hash_to_vec h : VecU8)). by apply u8s_valid.
Qed.

#[export] Instance NibblesField_codec : RLPCodec NibblesField.
Proof.
  split.
  - done.
  - intros [p] rest Hb Hl. unfold decode_unfinished, NibblesField_decode, decode_nibbles.
    unfold encode, NibblesField_encode, mk_encode, encode_nibbles in *. cbn [nibbles_data] in *.
    unfold Encoder.finish, Encoder.encode_field, Encoder.new in *. cbn [app] in *.
    rewrite len_app in Hl.
    pose proof (len_nonneg (encode_length (len (encode (p : VecU8))))).
    unfold Decoder.new. rewrite list_item_decode by lia. cbn [mbind outcome_bind].
    unfold decode_vec_u8, Decoder.decode_field. cbn [Decoder.payload Decoder.remaining].
    pose proof (codec_roundtrip (p : VecU8) []) as Hr. rewrite app_nil_r in Hr.
    by rewrite Hr by (lia || by apply u8s_valid).
  - intros n d rest. unfold decode_unfinished, NibblesField_decode, decode_nibbles, Decoder.new,
      Decoder.finish, decode_vec_u8, Decoder.decode_field.
    intros Hd. outcome_inv. repeat case_match; outcome_inv; simplify_eq/=.
    by eapply decode_rlp_item_progress.
  - intros d. apply bind_fuel; [|by intros [? ?]]. unfold decode_nibbles.
    apply bind_fuel.
    { apply bind_fuel; [apply decode_rlp_item_fuel|]. intros [[[] ?] ?]; done. }
    intros dec _. apply bind_fuel; [|intros [? ?] _; apply bind_fuel; [|done]; unfold Decoder.finish; by case_match].
    unfold decode_vec_u8, Decoder.decode_field. apply bind_fuel; [|by intros [? ?]].
    pose proof (codec_fuel (T := VecU8) (Decoder.payload dec)). by destruct (decode_unfinished _).
  - intros [p] Hb. apply as_list_bytes. apply (codec_bytes (p : VecU8)). by apply u8s_valid.
Qed.

Lemma decoder_new_finish (e rest : list Z) :
  len e ≤ isize_max →
  Decoder.new (Encoder.finish [] e ++ rest)
    = Ok {| Decoder.payload := e; Decoder.remaining := rest |}.
Proof. intros. unfold Decoder.new, Encoder.finish. cbn [app]. by rewrite list_item_decode. Qed.

Lemma child_ok_valid h : child_ok h → rlp_valid h.
Proof.
  destruct h as [x|[|b raw]]; unfold rlp_valid, NodeHash_valid; cbn [child_ok node_hash_to_vec].
  - tauto.
  - intros _. split; [constructor|done].
  - intros (_ & Hb & Hl). split; [done|]. unfold len in Hl. lia.
Qed.

Lemma nibbles_bytes leaf k : nibbles k → bytes (flagged leaf k).
Proof.
  intros Hk. apply Forall_app. split.
  - eapply Forall_impl; [exact Hk|]. unfold nibble, byte. intros. lia.
  - destruct leaf; repeat constructor; lia.
Qed.

(** The database returns the node that was written. *)
Lemma decode_encode_node n :
  node_ok n → len (encode_node n) ≤ isize_max → decode (T := Node) (encode_node n) = Ok n.
Proof.
  intros Hn Hl. unfold decode, decode_unfinished, Node_decode, decode_node_unfinished.
  assert (Hfin : ∀ e, len (Encoder.finish [] e) ≤ isize_max → len e ≤ isize_max).
  { intros e. unfold Encoder.finish. cbn [app]. rewrite len_app.
    pose proof (len_nonneg (encode_length (len e))). lia. }
  assert (Happ : ∀ a b : list Z, len (a ++ b) ≤ isize_max → len a ≤ isize_max ∧ len b ≤ isize_max).
  { intros a b. rewrite len_app. pose proof (len_nonneg a). pose proof (len_nonneg b). lia. }
  assert (Hc : ∀ t (e : list Z), len (t :: e) ≤ isize_max → len e ≤ isize_max).
  { intros t e. rewrite len_cons. lia. }
  destruct n as [cs v|p c|p v]; cbn [encode_node node_ok] in *; apply Hc in Hl;
    unfold encode_branch, encode_extension, encode_leaf in *; apply Hfin in Hl as Hl';
    unfold Encoder.encode_field, Encoder.new in *; cbn [app Z.eqb Pos.eqb] in *;
    unfold decode_branch, decode_extension, decode_leaf, decode_vec_u8;
    pose proof (decoder_new_finish _ [] Hl') as Hd; rewrite app_nil_r in Hd; rewrite Hd;
    apply Happ in Hl' as [Hl1 Hl2]; cbn [mbind outcome_bind].
  - destruct Hn as (Hlen & Hcs & Hv). rewrite (decode_field_ok cs); [|by apply (Forall_impl _ _ _ Hcs child_ok_valid)|done].
    cbn [mbind outcome_bind]. rewrite Hlen. cbn [Nat.eqb negb].
    rewrite (decode_field_last (v : VecU8)) by (done || by apply u8s_valid). done.
  - destruct Hn as (Hp & Hco & _). rewrite decode_field_ok; [|apply (nibbles_bytes false) in Hp; unfold flagged in Hp; by rewrite app_nil_r in Hp|done].
    cbn [mbind outcome_bind]. rewrite decode_field_last by (done || by apply child_ok_valid). done.
  - destruct Hn as ((k & -> & Hk) & Hv). rewrite decode_field_ok; [|by apply (nibbles_bytes true)|done].
    cbn [mbind outcome_bind]. rewrite (decode_field_last (v : VecU8)) by (done || by apply u8s_valid). done.
Qed.
