(* ===== verification/Trie.v ===== *)
(** * Trie: the Merkle Patricia trie

    crates/storage/trie: the database trait of db.rs with its in-memory and
    null implementations, [TrieState] (state.rs), the operations of the three
    node types (node/{leaf, extension, branch}.rs) with their dispatch in
    node.rs, [Trie] (trie.rs) and its iterator (trie_iter.rs).

    The recursive operations take fuel; the operations of a node type take the
    recursive call as an argument.  The cache of [TrieState] is a hash map: its
    model is the list of its insertions, newest first, so that a lookup takes
    the last value inserted.  An operation on [&mut TrieState] returns its
    result and the state it leaves, on its error paths too. *)

From stdpp Require Import base option list numbers strings gmap.
From S2P Require Import Prelude Rlp LevmHost TrieNode.

Local Open Scope Z_scope.

(** ** db.rs *)

Class TrieDB (D : Type) := {
  db_get : D → list Z → TrieResult (option (list Z));
  db_put : D → list Z → list Z → TrieResult unit * D;
  db_put_batch : D → list (list Z * list Z) → TrieResult unit * D;
}.

(** [InMemoryTrieDB]: the map behind the mutex, and whether a panic of another
    holder has poisoned the mutex. *)
Record InMemoryTrieDB := { inner : gmap (list Z) (list Z); poisoned : bool }.

Definition in_memory_get (d : InMemoryTrieDB) (key : list Z) : TrieResult (option (list Z)) :=
  if poisoned d then Err LockError else Ok (inner d !! key).
Definition in_memory_put (d : InMemoryTrieDB) (key value : list Z) :
    TrieResult unit * InMemoryTrieDB :=
  if poisoned d then (Err LockError, d)
  else (Ok (), {| inner := <[key := value]> (inner d); poisoned := false |}).
Definition in_memory_put_batch (d : InMemoryTrieDB) (key_values : list (list Z * list Z)) :
    TrieResult unit * InMemoryTrieDB :=
  if poisoned d then (Err LockError, d)
  else (Ok (), {| inner := foldl (λ m kv, <[kv.1 := kv.2]> m) (inner d) key_values;
                  poisoned := false |}).

#[export] Instance in_memory_db : TrieDB InMemoryTrieDB :=
  {| db_get := in_memory_get; db_put := in_memory_put; db_put_batch := in_memory_put_batch |}.

(** [NullTrieDB] of [Trie::stateless]. *)
Inductive NullTrieDB := NullDB.
#[export] Instance null_db : TrieDB NullTrieDB :=
  {| db_get := λ _ _, Ok None; db_put := λ d _ _, (Ok (), d); db_put_batch := λ d _, (Ok (), d) |}.

(** ** state.rs *)

Record TrieState (D : Type) := { db : D; cache : list (NodeHash * Node) }.
Arguments db {D} _.
Arguments cache {D} _.
Arguments Build_TrieState {D} _ _.

(** An operation on [&mut TrieState]. *)
Definition TM (D A : Type) : Type := TrieState D → TrieResult A * TrieState D.
#[export] Instance tm_ret D : MRet (TM D) := λ A a s, (Ok a, s).
#[export] Instance tm_bind D : MBind (TM D) := λ A B f m s,
  match m s with
  | (Ok a, s) => f a s
  | (Err e, s) => (Err e, s)
  | (Panic, s) => (Panic, s)
  | (NoFuel, s) => (NoFuel, s)
  end.

Definition liftT {D A} (r : TrieResult A) : TM D A := λ s, (r, s).
Definition reads {D A} (f : TrieState D → TrieResult A) : TM D A := λ s, (f s, s).

(** [HashMap::get], [insert] and [remove]. *)
Fixpoint cache_get (c : list (NodeHash * Node)) (h : NodeHash) : option Node :=
  match c with
  | [] => None
  | (h', n) :: c => if decide (h' = h) then Some n else cache_get c h
  end.
Definition cache_remove (c : list (NodeHash * Node)) (h : NodeHash) : list (NodeHash * Node) :=
  filter (λ e, e.1 ≠ h) c.

Section State.
Context {D : Type} `{TrieDB D} `{Crypto}.

Definition state_new (d : D) : TrieState D := Build_TrieState d [].

Definition get_node (s : TrieState D) (hash : NodeHash) : TrieResult (option Node) :=
  match hash with
  | Inline encoded => n ← map_err RLPDecodeErr (decode_raw encoded); Ok (Some n)
  | Hashed _ =>
      match cache_get (cache s) hash with
      | Some node => Ok (Some node)
      | None =>
          r ← db_get (db s) (node_hash_to_vec hash);
          match r with
          | Some rlp => n ← map_err RLPDecodeErr (decode rlp); Ok (Some n)
          | None => Ok None
          end
      end
  end.

(** [get_node(..)?.ok_or(TrieError::InconsistentTree)?]. *)
Definition require_node (s : TrieState D) (hash : NodeHash) : TrieResult Node :=
  r ← get_node s hash; ok_or r InconsistentTree.

Definition insert_node (node : Node) (hash : NodeHash) : TM D unit := λ s,
  (Ok (), match hash with
          | Hashed _ => Build_TrieState (db s) ((hash, node) :: cache s)
          | Inline _ => s
          end).

(** [insert_self] of the three node types and of [Node]. *)
Definition insert_self (node : Node) : TM D NodeHash :=
  let hash := compute_hash node in
  _ ← insert_node node hash;
  mret hash.

(** [commit_node_tail_recursive], on the cache and the batch. *)
Fixpoint commit_node_tail_recursive (fuel : nat) (node_hash : NodeHash)
    (st : list (NodeHash * Node) * list (list Z * list Z)) :
    TrieResult (list (NodeHash * Node) * list (list Z * list Z)) :=
  match fuel with
  | O => NoFuel
  | S fuel =>
      let '(c, acc) := st in
      match cache_get c node_hash with
      | None => Ok (c, acc)
      | Some node =>
          let c := cache_remove c node_hash in
          '(c, acc) ←
            (match node with
             | Branch choices _ =>
                 foldl (λ st child,
                   st ← st;
                   if is_valid child then commit_node_tail_recursive fuel child st else Ok st)
                   (Ok (c, acc)) choices
             | Extension _ child => commit_node_tail_recursive fuel child (c, acc)
             | Leaf _ _ => Ok (c, acc)
             end);
          Ok (c, acc ++ [(node_hash_to_vec node_hash, encode_node node)])
      end
  end.

(** Every nested call removes an entry of the cache first. *)
Definition commit_fuel (s : TrieState D) : nat := S (length (cache s)).

Definition commit_node (node_hash : NodeHash) : TM D unit := λ s,
  match commit_node_tail_recursive (commit_fuel s) node_hash (cache s, []) with
  | Ok (c, to_commit) =>
      let '(r, d) := db_put_batch (db s) to_commit in (r, Build_TrieState d c)
  | Err e => (Err e, s)
  | Panic => (Panic, s)
  | NoFuel => (NoFuel, s)
  end.

Definition clear_cache : TM D unit := λ s, (Ok (), Build_TrieState (db s) []).

Definition commit (root : NodeHash) : TM D unit :=
  _ ← commit_node root;
  clear_cache.

(** ** The nodes

    Indexing the array of choices panics out of range. *)

Definition choice_at (choices : list NodeHash) (i : nat) : TrieResult NodeHash :=
  match choices !! i with Some h => Ok h | None => Panic end.
Definition set_choice (choices : list NodeHash) (i : nat) (h : NodeHash) :
    TrieResult (list NodeHash) :=
  if (i <? length choices)%nat then Ok (<[i := h]> choices) else Panic.

Definition vec_is_empty {A} (l : list A) : bool := match l with [] => true | _ => false end.

(** [get] of the three node types; [rec] is [Node::get]. *)
Definition leaf_get (partial : Nibbles) (value : list Z) (path : Nibbles) :
    TrieResult (option (list Z)) :=
  if decide (partial = path) then Ok (Some value) else Ok None.

Definition extension_get (rec : Node → Nibbles → TrieResult (option (list Z)))
    (s : TrieState D) (prefix : Nibbles) (child : NodeHash) (path : Nibbles) :
    TrieResult (option (list Z)) :=
  match Nibbles.skip_prefix path prefix with
  | Some path => child_node ← require_node s child; rec child_node path
  | None => Ok None
  end.

Definition branch_get (rec : Node → Nibbles → TrieResult (option (list Z)))
    (s : TrieState D) (choices : list NodeHash) (value : list Z) (path : Nibbles) :
    TrieResult (option (list Z)) :=
  let '(next, path) := Nibbles.next_choice path in
  match next with
  | Some choice =>
      child_hash ← choice_at choices choice;
      if is_valid child_hash then
        child_node ← require_node s child_hash;
        rec child_node path
      else Ok None
  | None => Ok (if vec_is_empty value then None else Some value)
  end.

Fixpoint node_get (fuel : nat) (s : TrieState D) (n : Node) (path : Nibbles) :
    TrieResult (option (list Z)) :=
  match fuel with
  | O => NoFuel
  | S fuel =>
      match n with
      | Branch choices value => branch_get (node_get fuel s) s choices value path
      | Extension prefix child => extension_get (node_get fuel s) s prefix child path
      | Leaf partial value => leaf_get partial value path
      end
  end.

(** [insert] of the three node types; [rec] is [Node::insert]. *)
Definition leaf_insert (partial : Nibbles) (self_value : list Z) (path : Nibbles)
    (value : list Z) : TM D Node :=
  if decide (partial = path) then mret (Leaf partial value)
  else
    let match_index := Nibbles.count_prefix path partial in
    self_choice_idx ← liftT (Nibbles.at_ partial match_index);
    new_leaf_choice_idx ← liftT (Nibbles.at_ path match_index);
    partial ← liftT (Nibbles.offset partial (match_index + 1));
    branch_node ←
      (if (self_choice_idx =? 16)%nat then
         rest ← liftT (Nibbles.offset path (match_index + 1));
         new_leaf ← insert_self (Leaf rest value);
         choices ← liftT (set_choice EMPTY_CHOICES new_leaf_choice_idx new_leaf);
         mret (Branch choices self_value)
       else if (new_leaf_choice_idx =? 16)%nat then
         self ← insert_self (Leaf partial self_value);
         choices ← liftT (set_choice EMPTY_CHOICES self_choice_idx self);
         mret (Branch choices value)
       else
         rest ← liftT (Nibbles.offset path (match_index + 1));
         new_leaf ← insert_self (Leaf rest value);
         choices ← liftT (set_choice EMPTY_CHOICES new_leaf_choice_idx new_leaf);
         self ← insert_self (Leaf partial self_value);
         choices ← liftT (set_choice choices self_choice_idx self);
         mret (Branch choices []));
    if (match_index =? 0)%nat then mret branch_node
    else
      prefix ← liftT (Nibbles.slice path 0 match_index);
      child ← insert_self branch_node;
      mret (Extension prefix child).

Definition extension_insert (rec : Node → Nibbles → list Z → TM D Node)
    (prefix : Nibbles) (child : NodeHash) (path : Nibbles) (value : list Z) : TM D Node :=
  let match_index := Nibbles.count_prefix path prefix in
  if (match_index =? length prefix)%nat then
    child_node ← reads (λ s, require_node s child);
    rest ← liftT (Nibbles.offset path match_index);
    new_child_node ← rec child_node rest value;
    child ← insert_self new_child_node;
    mret (Extension prefix child)
  else if (match_index =? 0)%nat then
    new_node ←
      (if (length prefix =? 1)%nat then mret child
       else
         rest ← liftT (Nibbles.offset prefix 1);
         insert_self (Extension rest child));
    choice ← liftT (Nibbles.at_ prefix 0);
    branch_node ←
      (if (choice =? 16)%nat then
         r ← reads (λ s, get_node s new_node);
         match r with
         | Some (Leaf _ leaf_value) => mret (Branch EMPTY_CHOICES leaf_value)
         | _ => liftT (Err InconsistentTree)
         end
       else
         choices ← liftT (set_choice EMPTY_CHOICES choice new_node);
         mret (Branch choices []));
    rec branch_node path value
  else
    rest ← liftT (Nibbles.offset prefix match_index);
    path_rest ← liftT (Nibbles.offset path match_index);
    new_node ← rec (Extension rest child) path_rest value;
    prefix ← liftT (Nibbles.slice prefix 0 match_index);
    child ← insert_self new_node;
    mret (Extension prefix child).

Definition branch_insert (rec : Node → Nibbles → list Z → TM D Node)
    (choices : list NodeHash) (self_value : list Z) (path : Nibbles) (value : list Z) :
    TM D Node :=
  let '(next, path) := Nibbles.next_choice path in
  match next with
  | Some choice =>
      choice_hash ← liftT (choice_at choices choice);
      child_hash ←
        (if negb (is_valid choice_hash) then insert_self (Leaf path value)
         else
           child_node ← reads (λ s, require_node s choice_hash);
           child_node ← rec child_node path value;
           insert_self child_node);
      choices ← liftT (set_choice choices choice child_hash);
      mret (Branch choices self_value)
  | None => mret (Branch choices value)
  end.

Fixpoint node_insert (fuel : nat) (n : Node) (path : Nibbles) (value : list Z) : TM D Node :=
  match fuel with
  | O => liftT NoFuel
  | S fuel =>
      match n with
      | Branch choices self_value => branch_insert (node_insert fuel) choices self_value path value
      | Extension prefix child => extension_insert (node_insert fuel) prefix child path value
      | Leaf partial self_value => leaf_insert partial self_value path value
      end
  end.

(** [remove] of the three node types; [rec] is [Node::remove]. *)
Definition leaf_remove (partial : Nibbles) (value : list Z) (path : Nibbles) :
    TrieResult (option Node * option (list Z)) :=
  Ok (if decide (partial = path) then (None, Some value) else (Some (Leaf partial value), None)).

Definition extension_remove
    (rec : Node → Nibbles → TM D (option Node * option (list Z)))
    (prefix : Nibbles) (child : NodeHash) (path : Nibbles) :
    TM D (option Node * option (list Z)) :=
  match Nibbles.skip_prefix path prefix with
  | Some path =>
      child_node ← reads (λ s, require_node s child);
      '(child_node, old_value) ← rec child_node path;
      match child_node with
      | None => mret (None, old_value)
      | Some (Branch choices value) =>
          child ← insert_self (Branch choices value);
          mret (Some (Extension prefix child), old_value)
      | Some (Extension child_prefix child) =>
          mret (Some (Extension (prefix ++ child_prefix) child), old_value)
      | Some (Leaf partial value) => mret (Some (Leaf (prefix ++ partial) value), old_value)
      end
  | None => mret (Some (Extension prefix child), None)
  end.

(** [.iter().enumerate().filter(|(_, child)| child.is_valid())]. *)
Definition children (choices : list NodeHash) : list (nat * NodeHash) :=
  filter (λ c, is_valid c.2 = true) (imap pair choices).

(** Step 1: remove the value from the node or from the child that has it. *)
Definition branch_remove_value
    (rec : Node → Nibbles → TM D (option Node * option (list Z)))
    (choices : list NodeHash) (self_value : list Z) (path : Nibbles) :
    TM D (list NodeHash * list Z * option (list Z)) :=
  let '(next, path) := Nibbles.next_choice path in
  match next with
  | Some choice_index =>
      choice_hash ← liftT (choice_at choices choice_index);
      if is_valid choice_hash then
        child_node ← reads (λ s, require_node s choice_hash);
        '(child_node, old_value) ← rec child_node path;
        child_hash ←
          (match child_node with
           | Some child_node => insert_self child_node
           | None => mret node_hash_default
           end);
        choices ← liftT (set_choice choices choice_index child_hash);
        mret (choices, self_value, old_value)
      else mret (choices, self_value, None)
  | None =>
      mret (choices, [], if vec_is_empty self_value then None else Some self_value)
  end.

(** Step 2: restructure the node. *)
Definition branch_restructure (choices : list NodeHash) (value : list Z) : TM D Node :=
  match children choices, negb (vec_is_empty value) with
  | [], true => mret (Leaf [16] value)
  | [(choice_index, child_hash)], false =>
      child ← reads (λ s, require_node s child_hash);
      mret (match child with
            | Branch _ _ => Extension [Z.of_nat choice_index] child_hash
            | Extension prefix child => Extension (Z.of_nat choice_index :: prefix) child
            | Leaf partial value => Leaf (Z.of_nat choice_index :: partial) value
            end)
  | _, _ => mret (Branch choices value)
  end.

Definition branch_remove
    (rec : Node → Nibbles → TM D (option Node * option (list Z)))
    (choices : list NodeHash) (self_value : list Z) (path : Nibbles) :
    TM D (option Node * option (list Z)) :=
  '(choices, self_value, value) ← branch_remove_value rec choices self_value path;
  new_node ← branch_restructure choices self_value;
  mret (Some new_node, value).

Fixpoint node_remove (fuel : nat) (n : Node) (path : Nibbles) :
    TM D (option Node * option (list Z)) :=
  match fuel with
  | O => liftT NoFuel
  | S fuel =>
      match n with
      | Branch choices value => branch_remove (node_remove fuel) choices value path
      | Extension prefix child => extension_remove (node_remove fuel) prefix child path
      | Leaf partial value => liftT (leaf_remove partial value path)
      end
  end.

(** [get_path] of the three node types: the encodings it appends. *)
Definition own_path (n : Node) : list (list Z) :=
  let encoded := encode_raw n in
  if 32 <=? len encoded then [encoded] else [].

Fixpoint node_get_path (fuel : nat) (s : TrieState D) (n : Node) (path : Nibbles) :
    TrieResult (list (list Z)) :=
  match fuel with
  | O => NoFuel
  | S fuel =>
      match n with
      | Branch choices _ =>
          let '(next, path) := Nibbles.next_choice path in
          match next with
          | Some choice =>
              child_hash ← choice_at choices choice;
              if is_valid child_hash then
                child_node ← require_node s child_hash;
                rest ← node_get_path fuel s child_node path;
                Ok (own_path n ++ rest)
              else Ok (own_path n)
          | None => Ok (own_path n)
          end
      | Extension prefix child =>
          match Nibbles.skip_prefix path prefix with
          | Some path =>
              child_node ← require_node s child;
              rest ← node_get_path fuel s child_node path;
              Ok (own_path n ++ rest)
          | None => Ok (own_path n)
          end
      | Leaf _ _ => Ok (own_path n)
      end
  end.

(** ** trie.rs *)

Definition EMPTY_TRIE_HASH : list Z := keccak [RLP_NULL].

Record Trie := { root : option NodeHash; state : TrieState D }.

Definition trie_new (d : D) : Trie := {| root := None; state := state_new d |}.
Definition trie_open (d : D) (root : list Z) : Trie :=
  {| root := if decide (root = EMPTY_TRIE_HASH) then None else Some (Hashed root);
     state := state_new d |}.

(** A node operation consumes at least one nibble in two nested calls. *)
Definition trie_fuel (path : Nibbles) : nat := 2 * length path + 2.

Definition trie_get (t : Trie) (path : list Z) : TrieResult (option (list Z)) :=
  match root t with
  | Some root =>
      root_node ← require_node (state t) root;
      let path := Nibbles.from_bytes path in
      node_get (trie_fuel path) (state t) root_node path
  | None => Ok None
  end.

(** The root is taken first: it stays empty when the operation fails. *)
Definition with_root {A} (m : TM D (option NodeHash * A)) (t : Trie) : TrieResult A * Trie :=
  let '(r, s) := m (state t) in
  match r with
  | Ok (root, a) => (Ok a, {| root := root; state := s |})
  | Err e => (Err e, {| root := None; state := s |})
  | Panic => (Panic, {| root := None; state := s |})
  | NoFuel => (NoFuel, {| root := None; state := s |})
  end.

Definition trie_insert (path value : list Z) (t : Trie) : TrieResult unit * Trie :=
  let path := Nibbles.from_bytes path in
  with_root
    (root_node ←
       (match root t with
        | Some root => reads (λ s, get_node s root)
        | None => mret None
        end);
     new_root ←
       (match root_node with
        | Some root_node => node_insert (trie_fuel path) root_node path value
        | None => mret (Leaf path value)
        end);
     hash ← insert_self new_root;
     mret (Some hash, ())) t.

Definition trie_remove (path : list Z) (t : Trie) : TrieResult (option (list Z)) * Trie :=
  let path := Nibbles.from_bytes path in
  match root t with
  | Some root =>
      with_root
        (root_node ← reads (λ s, require_node s root);
         '(root_node, old_value) ← node_remove (trie_fuel path) root_node path;
         match root_node with
         | Some root_node => hash ← insert_self root_node; mret (Some hash, old_value)
         | None => mret (None, old_value)
         end) t
  | None => (Ok None, t)
  end.

Definition hash_no_commit (t : Trie) : list Z :=
  match root t with Some root => finalize root | None => EMPTY_TRIE_HASH end.

Definition trie_hash (t : Trie) : TrieResult (list Z) * Trie :=
  match root t with
  | Some root' =>
      let '(r, s) := commit root' (state t) in
      (_ ← r; Ok (hash_no_commit t), {| root := root t; state := s |})
  | None => (Ok (hash_no_commit t), t)
  end.

Definition get_proof (t : Trie) (path : list Z) : TrieResult (list (list Z)) :=
  match root t with
  | None => Ok []
  | Some root =>
      let node_path := match root with Inline node => [node] | Hashed _ => [] end in
      root_node ← get_node (state t) root;
      match root_node with
      | Some root_node =>
          let path := Nibbles.from_bytes path in
          rest ← node_get_path (trie_fuel path) (state t) root_node path;
          Ok (node_path ++ rest)
      | None => Ok node_path
      end
  end.

(** [Vec::swap_remove(0)]: the last element takes the place of the first. *)
Definition swap_remove_0 {A} (l : list A) : TrieResult (list A) :=
  match l with
  | [] => Panic
  | _ :: rest => Ok (match last rest with Some x => x :: removelast rest | None => [] end)
  end.

Fixpoint proofs_of (t : Trie) (paths : list (list Z)) : TrieResult (list (list Z)) :=
  match paths with
  | [] => Ok []
  | path :: paths =>
      nodes ← get_proof t path;
      nodes ← swap_remove_0 nodes;
      rest ← proofs_of t paths;
      Ok (nodes ++ rest)
  end.

(** The nodes go through a hash set: their order is not specified. *)
Definition get_proofs (t : Trie) (paths : list (list Z)) :
    TrieResult (option (list Z) * list (list Z)) :=
  root_node ←
    (match root t with Some root => get_node (state t) root | None => Ok None end);
  match root_node with
  | None => Ok (None, [])
  | Some root_node =>
      node_path ← proofs_of t paths;
      Ok (Some (encode_raw root_node), remove_dups node_path)
  end.

Fixpoint get_node_inner (fuel : nat) (s : TrieState D) (n : Node) (partial_path : Nibbles) :
    TrieResult (list Z) :=
  match fuel with
  | O => NoFuel
  | S fuel =>
      if vec_is_empty partial_path then Ok (encode_raw n)
      else
        match n with
        | Branch choices _ =>
            let '(next, partial_path) := Nibbles.next_choice partial_path in
            match next with
            | Some idx =>
                child_hash ← choice_at choices idx;
                if is_valid child_hash then
                  child_node ← require_node s child_hash;
                  get_node_inner fuel s child_node partial_path
                else Ok []
            | None => Ok []
            end
        | Extension prefix child =>
            match Nibbles.skip_prefix partial_path prefix with
            | Some partial_path =>
                if is_valid child then
                  child_node ← require_node s child;
                  get_node_inner fuel s child_node partial_path
                else Ok []
            | None => Ok []
            end
        | Leaf _ _ => Ok []
        end
  end.

Definition trie_get_node (t : Trie) (partial_path : list Z) : TrieResult (list Z) :=
  if 32 <? len partial_path then Ok []
  else
    let partial_path := if len partial_path <? 32 then Nibbles.decode_compact partial_path
                        else Nibbles.from_bytes partial_path in
    root_node ←
      (match root t with Some root => get_node (state t) root | None => Ok None end);
    match root_node with
    | None => Ok []
    | Some root_node => get_node_inner (trie_fuel partial_path) (state t) root_node partial_path
    end.

(** ** trie_iter.rs *)

Record TrieIterator := { it_trie : Trie; stack : list (Nibbles * NodeHash) }.

(** The top of the stack is its head. *)
Definition iter_new (t : Trie) : TrieIterator :=
  {| it_trie := t; stack := match root t with Some root => [([], root)] | None => [] end |}.

Definition iter_push (path : Nibbles) (n : Node) (stack : list (Nibbles * NodeHash)) :
    Nibbles * list (Nibbles * NodeHash) :=
  match n with
  | Branch choices _ =>
      (path, foldr (λ '(choice, child) stack,
                      if is_valid child then (path ++ [Z.of_nat choice], child) :: stack
                      else stack)
                   stack (imap pair choices))
  | Extension prefix child =>
      let path := path ++ prefix in (path, (path, child) :: stack)
  | Leaf partial _ => (path ++ partial, stack)
  end.

(** [None] ends the iteration: an empty stack, or a node that is missing or
    does not decode; a panic of the decoder is one of the iterator. *)
Definition iter_next (it : TrieIterator) : TrieResult (option (Nibbles * Node) * TrieIterator) :=
  match stack it with
  | [] => Ok (None, it)
  | (path, next_node_hash) :: rest =>
      let popped := {| it_trie := it_trie it; stack := rest |} in
      match get_node (state (it_trie it)) next_node_hash with
      | Ok (Some next_node) =>
          let '(path, stack) := iter_push path next_node rest in
          Ok (Some (path, next_node), {| it_trie := it_trie it; stack := stack |})
      | Ok None | Err _ => Ok (None, popped)
      | Panic => Panic
      | NoFuel => NoFuel
      end
  end.

(** [content]: the iterator run to its first [None]. *)
Fixpoint content (fuel : nat) (it : TrieIterator) : TrieResult (list (list Z * list Z)) :=
  match fuel with
  | O => NoFuel
  | S fuel =>
      '(item, it) ← iter_next it;
      match item with
      | None => Ok []
      | Some (p, n) =>
          rest ← content fuel it;
          Ok (match n with
              | Branch _ value =>
                  if vec_is_empty value then rest else (Nibbles.to_bytes p, value) :: rest
              | Extension _ _ => rest
              | Leaf _ value => (Nibbles.to_bytes p, value) :: rest
              end)
      end
  end.

End State.

Arguments Trie D : clear implicits.

(** ** Stateless tries (trie.rs) *)

Section Stateless.
Context `{Crypto}.

Definition stateless : Trie NullTrieDB := trie_new NullDB.

Fixpoint insert_nodes (nodes : list (list Z)) : TM NullTrieDB unit :=
  match nodes with
  | [] => mret ()
  | rlp :: nodes =>
      node ← liftT (map_err RLPDecodeErr (decode_raw rlp));
      _ ← insert_self node;
      insert_nodes nodes
  end.

Definition from_nodes (root_node : option (list Z)) (other_nodes : list (list Z)) :
    TrieResult (Trie NullTrieDB) :=
  let m : TM NullTrieDB (option NodeHash) :=
    root ←
      (match root_node with
       | Some root_node =>
           root_node ← liftT (map_err RLPDecodeErr (decode_raw root_node));
           hash ← insert_self root_node;
           mret (Some hash)
       | None => mret None
       end);
    _ ← insert_nodes other_nodes;
    mret root in
  let '(r, s) := m (state stateless) in
  root ← r;
  Ok {| root := root; state := s |}.

(** [.unwrap()] of an error panics. *)
Fixpoint insert_all (iter : list (list Z * list Z)) (t : Trie NullTrieDB) :
    TrieResult (Trie NullTrieDB) :=
  match iter with
  | [] => Ok t
  | (path, value) :: iter =>
      match trie_insert path value t with
      | (Ok _, t) => insert_all iter t
      | (NoFuel, _) => NoFuel
      | (_, _) => Panic
      end
  end.

Definition compute_hash_from_unsorted_iter (iter : list (list Z * list Z)) :
    TrieResult (list Z) :=
  t ← insert_all iter stateless;
  Ok (hash_no_commit t).

End Stateless.
