(* ===== verification/TrieLogic.v ===== *)
(** * Trie: paths, and the logic of operations on the state

    Lemmas on prefixes of paths, and a program logic for the operations on
    [TrieState].  Nodes are found by their hash: [knows s h n] says that the
    state has the node [n] under [h], and [collision_free s] that it has at
    most one.  Operations add to what a state knows, so that a state an
    operation passes through is free of collisions when the one it leaves is;
    [wp] states what an operation returns in that case. *)

From stdpp Require Import base option list numbers strings gmap.
From S2P Require Import Prelude Rlp RlpProofs LevmHost TrieNode TrieCodec Trie.

Local Open Scope Z_scope.

(** ** Prefixes *)

Lemma skip_prefix_Some q p r : Nibbles.skip_prefix q p = Some r ↔ q = p ++ r.
Proof.
  revert q. induction p as [|x p IH]; intros [|y q]; cbn [Nibbles.skip_prefix app];
    [naive_solver..|].
  destruct (y =? x) eqn:E; propify; [|naive_solver]. subst. rewrite IH. naive_solver.
Qed.

Lemma skip_prefix_app p r : Nibbles.skip_prefix (p ++ r) p = Some r.
Proof. by apply skip_prefix_Some. Qed.

(** The common prefix of two paths. *)
Lemma count_prefix_split a b :
  ∃ p a' b', a = p ++ a' ∧ b = p ++ b' ∧ Nibbles.count_prefix a b = length p ∧
    (∀ x y a'' b'', a' = x :: a'' → b' = y :: b'' → x ≠ y).
Proof.
  revert b. induction a as [|x a IH]; intros b.
  { exists [], [], b. naive_solver. }
  destruct b as [|y b]; [exists [], (x :: a), []; naive_solver|].
  cbn. destruct (x =? y) eqn:E; propify.
  - subst. destruct (IH b) as (p & a' & b' & -> & -> & Hc & Hd).
    exists (y :: p), a', b'. cbn. rewrite Hc. naive_solver.
  - exists [], (x :: a), (y :: b). naive_solver.
Qed.

Lemma offset_app p r : Nibbles.offset (p ++ r) (length p) = Ok r.
Proof.
  unfold Nibbles.offset, Nibbles.slice. rewrite !length_app.
  rewrite (proj2 (Nat.leb_le _ _)), (proj2 (Nat.leb_le _ _)) by lia. cbn [andb].
  rewrite drop_app_length. f_equal. apply take_ge. lia.
Qed.

Lemma offset_cons_app p x r : Nibbles.offset (p ++ x :: r) (length p + 1) = Ok r.
Proof.
  pose proof (offset_app (p ++ [x]) r) as Ho. rewrite <-app_assoc, length_app in Ho. done.
Qed.

Lemma slice_app p r : Nibbles.slice (p ++ r) 0 (length p) = Ok p.
Proof.
  unfold Nibbles.slice. rewrite length_app.
  rewrite (proj2 (Nat.leb_le (length p) _)) by lia. cbn [Nat.leb andb].
  rewrite Nat.sub_0_r, drop_0, take_app_length. done.
Qed.

Lemma at_app p x r : Nibbles.at_ (p ++ x :: r) (length p) = Ok (Z.to_nat x).
Proof. unfold Nibbles.at_, Nibbles. rewrite list_lookup_middle by done. done. Qed.

Lemma next_choice_nibble x q :
  nibble x → Nibbles.next_choice (x :: q) = (Some (Z.to_nat x), q).
Proof. unfold nibble, Nibbles.next_choice. intros. by decide_tests. Qed.

Lemma nibble_index x : nibble x → (Z.to_nat x < 16)%nat ∧ Z.of_nat (Z.to_nat x) = x.
Proof. unfold nibble. lia. Qed.

Lemma index_nibble i : (i < 16)%nat → nibble (Z.of_nat i).
Proof. unfold nibble. lia. Qed.

(** ** The logic of operations on the state *)

Section Logic.
Context {D : Type} `{TrieDB D} `{CryptoLaws}.

Implicit Types (s : TrieState D) (n : Node) (h : NodeHash).

(** The state resolves [h] to [n]. *)
Definition knows s h n : Prop :=
  match h with
  | Inline e => decode_raw e = Ok n
  | Hashed x =>
      (h, n) ∈ cache s ∨
      ∃ rlp, db_get (db s) x = Ok (Some rlp) ∧ decode (T := Node) rlp = Ok n
  end.

Definition collision_free s : Prop :=
  ∀ h n1 n2, knows s h n1 → knows s h n2 → n1 = n2.

(** The states an operation leaves: the database is untouched, the cache grows. *)
Definition is_hashed h : Prop := match h with Hashed _ => True | Inline _ => False end.
Definition cache_ok (c : list (NodeHash * Node)) : Prop := Forall (λ e, is_hashed e.1) c.
Definition extends s s' : Prop :=
  db s' = db s ∧ ∃ new, cache s' = new ++ cache s ∧ cache_ok new.

#[export] Instance extends_preorder : PreOrder extends.
Proof.
  split.
  - intros s. split; [done|]. exists []. split; [done|constructor].
  - intros s1 s2 s3 (? & new1 & Hc1 & Hn1) (? & new2 & Hc2 & Hn2). split; [congruence|].
    exists (new2 ++ new1). rewrite Hc2, Hc1, app_assoc. split; [done|by apply Forall_app].
Qed.

Lemma knows_extends s s' h n : extends s s' → knows s h n → knows s' h n.
Proof.
  intros (Hdb & new & Hc & _). destruct h as [x|e]; [|done]. cbn. rewrite Hdb, Hc.
  intros [?|?]; [left; apply elem_of_app; by right|by right].
Qed.

Lemma cache_ok_extends s s' : extends s s' → cache_ok (cache s) → cache_ok (cache s').
Proof. intros (_ & new & -> & Hn) Hc. by apply Forall_app. Qed.

Lemma collision_free_extends s s' : extends s s' → collision_free s' → collision_free s.
Proof. intros He Hc h n1 n2 Hk1 Hk2. eapply Hc; by eapply knows_extends. Qed.

Lemma cache_get_elem (c : list (NodeHash * Node)) h n :
  cache_get c h = Some n → (h, n) ∈ c.
Proof.
  induction c as [|[h' n'] c IH]; cbn; [done|]. case_decide; intros; simplify_eq.
  - constructor.
  - constructor. by apply IH.
Qed.

Lemma cache_get_None (c : list (NodeHash * Node)) h n :
  cache_get c h = None → (h, n) ∉ c.
Proof.
  induction c as [|[h' n'] c IH]; cbn; [intros _; apply not_elem_of_nil|].
  case_decide; [done|]. intros Hc. apply not_elem_of_cons. split; [naive_solver|by apply IH].
Qed.

(** A known node is the one that is found. *)
Lemma get_node_knows s h n :
  collision_free s → knows s h n → get_node s h = Ok (Some n).
Proof.
  intros Hc Hk. destruct h as [x|e]; cbn [get_node].
  - destruct (cache_get (cache s) (Hashed x)) as [n'|] eqn:E.
    + do 2 f_equal. eapply (Hc (Hashed x)); [|exact Hk]. left. by apply cache_get_elem.
    + destruct Hk as [Hk|(rlp & Hg & Hd)].
      { by apply (cache_get_None _ _ n) in E. }
      cbn [node_hash_to_vec]. rewrite Hg. cbn [mbind outcome_bind]. by rewrite Hd.
  - cbn in Hk. by rewrite Hk.
Qed.

Lemma require_node_knows s h n :
  collision_free s → knows s h n → require_node s h = Ok n.
Proof. intros. unfold require_node. by rewrite (get_node_knows s h n). Qed.

(** An operation only extends the state. *)
Definition grows {A} (m : TM D A) : Prop := ∀ s, extends s (m s).2.

Lemma grows_ret {A} (a : A) : grows (mret a).
Proof. intros s. done. Qed.
Lemma grows_lift {A} (r : TrieResult A) : grows (liftT r).
Proof. intros s. done. Qed.
Lemma grows_reads {A} (f : TrieState D → TrieResult A) : grows (reads f).
Proof. intros s. done. Qed.
Lemma grows_bind {A B} (m : TM D A) (f : A → TM D B) :
  grows m → (∀ a, grows (f a)) → grows (m ≫= f).
Proof.
  intros Hm Hf s. unfold mbind, tm_bind. specialize (Hm s).
  destruct (m s) as [[a|e| |] s']; try done. cbn in Hm. etrans; [done|]. apply Hf.
Qed.
Lemma grows_insert_self n : grows (insert_self n).
Proof.
  intros s. unfold insert_self, insert_node, mbind, tm_bind, mret, tm_ret. cbn.
  destruct (compute_hash n); [|done]. split; [done|].
  exists [(Hashed h, n)]. split; [done|by repeat constructor].
Qed.

(** When the state it leaves is free of collisions, [m] returns a result
    that satisfies [Q] in that state. *)
Definition wp {A} (m : TM D A) s (Q : A → TrieState D → Prop) : Prop :=
  collision_free (m s).2 → ∃ a, (m s).1 = Ok a ∧ Q a (m s).2.

Lemma wp_ret {A} (a : A) s (Q : A → TrieState D → Prop) : Q a s → wp (mret a) s Q.
Proof. intros HQ _. by exists a. Qed.
Lemma wp_lift {A} (r : TrieResult A) a s (Q : A → TrieState D → Prop) :
  r = Ok a → Q a s → wp (liftT r) s Q.
Proof. intros -> HQ _. by exists a. Qed.
Lemma wp_reads {A} (f : TrieState D → TrieResult A) s (Q : A → TrieState D → Prop) :
  (collision_free s → ∃ a, f s = Ok a ∧ Q a s) → wp (reads f) s Q.
Proof. intros HQ Hc. by apply HQ. Qed.
Lemma wp_bind {A B} (m : TM D A) (f : A → TM D B) s (Q : B → TrieState D → Prop) :
  (∀ a, grows (f a)) → wp m s (λ a s', wp (f a) s' Q) → wp (m ≫= f) s Q.
Proof.
  intros Hf Hm Hc. unfold wp, mbind, tm_bind in *. destruct (m s) as [r s1]. cbn [fst snd] in *.
  assert (collision_free s1) as Hc1.
  { destruct r as [a|e| |]; try done. eapply collision_free_extends; [apply Hf|done]. }
  destruct (Hm Hc1) as (a & -> & Hw). by apply Hw.
Qed.
Lemma wp_mono {A} (m : TM D A) s (Q Q' : A → TrieState D → Prop) :
  wp m s Q → (∀ a s', extends s s' → Q a s' → Q' a s') → grows m → wp m s Q'.
Proof. intros Hm HQ Hg Hc. destruct (Hm Hc) as (a & -> & ?). exists a. split; [done|]. by apply HQ. Qed.

Lemma compute_hash_ok n :
  node_ok n → child_ok (compute_hash n) ∧ compute_hash n ≠ Inline [].
Proof.
  intros Hn. unfold compute_hash, from_encoded_raw.
  destruct (32 <=? len (encode_raw n)) eqn:E; propify.
  - split; [|done]. split; [apply keccak_length|apply keccak_bytes].
  - assert (list_item (encode_raw n)) as Hi.
    { apply encode_raw_list_item; [done|]. unfold isize_max. lia. }
    pose proof (is_item_nonempty _ (list_is_item _ Hi)) as Hne.
    pose proof (encode_raw_bytes n Hn). destruct (encode_raw n); [done|].
    split; [|done]. by split_and!.
Qed.

Lemma knows_inline s n :
  node_ok n → len (encode_raw n) < 32 → knows s (Inline (encode_raw n)) n.
Proof. intros. apply decode_encode_raw; [done|]. unfold isize_max. lia. Qed.

Lemma wp_insert_self n s (Q : NodeHash → TrieState D → Prop) :
  node_ok n →
  (∀ s', extends s s' → knows s' (compute_hash n) n → Q (compute_hash n) s') →
  wp (insert_self n) s Q.
Proof.
  intros Hn HQ _. pose proof (grows_insert_self n s) as He.
  unfold insert_self, insert_node, mbind, tm_bind, mret, tm_ret in *. cbn [fst snd] in *.
  eexists. split; [done|]. apply HQ; [done|]. revert He.
  unfold compute_hash, from_encoded_raw.
  destruct (32 <=? len (encode_raw n)) eqn:E; propify; intros _.
  - left. constructor.
  - by apply knows_inline.
Qed.

End Logic.

#[export] Hint Resolve grows_ret grows_lift grows_reads grows_insert_self : trie.
#[export] Hint Extern 1 (grows (_ ≫= _)) => (apply grows_bind; [|intros ?]) : trie.

(** Show that an operation only extends the state. *)
Ltac grow :=
  repeat first
    [ progress intros
    | solve [eauto with trie]
    | apply grows_bind
    | case_match ].

(** One step of an operation. *)
Ltac wp_step := apply wp_bind; [solve [grow]|].
