(* ===== verification/TrieMap.v ===== *)
(** * Trie: a trie represents a finite map

    [Rep s n m]: the node [n], with the nodes reachable from it in the state
    [s], is the canonical trie of the map [m] from keys (lists of nibbles,
    without the leaf flag) to values.  [get], [insert] and [remove] compute the
    operations of maps on it, and the map determines the node. *)

From stdpp Require Import base option list numbers strings gmap.
From S2P Require Import Prelude Rlp RlpProofs LevmHost TrieNode TrieCodec Trie TrieLogic.

Local Open Scope Z_scope.

Section Representation.
Context {D : Type} `{TrieDB D} `{CryptoLaws}.

Implicit Types (s : TrieState D) (n : Node) (h : NodeHash).

(** ** Maps from keys to values *)

Definition Map : Type := list Z → option (list Z).

Definition upd (m : Map) (k : list Z) (o : option (list Z)) : Map :=
  λ q, if decide (q = k) then o else m q.
Definition under (p : list Z) (m : Map) : Map := λ q, Nibbles.skip_prefix q p ≫= m.
Definition single (k v : list Z) : Map := upd (λ _, None) k (Some v).

(** Maps agree on keys. *)
Definition meq (m1 m2 : Map) : Prop := ∀ q, nibbles q → m1 q = m2 q.

#[export] Instance meq_equivalence : Equivalence meq.
Proof.
  split.
  - by intros m q.
  - intros m1 m2 He q Hq. by rewrite He.
  - intros m1 m2 m3 H12 H23 q Hq. by rewrite H12, H23.
Qed.
#[export] Instance upd_proper : Proper (meq ==> eq ==> eq ==> meq) upd.
Proof. intros m1 m2 He k ? <- o ? <- q Hq. unfold upd. case_decide; [done|by apply He]. Qed.

Lemma nibbles_app p q : nibbles (p ++ q) ↔ nibbles p ∧ nibbles q.
Proof. apply Forall_app. Qed.

#[export] Instance under_proper p : Proper (meq ==> meq) (under p).
Proof.
  intros m1 m2 He q Hq. unfold under. destruct (Nibbles.skip_prefix q p) as [r|] eqn:E; [|done].
  cbn. apply He. apply skip_prefix_Some in E as ->. by apply nibbles_app in Hq as [_ ?].
Qed.

Lemma under_app p m q : under p m (p ++ q) = m q.
Proof. unfold under. by rewrite skip_prefix_app. Qed.

Lemma under_Some p m q v : under p m q = Some v ↔ ∃ r, q = p ++ r ∧ m r = Some v.
Proof.
  unfold under. rewrite bind_Some. by setoid_rewrite skip_prefix_Some.
Qed.

Lemma under_nil m q : under [] m q = m q.
Proof. apply (under_app []). Qed.

Lemma under_under p1 p2 m : meq (under p1 (under p2 m)) (under (p1 ++ p2) m).
Proof.
  intros q _. apply option_eq. intros v. rewrite !under_Some. split.
  - intros (r & -> & Hr). apply under_Some in Hr as (r' & -> & ?). exists r'. by rewrite <-app_assoc.
  - intros (r & -> & Hr). exists (p2 ++ r). rewrite <-app_assoc. by rewrite under_app.
Qed.

Lemma under_upd p m k o : meq (upd (under p m) (p ++ k) o) (under p (upd m k o)).
Proof.
  intros q _. unfold upd at 1. case_decide as E; [subst|].
  - rewrite under_app. unfold upd. by rewrite decide_True.
  - apply option_eq. intros v. rewrite !under_Some. f_equiv. intros r.
    unfold upd. split; intros [-> ?]; (split; [done|]); case_decide; naive_solver.
Qed.

Lemma under_single p k v : meq (under p (single k v)) (single (p ++ k) v).
Proof.
  intros q _. apply option_eq. intros w. rewrite under_Some. unfold single, upd. split.
  - intros (r & -> & Hr). case_decide; [subst|done]. by rewrite decide_True.
  - case_decide; [subst|done]. intros. exists k. by rewrite decide_True.
Qed.

(** ** Slots: the choices of a branch *)

Definition Slots : Type := nat → option (Node * Map).

Definition slot_hash (o : option (Node * Map)) : NodeHash :=
  match o with Some (n, _) => compute_hash n | None => node_hash_default end.
Definition choices_of (f : Slots) : list NodeHash := (λ i, slot_hash (f i)) <$> seq 0 16.
Definition set_slot (f : Slots) (i : nat) (o : option (Node * Map)) : Slots :=
  λ j, if decide (j = i) then o else f j.
Definition no_slots : Slots := λ _, None.

Definition value_of (v : list Z) : option (list Z) := if vec_is_empty v then None else Some v.
Definition branch_map (f : Slots) (v : list Z) : Map := λ q,
  match q with
  | [] => value_of v
  | x :: q => f (Z.to_nat x) ≫= λ '(_, m), m q
  end.

(** The parts of a branch: its value and its children. *)
Definition part (f : Slots) (v : list Z) (i : option nat) : Prop :=
  match i with
  | None => v ≠ []
  | Some i => (i < 16)%nat ∧ is_Some (f i)
  end.
Definition two_parts (f : Slots) (v : list Z) : Prop :=
  ∃ i j, i ≠ j ∧ part f v i ∧ part f v j.

Lemma choices_of_length f : length (choices_of f) = 16%nat.
Proof. done. Qed.

Lemma choices_of_lookup f i : (i < 16)%nat → choices_of f !! i = Some (slot_hash (f i)).
Proof. intros. unfold choices_of. by rewrite list_lookup_fmap, lookup_seq_lt. Qed.

Lemma choice_at_slots f i : (i < 16)%nat → choice_at (choices_of f) i = Ok (slot_hash (f i)).
Proof. intros. unfold choice_at. by rewrite choices_of_lookup. Qed.

Lemma set_choice_slots f i o :
  (i < 16)%nat →
  set_choice (choices_of f) i (slot_hash o) = Ok (choices_of (set_slot f i o)).
Proof.
  intros Hi. unfold set_choice. rewrite choices_of_length, (proj2 (Nat.ltb_lt _ _)) by done.
  f_equal. apply list_eq. intros j. destruct (decide (j < 16)%nat).
  - rewrite choices_of_lookup by done. unfold set_slot. destruct (decide (j = i)) as [->|].
    + by rewrite list_lookup_insert_eq.
    + by rewrite list_lookup_insert_ne, choices_of_lookup.
  - rewrite !lookup_ge_None_2; [done| |]; rewrite ?length_insert, choices_of_length; lia.
Qed.

Lemma choices_of_no_slots : EMPTY_CHOICES = choices_of no_slots.
Proof. done. Qed.

Lemma part_mono f v i o j : part f v j → part (set_slot f i (Some o)) v j.
Proof.
  destruct j as [j|]; [|done]. cbn. unfold set_slot. intros [? ?]. split; [done|].
  case_decide; [eauto|done].
Qed.

Lemma branch_map_set f v x (o : option (Node * Map)) q :
  nibble x → nibbles q →
  branch_map (set_slot f (Z.to_nat x) o) v q =
  match q with
  | [] => value_of v
  | y :: q' => if decide (y = x) then o ≫= λ '(_, m), m q' else branch_map f v q
  end.
Proof.
  intros Hx Hq. destruct q as [|y q]; [done|]. inversion Hq as [|? ? Hy ?]; subst. cbn.
  unfold set_slot. apply nibble_index in Hx, Hy. do 2 case_decide; try done; naive_solver lia.
Qed.

(** ** The representation *)

Inductive Rep s : Node → Map → Prop :=
| Rep_leaf k v m :
    nibbles k → v ≠ [] → bytes v → meq m (single k v) →
    Rep s (Leaf (k ++ [16]) v) m
| Rep_extension p cs v m' m :
    nibbles p → p ≠ [] →
    knows s (compute_hash (Branch cs v)) (Branch cs v) →
    Rep s (Branch cs v) m' → meq m (under p m') →
    Rep s (Extension p (compute_hash (Branch cs v))) m
| Rep_branch f v m :
    (∀ i n m', f i = Some (n, m') → knows s (compute_hash n) n) →
    (∀ i n m', f i = Some (n, m') → Rep s n m') →
    bytes v → two_parts f v → meq m (branch_map f v) →
    Rep s (Branch (choices_of f) v) m.

(** The children of a branch, which need not have two parts yet. *)
Definition slots_ok s (f : Slots) : Prop :=
  ∀ i n m, f i = Some (n, m) → knows s (compute_hash n) n ∧ Rep s n m.

Lemma Rep_slots s f v m :
  slots_ok s f → bytes v → two_parts f v → meq m (branch_map f v) →
  Rep s (Branch (choices_of f) v) m.
Proof. intros Hf ???. apply Rep_branch; try done; intros i n m' Hi; by apply Hf in Hi as []. Qed.

Lemma Rep_branch_inv s cs v m :
  Rep s (Branch cs v) m →
  ∃ f, cs = choices_of f ∧ slots_ok s f ∧ bytes v ∧ two_parts f v ∧ meq m (branch_map f v).
Proof.
  remember (Branch cs v) as n eqn:En. intros Hr. destruct Hr as [| |f v' m Hk Hf Hb Ht Hm]; try done.
  assert (cs = choices_of f ∧ v' = v) as [-> ->] by (split; congruence). exists f. split_and!; try done. intros i n m' Hi. eauto.
Qed.

Lemma Rep_meq s n m m' : Rep s n m → meq m' m → Rep s n m'.
Proof.
  intros Hr He. destruct Hr.
  - apply Rep_leaf; try done. by etrans.
  - eapply Rep_extension; try done. by etrans.
  - apply Rep_branch; try done. by etrans.
Qed.

Lemma Rep_extends s s' n m : extends s s' → Rep s n m → Rep s' n m.
Proof.
  intros He. induction 1.
  - by apply Rep_leaf.
  - eapply Rep_extension; try done. by eapply knows_extends.
  - apply Rep_branch; try done. intros. eapply knows_extends; [done|]. eauto.
Qed.

Lemma slots_ok_extends s s' f : extends s s' → slots_ok s f → slots_ok s' f.
Proof.
  intros He Hf i n m Hi. destruct (Hf i n m Hi).
  split; [by eapply knows_extends|by eapply Rep_extends].
Qed.

Lemma slots_ok_set s f i n m :
  slots_ok s f → knows s (compute_hash n) n → Rep s n m →
  slots_ok s (set_slot f i (Some (n, m))).
Proof.
  intros Hf Hk Hr j n' m'. unfold set_slot. case_decide; [intros [= <- <-]; done|apply Hf].
Qed.

Lemma slots_ok_clear s f i : slots_ok s f → slots_ok s (set_slot f i None).
Proof. intros Hf j n' m'. unfold set_slot. case_decide; [done|apply Hf]. Qed.

Lemma no_slots_ok s : slots_ok s no_slots.
Proof. by intros i n m. Qed.

Lemma Rep_node_ok s n m : Rep s n m → node_ok n.
Proof.
  induction 1 as [k v m Hk Hne Hb _|p cs v m' m Hp Hne _ Hr IH _|f v m _ Hf IH Hb _ _]; cbn [node_ok].
  - split; [by exists k|done].
  - split; [done|]. by apply compute_hash_ok.
  - split_and!; [done| |done]. apply Forall_fmap, Forall_true. intros i. cbn.
    destruct (f i) as [[n m']|] eqn:E; [|done]. by apply compute_hash_ok, (IH i n m').
Qed.

(** The choice of a slot is valid exactly when the slot is used. *)
Lemma slot_valid s f i n m :
  slots_ok s f → f i = Some (n, m) → is_valid (slot_hash (f i)) = true.
Proof.
  intros Hf Hi. destruct (Hf i n m Hi) as [_ Hr]. rewrite Hi. cbn.
  destruct (compute_hash_ok n) as [_ Hne]; [by eapply Rep_node_ok|].
  by destruct (compute_hash n) as [|[]].
Qed.

(** ** Every represented map has a key; that of a branch has two that part at once *)

Lemma value_of_Some v : v ≠ [] → value_of v = Some v.
Proof. by destruct v. Qed.

Lemma part_key s f v i :
  (∀ i n m, f i = Some (n, m) → ∃ q w, nibbles q ∧ m q = Some w) → part f v i →
  ∃ q w, nibbles q ∧ branch_map f v q = Some w ∧ head q = Z.of_nat <$> i.
Proof.
  intros Hf Hp. destruct i as [i|]; cbn in Hp.
  - destruct Hp as [Hi [[n m] Hn]]. destruct (Hf i n m Hn) as (q & w & Hq & Hw).
    exists (Z.of_nat i :: q), w. split_and!; [by constructor; [apply index_nibble|]| |done].
    cbn. rewrite Nat2Z.id, Hn. done.
  - exists [], v. split_and!; [constructor|by apply value_of_Some|done].
Qed.

Lemma Rep_nonempty s n m : Rep s n m → ∃ q w, nibbles q ∧ m q = Some w.
Proof.
  induction 1 as [k v m Hk Hne Hb Hm|p cs v m' m Hp Hne _ Hr IH Hm|f v m _ Hf IH Hb (i & j & _ & Hi & _) Hm].
  - exists k, v. split; [done|]. rewrite Hm by done. unfold single, upd. by rewrite decide_True.
  - destruct IH as (q & w & Hq & Hw). exists (p ++ q), w.
    assert (nibbles (p ++ q)) by (by apply nibbles_app). rewrite Hm by done. by rewrite under_app.
  - destruct (part_key s f v i IH Hi) as (q & w & Hq & Hw & _). exists q, w.
    split; [done|]. by rewrite Hm.
Qed.

(** Two keys of [m] that differ in their first nibble. *)
Definition parts_at_once (m : Map) : Prop :=
  ∃ q1 q2, nibbles q1 ∧ nibbles q2 ∧ head q1 ≠ head q2 ∧ is_Some (m q1) ∧ is_Some (m q2).

Lemma Rep_branch_parts s cs v m : Rep s (Branch cs v) m → parts_at_once m.
Proof.
  inversion 1 as [| |f ? ? Hk Hf Hb (i & j & Hij & Hi & Hj) Hm]; subst.
  assert (∀ i n m, f i = Some (n, m) → ∃ q w, nibbles q ∧ m q = Some w) as Hne.
  { intros. eapply Rep_nonempty, Hf. done. }
  destruct (part_key s f v i Hne Hi) as (q1 & w1 & ? & Hw1 & Hh1).
  destruct (part_key s f v j Hne Hj) as (q2 & w2 & ? & Hw2 & Hh2).
  exists q1, q2. rewrite !Hm, Hw1, Hw2, Hh1, Hh2 by done. split_and!; eauto.
  intros He. apply Hij. destruct i, j; naive_solver lia.
Qed.

Lemma not_parts_under x p m : ¬ parts_at_once (under (x :: p) m).
Proof.
  intros (q1 & q2 & _ & _ & Hh & [w1 H1'] & [w2 H2']).
  apply under_Some in H1' as (r1 & -> & _), H2' as (r2 & -> & _). done.
Qed.

Lemma not_parts_single k v : ¬ parts_at_once (single k v).
Proof.
  intros (q1 & q2 & _ & _ & Hh & [w1 H1'] & [w2 H2']). unfold single, upd in *.
  repeat case_decide; naive_solver.
Qed.

#[export] Instance parts_proper : Proper (meq ==> iff) parts_at_once.
Proof.
  assert (∀ m1 m2, meq m1 m2 → parts_at_once m1 → parts_at_once m2) as Hi.
  { intros m1 m2 He (q1 & q2 & ? & ? & ? & ? & ?). exists q1, q2. by rewrite <-!He. }
  intros m1 m2 He. split; apply Hi; [done|by symmetry].
Qed.

(** ** The map determines the node *)

(** Two prefixes of maps that part at once are equal. *)
Lemma under_prefix_unique p1 p2 m1 m2 :
  nibbles p1 → nibbles p2 → parts_at_once m1 → parts_at_once m2 →
  meq (under p1 m1) (under p2 m2) → p1 = p2 ∧ meq m1 m2.
Proof.
  revert p2. induction p1 as [|x p1 IH]; intros p2 Hp1 Hp2 Hm1 Hm2 He.
  - destruct p2 as [|y p2].
    + split; [done|]. intros q Hq. specialize (He q Hq). by rewrite !under_nil in He.
    + exfalso. apply (not_parts_under y p2 m2). rewrite <-He.
      assert (meq (under [] m1) m1) as -> by (intros q _; apply under_nil). done.
  - destruct p2 as [|y p2].
    + exfalso. apply (not_parts_under x p1 m1). rewrite He.
      assert (meq (under [] m2) m2) as -> by (intros q _; apply under_nil). done.
    + inversion Hp1 as [|? ? Hx Hp1']; inversion Hp2 as [|? ? Hy Hp2']; subst.
      assert (y = x) as ->.
      { destruct Hm1 as (q1 & _ & Hq1 & _ & _ & [w Hw] & _).
        assert (nibbles ((x :: p1) ++ q1)) as Hn by (by apply nibbles_app).
        specialize (He _ Hn). rewrite under_app, Hw in He. symmetry in He.
        apply under_Some in He as (r & [= ? _] & _). done. }
      destruct (IH p2) as [-> Hm]; [done..| |done]. intros q Hq.
      assert (nibbles (x :: q)) as Hn by (by constructor). specialize (He _ Hn).
      unfold under in *. cbn in He. by rewrite Z.eqb_refl in He.
Qed.

Lemma under_parts_single p m k v : parts_at_once m → nibbles p → ¬ meq (under p m) (single k v).
Proof.
  intros (q1 & q2 & Hq1 & Hq2 & Hh & [w1 Hw1] & [w2 Hw2]) Hp He.
  pose proof (He (p ++ q1)) as He1. pose proof (He (p ++ q2)) as He2.
  rewrite under_app, Hw1 in He1. rewrite under_app, Hw2 in He2. unfold single, upd in *.
  assert (nibbles (p ++ q1) ∧ nibbles (p ++ q2)) as [Hn1 Hn2] by (rewrite !nibbles_app; done).
  specialize (He1 Hn1). specialize (He2 Hn2). repeat case_decide; simplify_eq.
Qed.

End Representation.

(** ** Uniqueness across states *)

Section Unique.
Context {D1 D2 : Type} `{TrieDB D1, TrieDB D2} `{CryptoLaws}.

Lemma slots_unique (s1 : TrieState D1) (s2 : TrieState D2) f1 f2 :
  (∀ i n1 m1 n2 m2, f1 i = Some (n1, m1) → f2 i = Some (n2, m2) → meq m1 m2 → n1 = n2) →
  (∀ i n m, f1 i = Some (n, m) → Rep s1 n m) →
  (∀ i n m, f2 i = Some (n, m) → Rep s2 n m) →
  (∀ i, (i < 16)%nat → ∀ q, nibbles q →
     (f1 i ≫= λ '(_, m), m q) = (f2 i ≫= λ '(_, m), m q)) →
  choices_of f1 = choices_of f2.
Proof.
  intros IH Hf1 Hf2 He. unfold choices_of. apply list_fmap_ext. intros j i Hi.
  apply lookup_seq in Hi as [-> Hi]. specialize (He j Hi). cbn [Nat.add].
  destruct (f1 j) as [[n1 m1]|] eqn:E1, (f2 j) as [[n2 m2]|] eqn:E2; cbn in *.
  - f_equal. by eapply IH.
  - destruct (Rep_nonempty s1 n1 m1) as (q & w & Hq & Hw); [by eapply Hf1|].
    specialize (He q Hq). congruence.
  - destruct (Rep_nonempty s2 n2 m2) as (q & w & Hq & Hw); [by eapply Hf2|].
    specialize (He q Hq). congruence.
  - done.
Qed.

Lemma Rep_unique (s1 : TrieState D1) (s2 : TrieState D2) n1 n2 m : Rep s1 n1 m → Rep s2 n2 m → n1 = n2.
Proof.
  intros Hr1. revert n2.
  induction Hr1 as [k v m Hk Hne Hb Hm|p cs v m' m Hp Hne _ Hr IH Hm|f v m Hkn Hf IH Hb Ht Hm];
    intros n2 Hr2.
  - inversion Hr2 as [k2 v2 ? ? ? ? Hm2|p2 cs2 v2 m2' ? Hp2 ? ? Hr2' Hm2|f2 v2]; subst.
    + assert (single k v k = single k2 v2 k) as He by (rewrite <-Hm, <-Hm2; done).
      unfold single, upd in He. rewrite decide_True in He by done. case_decide; naive_solver.
    + exfalso. apply (under_parts_single p2 m2' k v); [by eapply Rep_branch_parts|done|].
      by rewrite <-Hm2.
    + exfalso. apply Rep_branch_parts in Hr2. rewrite Hm in Hr2. by apply not_parts_single in Hr2.
  - apply Rep_branch_parts in Hr as Hparts.
    inversion Hr2 as [k2 v2 ? ? ? ? Hm2|p2 cs2 v2 m2' ? Hp2 ? ? Hr2' Hm2|f2 v2]; subst.
    + exfalso. apply (under_parts_single p m' k2 v2); [done..|]. by rewrite <-Hm.
    + destruct (under_prefix_unique p p2 m' m2') as [-> Hmm]; [done..| |by etrans; [symmetry|]|].
      { by eapply Rep_branch_parts. }
      rewrite (IH (Branch cs2 v2)); [done|]. by eapply Rep_meq.
    + exfalso. apply Rep_branch_parts in Hr2. rewrite Hm in Hr2. destruct p; [done|].
      by apply not_parts_under in Hr2.
  - assert (parts_at_once m) as Hparts.
    { eapply (Rep_branch_parts s1). by apply Rep_branch. }
    inversion Hr2 as [k2 v2 ? ? ? ? Hm2|p2 cs2 v2 m2' ? Hp2 ? ? Hr2' Hm2|f2 v2 ? Hkn2 Hf2 ? ? Hm2]; subst.
    + exfalso. rewrite Hm2 in Hparts. by apply not_parts_single in Hparts.
    + exfalso. rewrite Hm2 in Hparts. destruct p2; [done|]. by apply not_parts_under in Hparts.
    + assert (∀ q, nibbles q → branch_map f v q = branch_map f2 v2 q) as He.
      { intros q Hq. by rewrite <-Hm, <-Hm2. }
      f_equal.
      * apply (slots_unique s1 s2); [|done|done|].
        { intros i n m1 n' m2 E1 E2 Hmm. apply (IH i n m1 E1). eapply Rep_meq; [|done]. eauto. }
        intros i Hi q Hq. specialize (He (Z.of_nat i :: q)). cbn in He. rewrite Nat2Z.id in He.
        apply He. constructor; [by apply index_nibble|done].
      * specialize (He [] (Forall_nil_2 _)). cbn in He. clear -He. unfold value_of in He.
        destruct v, v2; simpl in He; congruence.
Qed.

End Unique.
