(* ===== verification/TrieOps.v ===== *)
(** * Trie: the operations of nodes compute the operations of maps

    [node_get], [node_insert] and [node_remove] on a represented map
    ([TrieMap.Rep]): the fuel they need, the value they return, and the map the
    new node represents in the state they leave. *)

From stdpp Require Import base option list numbers strings gmap.
From S2P Require Import Prelude Rlp RlpProofs LevmHost TrieNode TrieCodec Trie TrieLogic TrieMap.

Local Open Scope Z_scope.

Section Operations.
Context {D : Type} `{TrieDB D} `{CryptoLaws}.

Implicit Types (s : TrieState D) (n : Node) (h : NodeHash).

(** ** get *)

Lemma skip_prefix_flag k p :
  nibbles p →
  Nibbles.skip_prefix (k ++ [16]) p = (λ r, r ++ [16]) <$> Nibbles.skip_prefix k p.
Proof.
  intros Hp. revert k. induction Hp as [|x p Hx Hp IH]; intros k; [by destruct k|].
  destruct k as [|y k]; cbn [app Nibbles.skip_prefix].
  - unfold nibble in Hx. by decide_tests.
  - destruct (y =? x); [apply IH|done].
Qed.

Lemma app_flag_inj (k k' : list Z) : k ++ [16] = k' ++ [16] → k = k'.
Proof. apply app_inv_tail. Qed.

Lemma slot_cases s f i :
  slots_ok s f →
  (∃ n m, f i = Some (n, m) ∧ is_valid (slot_hash (f i)) = true ∧
     slot_hash (f i) = compute_hash n ∧ knows s (slot_hash (f i)) n ∧ Rep s n m) ∨
  (f i = None ∧ is_valid (slot_hash (f i)) = false).
Proof.
  intros Hf. pose proof (slot_valid s f i) as Hv.
  destruct (f i) as [[n m]|] eqn:E; [left|right; done].
  exists n, m. destruct (Hf i n m E) as [Hk Hr]. split_and!; try done. by eapply Hv.
Qed.

Lemma node_get_Rep s n m k fuel :
  collision_free s → Rep s n m → nibbles k → (length k < fuel)%nat →
  node_get fuel s n (k ++ [16]) = Ok (m k).
Proof.
  intros Hc Hr. revert k fuel.
  induction Hr as [k0 v m Hk0 Hne Hb Hm|p cs v m' m Hp Hne Hkn Hr IH Hm|f v m Hkn Hf IH Hb Ht Hm];
    intros k [|fuel] Hk Hfuel; try lia; cbn [node_get]; rewrite Hm by done.
  - unfold leaf_get, single, upd. destruct (decide (k = k0)) as [->|Hkk].
    + by rewrite decide_True.
    + rewrite decide_False; [done|]. intros He. apply Hkk. by apply app_flag_inj in He.
  - unfold extension_get, under. rewrite skip_prefix_flag by done.
    destruct (Nibbles.skip_prefix k p) as [r|] eqn:E; [|done]. cbn.
    rewrite (require_node_knows s _ (Branch cs v)) by done. cbn [mbind outcome_bind].
    apply skip_prefix_Some in E as ->. apply nibbles_app in Hk as [_ Hr'].
    apply IH; [done|]. rewrite length_app in Hfuel. destruct p; [done|]. cbn in Hfuel. lia.
  - unfold branch_get. destruct k as [|x k]; cbn [app].
    + cbn. unfold value_of. by destruct v.
    + inversion Hk as [|? ? Hx Hk']; subst. rewrite next_choice_nibble by done.
      apply nibble_index in Hx as [Hx _]. rewrite choice_at_slots by done.
      cbn [mbind outcome_bind option_bind branch_map].
      destruct (slot_cases s f (Z.to_nat x)) as [(n & m' & Hi & -> & _ & Hkn' & _)|[Hi ->]].
      { intros i n' m'' Hi. split; [by eapply Hkn|by eapply Hf]. }
      * rewrite (require_node_knows s _ n) by done. rewrite Hi. cbn [mbind outcome_bind].
        eapply IH; [done..|]. cbn in Hfuel. lia.
      * by rewrite Hi.
Qed.

(** ** The operations only extend the state *)

Lemma grows_leaf_insert partial v0 path v : grows (D := D) (leaf_insert partial v0 path v).
Proof. unfold leaf_insert. grow. Qed.

Lemma grows_extension_insert rec p c path v :
  (∀ n path v, grows (D := D) (rec n path v)) → grows (extension_insert rec p c path v).
Proof. intros Hr. unfold extension_insert. grow. Qed.

Lemma grows_branch_insert rec cs v0 path v :
  (∀ n path v, grows (D := D) (rec n path v)) → grows (branch_insert rec cs v0 path v).
Proof. intros Hr. unfold branch_insert. grow. Qed.

Lemma grows_node_insert fuel n path v : grows (D := D) (node_insert fuel n path v).
Proof.
  revert n path v. induction fuel as [|fuel IH]; intros n path v; cbn; [apply grows_lift|].
  destruct n; auto using grows_leaf_insert, grows_extension_insert, grows_branch_insert.
Qed.

Lemma grows_extension_remove rec p c path :
  (∀ n path, grows (D := D) (rec n path)) → grows (extension_remove rec p c path).
Proof. intros Hr. unfold extension_remove. grow. Qed.

Lemma grows_branch_restructure cs v : grows (D := D) (branch_restructure cs v).
Proof. unfold branch_restructure. grow. Qed.

Lemma grows_branch_remove_value rec cs v path :
  (∀ n path, grows (D := D) (rec n path)) → grows (branch_remove_value rec cs v path).
Proof. intros Hr. unfold branch_remove_value. grow. Qed.

Lemma grows_branch_remove rec cs v path :
  (∀ n path, grows (D := D) (rec n path)) → grows (branch_remove rec cs v path).
Proof.
  intros Hr. unfold branch_remove. apply grows_bind; [by apply grows_branch_remove_value|].
  intros [[cs' v'] old]. apply grows_bind; [apply grows_branch_restructure|]. grow.
Qed.

Lemma grows_node_remove fuel n path : grows (D := D) (node_remove fuel n path).
Proof.
  revert n path. induction fuel as [|fuel IH]; intros n path; cbn; [apply grows_lift|].
  destruct n; auto using grows_lift, grows_extension_remove, grows_branch_remove.
Qed.

(** ** insert *)

(** The values a trie stores. *)
Definition good_value (v : list Z) : Prop := v ≠ [] ∧ bytes v.

Lemma Rep_single_leaf s k v : nibbles k → good_value v → Rep s (Leaf (k ++ [16]) v) (single k v).
Proof. intros Hk [Hne Hb]. by apply Rep_leaf. Qed.

Lemma leaf_ok k v : nibbles k → good_value v → node_ok (Leaf (k ++ [16]) v).
Proof. intros Hk [_ Hb]. split; [by exists k|done]. Qed.

(** What the insertion of [v] at [k] does to a branch. *)
Definition branch_inserted s f v0 k v n' s' : Prop :=
  ∃ f' v', n' = Branch (choices_of f') v' ∧ extends s s' ∧ slots_ok s' f' ∧ bytes v' ∧
    meq (branch_map f' v') (upd (branch_map f v0) k (Some v)) ∧
    (∀ i, part f v0 i → part f' v' i) ∧ part f' v' (Z.to_nat <$> head k).

Lemma upd_branch_value f v0 v :
  good_value v → meq (branch_map f v) (upd (branch_map f v0) [] (Some v)).
Proof.
  intros [Hne _] [|x q] Hq; unfold upd; cbn; [|done]. by rewrite value_of_Some.
Qed.

Lemma upd_branch_slot f v0 x k o n' m' :
  nibble x → meq m' (upd (default (λ _, None) (snd <$> f (Z.to_nat x))) k o) →
  meq (branch_map (set_slot f (Z.to_nat x) (Some (n', m'))) v0)
      (upd (branch_map f v0) (x :: k) o).
Proof.
  intros Hx Hm q Hq. rewrite branch_map_set by done. unfold upd.
  destruct q as [|y q]; [done|]. inversion Hq as [|? ? Hy Hq']; subst.
  case_decide as E; [subst|].
  - cbn. rewrite Hm by done. unfold upd. case_decide; [subst; by rewrite decide_True|].
    rewrite decide_False by naive_solver. by destruct (f _) as [[]|].
  - rewrite decide_False by naive_solver. done.
Qed.

Lemma branch_insert_wp rec s f v0 k v :
  (∀ n path v, grows (rec n path v)) →
  (∀ s n m x k', k = x :: k' → Rep s n m →
     wp (rec n (k' ++ [16]) v) s (λ n' s', Rep s' n' (upd m k' (Some v)))) →
  slots_ok s f → bytes v0 → nibbles k → good_value v →
  wp (branch_insert rec (choices_of f) v0 (k ++ [16]) v) s (branch_inserted s f v0 k v).
Proof.
  intros Hg IH Hf Hb0 Hk Hv. unfold branch_insert. destruct k as [|x k]; cbn [app].
  { cbn. apply wp_ret. exists f, v. split_and!; try done; [by destruct Hv|by apply upd_branch_value| |by destruct Hv].
    intros [i|] Hi; [done|]. by destruct Hv. }
  inversion Hk as [|? ? Hx Hk']; subst. rewrite next_choice_nibble by done.
  destruct (nibble_index x Hx) as [Hi _]. set (i := Z.to_nat x) in *.
  assert (Hdone : ∀ n' m' s', extends s s' → knows s' (compute_hash n') n' → Rep s' n' m' →
    meq m' (upd (default (λ _, None) (snd <$> f i)) k (Some v)) →
    wp (choices ← liftT (set_choice (choices_of f) i (compute_hash n')); mret (Branch choices v0))
      s' (branch_inserted s f v0 (x :: k) v)).
  { intros n' m' s' He Hkn Hr Hm. wp_step.
    eapply wp_lift; [by apply (set_choice_slots f i (Some (n', m')))|]. apply wp_ret.
    exists (set_slot f i (Some (n', m'))), v0. split_and!; try done.
    - apply slots_ok_set; [by eapply slots_ok_extends|done..].
    - by apply upd_branch_slot.
    - intros j. apply part_mono.
    - cbn. fold i. split; [done|]. unfold set_slot. rewrite decide_True by done. eauto. }
  wp_step. eapply wp_lift; [by apply choice_at_slots|]. wp_step.
  destruct (slot_cases s f i Hf) as [(n & m & Hn & -> & _ & Hkn & Hr)|[Hn ->]]; cbn [negb].
  - wp_step. apply wp_reads. intros Hc. exists n. split; [by apply require_node_knows|].
    wp_step. eapply wp_mono; [by eapply IH| |done]. intros n' s1 He1 Hr1. cbn beta in Hr1.
    apply wp_insert_self; [by eapply Rep_node_ok|]. intros s2 He2 Hk2.
    eapply Hdone; [by etrans|done|by eapply Rep_extends|]. by rewrite Hn.
  - apply wp_insert_self; [by apply leaf_ok|]. intros s1 He1 Hk1.
    eapply Hdone; [done|done|by apply Rep_single_leaf|]. by rewrite Hn.
Qed.

Lemma branch_inserted_Rep s f v0 k v n' s' :
  branch_inserted s f v0 k v n' s' →
  two_parts f v0 ∨ (∃ i, part f v0 i ∧ i ≠ Z.to_nat <$> head k) →
  Rep s' n' (upd (branch_map f v0) k (Some v)).
Proof.
  intros (f' & v' & -> & _ & Hf' & Hb' & Hm & Hmono & Hpart) Ht.
  apply Rep_slots; [done|done| |by symmetry].
  destruct Ht as [(i & j & Hij & Hi & Hj)|(i & Hi & Hne)].
  - exists i, j. auto.
  - exists i, (Z.to_nat <$> head k). auto.
Qed.

(** The keys of two paths, apart from their common prefix. *)
Lemma split_keys k k0 :
  nibbles k → nibbles k0 → k ≠ k0 →
  ∃ p a b, k = p ++ a ∧ k0 = p ++ b ∧ head a ≠ head b ∧
    Nibbles.count_prefix (k ++ [16]) (k0 ++ [16]) = length p.
Proof.
  intros Hk. revert k0. induction Hk as [|x k Hx Hk IH]; intros k0 Hk0 Hne.
  - destruct Hk0 as [|y k0 Hy]; [done|]. exists [], [], (y :: k0). unfold nibble in Hy.
    cbn [app Nibbles.count_prefix]. by decide_tests.
  - destruct Hk0 as [|y k0 Hy Hk0].
    { exists [], (x :: k), []. unfold nibble in Hx. cbn [app Nibbles.count_prefix]. by decide_tests. }
    cbn [app Nibbles.count_prefix]. destruct (x =? y) eqn:E; propify.
    + subst. destruct (IH k0) as (p & a & b & -> & -> & Hh & Hc); [done|congruence|].
      exists (y :: p), a, b. by rewrite Hc.
    + exists [], (x :: k), (y :: k0). split_and!; try done. by intros [= ?].
Qed.

Lemma Rep_under_wp s p r cs v m :
  nibbles p → Rep s (Branch cs v) m →
  wp (if (length p =? 0)%nat then mret (Branch cs v)
      else prefix ← liftT (Nibbles.slice (p ++ r) 0 (length p));
           child ← insert_self (Branch cs v);
           mret (Extension prefix child)) s
    (λ n' s', Rep s' n' (under p m)).
Proof.
  intros Hp Hr. destruct p as [|x p]; cbn [length Nat.eqb].
  - apply wp_ret. eapply Rep_meq; [done|]. intros q _. apply under_nil.
  - wp_step. eapply wp_lift; [apply (slice_app (x :: p))|]. wp_step.
    apply wp_insert_self; [by eapply Rep_node_ok|]. intros s' He Hk. apply wp_ret.
    eapply Rep_extension; [done..|by eapply Rep_extends|done].
Qed.

(** The branch of two leaves, or of a leaf and a value. *)
Lemma fork_map (f : Slots) v0 x k n m v :
  nibble x → f (Z.to_nat x) = None → meq m (single k v) →
  meq (branch_map (set_slot f (Z.to_nat x) (Some (n, m))) v0)
      (upd (branch_map f v0) (x :: k) (Some v)).
Proof. intros Hx Hf Hm. apply upd_branch_slot; [done|]. by rewrite Hf. Qed.

Lemma single_nil v : good_value v → meq (branch_map no_slots v) (single [] v).
Proof. intros [Hne _] [|x q] _; [by apply value_of_Some|done]. Qed.

Lemma branch_map_empty : meq (branch_map no_slots []) (λ _, None).
Proof. by intros [|x q] _. Qed.

Lemma upd_upd m k1 k2 o1 o2 : k1 ≠ k2 → meq (upd (upd m k1 o1) k2 o2) (upd (upd m k2 o2) k1 o1).
Proof. intros Hne q _. unfold upd. repeat case_decide; congruence. Qed.

Lemma head_index_ne x y : nibble x → nibble y → Some x ≠ Some y → Z.to_nat x ≠ Z.to_nat y.
Proof. unfold nibble. intros ? ? Hne He. apply Hne. f_equal. lia. Qed.

Lemma leaf_beside_value s x k v v0 :
  nibble x → nibbles k → good_value v → good_value v0 →
  wp (new_leaf ← insert_self (Leaf (k ++ [16]) v);
      choices ← liftT (set_choice EMPTY_CHOICES (Z.to_nat x) new_leaf);
      mret (Branch choices v0)) s
    (λ br s', ∃ cs v', br = Branch cs v' ∧ Rep s' br (upd (single [] v0) (x :: k) (Some v))).
Proof.
  intros Hx Hk Hv Hv0. destruct (nibble_index x Hx) as [Hi _]. wp_step.
  apply wp_insert_self; [by apply leaf_ok|]. intros s1 He Hkn. wp_step.
  rewrite choices_of_no_slots.
  eapply wp_lift; [by apply (set_choice_slots _ _ (Some (Leaf (k ++ [16]) v, single k v)))|].
  apply wp_ret. do 2 eexists. split; [done|]. apply Rep_slots.
  - apply slots_ok_set; [apply no_slots_ok|done|by apply Rep_single_leaf].
  - by destruct Hv0.
  - exists None, (Some (Z.to_nat x)). split; [done|]. split; [by destruct Hv0|].
    split; [done|]. unfold set_slot. rewrite decide_True by done. eauto.
  - rewrite fork_map by done. by rewrite single_nil.
Qed.

Lemma leaf_beside_leaf s x k v y k0 v0 :
  nibble x → nibble y → x ≠ y → nibbles k → nibbles k0 → good_value v → good_value v0 →
  wp (new_leaf ← insert_self (Leaf (k ++ [16]) v);
      choices ← liftT (set_choice EMPTY_CHOICES (Z.to_nat x) new_leaf);
      self ← insert_self (Leaf (k0 ++ [16]) v0);
      choices ← liftT (set_choice choices (Z.to_nat y) self);
      mret (Branch choices [])) s
    (λ br s', ∃ cs v', br = Branch cs v' ∧ Rep s' br (upd (single (y :: k0) v0) (x :: k) (Some v))).
Proof.
  intros Hx Hy Hxy Hk Hk0 Hv Hv0. destruct (nibble_index x Hx) as [Hi _], (nibble_index y Hy) as [Hj _].
  wp_step. apply wp_insert_self; [by apply leaf_ok|]. intros s1 He1 Hk1. wp_step.
  rewrite choices_of_no_slots.
  eapply wp_lift; [by apply (set_choice_slots _ _ (Some (Leaf (k ++ [16]) v, single k v)))|].
  wp_step. apply wp_insert_self; [by apply leaf_ok|]. intros s2 He2 Hk2. wp_step.
  eapply wp_lift; [by apply (set_choice_slots _ _ (Some (Leaf (k0 ++ [16]) v0, single k0 v0)))|].
  assert (Z.to_nat x ≠ Z.to_nat y) as Hne by (unfold nibble in *; lia).
  apply wp_ret. do 2 eexists. split; [done|]. apply Rep_slots.
  - repeat apply slots_ok_set; try apply no_slots_ok; try done; try by apply Rep_single_leaf.
    by eapply knows_extends.
  - constructor.
  - exists (Some (Z.to_nat x)), (Some (Z.to_nat y)). cbn. unfold set_slot.
    rewrite (decide_False (P := Z.to_nat x = Z.to_nat y)), !decide_True by done. naive_solver.
  - rewrite fork_map; [|done|unfold set_slot; by rewrite decide_False|done].
    rewrite fork_map by done. rewrite branch_map_empty. apply upd_upd. congruence.
Qed.

Lemma leaf_insert_wp s k0 v0 k v :
  nibbles k0 → good_value v0 → nibbles k → good_value v →
  wp (leaf_insert (k0 ++ [16]) v0 (k ++ [16]) v) s
    (λ n' s', Rep s' n' (upd (single k0 v0) k (Some v))).
Proof.
  intros Hk0 Hv0 Hk Hv. unfold leaf_insert. case_decide as E.
  { apply app_flag_inj in E as ->. apply wp_ret. apply Rep_leaf; [done|by destruct Hv..|].
    intros q _. unfold single, upd. by case_decide. }
  destruct (split_keys k k0) as (p & a & b & -> & -> & Hh & ->); [done..|congruence|].
  apply nibbles_app in Hk as [Hp Ha], Hk0 as [_ Hb]. rewrite <-!app_assoc.
  assert (∀ l, ∃ x r, l ++ [16] = x :: r) as Hcons by (intros []; cbn; eauto).
  destruct (Hcons a) as (xa & ra & Ea), (Hcons b) as (xb & rb & Eb). rewrite Ea, Eb.
  wp_step. eapply wp_lift; [apply at_app|]. wp_step. eapply wp_lift; [apply at_app|].
  wp_step. eapply wp_lift; [apply offset_cons_app|]. wp_step.
  eapply (wp_mono _ _ (λ br s', ∃ cs v', br = Branch cs v' ∧ Rep s' br (upd (single b v0) a (Some v))));
    [|intros br s' _ (cs & v' & -> & Hr)|solve [grow]].
  - destruct b as [|y b], a as [|x a]; cbn in Ea, Eb; simplify_eq;
      repeat match goal with H : nibbles (_ :: _) |- _ => apply Forall_cons in H as [? H] end;
      change (Z.to_nat 16) with 16%nat; cbn [Nat.eqb];
      rewrite ?(proj2 (Nat.eqb_neq (Z.to_nat xa) 16)), ?(proj2 (Nat.eqb_neq (Z.to_nat xb) 16))
        by (unfold nibble in *; lia).
    + wp_step. eapply wp_lift; [apply offset_cons_app|]. by apply leaf_beside_value.
    + eapply wp_mono; [by apply leaf_beside_value| |solve [grow]].
      intros br s' _ (cs & v' & -> & Hr). do 2 eexists. split; [done|].
      eapply Rep_meq; [exact Hr|]. by apply upd_upd.
    + wp_step. eapply wp_lift; [apply offset_cons_app|]. apply leaf_beside_leaf; naive_solver.
  - eapply wp_mono; [by apply Rep_under_wp| |solve [grow]]. intros n' s2 _ Hr2.
    eapply Rep_meq; [exact Hr2|]. rewrite <-under_single. apply under_upd.
Qed.

Lemma Rep_parts_branch s n m :
  Rep s n m → parts_at_once m → ∃ cs v, n = Branch cs v.
Proof.
  intros Hr Hp. destruct Hr as [k v m ? ? ? Hm|p cs v m' m ? ? ? ? Hm|]; [| |eauto];
    exfalso; rewrite Hm in Hp.
  - by apply not_parts_single in Hp.
  - destruct p; [done|]. by apply not_parts_under in Hp.
Qed.

Lemma parts_upd m k v : parts_at_once m → parts_at_once (upd m k (Some v)).
Proof.
  intros (q1 & q2 & ? & ? & ? & ? & ?). exists q1, q2.
  split_and!; try done; unfold upd; case_decide; eauto.
Qed.

(** An extension leads to a branch. *)
Lemma Rep_extend_wp s n m p :
  Rep s n m → parts_at_once m → nibbles p → p ≠ [] →
  wp (child ← insert_self n; mret (Extension p child)) s
    (λ n' s', Rep s' n' (under p m)).
Proof.
  intros Hr Hparts Hp Hne. destruct (Rep_parts_branch s n m Hr Hparts) as (cs & v & ->).
  wp_step. apply wp_insert_self; [by eapply Rep_node_ok|]. intros s' He Hk. apply wp_ret.
  eapply Rep_extension; [done..|by eapply Rep_extends|done].
Qed.

(** A key and a prefix, apart from what they share. *)
Lemma split_prefix k p :
  nibbles p →
  ∃ c a b, k = c ++ a ∧ p = c ++ b ∧ (b ≠ [] → head a ≠ head b) ∧
    Nibbles.count_prefix (k ++ [16]) p = length c.
Proof.
  intros Hp. revert k. induction Hp as [|x p Hx Hp IH]; intros k.
  { exists [], k, []. split_and!; try done. by destruct k. }
  destruct k as [|y k]; cbn [app Nibbles.count_prefix].
  - exists [], [], (x :: p). unfold nibble in Hx. by decide_tests.
  - destruct (y =? x) eqn:E; propify.
    + subst. destruct (IH k) as (c & a & b & -> & -> & Hh & Hc).
      exists (x :: c), a, b. by rewrite Hc.
    + exists [], (y :: k), (x :: p). split_and!; try done. intros _ [= ?]. done.
Qed.

Definition need n (l : nat) : nat :=
  match n with Branch _ _ => 2 * l + 1 | Extension _ _ => 2 * l + 2 | Leaf _ _ => 1 end.

Lemma need_bound n l : (need n l ≤ 2 * l + 2)%nat.
Proof. destruct n; cbn; lia. Qed.

Definition inserts (rec : Node → Nibbles → list Z → TM D Node) (fuel : nat) : Prop :=
  ∀ s n m k v, Rep s n m → nibbles k → good_value v → (need n (length k) ≤ fuel)%nat →
    wp (rec n (k ++ [16]) v) s (λ n' s', Rep s' n' (upd m k (Some v))).

(** The first nibble of the prefix becomes a choice of a new branch. *)
Lemma prefix_choice s p cs v m' :
  nibbles p → p ≠ [] → knows s (compute_hash (Branch cs v)) (Branch cs v) →
  Rep s (Branch cs v) m' →
  wp (if (length p =? 1)%nat then mret (compute_hash (Branch cs v))
      else rest ← liftT (Nibbles.offset p 1);
           insert_self (Extension rest (compute_hash (Branch cs v)))) s
    (λ h s', ∃ n m, extends s s' ∧ h = compute_hash n ∧ knows s' h n ∧ Rep s' n m ∧
       meq (branch_map (set_slot no_slots (Z.to_nat (default 0 (head p))) (Some (n, m))) [])
           (under p m')).
Proof.
  intros Hp Hne Hk Hr. destruct p as [|x p]; [done|]. inversion Hp as [|? ? Hx Hp']; subst.
  assert (Hmap : ∀ n m, meq m (under p m') →
    meq (branch_map (set_slot no_slots (Z.to_nat x) (Some (n, m))) []) (under (x :: p) m')).
  { intros n m Hm q Hq. rewrite branch_map_set by done. destruct q as [|y q]; [done|].
    inversion Hq as [|? ? Hy Hq']; subst. unfold under at 1. cbn [Nibbles.skip_prefix].
    case_decide as E; [subst; rewrite Z.eqb_refl; cbn; by apply Hm|].
    by rewrite (proj2 (Z.eqb_neq _ _) E). }
  destruct p as [|y p]; cbn [length Nat.eqb head default].
  - apply wp_ret. exists (Branch cs v), m'. split_and!; try done. apply Hmap.
    intros q _. by rewrite under_nil.
  - wp_step. eapply wp_lift; [apply (offset_app [x])|].
    assert (Rep s (Extension (y :: p) (compute_hash (Branch cs v))) (under (y :: p) m')) as He.
    { by eapply Rep_extension. }
    apply wp_insert_self; [by eapply Rep_node_ok|]. intros s' Hs Hk'.
    eexists _, _. split_and!; [done|done|done|by eapply Rep_extends|]. by apply Hmap.
Qed.

Lemma branch_rec_wp fuel s f v0 k v :
  inserts (node_insert fuel) fuel → (2 * length k ≤ fuel)%nat →
  slots_ok s f → bytes v0 → nibbles k → good_value v →
  wp (branch_insert (node_insert fuel) (choices_of f) v0 (k ++ [16]) v) s
    (branch_inserted s f v0 k v).
Proof.
  intros IH Hfuel Hf Hb Hk Hv. apply branch_insert_wp; try done.
  - intros. apply grows_node_insert.
  - intros s' n m x k' -> Hr. apply Forall_cons in Hk as [_ Hk]. apply IH; try done.
    pose proof (need_bound n (length k')). cbn in Hfuel. lia.
Qed.

Lemma extension_insert_wp fuel s p cs v0 m' k v :
  inserts (node_insert fuel) fuel → (∀ g, fuel = S g → inserts (node_insert g) g) →
  nibbles p → p ≠ [] → knows s (compute_hash (Branch cs v0)) (Branch cs v0) →
  Rep s (Branch cs v0) m' → nibbles k → good_value v → (2 * length k + 1 ≤ fuel)%nat →
  wp (extension_insert (node_insert fuel) p (compute_hash (Branch cs v0)) (k ++ [16]) v) s
    (λ n' s', Rep s' n' (upd (under p m') k (Some v))).
Proof.
  intros IH IH2 Hp Hne Hkn Hr Hk Hv Hfuel. pose proof (Rep_branch_parts _ _ _ _ Hr) as Hparts.
  assert (∀ n path v, grows (D := D) (node_insert fuel n path v)) as Hg by (intros; apply grows_node_insert).
  unfold extension_insert.
  destruct (split_prefix k p Hp) as (c & a & b & -> & -> & Hh & ->).
  apply nibbles_app in Hk as [Hc Ha], Hp as [_ Hb]. rewrite <-!app_assoc.
  rewrite !length_app in *. destruct b as [|x b].
  - rewrite app_nil_r in *. cbn [length]. rewrite Nat.add_0_r, Nat.eqb_refl.
    wp_step. apply wp_reads. intros Hcf. exists (Branch cs v0). split; [by apply require_node_knows|].
    wp_step. eapply wp_lift; [apply offset_app|]. wp_step.
    eapply wp_mono; [apply IH; [exact Hr|done|done|]| |done].
    { destruct c; [done|]. cbn in Hfuel |- *. lia. }
    intros n' s1 He1 Hr1. cbn beta in Hr1.
    eapply wp_mono; [apply Rep_extend_wp; [exact Hr1|by apply parts_upd|done|done]| |solve [grow]].
    intros n2 s2 _ Hr2. eapply Rep_meq; [exact Hr2|]. apply under_upd.
  - rewrite (proj2 (Nat.eqb_neq _ _)) by (cbn; lia).
    destruct c as [|y c]; cbn [length Nat.eqb app] in *.
    + wp_step. eapply wp_mono; [by apply (prefix_choice s (x :: b) cs v0 m')| |solve [grow]].
      intros h s1 _ (n & m & He & -> & Hk1 & Hr1 & Hm). cbn [head default] in Hm.
      apply Forall_cons in Hb as Hb'. destruct Hb' as [Hx _]. destruct (nibble_index x Hx) as [Hi _].
      wp_step. eapply wp_lift; [apply (at_app [])|].
      rewrite (proj2 (Nat.eqb_neq (Z.to_nat x) 16)) by lia. wp_step. wp_step.
      rewrite choices_of_no_slots.
      eapply wp_lift; [by apply (set_choice_slots _ _ (Some (n, m)))|]. apply wp_ret.
      destruct fuel as [|g]; [lia|]. cbn [node_insert].
      eapply wp_mono; [apply (branch_rec_wp g); try done; [by apply IH2|lia| |constructor]| |apply (grows_node_insert (S g) (Branch _ _))].
      { by apply slots_ok_set; [apply no_slots_ok|..]. }
      intros n' s2 _ Hins. eapply Rep_meq; [eapply branch_inserted_Rep; [exact Hins|]|by rewrite <-Hm].
      right. exists (Some (Z.to_nat x)). split.
      { split; [done|]. unfold set_slot. rewrite decide_True by done. eauto. }
      destruct a as [|z a]; [done|]. cbn. apply Forall_cons in Ha as [Hz _].
      specialize (Hh ltac:(done)). intros [= Hzx]. apply Hh. cbn. f_equal. unfold nibble in *. lia.
    + wp_step. eapply wp_lift; [apply (offset_app (y :: c))|].
      wp_step. eapply wp_lift; [apply (offset_app (y :: c))|].
      assert (Rep s (Extension (x :: b) (compute_hash (Branch cs v0))) (under (x :: b) m')) as Hre.
      { by eapply Rep_extension. }
      wp_step. eapply wp_mono; [apply IH; [exact Hre|done|done|cbn; lia]| |done].
      intros n' s1 _ Hr1. cbn beta in Hr1. wp_step.
      eapply wp_lift; [apply (slice_app (y :: c))|].
      eapply wp_mono; [apply Rep_extend_wp; [exact Hr1| |done|done]| |solve [grow]].
      * destruct Hparts as (q & _ & Hq & _ & _ & [w Hw] & _).
        exists a, ((x :: b) ++ q). split_and!; [done|by apply nibbles_app|by apply Hh| |].
        -- unfold upd. rewrite decide_True by done. eauto.
        -- unfold upd. rewrite decide_False.
           ++ rewrite under_app. eauto.
           ++ intros <-. by apply Hh.
      * intros n2 s2 _ Hr2. eapply Rep_meq; [exact Hr2|].
        change (y :: c ++ x :: b) with ((y :: c) ++ x :: b).
        change (y :: c ++ a) with ((y :: c) ++ a). rewrite <-under_under. apply under_upd.
Qed.

Lemma node_insert_wp fuel : inserts (node_insert fuel) fuel.
Proof.
  induction fuel as [fuel IH] using lt_wf_ind. intros s n m k v Hr Hk Hv Hfuel.
  destruct fuel as [|fuel]; [destruct n; cbn in Hfuel; lia|]. cbn [node_insert].
  assert (inserts (node_insert fuel) fuel) as IH1 by (apply IH; lia).
  destruct Hr as [k0 v0 m Hk0 Hne Hb Hm|p cs v0 m' m Hp Hne Hkn Hr Hm|f v0 m Hkn Hf Hb Ht Hm].
  - eapply wp_mono; [by apply leaf_insert_wp| |apply grows_leaf_insert].
    intros n' s' _ Hr. eapply Rep_meq; [exact Hr|]. by rewrite Hm.
  - eapply wp_mono; [apply (extension_insert_wp fuel); try done| |].
    + intros g ->. apply IH. lia.
    + cbn in Hfuel. lia.
    + intros n' s' _ Hr'. eapply Rep_meq; [exact Hr'|]. by rewrite Hm.
    + apply (grows_node_insert (S fuel) (Extension _ _)).
  - eapply wp_mono; [apply (branch_rec_wp fuel); try done| |].
    + cbn in Hfuel. lia.
    + intros i n m' Hi. split; [by eapply Hkn|by eapply Hf].
    + intros n' s' _ Hins. eapply Rep_meq; [eapply branch_inserted_Rep; [exact Hins|by left]|].
      by rewrite Hm.
    + apply (grows_node_insert (S fuel) (Branch _ _)).
Qed.

(** ** remove *)

Lemma children_elem f i h :
  (i, h) ∈ children (choices_of f) ↔ (i < 16)%nat ∧ h = slot_hash (f i) ∧ is_valid h = true.
Proof.
  unfold children. rewrite list_elem_of_filter, list_elem_of_lookup. cbn [snd]. split.
  - intros [Hv [j Hj]]. rewrite list_lookup_imap in Hj.
    destruct (decide (j < 16)%nat) as [Hlt|Hge].
    + rewrite choices_of_lookup in Hj by done. cbn in Hj. naive_solver.
    + rewrite lookup_ge_None_2 in Hj by (rewrite choices_of_length; lia). done.
  - intros (Hi & -> & Hv). split; [done|]. exists i.
    by rewrite list_lookup_imap, choices_of_lookup.
Qed.

Lemma children_slot s f i :
  slots_ok s f → (i < 16)%nat →
  ((i, slot_hash (f i)) ∈ children (choices_of f) ↔ is_Some (f i)).
Proof.
  intros Hf Hi. rewrite children_elem.
  destruct (slot_cases s f i Hf) as [(n & m & Hn & Hv & _)|[Hn Hv]]; rewrite Hn in *.
  - rewrite Hv. naive_solver.
  - rewrite Hv. split; [naive_solver|by intros []].
Qed.

Lemma children_NoDup f : NoDup (children (choices_of f)).
Proof.
  apply NoDup_filter, NoDup_alt. intros i j [a h] Hi Hj. rewrite list_lookup_imap in Hi, Hj.
  destruct (choices_of f !! i), (choices_of f !! j); naive_solver.
Qed.

Lemma Rep_prefix_leaf s p pa v m :
  nibbles p → Rep s (Leaf pa v) m → Rep s (Leaf (p ++ pa) v) (under p m).
Proof.
  intros Hp. inversion 1 as [k ? ? Hk ? ? Hm| |]; subst. rewrite app_assoc.
  apply Rep_leaf; [by apply nibbles_app|done..|]. by rewrite Hm, under_single.
Qed.

Lemma Rep_prefix_extension s p pe c m :
  nibbles p → Rep s (Extension pe c) m → Rep s (Extension (p ++ pe) c) (under p m).
Proof.
  intros Hp. inversion 1 as [|? cs v m' ? Hpe ? ? ? Hm|]; subst.
  eapply Rep_extension; [by apply nibbles_app| |done|done|].
  - by destruct p.
  - by rewrite Hm, under_under.
Qed.

(** A branch whose only part is the child [i] is the child, one nibble down. *)
Lemma branch_map_only f i n m :
  (i < 16)%nat → f i = Some (n, m) → (∀ j, (j < 16)%nat → is_Some (f j) → j = i) →
  meq (branch_map f []) (under [Z.of_nat i] m).
Proof.
  intros Hi Hn Honly q Hq. destruct q as [|x q]; [done|]. inversion Hq as [|? ? Hx Hq']; subst.
  cbn. destruct (nibble_index x Hx) as [Hxi Hxz]. unfold under. cbn [Nibbles.skip_prefix].
  destruct (x =? Z.of_nat i) eqn:E; propify.
  - subst. rewrite Nat2Z.id, Hn. by destruct q.
  - destruct (f (Z.to_nat x)) as [[n' m']|] eqn:Ef; [|done].
    exfalso. apply E. rewrite <-(Honly (Z.to_nat x)); [done|done|by eexists].
Qed.

Lemma branch_map_value f v :
  good_value v → (∀ j, (j < 16)%nat → f j = None) → meq (branch_map f v) (single [] v).
Proof.
  intros [Hne _] Hf [|x q] Hq; [by apply value_of_Some|]. inversion Hq as [|? ? Hx _]; subst.
  cbn. by rewrite Hf by (unfold nibble in Hx; lia).
Qed.

Lemma branch_restructure_wp s f v i :
  slots_ok s f → bytes v → part f v i →
  wp (branch_restructure (choices_of f) v) s (λ n' s', Rep s' n' (branch_map f v)).
Proof.
  intros Hf Hb Hi. unfold branch_restructure. pose proof (children_slot s f) as Hc.
  pose proof (children_NoDup f) as Hnd. pose proof (children_elem f) as Hel.
  destruct (children (choices_of f)) as [|[i1 h1] [|[i2 h2] rest]].
  - assert (∀ j, (j < 16)%nat → f j = None) as Hnone.
    { intros j Hj. destruct (f j) as [o|] eqn:E; [|done].
      assert (is_Some (f j)) as Hs by eauto. apply Hc in Hs; [by apply not_elem_of_nil in Hs|done..]. }
    destruct i as [i|]; [destruct Hi as [Hi [? Hs]]; rewrite Hnone in Hs; done|].
    cbn in Hi. destruct v as [|b v]; [done|]. cbn [vec_is_empty negb]. apply wp_ret.
    change [16] with ([] ++ [16]). eapply Rep_meq; [apply (Rep_single_leaf _ []); [constructor|done]|].
    by apply branch_map_value.
  - destruct (Hel i1 h1) as [(Hi1 & -> & _) _]; [constructor|].
    assert (is_Some (f i1)) as [[n m] Hn] by (apply Hc; [done|done|constructor]).
    destruct (Hf i1 n m Hn) as [Hk Hr]. rewrite Hn in *. cbn [slot_hash].
    destruct v as [|b v]; cbn [vec_is_empty negb].
    + assert (meq (branch_map f []) (under [Z.of_nat i1] m)) as Hm.
      { eapply branch_map_only; [done..|]. intros j Hj Hs. apply Hc in Hs; [|done..].
        apply list_elem_of_singleton in Hs. congruence. }
      assert (nibbles [Z.of_nat i1]) as Hx by (repeat constructor; by apply index_nibble).
      wp_step. apply wp_reads. intros Hcf. exists n. split; [by apply require_node_knows|].
      apply wp_ret. eapply Rep_meq; [|exact Hm]. destruct n as [cs v|pe c|pa v].
      * by eapply Rep_extension.
      * by apply (Rep_prefix_extension _ [Z.of_nat i1]).
      * by apply (Rep_prefix_leaf _ [Z.of_nat i1]).
    + apply wp_ret. apply Rep_slots; [done|done| |done].
      exists None, (Some i1). cbn. rewrite Hn. naive_solver.
  - destruct (Hel i1 h1) as [(Hi1 & -> & _) _]; [constructor|].
    destruct (Hel i2 h2) as [(Hi2 & -> & _) _]; [repeat constructor|].
    assert (is_Some (f i1)) by (apply Hc; [done|done|constructor]).
    assert (is_Some (f i2)) by (apply Hc; [done|done|repeat constructor]).
    assert (i1 ≠ i2) as Hne by (intros ->; apply NoDup_cons in Hnd as [Hnd _]; apply Hnd; constructor).
    assert (wp (mret (Branch (choices_of f) v)) s (λ n' s', Rep s' n' (branch_map f v))) as Hw.
    { apply wp_ret. apply Rep_slots; [done|done| |done]. exists (Some i1), (Some i2).
      split_and!; [congruence|done|done]. }
    by destruct (negb (vec_is_empty v)).
Qed.

(** What the removal of [k] returns: the value it had, and what is left. *)
Definition removed (m : Map) (k : list Z) (r : option Node * option (list Z)) s' : Prop :=
  r.2 = m k ∧
  match r.1 with
  | Some n' => Rep s' n' (upd m k None)
  | None => meq (upd m k None) (λ _, None)
  end.

Definition removes (rec : Node → Nibbles → TM D (option Node * option (list Z))) (fuel : nat) :
    Prop :=
  ∀ s n m k, Rep s n m → nibbles k → (length k < fuel)%nat →
    wp (rec n (k ++ [16])) s (removed m k).

Definition branch_value_removed s f v0 k
    (r : list NodeHash * list Z * option (list Z)) s' : Prop :=
  ∃ f' v', r = (choices_of f', v', branch_map f v0 k) ∧ slots_ok s' f' ∧ bytes v' ∧
    meq (branch_map f' v') (upd (branch_map f v0) k None) ∧
    (∀ i, part f v0 i → i ≠ Z.to_nat <$> head k → part f' v' i).

Lemma upd_branch_none f v0 x k :
  nibble x → f (Z.to_nat x) = None → meq (branch_map f v0) (upd (branch_map f v0) (x :: k) None).
Proof. intros Hx Hn q _. unfold upd. case_decide; [subst|done]. cbn. by rewrite Hn. Qed.

Lemma upd_branch_clear f v0 x k n m :
  nibble x → f (Z.to_nat x) = Some (n, m) → meq (upd m k None) (λ _, None) →
  meq (branch_map (set_slot f (Z.to_nat x) None) v0) (upd (branch_map f v0) (x :: k) None).
Proof.
  intros Hx Hn Hm q Hq. rewrite branch_map_set by done. unfold upd.
  destruct q as [|y q]; [done|]. apply Forall_cons in Hq as [Hy Hq].
  case_decide as E; [subst|by rewrite decide_False by congruence].
  specialize (Hm q Hq). unfold upd in Hm. cbn. rewrite Hn. cbn.
  destruct (decide (x :: q = x :: k)); [done|]. by rewrite decide_False in Hm by congruence.
Qed.

Lemma part_other f v i o j : part f v j → j ≠ Some i → part (set_slot f i o) v j.
Proof.
  destruct j as [j|]; [|done]. cbn. unfold set_slot. intros [? ?] Hne. split; [done|].
  rewrite decide_False by congruence. done.
Qed.

Lemma branch_remove_value_wp rec fuel s f v0 k :
  (∀ n path, grows (rec n path)) → removes rec fuel →
  slots_ok s f → bytes v0 → nibbles k → (length k ≤ fuel)%nat →
  wp (branch_remove_value rec (choices_of f) v0 (k ++ [16])) s (branch_value_removed s f v0 k).
Proof.
  intros Hg IH Hf Hb Hk Hfuel. unfold branch_remove_value. destruct k as [|x k]; cbn [app].
  { cbn. apply wp_ret. exists f, []. split_and!; try done; [constructor| |].
    - intros [|y q] _; unfold upd; cbn; done.
    - by intros [i|]. }
  apply Forall_cons in Hk as [Hx Hk]. rewrite next_choice_nibble by done.
  destruct (nibble_index x Hx) as [Hi _]. wp_step.
  eapply wp_lift; [by apply choice_at_slots|].
  destruct (slot_cases s f (Z.to_nat x) Hf) as [(n & m & Hn & -> & _ & Hkn & Hr)|[Hn ->]].
  - wp_step. apply wp_reads. intros Hcf. exists n. split; [by apply require_node_knows|].
    wp_step. eapply wp_mono; [apply IH; [exact Hr|done|cbn in Hfuel; lia]| |done].
    intros [on old] s1 He1 [Hold Hon]. cbn [fst snd] in *.
    assert (old = branch_map f v0 (x :: k)) as -> by (cbn; by rewrite Hn).
    wp_step. destruct on as [n'|].
    + apply wp_insert_self; [by eapply Rep_node_ok|]. intros s2 He2 Hk2. wp_step.
      eapply wp_lift; [by apply (set_choice_slots _ _ (Some (n', upd m k None)))|]. apply wp_ret.
      eexists _, v0. split_and!; [done| |done| |intros; by apply part_mono].
      * apply slots_ok_set; [|done|by eapply Rep_extends].
        eapply slots_ok_extends; [|exact Hf]. by etrans.
      * apply upd_branch_slot; [done|]. by rewrite Hn.
    + apply wp_ret. wp_step. eapply wp_lift; [by apply (set_choice_slots _ _ None)|]. apply wp_ret.
      eexists _, v0. split_and!; [done| |done|by eapply upd_branch_clear|intros; by apply part_other].
      by apply slots_ok_clear; eapply slots_ok_extends.
  - apply wp_ret. exists f, v0. split_and!; try done; [|by apply upd_branch_none].
    cbn. by rewrite Hn.
Qed.

Lemma branch_remove_wp rec fuel s f v0 k :
  (∀ n path, grows (rec n path)) → removes rec fuel →
  slots_ok s f → bytes v0 → two_parts f v0 → nibbles k → (length k ≤ fuel)%nat →
  wp (branch_remove rec (choices_of f) v0 (k ++ [16])) s (removed (branch_map f v0) k).
Proof.
  intros Hg IH Hf Hb (i & j & Hij & Hi & Hj) Hk Hfuel. unfold branch_remove.
  assert (∀ cs v, grows (D := D) (branch_restructure cs v)) as Hg2 by apply grows_branch_restructure.
  wp_step. eapply wp_mono; [by eapply branch_remove_value_wp| |by apply grows_branch_remove_value].
  intros ? s1 _ (f' & v' & -> & Hf' & Hb' & Hm & Hparts). cbn beta iota.
  assert (∃ l, part f' v' l) as [l Hl].
  { destruct (decide (i = Z.to_nat <$> head k)) as [->|]; [exists j|exists i]; apply Hparts; done. }
  wp_step. eapply wp_mono; [by apply (branch_restructure_wp _ _ _ l)| |done].
  intros n' s2 _ Hr. apply wp_ret. split; [done|]. cbn. eapply Rep_meq; [exact Hr|by symmetry].
Qed.

Lemma extension_remove_wp rec fuel s p cs v m' k :
  (∀ n path, grows (rec n path)) → removes rec fuel →
  nibbles p → p ≠ [] → knows s (compute_hash (Branch cs v)) (Branch cs v) →
  Rep s (Branch cs v) m' → nibbles k → (length k ≤ fuel)%nat →
  wp (extension_remove rec p (compute_hash (Branch cs v)) (k ++ [16])) s (removed (under p m') k).
Proof.
  intros Hg IH Hp Hne Hkn Hr Hk Hfuel. unfold extension_remove. rewrite skip_prefix_flag by done.
  destruct (Nibbles.skip_prefix k p) as [r|] eqn:E; cbn [fmap option_fmap option_map].
  - apply skip_prefix_Some in E as ->. apply nibbles_app in Hk as [_ Hk].
    wp_step. apply wp_reads. intros Hcf. eexists. split; [by apply require_node_knows|].
    wp_step. eapply wp_mono; [apply IH; [exact Hr|done|]| |done].
    { rewrite length_app in Hfuel. destruct p; [done|]. cbn in Hfuel. lia. }
    intros [on old] s1 He1 [Hold Hon]. cbn [fst snd] in *. subst old.
    assert (∀ s' n', Rep s' n' (under p (upd m' r None)) →
      removed (under p m') (p ++ r) (Some n', m' r) s') as Hdone.
    { intros s' n' Hn'. split; [by rewrite under_app|]. cbn.
      eapply Rep_meq; [exact Hn'|]. apply under_upd. }
    destruct on as [[cs' v'|pe c|pa w]|].
    + wp_step. apply wp_insert_self; [by eapply Rep_node_ok|]. intros s2 He2 Hk2. apply wp_ret.
      apply Hdone. eapply Rep_extension; [done..|by eapply Rep_extends|done].
    + apply wp_ret, Hdone. by apply Rep_prefix_extension.
    + apply wp_ret, Hdone. by apply Rep_prefix_leaf.
    + apply wp_ret. split; [by rewrite under_app|]. cbn. rewrite under_upd, Hon.
      intros q _. unfold under. by destruct (Nibbles.skip_prefix q p).
  - apply wp_ret. assert (under p m' k = None) as Hnone by (unfold under; by rewrite E).
    split; [done|]. cbn. eapply Rep_extension; [done..|].
    intros q _. unfold upd. by case_decide; subst.
Qed.

Lemma node_remove_wp fuel : removes (node_remove fuel) fuel.
Proof.
  induction fuel as [|fuel IH]; intros s n m k Hr Hk Hfuel; [lia|]. cbn [node_remove].
  assert (∀ n path, grows (D := D) (node_remove fuel n path)) as Hg by apply grows_node_remove.
  assert (∀ m' m'' s' r, meq m' m'' → removed m'' k r s' → removed m' k r s') as Hmeq.
  { intros m1 m2 s' [on old] Hm [Ho Hn]. cbn in *. split; [by rewrite Ho, Hm|]. cbn.
    destruct on; [eapply Rep_meq; [exact Hn|]|]; by rewrite Hm. }
  destruct Hr as [k0 v0 m Hk0 Hne Hb Hm|p cs v0 m' m Hp Hne Hkn Hr Hm|f v0 m Hkn Hf Hb Ht Hm].
  - eapply wp_lift; [done|]. eapply Hmeq; [exact Hm|]. unfold single, upd. case_decide as E.
    + apply app_flag_inj in E as ->. split; cbn; [by rewrite decide_True|].
      intros q _. unfold upd. repeat case_decide; congruence.
    + assert (k ≠ k0) by congruence. split; cbn; [by rewrite decide_False|].
      apply Rep_leaf; [done..|]. intros q _. unfold single, upd. repeat case_decide; congruence.
  - eapply wp_mono; [eapply (extension_remove_wp _ fuel); try done; lia| |by apply grows_extension_remove].
    intros r s' _ Hrm. by eapply Hmeq.
  - eapply wp_mono; [eapply (branch_remove_wp _ fuel); try done| |by apply grows_branch_remove].
    + intros i n m' Hi. split; [by eapply Hkn|by eapply Hf].
    + lia.
    + intros r s' _ Hrm. by eapply Hmeq.
Qed.

End Operations.

#[export] Hint Resolve grows_node_insert grows_node_remove : trie.
