(* ===== verification/TrieCorrect.v ===== *)
(** * Trie: the trie is a map from byte strings to values

    [trie_ok t M]: the trie [t] holds the finite map [M].  Sequences of [get],
    [insert] and [remove] return what the map returns; the root is determined
    by the map and determines it. *)

From stdpp Require Import base option list numbers strings gmap.
From S2P Require Import Prelude Rlp RlpProofs LevmHost LevmDemo.
From S2P Require Import TrieNode TrieCodec Trie TrieLogic TrieMap TrieOps.

Local Open Scope Z_scope.

(** ** Keys *)

(** The nibbles of a key of bytes. *)
Definition nibs (key : list Z) : list Z := Nibbles.from_raw key false.

Lemma from_bytes_nibs key : Nibbles.from_bytes key = nibs key ++ [16].
Proof. unfold Nibbles.from_bytes, nibs, Nibbles.from_raw. by rewrite app_nil_r. Qed.

Lemma byte_nibbles b : byte b →
  Z.land (Z.shiftr b 4) 15 = b / 16 ∧ Z.land b 15 = b mod 16 ∧ nibble (b / 16) ∧ nibble (b mod 16).
Proof.
  unfold byte, nibble. intros Hb.
  rewrite Z.shiftr_div_pow2 by lia. change 15 with (Z.ones 4). rewrite !Z.land_ones by lia.
  change (2 ^ 4) with 16. pose proof (Z.mod_pos_bound b 16).
  assert (0 ≤ b / 16 < 16) by (split; [apply Z.div_pos|apply Z.div_lt_upper_bound]; lia).
  rewrite (Z.mod_small (b / 16)) by lia. lia.
Qed.

Lemma nibs_cons b key :
  byte b → nibs (b :: key) = b / 16 :: b mod 16 :: nibs key.
Proof.
  intros Hb. unfold nibs, Nibbles.from_raw. cbn [flat_map app].
  destruct (byte_nibbles b Hb) as (-> & -> & _). done.
Qed.

Lemma nibs_spec key :
  bytes key → nibbles (nibs key) ∧ Nat.even (length (nibs key)) = true ∧
    Nibbles.pack (nibs key) = key ∧ length (nibs key) = (2 * length key)%nat.
Proof.
  induction 1 as [|b key Hb Hk IH]; [by split_and!; [constructor|..]|].
  destruct IH as (IH1 & IH2 & IH3 & IH4). rewrite nibs_cons by done.
  destruct (byte_nibbles b Hb) as (_ & _ & Hd & Hm). split_and!.
  - constructor; [done|by constructor].
  - done.
  - cbn [Nibbles.pack]. rewrite IH3. f_equal. unfold wrap. change (2 ^ 8) with 256.
    unfold nibble, byte in *. pose proof (Z.div_mod b 16).
    rewrite (Z.mod_small (b / 16 * 16)), Z.mod_small by lia. lia.
  - cbn [length]. rewrite IH4. lia.
Qed.

(** The map of nibbles a map of bytes is. *)
Definition view (M : gmap (list Z) (list Z)) : Map := λ q,
  if Nat.even (length q) then M !! Nibbles.pack q else None.

Lemma view_nibs M key : bytes key → view M (nibs key) = M !! key.
Proof. intros (_ & He & Hp & _)%nibs_spec. unfold view. by rewrite He, Hp. Qed.

Lemma nibs_pack q : nibbles q → Nat.even (length q) = true → nibs (Nibbles.pack q) = q.
Proof.
  intros Hq He. rewrite <-(unpack_pack q) at 2 by done. pose proof (pack_bytes q) as Hb.
  unfold nibs, Nibbles.from_raw, unpack. rewrite app_nil_r.
  induction Hb as [|b bs Hb _ IH]; [done|]. cbn [flat_map].
  destruct (byte_nibbles b Hb) as (-> & -> & _). by rewrite IH.
Qed.

Lemma upd_view M key o :
  bytes key → meq (upd (view M) (nibs key) o) (view (partial_alter (λ _, o) key M)).
Proof.
  intros Hk q Hq. destruct (nibs_spec key Hk) as (_ & He & Hp & _). unfold upd, view.
  case_decide as E.
  - subst. rewrite He, Hp. by rewrite lookup_partial_alter_eq.
  - destruct (Nat.even (length q)) eqn:Eq; [|done]. rewrite lookup_partial_alter_ne; [done|].
    intros ->. apply E. symmetry. by apply nibs_pack.
Qed.

(** The maps a trie holds. *)
Definition map_ok (M : gmap (list Z) (list Z)) : Prop :=
  map_Forall (λ key v, bytes key ∧ good_value v) M.

Lemma view_inj M1 M2 : map_ok M1 → map_ok M2 → meq (view M1) (view M2) → M1 = M2.
Proof.
  intros Hm1 Hm2 He. apply map_eq. intros key.
  destruct (decide (bytes key)) as [Hk|Hk].
  - rewrite <-!view_nibs by done. apply He. by apply nibs_spec.
  - assert (∀ M, map_ok M → M !! key = None) as Hn.
    { intros M HM. destruct (M !! key) eqn:E; [|done]. by apply HM in E as [? _]. }
    by rewrite !Hn.
Qed.

(** ** The invariant of a trie *)

Section Correct.
Context {D : Type} `{TrieDB D} `{CryptoLaws}.

Implicit Types (t : Trie D) (M : gmap (list Z) (list Z)).

Definition trie_ok t M : Prop :=
  map_ok M ∧
  match root t with
  | None => M = ∅
  | Some h => ∃ n, h = compute_hash n ∧ knows (state t) h n ∧ Rep (state t) n (view M)
  end.

Lemma trie_new_ok (d : D) : trie_ok (trie_new d) ∅.
Proof. split; [apply map_Forall_empty|done]. Qed.

Lemma trie_get_ok t M key :
  trie_ok t M → collision_free (state t) → bytes key → trie_get t key = Ok (M !! key).
Proof.
  intros [HM Hr] Hc Hk. unfold trie_get. destruct (root t) as [h|].
  - destruct Hr as (n & -> & Hkn & Hr). rewrite (require_node_knows _ _ n) by done.
    cbn [mbind outcome_bind]. rewrite from_bytes_nibs. unfold trie_fuel.
    rewrite (node_get_Rep _ _ (view M)); [by rewrite view_nibs|done..|by apply nibs_spec|].
    rewrite length_app. lia.
  - by subst.
Qed.

Lemma with_root_wp {A} (m : TM D (option NodeHash * A)) t
    (Q : option NodeHash * A → TrieState D → Prop) :
  wp m (state t) Q → collision_free (state (with_root m t).2) →
  ∃ h a, with_root m t = (Ok a, {| root := h; state := (m (state t)).2 |}) ∧
    Q (h, a) (m (state t)).2.
Proof.
  intros Hw Hc. unfold wp, with_root in *. destruct (m (state t)) as [r s]. cbn [fst snd] in *.
  destruct Hw as ([h a] & -> & HQ); [by destruct r as [[]| | |]|]. eauto.
Qed.

Lemma map_ok_insert M key v :
  map_ok M → bytes key → good_value v → map_ok (<[key := v]> M).
Proof. intros HM Hk Hv. by apply map_Forall_insert_2. Qed.

Lemma trie_insert_ok t M key v :
  trie_ok t M → bytes key → good_value v →
  let '(r, t') := trie_insert key v t in
  collision_free (state t') → r = Ok () ∧ trie_ok t' (<[key := v]> M).
Proof.
  intros [HM Hr] Hk Hv. destruct (trie_insert key v t) as [r t'] eqn:Et. intros Hc.
  destruct (nibs_spec key Hk) as (Hn & _ & _ & _).
  unfold trie_insert in Et. cbn zeta in Et. rewrite from_bytes_nibs in Et.
  match type of Et with with_root ?m t = _ => set (mm := m) in * end.
  assert (wp mm (state t) (λ ha s', ∃ n, ha.1 = Some (compute_hash n) ∧
    knows s' (compute_hash n) n ∧ Rep s' n (view (<[key := v]> M)))) as Hw.
  { assert (∀ n s', Rep s' n (upd (view M) (nibs key) (Some v)) →
      wp (hash ← insert_self n; mret (Some hash, ())) s' (λ ha s', ∃ n, ha.1 = Some (compute_hash n) ∧
        knows s' (compute_hash n) n ∧ Rep s' n (view (<[key := v]> M)))) as Hend.
    { intros n s' Hrn. apply wp_bind; [intros; apply grows_ret|].
      apply wp_insert_self; [by eapply Rep_node_ok|]. intros s2 He Hkn. apply wp_ret.
      exists n. split_and!; [done..|]. eapply Rep_extends; [done|].
      eapply Rep_meq; [exact Hrn|]. symmetry. by apply upd_view. }
    subst mm. wp_step.
    destruct (root t) as [h|].
    - destruct Hr as (n & -> & Hkn & Hr). apply wp_reads. intros Hc'. exists (Some n).
      split; [by apply get_node_knows|]. wp_step.
      eapply wp_mono; [apply node_insert_wp; [done..|]|intros n' s' _ Hn'; by apply Hend|
        apply grows_node_insert].
      unfold trie_fuel. rewrite length_app. pose proof (need_bound n (length (nibs key))). lia.
    - apply wp_ret. wp_step. apply wp_ret. apply Hend.
      eapply Rep_meq; [by apply Rep_single_leaf|]. subst M. intros q _. unfold single, upd, view.
      case_decide; [done|]. rewrite lookup_empty. by destruct (Nat.even _). }
  destruct (with_root_wp mm t _ Hw) as (h & [] & Hwr & n & Hh & Hkn & Hrn); [by rewrite Et|].
  cbn in Hh. subst h. rewrite Hwr in Et. injection Et as <- <-. split; [done|].
  split; [by apply map_ok_insert|]. cbn. eauto.
Qed.

Lemma trie_remove_ok t M key :
  trie_ok t M → bytes key →
  let '(r, t') := trie_remove key t in
  collision_free (state t') → r = Ok (M !! key) ∧ trie_ok t' (delete key M).
Proof.
  intros [HM Hr] Hk. destruct (trie_remove key t) as [r t'] eqn:Et. intros Hc.
  destruct (nibs_spec key Hk) as (Hn & _ & _ & _).
  assert (map_ok (delete key M)) as HMd by (by apply map_Forall_delete).
  unfold trie_remove in Et. cbn zeta in Et. destruct (root t) as [h|] eqn:Eroot.
  - rewrite from_bytes_nibs in Et. match type of Et with with_root ?m t = _ => set (mm := m) in * end.
    destruct Hr as (n & -> & Hkn & Hr).
    assert (wp mm (state t) (λ ha s', ha.2 = M !! key ∧
      trie_ok {| root := ha.1; state := s' |} (delete key M))) as Hw.
    { subst mm. wp_step.
      apply wp_reads. intros Hc'. exists n. split; [by apply require_node_knows|].
      wp_step.
      eapply wp_mono; [apply node_remove_wp; [done..|]| |apply grows_node_remove].
      { unfold trie_fuel. rewrite length_app. lia. }
      intros [on old] s' _ [Hold Hon]. cbn [fst snd] in *. rewrite view_nibs in Hold by done.
      subst old.  destruct on as [n'|].
      - wp_step.
        apply wp_insert_self; [by eapply Rep_node_ok|]. intros s2 He2 Hk2. apply wp_ret.
        split; [done|]. split; [done|]. cbn. exists n'. split_and!; [done..|].
        eapply Rep_extends; [done|]. eapply Rep_meq; [exact Hon|]. symmetry. by apply upd_view.
      - apply wp_ret. split; [done|]. split; [done|]. cbn.
        apply view_inj; [done|apply map_Forall_empty|]. rewrite <-(upd_view M key None Hk), Hon.
        intros q _. unfold view. rewrite lookup_empty. by destruct (Nat.even _). }
    destruct (with_root_wp mm t _ Hw) as (h & a & Hwr & Ha & Hok); [by rewrite Et|].
    cbn in Ha. subst a. rewrite Hwr in Et. injection Et as <- <-. done.
  - injection Et as <- <-. subst M. split; [by rewrite lookup_empty|].
    split; [done|]. by rewrite Eroot, delete_empty.
Qed.

Lemma with_root_grows {A} (m : TM D (option NodeHash * A)) t :
  grows m → extends (state t) (state (with_root m t).2).
Proof.
  intros Hg. unfold with_root. specialize (Hg (state t)).
  by destruct (m (state t)) as [[[]| | |] s].
Qed.

Lemma trie_insert_grows key v t : extends (state t) (state (trie_insert key v t).2).
Proof. apply with_root_grows. grow. Qed.

Lemma trie_remove_grows key t : extends (state t) (state (trie_remove key t).2).
Proof. unfold trie_remove. destruct (root t); [|done]. apply with_root_grows. grow. Qed.

(** ** Sequences of operations *)

Inductive TrieOp :=
  | OpGet (key : list Z)
  | OpInsert (key value : list Z)
  | OpRemove (key : list Z).

Definition op_ok (op : TrieOp) : Prop :=
  match op with
  | OpGet key | OpRemove key => bytes key
  | OpInsert key v => bytes key ∧ good_value v
  end.

Definition run_op (op : TrieOp) t : TrieResult (option (list Z)) * Trie D :=
  match op with
  | OpGet key => (trie_get t key, t)
  | OpInsert key v => let '(r, t) := trie_insert key v t in (_ ← r; Ok None, t)
  | OpRemove key => trie_remove key t
  end.

Fixpoint run_ops (ops : list TrieOp) t : list (TrieResult (option (list Z))) * Trie D :=
  match ops with
  | [] => ([], t)
  | op :: ops =>
      let '(r, t) := run_op op t in let '(rs, t) := run_ops ops t in (r :: rs, t)
  end.

(** The operations of the map that a trie stands for. *)
Definition spec_op (op : TrieOp) M : option (list Z) * gmap (list Z) (list Z) :=
  match op with
  | OpGet key => (M !! key, M)
  | OpInsert key v => (None, <[key := v]> M)
  | OpRemove key => (M !! key, delete key M)
  end.

Fixpoint spec_ops (ops : list TrieOp) M :
    list (option (list Z)) * gmap (list Z) (list Z) :=
  match ops with
  | [] => ([], M)
  | op :: ops =>
      let '(r, M) := spec_op op M in let '(rs, M) := spec_ops ops M in (r :: rs, M)
  end.

Lemma run_op_grows op t : extends (state t) (state (run_op op t).2).
Proof.
  destruct op as [key|key v|key]; cbn; [done| |apply trie_remove_grows].
  pose proof (trie_insert_grows key v t). by destruct (trie_insert key v t).
Qed.

Lemma run_ops_grows ops t : extends (state t) (state (run_ops ops t).2).
Proof.
  revert t. induction ops as [|op ops IH]; intros t; cbn; [done|].
  pose proof (run_op_grows op t). destruct (run_op op t) as [r t1]. specialize (IH t1).
  destruct (run_ops ops t1) as [rs t2]. cbn in *. by etrans.
Qed.

Lemma run_op_ok op t M :
  trie_ok t M → op_ok op → collision_free (state (run_op op t).2) →
  (run_op op t).1 = Ok (spec_op op M).1 ∧ trie_ok (run_op op t).2 (spec_op op M).2.
Proof.
  intros Ht Hop. destruct op as [key|key v|key]; cbn [run_op spec_op].
  - intros Hc. split; [by apply trie_get_ok|done].
  - destruct Hop as [Hk Hv]. pose proof (trie_insert_ok t M key v Ht Hk Hv) as Hi.
    destruct (trie_insert key v t) as [r t']. intros Hc. by destruct (Hi Hc) as [-> ?].
  - pose proof (trie_remove_ok t M key Ht Hop) as Hi.
    destruct (trie_remove key t) as [r t']. intros Hc. by apply Hi.
Qed.

Lemma run_ops_ok ops t M :
  trie_ok t M → Forall op_ok ops → collision_free (state (run_ops ops t).2) →
  (run_ops ops t).1 = Ok <$> (spec_ops ops M).1 ∧ trie_ok (run_ops ops t).2 (spec_ops ops M).2.
Proof.
  intros Ht Hops. revert t M Ht. induction Hops as [|op ops Hop Hops IH]; intros t M Ht; [done|].
  cbn [run_ops spec_ops]. pose proof (run_op_ok op t M Ht Hop) as H1'.
  destruct (run_op op t) as [r t1], (spec_op op M) as [o M1].
  pose proof (run_ops_grows ops t1) as Hg. specialize (IH t1 M1).
  destruct (run_ops ops t1) as [rs t2], (spec_ops ops M1) as [os M2]. cbn [fst snd] in *.
  intros Hc. destruct H1' as [-> Ht1]; [by eapply collision_free_extends|].
  by destruct IH as [-> ?].
Qed.

End Correct.

(** ** The root and the map *)

Lemma trie_ok_canonical {D1 D2} `{TrieDB D1, TrieDB D2} `{CryptoLaws}
    (t1 : Trie D1) (t2 : Trie D2) M :
  trie_ok t1 M → trie_ok t2 M → root t1 = root t2.
Proof.
  intros [_ H1'] [_ H2']. destruct (root t1) as [h1|], (root t2) as [h2|]; try done.
  - destruct H1' as (n1 & -> & _ & Hr1), H2' as (n2 & -> & _ & Hr2).
    assert (n1 = n2) as -> by exact (Rep_unique (state t1) (state t2) n1 n2 (view M) Hr1 Hr2). done.
  - subst M. destruct H1' as (n1 & _ & _ & Hr1).
    destruct (Rep_nonempty _ _ _ Hr1) as (q & w & _ & Hw). unfold view in Hw.
    rewrite lookup_empty in Hw. by destruct (Nat.even _).
  - subst M. destruct H2' as (n1 & _ & _ & Hr1).
    destruct (Rep_nonempty _ _ _ Hr1) as (q & w & _ & Hw). unfold view in Hw.
    rewrite lookup_empty in Hw. by destruct (Nat.even _).
Qed.

(** The states know the same node by a hash they both know. *)
Definition agree {D1 D2} `{TrieDB D1, TrieDB D2} (s1 : TrieState D1) (s2 : TrieState D2) : Prop :=
  ∀ h n1 n2, knows s1 h n1 → knows s2 h n2 → n1 = n2.

Lemma Rep_binding {D1 D2} `{TrieDB D1, TrieDB D2} `{CryptoLaws}
    (s1 : TrieState D1) (s2 : TrieState D2) n m1 m2 :
  agree s1 s2 → Rep s1 n m1 → Rep s2 n m2 → meq m1 m2.
Proof.
  intros Ha Hr1. revert m2.
  induction Hr1 as [k v m Hk _ _ Hm|p cs v m' m Hp _ Hkn Hr IH Hm|f v m Hkn Hf IH _ _ Hm];
    intros m2 Hr2; rewrite Hm.
  - inversion Hr2 as [k2 ? ? ? ? ? Hm2 Hkk| |]; subst. apply app_flag_inj in Hkk as ->.
    by rewrite Hm2.
  - inversion Hr2 as [|? cs2 v2 m2' ? ? ? Hkn2 Hr2' Hm2|]; subst.
    match goal with Hx : compute_hash _ = compute_hash _ |- _ => rename Hx into Hhh end.
    assert (Branch cs2 v2 = Branch cs v) as [= -> ->].
    { symmetry. eapply Ha; [exact Hkn|]. by rewrite <-Hhh. }
    rewrite Hm2. by rewrite (IH m2').
  - destruct (Rep_branch_inv _ _ _ _ Hr2) as (f2 & Hff & Hf2 & _ & _ & Hm2). rewrite Hm2.
    intros [|x q] Hq; [done|]. apply Forall_cons in Hq as [Hx Hq].
    destruct (nibble_index x Hx) as [Hi _]. cbn.
    assert (slot_hash (f2 (Z.to_nat x)) = slot_hash (f (Z.to_nat x))) as Hs.
    { apply (inj Some). rewrite <-!choices_of_lookup by done. by rewrite Hff. }
    destruct (f (Z.to_nat x)) as [[n1 m1']|] eqn:E1, (f2 (Z.to_nat x)) as [[n2 m2']|] eqn:E2;
      cbn in Hs |- *; try done.
    + assert (n1 = n2) as <-.
      { eapply Ha; [by eapply Hkn|]. rewrite <-Hs. by eapply Hf2. }
      eapply IH; [done|by eapply Hf2|done].
    + apply Hf in E1. apply Rep_node_ok, compute_hash_ok in E1 as [_ E1]. by rewrite <-Hs in E1.
    + apply Hf2 in E2 as [_ E2]. apply Rep_node_ok, compute_hash_ok in E2 as [_ E2]. by rewrite Hs in E2.
Qed.

Lemma trie_ok_binding {D1 D2} `{TrieDB D1, TrieDB D2} `{CryptoLaws}
    (t1 : Trie D1) (t2 : Trie D2) M1 M2 :
  trie_ok t1 M1 → trie_ok t2 M2 → agree (state t1) (state t2) → root t1 = root t2 → M1 = M2.
Proof.
  intros [HM1 Ht1] [HM2 Ht2] Ha He. rewrite He in Ht1.
  destruct (root t2) as [h|]; [|by subst].
  destruct Ht1 as (n1 & -> & Hk1 & Hr1), Ht2 as (n2 & Hh & Hk2 & Hr2).
  assert (n1 = n2) as <- by (eapply Ha; [exact Hk1|done]).
  apply view_inj; [done..|]. exact (Rep_binding (state t1) (state t2) n1 (view M1) (view M2) Ha Hr1 Hr2).
Qed.
