(* ===== verification/TrieCommit.v ===== *)
(** * Trie: committing to the database

    [TrieState::commit] writes the cached nodes reachable from the root to the
    database and clears the cache.  It ends, and a trie opened from the
    database at the root hash holds the same map.  The database is used
    through [TrieDBLaws]. *)

From stdpp Require Import base option list numbers strings gmap.
From S2P Require Import Prelude Rlp RlpProofs LevmHost LevmDemo.
From S2P Require Import TrieNode TrieCodec Trie TrieLogic TrieMap TrieOps TrieCorrect.

Local Open Scope Z_scope.

(** ** What a database promises *)

(** The last value of a key in a batch. *)
Definition batch_get (kvs : list (list Z * list Z)) (k : list Z) : option (list Z) :=
  foldl (λ o kv, if decide (kv.1 = k) then Some kv.2 else o) None kvs.

Class TrieDBLaws (D : Type) `{TrieDB D} := {
  db_live : D → Prop;
  db_put_batch_live d kvs : db_live d →
    ∃ d', db_put_batch d kvs = (Ok (), d') ∧ db_live d' ∧
      ∀ k, db_get d' k = match batch_get kvs k with Some v => Ok (Some v) | None => db_get d k end;
}.

Lemma foldl_insert_lookup (m : gmap (list Z) (list Z)) kvs k :
  foldl (λ m kv, <[kv.1 := kv.2]> m) m kvs !! k =
  foldl (λ o kv, if decide (kv.1 = k) then Some kv.2 else o) (m !! k) kvs.
Proof.
  revert m. induction kvs as [|[k' v] kvs IH]; intros m; cbn; [done|]. rewrite IH. f_equal.
  case_decide as E; [subst; by rewrite lookup_insert_eq|by rewrite lookup_insert_ne].
Qed.

Lemma foldl_batch kvs (k : list Z) o :
  foldl (λ o kv, if decide (kv.1 = k) then Some kv.2 else o) o kvs =
  match batch_get kvs k with Some v => Some v | None => o end.
Proof.
  unfold batch_get. revert o. induction kvs as [|[k' v] kvs IH] using rev_ind; intros o; [done|].
  rewrite !foldl_snoc. cbn. case_decide; [done|apply IH].
Qed.

(** The in-memory database, while its mutex is not poisoned. *)
#[export] Instance in_memory_laws : TrieDBLaws InMemoryTrieDB.
Proof.
  refine {| db_live := λ d, poisoned d = false |}.
  intros d kvs Hd. cbn. unfold in_memory_put_batch. rewrite Hd. eexists. split_and!; [done|done|].
  intros k. unfold in_memory_get. rewrite Hd. cbn. rewrite foldl_insert_lookup, foldl_batch.
  by destruct (batch_get kvs k).
Defined.

Lemma batch_get_elem kvs k v :
  (k, v) ∈ kvs → (∀ v', (k, v') ∈ kvs → v' = v) → batch_get kvs k = Some v.
Proof.
  unfold batch_get. induction kvs as [|[k' v'] kvs IH] using rev_ind; intros Hin Hu.
  { by apply not_elem_of_nil in Hin. }
  rewrite foldl_snoc. cbn. case_decide as E.
  - subst. f_equal. apply Hu. apply elem_of_app. right. constructor.
  - apply IH.
    + apply elem_of_app in Hin as [?|Hin]; [done|]. apply list_elem_of_singleton in Hin. congruence.
    + intros w Hw. apply Hu, elem_of_app. by left.
Qed.

Lemma batch_get_Some kvs k v : batch_get kvs k = Some v → (k, v) ∈ kvs.
Proof.
  unfold batch_get. induction kvs as [|[k' v'] kvs IH] using rev_ind; [done|].
  rewrite foldl_snoc. cbn. intros Hv. apply elem_of_app. case_decide as E.
  - right. simplify_eq. constructor.
  - left. by apply IH.
Qed.

(** ** The traversal *)

Section Commit.
Context {D : Type} `{TrieDB D} `{CryptoLaws}.

Notation Cache := (list (NodeHash * Node)).

Definition node_children (n : Node) : list NodeHash :=
  match n with
  | Branch cs _ => filter (λ h, is_valid h = true) cs
  | Extension _ c => [c]
  | Leaf _ _ => []
  end.

Definition commit_list (fuel : nat) (hs : list NodeHash) (st : Cache * list (list Z * list Z)) :
    TrieResult (Cache * list (list Z * list Z)) :=
  foldl (λ st h, st ← st; commit_node_tail_recursive fuel h st) (Ok st) hs.

Lemma commit_children fuel n st :
  match n with
  | Branch choices _ =>
      foldl (λ st child, st ← st;
        if is_valid child then commit_node_tail_recursive fuel child st else Ok st) (Ok st) choices
  | Extension _ child => commit_node_tail_recursive fuel child st
  | Leaf _ _ => Ok st
  end = commit_list fuel (node_children n) st.
Proof.
  destruct n as [cs v|p c|p v]; [|done|done]. unfold commit_list. cbn [node_children].
  generalize (Ok (E := TrieError) st). induction cs as [|h cs IH]; intros o; [done|].
  cbn [foldl]. rewrite filter_cons. case_decide as E.
  - cbn [foldl]. rewrite <-IH. rewrite E. done.
  - rewrite <-IH. f_equal. apply not_true_is_false in E. rewrite E. by destruct o.
Qed.

Lemma cache_get_remove (c : Cache) h x :
  cache_get (cache_remove c h) x = if decide (x = h) then None else cache_get c x.
Proof.
  unfold cache_remove. induction c as [|[h' n] c IH]; [by cbn; case_decide|].
  rewrite filter_cons. cbn [fst]. destruct (decide (h' ≠ h)) as [E|E]; cbn [cache_get]; rewrite IH.
  - repeat case_decide; congruence.
  - assert (h' = h) as -> by (by apply dec_stable). repeat case_decide; congruence.
Qed.

Lemma cache_remove_length (c : Cache) h n :
  cache_get c h = Some n → (length (cache_remove c h) < length c)%nat.
Proof.
  unfold cache_remove. induction c as [|[h' n'] c IH]; [done|]. intros Hg. rewrite filter_cons.
  pose proof (length_filter (λ e : NodeHash * Node, e.1 ≠ h) c). cbn [fst cache_get] in *.
  destruct (decide (h' ≠ h)) as [E|E]; cbn [length]; [|lia].
  rewrite decide_False in Hg by done. specialize (IH Hg). lia.
Qed.

(** What a traversal from [hs] does to the cache [c] and the batch [acc]. *)
Definition committed (P : NodeHash → Prop) (hs : list NodeHash) (c c' : Cache)
    (acc acc' : list (list Z * list Z)) : Prop :=
  (∀ h, h ∈ hs → cache_get c' h = None) ∧
  (∀ x, cache_get c' x = None ∨ cache_get c' x = cache_get c x) ∧
  (length c' ≤ length c)%nat ∧
  ∃ new, acc' = acc ++ new ∧
    (∀ e, e ∈ new → ∃ x n, e = (node_hash_to_vec x, encode_node n) ∧ P x ∧
       cache_get c x = Some n ∧ cache_get c' x = None) ∧
    (∀ x n, cache_get c x = Some n → cache_get c' x = None →
       P x ∧ (node_hash_to_vec x, encode_node n) ∈ new ∧
       ∀ h, h ∈ node_children n → cache_get c' h = None).

(** [P] holds of what the nodes that satisfy it refer to. *)
Definition hereditary (P : NodeHash → Prop) (c : Cache) : Prop :=
  ∀ x n, P x → cache_get c x = Some n → Forall P (node_children n).

Definition smaller (c' c : Cache) : Prop :=
  ∀ x, cache_get c' x = None ∨ cache_get c' x = cache_get c x.

Lemma hereditary_smaller P c c' : smaller c' c → hereditary P c → hereditary P c'.
Proof.
  intros Hs Hh x n HP Hx. destruct (Hs x) as [Hn|Hn]; rewrite Hx in Hn; [done|].
  by apply (Hh x n).
Qed.

Lemma committed_app P hs1 hs2 c c1 c2 acc acc1 acc2 :
  committed P hs1 c c1 acc acc1 → committed P hs2 c1 c2 acc1 acc2 →
  committed P (hs1 ++ hs2) c c2 acc acc2.
Proof.
  intros (Hh1 & Hs1 & Hl1 & new1 & -> & He1 & Hx1) (Hh2 & Hs2 & Hl2 & new2 & -> & He2 & Hx2).
  split_and!; [| |lia|exists (new1 ++ new2); split_and!].
  - intros h [Hh|Hh]%elem_of_app; [|by apply Hh2].
    destruct (Hs2 h) as [?|He]; [done|]. rewrite He. by apply Hh1.
  - intros x. destruct (Hs2 x) as [?|He]; [by left|]. rewrite He. apply Hs1.
  - by rewrite app_assoc.
  - intros e [He|He]%elem_of_app.
    + destruct (He1 e He) as (x & n & -> & HP & Hx & Hx'). exists x, n. split_and!; try done.
      destruct (Hs2 x) as [?|Hn]; [done|congruence].
    + destruct (He2 e He) as (x & n & -> & HP & Hx & Hx'). exists x, n. split_and!; try done.
      destruct (Hs1 x) as [Hn|Hn]; rewrite Hx in Hn; done.
  - intros x n Hx Hx2'. destruct (cache_get c1 x) as [n'|] eqn:E.
    + assert (n' = n) as -> by (destruct (Hs1 x) as [Hn|Hn]; rewrite E in Hn; congruence).
      destruct (Hx2 x n E Hx2') as (HP & Hin & Hch). split_and!; try done.
      apply elem_of_app. by right.
    + destruct (Hx1 x n Hx E) as (HP & Hin & Hch). split_and!; try done.
      { apply elem_of_app. by left. }
      intros h Hh. destruct (Hs2 h) as [?|He]; [done|]. rewrite He. by apply Hch.
Qed.

Lemma committed_none P h c acc : cache_get c h = None → committed P [h] c c acc acc.
Proof.
  intros Hn. split_and!; [|by intros; right|done|].
  - intros x Hx%list_elem_of_singleton. by subst.
  - exists []. split_and!; [by rewrite app_nil_r|by intros e ?%not_elem_of_nil|]. congruence.
Qed.

Lemma committed_nil P c acc : committed P [] c c acc acc.
Proof.
  split_and!; [by intros x ?%not_elem_of_nil|by intros; right|done|].
  exists []. split_and!; [by rewrite app_nil_r|by intros e ?%not_elem_of_nil|]. congruence.
Qed.

Lemma committed_node P h n c c' acc acc' :
  P h → cache_get c h = Some n → committed P (node_children n) (cache_remove c h) c' acc acc' →
  committed P [h] c c' acc (acc' ++ [(node_hash_to_vec h, encode_node n)]).
Proof.
  intros HP Hn (Hh & Hs & Hl & new & -> & He & Hx).
  assert (cache_get c' h = None) as Hgone.
  { destruct (Hs h) as [?|Hh']; [done|]. rewrite Hh', cache_get_remove. by rewrite decide_True. }
  pose proof (cache_remove_length c h n Hn).
  split_and!; [by intros x ->%list_elem_of_singleton| |lia|].
  - intros x. destruct (Hs x) as [?|Hx']; [by left|]. rewrite Hx', cache_get_remove.
    case_decide; [by left|by right].
  - exists (new ++ [(node_hash_to_vec h, encode_node n)]). split_and!; [by rewrite app_assoc| |].
    + intros e [Hin|Hin]%elem_of_app.
      * destruct (He e Hin) as (x & n' & -> & HPx & Hx' & Hgx). rewrite cache_get_remove in Hx'.
        case_decide; [done|]. eauto 6.
      * apply list_elem_of_singleton in Hin. eauto 6.
    + intros x n' Hx' Hc'. destruct (decide (x = h)) as [->|Hne].
      * assert (n' = n) as -> by congruence. split_and!; [done| |done].
        apply elem_of_app. right. constructor.
      * destruct (Hx x n') as (HPx & Hin & Hch); [|done|].
        { rewrite cache_get_remove. by rewrite decide_False. }
        split_and!; [done| |done]. apply elem_of_app. by left.
Qed.

Lemma commit_list_spec fuel P hs c acc :
  (∀ h c acc, (length c < fuel)%nat → P h → hereditary P c →
     ∃ c' acc', commit_node_tail_recursive fuel h (c, acc) = Ok (c', acc') ∧
       committed P [h] c c' acc acc') →
  (length c < fuel)%nat → Forall P hs → hereditary P c →
  ∃ c' acc', commit_list fuel hs (c, acc) = Ok (c', acc') ∧ committed P hs c c' acc acc'.
Proof.
  intros Hrec Hl Hhs. revert c acc Hl. induction Hhs as [|h hs HP Hhs IH]; intros c acc Hl Hh.
  { exists c, acc. split; [done|apply committed_nil]. }
  destruct (Hrec h c acc Hl HP Hh) as (c1 & acc1 & Hr & Hc1).
  pose proof Hc1 as (_ & Hs & Hl1 & _).
  destruct (IH c1 acc1) as (c2 & acc2 & Hr2 & Hc2); [lia|by eapply hereditary_smaller|].
  exists c2, acc2. split; [|by apply (committed_app P [h] hs c c1 c2 acc acc1 acc2)].
  unfold commit_list in *. cbn [foldl mbind outcome_bind]. by rewrite Hr.
Qed.

(** Each nested call works on a smaller cache: the traversal ends. *)
Lemma commit_spec fuel P h c acc :
  (length c < fuel)%nat → P h → hereditary P c →
  ∃ c' acc', commit_node_tail_recursive fuel h (c, acc) = Ok (c', acc') ∧
    committed P [h] c c' acc acc'.
Proof.
  revert h c acc. induction fuel as [|fuel IH]; intros h c acc Hl HP Hh; [lia|].
  cbn [commit_node_tail_recursive]. destruct (cache_get c h) as [n|] eqn:E.
  - rewrite commit_children. pose proof (cache_remove_length c h n E).
    destruct (commit_list_spec fuel P (node_children n) (cache_remove c h) acc) as
      (c' & acc' & -> & Hc); [done|lia|by apply (Hh h)| |].
    { eapply hereditary_smaller; [|exact Hh]. intros x. rewrite cache_get_remove.
      case_decide; [by left|by right]. }
    cbn [mbind outcome_bind]. do 2 eexists. split; [done|]. by apply committed_node.
  - exists c, acc. split; [done|]. by apply committed_none.
Qed.

(** ** The database after the commit *)

Definition db_knows (d : D) (x : list Z) (n : Node) : Prop :=
  ∃ rlp, db_get d x = Ok (Some rlp) ∧ decode (T := Node) rlp = Ok n.

(** The database has the nodes its nodes refer to. *)
Definition db_closed (d : D) : Prop :=
  ∀ x n y, db_knows d x n → Hashed y ∈ node_children n → ∃ n', db_knows d y n'.

(** A node reachable from the root. *)
Definition reachable (s : TrieState D) (h : NodeHash) : Prop :=
  ∃ n m, h = compute_hash n ∧ knows s h n ∧ Rep s n m.

Lemma Rep_children s n m : Rep s n m → Forall (reachable s) (node_children n).
Proof.
  destruct 1 as [|p cs v m' m ? ? Hk Hr|f v m Hk Hf]; cbn [node_children]; [constructor| |].
  - apply Forall_singleton. by exists (Branch cs v), m'.
  - apply Forall_forall. intros h [Hv Hh]%list_elem_of_filter.
    apply list_elem_of_fmap in Hh as (i & -> & _).
    destruct (f i) as [[n1 m1]|] eqn:E; [|done]. exists n1, m1. eauto.
Qed.

Lemma cache_get_knows s h n :
  cache_ok (cache s) → cache_get (cache s) h = Some n → is_hashed h ∧ knows s h n.
Proof.
  intros Hok Hg%cache_get_elem. assert (is_hashed h) as Hh.
  { by apply (proj1 (Forall_forall _ _) Hok) in Hg. }
  split; [done|]. destruct h; [by left|done].
Qed.

Lemma reachable_hereditary s :
  cache_ok (cache s) → collision_free s → hereditary (reachable s) (cache s).
Proof.
  intros Hok Hc x n (n' & m & Hx & Hk & Hr) Hg.
  assert (n = n') as -> by (eapply Hc; [by apply cache_get_knows|done]).
  by eapply Rep_children.
Qed.

(** A small node refers to no hash. *)
Lemma inline_children n e h :
  node_ok n → compute_hash n = Inline e → h ∈ node_children n → ¬ is_hashed h.
Proof.
  intros Hn He Hin. unfold compute_hash, from_encoded_raw in He.
  destruct (32 <=? len (encode_raw n)) eqn:El; propify; [done|].
  rewrite encode_raw_items in El by done. rewrite len_app in El.
  pose proof (len_nonneg (encode_length (len (concat (node_items n))))).
  assert (child_item h ∈ node_items n) as Hit%concat_length_elem.
  { destruct n as [cs v|p c|p v]; cbn [node_children node_items] in *.
    - apply list_elem_of_filter in Hin as [_ Hin]. apply elem_of_app. left. by apply list_elem_of_fmap_2.
    - apply list_elem_of_singleton in Hin as ->. repeat constructor.
    - by apply not_elem_of_nil in Hin. }
  assert (child_ok h) as Hok.
  { destruct n as [cs v|p c|p v]; cbn [node_children node_ok] in *.
    - apply list_elem_of_filter in Hin as [_ Hin]. destruct Hn as (_ & Hcs & _).
      by apply (proj1 (Forall_forall _ _) Hcs).
    - apply list_elem_of_singleton in Hin as ->. tauto.
    - by apply not_elem_of_nil in Hin. }
  destruct h as [x|]; [|tauto]. destruct Hok as [Hl%len_32 _].
  pose proof (encode_slice_length x). cbn in Hit. lia.
Qed.

(** Represented maps move to a state that knows the nodes they are made of. *)
Lemma Rep_transfer s s' (G : NodeHash → Prop) n m :
  (∀ n m, G (compute_hash n) → knows s (compute_hash n) n → Rep s n m →
     knows s' (compute_hash n) n ∧ Forall G (node_children n)) →
  Rep s n m → Forall G (node_children n) → Rep s' n m.
Proof.
  intros HG. induction 1 as [|p cs v m' m ? ? Hk Hr IH|f v m Hk Hf IH Hb Ht Hm]; intros Hch.
  - by apply Rep_leaf.
  - cbn [node_children] in Hch. apply Forall_cons in Hch as [Hch _].
    destruct (HG _ _ Hch Hk Hr) as [Hk' Hch']. eapply Rep_extension; try done. by apply IH.
  - assert (∀ i n m, f i = Some (n, m) → (i < 16)%nat → G (compute_hash n)) as HGi.
    { intros i n1 m1 Hi Hlt. apply (proj1 (Forall_forall _ _) Hch). cbn [node_children].
      assert (slot_hash (f i) = compute_hash n1) as <- by (by rewrite Hi).
      apply list_elem_of_filter. split.
      - eapply (slot_valid s); [|done]. intros ? ? ? ?. split; [by eapply Hk|by eapply Hf].
      - by eapply list_elem_of_lookup_2, choices_of_lookup. }
    set (g := λ i, if decide (i < 16)%nat then f i else None).
    assert (∀ i n m, g i = Some (n, m) → f i = Some (n, m) ∧ (i < 16)%nat) as Hg.
    { intros i n1 m1. unfold g. case_decide; [done|done]. }
    assert (choices_of f = choices_of g) as ->.
    { unfold choices_of. apply list_fmap_ext. intros j i Hi. apply lookup_seq in Hi as [-> Hi].
      unfold g. by rewrite decide_True. }
    apply Rep_slots; [|done| |].
    + intros i n1 m1 [Hi Hlt]%Hg. pose proof (HGi _ _ _ Hi Hlt) as HGn.
      destruct (HG n1 m1 HGn (Hk _ _ _ Hi) (Hf _ _ _ Hi)) as [Hk' Hch']. eauto.
    + destruct Ht as (i & j & Hij & Hi & Hj). exists i, j. unfold part, g in *.
      split_and!; [done|destruct i as [i|]|destruct j as [j|]]; try done;
        by rewrite decide_True by tauto.
    + rewrite Hm. intros [|x q] Hq; [done|]. apply Forall_cons in Hq as [Hx _]. cbn. unfold g.
      rewrite decide_True by (by apply nibble_index). done.
Qed.

(** The encodings fit in memory. *)
Definition cache_sizes (c : Cache) : Prop := Forall (λ e, len (encode_node e.2) ≤ isize_max) c.

Section Batch.
Context (s : TrieState D) (c' : Cache) (new : list (list Z * list Z)) (d' : D).
Context (h0 : NodeHash).
Context (Hc : collision_free s) (Hok : cache_ok (cache s)) (Hsz : cache_sizes (cache s)).
Context (Hcom : committed (reachable s) [h0] (cache s) c' [] new).
Context (Hget : ∀ k, db_get d' k =
  match batch_get new k with Some v => Ok (Some v) | None => db_get (db s) k end).

Lemma batch_entry x v :
  (x, v) ∈ new → ∃ n, v = encode_node n ∧ reachable s (Hashed x) ∧ knows s (Hashed x) n ∧
    decode (T := Node) v = Ok n ∧
    cache_get (cache s) (Hashed x) = Some n ∧ cache_get c' (Hashed x) = None.
Proof.
  destruct Hcom as (_ & _ & _ & new' & Hn & He & _). cbn in Hn. subst new'.
  intros (h & n & [= -> ->] & Hr & Hg & Hg')%He.
  destruct (cache_get_knows s h n Hok Hg) as [Hh Hk]. destruct h as [x|]; [|done].
  exists n. split_and!; try done. destruct Hr as (n' & m & _ & Hk' & Hr).
  assert (n' = n) as -> by (by eapply Hc). apply decode_encode_node; [by eapply Rep_node_ok|].
  apply cache_get_elem in Hg. by apply (proj1 (Forall_forall _ _) Hsz) in Hg.
Qed.

Lemma batch_db_knows x n : knows s (Hashed x) n →
  (∃ n', db_knows (db s) x n') ∨ (∃ v, (x, v) ∈ new) → db_knows d' x n.
Proof.
  intros Hk Hor. unfold db_knows. rewrite Hget. destruct (batch_get new x) as [v|] eqn:Eb.
  - apply batch_get_Some in Eb. destruct (batch_entry x v Eb) as (n' & -> & _ & Hk' & Hd & _).
    assert (n' = n) as -> by (by eapply Hc). eauto.
  - destruct Hor as [(n' & rlp & Hg & Hd)|[v Hv]].
    + assert (n' = n) as -> by (eapply (Hc (Hashed x)); [right; by exists rlp|done]). eauto.
    + exfalso. assert (batch_get new x = Some v) as Hb; [|congruence].
      apply batch_get_elem; [done|]. intros v' Hv'.
      destruct (batch_entry x v Hv) as (n1 & -> & _ & Hk1 & _).
      destruct (batch_entry x v' Hv') as (n2 & -> & _ & Hk2 & _).
      f_equal. by eapply Hc.
Qed.

(** A node the traversal has passed is in the database. *)
Lemma passed_db_knows x n :
  knows s (Hashed x) n → cache_get c' (Hashed x) = None → db_knows d' x n.
Proof.
  intros Hk Hg'. apply batch_db_knows; [done|].
  destruct (cache_get (cache s) (Hashed x)) as [n'|] eqn:E.
  - right. destruct Hcom as (_ & _ & _ & new' & Hn & _ & Hx). cbn in Hn. subst new'.
    destruct (Hx _ _ E Hg') as (_ & Hin & _). by exists (encode_node n').
  - left. destruct Hk as [Hk|Hk]; [by apply cache_get_None with (n := n) in E|by exists n].
Qed.

Lemma batch_closed : db_closed (db s) → db_closed d'.
Proof.
  intros Hcl x n y (rlp & Hg & Hd) Hy. rewrite Hget in Hg.
  destruct (batch_get new x) as [v|] eqn:Eb.
  - injection Hg as ->. apply batch_get_Some in Eb.
    destruct (batch_entry x _ Eb) as (n' & -> & Hr & Hk' & Hd' & Hgx & Hgx').
    assert (n' = n) as -> by congruence.
    assert (reachable s (Hashed y)) as (ny & my & _ & Hky & _).
    { eapply (proj1 (Forall_forall _ _)); [|exact Hy].
      by apply (reachable_hereditary s Hok Hc (Hashed x)). }
    exists ny. apply passed_db_knows; [done|].
    destruct Hcom as (_ & _ & _ & new' & Hn & _ & Hx). cbn in Hn. subst new'.
    by apply (Hx _ _ Hgx Hgx').
  - destruct (Hcl x n y) as [n' Hn']; [by exists rlp|done|]. exists n'.
    apply batch_db_knows; [by right|]. left. eauto.
Qed.

Lemma batch_Rep n m :
  db_closed (db s) → knows s (compute_hash n) n → Rep s n m → h0 = compute_hash n →
  let s' := Build_TrieState d' [] in knows s' (compute_hash n) n ∧ Rep s' n m.
Proof.
  intros Hcl Hk Hr Hh s'.
  set (G := λ h, match h with
                 | Inline _ => True
                 | Hashed y => cache_get c' h = None ∨ ∃ n', db_knows (db s) y n' end).
  assert (HG : ∀ n m, G (compute_hash n) → knows s (compute_hash n) n → Rep s n m →
    knows s' (compute_hash n) n ∧ Forall G (node_children n)).
  { intros n1 m1 HGn Hk1 Hr1. destruct (compute_hash n1) as [y|e] eqn:Ey.
    - assert (db_knows (db s) y n1 → Forall G (node_children n1)) as Hdb.
      { intros Hd. apply Forall_forall. intros [z|]; [|done]. intros Hz. right. eauto. }
      destruct HGn as [Hn|[n' Hn']].
      + split; [right; by apply passed_db_knows|].
        destruct (cache_get (cache s) (Hashed y)) as [n2|] eqn:E.
        * destruct (cache_get_knows s _ _ Hok E) as [_ Hk2].
          assert (n2 = n1) as -> by (by eapply Hc).
          destruct Hcom as (_ & _ & _ & new' & Hnn & _ & Hx). cbn in Hnn. subst new'.
          destruct (Hx _ _ E Hn) as (_ & _ & Hch). apply Forall_forall. intros [z|] Hz; [|done].
          left. by apply Hch.
        * apply Hdb. destruct Hk1 as [Hk1|Hk1]; [by apply cache_get_None with (n := n1) in E|done].
      + assert (n' = n1) as -> by (eapply (Hc (Hashed y)); [right; exact Hn'|done]).
        split; [right; apply batch_db_knows; eauto|by apply Hdb].
    - split; [done|]. apply Forall_forall. intros h Hin.
      apply (inline_children n1 e) in Hin; [|by eapply Rep_node_ok|done]. by destruct h. }
  assert (G (compute_hash n)) as HGn.
  { destruct Hcom as (Hroot & _). unfold G. destruct (compute_hash n) as [y|] eqn:Ey; [|done].
    left. apply Hroot. subst h0. constructor. }
  destruct (HG n m HGn Hk Hr) as [Hk' Hch]. split; [done|]. by eapply Rep_transfer.
Qed.

End Batch.

Lemma commit_correct `{!TrieDBLaws D} s n m :
  knows s (compute_hash n) n → Rep s n m → collision_free s → cache_ok (cache s) →
  cache_sizes (cache s) → db_live (db s) → db_closed (db s) →
  ∃ d', commit (compute_hash n) s = (Ok (), Build_TrieState d' []) ∧ db_live d' ∧ db_closed d' ∧
    (∀ x n', db_knows (db s) x n' → db_knows d' x n') ∧
    let s' := Build_TrieState d' [] in knows s' (compute_hash n) n ∧ Rep s' n m.
Proof.
  intros Hk Hr Hc Hok Hsz Hl Hcl.
  destruct (commit_spec (commit_fuel s) (reachable s) (compute_hash n) (cache s) [])
    as (c' & new & Hrun & Hcom).
  { unfold commit_fuel. lia. }
  { by exists n, m. }
  { by apply reachable_hereditary. }
  destruct (db_put_batch_live (db s) new Hl) as (d' & Hput & Hl' & Hget).
  exists d'. unfold commit, commit_node, clear_cache, mbind, tm_bind.
  rewrite Hrun, Hput. cbn. split; [done|]. split; [done|]. split.
  - by eapply batch_closed.
  - split; [|by eapply batch_Rep]. intros x n' Hn'. eapply batch_db_knows; eauto. by right.
Qed.

End Commit.
