(* ===== verification/TrieHashed.v ===== *)
(** * Trie: tries over hashed keys

    All keys of the tries of the store are hashes.  The nodes of such a trie
    near the root are too large to be inlined, so that what a commit writes can
    be read back from the root; and a commit leaves all other tries of the
    database as they were. *)

From stdpp Require Import base option list numbers strings gmap.
From S2P Require Import Prelude Rlp RlpProofs LevmHost.
From S2P Require Import TrieNode TrieCodec Trie TrieLogic TrieMap TrieOps TrieCorrect TrieCommit.

Local Open Scope Z_scope.

(** ** The size of a node *)

Lemma pack_even_length k :
  Nat.even (length k) = true → (length (Nibbles.pack k) * 2 = length k)%nat.
Proof.
  induction k as [k IH] using (induction_ltof1 _ (@length Z)). unfold ltof in IH.
  destruct k as [|a [|b k]]; intros He; [done|done|]. cbn. specialize (IH k). cbn in IH.
  rewrite <-IH; [lia..|done].
Qed.

(** A path of [r] nibbles takes a flag and a byte for each two of them. *)
Lemma compact_length leaf k :
  nibbles k → len (Nibbles.encode_compact (flagged leaf k)) = len k / 2 + 1.
Proof.
  intros Hk. unfold Nibbles.encode_compact. rewrite is_leaf_flagged by done.
  assert ((if leaf then removelast (flagged leaf k) else flagged leaf k) = k) as ->.
  { unfold flagged. destruct leaf; [by rewrite removelast_last|by rewrite app_nil_r]. }
  assert (∀ x : list Z, Nat.even (length x) = true → len (Nibbles.pack x) = len x / 2) as Hp.
  { intros x Hx. pose proof (pack_even_length x Hx). unfold len. 
    replace (Z.of_nat (length x)) with (Z.of_nat (length (Nibbles.pack x)) * 2) by lia.
    by rewrite Z.div_mul. }
  destruct k as [|x k]; [by destruct leaf|].
  pose proof (even_mod (length (x :: k))) as He. destruct (length (x :: k) mod 2 =? 1)%nat;
    cbn [negb] in He.
  - assert (Nat.even (length k) = true) as Hk'.
    { cbn [length] in He. by rewrite <-Nat.negb_odd, <-Nat.even_succ, He. }
    rewrite !len_cons, Hp by done. apply Nat.even_spec in Hk' as [c Hc]. unfold len. rewrite Hc.
    Z.to_euclidean_division_equations. lia.
  - rewrite len_cons, Hp by done. lia.
Qed.

Lemma encode_slice_nonempty bs : 1 ≤ len (encode_slice bs).
Proof.
  destruct bs as [|b bs]; [done|]. pose proof (encode_slice_length (b :: bs)).
  rewrite len_cons in *. pose proof (len_nonneg bs). lia.
Qed.

Section size.
Context {D : Type} `{TrieDB D} `{CryptoLaws}.

Implicit Types (s : TrieState D) (n : Node) (m : Map).

(** All keys of a map have [r] nibbles. *)
Definition keys_of_length (r : Z) (m : Map) : Prop :=
  ∀ q v, nibbles q → m q = Some v → len q = r.

Definition size_bound (r : Z) : Z := Z.min 32 (r / 2 + 3).

Lemma encode_raw_size n : node_ok n → 1 + len (concat (node_items n)) ≤ len (encode_raw n).
Proof.
  intros Hn. rewrite encode_raw_items, len_app by done.
  assert (1 ≤ len (encode_length (len (concat (node_items n))))); [|lia].
  unfold encode_length. case_match; [done|]. unfold put_stripped. rewrite len_cons.
  match goal with |- context [len ?x] => pose proof (len_nonneg x) end. lia.
Qed.

(** A child takes 33 bytes, or it is inlined. *)
Lemma child_item_size n b :
  node_ok n → b ≤ 32 → b ≤ len (encode_raw n) → b ≤ len (child_item (compute_hash n)).
Proof.
  intros Hn Hb Hl. unfold compute_hash, from_encoded_raw.
  destruct (32 <=? len (encode_raw n)) eqn:E; propify; cbn [child_item].
  - pose proof (encode_slice_length (keccak (encode_raw n))).
    pose proof (len_32 _ (keccak_length (encode_raw n))). lia.
  - destruct (encode_raw n); [|done]. rewrite len_nil in Hl.
    pose proof (encode_slice_nonempty []). lia.
Qed.

Lemma child_item_nonempty h : 1 ≤ len (child_item h).
Proof.
  destruct h as [x|[|b raw]]; cbn [child_item]; try apply encode_slice_nonempty.
  rewrite len_cons. pose proof (len_nonneg raw). lia.
Qed.

Lemma concat_size (l : list (list Z)) : Forall (λ it, 1 ≤ len it) l → len l ≤ len (concat l).
Proof. unfold len. induction 1; cbn [concat length]; rewrite ?length_app; lia. Qed.

(** Two items of a list, and at least a byte for each of the others. *)
Lemma concat_two (l : list (list Z)) i j x y :
  Forall (λ it, 1 ≤ len it) l → l !! i = Some x → l !! j = Some y → (i < j)%nat →
  len x + len y + (len l - 2) ≤ len (concat l).
Proof.
  intros Hl Hi Hj Hij. apply list_elem_of_split_length in Hi as (l1 & l2 & -> & ->).
  rewrite lookup_app_r in Hj by lia. destruct (j - length l1)%nat as [|k] eqn:Ek; [lia|].
  cbn in Hj. apply list_elem_of_split_length in Hj as (l3 & l4 & -> & _).
  apply Forall_app in Hl as [H1' Hl]. apply Forall_cons in Hl as [_ Hl].
  apply Forall_app in Hl as [H3' Hl]. apply Forall_cons in Hl as [_ H4'].
  rewrite !concat_app, !concat_cons, !concat_app, !concat_cons.
  repeat rewrite ?len_app, ?len_cons.
  pose proof (concat_size _ H1'). pose proof (concat_size _ H3'). pose proof (concat_size _ H4'). lia.
Qed.

(** The children of a branch have keys that are shorter by one. *)
Lemma branch_child_keys s f v m r i n m' :
  meq m (branch_map f v) → keys_of_length r m → (i < 16)%nat → f i = Some (n, m') →
  keys_of_length (r - 1) m'.
Proof.
  intros Hm Hr Hi Hf q w Hq Hw. assert (nibbles (Z.of_nat i :: q)) as Hn.
  { constructor; [by apply index_nibble|done]. }
  assert (len (Z.of_nat i :: q) = r) as Hl.
  { apply (Hr _ w Hn). rewrite Hm by done. cbn. by rewrite Nat2Z.id, Hf. }
  rewrite len_cons in Hl. lia.
Qed.

(** So if a branch has keys of one length, its parts are two children. *)
Lemma branch_parts s f v m r :
  slots_ok s f → two_parts f v → meq m (branch_map f v) → keys_of_length r m →
  ∃ i j, (i < j < 16)%nat ∧ is_Some (f i) ∧ is_Some (f j) ∧ 1 ≤ r.
Proof.
  intros Hf (i & j & Hij & Hi & Hj) Hm Hr.
  assert (v ≠ [] → r = 0) as Hv.
  { intros Hv. symmetry. apply (Hr [] v); [constructor|]. rewrite Hm by constructor. cbn.
    unfold value_of. by destruct v. }
  assert (∀ k, part f v (Some k) → 1 ≤ r) as Hc.
  { intros k [Hk [[n m'] Hn]]. destruct (Hf _ _ _ Hn) as [_ Hrep].
    destruct (Rep_nonempty _ _ _ Hrep) as (q & w & Hq & Hw).
    pose proof (branch_child_keys s f v m r k n m' Hm Hr Hk Hn q w Hq Hw).
    pose proof (len_nonneg q). lia. }
  destruct i as [i|], j as [j|]; try done.
  - pose proof (Hc i Hi). destruct Hi as [Hi1 Hi2], Hj as [Hj1 Hj2].
    assert (i ≠ j) by congruence. destruct (decide (i < j)%nat).
    + exists i, j. split_and!; try done; lia.
    + exists j, i. split_and!; try done; lia.
  - pose proof (Hc i Hi). specialize (Hv Hj). lia.
  - pose proof (Hc j Hj). specialize (Hv Hi). lia.
Qed.

Lemma branch_items_size cs v : Forall (λ it, 1 ≤ len it) (node_items (Branch cs v)).
Proof.
  cbn [node_items]. apply Forall_app. split; [|repeat constructor; apply encode_slice_nonempty].
  apply Forall_fmap, Forall_forall. intros h _. apply child_item_nonempty.
Qed.

Lemma Rep_branch_size s f v m r :
  slots_ok s f → two_parts f v → meq m (branch_map f v) → keys_of_length r m →
  (∀ i n m', f i = Some (n, m') → keys_of_length (r - 1) m' →
     size_bound (r - 1) ≤ len (encode_raw n)) →
  node_ok (Branch (choices_of f) v) →
  size_bound r ≤ len (encode_raw (Branch (choices_of f) v)).
Proof.
  intros Hf Ht Hm Hr IH Hok. pose proof (encode_raw_size _ Hok) as Hsz.
  destruct (branch_parts s f v m r Hf Ht Hm Hr) as (i & j & Hij & [[n1 m1] Hi] & [[n2 m2] Hj] & Hr1).
  assert (∀ k n m', (k < 16)%nat → f k = Some (n, m') →
    node_items (Branch (choices_of f) v) !! k = Some (child_item (compute_hash n)) ∧
    size_bound (r - 1) ≤ len (child_item (compute_hash n))) as Hit.
  { intros k n m' Hk Hn. split.
    - cbn [node_items]. apply lookup_app_l_Some. by rewrite list_lookup_fmap, choices_of_lookup, Hn.
    - apply child_item_size; [by eapply Rep_node_ok, Hf|unfold size_bound; lia|].
      eapply IH; [done|]. by eapply branch_child_keys. }
  destruct (Hit i n1 m1) as [Hl1 Hs1]; [lia|done|]. destruct (Hit j n2 m2) as [Hl2 Hs2]; [lia|done|].
  pose proof (concat_two _ _ _ _ _ (branch_items_size _ v) Hl1 Hl2 ltac:(lia)) as Htwo.
  assert (len (node_items (Branch (choices_of f) v)) = 17) as Hlen by done.
  unfold size_bound in *. Z.to_euclidean_division_equations. lia.
Qed.

Lemma Rep_size s n m : ∀ r, Rep s n m → keys_of_length r m → size_bound r ≤ len (encode_raw n).
Proof.
  intros r Hrep. revert r.
  induction Hrep as [k v m Hk Hne Hb Hm|p cs v m' m Hp Hne Hkn Hr IH Hm|f v m Hkn Hf IH Hb Ht Hm];
    intros r Hkeys.
  - assert (len k = r) as <-.
    { apply (Hkeys k v Hk). rewrite Hm by done. unfold single, upd. by rewrite decide_True. }
    pose proof (encode_raw_size (Leaf (k ++ [16]) v) (leaf_ok k v Hk (conj Hne Hb))) as Hsz.
    cbn [node_items concat] in Hsz. rewrite !len_app in Hsz.
    pose proof (compact_length true k Hk) as Hc. unfold flagged in Hc.
    pose proof (encode_slice_length (Nibbles.encode_compact (k ++ [16]))).
    pose proof (encode_slice_nonempty v). change (len []) with 0 in Hsz. unfold size_bound. lia.
  - assert (keys_of_length (r - len p) m') as Hk'.
    { intros q w Hq Hw. assert (len (p ++ q) = r) as Hl.
      { apply (Hkeys _ w); [by apply Forall_app|].
        rewrite Hm by (by apply Forall_app). by rewrite under_app. }
      rewrite len_app in Hl. lia. }
    pose proof (Rep_node_ok _ _ _ Hr) as Hok. specialize (IH _ Hk').
    pose proof (child_item_size _ (size_bound (r - len p)) Hok ltac:(unfold size_bound; lia) IH).
    assert (node_ok (Extension p (compute_hash (Branch cs v)))) as Hx.
    { destruct (compute_hash_ok _ Hok). by split_and!. }
    pose proof (encode_raw_size _ Hx) as Hsz. cbn [node_items concat] in Hsz.
    rewrite !len_app in Hsz. change (len []) with 0 in Hsz.
    pose proof (compact_length false p Hp) as Hc. unfold flagged in Hc. rewrite app_nil_r in Hc.
    pose proof (encode_slice_length (Nibbles.encode_compact p)).
    unfold size_bound in *. pose proof (len_nonneg p). Z.to_euclidean_division_equations. lia.
  - assert (Rep s (Branch (choices_of f) v) m) as Hrep by (by eapply Rep_branch).
    eapply (Rep_branch_size s f v m); try done; [|by intros; eapply IH|by eapply Rep_node_ok].
    intros i n' m' Hi. split; [by eapply Hkn|by eapply Hf].
Qed.
End size.

(** ** Commits *)

Section commit.
Context {D : Type} `{TrieDB D} `{!TrieDBLaws D} `{CryptoLaws}.

Implicit Types (t : Trie D) (M : gmap (list Z) (list Z)) (d : D).

Definition hashed_keys M : Prop := map_Forall (λ key _, len key = 32) M.

Lemma view_keys M : hashed_keys M → keys_of_length 64 (view M).
Proof.
  intros HM q v _. unfold view. destruct (Nat.even (length q)) eqn:He; [|done].
  intros Hv%HM. pose proof (pack_even_length q He). unfold len in *. lia.
Qed.

(** The root of a trie over hashed keys is never inlined. *)
Lemma trie_root_hashed t M e : trie_ok t M → hashed_keys M → root t ≠ Some (Inline e).
Proof.
  intros [_ Ht] HM Hr. rewrite Hr in Ht. destruct Ht as (n & Hh & _ & Hrep).
  pose proof (Rep_size _ _ _ 64 Hrep (view_keys M HM)) as Hs. change (size_bound 64) with 32 in Hs.
  unfold compute_hash, from_encoded_raw in Hh. by rewrite (proj2 (Z.leb_le _ _) Hs) in Hh.
Qed.

(** What a trie must satisfy to be committed: its nodes, and those of the
    database, have different hashes if they differ; so do the root and the
    empty trie; and their encodings fit in memory. *)
Definition trie_safe t : Prop :=
  collision_free (state t) ∧ cache_sizes (cache (state t)) ∧
  (root t ≠ None → hash_no_commit t ≠ EMPTY_TRIE_HASH).

Definition db_ok d : Prop := db_live d ∧ db_closed d.

Definition db_grows d d' : Prop := ∀ x n, db_knows d x n → db_knows d' x n.

#[export] Instance db_grows_preorder : PreOrder db_grows.
Proof. split; [by intros d x n|intros d1 d2 d3 H12 H23 x n Hx; by apply H23, H12]. Qed.

(** The tries of a database stay when it grows. *)
Lemma trie_ok_grows d d' r M :
  db_grows d d' → trie_ok (trie_open d r) M → trie_ok (trie_open d' r) M.
Proof.
  intros Hg [HM Ht]. split; [done|]. cbn [root trie_open] in *. case_decide; [done|].
  destruct Ht as (n & Hh & Hk & Hr). exists n. split; [done|].
  assert (∀ h n, knows (state_new d) h n → knows (state_new d') h n) as Hkn.
  { intros [x|e] n1; [|done]. cbn. intros [Hx|Hx]; [by apply not_elem_of_nil in Hx|].
    right. by apply Hg. }
  split; [by apply Hkn|]. eapply (Rep_transfer _ _ (λ _, True)); [|exact Hr|by apply Forall_true].
  intros n1 m1 _ Hk1 _. split; [by apply Hkn|by apply Forall_true].
Qed.

(** A committed trie can be opened at its root. *)
Lemma commit_reopens t M :
  trie_ok t M → hashed_keys M → trie_safe t → cache_ok (cache (state t)) → db_ok (db (state t)) →
  ∃ t', trie_hash t = (Ok (hash_no_commit t), t') ∧ db_ok (db (state t')) ∧
    db_grows (db (state t)) (db (state t')) ∧
    trie_ok (trie_open (db (state t')) (hash_no_commit t)) M.
Proof.
  intros Ht HM (Hc & Hsz & Hne) Hok [Hl Hcl]. pose proof (trie_root_hashed t M) as Hroot.
  unfold trie_hash, trie_open. pose proof Ht as [HMok Ht']. unfold hash_no_commit in *.
  destruct (root t) as [h|] eqn:Eroot.
  - destruct Ht' as (n & -> & Hkn & Hr). destruct (compute_hash n) as [x|e] eqn:Eh;
      [|by destruct (Hroot e Ht HM)].
    rewrite <-Eh in Hkn.
    destruct (commit_correct (state t) n (view M)) as (d' & Hcom & Hl' & Hcl' & Hg & Hkn' & Hr');
      [done..|].
    rewrite Eh in *. rewrite Hcom. eexists. split; [done|]. split; [done|]. split; [done|].
    split; [done|]. cbn [root finalize]. rewrite decide_False by (by apply Hne). by exists n.
  - exists t. split; [done|]. split; [done|]. split; [done|]. split; [done|].
    cbn [root]. by rewrite decide_True.
Qed.
End commit.
