(* ===== verification/TrieProof.v ===== *)
(** * Trie: Merkle proofs

    [get_proof] collects the encodings of the nodes on a path; [get_proofs]
    those of several paths; [from_nodes] builds a trie from them.  A trie built
    from the nodes of a proof answers its keys as the original does, and a trie
    built from any nodes that has the same root never answers differently. *)

From stdpp Require Import base option list numbers strings gmap.
From S2P Require Import Prelude Rlp RlpProofs LevmHost.
From S2P Require Import TrieNode TrieCodec Trie TrieLogic TrieMap TrieOps TrieCorrect.

Local Open Scope Z_scope.

(** ** Partial tries never lie *)

Section Sound.
Context {D1 D2 : Type} `{TrieDB D1, TrieDB D2} `{CryptoLaws}.

Lemma get_node_Some (s : TrieState D2) h n : get_node s h = Ok (Some n) → knows s h n.
Proof.
  destruct h as [x|e]; cbn [get_node].
  - destruct (cache_get _ _) as [n'|] eqn:E.
    + intros [= <-]. left. by apply cache_get_elem.
    + cbn [node_hash_to_vec]. intros Hg. apply bind_Ok in Hg as ([rlp|] & Hg & Hd); [|done].
      apply bind_Ok in Hd as (n' & Hd & [= <-]). apply map_err_Ok in Hd. right. eauto.
  - intros Hg. apply bind_Ok in Hg as (n' & Hd & [= <-]). by apply map_err_Ok in Hd.
Qed.

Lemma require_node_Ok (s : TrieState D2) h n : require_node s h = Ok n → knows s h n.
Proof.
  unfold require_node. intros Hr. apply bind_Ok in Hr as (o & Hg & Ho).
  apply ok_or_Ok in Ho as ->. by apply get_node_Some.
Qed.

Lemma node_get_sound (s1 : TrieState D1) (s2 : TrieState D2) n m k fuel r :
  agree s1 s2 → Rep s1 n m → nibbles k →
  node_get fuel s2 n (k ++ [16]) = Ok r → r = m k.
Proof.
  intros Ha Hr. revert k fuel.
  induction Hr as [k0 v m Hk0 Hne Hb Hm|p cs v m' m Hp Hne Hkn Hr IH Hm|f v m Hkn Hf IH Hb Ht Hm];
    intros k [|fuel] Hk; try done; cbn [node_get]; rewrite Hm by done.
  - unfold leaf_get, single, upd. case_decide as E; case_decide as E2; intros; simplify_eq; try done.
    by apply app_flag_inj in E.
  - unfold extension_get, under. rewrite skip_prefix_flag by done.
    destruct (Nibbles.skip_prefix k p) as [q|] eqn:E; cbn; [|congruence].
    intros Hg. apply bind_Ok in Hg as (n' & Hn' & Hg). apply require_node_Ok in Hn'.
    assert (n' = Branch cs v) as -> by (symmetry; by eapply Ha).
    apply skip_prefix_Some in E as ->. apply nibbles_app in Hk as [_ Hk]. by eapply IH.
  - unfold branch_get. destruct k as [|x k]; cbn [app].
    + cbn. unfold value_of. destruct v; congruence.
    + apply Forall_cons in Hk as [Hx Hk]. rewrite next_choice_nibble by done.
      apply nibble_index in Hx as [Hx _]. rewrite choice_at_slots by done.
      cbn [mbind outcome_bind option_bind branch_map].
      destruct (slot_cases s1 f (Z.to_nat x)) as [(n & m' & Hi & -> & Hh & Hkn' & _)|[Hi ->]].
      { intros i n' m'' Hi. split; [by eapply Hkn|by eapply Hf]. }
      * intros Hg. apply bind_Ok in Hg as (n' & Hn' & Hg). apply require_node_Ok in Hn'.
        assert (n' = n) as -> by (symmetry; by eapply Ha). rewrite Hi. cbn. by eapply IH.
      * rewrite Hi. cbn. congruence.
Qed.

Lemma trie_get_sound (t1 : Trie D1) (t2 : Trie D2) M key r :
  trie_ok t1 M → agree (state t1) (state t2) → root t1 = root t2 → bytes key →
  trie_get t2 key = Ok r → r = M !! key.
Proof.
  intros [HM Ht] Ha He Hk. unfold trie_get. rewrite He in Ht. destruct (root t2) as [h|].
  - destruct Ht as (n & -> & Hkn & Hr). intros Hg. apply bind_Ok in Hg as (n' & Hn' & Hg).
    apply require_node_Ok in Hn'. assert (n' = n) as -> by (symmetry; by eapply Ha).
    rewrite from_bytes_nibs in Hg. rewrite <-view_nibs by done.
    eapply (node_get_sound _ (state t2)); [done|exact Hr|by apply nibs_spec|exact Hg].
  - subst. rewrite lookup_empty. congruence.
Qed.

End Sound.

(** ** The nodes on a path *)

Section Path.
Context {D D2 : Type} `{TrieDB D, TrieDB D2} `{CryptoLaws}.

Implicit Types (s : TrieState D).

Lemma own_path_hashed n : ∀ e, e ∈ own_path n → e = encode_raw n.
Proof. intros e. unfold own_path. case_match; [|by intros ?%not_elem_of_nil]. apply list_elem_of_singleton. Qed.

(** [path_nodes s n k ns]: the nodes below [n] on the way to [k]. *)
Lemma node_get_path_spec s n m k fuel :
  collision_free s → Rep s n m → nibbles k → (length k < fuel)%nat →
  ∃ ns, node_get_path fuel s n (k ++ [16]) = Ok (own_path n ++ (ns ≫= own_path)) ∧
    Forall node_ok ns ∧
    ∀ s2 : TrieState D2, collision_free s2 → Forall (λ n, knows s2 (compute_hash n) n) ns →
      node_get fuel s2 n (k ++ [16]) = Ok (m k).
Proof.
  intros Hc Hr. revert k fuel.
  induction Hr as [k0 v m Hk0 Hne Hb Hm|p cs v m' m Hp Hne Hkn Hr IH Hm|f v m Hkn Hf IH Hb Ht Hm];
    intros k [|fuel] Hk Hfuel; try lia.
  - exists []. split_and!; [cbn; by rewrite app_nil_r|constructor|]. intros s2 Hc2 _.
    cbn [node_get]. unfold leaf_get. rewrite Hm by done. unfold single, upd.
    case_decide as E; case_decide as E2; subst; try done. by apply app_flag_inj in E.
  - cbn [node_get_path node_get]. unfold extension_get. rewrite skip_prefix_flag by done.
    rewrite (require_node_knows s _ (Branch cs v)) by done.
    destruct (Nibbles.skip_prefix k p) as [q|] eqn:E; cbn [fmap option_fmap option_map].
    + apply skip_prefix_Some in E as ->. apply nibbles_app in Hk as Hk'. destruct Hk' as [_ Hk'].
      destruct (IH q fuel) as (ns & Hp1 & Hok & Hg); [done| |].
      { rewrite length_app in Hfuel. destruct p; [done|]. cbn in Hfuel. lia. }
      exists (Branch cs v :: ns). split_and!.
      * cbn [mbind outcome_bind]. by rewrite Hp1.
      * constructor; [by eapply (Rep_node_ok s)|done].
      * intros s2 Hc2 [Hk2 Hns]%Forall_cons. rewrite (require_node_knows s2 _ (Branch cs v)) by done.
        cbn [mbind outcome_bind]. rewrite Hm by done. rewrite under_app. by apply Hg.
    + exists []. split_and!; [cbn; by rewrite app_nil_r|constructor|]. intros s2 Hc2 _.
      rewrite Hm by done. unfold under. by rewrite E.
  - destruct k as [|x k]; cbn [app node_get_path node_get]; unfold branch_get.
    { exists []. split_and!; [cbn; by rewrite app_nil_r|constructor|]. intros s2 Hc2 _.
      cbn. rewrite Hm by constructor. cbn. unfold value_of. by destruct v. }
    apply Forall_cons in Hk as Hk'. destruct Hk' as [Hx Hk']. rewrite next_choice_nibble by done.
    rewrite (Hm (x :: k)) by done. cbn [branch_map].
    apply nibble_index in Hx as [Hx _]. rewrite choice_at_slots by done. cbn [mbind outcome_bind].
    destruct (slot_cases s f (Z.to_nat x)) as [(n & m' & Hi & -> & Hh & Hkn' & Hrn)|[Hi ->]].
    { intros i n' m'' Hi. split; [by eapply Hkn|by eapply Hf]. }
    + destruct (IH _ n m' Hi k fuel) as (ns & Hp1 & Hok & Hg); [done|cbn in Hfuel; lia|].
      rewrite Hh in *. exists (n :: ns). rewrite (require_node_knows s _ n) by done. split_and!.
      * cbn [mbind outcome_bind]. by rewrite Hp1.
      * constructor; [by eapply (Rep_node_ok s)|done].
      * intros s2 Hc2 [Hk2 Hns]%Forall_cons. rewrite (require_node_knows s2 _ n) by done.
        cbn [mbind outcome_bind]. rewrite Hi. by apply Hg.
    + exists []. split_and!; [cbn; by rewrite app_nil_r|constructor|]. intros s2 Hc2 _. by rewrite Hi.
Qed.

End Path.

(** ** A trie from nodes *)

Section FromNodes.
Context {D : Type} `{TrieDB D} `{CryptoLaws}.

(** The encodings of nodes that fit in memory. *)
Definition encodings (encs : list (list Z)) : Prop :=
  ∀ e, e ∈ encs → len e ≤ isize_max ∧ ∃ n, node_ok n ∧ e = encode_raw n.

Lemma insert_self_run {D'} `{TrieDB D'} n (s : TrieState D') :
  node_ok n → ∃ s', insert_self n s = (Ok (compute_hash n), s') ∧ extends s s' ∧
    knows s' (compute_hash n) n.
Proof.
  intros Hn. pose proof (grows_insert_self n s) as Hg.
  unfold insert_self, insert_node, mbind, tm_bind, mret, tm_ret in *. cbn [fst snd] in *.
  eexists. split; [done|]. split; [done|].
  unfold compute_hash, from_encoded_raw. destruct (32 <=? len (encode_raw n)) eqn:E; propify.
  - left. constructor.
  - by apply knows_inline.
Qed.

Lemma insert_nodes_spec encs s :
  encodings encs →
  ∃ s', insert_nodes encs s = (Ok (), s') ∧ extends s s' ∧
    ∀ n, node_ok n → encode_raw n ∈ encs → knows s' (compute_hash n) n.
Proof.
  revert s. induction encs as [|e encs IH]; intros s Henc.
  { exists s. split_and!; [done|done|]. by intros n _ ?%not_elem_of_nil. }
  destruct (Henc e) as (Hl & n & Hn & ->); [constructor|].
  cbn [insert_nodes]. unfold mbind at 1, tm_bind at 1, liftT. rewrite decode_encode_raw by done. cbn [map_err].
  destruct (insert_self_run n s Hn) as (s1 & Hi & He1 & Hk1).
  unfold mbind at 1, tm_bind at 1. rewrite Hi.
  destruct (IH s1) as (s2 & -> & He2 & Hk2).
  { intros e' He'. apply Henc. by constructor. }
  exists s2. split_and!; [done|by etrans|]. intros n' Hn' [He|Hin]%elem_of_cons; [|by apply Hk2].
  assert (n' = n) as ->.
  { pose proof (decode_encode_raw n Hn Hl) as Hd. rewrite <-He in Hl, Hd.
    rewrite decode_encode_raw in Hd by done. congruence. }
  by eapply knows_extends.
Qed.

Lemma swap_remove_0_perm {A} (x : A) l : ∃ l', swap_remove_0 (x :: l) = Ok l' ∧ l' ≡ₚ l.
Proof.
  cbn. destruct l as [|y l] using rev_ind; [by eexists|].
  rewrite last_snoc, removelast_last. eexists. split; [done|]. apply Permutation_cons_append.
Qed.

Implicit Types (t : Trie D) (M : gmap (list Z) (list Z)).

(** Nodes that answer [key] below the root [n]. *)
Definition answers (n : Node) M (key : list Z) (ns : list Node) : Prop :=
  Forall node_ok ns ∧
  ∀ s2 : TrieState NullTrieDB, collision_free s2 →
    Forall (λ n, knows s2 (compute_hash n) n) ns →
    let path := Nibbles.from_bytes key in
    node_get (trie_fuel path) s2 n path = Ok (M !! key).

Lemma get_proof_spec t M n key :
  trie_ok t M → collision_free (state t) → bytes key → root t = Some (compute_hash n) →
  knows (state t) (compute_hash n) n →
  ∃ ns, get_proof t key = Ok (encode_raw n :: (ns ≫= own_path)) ∧ answers n M key ns.
Proof.
  intros [HM Ht] Hc Hk Hroot Hkn. rewrite Hroot in Ht. destruct Ht as (n' & Hn' & Hkn' & Hr).
  assert (n' = n) as -> by (eapply Hc; [exact Hkn'|done]).
  destruct (nibs_spec key Hk) as (Hnib & _).
  destruct (node_get_path_spec (D2 := NullTrieDB) (state t) n (view M) (nibs key)
    (trie_fuel (Nibbles.from_bytes key))) as (ns & Hp & Hok & Hg); [done..| |].
  { rewrite from_bytes_nibs. unfold trie_fuel. rewrite length_app. lia. }
  exists ns. split; [|split; [done|]].
  - unfold get_proof. rewrite Hroot, (get_node_knows _ _ n) by done. cbn [mbind outcome_bind].
    rewrite from_bytes_nibs in Hp |- *. rewrite Hp. cbn [mbind outcome_bind].
    unfold own_path at 1, compute_hash, from_encoded_raw.
    by destruct (32 <=? len (encode_raw n)).
  - intros s2 Hc2 Hns. cbn zeta. rewrite from_bytes_nibs in Hg |- *.
    rewrite Hg by done. by rewrite view_nibs.
Qed.

Lemma proofs_of_spec t M n paths :
  trie_ok t M → collision_free (state t) → Forall bytes paths →
  root t = Some (compute_hash n) → knows (state t) (compute_hash n) n →
  ∃ l, proofs_of t paths = Ok l ∧ (∀ e, e ∈ l → ∃ n, node_ok n ∧ e = encode_raw n) ∧
    Forall (λ key, ∃ ns, answers n M key ns ∧ ∀ e, e ∈ ns ≫= own_path → e ∈ l) paths.
Proof.
  intros Ht Hc Hps Hroot Hkn. induction Hps as [|key paths Hk Hps IH].
  { exists []. split_and!; [done|by intros e ?%not_elem_of_nil|constructor]. }
  destruct IH as (l & Hl & Hen & Hall).
  destruct (get_proof_spec t M n key) as (ns & Hp & Hans); [done..|].
  destruct (swap_remove_0_perm (encode_raw n) (ns ≫= own_path)) as (l' & Hs & Hperm).
  exists (l' ++ l). cbn [proofs_of]. rewrite Hp. cbn [mbind outcome_bind]. rewrite Hs.
  cbn [mbind outcome_bind]. rewrite Hl. split_and!; [done| |].
  - intros e [He|He]%elem_of_app; [|by apply Hen]. rewrite Hperm in He.
    apply list_elem_of_bind in He as (n1 & He & Hn1). apply own_path_hashed in He as ->.
    exists n1. split; [|done]. destruct Hans as [Hok _]. by apply (proj1 (Forall_forall _ _) Hok).
  - constructor.
    + exists ns. split; [done|]. intros e He. apply elem_of_app. left. by rewrite Hperm.
    + eapply Forall_impl; [exact Hall|]. intros key' (ns' & ? & Hin). exists ns'. split; [done|].
      intros e He. apply elem_of_app. right. by apply Hin.
Qed.

Lemma from_nodes_spec n encs :
  encodings (encode_raw n :: encs) → node_ok n →
  ∃ u, from_nodes (Some (encode_raw n)) encs = Ok u ∧ root u = Some (compute_hash n) ∧
    knows (state u) (compute_hash n) n ∧
    ∀ n, node_ok n → encode_raw n ∈ encs → knows (state u) (compute_hash n) n.
Proof.
  intros Henc Hn. destruct (Henc (encode_raw n)) as (Hl & _); [constructor|].
  unfold from_nodes. cbn zeta. unfold mbind, tm_bind, liftT. rewrite decode_encode_raw by done.
  cbn [map_err]. destruct (insert_self_run n (state stateless) Hn) as (s1 & -> & He1 & Hk1).
  unfold mret, tm_ret. destruct (insert_nodes_spec encs s1) as (s2 & -> & He2 & Hk2).
  { intros e He. apply Henc. by constructor. }
  cbn. eexists. split_and!; [done|done| |done]. cbn. by eapply knows_extends.
Qed.

Lemma get_proofs_complete t M paths :
  trie_ok t M → collision_free (state t) → Forall bytes paths →
  ∃ root_enc l, get_proofs t paths = Ok (root_enc, l) ∧
    ∀ nodes, nodes ≡ₚ l →
      Forall (λ e, len e ≤ isize_max) (option_list root_enc ++ nodes) →
      ∃ u, from_nodes root_enc nodes = Ok u ∧ root u = root t ∧
        (collision_free (state u) → ∀ key, key ∈ paths → trie_get u key = Ok (M !! key)).
Proof.
  intros Ht Hc Hps. destruct Ht as [HM Ht'] eqn:Et. clear Et.
  unfold get_proofs. destruct (root t) as [h|] eqn:Eroot.
  - destruct Ht' as (n & -> & Hkn & Hr). pose proof (Rep_node_ok _ _ _ Hr) as Hnok.
    destruct (proofs_of_spec t M n paths) as (l & Hl & Hen & Hall); [|done..|].
    { split; [done|]. rewrite Eroot. eauto. }
    rewrite (get_node_knows _ _ n) by done. cbn [mbind outcome_bind]. rewrite Hl.
    exists (Some (encode_raw n)), (remove_dups l). split; [done|]. intros nodes Hperm Hsz.
    assert (∀ e, e ∈ nodes ↔ e ∈ l) as Hmem by (intros e; by rewrite Hperm, elem_of_remove_dups).
    assert (encodings (encode_raw n :: nodes)) as Henc.
    { intros e He. split; [by apply (proj1 (Forall_forall _ _) Hsz)|].
      apply elem_of_cons in He as [->|He]; [by exists n|]. by apply Hen, Hmem. }
    destruct (from_nodes_spec n nodes Henc Hnok) as (u & Hf & Hroot2 & Hk2 & Hks).
    exists u. split_and!; [done|by rewrite Hroot2|]. intros Hc2 key Hkey.
    destruct (proj1 (Forall_forall _ _) Hall key Hkey) as (ns & [Hok Hans] & Hin).
    unfold trie_get. rewrite Hroot2, (require_node_knows _ _ n) by done. cbn [mbind outcome_bind].
    apply Hans; [done|]. apply Forall_forall. intros n1 Hn1.
    assert (node_ok n1) as Hok1 by (by apply (proj1 (Forall_forall _ _) Hok)).
    unfold compute_hash, from_encoded_raw in *. destruct (32 <=? len (encode_raw n1)) eqn:E; propify.
    + pose proof (Hks n1 Hok1) as Hk1. rewrite (proj2 (Z.leb_le _ _)) in Hk1 by done. apply Hk1.
      apply Hmem, Hin. apply list_elem_of_bind. exists n1. split; [|done].
      unfold own_path. rewrite (proj2 (Z.leb_le _ _)) by done. constructor.
    + by apply knows_inline.
  - subst M. exists None, []. split; [done|]. intros nodes Hn%Permutation_nil_r _. subst.
    exists stateless. split_and!; [done|done|]. intros _ key _. by rewrite lookup_empty.
Qed.

End FromNodes.
