(* ===== verification/TrieIter.v ===== *)
(** * Trie: iteration

    [TrieIterator] visits the nodes depth first; [content] lists the keys with
    their values.  The list is the map, in the lexicographic order of keys. *)

From stdpp Require Import base option list numbers strings gmap sorting.
From S2P Require Import Prelude Rlp RlpProofs LevmHost.
From S2P Require Import TrieNode TrieCodec Trie TrieLogic TrieMap TrieOps TrieCorrect.

Local Open Scope Z_scope.

(** ** The order of keys *)

Definition before (a b : list Z * list Z) : Prop := Nibbles.cmp a.1 b.1 = Lt.

Lemma cmp_app p a b : Nibbles.cmp (p ++ a) (p ++ b) = Nibbles.cmp a b.
Proof. induction p as [|x p IH]; [done|]. cbn. by rewrite Z.compare_refl. Qed.

Lemma cmp_cons_lt x y a b : x < y → Nibbles.cmp (x :: a) (y :: b) = Lt.
Proof. intros Hlt. cbn. by rewrite (proj2 (Z.compare_lt_iff x y) Hlt). Qed.

Lemma compare_byte_nibbles a b : byte a → byte b →
  Z.compare a b = match Z.compare (a / 16) (b / 16) with
                  | Eq => Z.compare (a mod 16) (b mod 16) | c => c end.
Proof.
  intros _ _. pose proof (Z.div_mod a 16). pose proof (Z.div_mod b 16).
  pose proof (Z.mod_pos_bound a 16). pose proof (Z.mod_pos_bound b 16).
  destruct (Z.compare_spec (a / 16) (b / 16)) as [E|E|E].
  - destruct (Z.compare_spec (a mod 16) (b mod 16));
      [apply Z.compare_eq_iff|apply Z.compare_lt_iff|apply Z.compare_gt_iff]; lia.
  - apply Z.compare_lt_iff. lia.
  - apply Z.compare_gt_iff. lia.
Qed.

(** The order of keys is that of their nibbles. *)
Lemma cmp_nibs a b : bytes a → bytes b → Nibbles.cmp (nibs a) (nibs b) = Nibbles.cmp a b.
Proof.
  intros Ha. revert b. induction Ha as [|x a Hx Ha IH]; intros b Hb.
  - destruct Hb as [|y b Hy Hb]; [done|]. by rewrite nibs_cons.
  - destruct Hb as [|y b Hy Hb]; [by rewrite nibs_cons|]. rewrite !nibs_cons by done.
    cbn [Nibbles.cmp]. rewrite (compare_byte_nibbles x y) by done. rewrite IH by done.
    destruct (x / 16 ?= y / 16); [|done|done]. by destruct (x mod 16 ?= y mod 16).
Qed.

Lemma StronglySorted_app_2 {A} (R : A → A → Prop) l1 l2 :
  StronglySorted R l1 → StronglySorted R l2 → (∀ a b, a ∈ l1 → b ∈ l2 → R a b) →
  StronglySorted R (l1 ++ l2).
Proof.
  intros H1 H2 Hlt. induction H1 as [|a l1 H1 IH Ha]; [done|]. cbn. constructor.
  - apply IH. intros x y Hx. apply Hlt. by constructor.
  - apply Forall_app. split; [done|]. apply Forall_forall. intros b Hb. apply Hlt; [constructor|done].
Qed.

(** ** The entries below a node *)

Section Iter.
Context {D : Type} `{TrieDB D} `{CryptoLaws}.
Context (t : Trie D) (Hc : collision_free (state t)).

Notation s := (state t).
Notation at_stack stk := {| it_trie := t; stack := stk |}.

(** [out] lists the entries of [m] below the path [pre], in order. *)
Definition lists (pre : list Z) (m : Map) (out : list (list Z * list Z)) : Prop :=
  StronglySorted before out ∧
  ∀ k v, (k, v) ∈ out ↔ ∃ q, nibbles q ∧ k = pre ++ q ∧ m q = Some v.

Definition emit (out : list (list Z * list Z)) : list (list Z * list Z) :=
  (λ e, (Nibbles.chunks e.1, e.2)) <$> out.

(** [content] on [stk ++ rest] emits [out], then what [rest] has. *)
Definition yields (stk : list (Nibbles * NodeHash)) (out : list (list Z * list Z)) : Prop :=
  ∃ cost, ∀ fuel rest,
    content (cost + fuel) (at_stack (stk ++ rest)) =
    (o ← content fuel (at_stack rest); Ok (emit out ++ o)).

Lemma yields_nil : yields [] [].
Proof. exists O. intros fuel rest. cbn. by destruct (content fuel _). Qed.

Lemma yields_app stk1 stk2 out1 out2 :
  yields stk1 out1 → yields stk2 out2 → yields (stk1 ++ stk2) (out1 ++ out2).
Proof.
  intros [c1 H1'] [c2 H2']. exists (c1 + c2)%nat. intros fuel rest.
  rewrite <-Nat.add_assoc, <-app_assoc, H1', H2'.
  destruct (content fuel _); cbn; [|done..]. unfold emit. by rewrite fmap_app, app_assoc.
Qed.

Definition own_entry (p : Nibbles) (n : Node) : list (list Z * list Z) :=
  match n with
  | Branch _ v => if vec_is_empty v then [] else [(Nibbles.to_bytes p, v)]
  | Extension _ _ => []
  | Leaf _ v => [(Nibbles.to_bytes p, v)]
  end.

(** One visit: the node's own entry, then those of the stack it leaves. *)
Lemma yields_visit pre h n stk out own :
  knows s h n → (∀ rest, (iter_push pre n rest).2 = stk ++ rest) →
  own_entry (iter_push pre n []).1 n = emit own →
  yields stk out → yields [(pre, h)] (own ++ out).
Proof.
  intros Hk Hpush Hown [c Hy]. exists (S c). intros fuel rest. cbn [content app Nat.add].
  unfold iter_next. cbn [stack it_trie]. rewrite (get_node_knows _ _ n) by done.
  assert ((iter_push pre n rest).1 = (iter_push pre n []).1) as Hp by (by destruct n).
  specialize (Hpush rest). destruct (iter_push pre n rest) as [p stk'] eqn:Ep. cbn in Hpush, Hp.
  subst stk' p. cbn [mbind outcome_bind]. rewrite Hy.
  unfold emit in *. rewrite fmap_app, <-Hown.
  destruct (content fuel _) as [o| | |]; cbn; [|done..]. f_equal. rewrite <-app_assoc.
  destruct n as [cs v|p c'|p v]; cbn; [|done|done]. by destruct (vec_is_empty v).
Qed.

Lemma lists_under pre p m m' out :
  nibbles p → meq m' (under p m) → lists (pre ++ p) m out → lists pre m' out.
Proof.
  intros Hp Hm [Hs Hin]. split; [done|]. intros k v. rewrite Hin. split.
  - intros (q & Hq & -> & Hv). exists (p ++ q). rewrite <-app_assoc.
    assert (nibbles (p ++ q)) by (by apply nibbles_app). split_and!; try done.
    rewrite Hm by done. by rewrite under_app.
  - intros (q & Hq & -> & Hv). rewrite Hm in Hv by done. apply under_Some in Hv as (r & -> & Hv).
    apply nibbles_app in Hq as [_ Hq]. exists r. by rewrite <-app_assoc.
Qed.

Lemma to_bytes_flagged leaf k : nibbles k → Nibbles.to_bytes (flagged leaf k) = Nibbles.chunks k.
Proof.
  intros Hk. unfold Nibbles.to_bytes. rewrite is_leaf_flagged by done.
  by rewrite removelast_flagged.
Qed.

Lemma to_bytes_plain k : nibbles k → Nibbles.to_bytes k = Nibbles.chunks k.
Proof. intros Hk. rewrite <-(to_bytes_flagged false) by done. unfold flagged. by rewrite app_nil_r. Qed.

(** ** The children of a branch *)

Lemma children_slots f :
  slots_ok s f →
  children (choices_of f) =
    (λ i, (i, slot_hash (f i))) <$> filter (λ i, is_Some (f i)) (seq 0 16).
Proof.
  intros Hf. unfold children.
  assert (imap pair (choices_of f) = (λ i, (i, slot_hash (f i))) <$> seq 0 16) as -> by done.
  induction (seq 0 16) as [|i l IH]; [done|]. rewrite fmap_cons, !filter_cons. cbn [snd].
  destruct (slot_cases s f i Hf) as [(n & m & Hi & Hv & _)|[Hi Hv]].
  - rewrite decide_True by done. rewrite decide_True by (rewrite Hi; eauto). by rewrite IH.
  - rewrite decide_False by (rewrite Hv; done). rewrite decide_False by (rewrite Hi; by intros []).
    apply IH.
Qed.

Lemma iter_push_branch pre cs v rest :
  iter_push pre (Branch cs v) rest =
    (pre, ((λ c, (pre ++ [Z.of_nat c.1], c.2)) <$> children cs) ++ rest).
Proof.
  unfold iter_push, children. f_equal. induction (imap pair cs) as [|[i h] l IH]; [done|].
  cbn [foldr]. rewrite filter_cons. cbn [snd]. case_decide as E.
  - rewrite E, IH. done.
  - apply not_true_is_false in E. by rewrite E, IH.
Qed.

(** The children with the indices [ix], which increase. *)
Lemma children_yield f pre ix :
  slots_ok s f → nibbles pre → StronglySorted lt ix → Forall (λ i, (i < 16)%nat ∧ is_Some (f i)) ix →
  (∀ i n m, f i = Some (n, m) → ∀ pre, nibbles pre → ∃ out, lists pre m out ∧ yields [(pre, compute_hash n)] out) →
  ∃ out, yields ((λ i, (pre ++ [Z.of_nat i], slot_hash (f i))) <$> ix) out ∧
    StronglySorted before out ∧
    ∀ k v, (k, v) ∈ out ↔ ∃ i q, i ∈ ix ∧ nibbles q ∧ k = pre ++ Z.of_nat i :: q ∧
      (f i ≫= λ '(_, m), m q) = Some v.
Proof.
  intros Hf Hpre Hs His IH. induction Hs as [|i ix Hs IHs Hlt].
  { exists []. split_and!; [apply yields_nil|constructor|]. intros k v. split.
    - by intros ?%not_elem_of_nil.
    - by intros (i & q & ?%not_elem_of_nil & _). }
  apply Forall_cons in His as [[Hi [[n m] Hn]] His].
  destruct (IHs His) as (out2 & Hy2 & Hs2 & Hin2).
  assert (nibbles (pre ++ [Z.of_nat i])) as Hpi.
  { apply nibbles_app. split; [done|]. constructor; [by apply index_nibble|constructor]. }
  destruct (IH i n m Hn (pre ++ [Z.of_nat i]) Hpi) as (out1 & [Hs1 Hin1] & Hy1).
  exists (out1 ++ out2). split_and!.
  - rewrite fmap_cons. change (?a :: ?b) with ([a] ++ b). apply yields_app; [|done].
    by rewrite Hn.
  - apply StronglySorted_app_2; [done..|]. intros [k1 v1] [k2 v2] H1'%Hin1 H2'%Hin2.
    destruct H1' as (q1 & _ & -> & _), H2' as (j & q2 & Hj & _ & -> & _).
    unfold before. cbn [fst]. rewrite <-app_assoc, cmp_app. apply cmp_cons_lt.
    apply (proj1 (Forall_forall _ _) Hlt) in Hj. lia.
  - intros k v. rewrite elem_of_app, Hin1, Hin2. split.
    + intros [(q & Hq & -> & Hv)|(j & q & Hj & Hq & -> & Hv)].
      * exists i, q. split_and!; [constructor|done|by rewrite <-app_assoc|by rewrite Hn].
      * exists j, q. split_and!; try done. by constructor.
    + intros (j & q & [->|Hj]%elem_of_cons & Hq & -> & Hv).
      * left. exists q. rewrite Hn in Hv. by rewrite <-app_assoc.
      * right. eauto 6.
Qed.

Lemma seq_sorted a n : StronglySorted lt (seq a n).
Proof.
  revert a. induction n as [|n IH]; intros a; constructor; [apply IH|].
  apply Forall_forall. intros x Hx%elem_of_seq. lia.
Qed.

Lemma StronglySorted_filter_2 {A} (R : A → A → Prop) (P : A → Prop) `{∀ x, Decision (P x)} l :
  StronglySorted R l → StronglySorted R (filter P l).
Proof.
  induction 1 as [|a l Hl IH Ha]; [constructor|]. rewrite filter_cons. case_decide; [|done].
  constructor; [done|]. apply Forall_forall. intros x [_ Hx]%list_elem_of_filter.
  by apply (proj1 (Forall_forall _ _) Ha).
Qed.

Lemma node_yields n m :
  Rep s n m → ∀ pre, nibbles pre → knows s (compute_hash n) n →
  ∃ out, lists pre m out ∧ yields [(pre, compute_hash n)] out.
Proof.
  induction 1 as [k v m Hk Hne Hb Hm|p cs v m' m Hp Hne Hkn Hr IH Hm|f v m Hkn Hf IH Hb Ht Hm];
    intros pre Hpre Hk0.
  - exists [(pre ++ k, v)]. split.
    + split; [repeat constructor|]. intros k' v'. rewrite list_elem_of_singleton. split.
      * intros [= -> ->]. exists k. rewrite Hm by done. unfold single, upd. by rewrite decide_True.
      * intros (q & Hq & -> & Hv). rewrite Hm in Hv by done. unfold single, upd in Hv.
        case_decide; naive_solver.
    + change [(pre ++ k, v)] with ([(pre ++ k, v)] ++ []).
      eapply (yields_visit _ _ _ []); [exact Hk0|done| |apply yields_nil].
      cbn. unfold emit. cbn. rewrite app_assoc.
      pose proof (to_bytes_flagged true (pre ++ k)) as Hb'. unfold flagged in Hb'.
      rewrite Hb' by (by apply nibbles_app). done.
  - destruct (IH (pre ++ p)) as (out & Hl & Hy); [by apply nibbles_app|done|].
    exists out. split; [by apply (lists_under pre p m' m out)|].
    change out with ([] ++ out).
    eapply (yields_visit _ _ _ [(pre ++ p, compute_hash (Branch cs v))]); [exact Hk0|done|done|done].
  - assert (slots_ok s f) as Hf' by (intros i n m' Hi; eauto).
    destruct (children_yield f pre (filter (λ i, is_Some (f i)) (seq 0 16))) as (out & Hy & Hs & Hin);
      [done|done|apply StronglySorted_filter_2, seq_sorted| | |].
    { apply Forall_forall. intros i [Hi Hs]%list_elem_of_filter. apply elem_of_seq in Hs. split; [lia|done]. }
    { intros i n m' Hi pre' Hpre'. apply (IH i n m' Hi); [done|]. eauto. }
    assert (∀ k' v', (k', v') ∈ out ↔ ∃ x q, nibble x ∧ nibbles q ∧ k' = pre ++ x :: q ∧
      m (x :: q) = Some v') as Hin'.
    { intros k' v'. rewrite Hin. split.
      - intros (i & q & [_ Hi%elem_of_seq]%list_elem_of_filter & Hq & -> & Hv).
        assert (nibble (Z.of_nat i)) as Hx by (apply index_nibble; lia).
        exists (Z.of_nat i), q. split_and!; try done.
        rewrite Hm by (by constructor). cbn. by rewrite Nat2Z.id.
      - intros (x & q & Hx & Hq & -> & Hv). rewrite Hm in Hv by (by constructor). cbn in Hv.
        destruct (nibble_index x Hx) as [Hi Hz]. exists (Z.to_nat x), q. rewrite Hz.
        split_and!; try done. apply list_elem_of_filter. split; [by destruct (f (Z.to_nat x))|].
        apply elem_of_seq. lia. }
    set (own := if vec_is_empty v then [] else [(pre, v)]). exists (own ++ out). split.
    + split.
      * apply StronglySorted_app_2; [subst own; case_match; repeat constructor|done|].
        intros [k1 v1] [k2 v2] H1' H2'%Hin'. destruct H2' as (x & q & _ & _ & -> & _).
        subst own. destruct (vec_is_empty v); [by apply not_elem_of_nil in H1'|].
        apply list_elem_of_singleton in H1' as [= -> ->]. unfold before. cbn [fst].
        rewrite <-(app_nil_r pre) at 1. by rewrite cmp_app.
      * intros k' v'. rewrite elem_of_app, Hin'. split.
        -- intros [Ho|(x & q & Hx & Hq & -> & Hv)]; [|exists (x :: q); split; [by constructor|done]].
           subst own. exists []. destruct (vec_is_empty v) eqn:Ev; [by apply not_elem_of_nil in Ho|].
           apply list_elem_of_singleton in Ho as [= -> ->]. split; [constructor|].
           rewrite app_nil_r, Hm by constructor. cbn. unfold value_of. by rewrite Ev.
        -- intros ([|x q] & Hq & -> & Hv).
           ++ left. rewrite Hm in Hv by done. cbn in Hv. unfold value_of in Hv. subst own.
              destruct (vec_is_empty v); [done|]. simplify_eq. rewrite app_nil_r. constructor.
           ++ right. apply Forall_cons in Hq as [Hx Hq]. eauto 6.
    + eapply yields_visit; [exact Hk0| | |exact Hy].
      * intros rest. rewrite iter_push_branch. cbn [snd]. rewrite children_slots by done.
        by rewrite <-list_fmap_compose.
      * rewrite iter_push_branch. cbn [fst own_entry]. subst own.
        destruct (vec_is_empty v); [done|]. unfold emit. cbn. by rewrite to_bytes_plain.
Qed.

End Iter.

(** ** The content of a trie *)

Lemma chunks_pack k : nibbles k → Nat.even (length k) = true → Nibbles.chunks k = Nibbles.pack k.
Proof.
  induction k as [k IH] using (induction_ltof1 _ (@length Z)). unfold ltof in IH.
  intros Hk He. destruct k as [|a [|b k]]; [done|done|].
  inversion Hk as [|? ? Ha Hk']; inversion Hk' as [|? ? Hb Hk'']; subst.
  cbn [Nibbles.chunks Nibbles.pack]. rewrite IH; [|cbn; lia|done|done]. f_equal.
  clear -Ha Hb. unfold nibble, wrap in *. change (2 ^ 8) with 256.
  rewrite Z.shiftl_mul_pow2 by lia. change (2 ^ 4) with 16.
  rewrite (Z.mod_small (a * 16)), (Z.mod_small (a * 16 + b)) by lia.
  rewrite <-Z.add_lor_land. enough (Z.land (a * 16) b = 0) as -> by lia.
  apply Z.bits_inj'. intros i Hi. rewrite Z.land_spec, Z.bits_0.
  change 16 with (2 ^ 4). destruct (decide (i < 4)).
  - by rewrite Z.mul_pow2_bits_low by lia.
  - rewrite (Z.bits_above_log2 b i), andb_false_r; [done|lia|].
    destruct (decide (b = 0)) as [->|]; [cbn; lia|]. apply Z.log2_lt_pow2; [lia|].
    assert (2 ^ 4 ≤ 2 ^ i) by (apply Z.pow_le_mono_r; lia). lia.
Qed.

Lemma content_ok {D} `{TrieDB D} `{CryptoLaws} (t : Trie D) M :
  trie_ok t M → collision_free (state t) →
  ∃ fuel0 out, (∀ fuel, (fuel0 ≤ fuel)%nat → content fuel (iter_new t) = Ok out) ∧
    StronglySorted before out ∧ ∀ k v, (k, v) ∈ out ↔ M !! k = Some v.
Proof.
  intros [HM Ht] Hc. unfold iter_new. destruct (root t) as [h|] eqn:Eroot.
  - destruct Ht as (n & -> & Hkn & Hr).
    destruct (node_yields t Hc n (view M) Hr []) as (out & [Hs Hin] & cost & Hy); [constructor|done|].
    assert (∀ e, e ∈ out → nibbles e.1 ∧ Nat.even (length e.1) = true ∧ M !! Nibbles.pack e.1 = Some e.2)
      as Hout.
    { intros [k v] (q & Hq & -> & Hv)%Hin. cbn. unfold view in Hv.
      destruct (Nat.even (length q)) eqn:Ee; [|done]. done. }
    exists (cost + 1)%nat, (emit out). split_and!.
    + intros fuel Hf. replace fuel with (cost + S (fuel - cost - 1))%nat by lia.
      specialize (Hy (S (fuel - cost - 1)) []). rewrite app_nil_r in Hy. rewrite Hy. cbn.
      by rewrite app_nil_r.
    + clear -Hs Hout. unfold emit. induction Hs as [|e out Hs IH He]; [constructor|].
      rewrite fmap_cons. constructor; [apply IH; intros; apply Hout; by constructor|].
      apply Forall_fmap, Forall_forall. intros e' Hin.
      apply (proj1 (Forall_forall _ _) He) in Hin as Hlt.
      destruct (Hout e) as (Hk & Hev & _); [constructor|].
      destruct (Hout e') as (Hk' & Hev' & _); [by constructor|].
      unfold before in *. cbn. rewrite !chunks_pack by done.
      rewrite <-cmp_nibs by apply pack_bytes. by rewrite !nibs_pack.
    + intros k v. unfold emit. rewrite list_elem_of_fmap. split.
      * intros ([k' v'] & [= -> ->] & He). destruct (Hout _ He) as (Hk & Hev & Hv).
        cbn in *. by rewrite chunks_pack.
      * intros Hv. pose proof (HM _ _ Hv) as [Hk _]. destruct (nibs_spec k Hk) as (Hn & He & Hp & _).
        exists (nibs k, v). split; [cbn; by rewrite chunks_pack, Hp|]. apply Hin.
        exists (nibs k). split_and!; [done|done|]. by rewrite view_nibs.
  - subst M. exists 1%nat, []. split_and!; [|constructor|].
    + intros [|fuel] Hf; [lia|]. done.
    + intros k v. rewrite lookup_empty. split; [by intros ?%not_elem_of_nil|done].
Qed.
