(* ===== verification/TrieTheorems.v ===== *)
(** * Trie: the theorems

    What the trie promises to its callers (the state of accounts and storage,
    the roots of transactions and receipts, the proofs of the prover), with
    concrete tries on which the hypotheses hold. *)

From stdpp Require Import base option list numbers strings gmap sorting.
From S2P Require Import Prelude Rlp RlpProofs LevmHost LevmDemo.
From S2P Require Import TrieNode TrieCodec Trie TrieLogic TrieMap TrieOps TrieCorrect.
From S2P Require Import TrieCommit TrieProof TrieIter.

Local Open Scope Z_scope.

(** ** States without collisions *)

(** A check of the cache. *)
Definition consistent (c1 c2 : list (NodeHash * Node)) : bool :=
  forallb (λ e1, forallb (λ e2, bool_decide (e1.1 ≠ e2.1) || bool_decide (e1.2 = e2.2)) c2) c1.

Lemma consistent_spec c1 c2 h n1 n2 :
  consistent c1 c2 = true → (h, n1) ∈ c1 → (h, n2) ∈ c2 → n1 = n2.
Proof.
  unfold consistent. rewrite forallb_forall. intros Hc H1 H2.
  apply list_elem_of_In in H1, H2. specialize (Hc _ H1). rewrite forallb_forall in Hc.
  specialize (Hc _ H2). cbn in Hc. apply orb_true_iff in Hc as [Hc|Hc].
  - by apply bool_decide_eq_true in Hc.
  - by apply bool_decide_eq_true in Hc.
Qed.

Lemma agree_check {D1 D2} `{TrieDB D1, TrieDB D2} (s1 : TrieState D1) (s2 : TrieState D2) :
  (∀ x, db_get (db s1) x = Ok None) → (∀ x, db_get (db s2) x = Ok None) →
  consistent (cache s1) (cache s2) = true → agree s1 s2.
Proof.
  intros Hd1 Hd2 Hc [x|e] n1 n2; cbn; [|congruence].
  intros [Hk1|(r1 & Hr1 & _)] [Hk2|(r2 & Hr2 & _)]; try by rewrite ?Hd1, ?Hd2 in *.
  by eapply consistent_spec.
Qed.

Lemma collision_free_check {D} `{TrieDB D} (s : TrieState D) :
  (∀ x, db_get (db s) x = Ok None) → consistent (cache s) (cache s) = true → collision_free s.
Proof. intros Hd Hc. by apply agree_check. Qed.

Lemma collision_free_nil {D} `{TrieDB D} (d : D) : collision_free (Build_TrieState d []).
Proof.
  intros [x|e] n1 n2; cbn; [|congruence].
  intros [Hk|(r1 & Hr1 & Hd1)]; [by apply not_elem_of_nil in Hk|].
  intros [Hk|(r2 & Hr2 & Hd2)]; [by apply not_elem_of_nil in Hk|]. congruence.
Qed.

(** ** The trie is a map *)

(** C3 (refinement): from an empty trie, any sequence of [get], [insert] and
    [remove] ends, without error or panic, and returns what the same
    operations return on a finite map; the trie left answers every key as that
    map does.  The keys are bytes, the inserted values non-empty, and the nodes
    hashed on the way have no collision. *)
Theorem trie_refines_map {D} `{TrieDB D} `{CryptoLaws} (d : D) ops :
  Forall op_ok ops →
  let '(rs, t) := run_ops ops (trie_new d) in
  let '(os, M) := spec_ops ops ∅ in
  collision_free (state t) →
  rs = Ok <$> os ∧ ∀ key, bytes key → trie_get t key = Ok (M !! key).
Proof.
  intros Hops. pose proof (run_ops_ok ops (trie_new d) ∅ (trie_new_ok d) Hops) as Hr.
  destruct (run_ops ops (trie_new d)) as [rs t], (spec_ops ops ∅) as [os M]. cbn [fst snd] in Hr.
  intros Hc. destruct (Hr Hc) as [-> Ht]. split; [done|]. intros key Hk. by apply trie_get_ok.
Qed.

(** Six operations: an extension, a branch with a value, and its collapse. *)
Definition demo_value (b : Z) : list Z := replicate 40 b.
Definition demo_ops : list TrieOp :=
  [OpInsert [0x12; 0x34] (demo_value 1); OpInsert [0x12] (demo_value 2);
   OpInsert [0x12; 0x35] [7]; OpRemove [0x12]; OpGet [0x12; 0x34]; OpGet [0x12]].

Lemma demo_ops_ok : Forall op_ok demo_ops.
Proof. repeat constructor; try done; lia. Qed.

(** Evaluate a check on a concrete trie without a database. *)
Ltac check_nodes := intros; vm_compute; reflexivity.

Lemma demo_ops_free : collision_free (state (run_ops demo_ops (trie_new NullDB)).2).
Proof. apply collision_free_check; check_nodes. Qed.

Example trie_refines_map_witness :
  (run_ops demo_ops (trie_new NullDB)).1 =
    [Ok None; Ok None; Ok None; Ok (Some (demo_value 2)); Ok (Some (demo_value 1)); Ok None] ∧
  trie_get (run_ops demo_ops (trie_new NullDB)).2 [0x12; 0x35] = Ok (Some [7]).
Proof.
  pose proof (trie_refines_map NullDB demo_ops demo_ops_ok) as Hw.
  pose proof demo_ops_free as Hc.
  destruct (run_ops demo_ops (trie_new NullDB)) as [rs t]. cbn [fst snd] in Hc |- *.
  assert (spec_ops demo_ops ∅ = ((spec_ops demo_ops ∅).1, (spec_ops demo_ops ∅).2)) as Es
    by apply surjective_pairing.
  rewrite Es in Hw. destruct (Hw Hc) as [-> Hg]. split; [check_nodes|]. rewrite Hg.
  - check_nodes.
  - repeat constructor; lia.
Defined.

(** C11 (functional): the root hash is a function of the map.  Two sequences of
    operations, on tries over any databases, that leave the same map leave the
    same root, whatever the order of the operations. *)
Theorem root_hash_canonical {D1 D2} `{TrieDB D1, TrieDB D2} `{CryptoLaws} (d1 : D1) (d2 : D2)
    ops1 ops2 :
  let t1 := (run_ops ops1 (trie_new d1)).2 in
  let t2 := (run_ops ops2 (trie_new d2)).2 in
  Forall op_ok ops1 → Forall op_ok ops2 → collision_free (state t1) → collision_free (state t2) →
  (spec_ops ops1 ∅).2 = (spec_ops ops2 ∅).2 → hash_no_commit t1 = hash_no_commit t2.
Proof.
  intros t1 t2 Ho1 Ho2 Hc1 Hc2 He.
  destruct (run_ops_ok ops1 (trie_new d1) ∅ (trie_new_ok d1) Ho1 Hc1) as [_ Ht1].
  destruct (run_ops_ok ops2 (trie_new d2) ∅ (trie_new_ok d2) Ho2 Hc2) as [_ Ht2].
  rewrite <-He in Ht2. unfold hash_no_commit.
  by rewrite (trie_ok_canonical t1 t2 (spec_ops ops1 ∅).2 Ht1 Ht2).
Qed.

Definition demo_ops_2 : list TrieOp :=
  [OpInsert [0x12; 0x35] [7]; OpInsert [0x12; 0x34] (demo_value 1)].

Lemma demo_ops_2_ok : Forall op_ok demo_ops_2.
Proof. repeat constructor; try done; lia. Qed.

Lemma demo_ops_2_free : collision_free (state (run_ops demo_ops_2 (trie_new NullDB)).2).
Proof. apply collision_free_check; check_nodes. Qed.

Example root_hash_canonical_witness :
  hash_no_commit (run_ops demo_ops (trie_new NullDB)).2 =
  hash_no_commit (run_ops demo_ops_2 (trie_new NullDB)).2.
Proof.
  apply root_hash_canonical;
    [apply demo_ops_ok|apply demo_ops_2_ok|apply demo_ops_free|apply demo_ops_2_free|check_nodes].
Defined.

(** C16 (safety): the root binds the map.  Tries with the same root hold the
    same map, unless two nodes of them have the same hash. *)
Theorem root_binds_map {D1 D2} `{TrieDB D1, TrieDB D2} `{CryptoLaws} (d1 : D1) (d2 : D2)
    ops1 ops2 :
  let t1 := (run_ops ops1 (trie_new d1)).2 in
  let t2 := (run_ops ops2 (trie_new d2)).2 in
  Forall op_ok ops1 → Forall op_ok ops2 → collision_free (state t1) → collision_free (state t2) →
  agree (state t1) (state t2) → root t1 = root t2 →
  (spec_ops ops1 ∅).2 = (spec_ops ops2 ∅).2.
Proof.
  intros t1 t2 Ho1 Ho2 Hc1 Hc2 Ha He.
  destruct (run_ops_ok ops1 (trie_new d1) ∅ (trie_new_ok d1) Ho1 Hc1) as [_ Ht1].
  destruct (run_ops_ok ops2 (trie_new d2) ∅ (trie_new_ok d2) Ho2 Hc2) as [_ Ht2].
  exact (trie_ok_binding t1 t2 _ _ Ht1 Ht2 Ha He).
Qed.

Example root_binds_map_witness : (spec_ops demo_ops ∅).2 = (spec_ops demo_ops_2 ∅).2.
Proof.
  apply (root_binds_map NullDB NullDB demo_ops demo_ops_2);
    [apply demo_ops_ok|apply demo_ops_2_ok|apply demo_ops_free|apply demo_ops_2_free|
     apply agree_check; check_nodes|check_nodes].
Defined.

(** ** The database *)

(** An inlined root is not in the cache: nothing is written. *)
Lemma commit_inline {D} `{TrieDB D} `{!TrieDBLaws D} `{Crypto} (s : TrieState D) e :
  cache_ok (cache s) → db_live (db s) →
  ∃ d', commit (Inline e) s = (Ok (), Build_TrieState d' []) ∧ db_live d' ∧
    ∀ x, db_get d' x = db_get (db s) x.
Proof.
  intros Hok Hl. assert (cache_get (cache s) (Inline e) = None) as Hn.
  { induction Hok as [|[h n] c Hh _ IH]; [done|]. cbn. case_decide; [by subst|done]. }
  destruct (db_put_batch_live (db s) [] Hl) as (d' & Hput & Hl' & Hget).
  exists d'. unfold commit, commit_node, clear_cache, mbind, tm_bind, commit_fuel.
  cbn [commit_node_tail_recursive]. rewrite Hn, Hput. by split_and!.
Qed.

(** C22 (round trip): commit and reopen.  [hash] always succeeds and returns the root
    hash.  If the trie is empty or its root is a node of at least 32 bytes, which is
    referred to by its hash, then a trie opened from the database at the returned hash
    holds the same map, and the database again satisfies what the theorem assumes of
    it.  If the root is smaller, [hash] writes nothing: a trie opened at the returned
    hash cannot read any key, unless the database had a node at that hash before.  The
    hash of a root that is not empty is taken to differ from that of the empty trie. *)
Theorem commit_reopen {D} `{TrieDB D} `{!TrieDBLaws D} `{CryptoLaws} (d : D) ops :
  let t := (run_ops ops (trie_new d)).2 in
  db_live d → db_closed d → Forall op_ok ops →
  collision_free (state t) → cache_sizes (cache (state t)) →
  (root t ≠ None → hash_no_commit t ≠ EMPTY_TRIE_HASH) →
  ∃ t', trie_hash t = (Ok (hash_no_commit t), t') ∧ db_live (db (state t')) ∧
    let reopened := trie_open (db (state t')) (hash_no_commit t) in
    match root t with
    | Some (Inline _) =>
        (∀ x, db_get (db (state t')) x = db_get d x) ∧
        (db_get d (hash_no_commit t) = Ok None →
         ∀ key, trie_get reopened key = Err InconsistentTree)
    | _ =>
        db_closed (db (state t')) ∧ root reopened = root t ∧
        ∀ key, bytes key → trie_get reopened key = Ok ((spec_ops ops ∅).2 !! key)
    end.
Proof.
  intros t Hl Hcl Hops Hc Hsz Hne.
  destruct (run_ops_ok ops (trie_new d) ∅ (trie_new_ok d) Hops Hc) as [_ Ht].
  pose proof (run_ops_grows ops (trie_new d)) as Hg. fold t in Ht, Hg.
  assert (cache_ok (cache (state t))) as Hok by (eapply cache_ok_extends; [exact Hg|constructor]).
  destruct Hg as [Hdb _]. cbn in Hdb. set (M := (spec_ops ops ∅).2) in *.
  unfold trie_hash, trie_open. pose proof Ht as [HM Ht'].
  destruct (root t) as [h|] eqn:Eroot.
  - destruct Ht' as (n & -> & Hkn & Hr). destruct (compute_hash n) as [x|e] eqn:Eh.
    + rewrite <-Eh in Hkn.
      destruct (commit_correct (state t) n (view M)) as (d' & Hcom & Hl' & Hcl' & _ & Hkn' & Hr');
        [done..|by rewrite Hdb|by rewrite Hdb|].
      rewrite Eh in *. rewrite Hcom. cbn [mbind outcome_bind]. eexists. split; [done|].
      cbn [db state]. split; [done|]. split; [done|].
      assert (hash_no_commit t = x) as Hx by (unfold hash_no_commit; by rewrite Eroot).
      rewrite decide_False by (by apply Hne). rewrite Hx. cbn [root]. split; [done|].
      intros key Hk. apply trie_get_ok; [|apply collision_free_nil|done].
      split; [done|]. cbn. eauto.
    + destruct (commit_inline (state t) e) as (d' & Hcom & Hl' & Hget); [done|by rewrite Hdb|].
      rewrite Hcom. cbn [mbind outcome_bind]. eexists. split; [done|]. cbn [db state].
      split; [done|]. rewrite Hdb in Hget. split; [done|]. intros Hnone key.
      rewrite decide_False by (by apply Hne). unfold trie_get, require_node, get_node, state_new.
      cbn [root state cache db cache_get node_hash_to_vec]. by rewrite Hget, Hnone.
  - exists t. split; [done|]. rewrite Hdb. split; [done|]. split; [done|].
    unfold hash_no_commit. rewrite Eroot, decide_True by done. split; [done|].
    intros key Hk. rewrite Ht'. by rewrite lookup_empty.
Qed.

Definition empty_db : InMemoryTrieDB := {| inner := ∅; poisoned := false |}.

Lemma empty_db_closed : db_closed empty_db.
Proof. intros x n y (rlp & Hg & _). by vm_compute in Hg. Qed.

Definition demo_committed : Trie InMemoryTrieDB :=
  (trie_hash (run_ops demo_ops (trie_new empty_db)).2).2.

Lemma demo_root_hashed : ∃ x, root (run_ops demo_ops (trie_new empty_db)).2 = Some (Hashed x).
Proof. eexists. vm_compute. reflexivity. Qed.

Example commit_reopen_witness :
  trie_get (trie_open (db (state demo_committed))
    (hash_no_commit (run_ops demo_ops (trie_new empty_db)).2)) [0x12; 0x35] = Ok (Some [7]).
Proof.
  destruct demo_root_hashed as [x Ex].
  destruct (commit_reopen empty_db demo_ops) as (t' & Ht & _ & Hg).
  - done.
  - apply empty_db_closed.
  - apply demo_ops_ok.
  - apply collision_free_check; check_nodes.
  - apply (bool_decide_unpack _). check_nodes.
  - intros _. vm_compute. discriminate.
  - rewrite Ex in Hg. destruct Hg as (_ & _ & Hg).
    unfold demo_committed. rewrite Ht. cbn [snd]. rewrite Hg; [check_nodes|].
    repeat constructor; lia.
Defined.

(** (error): a trie whose root is encoded in fewer than 32 bytes does not
    survive a commit: [hash] returns the root's hash but writes no node, and a
    trie opened from the database at that hash does not have the key. *)
Theorem small_trie_is_lost `{CryptoLaws} key v :
  bytes key → good_value v → len (encode_raw (Leaf (Nibbles.from_bytes key) v)) < 32 →
  let t := (trie_insert key v (trie_new empty_db)).2 in
  let '(r, t') := trie_hash t in
  trie_get t key = Ok (Some v) ∧ r = Ok (hash_no_commit t) ∧
  trie_get (trie_open (db (state t')) (hash_no_commit t)) key ≠ Ok (Some v).
Proof.
  intros Hk Hv Hl t.
  assert (t = {| root := Some (Inline (encode_raw (Leaf (Nibbles.from_bytes key) v)));
                 state := state_new empty_db |}) as ->.
  { subst t. unfold trie_insert, with_root, mbind, tm_bind, mret, tm_ret, insert_self, insert_node.
    cbn. unfold compute_hash, from_encoded_raw. by rewrite (proj2 (Z.leb_gt _ _)). }
  unfold trie_hash, commit, commit_node, mbind, tm_bind. cbn [root state].
  cbn [commit_node_tail_recursive cache state_new cache_get commit_fuel length].
  split_and!; [|done|].
  - rewrite (trie_get_ok _ {[key := v]}); [by rewrite lookup_singleton_eq| |apply collision_free_nil|done].
    split; [by apply map_Forall_singleton|]. cbn [root state].
    exists (Leaf (Nibbles.from_bytes key) v). rewrite from_bytes_nibs in *.
    destruct (nibs_spec key Hk) as (Hn & _).
    split_and!; [unfold compute_hash, from_encoded_raw; by rewrite (proj2 (Z.leb_gt _ _))| |].
    + apply knows_inline; [by apply leaf_ok|done].
    + eapply Rep_meq; [by apply Rep_single_leaf|].
      rewrite <-insert_empty. symmetry. etrans; [|apply (upd_view ∅ key (Some v) Hk)].
      intros q _. unfold single, upd, view. rewrite lookup_empty. by destruct (Nat.even _).
  - unfold trie_open. case_decide; [by intros [=]|]. unfold trie_get. cbn [root state].
    unfold require_node. cbn. by vm_compute.
Qed.

Example small_trie_is_lost_witness :
  let t := (trie_insert [0x12] [7] (trie_new empty_db)).2 in
  let '(r, t') := trie_hash t in
  trie_get t [0x12] = Ok (Some [7]) ∧ r = Ok (hash_no_commit t) ∧
  trie_get (trie_open (db (state t')) (hash_no_commit t)) [0x12] ≠ Ok (Some [7]).
Proof.
  apply small_trie_is_lost; [repeat constructor; lia|split; [done|repeat constructor; lia]|by vm_compute].
Defined.

(** ** Proofs *)

(** C24 (functional): proofs are complete.  For any keys, [get_proofs] returns
    the root node and a set of nodes from which [from_nodes] builds, in
    whatever order the set is listed, a trie with the same root that answers
    those keys, present or absent, as the original trie does. *)
Theorem proofs_complete {D} `{TrieDB D} `{CryptoLaws} (d : D) ops keys :
  let t := (run_ops ops (trie_new d)).2 in
  Forall op_ok ops → collision_free (state t) → Forall bytes keys →
  ∃ root_node others, get_proofs t keys = Ok (root_node, others) ∧
    ∀ nodes, nodes ≡ₚ others →
      Forall (λ e, len e ≤ isize_max) (option_list root_node ++ nodes) →
      ∃ u, from_nodes root_node nodes = Ok u ∧ root u = root t ∧
        (collision_free (state u) →
         ∀ key, key ∈ keys → trie_get u key = Ok ((spec_ops ops ∅).2 !! key)).
Proof.
  intros t Hops Hc Hkeys.
  destruct (run_ops_ok ops (trie_new d) ∅ (trie_new_ok d) Hops Hc) as [_ Ht].
  by apply get_proofs_complete.
Qed.

(** A proof of a key that is present and of one that is absent, and the trie
    it builds. *)
Definition demo_keys : list (list Z) := [[0x12; 0x35]; [0x99]].
Definition demo_proof : option (list Z) * list (list Z) := Eval vm_compute in
  match get_proofs (run_ops demo_ops (trie_new NullDB)).2 demo_keys with
  | Ok p => p
  | _ => (None, [])
  end.
Definition demo_verifier : Trie NullTrieDB := Eval vm_compute in
  match from_nodes demo_proof.1 demo_proof.2 with Ok u => u | _ => stateless end.

Lemma demo_proof_eq :
  get_proofs (run_ops demo_ops (trie_new NullDB)).2 demo_keys = Ok demo_proof.
Proof. check_nodes. Qed.
Lemma demo_verifier_eq : from_nodes demo_proof.1 demo_proof.2 = Ok demo_verifier.
Proof. check_nodes. Qed.
Lemma demo_verifier_free : collision_free (state demo_verifier).
Proof. apply collision_free_check; check_nodes. Qed.

Lemma Ok_inj {E A} (a b : A) : Ok (E := E) a = Ok b → a = b.
Proof. congruence. Qed.

Example proofs_complete_witness :
  trie_get demo_verifier [0x12; 0x35] = Ok (Some [7]) ∧ trie_get demo_verifier [0x99] = Ok None.
Proof.
  destruct (proofs_complete NullDB demo_ops demo_keys) as (r & others & Hp & Hu);
    [apply demo_ops_ok|apply demo_ops_free|repeat constructor; lia|].
  rewrite demo_proof_eq in Hp. apply Ok_inj in Hp.
  destruct (Hu others (reflexivity _)) as (u & Hf & _ & Hg).
  { change r with (r, others).1. change others with (r, others).2 at 2. rewrite <-Hp.
    apply (bool_decide_unpack _). check_nodes. }
  assert (from_nodes demo_proof.1 demo_proof.2 = Ok u) as Hf' by (rewrite Hp; exact Hf).
  rewrite demo_verifier_eq in Hf'. apply Ok_inj in Hf'. subst u.
  specialize (Hg demo_verifier_free).
  split; (rewrite Hg; [check_nodes|repeat constructor]).
Defined.

(** C23 (safety): proofs are sound.  A trie that [from_nodes] builds from any
    nodes whatever, when its root is the root of a trie and no two nodes of
    them collide, never answers a key otherwise than that trie. *)
Theorem proofs_sound {D} `{TrieDB D} `{CryptoLaws} (d : D) ops root_node nodes u key r :
  let t := (run_ops ops (trie_new d)).2 in
  Forall op_ok ops → collision_free (state t) →
  from_nodes root_node nodes = Ok u → root t = root u → agree (state t) (state u) →
  bytes key → trie_get u key = Ok r → r = (spec_ops ops ∅).2 !! key.
Proof.
  intros t Hops Hc _ Hroot Ha Hk Hg.
  destruct (run_ops_ok ops (trie_new d) ∅ (trie_new_ok d) Hops Hc) as [_ Ht].
  by eapply (trie_get_sound t u).
Qed.

Example proofs_sound_witness :
  Some [7] = (spec_ops demo_ops ∅).2 !! [0x12; 0x35].
Proof.
  apply (proofs_sound NullDB demo_ops demo_proof.1 demo_proof.2 demo_verifier);
    [apply demo_ops_ok|apply demo_ops_free|apply demo_verifier_eq|check_nodes| | |check_nodes].
  - apply agree_check; check_nodes.
  - repeat constructor; lia.
Defined.

(** ** Iteration and encodings *)

(** (functional): the iterator ends, and [content] lists each key of the
    map once, with its value, in the order of the keys as byte strings. *)
Theorem content_lists_the_map {D} `{TrieDB D} `{CryptoLaws} (d : D) ops :
  let t := (run_ops ops (trie_new d)).2 in
  Forall op_ok ops → collision_free (state t) →
  ∃ fuel0 out, (∀ fuel, (fuel0 ≤ fuel)%nat → content fuel (iter_new t) = Ok out) ∧
    StronglySorted (λ a b, Nibbles.cmp a.1 b.1 = Lt) out ∧
    ∀ k v, (k, v) ∈ out ↔ (spec_ops ops ∅).2 !! k = Some v.
Proof.
  intros t Hops Hc.
  destruct (run_ops_ok ops (trie_new d) ∅ (trie_new_ok d) Hops Hc) as [_ Ht].
  by apply content_ok.
Qed.

Example content_lists_the_map_witness :
  ∃ fuel0 out,
    (∀ fuel, (fuel0 ≤ fuel)%nat →
       content fuel (iter_new (run_ops demo_ops (trie_new NullDB)).2) = Ok out) ∧
    ([0x12; 0x34], demo_value 1) ∈ out.
Proof.
  destruct (content_lists_the_map NullDB demo_ops) as (fuel0 & out & Hc & _ & Hin);
    [apply demo_ops_ok|apply demo_ops_free|].
  exists fuel0, out. split; [done|]. apply Hin. check_nodes.
Defined.

(** Both encodings of a node determine it: [decode_raw] inverts
    the encoding that is hashed, and the decoder of the database inverts the
    encoding that is stored. *)
Theorem node_codecs_roundtrip n :
  node_ok n → len (encode_raw n) ≤ isize_max → len (encode_node n) ≤ isize_max →
  decode_raw (encode_raw n) = Ok n ∧ decode (encode_node n) = Ok n.
Proof. intros. split; [by apply decode_encode_raw|by apply decode_encode_node]. Qed.

Example node_codecs_roundtrip_witness :
  let n := Extension [1; 2; 3] (Inline [0xc2; 0x20; 0x07]) in
  decode_raw (encode_raw n) = Ok n ∧ decode (encode_node n) = Ok n.
Proof.
  apply node_codecs_roundtrip; [|by vm_compute..].
  split; [repeat constructor; lia|]. split; [|done]. split; [|split; [repeat constructor; lia|by vm_compute]].
  exists [0x20; 0x07]. by vm_compute.
Defined.
