(* ===== verification/VerifyRange.v ===== *)
(** * Verification of ranges of a trie (crates/storage/trie/verify_range.rs)

    [verify_range] decides whether keys and values sent by a peer are a range of
    the trie with a given root, from the nodes on the paths to its two ends.  The
    nodes of the proof fill the state of a stateless trie; what lies between the
    ends is cut out of it and built again from the keys and values.

    The recursive functions follow the nodes of the proof: their fuel counts the
    bytes of the proof, since each call enters another node of it or a node
    inlined in that one. *)

From stdpp Require Import base option list numbers strings gmap.
From S2P Require Import Prelude Rlp LevmHost TrieNode Trie.

Local Open Scope Z_scope.

Notation RangeM := (TM NullTrieDB).

Section verify_range.
Context `{Crypto}.

(** ** The nodes of the proof *)

Record ProofNodeStorage := { nodes : gmap (list Z) (list Z) }.

Definition from_proof (proof : list (list Z)) : ProofNodeStorage :=
  {| nodes := foldl (λ m node, <[keccak node := node]> m) ∅ proof |}.

Definition proof_get_node (self : ProofNodeStorage) (hash : NodeHash) : TrieResult Node :=
  encoded ← (match hash with
             | Hashed hash => ok_or (nodes self !! hash) Verify
             | Inline encoded => Ok encoded
             end);
  map_err RLPDecodeErr (decode_raw encoded).

Definition proof_fuel (proof : list (list Z)) : nat := (66 + length (concat proof))%nat.

(** ** Filling the state *)

(** The child, and the path that is left. *)
Definition get_child (path : Nibbles) (node : Node) : TrieResult (option NodeHash * Nibbles) :=
  match node with
  | Branch choices _ =>
      let '(next, path) := Nibbles.next_choice path in
      match next with
      | Some choice =>
          child ← choice_at choices choice;
          Ok (if is_valid child then Some child else None, path)
      | None => Ok (None, path)
      end
  | Extension prefix child =>
      Ok (match Nibbles.skip_prefix path prefix with
          | Some path => (Some child, path)
          | None => (None, path)
          end)
  | Leaf _ _ => Ok (None, path)
  end.

Definition end_value (path : Nibbles) (node : Node) : list Z :=
  match node with
  | Branch _ value => value
  | Extension _ _ => []
  | Leaf partial value => if decide (path = partial) then value else []
  end.

Fixpoint fill_node (fuel : nat) (path : Nibbles) (node_hash : NodeHash)
    (proof_nodes : ProofNodeStorage) : RangeM (list Z) :=
  match fuel with
  | O => liftT NoFuel
  | S fuel =>
      node ← liftT (proof_get_node proof_nodes node_hash);
      '(child_hash, path) ← liftT (get_child path node);
      _ ← insert_node node node_hash;
      match child_hash with
      | Some child_hash => fill_node fuel path child_hash proof_nodes
      | None => mret (end_value path node)
      end
  end.

Definition fill_state (fuel : nat) (root_hash first_key : list Z)
    (proof_nodes : ProofNodeStorage) : RangeM (list Z) :=
  fill_node fuel (Nibbles.from_bytes first_key) (Hashed root_hash) proof_nodes.

(** ** Elements to the right *)

Fixpoint has_right_element_inner (fuel : nat) (node_hash : NodeHash) (path : Nibbles)
    (trie_state : TrieState NullTrieDB) : TrieResult bool :=
  match fuel with
  | O => NoFuel
  | S fuel =>
      match get_node trie_state node_hash with
      | Ok (Some node) =>
          match node with
          | Branch choices _ =>
              let '(next, path) := Nibbles.next_choice path in
              match next with
              | Some choice =>
                  if existsb is_valid (drop (S choice) choices) then Ok true
                  else
                    child ← choice_at choices choice;
                    if is_valid child then has_right_element_inner fuel child path trie_state
                    else Ok false
              | None => Ok false
              end
          | Extension prefix child =>
              match Nibbles.skip_prefix path prefix with
              | Some path => has_right_element_inner fuel child path trie_state
              | None => Ok (match Nibbles.cmp prefix path with Gt => true | _ => false end)
              end
          | Leaf _ _ => Ok false
          end
      | Ok None => Ok false
      | Err _ => Ok false
      | Panic => Panic
      | NoFuel => NoFuel
      end
  end.

Definition has_right_element (fuel : nat) (root_hash key : list Z)
    (trie_state : TrieState NullTrieDB) : TrieResult bool :=
  has_right_element_inner fuel (Hashed root_hash) (Nibbles.from_bytes key) trie_state.

(** ** Cutting the range out *)

(** [for choice in &mut choices[start..stop] { *choice = NodeHash::default() }]:
    the slice panics out of range. *)
Definition clear_choices (start stop : nat) (choices : list NodeHash) :
    TrieResult (list NodeHash) :=
  if (start <=? stop)%nat && (stop <=? length choices)%nat
  then Ok (take start choices ++ replicate (stop - start) node_hash_default ++ drop stop choices)
  else Panic.

Definition clear_if (b : bool) (choices : list NodeHash) (choice : nat) :
    TrieResult (list NodeHash) :=
  if b then set_choice choices choice node_hash_default else Ok choices.

(** [trie_state.get_node(hash).unwrap().unwrap()]. *)
Definition state_node (hash : NodeHash) : RangeM Node := λ s,
  (match get_node s hash with
   | Ok (Some node) => Ok node
   | NoFuel => NoFuel
   | _ => Panic
   end, s).

Fixpoint remove_node (fuel : nat) (node_hash : NodeHash) (path : Nibbles) (remove_left : bool) :
    RangeM bool :=
  match fuel with
  | O => liftT NoFuel
  | S fuel =>
      if negb (is_valid node_hash) then mret false
      else
        node ← state_node node_hash;
        match node with
        | Branch choices value =>
            let '(next, path) := Nibbles.next_choice path in
            match next with
            | None => mret true
            | Some choice =>
                choices ← liftT (if remove_left then clear_choices 0 choice choices
                                 else clear_choices (S choice) (length choices) choices);
                child ← liftT (choice_at choices choice);
                should_remove ← remove_node fuel child path remove_left;
                choices ← liftT (clear_if should_remove choices choice);
                _ ← insert_node (Branch choices value) node_hash;
                mret false
            end
        | Extension prefix child =>
            match Nibbles.skip_prefix path prefix with
            | None =>
                mret (match Nibbles.compare_prefix path prefix with
                      | Gt => remove_left
                      | Lt => negb remove_left
                      | Eq => false
                      end)
            | Some path => remove_node fuel child path remove_left
            end
        | Leaf _ _ => mret true
        end
  end.

(** The fork of the two paths at a branch. *)
Definition remove_at_fork (fuel : nat) (node_hash : NodeHash) (choices : list NodeHash)
    (value : list Z) (left_choice right_choice : nat) (left_path right_path : Nibbles) :
    RangeM bool :=
  choices ← liftT (clear_choices (S left_choice) right_choice choices);
  left_child ← liftT (choice_at choices left_choice);
  should_remove_left ← remove_node fuel left_child left_path false;
  right_child ← liftT (choice_at choices right_choice);
  should_remove_right ← remove_node fuel right_child right_path true;
  choices ← liftT (clear_if should_remove_left choices left_choice);
  choices ← liftT (clear_if should_remove_right choices right_choice);
  _ ← insert_node (Branch choices value) node_hash;
  mret false.

(** One path fits the prefix of an extension, or both, or none. *)
Definition remove_at_extension (fuel : nat)
    (rec : NodeHash → Nibbles → Nibbles → RangeM bool) (node_hash : NodeHash) (prefix : Nibbles)
    (child : NodeHash) (left_path right_path : Nibbles) : RangeM bool :=
  match Nibbles.compare_prefix left_path prefix, Nibbles.compare_prefix right_path prefix with
  | Eq, Eq =>
      left_path ← liftT (Nibbles.offset left_path (length prefix));
      right_path ← liftT (Nibbles.offset right_path (length prefix));
      rec child left_path right_path
  | Gt, Gt | Lt, Lt => liftT (Err Verify)
  | Eq, _ =>
      path ← liftT (Nibbles.offset left_path (length prefix));
      remove_node fuel node_hash path false
  | _, Eq =>
      path ← liftT (Nibbles.offset right_path (length prefix));
      remove_node fuel node_hash path true
  | _, _ => mret true
  end.

(** [trie_state.get_node(hash)?.unwrap()]. *)
Definition filled_node (hash : NodeHash) : RangeM Node :=
  node ← reads (λ s, get_node s hash);
  liftT (unwrap node).

Fixpoint remove_internal_references_inner (fuel : nat) (node_hash : NodeHash)
    (left_path right_path : Nibbles) : RangeM bool :=
  match fuel with
  | O => liftT NoFuel
  | S fuel =>
      if negb (is_valid node_hash) then mret true
      else
        node ← filled_node node_hash;
        match node with
        | Branch choices value =>
            let '(left_next, left_path) := Nibbles.next_choice left_path in
            let '(right_next, right_path) := Nibbles.next_choice right_path in
            left_choice ← liftT (unwrap left_next);
            right_choice ← liftT (unwrap right_next);
            child ← liftT (choice_at choices left_choice);
            if (left_choice =? right_choice)%nat && is_valid child then
              should_remove ← remove_internal_references_inner fuel child left_path right_path;
              if should_remove : bool then
                choices ← liftT (set_choice choices left_choice node_hash_default);
                _ ← insert_node (Branch choices value) node_hash;
                mret false
              else mret false
            else
              remove_at_fork fuel node_hash choices value left_choice right_choice
                left_path right_path
        | Extension prefix child =>
            remove_at_extension fuel (remove_internal_references_inner fuel) node_hash prefix child
              left_path right_path
        | Leaf _ _ => mret false
        end
  end.

Definition remove_internal_references (fuel : nat) (root_hash left_key right_key : list Z) :
    RangeM bool :=
  remove_internal_references_inner fuel (Hashed root_hash) (Nibbles.from_bytes left_key)
    (Nibbles.from_bytes right_key).

(** ** The whole verification *)

(** [if !test { return Err(TrieError::Verify(..)) }]. *)
Definition check (test : bool) : TrieResult unit := if test then Ok tt else Err Verify.

(** [keys.windows(2)]: each key is below the next. *)
Fixpoint increasing (keys : list (list Z)) : bool :=
  match keys with
  | k1 :: (k2 :: _) as keys =>
      match Nibbles.cmp k1 k2 with Lt => increasing keys | _ => false end
  | _ => true
  end.

(** [for (key, value) in .. { trie.insert(key, value)?; }]. *)
Fixpoint insert_range (iter : list (list Z * list Z)) (t : Trie NullTrieDB) :
    TrieResult (Trie NullTrieDB) :=
  match iter with
  | [] => Ok t
  | (key, value) :: iter =>
      let '(r, t) := trie_insert key value t in
      _ ← r;
      insert_range iter t
  end.

(** [if trie.hash()? != root { return Err(..) }]. *)
Definition check_root (t : Trie NullTrieDB) (root : list Z) : TrieResult unit :=
  hash ← (trie_hash t).1;
  check (bool_decide (hash = root)).

(** Keys and values are the whole trie. *)
Definition verify_full (root : list Z) (keys values : list (list Z)) : TrieResult bool :=
  trie ← insert_range (zip keys values) stateless;
  _ ← check_root trie root;
  Ok false.

(** No keys: there is nothing from the first key on. *)
Definition verify_empty (fuel : nat) (root first_key : list Z) (proof_nodes : ProofNodeStorage) :
    TrieResult bool :=
  let '(value, s) := fill_state fuel root first_key proof_nodes (state stateless) in
  value ← value;
  has_right ← has_right_element fuel root first_key s;
  if has_right || negb (vec_is_empty value) then Err Verify else Ok false.

(** One key, the first. *)
Definition verify_single (fuel : nat) (root first_key key value : list Z)
    (proof_nodes : ProofNodeStorage) : TrieResult bool :=
  let '(found, s) := fill_state fuel root first_key proof_nodes (state stateless) in
  found ← found;
  _ ← check (bool_decide (first_key = key));
  _ ← check (bool_decide (found = value));
  has_right_element fuel root first_key s.

(** The range between two edges: fill and cut, then build again. *)
Definition cut_range (fuel : nat) (root first_key last_key : list Z)
    (proof_nodes : ProofNodeStorage) : RangeM bool :=
  _ ← fill_state fuel root first_key proof_nodes;
  _ ← fill_state fuel root last_key proof_nodes;
  remove_internal_references fuel root first_key last_key.

Definition verify_edges (fuel : nat) (root_hash first_key last_key : list Z)
    (keys values : list (list Z)) (proof_nodes : ProofNodeStorage) : TrieResult bool :=
  _ ← check (match Nibbles.cmp first_key last_key with Lt => true | _ => false end);
  let '(empty, s) := cut_range fuel root_hash first_key last_key proof_nodes (state stateless) in
  empty ← empty;
  let trie :=
    {| root := if empty : bool then None else Some (Hashed root_hash); state := s |} in
  trie ← insert_range (zip keys values) trie;
  has_right ← has_right_element fuel root_hash last_key (state trie);
  _ ← check_root trie root_hash;
  Ok has_right.

Definition verify_range (root first_key : list Z) (keys values proof : list (list Z)) :
    TrieResult bool :=
  let proof_nodes := from_proof proof in
  let fuel := proof_fuel proof in
  _ ← check (length keys =? length values)%nat;
  _ ← check (increasing keys);
  _ ← check (negb (existsb vec_is_empty values));
  if vec_is_empty proof then verify_full root keys values
  else
    match keys, last keys with
    | key :: _, Some last_key =>
        if (length keys =? 1)%nat && bool_decide (first_key = last_key) then
          verify_single fuel root first_key key (default [] (head values)) proof_nodes
        else verify_edges fuel root first_key last_key keys values proof_nodes
    | _, _ => verify_empty fuel root first_key proof_nodes
    end.
End verify_range.
