(* ===== verification/VerifyRangeProofs.v ===== *)
(** * Ranges of a trie: what the verification shows

    A range without a proof is accepted exactly when it is the whole trie, and a
    range of one key only when the trie has that key and value; the answer then
    says whether the trie has greater keys.  With two edges the verification
    accepts ranges that leave elements out, rejects correct ones, and panics on
    some: concrete ranges show each of these. *)

From stdpp Require Import base option list numbers strings gmap sorting.
From S2P Require Import Prelude Rlp RlpProofs LevmHost LevmDemo.
From S2P Require Import TrieNode TrieCodec Trie TrieLogic TrieMap TrieOps TrieCorrect.
From S2P Require Import TrieCommit TrieHashed TrieProof TrieIter TrieTheorems VerifyRange.

Local Open Scope Z_scope.

(** ** The whole trie *)

(** The hash of a stateless trie is that of its root. *)
Lemma stateless_hash `{CryptoLaws} (t : Trie NullTrieDB) : (trie_hash t).1 = Ok (hash_no_commit t).
Proof.
  unfold trie_hash, hash_no_commit. destruct (root t) as [h|] eqn:Eroot; [|done].
  destruct (commit_spec (commit_fuel (state t)) (λ _, True) h (cache (state t)) [])
    as (c' & new & Hrun & _); [unfold commit_fuel; lia|done|intros x n _ _; by apply Forall_true|].
  unfold commit, commit_node, mbind, tm_bind. rewrite Hrun. cbn. done.
Qed.

Section full.
Context `{CryptoLaws}.

(** The range as operations on a trie. *)
Definition inserts_of (kvs : list (list Z * list Z)) : list TrieOp :=
  (λ kv, OpInsert kv.1 kv.2) <$> kvs.
Definition range_trie (keys values : list (list Z)) : Trie NullTrieDB :=
  (run_ops (inserts_of (zip keys values)) stateless).2.

Lemma insert_range_run kvs t :
  let '(rs, t') := run_ops (inserts_of kvs) t in
  Forall (λ r, ∃ o, r = Ok o) rs → insert_range kvs t = Ok t'.
Proof.
  revert t. induction kvs as [|[k v] kvs IH]; intros t; cbn [inserts_of fmap list_fmap run_ops].
  { done. }
  cbn [run_op insert_range fst snd]. destruct (trie_insert k v t) as [r t1].
  specialize (IH t1). fold (inserts_of kvs). destruct (run_ops (inserts_of kvs) t1) as [rs t'].
  intros [[o Ho] Hrs]%Forall_cons. apply bind_Ok in Ho as (u & -> & _). cbn. by apply IH.
Qed.

Lemma spec_range_inserts kvs M :
  NoDup (kvs.*1) → (spec_ops (inserts_of kvs) M).2 = list_to_map kvs ∪ M.
Proof.
  revert M. induction kvs as [|[k v] kvs IH]; intros M Hnd.
  { cbn. by rewrite (left_id_L ∅ (∪)). }
  cbn in Hnd. apply NoDup_cons in Hnd as [Hk Hnd].
  cbn [inserts_of fmap list_fmap spec_ops spec_op fst snd]. fold (inserts_of kvs).
  specialize (IH (<[k := v]> M) Hnd). destruct (spec_ops (inserts_of kvs) _) as [rs M'].
  cbn [snd] in *. rewrite IH. cbn [list_to_map foldr fst snd uncurry].
  rewrite <-insert_union_l, insert_union_r; [done|]. by apply not_elem_of_list_to_map_1.
Qed.

Lemma cmp_irrefl k : Nibbles.cmp k k = Eq.
Proof. induction k as [|x k IH]; [done|]. cbn. by rewrite Z.compare_refl. Qed.

Lemma cmp_trans a b c : Nibbles.cmp a b = Lt → Nibbles.cmp b c = Lt → Nibbles.cmp a c = Lt.
Proof.
  revert b c. induction a as [|x a IH]; intros [|y b] [|z c]; try done. cbn.
  destruct (Z.compare_spec x y), (Z.compare_spec y z); subst; try done.
  - rewrite Z.compare_refl. apply IH.
  - by rewrite (proj2 (Z.compare_lt_iff y z)).
  - by rewrite (proj2 (Z.compare_lt_iff x z)).
  - rewrite (proj2 (Z.compare_lt_iff x z)); [done|lia].
Qed.

Lemma increasing_sorted keys :
  increasing keys = true → StronglySorted (λ a b, Nibbles.cmp a b = Lt) keys.
Proof.
  intros Hi. apply Sorted_StronglySorted; [intros a b c; apply cmp_trans|].
  induction keys as [|k1 keys IH]; [constructor|]. cbn in Hi.
  destruct keys as [|k2 keys]; [repeat constructor|].
  destruct (Nibbles.cmp k1 k2) eqn:E; try done. constructor; [by apply IH|by constructor].
Qed.

Lemma increasing_NoDup keys : increasing keys = true → NoDup keys.
Proof.
  intros Hs%increasing_sorted. induction Hs as [|k keys Hs IH Hk]; constructor; [|done].
  intros Hin. pose proof (proj1 (Forall_forall _ _) Hk k Hin) as Hlt. cbn in Hlt.
  by rewrite cmp_irrefl in Hlt.
Qed.

(** Keys of 32 bytes and values that can be sent. *)
Definition range_bytes (keys values : list (list Z)) : Prop :=
  Forall (λ k, bytes k ∧ len k = 32) keys ∧ Forall bytes values.

Lemma inserts_ok keys values :
  range_bytes keys values → existsb vec_is_empty values = false →
  Forall op_ok (inserts_of (zip keys values)).
Proof.
  intros [Hk Hv] He. apply Forall_fmap, Forall_forall. intros [k v] Hin.
  apply elem_of_zip_l in Hin as Hk'. apply elem_of_zip_r in Hin as Hv'. cbn.
  split; [by apply (proj1 (Forall_forall _ _) Hk)|]. split; [|by apply (proj1 (Forall_forall _ _) Hv)].
  intros ->. assert (existsb vec_is_empty values = true) as Ht; [|congruence].
  apply existsb_exists. exists []. split; [by apply list_elem_of_In|done].
Qed.

Lemma range_trie_ok keys values :
  range_bytes keys values → length keys = length values → increasing keys = true →
  existsb vec_is_empty values = false → collision_free (state (range_trie keys values)) →
  insert_range (zip keys values) stateless = Ok (range_trie keys values) ∧
  trie_ok (range_trie keys values) (list_to_map (zip keys values)).
Proof.
  intros Hb Hl Hi He Hc. pose proof (inserts_ok keys values Hb He) as Hops.
  destruct (run_ops_ok _ stateless ∅ (trie_new_ok NullDB) Hops Hc) as [Hrs Ht].
  rewrite spec_range_inserts, (right_id_L ∅ (∪)) in Ht; cycle 1.
  { rewrite fst_zip by lia. by apply increasing_NoDup. }
  split; [|done]. pose proof (insert_range_run (zip keys values) stateless) as Hrun.
  unfold range_trie. destruct (run_ops _ stateless) as [rs t']. cbn [fst snd] in *. apply Hrun.
  rewrite Hrs. apply Forall_fmap, Forall_true. intros o. by exists o.
Qed.

Lemma range_keys keys values : range_bytes keys values → hashed_keys (list_to_map (zip keys values)).
Proof.
  intros [Hk _] k v Hl. apply elem_of_list_to_map_2, elem_of_zip_l in Hl.
  by apply (proj1 (Forall_forall _ _) Hk).
Qed.

(** The hash of a trie that has elements is not that of the empty trie. *)
Definition hash_proper {D} (t : Trie D) : Prop :=
  root t ≠ None → hash_no_commit t ≠ EMPTY_TRIE_HASH.

Lemma hash_root {D1 D2} `{TrieDB D1, TrieDB D2} (t1 : Trie D1) (t2 : Trie D2) M1 M2 :
  trie_ok t1 M1 → trie_ok t2 M2 → hashed_keys M1 → hashed_keys M2 →
  hash_proper t1 → hash_proper t2 → hash_no_commit t1 = hash_no_commit t2 → root t1 = root t2.
Proof.
  intros Ht1 Ht2 HM1 HM2 Hp1 Hp2 He. unfold hash_proper, hash_no_commit in *.
  pose proof (λ e, trie_root_hashed t1 M1 e Ht1 HM1) as Hh1.
  pose proof (λ e, trie_root_hashed t2 M2 e Ht2 HM2) as Hh2.
  destruct (root t1) as [[x|e]|], (root t2) as [[y|e']|]; cbn in *;
    first [by destruct (Hh1 e) | by destruct (Hh2 e') | congruence | idtac].
  all: first [by destruct Hp1 | by destruct Hp2].
Qed.
End full.

(** C38 A range without a proof.  [verify_range] accepts keys and values without a
    proof for the root of a trie exactly when they are increasing in the keys and
    are all that the trie holds, unless nodes collide; it then says that there is
    nothing more. *)
Theorem full_range_exact {D} `{TrieDB D} `{CryptoLaws} (d : D) (ops : list TrieOp)
    (first_key : list Z) (keys values : list (list Z)) (b : bool) :
  let t := (run_ops ops (trie_new d)).2 in
  let u := range_trie keys values in
  let M := (spec_ops ops ∅).2 in
  Forall op_ok ops → hashed_keys M → range_bytes keys values →
  collision_free (state t) → collision_free (state u) → agree (state t) (state u) →
  hash_proper t → hash_proper u →
  verify_range (hash_no_commit t) first_key keys values [] = Ok b ↔
  b = false ∧ length keys = length values ∧ increasing keys = true ∧
  Forall (λ v, v ≠ []) values ∧ M = list_to_map (zip keys values).
Proof.
  intros t u M Hops HM Hb Hct Hcu Ha Hpt Hpu.
  destruct (run_ops_ok ops (trie_new d) ∅ (trie_new_ok d) Hops Hct) as [_ Ht]. fold t M in Ht.
  assert (Forall (λ v, v ≠ []) values ↔ existsb vec_is_empty values = false) as ->.
  { rewrite <-not_true_iff_false, existsb_exists, Forall_forall. split.
    - intros Hv (v & Hin%list_elem_of_In & Hn). apply (Hv v Hin). by destruct v.
    - intros Hv v Hin ->. apply Hv. exists []. split; [by apply list_elem_of_In|done]. }
  unfold verify_range, check. cbn [vec_is_empty].
  destruct (length keys =? length values)%nat eqn:El; [|split; [done|]];
    [apply Nat.eqb_eq in El|apply Nat.eqb_neq in El; naive_solver].
  destruct (increasing keys) eqn:Ei; [|split; [done|naive_solver]].
  destruct (existsb vec_is_empty values) eqn:Ee; [split; [done|naive_solver]|].
  cbn [negb mbind outcome_bind].
  destruct (range_trie_ok keys values Hb El Ei Ee Hcu) as [Hrun Hu]. fold u in Hrun, Hu.
  unfold verify_full, check_root. rewrite Hrun. cbn [mbind outcome_bind]. rewrite stateless_hash.
  cbn [mbind outcome_bind]. unfold check. case_bool_decide as Eh; cbn [mbind outcome_bind].
  - assert (M = list_to_map (zip keys values)) as HMeq.
    { apply (trie_ok_binding t u); [done..|].
      eapply hash_root; [exact Ht|exact Hu|exact HM|by apply range_keys|exact Hpt|exact Hpu|done]. }
    naive_solver.
  - split; [done|]. intros (_ & _ & _ & _ & HMeq). destruct Eh. rewrite HMeq in Ht.
    unfold hash_no_commit. by rewrite (trie_ok_canonical t u _ Ht Hu).
Qed.

(** ** The state filled from a proof *)

Lemma tm_bind_Ok {D A B} (m : TM D A) (f : A → TM D B) s b s'' :
  (m ≫= f) s = (Ok b, s'') → ∃ a s', m s = (Ok a, s') ∧ f a s' = (Ok b, s'').
Proof. unfold mbind, tm_bind. destruct (m s) as [[a| | |] s1]; naive_solver. Qed.

Section filled.
Context `{CryptoLaws} (P : ProofNodeStorage).

Implicit Types (s : TrieState NullTrieDB).

(** The state finds a node. *)
Definition found s (h : NodeHash) (n : Node) : Prop := get_node s h = Ok (Some n).

(** All that it finds is in the proof. *)
Definition from_storage s : Prop := ∀ h n, found s h n → proof_get_node P h = Ok n.

Lemma stateless_from_storage : from_storage (state stateless).
Proof.
  intros [x|e] n; unfold found; cbn; [done|].
  intros (n' & Hd & [= <-])%bind_Ok. by rewrite Hd.
Qed.

Lemma found_insert s h n h' n' s' :
  insert_node n h s = (Ok (), s') → found s' h' n' ↔
  (h' = h ∧ is_hashed h ∧ n' = n) ∨ (h' ≠ h ∨ ¬ is_hashed h) ∧ found s h' n'.
Proof.
  unfold insert_node, found. intros [= <-]. destruct h as [x|e]; cbn [is_hashed]; [|naive_solver].
  destruct h' as [y|e']; cbn [get_node]; [|naive_solver]. cbn [cache cache_get].
  case_decide as E; [simplify_eq; naive_solver|]. cbn [db]. naive_solver.
Qed.

(** A state that grows along the proof. *)
Definition fills s s' : Prop :=
  (from_storage s → from_storage s') ∧
  ∀ h n, from_storage s → found s h n → found s' h n.

#[export] Instance fills_preorder : PreOrder fills.
Proof.
  split; [by intros s|]. intros s1 s2 s3 [Hf1 Hk1] [Hf2 Hk2]. split; [by intros ?%Hf1%Hf2|].
  intros h n Hf Hn. apply Hk2; [by apply Hf1|by apply Hk1].
Qed.

Lemma insert_fills s h n s' :
  proof_get_node P h = Ok n → insert_node n h s = (Ok (), s') → fills s s' ∧ found s' h n.
Proof.
  intros Hp Hi. pose proof (λ h' n', found_insert s h n h' n' s' Hi) as Hf. split; [split|].
  - intros Hs h' n' [(-> & _ & ->)|[_ Hn]]%Hf; [done|by apply Hs].
  - intros h' n' Hs Hn. apply Hf. destruct h as [x|e]; [|by (right; split; [right; intros []|])].
    destruct (decide (h' = Hashed x)) as [->|Hne]; [|by (right; split; [left|])].
    left. pose proof (Hs _ _ Hn) as Hn'. rewrite Hp in Hn'. by injection Hn' as ->.
  - destruct h as [x|e]; [apply Hf; by left|]. cbn in Hp. injection Hi as <-. unfold found. cbn.
    apply map_err_Ok in Hp. by rewrite Hp.
Qed.

(** One call of [fill_node]. *)
Lemma fill_node_step fuel path h s v s' :
  fill_node fuel path h P s = (Ok v, s') →
  ∃ fuel' n child path' s1, fuel = S fuel' ∧ proof_get_node P h = Ok n ∧
    get_child path n = Ok (child, path') ∧ fills s s1 ∧ found s1 h n ∧
    match child with
    | Some child => fill_node fuel' path' child P s1 = (Ok v, s')
    | None => v = end_value path' n ∧ s' = s1
    end.
Proof.
  destruct fuel as [|fuel]; [done|]. cbn [fill_node].
  intros (n & s0 & Hn & ([child path'] & s1 & Hc & (u & s2 & Hi & Hk)%tm_bind_Ok)%tm_bind_Ok)%tm_bind_Ok.
  injection Hn as Hn <-. injection Hc as Hc <-. destruct u.
  destruct (insert_fills s h n s2 Hn Hi) as [Hf Hfd].
  exists fuel, n, child, path', s2. split_and!; [done..|]. destruct child; [done|].
  by injection Hk as <- <-.
Qed.

Lemma fill_node_fills fuel path h s v s' : fill_node fuel path h P s = (Ok v, s') → fills s s'.
Proof.
  revert path h s. induction fuel as [|fuel IH]; intros path h s Hrun;
    destruct (fill_node_step _ _ _ _ _ _ Hrun) as (fuel' & n & child & path' & s1 & E & _ & _ & Hf & _ & Hk);
    [done|]. injection E as <-. etrans; [exact Hf|]. destruct child; [by eapply IH|].
  by destruct Hk as [_ ->].
Qed.
End filled.

(** ** Following a key of the trie *)

(** The map has a greater key. *)
Definition has_greater (m : Map) (k : list Z) : Prop :=
  ∃ q w, nibbles q ∧ m q = Some w ∧ Nibbles.cmp k q = Lt.

Section greater.
Context {D : Type} `{TrieDB D} `{CryptoLaws}.

Lemma has_greater_meq m1 m2 k : meq m1 m2 → has_greater m1 k ↔ has_greater m2 k.
Proof. intros He. split; intros (q & w & Hq & Hm & Hc); exists q, w; by rewrite ?He, <-?He in *. Qed.

Lemma has_greater_single k v : ¬ has_greater (single k v) k.
Proof.
  intros (q & w & _ & Hm & Hc). unfold single, upd in Hm. case_decide; [subst|done].
  by rewrite cmp_irrefl in Hc.
Qed.

Lemma has_greater_under p m k : nibbles p → has_greater (under p m) (p ++ k) ↔ has_greater m k.
Proof.
  intros Hp. split.
  - intros (q & w & Hq & (r & -> & Hm)%under_Some & Hc). rewrite cmp_app in Hc.
    apply nibbles_app in Hq as [_ Hr]. by exists r, w.
  - intros (q & w & Hq & Hm & Hc). exists (p ++ q), w. rewrite under_app, cmp_app.
    by rewrite nibbles_app.
Qed.

Lemma keys_under r p m m' :
  nibbles p → meq m (under p m') → keys_of_length r m → keys_of_length (r - len p) m'.
Proof.
  intros Hp Hm Hr q v Hq Hv. assert (nibbles (p ++ q)) as Hn by (by apply nibbles_app).
  assert (len (p ++ q) = r) as Hl by (apply (Hr _ v Hn); rewrite Hm by done; by rewrite under_app).
  rewrite len_app in Hl. lia.
Qed.

(** Used slots to the right of a choice. *)
Lemma slots_right (s : TrieState D) f i :
  slots_ok s f → (i < 16)%nat →
  existsb is_valid (drop (S i) (choices_of f)) = true ↔ ∃ j, (i < j < 16)%nat ∧ is_Some (f j).
Proof.
  intros Hf Hi. rewrite existsb_exists. split.
  - intros (h & [j Hj]%list_elem_of_In%list_elem_of_lookup & Hv). rewrite lookup_drop in Hj.
    assert (S i + j < 16)%nat as Hlt.
    { apply lookup_lt_Some in Hj. by rewrite choices_of_length in Hj. }
    rewrite choices_of_lookup in Hj by done. injection Hj as <-. exists (S i + j)%nat.
    split; [lia|]. cbn in Hv |- *. destruct (f (S (i + j))); [by eexists|done].
  - intros (j & Hj & [[n m] Hn]). exists (slot_hash (f j)). split; [|by eapply slot_valid].
    apply list_elem_of_In, list_elem_of_lookup. exists (j - S i)%nat.
    rewrite lookup_drop. replace (S i + (j - S i))%nat with j by lia. rewrite choices_of_lookup by lia.
    done.
Qed.

Lemma has_greater_right (s : TrieState D) f v x k j :
  slots_ok s f → nibble x → (Z.to_nat x < j < 16)%nat → is_Some (f j) →
  has_greater (branch_map f v) (x :: k).
Proof.
  intros Hf Hx Hj [[n m] Hn]. destruct (Hf j n m Hn) as [_ Hr].
  destruct (Rep_nonempty _ _ _ Hr) as (q & w & Hq & Hw). apply nibble_index in Hx.
  exists (Z.of_nat j :: q), w. split_and!.
  - constructor; [apply index_nibble; lia|done].
  - cbn. by rewrite Nat2Z.id, Hn.
  - apply cmp_cons_lt. lia.
Qed.

Lemma has_greater_slot f v x k n m :
  nibble x → f (Z.to_nat x) = Some (n, m) → (∀ j, (Z.to_nat x < j < 16)%nat → ¬ is_Some (f j)) →
  has_greater (branch_map f v) (x :: k) ↔ has_greater m k.
Proof.
  intros Hx Hf Hno. split.
  - intros ([|y q] & w & Hq & Hm & Hc); [done|]. apply Forall_cons in Hq as [Hy Hq]. cbn in Hc, Hm.
    destruct (Z.compare_spec x y) as [->|Hlt|]; [|exfalso|done].
    { rewrite Hf in Hm. by exists q, w. }
    apply nibble_index in Hx, Hy. destruct (f (Z.to_nat y)) eqn:E; [|done].
    apply (Hno (Z.to_nat y)); [lia|]. by rewrite E.
  - intros (q & w & Hq & Hm & Hc). exists (x :: q), w. split_and!; [by constructor|by cbn; rewrite Hf|].
    cbn. by rewrite Z.compare_refl.
Qed.
End greater.

Section follow.
Context {D : Type} `{TrieDB D} `{CryptoLaws} (s1 : TrieState D) (P : ProofNodeStorage).

(** The proof and the trie know the same node by a hash. *)
Definition proof_agrees : Prop :=
  ∀ h n1 n2, knows s1 h n1 → proof_get_node P h = Ok n2 → n1 = n2.

Context (Ha : proof_agrees).

(** The value that filling the state finds for a key, and what the filled state
    then says of greater keys. *)
Definition followed (m : Map) (h : NodeHash) (k v : list Z) (s' : TrieState NullTrieDB) : Prop :=
  v = default [] (m k) ∧
  (is_Some (m k) → ∀ fuel s2, fills P s' s2 → (length k < fuel)%nat →
     ∃ b, has_right_element_inner fuel h (k ++ [16]) s2 = Ok b ∧ (b = true ↔ has_greater m k)).

Lemma followed_leaf h s s' k0 v0 m k :
  meq m (single k0 v0) → nibbles k → from_storage P s → fills P s s' →
  found s' h (Leaf (k0 ++ [16]) v0) →
  followed m h k (end_value (k ++ [16]) (Leaf (k0 ++ [16]) v0)) s'.
Proof.
  intros Hm Hk Hs Hf Hfd. split.
  - rewrite Hm by done. cbn. unfold single, upd. case_decide as E; case_decide as E2; simplify_eq/=;
      try done. by apply app_flag_inj in E.
  - rewrite Hm by done. unfold single, upd. case_decide as E; [subst k0|by intros []].
    intros _ [|fuel] s2 Hf2 Hfuel; [lia|]. cbn [has_right_element_inner].
    rewrite (proj2 Hf2 _ _ (proj1 Hf Hs) Hfd). exists false. split; [done|]. split; [done|].
    intros Hg%(has_greater_meq _ _ _ Hm). by apply has_greater_single in Hg.
Qed.

Lemma followed_extension h s s0 s' p m m' k child v :
  meq m (under p m') → nibbles p → p ≠ [] → from_storage P s → fills P s s0 → fills P s0 s' →
  found s0 h (Extension p child) → nibbles (p ++ k) →
  followed m' child k v s' → followed m h (p ++ k) v s'.
Proof.
  intros Hm Hp Hne Hs Hf0 Hf Hfd Hk [Hv Hright].
  rewrite <-under_app with (p := p), <-Hm in Hv by done.
  split; [done|]. rewrite Hm, under_app by done. intros Hsome [|fuel] s2 Hf2 Hfuel; [lia|].
  cbn [has_right_element_inner].
  rewrite (proj2 Hf2 _ _ (proj1 Hf (proj1 Hf0 Hs)) (proj2 Hf _ _ (proj1 Hf0 Hs) Hfd)).
  rewrite <-app_assoc, skip_prefix_app. setoid_rewrite (has_greater_meq _ _ _ Hm).
  setoid_rewrite has_greater_under; [|done]. apply Hright; [done..|].
  rewrite length_app in Hfuel. destruct p; [done|]. cbn in Hfuel. lia.
Qed.

Lemma followed_branch h s s0 s' (f : Slots) v0 m x k n m' v :
  meq m (branch_map f v0) → slots_ok s1 f → from_storage P s → fills P s s0 → fills P s0 s' →
  found s0 h (Branch (choices_of f) v0) → nibbles (x :: k) → f (Z.to_nat x) = Some (n, m') →
  followed m' (slot_hash (f (Z.to_nat x))) k v s' → followed m h (x :: k) v s'.
Proof.
  intros Hm Hsl Hs Hf0 Hf Hfd Hk Hn [Hv Hright]. apply Forall_cons in Hk as Hk'. destruct Hk' as [Hx _].
  assert (m (x :: k) = m' k) as Em by (rewrite Hm by done; cbn; by rewrite Hn).
  split; [by rewrite Em|]. rewrite Em. intros Hsome [|fuel] s2 Hf2 Hfuel; [lia|].
  cbn [has_right_element_inner].
  rewrite (proj2 Hf2 _ _ (proj1 Hf (proj1 Hf0 Hs)) (proj2 Hf _ _ (proj1 Hf0 Hs) Hfd)).
  cbn [app]. rewrite next_choice_nibble by done. pose proof (nibble_index x Hx) as [Hi _].
  setoid_rewrite (has_greater_meq _ _ _ Hm). pose proof (slots_right s1 f (Z.to_nat x) Hsl Hi) as Hr.
  destruct (existsb is_valid _).
  - exists true. destruct (proj1 Hr eq_refl) as (j & Hj & Hsj). split; [done|].
    split; [|done]. intros _. by eapply has_greater_right.
  - rewrite choice_at_slots by done. cbn [mbind outcome_bind].
    rewrite (slot_valid s1 f _ n m' Hsl Hn).
    setoid_rewrite (has_greater_slot _ _ _ _ n m'); [|done|done|].
    + apply Hright; [done..|]. cbn in Hfuel. lia.
    + intros j Hj Hsj. by discriminate (proj2 Hr (ex_intro _ j (conj Hj Hsj))).
Qed.

(** A branch above keys of one length has no value. *)
Lemma branch_no_value (f : Slots) v0 m x (k : list Z) :
  meq m (branch_map f v0) → keys_of_length (len (x :: k)) m → v0 = [].
Proof.
  intros Hm Hlen. destruct (decide (v0 = [])) as [|Hv0]; [done|]. exfalso.
  assert (0 = len (x :: k)) as Hl.
  { apply (Hlen [] v0); [constructor|]. rewrite Hm by constructor. by apply value_of_Some. }
  rewrite len_cons in Hl. pose proof (len_nonneg k). lia.
Qed.

(** A path that leaves the trie finds nothing. *)
Lemma followed_none m h k s' : m k = None → followed m h k [] s'.
Proof. intros Hm. split; [by rewrite Hm|]. rewrite Hm. by intros []. Qed.

Lemma fill_node_followed n m :
  Rep s1 n m → ∀ h k fuel s v s', knows s1 h n → nibbles k → keys_of_length (len k) m →
  from_storage P s → fill_node fuel (k ++ [16]) h P s = (Ok v, s') → followed m h k v s'.
Proof.
  induction 1 as [k0 v0 m Hk0 Hne Hb Hm|p cs v0 m' m Hp Hne Hkn Hr IH Hm|f v0 m Hkn Hf IH Hb Ht Hm];
    intros h k fuel s v s' Hkh Hk Hlen Hs Hrun;
    destruct (fill_node_step _ _ _ _ _ _ _ Hrun)
      as (fuel' & n' & child & path' & s0 & -> & Hget & Hchild & Hf0 & Hfd & Hrest);
    pose proof (Ha _ _ _ Hkh Hget) as <-; clear Hrun Hget.
  - injection Hchild as <- <-. destruct Hrest as [-> ->]. by eapply followed_leaf.
  - cbn [get_child] in Hchild. rewrite skip_prefix_flag in Hchild by done.
    destruct (Nibbles.skip_prefix k p) as [q|] eqn:E; cbn in Hchild; injection Hchild as <- <-; cycle 1.
    { destruct Hrest as [-> ->]. apply followed_none. rewrite Hm by done. unfold under. by rewrite E. }
    apply skip_prefix_Some in E as ->. apply nibbles_app in Hk as Hk'. destruct Hk' as [_ Hq].
    eapply followed_extension; [done..|by eapply fill_node_fills|done|done|].
    eapply IH; [exact Hkn|done| |by apply (proj1 Hf0)|exact Hrest].
    pose proof (keys_under _ p m m' Hp Hm Hlen) as Hl. rewrite len_app in Hl.
    by replace (len p + len q - len p) with (len q) in Hl by lia.
  - assert (slots_ok s1 f) as Hsl by (intros i n' m'' Hi; split; [by eapply Hkn|by eapply Hf]).
    destruct k as [|x k].
    { destruct (branch_parts s1 f v0 m (len []) Hsl Ht Hm Hlen) as (i & j & _ & _ & _ & Hr). by cbn in Hr. }
    apply Forall_cons in Hk as Hk'. destruct Hk' as [Hx Hk']. cbn [app get_child] in Hchild.
    rewrite next_choice_nibble in Hchild by done. pose proof (nibble_index x Hx) as [Hi _].
    rewrite choice_at_slots in Hchild by done. cbn [mbind outcome_bind] in Hchild.
    destruct (slot_cases s1 f (Z.to_nat x) Hsl) as [(n & m' & Hn & Ev & Hh & Hkn' & Hrn)|[Hn Ev]];
      rewrite Ev in Hchild; injection Hchild as <- <-.
    + eapply followed_branch; [done..|by eapply fill_node_fills|done|done|exact Hn|].
      eapply IH; [exact Hn|exact Hkn'|done| |by apply (proj1 Hf0)|exact Hrest].
      pose proof (branch_child_keys s1 f v0 m (len (x :: k)) _ n m' Hm Hlen Hi Hn) as Hl.
      by replace (len (x :: k) - 1) with (len k) in Hl by (rewrite len_cons; lia).
    + destruct Hrest as [-> ->]. cbn [end_value].
      rewrite (branch_no_value f v0 m x k Hm Hlen). apply followed_none. rewrite Hm by done. cbn. by rewrite Hn.
Qed.
End follow.

(** Greater keys of a map of byte strings. *)
Lemma has_greater_view M key :
  map_ok M → bytes key →
  has_greater (view M) (nibs key) ↔ ∃ k w, M !! k = Some w ∧ Nibbles.cmp key k = Lt.
Proof.
  intros HM Hk. split.
  - intros (q & w & Hq & Hv & Hc). unfold view in Hv.
    destruct (Nat.even (length q)) eqn:Ee; [|done]. exists (Nibbles.pack q), w. split; [done|].
    destruct (HM _ _ Hv) as [Hb _]. rewrite <-cmp_nibs by done. by rewrite nibs_pack.
  - intros (k & w & Hw & Hc). destruct (HM _ _ Hw) as [Hb _]. exists (nibs k), w.
    rewrite view_nibs, cmp_nibs by done. split_and!; [by apply nibs_spec|done|done].
Qed.

(** ** The proof of a key *)

Lemma from_proof_lookup `{Crypto} proof :
  (∀ e e', e ∈ proof → e' ∈ proof → keccak e = keccak e' → e = e') →
  ∀ e, e ∈ proof → nodes (from_proof proof) !! keccak e = Some e.
Proof.
  unfold from_proof. cbn [nodes]. induction proof as [|e' proof IH] using rev_ind; intros Hinj e He.
  { by apply not_elem_of_nil in He. }
  rewrite foldl_snoc. destruct (decide (keccak e = keccak e')) as [E|E].
  - rewrite E, lookup_insert_eq. f_equal. symmetry. apply Hinj; [done| |done].
    apply elem_of_app. right. constructor.
  - rewrite lookup_insert_ne by done. apply elem_of_app in He as [He|He].
    + apply IH; [|done]. intros e1 e2 H1' H2'. apply Hinj; apply elem_of_app; by left.
    + by apply list_elem_of_singleton in He as ->.
Qed.

Section complete.
Context {D : Type} `{TrieDB D} `{CryptoLaws} (s1 : TrieState D) (P : ProofNodeStorage).
Context (Hc : collision_free s1).

(** The encodings are in the proof. *)
Definition in_proof (encs : list (list Z)) : Prop :=
  ∀ e, e ∈ encs → nodes P !! keccak e = Some e ∧ len e ≤ isize_max.

Lemma proof_has n : node_ok n → in_proof (own_path n) → proof_get_node P (compute_hash n) = Ok n.
Proof.
  intros Hn Hin. unfold compute_hash, from_encoded_raw, own_path in *.
  destruct (Z.leb_spec 32 (len (encode_raw n))) as [Hl|Hl]; cbn.
  - destruct (Hin (encode_raw n)) as [Hl1 Hl2]; [constructor|]. rewrite Hl1. cbn.
    by rewrite decode_encode_raw.
  - rewrite decode_encode_raw; [done..|]. unfold isize_max. lia.
Qed.

Lemma in_proof_app l1 l2 : in_proof (l1 ++ l2) → in_proof l1 ∧ in_proof l2.
Proof. intros Hin. split; intros e He; apply Hin, elem_of_app; [by left|by right]. Qed.

(** Filling along a key takes a step at the node of the trie. *)
Lemma fill_node_run n fuel path s child path' :
  node_ok n → in_proof (own_path n) → get_child path n = Ok (child, path') →
  ∃ s1, fill_node (S fuel) path (compute_hash n) P s =
    match child with
    | Some child => fill_node fuel path' child P s1
    | None => (Ok (end_value path' n), s1)
    end.
Proof.
  intros Hok Hin Hch. cbn [fill_node]. unfold mbind, tm_bind, liftT.
  rewrite (proof_has n Hok Hin), Hch. cbn. eexists. by destruct child.
Qed.

Definition fill_completes (n : Node) : Prop :=
  ∀ k fuel fuel' encs s, nibbles k → node_get_path fuel s1 n (k ++ [16]) = Ok encs →
  in_proof encs → (length k < fuel')%nat →
  ∃ v s', fill_node fuel' (k ++ [16]) (compute_hash n) P s = (Ok v, s').

Lemma extension_completes p n :
  node_ok (Extension p (compute_hash n)) → nibbles p → p ≠ [] → knows s1 (compute_hash n) n →
  fill_completes n → fill_completes (Extension p (compute_hash n)).
Proof.
  intros Hok Hp Hne Hkn IH k [|fuel] [|fuel'] encs s Hk Hpath Hin Hfuel; try done; try lia.
  cbn [node_get_path] in Hpath. pose proof (skip_prefix_flag k p Hp) as Hflag.
  rewrite Hflag in Hpath. destruct (Nibbles.skip_prefix k p) as [q|] eqn:E; cbn in Hpath, Hflag.
  - apply skip_prefix_Some in E as ->. apply nibbles_app in Hk as [_ Hq].
    rewrite (require_node_knows s1 _ _ Hc Hkn) in Hpath. cbn [mbind outcome_bind] in Hpath.
    apply bind_Ok in Hpath as (rest & Hrest & [= <-]). apply in_proof_app in Hin as [Hin1 Hin2].
    destruct (fill_node_run _ fuel' ((p ++ q) ++ [16]) s (Some (compute_hash n)) (q ++ [16]) Hok Hin1)
      as (s2 & ->); [cbn; by rewrite Hflag|].
    eapply IH; [done|exact Hrest|done|].
    rewrite length_app in Hfuel. destruct p; [done|]. cbn in Hfuel. lia.
  - injection Hpath as <-.
    destruct (fill_node_run _ fuel' (k ++ [16]) s None (k ++ [16]) Hok Hin) as (s2 & ->);
      [cbn; by rewrite Hflag|]. eauto.
Qed.

Lemma branch_completes (f : Slots) v0 :
  node_ok (Branch (choices_of f) v0) → slots_ok s1 f →
  (∀ i n m, f i = Some (n, m) → fill_completes n) → fill_completes (Branch (choices_of f) v0).
Proof.
  intros Hok Hsl IH k [|fuel] [|fuel'] encs s Hk Hpath Hin Hfuel; try done; try lia.
  cbn [node_get_path] in Hpath. destruct k as [|x k]; cbn [app] in *.
  { injection Hpath as <-.
    destruct (fill_node_run _ fuel' [16] s None [] Hok Hin eq_refl) as (s2 & ->). eauto. }
  apply Forall_cons in Hk as [Hx Hk]. pose proof (next_choice_nibble x (k ++ [16]) Hx) as Hnext.
  rewrite Hnext in Hpath. pose proof (nibble_index x Hx) as [Hi _].
  rewrite choice_at_slots in Hpath by done. cbn [mbind outcome_bind] in Hpath.
  assert (get_child (x :: k ++ [16]) (Branch (choices_of f) v0) =
    Ok (if is_valid (slot_hash (f (Z.to_nat x))) then Some (slot_hash (f (Z.to_nat x))) else None,
        k ++ [16])) as Hch by (cbn [get_child]; rewrite Hnext, choice_at_slots by done; done).
  destruct (slot_cases s1 f (Z.to_nat x) Hsl) as [(n & m & Hn & Ev & Hh & Hkn & Hrn)|[Hn Ev]];
    rewrite Ev in Hpath, Hch.
  - rewrite (require_node_knows s1 _ _ Hc Hkn) in Hpath. cbn [mbind outcome_bind] in Hpath.
    apply bind_Ok in Hpath as (rest & Hrest & [= <-]). apply in_proof_app in Hin as [Hin1 Hin2].
    destruct (fill_node_run _ fuel' _ s _ _ Hok Hin1 Hch) as (s2 & ->). rewrite Hh.
    eapply IH; [exact Hn|done|exact Hrest|done|]. cbn in Hfuel. lia.
  - injection Hpath as <-. destruct (fill_node_run _ fuel' _ s _ _ Hok Hin Hch) as (s2 & ->). eauto.
Qed.

Lemma fill_node_complete n m : Rep s1 n m → fill_completes n.
Proof.
  intros Hrep. pose proof (Rep_node_ok _ _ _ Hrep) as Hok.
  induction Hrep as [k0 v0 m Hk0 Hne Hb Hm|p cs v0 m' m Hp Hne Hkn Hr IH Hm|f v0 m Hkn Hf IH Hb Ht Hm].
  - intros k [|fuel] [|fuel'] encs s Hk Hpath Hin Hfuel; try done; try lia. injection Hpath as <-.
    destruct (fill_node_run _ fuel' (k ++ [16]) s None (k ++ [16]) Hok Hin eq_refl) as (s' & ->). eauto.
  - apply extension_completes; [done..|]. by eapply IH, Rep_node_ok.
  - apply branch_completes; [done| |].
    + intros i n m' Hi. split; [by eapply Hkn|by eapply Hf].
    + intros i n m' Hi. eapply IH; [exact Hi|]. by eapply Rep_node_ok, Hf.
Qed.
End complete.

(** The root of a trie with elements and hashed keys. *)
Lemma hashed_root {D} `{TrieDB D} `{CryptoLaws} (t : Trie D) M :
  trie_ok t M → hashed_keys M → M ≠ ∅ →
  ∃ x n, root t = Some (Hashed x) ∧ hash_no_commit t = x ∧ Hashed x = compute_hash n ∧
    knows (state t) (Hashed x) n ∧ Rep (state t) n (view M).
Proof.
  intros Ht HM Hne. pose proof (λ e, trie_root_hashed t M e Ht HM) as Hh. destruct Ht as [_ Ht].
  unfold hash_no_commit. destruct (root t) as [[x|e]|]; [|by destruct (Hh e)|done].
  destruct Ht as (n & Hx & Hkn & Hr). by exists x, n.
Qed.

(** A range of one key that has a proof. *)
Lemma single_range `{Crypto} root key v proof :
  proof ≠ [] → verify_range root key [key] [v] proof =
    if vec_is_empty v then Err Verify
    else verify_single (proof_fuel proof) root key key v (from_proof proof).
Proof.
  intros Hp. destruct proof as [|e proof]; [done|]. unfold verify_range. cbn [last length increasing].
  cbn [Nat.eqb check mbind outcome_bind existsb orb]. destruct (vec_is_empty v); [done|].
  cbn [orb negb check mbind outcome_bind vec_is_empty andb]. by rewrite bool_decide_true.
Qed.

(** Filling the state along a key of 32 bytes. *)
Lemma single_followed {D} `{TrieDB D} `{CryptoLaws} (t : Trie D) M n x key fuel proof v s' :
  (64 < fuel)%nat → map_ok M → hashed_keys M → knows (state t) (Hashed x) n → Rep (state t) n (view M) →
  bytes key → len key = 32 → proof_agrees (state t) (from_proof proof) →
  fill_state fuel x key (from_proof proof) (state stateless) = (Ok v, s') →
  v = default [] (M !! key) ∧
  (is_Some (M !! key) → ∃ b, has_right_element fuel x key s' = Ok b ∧
     (b = true ↔ ∃ k w, M !! k = Some w ∧ Nibbles.cmp key k = Lt)).
Proof.
  intros Hfu HM Hh Hkn Hr Hk Hl Ha Hf. destruct (nibs_spec key Hk) as (Hn & _ & _ & Hnl).
  unfold fill_state in Hf. rewrite from_bytes_nibs in Hf.
  assert (len (nibs key) = 64) as Hl64 by (unfold len in *; lia).
  destruct (fill_node_followed (state t) (from_proof proof) Ha n (view M) Hr (Hashed x) (nibs key)
    fuel (state stateless) v s' Hkn Hn) as [Hv Hgr]; [|apply stateless_from_storage|exact Hf|].
  { rewrite Hl64. by apply view_keys. }
  rewrite view_nibs in Hv, Hgr by done. split; [done|]. intros Hsome.
  destruct (Hgr Hsome fuel s') as (b & Hb & Hiff); [done| |].
  { unfold len in *. lia. }
  exists b. unfold has_right_element. rewrite from_bytes_nibs. split; [done|].
  by rewrite Hiff, has_greater_view.
Qed.

(** The proof that a trie gives fills the state. *)
Lemma get_proof_fills {D} `{TrieDB D} `{CryptoLaws} (t : Trie D) M n x key fuel proof :
  (64 < fuel)%nat → collision_free (state t) → root t = Some (Hashed x) → Hashed x = compute_hash n →
  knows (state t) (Hashed x) n → Rep (state t) n (view M) → bytes key → len key = 32 →
  get_proof t key = Ok proof →
  (∀ e e', e ∈ proof → e' ∈ proof → keccak e = keccak e' → e = e') →
  Forall (λ e, len e ≤ isize_max) proof →
  ∃ v s', fill_state fuel x key (from_proof proof) (state stateless) = (Ok v, s').
Proof.
  intros Hfu Hc Er Hx Hkn Hr Hk Hl Hgp Hinj Hsz. destruct (nibs_spec key Hk) as (Hn & _ & _ & Hnl).
  unfold get_proof in Hgp. rewrite Er, (get_node_knows _ _ _ Hc Hkn) in Hgp.
  cbn [mbind outcome_bind] in Hgp. apply bind_Ok in Hgp as (rest & Hrest & [= <-]).
  unfold fill_state. rewrite from_bytes_nibs in Hrest |- *. rewrite Hx.
  eapply fill_node_complete; [exact Hc|exact Hr|exact Hn|exact Hrest| |].
  - intros e He. split; [by apply from_proof_lookup|]. by apply (proj1 (Forall_forall _ _) Hsz).
  - unfold len in *. lia.
Qed.

(** A range of one key.  If [verify_range] accepts a key and a value with any
    proof for the root of a trie, then the trie has that value at the key, and the
    answer says whether it has greater keys, unless nodes collide; and it accepts
    every key of the trie with its value and the proof that [get_proof] gives. *)
Theorem single_range_correct {D} `{TrieDB D} `{CryptoLaws} (d : D) (ops : list TrieOp)
    (key v : list Z) (proof : list (list Z)) :
  let t := (run_ops ops (trie_new d)).2 in
  let M := (spec_ops ops ∅).2 in
  Forall op_ok ops → hashed_keys M → collision_free (state t) →
  bytes key → len key = 32 → M ≠ ∅ → proof ≠ [] →
  proof_agrees (state t) (from_proof proof) →
  (∀ b, verify_range (hash_no_commit t) key [key] [v] proof = Ok b →
     M !! key = Some v ∧ (b = true ↔ ∃ k w, M !! k = Some w ∧ Nibbles.cmp key k = Lt)) ∧
  (get_proof t key = Ok proof → M !! key = Some v →
   (∀ e e', e ∈ proof → e' ∈ proof → keccak e = keccak e' → e = e') →
   Forall (λ e, len e ≤ isize_max) proof →
   ∃ b, verify_range (hash_no_commit t) key [key] [v] proof = Ok b).
Proof.
  intros t M Hops HM Hc Hk Hl Hne Hp Ha.
  destruct (run_ops_ok ops (trie_new d) ∅ (trie_new_ok d) Hops Hc) as [_ Ht]. fold t M in Ht.
  clearbody t M. clear Hops. pose proof Ht as [HMok _].
  destruct (hashed_root t M Ht HM Hne) as (x & n & Er & Ex & Hx & Hkn & Hr).
  rewrite Ex, single_range by done. unfold verify_single.
  assert (64 < proof_fuel proof)%nat as Hfu by (unfold proof_fuel; lia).
  generalize dependent (proof_fuel proof). intros fuel Hfu. split.
  - intros b Hrun. destruct (vec_is_empty v) eqn:Ev; [done|].
    destruct (fill_state _ x key _ _) as [found s'] eqn:Ef.
    apply bind_Ok in Hrun as (w & -> & Hrun). rewrite (bool_decide_true (key = key)) in Hrun by done.
    cbn [check mbind outcome_bind] in Hrun.
    unfold check in Hrun. case_bool_decide as Ew; [subst w|done]. cbn [mbind outcome_bind] in Hrun.
    destruct (single_followed t M n x key fuel proof v s') as [Hv Hgr]; [done..|].
    destruct (M !! key) as [w|] eqn:EM; cbn in Hv; subst v; [|done]. split; [done|].
    destruct Hgr as (b' & Hb' & Hiff); [by eexists|]. rewrite Hb' in Hrun. by injection Hrun as <-.
  - intros Hgp Hv Hinj Hsz. destruct (HMok key v Hv) as [_ [Hvne _]].
    destruct (get_proof_fills t M n x key fuel proof) as (w & s' & Ef); [done..|].
    destruct (single_followed t M n x key fuel proof w s') as [Hw Hgr]; [done..|].
    rewrite Hv in Hw, Hgr. cbn in Hw. subst w. destruct Hgr as (b & Hb & _); [by eexists|].
    exists b. rewrite Ef. destruct v; [done|]. cbn [vec_is_empty mbind outcome_bind].
    rewrite !bool_decide_true by done. exact Hb.
Qed.

(** ** Concrete ranges *)

Definition range_key (a b : Z) : list Z := a :: b :: replicate 30 0.
Definition range_value (b : Z) : list Z := replicate 40 b.

(** Four elements: two below the nibbles 1, 0, then one below 2 and one below 3. *)
Definition range_elements : list (list Z * list Z) :=
  [(range_key 0x10 0x10, range_value 1); (range_key 0x10 0x50, range_value 2);
   (range_key 0x20 0, range_value 3); (range_key 0x30 0, range_value 4)].
Definition range_demo : Trie NullTrieDB := Eval vm_compute in
  (run_ops (inserts_of range_elements) stateless).2.
Definition range_root : list Z := Eval vm_compute in hash_no_commit range_demo.

(** The proofs that the trie gives for the two edges. *)
Definition edge_proofs {D} `{TrieDB D} (t : Trie D) (first_key last_key : list Z) : list (list Z) :=
  match get_proof t first_key, get_proof t last_key with
  | Ok to_first, Ok to_last => to_first ++ to_last
  | _, _ => []
  end.

Lemma range_demo_eq : (run_ops (inserts_of range_elements) stateless).2 = range_demo.
Proof. vm_compute. reflexivity. Qed.

Lemma range_ops_ok : Forall op_ok (inserts_of range_elements).
Proof. repeat constructor; try done; lia. Qed.

Lemma range_map : (spec_ops (inserts_of range_elements) ∅).2 = list_to_map range_elements.
Proof. vm_compute. reflexivity. Qed.

Lemma range_hashed : hashed_keys (list_to_map range_elements).
Proof. apply (bool_decide_unpack _). vm_compute. exact I. Qed.

Lemma range_free : collision_free (state range_demo).
Proof. apply collision_free_check; check_nodes. Qed.

Example full_range_exact_witness :
  verify_range range_root [] (range_elements.*1) (range_elements.*2) [] = Ok false.
Proof.
  change range_root with (hash_no_commit range_demo).
  pose proof (full_range_exact NullDB (inserts_of range_elements) []
    (range_elements.*1) (range_elements.*2) false range_ops_ok) as Hw.
  cbv zeta in Hw. rewrite range_map in Hw. fold stateless in Hw. rewrite range_demo_eq in Hw.
  apply Hw.
  - exact range_hashed.
  - split; repeat constructor; lia.
  - exact range_free.
  - apply collision_free_check; check_nodes.
  - apply agree_check; check_nodes.
  - intros _. vm_compute. discriminate.
  - intros _. vm_compute. discriminate.
  - split_and!; [reflexivity|reflexivity|vm_compute; reflexivity| |vm_compute; reflexivity].
    repeat constructor; discriminate.
Defined.

Definition single_proof : list (list Z) := Eval vm_compute in
  match get_proof range_demo (range_key 0x20 0) with Ok proof => proof | _ => [] end.

Lemma single_proof_eq : get_proof range_demo (range_key 0x20 0) = Ok single_proof.
Proof. vm_compute. reflexivity. Qed.

(** A check that the nodes of a proof are those of a cache. *)
Definition storage_consistent (c : list (NodeHash * Node)) (P : ProofNodeStorage) : bool :=
  forallb (λ e, match proof_get_node P e.1 with Ok n => bool_decide (e.2 = n) | _ => true end) c.

Lemma proof_agrees_check {D} `{TrieDB D} (s : TrieState D) P :
  (∀ x, db_get (db s) x = Ok None) → storage_consistent (cache s) P = true → proof_agrees s P.
Proof.
  intros Hd Hc [x|e] n1 n2; cbn [knows].
  - intros [Hk|(r & Hr & _)] Hn; [|by rewrite Hd in Hr].
    unfold storage_consistent in Hc. rewrite forallb_forall in Hc.
    specialize (Hc _ (proj1 (list_elem_of_In _ _) Hk)). cbn [fst snd] in Hc. rewrite Hn in Hc.
    by apply bool_decide_eq_true in Hc.
  - intros Hk Hn. cbn in Hn. rewrite Hk in Hn. cbn in Hn. congruence.
Qed.

Lemma single_proof_distinct e e' :
  e ∈ single_proof → e' ∈ single_proof → keccak e = keccak e' → e = e'.
Proof.
  assert (Forall (λ e, Forall (λ e', keccak e = keccak e' → e = e') single_proof) single_proof) as Hf.
  { apply (bool_decide_unpack _). vm_compute. exact I. }
  intros He He'. apply (proj1 (Forall_forall _ _) (proj1 (Forall_forall _ _) Hf e He) e' He').
Qed.

Example single_range_correct_witness :
  ∃ b, verify_range range_root (range_key 0x20 0) [range_key 0x20 0] [range_value 3] single_proof = Ok b.
Proof.
  change range_root with (hash_no_commit range_demo).
  pose proof (single_range_correct NullDB (inserts_of range_elements) (range_key 0x20 0)
    (range_value 3) single_proof range_ops_ok) as Hw.
  cbv zeta in Hw. rewrite range_map in Hw. fold stateless in Hw. rewrite range_demo_eq in Hw.
  apply Hw.
  - exact range_hashed.
  - exact range_free.
  - repeat constructor; lia.
  - reflexivity.
  - intros He. discriminate (f_equal (λ m, m !! range_key 0x20 0) He).
  - discriminate.
  - apply proof_agrees_check; [reflexivity|vm_compute; reflexivity].
  - exact single_proof_eq.
  - vm_compute. reflexivity.
  - exact single_proof_distinct.
  - apply (bool_decide_unpack _). vm_compute. exact I.
Defined.

(** A trie of one element. *)
Definition leaf_demo : Trie NullTrieDB := Eval vm_compute in
  (trie_insert (range_key 0x30 0) (range_value 4) stateless).2.

(** Ranges with two edges are not verified.  With the proofs that a trie gives for
    the two edges, [verify_range] (1) accepts a range that leaves out an element
    between the first and the last key: what is cut out on the left edge is put
    back under its old hash, so the root does not depend on it; (2) rejects the
    correct range from a key on, when the path to that key ends in a leaf before
    it; (3) accepts that there is nothing from a key on, though the only leaf is
    after it; (4) panics when both edges leave the trie at the same branch. *)
Theorem verify_range_flaws :
  let k := range_key in
  let v := range_value in
  (verify_range range_root (k 0x10 0x20) [k 0x20 0] [v 3]
     (edge_proofs range_demo (k 0x10 0x20) (k 0x20 0)) = Ok true ∧
   trie_get range_demo (k 0x10 0x50) = Ok (Some (v 2)) ∧
   Nibbles.cmp (k 0x10 0x20) (k 0x10 0x50) = Lt ∧ Nibbles.cmp (k 0x10 0x50) (k 0x20 0) = Lt) ∧
  (verify_range range_root (k 0x20 5) [k 0x30 0] [v 4]
     (edge_proofs range_demo (k 0x20 5) (k 0x30 0)) = Err Verify ∧
   trie_get range_demo (k 0x30 0) = Ok (Some (v 4))) ∧
  (verify_range (hash_no_commit leaf_demo) (k 0x10 0) [] []
     (edge_proofs leaf_demo (k 0x10 0) (k 0x10 0)) = Ok false ∧
   trie_get leaf_demo (k 0x30 0) = Ok (Some (v 4)) ∧
   Nibbles.cmp (k 0x10 0) (k 0x30 0) = Lt) ∧
  verify_range range_root (k 0x40 0) [k 0x40 0; k 0x41 0] [v 1; v 2]
    (edge_proofs range_demo (k 0x40 0) (k 0x41 0)) = Panic.
Proof. cbv zeta. split_and!; vm_compute; reflexivity. Qed.
