(* ===== verification/Tx.v ===== *)
(** * Transactions (crates/common/types/transaction.rs)

    The five transaction types with their codecs, the canonical (EIP-2718) and
    the RLP form of [Transaction], its accessors, signing and the recovery of
    the sender, and the transaction of the mempool.  Each struct is a module of
    its own with the struct as [t].  secp256k1 is a parameter, the class
    [Secp256k1]; the JSON forms are not modelled. *)

From stdpp Require Import base option list numbers strings pretty.
From S2P Require Import Prelude Rlp RlpStruct LevmHost.

Local Open Scope Z_scope.
Local Open Scope rlp_scope.

Notation Address := (ByteArray 20).
Notation H256 := (ByteArray 32).
#[export] Instance ByteArray_eq_dec N : EqDecision (ByteArray N) :=
  (_ : EqDecision (list Z)).
Notation AccessList := (list (Address * list H256)).

(** ** Kinds and type numbers *)

Inductive TxKind := Call (address : Address) | Create.

Definition TxKind_encode (k : TxKind) : list Z :=
  match k with
  | Call address => encode address
  | Create => [RLP_NULL]
  end.

Definition TxKind_decode (rlp : list Z) : Decoded (TxKind * list Z) :=
  first_byte ← ok_or (head rlp) InvalidLength;
  if first_byte =? RLP_NULL then Ok (Create, drop 1 rlp)
  else
    '(t, rest) ← decode_unfinished (T := Address) rlp;
    Ok (Call t, rest).

#[export] Instance TxKind_RLPEncode : RLPEncode TxKind := mk_encode TxKind_encode.
#[export] Instance TxKind_RLPDecode : RLPDecode TxKind := TxKind_decode.

Module PrivilegedTxType.
Inductive t := Deposit | Withdrawal.

Definition from_u8 (value : Z) : option t :=
  if value =? 0x01 then Some Deposit
  else if value =? 0x02 then Some Withdrawal
  else None.

Definition encode (x : t) : list Z :=
  match x with Deposit => [0x01] | Withdrawal => [0x02] end.

Definition decode_unfinished (rlp : list Z) : Decoded (t * list Z) :=
  '(b, rest) ← decode_u8 rlp;
  tx_type ← ok_or (from_u8 b) (CustomText "Invalid");
  Ok (tx_type, rest).
End PrivilegedTxType.

#[export] Instance PrivilegedTxType_RLPEncode : RLPEncode PrivilegedTxType.t :=
  mk_encode PrivilegedTxType.encode.
#[export] Instance PrivilegedTxType_RLPDecode : RLPDecode PrivilegedTxType.t :=
  PrivilegedTxType.decode_unfinished.

Module TxType.
Inductive t := Legacy | EIP2930 | EIP1559 | EIP4844 | Privileged.

(** [From<TxType> for u8], and the cast [as u8]. *)
Definition to_u8 (x : t) : Z :=
  match x with
  | Legacy => 0x00
  | EIP2930 => 0x01
  | EIP1559 => 0x02
  | EIP4844 => 0x03
  | Privileged => 0x7e
  end.

Definition from_u8 (value : Z) : option t :=
  if value =? 0x00 then Some Legacy
  else if value =? 0x01 then Some EIP2930
  else if value =? 0x02 then Some EIP1559
  else if value =? 0x03 then Some EIP4844
  else if value =? 0x7e then Some Privileged
  else None.
End TxType.

(** The message of an unknown type byte. *)
Definition invalid_transaction_type (ty : Z) : RLPDecodeError :=
  CustomText ("Invalid transaction type: " +:+ pretty ty).

(** ** The structs *)

Module LegacyTransaction.
Record t := {
  nonce : u64;
  gas_price : u64;
  gas : u64;
  to : TxKind;
  value : u256;
  data : Bytes;
  v : u256;
  r : u256;
  s : u256;
}.

Definition encode (x : t) : list Z :=
  Encoder.finish [] (Encoder.new
    ⊕ nonce x ⊕ gas_price x ⊕ gas x ⊕ to x ⊕ value x ⊕ data x
    ⊕ v x ⊕ r x ⊕ s x).

Definition encode_payload (x : t) : list Z :=
  Encoder.finish [] (Encoder.new
    ⊕ nonce x ⊕ gas_price x ⊕ gas x ⊕ to x ⊕ value x ⊕ data x).

Definition decode_unfinished (rlp : list Z) : Decoded (t * list Z) :=
  decoder ← Decoder.new rlp;
  '(nonce, decoder) ← Decoder.decode_field (T := u64) decoder "nonce";
  '(gas_price, decoder) ← Decoder.decode_field (T := u64) decoder "gas_price";
  '(gas, decoder) ← Decoder.decode_field (T := u64) decoder "gas";
  '(to, decoder) ← Decoder.decode_field (T := TxKind) decoder "to";
  '(value, decoder) ← Decoder.decode_field (T := u256) decoder "value";
  '(data, decoder) ← Decoder.decode_field (T := Bytes) decoder "data";
  '(v, decoder) ← Decoder.decode_field (T := u256) decoder "v";
  '(r, decoder) ← Decoder.decode_field (T := u256) decoder "r";
  '(s, decoder) ← Decoder.decode_field (T := u256) decoder "s";
  rest ← Decoder.finish decoder;
  Ok ({| nonce := nonce; gas_price := gas_price; gas := gas; to := to;
         value := value; data := data; v := v; r := r; s := s |}, rest).

(** The fields [sign_inplace] assigns. *)
Definition set_signature (recovery_id r_ s_ : Z) (x : t) : t :=
  {| nonce := nonce x; gas_price := gas_price x; gas := gas x; to := to x; value := value x;
     data := data x; v := recovery_id; r := r_; s := s_ |}.
End LegacyTransaction.

Module EIP2930Transaction.
Record t := {
  chain_id : u64;
  nonce : u64;
  gas_price : u64;
  gas_limit : u64;
  to : TxKind;
  value : u256;
  data : Bytes;
  access_list : AccessList;
  signature_y_parity : bool;
  signature_r : u256;
  signature_s : u256;
}.

Definition encode (x : t) : list Z :=
  Encoder.finish [] (Encoder.new
    ⊕ chain_id x ⊕ nonce x ⊕ gas_price x ⊕ gas_limit x ⊕ to x ⊕ value x ⊕ data x
    ⊕ access_list x ⊕ signature_y_parity x ⊕ signature_r x ⊕ signature_s x).

Definition encode_payload (x : t) : list Z :=
  Encoder.finish [] (Encoder.new
    ⊕ chain_id x ⊕ nonce x ⊕ gas_price x ⊕ gas_limit x ⊕ to x ⊕ value x ⊕ data x
    ⊕ access_list x).

Definition decode_unfinished (rlp : list Z) : Decoded (t * list Z) :=
  decoder ← Decoder.new rlp;
  '(chain_id, decoder) ← Decoder.decode_field (T := u64) decoder "chain_id";
  '(nonce, decoder) ← Decoder.decode_field (T := u64) decoder "nonce";
  '(gas_price, decoder) ← Decoder.decode_field (T := u64) decoder "gas_price";
  '(gas_limit, decoder) ← Decoder.decode_field (T := u64) decoder "gas_limit";
  '(to, decoder) ← Decoder.decode_field (T := TxKind) decoder "to";
  '(value, decoder) ← Decoder.decode_field (T := u256) decoder "value";
  '(data, decoder) ← Decoder.decode_field (T := Bytes) decoder "data";
  '(access_list, decoder) ← Decoder.decode_field (T := AccessList) decoder "access_list";
  '(signature_y_parity, decoder) ← Decoder.decode_field (T := bool) decoder "signature_y_parity";
  '(signature_r, decoder) ← Decoder.decode_field (T := u256) decoder "signature_r";
  '(signature_s, decoder) ← Decoder.decode_field (T := u256) decoder "signature_s";
  rest ← Decoder.finish decoder;
  Ok ({| chain_id := chain_id; nonce := nonce; gas_price := gas_price;
         gas_limit := gas_limit; to := to; value := value; data := data;
         access_list := access_list; signature_y_parity := signature_y_parity;
         signature_r := signature_r; signature_s := signature_s |}, rest).

(** The fields [sign_inplace] assigns. *)
Definition set_signature (parity : bool) (r s : Z) (x : t) : t :=
  {| chain_id := chain_id x; nonce := nonce x; gas_price := gas_price x;
     gas_limit := gas_limit x; to := to x; value := value x; data := data x;
     access_list := access_list x; signature_y_parity := parity; signature_r := r;
     signature_s := s |}.
End EIP2930Transaction.

Module EIP1559Transaction.
Record t := {
  chain_id : u64;
  nonce : u64;
  max_priority_fee_per_gas : u64;
  max_fee_per_gas : u64;
  gas_limit : u64;
  to : TxKind;
  value : u256;
  data : Bytes;
  access_list : AccessList;
  signature_y_parity : bool;
  signature_r : u256;
  signature_s : u256;
}.

Definition encode (x : t) : list Z :=
  Encoder.finish [] (Encoder.new
    ⊕ chain_id x ⊕ nonce x ⊕ max_priority_fee_per_gas x ⊕ max_fee_per_gas x
    ⊕ gas_limit x ⊕ to x ⊕ value x ⊕ data x ⊕ access_list x
    ⊕ signature_y_parity x ⊕ signature_r x ⊕ signature_s x).

Definition encode_payload (x : t) : list Z :=
  Encoder.finish [] (Encoder.new
    ⊕ chain_id x ⊕ nonce x ⊕ max_priority_fee_per_gas x ⊕ max_fee_per_gas x
    ⊕ gas_limit x ⊕ to x ⊕ value x ⊕ data x ⊕ access_list x).

Definition decode_unfinished (rlp : list Z) : Decoded (t * list Z) :=
  decoder ← Decoder.new rlp;
  '(chain_id, decoder) ← Decoder.decode_field (T := u64) decoder "chain_id";
  '(nonce, decoder) ← Decoder.decode_field (T := u64) decoder "nonce";
  '(max_priority_fee_per_gas, decoder) ←
    Decoder.decode_field (T := u64) decoder "max_priority_fee_per_gas";
  '(max_fee_per_gas, decoder) ← Decoder.decode_field (T := u64) decoder "max_fee_per_gas";
  '(gas_limit, decoder) ← Decoder.decode_field (T := u64) decoder "gas_limit";
  '(to, decoder) ← Decoder.decode_field (T := TxKind) decoder "to";
  '(value, decoder) ← Decoder.decode_field (T := u256) decoder "value";
  '(data, decoder) ← Decoder.decode_field (T := Bytes) decoder "data";
  '(access_list, decoder) ← Decoder.decode_field (T := AccessList) decoder "access_list";
  '(signature_y_parity, decoder) ← Decoder.decode_field (T := bool) decoder "signature_y_parity";
  '(signature_r, decoder) ← Decoder.decode_field (T := u256) decoder "signature_r";
  '(signature_s, decoder) ← Decoder.decode_field (T := u256) decoder "signature_s";
  rest ← Decoder.finish decoder;
  Ok ({| chain_id := chain_id; nonce := nonce;
         max_priority_fee_per_gas := max_priority_fee_per_gas;
         max_fee_per_gas := max_fee_per_gas; gas_limit := gas_limit; to := to;
         value := value; data := data; access_list := access_list;
         signature_y_parity := signature_y_parity;
         signature_r := signature_r; signature_s := signature_s |}, rest).

(** The fields [sign_inplace] assigns. *)
Definition set_signature (parity : bool) (r s : Z) (x : t) : t :=
  {| chain_id := chain_id x; nonce := nonce x;
     max_priority_fee_per_gas := max_priority_fee_per_gas x;
     max_fee_per_gas := max_fee_per_gas x; gas_limit := gas_limit x; to := to x;
     value := value x; data := data x; access_list := access_list x;
     signature_y_parity := parity; signature_r := r; signature_s := s |}.
End EIP1559Transaction.

Module EIP4844Transaction.
Record t := {
  chain_id : u64;
  nonce : u64;
  max_priority_fee_per_gas : u64;
  max_fee_per_gas : u64;
  gas : u64;
  to : Address;
  value : u256;
  data : Bytes;
  access_list : AccessList;
  max_fee_per_blob_gas : u256;
  blob_versioned_hashes : list H256;
  signature_y_parity : bool;
  signature_r : u256;
  signature_s : u256;
}.

Definition encode (x : t) : list Z :=
  Encoder.finish [] (Encoder.new
    ⊕ chain_id x ⊕ nonce x ⊕ max_priority_fee_per_gas x ⊕ max_fee_per_gas x
    ⊕ gas x ⊕ to x ⊕ value x ⊕ data x ⊕ access_list x
    ⊕ max_fee_per_blob_gas x ⊕ blob_versioned_hashes x
    ⊕ signature_y_parity x ⊕ signature_r x ⊕ signature_s x).

Definition encode_payload (x : t) : list Z :=
  Encoder.finish [] (Encoder.new
    ⊕ chain_id x ⊕ nonce x ⊕ max_priority_fee_per_gas x ⊕ max_fee_per_gas x
    ⊕ gas x ⊕ to x ⊕ value x ⊕ data x ⊕ access_list x
    ⊕ max_fee_per_blob_gas x ⊕ blob_versioned_hashes x).

Definition decode_unfinished (rlp : list Z) : Decoded (t * list Z) :=
  decoder ← Decoder.new rlp;
  '(chain_id, decoder) ← Decoder.decode_field (T := u64) decoder "chain_id";
  '(nonce, decoder) ← Decoder.decode_field (T := u64) decoder "nonce";
  '(max_priority_fee_per_gas, decoder) ←
    Decoder.decode_field (T := u64) decoder "max_priority_fee_per_gas";
  '(max_fee_per_gas, decoder) ← Decoder.decode_field (T := u64) decoder "max_fee_per_gas";
  '(gas, decoder) ← Decoder.decode_field (T := u64) decoder "gas";
  '(to, decoder) ← Decoder.decode_field (T := Address) decoder "to";
  '(value, decoder) ← Decoder.decode_field (T := u256) decoder "value";
  '(data, decoder) ← Decoder.decode_field (T := Bytes) decoder "data";
  '(access_list, decoder) ← Decoder.decode_field (T := AccessList) decoder "access_list";
  '(max_fee_per_blob_gas, decoder) ←
    Decoder.decode_field (T := u256) decoder "max_fee_per_blob_gas";
  '(blob_versioned_hashes, decoder) ←
    Decoder.decode_field (T := list H256) decoder "blob_versioned_hashes";
  '(signature_y_parity, decoder) ← Decoder.decode_field (T := bool) decoder "signature_y_parity";
  '(signature_r, decoder) ← Decoder.decode_field (T := u256) decoder "signature_r";
  '(signature_s, decoder) ← Decoder.decode_field (T := u256) decoder "signature_s";
  rest ← Decoder.finish decoder;
  Ok ({| chain_id := chain_id; nonce := nonce;
         max_priority_fee_per_gas := max_priority_fee_per_gas;
         max_fee_per_gas := max_fee_per_gas; gas := gas; to := to;
         value := value; data := data; access_list := access_list;
         max_fee_per_blob_gas := max_fee_per_blob_gas;
         blob_versioned_hashes := blob_versioned_hashes;
         signature_y_parity := signature_y_parity;
         signature_r := signature_r; signature_s := signature_s |}, rest).

(** The fields [sign_inplace] assigns. *)
Definition set_signature (parity : bool) (r s : Z) (x : t) : t :=
  {| chain_id := chain_id x; nonce := nonce x;
     max_priority_fee_per_gas := max_priority_fee_per_gas x;
     max_fee_per_gas := max_fee_per_gas x; gas := gas x; to := to x; value := value x;
     data := data x; access_list := access_list x;
     max_fee_per_blob_gas := max_fee_per_blob_gas x;
     blob_versioned_hashes := blob_versioned_hashes x; signature_y_parity := parity;
     signature_r := r; signature_s := s |}.
End EIP4844Transaction.

Module PrivilegedL2Transaction.
Record t := {
  chain_id : u64;
  nonce : u64;
  max_priority_fee_per_gas : u64;
  max_fee_per_gas : u64;
  gas_limit : u64;
  to : TxKind;
  value : u256;
  data : Bytes;
  access_list : AccessList;
  tx_type : PrivilegedTxType.t;
  signature_y_parity : bool;
  signature_r : u256;
  signature_s : u256;
}.

Definition encode (x : t) : list Z :=
  Encoder.finish [] (Encoder.new
    ⊕ chain_id x ⊕ nonce x ⊕ max_priority_fee_per_gas x ⊕ max_fee_per_gas x
    ⊕ gas_limit x ⊕ to x ⊕ value x ⊕ data x ⊕ access_list x ⊕ tx_type x
    ⊕ signature_y_parity x ⊕ signature_r x ⊕ signature_s x).

Definition encode_payload (x : t) : list Z :=
  Encoder.finish [] (Encoder.new
    ⊕ chain_id x ⊕ nonce x ⊕ max_priority_fee_per_gas x ⊕ max_fee_per_gas x
    ⊕ gas_limit x ⊕ to x ⊕ value x ⊕ data x ⊕ access_list x ⊕ tx_type x).

Definition decode_unfinished (rlp : list Z) : Decoded (t * list Z) :=
  decoder ← Decoder.new rlp;
  '(chain_id, decoder) ← Decoder.decode_field (T := u64) decoder "chain_id";
  '(nonce, decoder) ← Decoder.decode_field (T := u64) decoder "nonce";
  '(max_priority_fee_per_gas, decoder) ←
    Decoder.decode_field (T := u64) decoder "max_priority_fee_per_gas";
  '(max_fee_per_gas, decoder) ← Decoder.decode_field (T := u64) decoder "max_fee_per_gas";
  '(gas_limit, decoder) ← Decoder.decode_field (T := u64) decoder "gas_limit";
  '(to, decoder) ← Decoder.decode_field (T := TxKind) decoder "to";
  '(value, decoder) ← Decoder.decode_field (T := u256) decoder "value";
  '(data, decoder) ← Decoder.decode_field (T := Bytes) decoder "data";
  '(access_list, decoder) ← Decoder.decode_field (T := AccessList) decoder "access_list";
  '(tx_type, decoder) ← Decoder.decode_field (T := PrivilegedTxType.t) decoder "tx_type";
  '(signature_y_parity, decoder) ← Decoder.decode_field (T := bool) decoder "signature_y_parity";
  '(signature_r, decoder) ← Decoder.decode_field (T := u256) decoder "signature_r";
  '(signature_s, decoder) ← Decoder.decode_field (T := u256) decoder "signature_s";
  rest ← Decoder.finish decoder;
  Ok ({| chain_id := chain_id; nonce := nonce;
         max_priority_fee_per_gas := max_priority_fee_per_gas;
         max_fee_per_gas := max_fee_per_gas; gas_limit := gas_limit; to := to;
         value := value; data := data; access_list := access_list; tx_type := tx_type;
         signature_y_parity := signature_y_parity;
         signature_r := signature_r; signature_s := signature_s |}, rest).

(** The fields [sign_inplace] assigns. *)
Definition set_signature (parity : bool) (r s : Z) (x : t) : t :=
  {| chain_id := chain_id x; nonce := nonce x;
     max_priority_fee_per_gas := max_priority_fee_per_gas x;
     max_fee_per_gas := max_fee_per_gas x; gas_limit := gas_limit x; to := to x;
     value := value x; data := data x; access_list := access_list x; tx_type := tx_type x;
     signature_y_parity := parity; signature_r := r; signature_s := s |}.
End PrivilegedL2Transaction.

#[export] Instance Legacy_RLPEncode : RLPEncode LegacyTransaction.t :=
  mk_encode LegacyTransaction.encode.
#[export] Instance EIP2930_RLPEncode : RLPEncode EIP2930Transaction.t :=
  mk_encode EIP2930Transaction.encode.
#[export] Instance EIP1559_RLPEncode : RLPEncode EIP1559Transaction.t :=
  mk_encode EIP1559Transaction.encode.
#[export] Instance EIP4844_RLPEncode : RLPEncode EIP4844Transaction.t :=
  mk_encode EIP4844Transaction.encode.
#[export] Instance Privileged_RLPEncode : RLPEncode PrivilegedL2Transaction.t :=
  mk_encode PrivilegedL2Transaction.encode.

#[export] Instance Legacy_RLPDecode : RLPDecode LegacyTransaction.t :=
  LegacyTransaction.decode_unfinished.
#[export] Instance EIP2930_RLPDecode : RLPDecode EIP2930Transaction.t :=
  EIP2930Transaction.decode_unfinished.
#[export] Instance EIP1559_RLPDecode : RLPDecode EIP1559Transaction.t :=
  EIP1559Transaction.decode_unfinished.
#[export] Instance EIP4844_RLPDecode : RLPDecode EIP4844Transaction.t :=
  EIP4844Transaction.decode_unfinished.
#[export] Instance Privileged_RLPDecode : RLPDecode PrivilegedL2Transaction.t :=
  PrivilegedL2Transaction.decode_unfinished.

#[export] Instance TxKind_eq_dec : EqDecision TxKind.
Proof. solve_decision. Defined.
#[export] Instance TxType_eq_dec : EqDecision TxType.t.
Proof. solve_decision. Defined.

Inductive Transaction :=
| LegacyTransaction (tx : LegacyTransaction.t)
| EIP2930Transaction (tx : EIP2930Transaction.t)
| EIP1559Transaction (tx : EIP1559Transaction.t)
| EIP4844Transaction (tx : EIP4844Transaction.t)
| PrivilegedL2Transaction (tx : PrivilegedL2Transaction.t).

(** ** secp256k1

    The operations of the crate: signatures in compact form are 64 bytes and a
    recovery id, public keys are in their uncompressed form of 65 bytes.
    [public_key] gives the key of a secret key; only specifications use it. *)
Class Secp256k1 := {
  SecretKey : Type;
  RecoverableSignature : Type;
  from_compact : list Z → Z → option RecoverableSignature;
  serialize_compact : RecoverableSignature → Z * list Z;
  sign_ecdsa_recoverable : list Z → SecretKey → RecoverableSignature;
  recover_ecdsa : list Z → RecoverableSignature → option (list Z);
  public_key : SecretKey → list Z;
}.

(** [Message::from_digest_slice]: a digest has 32 bytes. *)
Definition from_digest_slice (digest : list Z) : option (list Z) :=
  if (length digest =? 32)%nat then Some digest else None.

(** [U256::as_u64] panics on a larger number. *)
Definition as_u64 {E} (x : Z) : Outcome E Z := if fits 64 x then Ok x else Panic.

Module Transaction.

Definition tx_type (self : Transaction) : TxType.t :=
  match self with
  | LegacyTransaction _ => TxType.Legacy
  | EIP2930Transaction _ => TxType.EIP2930
  | EIP1559Transaction _ => TxType.EIP1559
  | EIP4844Transaction _ => TxType.EIP4844
  | PrivilegedL2Transaction _ => TxType.Privileged
  end.

(** *** Canonical encoding *)

Definition encode_canonical_to_vec (self : Transaction) : list Z :=
  match self with
  | LegacyTransaction _ => []
  | _ => [TxType.to_u8 (tx_type self)]
  end ++
  match self with
  | LegacyTransaction t => encode t
  | EIP2930Transaction t => encode t
  | EIP1559Transaction t => encode t
  | EIP4844Transaction t => encode t
  | PrivilegedL2Transaction t => encode t
  end.

Definition decode_canonical (bs : list Z) : Decoded Transaction :=
  match bs with
  | tx_type :: tx_bytes =>
      if tx_type <? 0x7f then
        if tx_type =? 0x0 then LegacyTransaction <$> decode tx_bytes
        else if tx_type =? 0x1 then EIP2930Transaction <$> decode tx_bytes
        else if tx_type =? 0x2 then EIP1559Transaction <$> decode tx_bytes
        else if tx_type =? 0x3 then EIP4844Transaction <$> decode tx_bytes
        else if tx_type =? 0x7e then PrivilegedL2Transaction <$> decode tx_bytes
        else Err (invalid_transaction_type tx_type)
      else LegacyTransaction <$> decode bs
  | [] => LegacyTransaction <$> decode bs
  end.

(** *** RLP *)

Definition encode (self : Transaction) : list Z :=
  match self with
  | LegacyTransaction t => Rlp.encode t
  | tx => encode_slice (encode_canonical_to_vec tx)
  end.

(** [.map(|(tx, rem)| (C(tx), rem))]. *)
Definition map_tx {T} (C : T → Transaction) (m : Decoded (T * list Z)) :
    Decoded (Transaction * list Z) :=
  prod_map C id <$> m.

Definition decode_unfinished (rlp : list Z) : Decoded (Transaction * list Z) :=
  as_bytes ← is_encoded_as_bytes rlp;
  if as_bytes : bool then
    payload ← get_rlp_bytes_item_payload rlp;
    match payload with
    | [] => Err InvalidLength
    | tx_type :: tx_encoding =>
        if tx_type =? 0x0 then map_tx LegacyTransaction (Rlp.decode_unfinished tx_encoding)
        else if tx_type =? 0x1 then map_tx EIP2930Transaction (Rlp.decode_unfinished tx_encoding)
        else if tx_type =? 0x2 then map_tx EIP1559Transaction (Rlp.decode_unfinished tx_encoding)
        else if tx_type =? 0x3 then map_tx EIP4844Transaction (Rlp.decode_unfinished tx_encoding)
        else if tx_type =? 0x7e then
          map_tx PrivilegedL2Transaction (Rlp.decode_unfinished tx_encoding)
        else Err (invalid_transaction_type tx_type)
    end
  else map_tx LegacyTransaction (Rlp.decode_unfinished rlp).

Definition encode_payload (self : Transaction) : list Z :=
  match self with
  | LegacyTransaction tx => LegacyTransaction.encode_payload tx
  | EIP1559Transaction tx => EIP1559Transaction.encode_payload tx
  | EIP2930Transaction tx => EIP2930Transaction.encode_payload tx
  | EIP4844Transaction tx => EIP4844Transaction.encode_payload tx
  | PrivilegedL2Transaction tx => PrivilegedL2Transaction.encode_payload tx
  end.

(** *** Accessors *)

Definition gas_limit (self : Transaction) : Z :=
  match self with
  | LegacyTransaction tx => LegacyTransaction.gas tx
  | EIP2930Transaction tx => EIP2930Transaction.gas_limit tx
  | EIP1559Transaction tx => EIP1559Transaction.gas_limit tx
  | EIP4844Transaction tx => EIP4844Transaction.gas tx
  | PrivilegedL2Transaction tx => PrivilegedL2Transaction.gas_limit tx
  end.

Definition gas_price (self : Transaction) : Z :=
  match self with
  | LegacyTransaction tx => LegacyTransaction.gas_price tx
  | EIP2930Transaction tx => EIP2930Transaction.gas_price tx
  | EIP1559Transaction tx => EIP1559Transaction.max_fee_per_gas tx
  | EIP4844Transaction tx => EIP4844Transaction.max_fee_per_gas tx
  | PrivilegedL2Transaction tx => PrivilegedL2Transaction.max_fee_per_gas tx
  end.

Definition to (self : Transaction) : TxKind :=
  match self with
  | LegacyTransaction tx => LegacyTransaction.to tx
  | EIP2930Transaction tx => EIP2930Transaction.to tx
  | EIP1559Transaction tx => EIP1559Transaction.to tx
  | EIP4844Transaction tx => Call (EIP4844Transaction.to tx)
  | PrivilegedL2Transaction tx => PrivilegedL2Transaction.to tx
  end.

Definition value (self : Transaction) : Z :=
  match self with
  | LegacyTransaction tx => LegacyTransaction.value tx
  | EIP2930Transaction tx => EIP2930Transaction.value tx
  | EIP1559Transaction tx => EIP1559Transaction.value tx
  | EIP4844Transaction tx => EIP4844Transaction.value tx
  | PrivilegedL2Transaction tx => PrivilegedL2Transaction.value tx
  end.

Definition max_priority_fee (self : Transaction) : option Z :=
  match self with
  | LegacyTransaction _ => None
  | EIP2930Transaction _ => None
  | EIP1559Transaction tx => Some (EIP1559Transaction.max_priority_fee_per_gas tx)
  | EIP4844Transaction tx => Some (EIP4844Transaction.max_priority_fee_per_gas tx)
  | PrivilegedL2Transaction tx => Some (PrivilegedL2Transaction.max_priority_fee_per_gas tx)
  end.

Definition max_fee_per_gas (self : Transaction) : option Z :=
  match self with
  | LegacyTransaction _ => None
  | EIP2930Transaction _ => None
  | EIP1559Transaction tx => Some (EIP1559Transaction.max_fee_per_gas tx)
  | EIP4844Transaction tx => Some (EIP4844Transaction.max_fee_per_gas tx)
  | PrivilegedL2Transaction tx => Some (PrivilegedL2Transaction.max_fee_per_gas tx)
  end.

Definition access_list (self : Transaction) : AccessList :=
  match self with
  | LegacyTransaction _ => []
  | EIP2930Transaction tx => EIP2930Transaction.access_list tx
  | EIP1559Transaction tx => EIP1559Transaction.access_list tx
  | EIP4844Transaction tx => EIP4844Transaction.access_list tx
  | PrivilegedL2Transaction tx => PrivilegedL2Transaction.access_list tx
  end.

Definition nonce (self : Transaction) : Z :=
  match self with
  | LegacyTransaction tx => LegacyTransaction.nonce tx
  | EIP2930Transaction tx => EIP2930Transaction.nonce tx
  | EIP1559Transaction tx => EIP1559Transaction.nonce tx
  | EIP4844Transaction tx => EIP4844Transaction.nonce tx
  | PrivilegedL2Transaction tx => PrivilegedL2Transaction.nonce tx
  end.

Definition data (self : Transaction) : list Z :=
  match self with
  | LegacyTransaction tx => LegacyTransaction.data tx
  | EIP2930Transaction tx => EIP2930Transaction.data tx
  | EIP1559Transaction tx => EIP1559Transaction.data tx
  | EIP4844Transaction tx => EIP4844Transaction.data tx
  | PrivilegedL2Transaction tx => PrivilegedL2Transaction.data tx
  end.

Definition blob_versioned_hashes (self : Transaction) : list H256 :=
  match self with
  | EIP4844Transaction tx => EIP4844Transaction.blob_versioned_hashes tx
  | _ => []
  end.

Definition max_fee_per_blob_gas (self : Transaction) : option Z :=
  match self with
  | EIP4844Transaction tx => Some (EIP4844Transaction.max_fee_per_blob_gas tx)
  | _ => None
  end.

(** [matches!(to, TxKind::Create)]. *)
Definition is_create (k : TxKind) : bool :=
  match k with Create => true | Call _ => false end.

Definition is_contract_creation (self : Transaction) : bool :=
  match self with
  | LegacyTransaction t => is_create (LegacyTransaction.to t)
  | EIP2930Transaction t => is_create (EIP2930Transaction.to t)
  | EIP1559Transaction t => is_create (EIP1559Transaction.to t)
  | EIP4844Transaction _ => false
  | PrivilegedL2Transaction t => is_create (PrivilegedL2Transaction.to t)
  end.

Definition gas_tip_cap (self : Transaction) : Z :=
  default (gas_price self) (max_priority_fee self).

Definition gas_fee_cap (self : Transaction) : Z :=
  default (gas_price self) (max_fee_per_gas self).

Definition effective_gas_tip (self : Transaction) (base_fee : option Z) : option Z :=
  match base_fee with
  | None => Some (gas_tip_cap self)
  | Some base_fee =>
      tip ← checked_sub 64 (gas_fee_cap self) base_fee;
      Some (Z.min tip (gas_tip_cap self))
  end.

Definition cost_without_base_fee (self : Transaction) : option Z :=
  price ← match tx_type self with
          | TxType.Legacy => Some (gas_price self)
          | TxType.EIP2930 => Some (gas_price self)
          | TxType.EIP1559 => max_fee_per_gas self
          | TxType.EIP4844 => max_fee_per_gas self
          | TxType.Privileged => Some (gas_price self)
          end;
  Some (saturating_add 256 (Z.min (price * gas_limit self) (2 ^ 256 - 1)) (value self)).

Definition protected {E} (self : Transaction) : Outcome E bool :=
  match self with
  | LegacyTransaction tx =>
      if bits (LegacyTransaction.v tx) <=? 8 then
        v ← as_u64 (LegacyTransaction.v tx);
        Ok (negb (v =? 27) && negb (v =? 28) && negb (v =? 1) && negb (v =? 0))
      else Ok true
  | _ => Ok true
  end.

Section arithmetic.
Context `{BuildProfile} {E : Type}.

Definition effective_gas_price (self : Transaction) (base_fee_per_gas : option Z) :
    Outcome E (option Z) :=
  let with_base_fee :=
    match max_priority_fee self, max_fee_per_gas self, base_fee_per_gas with
    | Some tip, Some fee, Some base_fee =>
        above ← u_sub 64 fee base_fee;
        price ← u_add 64 (Z.min tip above) base_fee;
        Ok (Some price)
    | _, _, _ => Ok None
    end in
  match tx_type self with
  | TxType.Legacy => Ok (Some (gas_price self))
  | TxType.EIP2930 => Ok (Some (gas_price self))
  | TxType.EIP1559 => with_base_fee
  | TxType.EIP4844 => with_base_fee
  | TxType.Privileged => Ok (Some (gas_price self))
  end.

Definition derive_legacy_chain_id (v : Z) : Outcome E (option Z) :=
  v ← as_u64 v;
  if (v =? 27) || (v =? 28) then Ok None
  else
    n ← u_sub 64 v 35;
    Ok (Some (n / 2)).

Definition chain_id (self : Transaction) : Outcome E (option Z) :=
  match self with
  | LegacyTransaction tx => derive_legacy_chain_id (LegacyTransaction.v tx)
  | EIP2930Transaction tx => Ok (Some (EIP2930Transaction.chain_id tx))
  | EIP1559Transaction tx => Ok (Some (EIP1559Transaction.chain_id tx))
  | EIP4844Transaction tx => Ok (Some (EIP4844Transaction.chain_id tx))
  | PrivilegedL2Transaction tx => Ok (Some (PrivilegedL2Transaction.chain_id tx))
  end.
End arithmetic.

(** *** Signing and recovery *)

Section signing.
Context `{Crypto, Secp256k1, BuildProfile} {E : Type}.

Definition compute_hash (self : Transaction) : list Z :=
  keccak (encode_canonical_to_vec self).

Definition recover_address (signature_r signature_s : Z) (signature_y_parity : bool)
    (message : list Z) : Outcome E (list Z) :=
  let signature_bytes := be_encode 32 signature_r ++ be_encode 32 signature_s in
  signature ← unwrap (from_compact signature_bytes (if signature_y_parity then 1 else 0));
  let msg_digest := keccak message in
  public ← unwrap (recover_ecdsa msg_digest signature);
  let hash := keccak (drop 1 public) in
  Ok (drop 12 hash).

(** The signed message of a legacy transaction, of EIP-155 with a chain id. *)
Definition legacy_message (tx : LegacyTransaction.t) (id : option Z) : list Z :=
  match id with
  | None =>
      Encoder.finish [] (Encoder.new
        ⊕ LegacyTransaction.nonce tx ⊕ LegacyTransaction.gas_price tx
        ⊕ LegacyTransaction.gas tx ⊕ LegacyTransaction.to tx ⊕ LegacyTransaction.value tx
        ⊕ LegacyTransaction.data tx)
  | Some chain_id =>
      Encoder.finish [] (Encoder.new
        ⊕ LegacyTransaction.nonce tx ⊕ LegacyTransaction.gas_price tx
        ⊕ LegacyTransaction.gas tx ⊕ LegacyTransaction.to tx ⊕ LegacyTransaction.value tx
        ⊕ LegacyTransaction.data tx
        ⊕ (chain_id : u64) ⊕ (0 : u8) ⊕ (0 : u8))
  end.

Definition sender (self : Transaction) : Outcome E (list Z) :=
  match self with
  | LegacyTransaction tx =>
      id ← chain_id self;
      v ← as_u64 (LegacyTransaction.v tx);
      signature_y_parity ←
        match id with
        | Some chain_id =>
            double ← u_mul 64 chain_id 2;
            base ← u_add 64 35 double;
            Ok (negb (saturating_sub v base =? 0))
        | None => Ok (negb (saturating_sub v 27 =? 0))
        end;
      let buf := legacy_message tx id in
      recover_address (LegacyTransaction.r tx) (LegacyTransaction.s tx) signature_y_parity buf
  | EIP2930Transaction tx =>
      let buf :=
        Encoder.finish [TxType.to_u8 (tx_type self)] (Encoder.new
          ⊕ EIP2930Transaction.chain_id tx ⊕ EIP2930Transaction.nonce tx
          ⊕ EIP2930Transaction.gas_price tx ⊕ EIP2930Transaction.gas_limit tx
          ⊕ EIP2930Transaction.to tx ⊕ EIP2930Transaction.value tx ⊕ EIP2930Transaction.data tx
          ⊕ EIP2930Transaction.access_list tx) in
      recover_address (EIP2930Transaction.signature_r tx) (EIP2930Transaction.signature_s tx)
        (EIP2930Transaction.signature_y_parity tx) buf
  | EIP1559Transaction tx =>
      let buf :=
        Encoder.finish [TxType.to_u8 (tx_type self)] (Encoder.new
          ⊕ EIP1559Transaction.chain_id tx ⊕ EIP1559Transaction.nonce tx
          ⊕ EIP1559Transaction.max_priority_fee_per_gas tx ⊕ EIP1559Transaction.max_fee_per_gas tx
          ⊕ EIP1559Transaction.gas_limit tx ⊕ EIP1559Transaction.to tx
          ⊕ EIP1559Transaction.value tx ⊕ EIP1559Transaction.data tx
          ⊕ EIP1559Transaction.access_list tx) in
      recover_address (EIP1559Transaction.signature_r tx) (EIP1559Transaction.signature_s tx)
        (EIP1559Transaction.signature_y_parity tx) buf
  | EIP4844Transaction tx =>
      let buf :=
        Encoder.finish [TxType.to_u8 (tx_type self)] (Encoder.new
          ⊕ EIP4844Transaction.chain_id tx ⊕ EIP4844Transaction.nonce tx
          ⊕ EIP4844Transaction.max_priority_fee_per_gas tx ⊕ EIP4844Transaction.max_fee_per_gas tx
          ⊕ EIP4844Transaction.gas tx ⊕ EIP4844Transaction.to tx ⊕ EIP4844Transaction.value tx
          ⊕ EIP4844Transaction.data tx ⊕ EIP4844Transaction.access_list tx
          ⊕ EIP4844Transaction.max_fee_per_blob_gas tx
          ⊕ EIP4844Transaction.blob_versioned_hashes tx) in
      recover_address (EIP4844Transaction.signature_r tx) (EIP4844Transaction.signature_s tx)
        (EIP4844Transaction.signature_y_parity tx) buf
  | PrivilegedL2Transaction tx =>
      let buf :=
        Encoder.finish [TxType.to_u8 (tx_type self)] (Encoder.new
          ⊕ PrivilegedL2Transaction.chain_id tx ⊕ PrivilegedL2Transaction.nonce tx
          ⊕ PrivilegedL2Transaction.max_priority_fee_per_gas tx
          ⊕ PrivilegedL2Transaction.max_fee_per_gas tx ⊕ PrivilegedL2Transaction.gas_limit tx
          ⊕ PrivilegedL2Transaction.to tx ⊕ PrivilegedL2Transaction.value tx
          ⊕ PrivilegedL2Transaction.data tx ⊕ PrivilegedL2Transaction.access_list tx
          ⊕ PrivilegedL2Transaction.tx_type tx) in
      recover_address (PrivilegedL2Transaction.signature_r tx) (PrivilegedL2Transaction.signature_s tx)
        (PrivilegedL2Transaction.signature_y_parity tx) buf
  end.

(** The signature of a digest as recovery id, [r] and [s]. *)
Definition sign_digest (message : list Z) (private_key : SecretKey) : Outcome E (Z * Z * Z) :=
  data ← unwrap (from_digest_slice (keccak message));
  let '(recovery_id, signature) :=
    serialize_compact (sign_ecdsa_recoverable data private_key) in
  Ok (recovery_id, be_decode (take 32 signature), be_decode (drop 32 signature)).

(** [Signable::sign], the copy that [sign_inplace] changes. *)
Definition sign (self : Transaction) (private_key : SecretKey) : Outcome E Transaction :=
  match self with
  | LegacyTransaction tx =>
      '(recovery_id, r, s) ← sign_digest (LegacyTransaction.encode_payload tx) private_key;
      Ok (LegacyTransaction (LegacyTransaction.set_signature recovery_id r s tx))
  | EIP2930Transaction tx =>
      let payload := TxType.to_u8 TxType.EIP2930 :: EIP2930Transaction.encode_payload tx in
      '(recovery_id, r, s) ← sign_digest payload private_key;
      let parity := negb (recovery_id =? 0) in
      Ok (EIP2930Transaction (EIP2930Transaction.set_signature parity r s tx))
  | EIP1559Transaction tx =>
      let payload := TxType.to_u8 TxType.EIP1559 :: EIP1559Transaction.encode_payload tx in
      '(recovery_id, r, s) ← sign_digest payload private_key;
      let parity := negb (recovery_id =? 0) in
      Ok (EIP1559Transaction (EIP1559Transaction.set_signature parity r s tx))
  | EIP4844Transaction tx =>
      let payload := TxType.to_u8 TxType.EIP4844 :: EIP4844Transaction.encode_payload tx in
      '(recovery_id, r, s) ← sign_digest payload private_key;
      let parity := negb (recovery_id =? 0) in
      Ok (EIP4844Transaction (EIP4844Transaction.set_signature parity r s tx))
  | PrivilegedL2Transaction tx =>
      let payload := TxType.to_u8 TxType.Privileged :: PrivilegedL2Transaction.encode_payload tx in
      '(recovery_id, r, s) ← sign_digest payload private_key;
      let parity := negb (recovery_id =? 0) in
      Ok (PrivilegedL2Transaction (PrivilegedL2Transaction.set_signature parity r s tx))
  end.

(** *** Hashes of privileged transactions *)

Definition get_withdrawal_hash (self : PrivilegedL2Transaction.t) : option (list Z) :=
  match PrivilegedL2Transaction.tx_type self with
  | PrivilegedTxType.Withdrawal =>
      match PrivilegedL2Transaction.to self with
      | Call to =>
          let value := be_encode 32 (PrivilegedL2Transaction.value self) in
          let encoded := TxType.to_u8 TxType.Privileged :: Rlp.encode self in
          let tx_hash := keccak encoded in
          Some (keccak (to ++ value ++ tx_hash))
      | Create => None
      end
  | PrivilegedTxType.Deposit => None
  end.

Definition get_deposit_hash (self : PrivilegedL2Transaction.t) : option (list Z) :=
  match PrivilegedL2Transaction.tx_type self with
  | PrivilegedTxType.Deposit =>
      match PrivilegedL2Transaction.to self with
      | Call to =>
          let value := be_encode 32 (PrivilegedL2Transaction.value self) in
          let nonce := be_encode 32 (PrivilegedL2Transaction.nonce self) in
          Some (keccak (to ++ value ++ nonce))
      | Create => None
      end
  | PrivilegedTxType.Withdrawal => None
  end.
End signing.
End Transaction.

#[export] Instance Transaction_RLPEncode : RLPEncode Transaction :=
  mk_encode Transaction.encode.
#[export] Instance Transaction_RLPDecode : RLPDecode Transaction :=
  Transaction.decode_unfinished.

(** ** The transaction of the mempool (mod mempool) *)

Module MempoolTransaction.
Record t := { timestamp : u128; sender : Address; inner : Transaction }.

(** [now]: the microseconds since the epoch. *)
Definition new (now : Z) (tx : Transaction) (sender : Address) : t :=
  {| timestamp := now; sender := sender; inner := tx |}.

Definition time (self : t) : Z := timestamp self.

Definition encode (self : t) : list Z :=
  Encoder.finish [] (Encoder.new ⊕ timestamp self ⊕ inner self).

Definition decode_unfinished (rlp : list Z) : Decoded (t * list Z) :=
  decoder ← Decoder.new rlp;
  '(timestamp, decoder) ← Decoder.decode_field (T := u128) decoder "timestamp";
  '(sender, decoder) ← Decoder.decode_field (T := Address) decoder "sender";
  '(inner, decoder) ← Decoder.decode_field (T := Transaction) decoder "inner";
  rest ← Decoder.finish decoder;
  Ok ({| timestamp := timestamp; sender := sender; inner := inner |}, rest).

(** By lowest nonce, then by highest timestamp. *)
Definition cmp (self other : t) : comparison :=
  match Z.compare (Transaction.nonce (inner self)) (Transaction.nonce (inner other)) with
  | Eq => Z.compare (time other) (time self)
  | ordering => ordering
  end.
End MempoolTransaction.

#[export] Instance MempoolTransaction_RLPEncode : RLPEncode MempoolTransaction.t :=
  mk_encode MempoolTransaction.encode.
#[export] Instance MempoolTransaction_RLPDecode : RLPDecode MempoolTransaction.t :=
  MempoolTransaction.decode_unfinished.
