(* ===== verification/TxProofs.v ===== *)
(** * Correctness of the transaction codecs, of signing and of recovery *)

From stdpp Require Import base option list numbers strings pretty.
From S2P Require Import Prelude Rlp RlpProofs RlpStruct LevmHost LevmDemo Tx.

Local Open Scope Z_scope.

(** ** The structs

    A value is valid when every field is in the range of its Rust type. *)

Lemma encode_slice_short bs :
  2 ≤ len bs < 56 → encode_slice bs = (RLP_NULL + len bs) :: bs.
Proof.
  intros Hn. destruct bs as [|b [|b' bs]]; [unfold len in Hn; cbn [length] in Hn; lia..|].
  unfold encode_slice. by decide_tests.
Qed.

Lemma encode_slice_long bs :
  56 ≤ len bs →
  let s := strip_zeros (be_encode 8 (len bs)) in
  encode_slice bs = (0xb7 + len s) :: s ++ bs.
Proof.
  intros Hn s. destruct bs as [|b [|b' bs]]; [unfold len in Hn; cbn [length] in Hn; lia..|].
  unfold encode_slice. by decide_tests.
Qed.

#[export] Instance TxKind_valid : RLPValid TxKind := λ k,
  match k with Call address => rlp_valid address | Create => True end.

#[export] Instance TxKind_codec : RLPCodec TxKind.
Proof.
  split.
  - done.
  - intros [address|] rest Hv Hl; [|done].
    change (encode (Call address)) with (encode address) in *.
    change (decode_unfinished (T := TxKind)) with TxKind_decode. unfold TxKind_decode.
    rewrite codec_roundtrip by done. destruct Hv as [_ Hn].
    change (encode address) with (encode_slice address).
    assert (len address = 20) as Ha by (unfold len; by rewrite Hn).
    rewrite encode_slice_short by lia. by rewrite Ha.
  - intros x d rest. change (decode_unfinished (T := TxKind)) with TxKind_decode.
    unfold TxKind_decode. destruct d as [|b d]; [done|]. cbn [head ok_or mbind outcome_bind].
    destruct (b =? RLP_NULL); [intros [= _ <-]; rewrite skipn_O; cbn [length]; lia|].
    destruct (decode_unfinished _) as [[t r]| | |] eqn:Ht; [|done..].
    intros [= _ <-]. by eapply codec_progress in Ht.
  - intros d. change (decode_unfinished (T := TxKind)) with TxKind_decode.
    unfold TxKind_decode. destruct d as [|b d]; [done|]. cbn [head ok_or mbind outcome_bind].
    destruct (b =? RLP_NULL); [done|]. apply bind_fuel; [apply codec_fuel|by intros []].
  - intros [address|] Hv; [by apply (codec_bytes address)|by repeat constructor].
Qed.

#[export] Instance PrivilegedTxType_valid : RLPValid PrivilegedTxType.t := λ _, True.

#[export] Instance PrivilegedTxType_codec : RLPCodec PrivilegedTxType.t.
Proof.
  split.
  - done.
  - by intros [] rest.
  - intros x d rest.
    change (decode_unfinished (T := PrivilegedTxType.t)) with PrivilegedTxType.decode_unfinished.
    unfold PrivilegedTxType.decode_unfinished.
    destruct (decode_u8 d) as [[b r]| | |] eqn:Ht; [|done..]. cbn.
    destruct (PrivilegedTxType.from_u8 b); [|done]. intros [= _ <-].
    by eapply (codec_progress (T := u8)) in Ht.
  - intros d. apply bind_fuel; [apply (codec_fuel (T := u8))|].
    intros [b r]. by destruct (PrivilegedTxType.from_u8 b).
  - intros [] _; by repeat constructor.
Qed.

#[export] Instance Legacy_valid : RLPValid LegacyTransaction.t := λ x,
  rlp_valid (LegacyTransaction.nonce x) ∧ rlp_valid (LegacyTransaction.gas_price x) ∧
  rlp_valid (LegacyTransaction.gas x) ∧ rlp_valid (LegacyTransaction.to x) ∧
  rlp_valid (LegacyTransaction.value x) ∧ rlp_valid (LegacyTransaction.data x) ∧
  rlp_valid (LegacyTransaction.v x) ∧ rlp_valid (LegacyTransaction.r x) ∧
  rlp_valid (LegacyTransaction.s x).

#[export] Instance Legacy_codec : RLPCodec LegacyTransaction.t.
Proof. struct_codec LegacyTransaction.encode LegacyTransaction.decode_unfinished. Qed.

#[export] Instance EIP2930_valid : RLPValid EIP2930Transaction.t := λ x,
  rlp_valid (EIP2930Transaction.chain_id x) ∧ rlp_valid (EIP2930Transaction.nonce x) ∧
  rlp_valid (EIP2930Transaction.gas_price x) ∧ rlp_valid (EIP2930Transaction.gas_limit x) ∧
  rlp_valid (EIP2930Transaction.to x) ∧ rlp_valid (EIP2930Transaction.value x) ∧
  rlp_valid (EIP2930Transaction.data x) ∧ rlp_valid (EIP2930Transaction.access_list x) ∧
  rlp_valid (EIP2930Transaction.signature_y_parity x) ∧
  rlp_valid (EIP2930Transaction.signature_r x) ∧ rlp_valid (EIP2930Transaction.signature_s x).

#[export] Instance EIP2930_codec : RLPCodec EIP2930Transaction.t.
Proof. struct_codec EIP2930Transaction.encode EIP2930Transaction.decode_unfinished. Qed.

#[export] Instance EIP1559_valid : RLPValid EIP1559Transaction.t := λ x,
  rlp_valid (EIP1559Transaction.chain_id x) ∧ rlp_valid (EIP1559Transaction.nonce x) ∧
  rlp_valid (EIP1559Transaction.max_priority_fee_per_gas x) ∧
  rlp_valid (EIP1559Transaction.max_fee_per_gas x) ∧ rlp_valid (EIP1559Transaction.gas_limit x) ∧
  rlp_valid (EIP1559Transaction.to x) ∧ rlp_valid (EIP1559Transaction.value x) ∧
  rlp_valid (EIP1559Transaction.data x) ∧ rlp_valid (EIP1559Transaction.access_list x) ∧
  rlp_valid (EIP1559Transaction.signature_y_parity x) ∧
  rlp_valid (EIP1559Transaction.signature_r x) ∧ rlp_valid (EIP1559Transaction.signature_s x).

#[export] Instance EIP1559_codec : RLPCodec EIP1559Transaction.t.
Proof. struct_codec EIP1559Transaction.encode EIP1559Transaction.decode_unfinished. Qed.

#[export] Instance EIP4844_valid : RLPValid EIP4844Transaction.t := λ x,
  rlp_valid (EIP4844Transaction.chain_id x) ∧ rlp_valid (EIP4844Transaction.nonce x) ∧
  rlp_valid (EIP4844Transaction.max_priority_fee_per_gas x) ∧
  rlp_valid (EIP4844Transaction.max_fee_per_gas x) ∧ rlp_valid (EIP4844Transaction.gas x) ∧
  rlp_valid (EIP4844Transaction.to x) ∧ rlp_valid (EIP4844Transaction.value x) ∧
  rlp_valid (EIP4844Transaction.data x) ∧ rlp_valid (EIP4844Transaction.access_list x) ∧
  rlp_valid (EIP4844Transaction.max_fee_per_blob_gas x) ∧
  rlp_valid (EIP4844Transaction.blob_versioned_hashes x) ∧
  rlp_valid (EIP4844Transaction.signature_y_parity x) ∧
  rlp_valid (EIP4844Transaction.signature_r x) ∧ rlp_valid (EIP4844Transaction.signature_s x).

#[export] Instance EIP4844_codec : RLPCodec EIP4844Transaction.t.
Proof. struct_codec EIP4844Transaction.encode EIP4844Transaction.decode_unfinished. Qed.

#[export] Instance Privileged_valid : RLPValid PrivilegedL2Transaction.t := λ x,
  rlp_valid (PrivilegedL2Transaction.chain_id x) ∧ rlp_valid (PrivilegedL2Transaction.nonce x) ∧
  rlp_valid (PrivilegedL2Transaction.max_priority_fee_per_gas x) ∧
  rlp_valid (PrivilegedL2Transaction.max_fee_per_gas x) ∧
  rlp_valid (PrivilegedL2Transaction.gas_limit x) ∧ rlp_valid (PrivilegedL2Transaction.to x) ∧
  rlp_valid (PrivilegedL2Transaction.value x) ∧ rlp_valid (PrivilegedL2Transaction.data x) ∧
  rlp_valid (PrivilegedL2Transaction.access_list x) ∧
  rlp_valid (PrivilegedL2Transaction.tx_type x) ∧
  rlp_valid (PrivilegedL2Transaction.signature_y_parity x) ∧
  rlp_valid (PrivilegedL2Transaction.signature_r x) ∧
  rlp_valid (PrivilegedL2Transaction.signature_s x).

#[export] Instance Privileged_codec : RLPCodec PrivilegedL2Transaction.t.
Proof. struct_codec PrivilegedL2Transaction.encode PrivilegedL2Transaction.decode_unfinished. Qed.

(** ** The canonical form *)

Definition is_legacy (tx : Transaction) : bool :=
  match tx with LegacyTransaction _ => true | _ => false end.

(** Every field is in the range of its type. *)
Definition tx_fields_ok (tx : Transaction) : Prop :=
  match tx with
  | LegacyTransaction t => rlp_valid t
  | EIP2930Transaction t => rlp_valid t
  | EIP1559Transaction t => rlp_valid t
  | EIP4844Transaction t => rlp_valid t
  | PrivilegedL2Transaction t => rlp_valid t
  end.

Lemma decode_encode `{RLPCodec T} (x : T) :
  rlp_valid x → len (encode x) ≤ isize_max → decode (encode x) = Ok x.
Proof.
  intros Hv Hl. unfold decode. rewrite <-(app_nil_r (encode x)).
  by rewrite codec_roundtrip.
Qed.

Lemma as_list_head e : ∃ b l, as_list e = b :: l ∧ 0xc0 ≤ b.
Proof.
  unfold as_list, encode_length, put_stripped. pose proof (len_nonneg e).
  pose proof (len_nonneg (strip_zeros (be_encode 8 (len e)))).
  destruct (_ <? _); eexists _, _; (split; [done|lia]).
Qed.

Lemma finish_positive e : 1 ≤ len (Encoder.finish [] e).
Proof.
  pose proof (as_list_length e). pose proof (len_nonneg e).
  change (Encoder.finish [] e) with (as_list e). lia.
Qed.

Lemma canonical_roundtrip tx :
  tx_fields_ok tx → len (Transaction.encode_canonical_to_vec tx) ≤ isize_max →
  Transaction.decode_canonical (Transaction.encode_canonical_to_vec tx) = Ok tx.
Proof.
  unfold Transaction.encode_canonical_to_vec. intros Hv Hl.
  destruct tx as [t|t|t|t|t]; cbn [app] in *; rewrite ?len_cons in Hl;
    [|cbn -[decode encode]; rewrite decode_encode; [done|done|lia]..].
  destruct (as_list_head (Encoder.new ⊕ LegacyTransaction.nonce t
    ⊕ LegacyTransaction.gas_price t ⊕ LegacyTransaction.gas t ⊕ LegacyTransaction.to t
    ⊕ LegacyTransaction.value t ⊕ LegacyTransaction.data t ⊕ LegacyTransaction.v t
    ⊕ LegacyTransaction.r t ⊕ LegacyTransaction.s t)%rlp) as (b & l & E & Hb).
  change (encode t = b :: l) in E. pose proof (decode_encode t Hv Hl) as Hd.
  unfold Transaction.decode_canonical. rewrite E in *. decide_tests. by rewrite Hd.
Qed.

Lemma canonical_bytes tx :
  tx_fields_ok tx → bytes (Transaction.encode_canonical_to_vec tx).
Proof.
  intros Hv. destruct tx as [t|t|t|t|t]; apply Forall_app;
    (split; [by repeat constructor|by apply (codec_bytes t)]).
Qed.

(** ** The RLP form *)

(** A byte string behind its prefix and the bytes of its length. *)
Lemma long_item p lb l :
  0xb8 ≤ p ≤ 0xbf → len lb = p - 0xb7 →
  is_encoded_as_bytes (p :: lb ++ l) = Ok true ∧
  get_rlp_bytes_item_payload (p :: lb ++ l) = Ok l.
Proof.
  intros Hp Hlb. unfold is_encoded_as_bytes, get_rlp_bytes_item_payload.
  cbn [head ok_or mbind outcome_bind]. split; [by decide_tests|].
  rewrite len_cons, len_app. pose proof (len_nonneg l). decide_tests.
  replace (Z.to_nat (p - 0xb8 + 1 + 1)) with (S (length lb)) by (unfold len in *; lia).
  cbn [skipn]. by rewrite drop_app_length.
Qed.

Lemma long_slice bs l :
  56 ≤ len bs ≤ isize_max →
  is_encoded_as_bytes (encode_slice bs ++ l) = Ok true ∧
  get_rlp_bytes_item_payload (encode_slice bs ++ l) = Ok (bs ++ l).
Proof.
  intros Hl. rewrite encode_slice_long by lia. cbn [app]. rewrite <-app_assoc.
  assert (1 ≤ len (strip_zeros (be_encode 8 (len bs))) ≤ 8)
    by (apply stripped_length; unfold isize_max in *; lia).
  apply long_item; lia.
Qed.

(** A type byte and the fields, which [decode_unfinished] reads behind any
    prefix of a long byte string. *)
Lemma decode_typed tx p lb rest :
  tx_fields_ok tx → is_legacy tx = false →
  len (Transaction.encode_canonical_to_vec tx) ≤ isize_max →
  0xb8 ≤ p ≤ 0xbf → len lb = p - 0xb7 →
  Transaction.decode_unfinished
    (p :: lb ++ Transaction.encode_canonical_to_vec tx ++ rest) = Ok (tx, rest).
Proof.
  intros Hv Ht Hl Hp Hlb. unfold Transaction.decode_unfinished.
  destruct (long_item p lb (Transaction.encode_canonical_to_vec tx ++ rest)) as [-> Hg]; [done..|].
  cbn [mbind outcome_bind]. rewrite Hg. cbn [mbind outcome_bind].
  unfold Transaction.encode_canonical_to_vec in *.
  destruct tx as [t|t|t|t|t]; [done|..]; cbn [app] in *; rewrite ?len_cons in Hl;
    cbn -[decode_unfinished encode]; (rewrite codec_roundtrip; [done|done|lia]).
Qed.

#[export] Instance Transaction_valid : RLPValid Transaction := λ tx,
  tx_fields_ok tx ∧
  (is_legacy tx = true ∨ 56 ≤ len (Transaction.encode_canonical_to_vec tx)).

Lemma canonical_nonempty tx :
  is_legacy tx = false → 2 ≤ len (Transaction.encode_canonical_to_vec tx).
Proof.
  unfold Transaction.encode_canonical_to_vec.
  intros Ht. destruct tx as [t|t|t|t|t]; [done|..]; cbn [app]; rewrite len_cons;
    (enough (1 ≤ len (encode t)) by lia); apply finish_positive.
Qed.

Lemma legacy_head tx : ∃ b l, encode (T := LegacyTransaction.t) tx = b :: l ∧ 0xc0 ≤ b.
Proof. apply as_list_head. Qed.

(** The transaction, unless it is typed and its canonical form is short: then
    the byte string is taken for a legacy transaction. *)
Lemma rlp_roundtrip tx rest :
  tx_fields_ok tx → len (Transaction.encode tx) ≤ isize_max →
  Transaction.decode_unfinished (Transaction.encode tx ++ rest) =
    if is_legacy tx || (56 <=? len (Transaction.encode_canonical_to_vec tx))
    then Ok (tx, rest) else Err UnexpectedString.
Proof.
  intros Hv Hl. destruct (is_legacy tx) eqn:Ht.
  - destruct tx as [t| | | |]; [|done..].
    change (Transaction.encode (LegacyTransaction t)) with (encode t) in *.
    pose proof (codec_roundtrip t rest Hv Hl) as Hr.
    destruct (legacy_head t) as (b & l & E & Hb).
    unfold Transaction.decode_unfinished, is_encoded_as_bytes. rewrite E in *.
    cbn [app head ok_or mbind outcome_bind] in *. decide_tests. cbn [andb].
    by rewrite Hr.
  - set (c := Transaction.encode_canonical_to_vec tx) in *.
    assert (Transaction.encode tx = encode_slice c) as E by (by destruct tx).
    rewrite E in *. pose proof (encode_slice_length c).
    pose proof (canonical_nonempty tx Ht) as Hc. fold c in Hc. cbn [orb].
    destruct (56 <=? len c) eqn:H56; propify.
    + rewrite encode_slice_long by lia. cbn [app]. rewrite <-app_assoc.
      assert (1 ≤ len (strip_zeros (be_encode 8 (len c))) ≤ 8)
        by (apply stripped_length; unfold isize_max in *; lia).
      apply decode_typed; fold c; (done || lia).
    + unfold Transaction.decode_unfinished, is_encoded_as_bytes.
      pose proof (decode_rlp_item_slice c rest) as Hi.
      unfold Transaction.map_tx. change (decode_unfinished (T := LegacyTransaction.t))
        with LegacyTransaction.decode_unfinished.
      unfold LegacyTransaction.decode_unfinished, Decoder.new. rewrite Hi by (lia || by apply canonical_bytes).
      rewrite encode_slice_short by lia. cbn [app head ok_or mbind outcome_bind].
      unfold RLP_NULL. by destruct (0xb8 <=? _) eqn:?; propify; [lia|].
Qed.

Lemma map_tx_progress {T} (C : T → Transaction) m (d : list Z) tx rest :
  (∀ x r, m = Ok (x, r) → (length r < length d)%nat) →
  Transaction.map_tx C m = Ok (tx, rest) → (length rest < length d)%nat.
Proof.
  intros Hm. unfold Transaction.map_tx. destruct m as [[x r]| | |]; [|done..].
  intros [= _ <-]. by eapply Hm.
Qed.

Lemma map_tx_fuel {T} (C : T → Transaction) m :
  m ≠ NoFuel → Transaction.map_tx C m ≠ NoFuel.
Proof. by destruct m. Qed.

Lemma get_payload_shorter rlp payload :
  get_rlp_bytes_item_payload rlp = Ok payload → (length payload ≤ length rlp)%nat.
Proof.
  unfold get_rlp_bytes_item_payload. destruct rlp as [|p rlp]; [done|].
  cbn [head ok_or mbind outcome_bind]. repeat case_match; [done..|].
  intros [= <-]. rewrite length_drop. lia.
Qed.

Lemma get_payload_fuel d : get_rlp_bytes_item_payload d ≠ NoFuel.
Proof.
  unfold get_rlp_bytes_item_payload. destruct d as [|b d]; [done|].
  cbn [head ok_or mbind outcome_bind]. by repeat case_match.
Qed.

Lemma transaction_progress d tx rest :
  Transaction.decode_unfinished d = Ok (tx, rest) → (length rest < length d)%nat.
Proof.
  unfold Transaction.decode_unfinished. intros Hd. apply bind_Ok in Hd as ([] & _ & Hd).
  - apply bind_Ok in Hd as ([|ty enc] & Hp & Hd); [done|].
    apply get_payload_shorter in Hp. cbn [length] in Hp.
    repeat case_match; try done;
      (eapply (map_tx_progress _ _ d) in Hd; [done|]; intros x r Hx;
       apply codec_progress in Hx; lia).
  - eapply (map_tx_progress _ _ d) in Hd; [done|]. intros x r Hx. by apply codec_progress in Hx.
Qed.

Lemma transaction_fuel d : Transaction.decode_unfinished d ≠ NoFuel.
Proof.
  apply bind_fuel; [by destruct d|]. intros [] _.
  - apply bind_fuel; [apply get_payload_fuel|]. intros [|ty enc] _; [done|].
    repeat case_match; try done; apply map_tx_fuel, codec_fuel.
  - apply map_tx_fuel, codec_fuel.
Qed.

#[export] Instance Transaction_codec : RLPCodec Transaction.
Proof.
  split; [done| |exact (λ x d r, transaction_progress d x r)|exact transaction_fuel|].
  - intros tx rest [Hv Hs] Hl. change (encode tx) with (Transaction.encode tx) in *.
    change (decode_unfinished (T := Transaction)) with Transaction.decode_unfinished.
    rewrite rlp_roundtrip by done.
    destruct (is_legacy tx); [done|]. destruct Hs; [done|]. cbn [orb]. by decide_tests.
  - intros tx [Hv _]. pose proof (canonical_bytes tx Hv) as Hb.
    destruct tx as [t|t|t|t|t]; [exact Hb|by apply encode_slice_bytes..].
Qed.

(** C27 Transactions survive their encodings.  The canonical form decodes to the
    transaction.  The RLP form decodes to it, whatever bytes follow, unless the
    transaction is typed and its canonical form is shorter than 56 bytes, which
    is rejected.  The length that precedes a typed transaction is not read: any
    length bytes give the same transaction. *)
Theorem transaction_roundtrip tx rest :
  tx_fields_ok tx → len (Transaction.encode tx) ≤ isize_max →
  Transaction.decode_canonical (Transaction.encode_canonical_to_vec tx) = Ok tx ∧
  Transaction.decode_unfinished (Transaction.encode tx ++ rest) =
    (if is_legacy tx || (56 <=? len (Transaction.encode_canonical_to_vec tx))
     then Ok (tx, rest) else Err UnexpectedString) ∧
  ∀ p lb, is_legacy tx = false → 0xb8 ≤ p ≤ 0xbf → len lb = p - 0xb7 →
    Transaction.decode_unfinished
      (p :: lb ++ Transaction.encode_canonical_to_vec tx ++ rest) = Ok (tx, rest).
Proof.
  intros Hv Hl.
  assert (len (Transaction.encode_canonical_to_vec tx) ≤ isize_max).
  { etrans; [|exact Hl]. destruct tx; [done|apply encode_slice_length..]. }
  split_and!; [by apply canonical_roundtrip|by apply rlp_roundtrip|].
  intros. by apply decode_typed.
Qed.

Definition demo_tx : EIP1559Transaction.t := {|
  EIP1559Transaction.chain_id := 1; EIP1559Transaction.nonce := 7;
  EIP1559Transaction.max_priority_fee_per_gas := 2;
  EIP1559Transaction.max_fee_per_gas := 1000000000;
  EIP1559Transaction.gas_limit := 21000;
  EIP1559Transaction.to := Call (replicate 20 0x11);
  EIP1559Transaction.value := 10 ^ 18; EIP1559Transaction.data := [0xca; 0xfe];
  EIP1559Transaction.access_list := [(replicate 20 0x22, [replicate 32 0x33])];
  EIP1559Transaction.signature_y_parity := true;
  EIP1559Transaction.signature_r := 2 ^ 255 + 3; EIP1559Transaction.signature_s := 2 ^ 254 + 5;
|}.

Lemma demo_tx_ok : tx_fields_ok (EIP1559Transaction demo_tx).
Proof.
  cbn -[rlp_valid]. split_and!; try (split; [vm_compute; congruence|vm_compute; reflexivity]);
    try done.
  - split; [|done]. by repeat constructor.
  - by repeat constructor.
  - repeat constructor; done.
Qed.

Example transaction_roundtrip_witness :
  Transaction.decode_unfinished (Transaction.encode (EIP1559Transaction demo_tx) ++ [1; 2; 3])
  = Ok (EIP1559Transaction demo_tx, [1; 2; 3]).
Proof.
  assert (len (Transaction.encode (EIP1559Transaction demo_tx)) ≤ isize_max) as Hl
    by (vm_compute; congruence).
  destruct (transaction_roundtrip (EIP1559Transaction demo_tx) [1; 2; 3] demo_tx_ok Hl)
    as (_ & Hr & _).
  exact Hr.
Defined.

(** ** The transaction of the mempool *)

(** What is left of the encoding is no 20-byte address followed by a
    transaction. *)
Lemma transaction_is_no_address tx :
  tx_fields_ok tx → len (Transaction.encode tx) ≤ isize_max →
  (∃ e, decode_array 20 (Transaction.encode tx) = Err e) ∨
  (∃ a, decode_array 20 (Transaction.encode tx) = Ok (a, [])).
Proof.
  intros Hv Hl. unfold decode_array, decode_bytes. destruct (is_legacy tx) eqn:Ht.
  - left. destruct tx as [t| | | |]; [|done..].
    change (Transaction.encode (LegacyTransaction t)) with (LegacyTransaction.encode t) in *.
    unfold LegacyTransaction.encode in *. rewrite finish_as_list in *. cbn [app] in *.
    match goal with |- context [as_list ?e] => pose proof (as_list_length e);
      pose proof (decode_rlp_item_list e []) as Hi end.
    rewrite !app_nil_r in Hi. unfold as_list. rewrite Hi by lia. by eexists.
  - pose proof (canonical_bytes tx Hv) as Hb. set (c := Transaction.encode_canonical_to_vec tx) in *.
    assert (Transaction.encode tx = encode_slice c) as E by (by destruct tx). rewrite E in *.
    pose proof (encode_slice_length c). pose proof (decode_rlp_item_slice c [] Hb) as Hi.
    rewrite app_nil_r in Hi. rewrite Hi by lia. cbn [mbind outcome_bind].
    destruct (len c =? _); [right|left]; by eexists.
Qed.

(** [MempoolTransaction] is not read back: [encode] leaves out the sender,
    which [decode_unfinished] expects, and every encoding is rejected. *)
Theorem mempool_transaction_not_decoded (m : MempoolTransaction.t) rest :
  rlp_valid (MempoolTransaction.timestamp m) → tx_fields_ok (MempoolTransaction.inner m) →
  len (MempoolTransaction.encode m) ≤ isize_max →
  ∃ e, MempoolTransaction.decode_unfinished (MempoolTransaction.encode m ++ rest) = Err e.
Proof.
  intros Ht Hi Hl. unfold MempoolTransaction.encode in *. rewrite finish_as_list in *.
  cbn [app] in *. set (e := (_ ⊕ _)%rlp) in *. pose proof (as_list_length e).
  assert (e = encode (MempoolTransaction.timestamp m)
    ++ Transaction.encode (MempoolTransaction.inner m)) as He by done.
  assert (len e ≤ isize_max) as Hlen by lia. rewrite He, len_app in Hlen.
  pose proof (len_encode_nonneg (MempoolTransaction.timestamp m)).
  pose proof (len_nonneg (Transaction.encode (MempoolTransaction.inner m))).
  unfold MempoolTransaction.decode_unfinished. rewrite decoder_new_ok by lia.
  rewrite He. cbn [mbind outcome_bind]. rewrite decode_field_ok by (done || lia).
  cbn [mbind outcome_bind]. unfold Decoder.decode_field. cbn [Decoder.payload].
  change (decode_unfinished (T := Address)) with (decode_array 20).
  destruct (transaction_is_no_address (MempoolTransaction.inner m)) as [[e' Ee]|[a Ea]];
    [done|lia|rewrite Ee; by eexists|].
  rewrite Ea. by eexists.
Qed.

Example mempool_transaction_not_decoded_witness :
  ∃ e, MempoolTransaction.decode_unfinished (MempoolTransaction.encode
    (MempoolTransaction.new 1700000000000000 (EIP1559Transaction demo_tx) (replicate 20 0x44)) ++ [])
  = Err e.
Proof.
  apply mempool_transaction_not_decoded;
    [vm_compute; split; congruence|exact demo_tx_ok|vm_compute; congruence].
Defined.

(** ** Signing and recovery *)

(** What libsecp256k1 documents: a signature survives its compact form, and the
    key that signed a digest is recovered from digest and signature. *)
Class Secp256k1Laws `(Secp256k1) := {
  compact_form m k :
    let '(id, bs) := serialize_compact (sign_ecdsa_recoverable m k) in
    length bs = 64%nat ∧ bytes bs ∧
    from_compact bs id = Some (sign_ecdsa_recoverable m k);
  recover_signed m k :
    recover_ecdsa m (sign_ecdsa_recoverable m k) = Some (public_key k);
}.

Section signing.
Context `{CryptoLaws} `{Hs : Secp256k1} `{!Secp256k1Laws Hs} `{BuildProfile}.

(** The address of a key, and the message that a transaction's signature is of. *)
Definition address_of (key : SecretKey) : list Z := drop 12 (keccak (drop 1 (public_key key))).

Definition signed_message (tx : Transaction) : list Z :=
  (if is_legacy tx then [] else [TxType.to_u8 (Transaction.tx_type tx)])
  ++ Transaction.encode_payload tx.

Definition recovery_id (message : list Z) (key : SecretKey) : Z :=
  (serialize_compact (sign_ecdsa_recoverable (keccak message) key)).1.

(** The signature that [sign_digest] returns recovers the key that made it. *)
Lemma sign_digest_recover {E} message key :
  recovery_id message key = 0 ∨ recovery_id message key = 1 →
  ∃ r s, Transaction.sign_digest (E := E) message key = Ok (recovery_id message key, r, s) ∧
    Transaction.recover_address (E := E) r s (negb (recovery_id message key =? 0)) message
      = Ok (address_of key).
Proof.
  intros Hid. unfold Transaction.sign_digest, recovery_id, from_digest_slice in *.
  rewrite keccak_length. cbn [Nat.eqb unwrap mbind outcome_bind].
  pose proof (compact_form (keccak message) key) as Hc.
  destruct (serialize_compact _) as [id bs]. destruct Hc as (Hl & Hb & Hf). cbn in Hid.
  eexists _, _. split; [done|]. unfold Transaction.recover_address.
  assert (∀ l, bytes l → length l = 32%nat → be_encode 32 (be_decode l) = l) as Hr
    by (intros l ? <-; by apply be_encode_decode).
  rewrite !Hr by (by (apply Forall_take || apply Forall_drop) || (rewrite ?length_take, ?length_drop; lia)).
  rewrite take_drop. cbn [fst].
  replace (if negb (id =? 0) then 1 else 0) with id by (by destruct Hid as [-> | ->]).
  rewrite Hf. cbn [unwrap mbind outcome_bind]. by rewrite recover_signed.
Qed.

(** A recovery id of 0 or 1 in [v] is below the 27 and 35 that
    [derive_legacy_chain_id] subtracts. *)
Lemma legacy_chain_id_panics {E} v :
  overflow_checks = true → v = 0 ∨ v = 1 →
  Transaction.derive_legacy_chain_id (E := E) v = Panic.
Proof.
  unfold Transaction.derive_legacy_chain_id, u_sub, in_width.
  intros Ho [-> | ->]; cbn [as_u64 fits Z.eqb orb]; by rewrite Ho.
Qed.

(** The sender of a signed transaction is the address of the key that signed
    it, for every typed transaction, when the recovery id of the signature is 0
    or 1.  A signed legacy transaction has the bare recovery id as its [v], on
    which [sender] panics where overflow checks are on. *)
Theorem signed_sender {E} tx key :
  recovery_id (signed_message tx) key = 0 ∨ recovery_id (signed_message tx) key = 1 →
  ∃ tx', Transaction.sign (E := E) tx key = Ok tx' ∧
    signed_message tx' = signed_message tx ∧
    (is_legacy tx = false → Transaction.sender (E := E) tx' = Ok (address_of key)) ∧
    (is_legacy tx = true → overflow_checks = true →
     Transaction.sender (E := E) tx' = Panic).
Proof.
  intros Hid. destruct (sign_digest_recover (E := E) _ _ Hid) as (r & s & Hs' & Hr).
  destruct tx as [t|t|t|t|t];
    cbn [is_legacy signed_message Transaction.tx_type TxType.to_u8 app
      Transaction.encode_payload Transaction.sign] in *;
    rewrite Hs'; cbn [mbind outcome_bind]; eexists; (split; [done|]); (split; [done|]);
    (split; [first [done | intros _; exact Hr]|]); try done.
  intros _ Ho. unfold Transaction.sender. cbn [Transaction.chain_id].
  by rewrite legacy_chain_id_panics.
Qed.
End signing.

(** A signature scheme with the laws: the signature is the key. *)
#[export] Instance demo_secp : Secp256k1 := {
  SecretKey := Z;
  RecoverableSignature := Z * list Z;
  from_compact bs id := if (length bs =? 64)%nat then Some (id, bs) else None;
  serialize_compact sig := sig;
  sign_ecdsa_recoverable m k := (k mod 2, be_encode 64 k);
  recover_ecdsa m sig := Some (4 :: sig.2);
  public_key k := 4 :: be_encode 64 k;
}.

#[export] Instance demo_secp_laws : Secp256k1Laws demo_secp.
Proof.
  split; [|done]. intros m k. cbn -[be_encode Nat.eqb]. rewrite be_encode_length.
  split_and!; [done|apply be_encode_bytes|done].
Qed.

#[local] Instance demo_profile : BuildProfile := true.

Definition demo_key : SecretKey (Secp256k1 := demo_secp) := 12345.

Example signed_sender_witness :
  ∃ tx', Transaction.sign (E := RLPDecodeError) (EIP1559Transaction demo_tx) demo_key = Ok tx' ∧
    Transaction.sender (E := RLPDecodeError) tx' = Ok (address_of demo_key).
Proof.
  destruct (signed_sender (E := RLPDecodeError) (EIP1559Transaction demo_tx) demo_key)
    as (tx' & Hs & _ & Hr & _); [by right|].
  exists tx'. split; [exact Hs|by apply Hr].
Defined.
