(* ===== verification/BlockTypes.v ===== *)
(** * Blocks, receipts and accounts (crates/common/types)

    block.rs, receipt.rs and account.rs: the structs with their codecs, the
    roots of their tries and the block hash.  The bloom filter of ethbloom is a
    parameter, the class [EthBloom]; the JSON forms are not modelled. *)

From stdpp Require Import base option list numbers strings pretty gmap.
From S2P Require Import Prelude Rlp RlpStruct LevmHost TrieNode Trie Tx.

Local Open Scope Z_scope.
Local Open Scope rlp_scope.

Notation Bloom := (ByteArray 256).
Notation BlockNumber := u64.
Notation BlockHash := H256.

(** [u64::to_be_bytes] and [from_be_bytes]. *)
Definition u64_to_be_bytes (x : u64) : ByteArray 8 := be_encode 8 x.
Definition u64_from_be_bytes (bs : ByteArray 8) : u64 := be_decode bs.

(** ** account.rs *)

Module AccountInfo.
Record t := {
  code_hash : H256;
  balance : u256;
  nonce : u64;
}.

Definition encode (x : t) : list Z :=
  Encoder.finish [] (Encoder.new
    ⊕ code_hash x ⊕ balance x ⊕ nonce x).

Definition decode_unfinished (rlp : list Z) : Decoded (t * list Z) :=
  decoder ← Decoder.new rlp;
  '(code_hash, decoder) ← Decoder.decode_field (T := H256) decoder "code_hash";
  '(balance, decoder) ← Decoder.decode_field (T := u256) decoder "balance";
  '(nonce, decoder) ← Decoder.decode_field (T := u64) decoder "nonce";
  rest ← Decoder.finish decoder;
  Ok ({| code_hash := code_hash; balance := balance; nonce := nonce |}, rest).
End AccountInfo.

#[export] Instance AccountInfo_RLPEncode : RLPEncode AccountInfo.t := mk_encode AccountInfo.encode.
#[export] Instance AccountInfo_RLPDecode : RLPDecode AccountInfo.t := AccountInfo.decode_unfinished.

Module AccountState.
Record t := {
  nonce : u64;
  balance : u256;
  storage_root : H256;
  code_hash : H256;
}.

Definition encode (x : t) : list Z :=
  Encoder.finish [] (Encoder.new
    ⊕ nonce x ⊕ balance x ⊕ storage_root x ⊕ code_hash x).

Definition decode_unfinished (rlp : list Z) : Decoded (t * list Z) :=
  decoder ← Decoder.new rlp;
  '(nonce, decoder) ← Decoder.decode_field (T := u64) decoder "nonce";
  '(balance, decoder) ← Decoder.decode_field (T := u256) decoder "balance";
  '(storage_root, decoder) ← Decoder.decode_field (T := H256) decoder "storage_root";
  '(code_hash, decoder) ← Decoder.decode_field (T := H256) decoder "code_hash";
  rest ← Decoder.finish decoder;
  Ok ({| nonce := nonce; balance := balance; storage_root := storage_root;
         code_hash := code_hash |}, rest).
End AccountState.

#[export] Instance AccountState_RLPEncode : RLPEncode AccountState.t := mk_encode AccountState.encode.
#[export] Instance AccountState_RLPDecode : RLPDecode AccountState.t := AccountState.decode_unfinished.

(** ** Withdrawals and logs *)

Module Withdrawal.
Record t := {
  index : u64;
  validator_index : u64;
  address : Address;
  amount : u64;
}.

Definition encode (x : t) : list Z :=
  Encoder.finish [] (Encoder.new
    ⊕ index x ⊕ validator_index x ⊕ address x ⊕ amount x).

Definition decode_unfinished (rlp : list Z) : Decoded (t * list Z) :=
  decoder ← Decoder.new rlp;
  '(index, decoder) ← Decoder.decode_field (T := u64) decoder "index";
  '(validator_index, decoder) ← Decoder.decode_field (T := u64) decoder "validator_index";
  '(address, decoder) ← Decoder.decode_field (T := Address) decoder "address";
  '(amount, decoder) ← Decoder.decode_field (T := u64) decoder "amount";
  rest ← Decoder.finish decoder;
  Ok ({| index := index; validator_index := validator_index; address := address;
         amount := amount |}, rest).
End Withdrawal.

#[export] Instance Withdrawal_RLPEncode : RLPEncode Withdrawal.t := mk_encode Withdrawal.encode.
#[export] Instance Withdrawal_RLPDecode : RLPDecode Withdrawal.t := Withdrawal.decode_unfinished.

Module Log.
Record t := {
  address : Address;
  topics : list H256;
  data : Bytes;
}.

Definition encode (x : t) : list Z :=
  Encoder.finish [] (Encoder.new
    ⊕ address x ⊕ topics x ⊕ data x).

Definition decode_unfinished (rlp : list Z) : Decoded (t * list Z) :=
  decoder ← Decoder.new rlp;
  '(address, decoder) ← Decoder.decode_field (T := Address) decoder "address";
  '(topics, decoder) ← Decoder.decode_field (T := list H256) decoder "topics";
  '(data, decoder) ← Decoder.decode_field (T := Bytes) decoder "data";
  rest ← Decoder.finish decoder;
  Ok ({| address := address; topics := topics; data := data |}, rest).
End Log.

#[export] Instance Log_RLPEncode : RLPEncode Log.t := mk_encode Log.encode.
#[export] Instance Log_RLPDecode : RLPDecode Log.t := Log.decode_unfinished.

(** ** receipt.rs *)

(** [Bloom::accrue] with a raw input. *)
Class EthBloom := accrue : Bloom → list Z → Bloom.

Definition bloom_zero : Bloom := replicate 256 0.

Definition bloom_from_logs `{EthBloom} (logs : list Log.t) : Bloom :=
  foldl (λ bloom log,
    foldl accrue (accrue bloom (Log.address log)) (Log.topics log)) bloom_zero logs.

Module Receipt.
Record t := {
  tx_type : TxType.t;
  succeeded : bool;
  cumulative_gas_used : u64;
  bloom : Bloom;
  logs : list Log.t;
}.

Definition new `{EthBloom} (tx_type : TxType.t) (succeeded : bool) (cumulative_gas_used : Z)
    (logs : list Log.t) : t :=
  {| tx_type := tx_type; succeeded := succeeded; cumulative_gas_used := cumulative_gas_used;
     bloom := bloom_from_logs logs; logs := logs |}.

Definition encode_inner (self : t) : list Z :=
  Encoder.finish
    match tx_type self with
    | TxType.Legacy => []
    | _ => [TxType.to_u8 (tx_type self)]
    end
    (Encoder.new ⊕ succeeded self ⊕ cumulative_gas_used self ⊕ bloom self ⊕ logs self).

(** The fields behind the type byte, the end of [decode_inner] and of
    [decode_unfinished]. *)
Definition decode_fields (tx_type : TxType.t) (rlp : list Z) : Decoded (t * list Z) :=
  decoder ← Decoder.new rlp;
  '(succeeded, decoder) ← Decoder.decode_field (T := bool) decoder "succeeded";
  '(cumulative_gas_used, decoder) ← Decoder.decode_field (T := u64) decoder "cumulative_gas_used";
  '(bloom, decoder) ← Decoder.decode_field (T := Bloom) decoder "bloom";
  '(logs, decoder) ← Decoder.decode_field (T := list Log.t) decoder "logs";
  rest ← Decoder.finish decoder;
  Ok ({| tx_type := tx_type; succeeded := succeeded;
         cumulative_gas_used := cumulative_gas_used; bloom := bloom; logs := logs |}, rest).

Definition decode_type (ty : Z) : Decoded TxType.t :=
  ok_or (TxType.from_u8 ty) (invalid_transaction_type ty).

Definition decode_inner (rlp : list Z) : Decoded t :=
  '(tx_type, rlp) ←
    match rlp with
    | ty :: rest =>
        if ty <? 0x7f then
          tx_type ← decode_type ty;
          Ok (tx_type, rest)
        else Ok (TxType.Legacy, rlp)
    | [] => Ok (TxType.Legacy, rlp)
    end;
  '(receipt, _) ← decode_fields tx_type rlp;
  Ok receipt.

Definition encode (self : t) : list Z :=
  match tx_type self with
  | TxType.Legacy => encode_inner self
  | _ => encode_slice (encode_inner self)
  end.

Definition decode_unfinished (rlp : list Z) : Decoded (t * list Z) :=
  as_bytes ← is_encoded_as_bytes rlp;
  '(tx_type, rlp) ←
    (if as_bytes : bool then
       payload ← get_rlp_bytes_item_payload rlp;
       match payload with
       | [] => Err InvalidLength
       | ty :: rest =>
           tx_type ← decode_type ty;
           Ok (tx_type, rest)
       end
     else Ok (TxType.Legacy, rlp));
  decode_fields tx_type rlp.
End Receipt.

#[export] Instance Receipt_RLPEncode : RLPEncode Receipt.t := mk_encode Receipt.encode.
#[export] Instance Receipt_RLPDecode : RLPDecode Receipt.t := Receipt.decode_unfinished.

(** ** block.rs *)

Module BlockHeader.
Record t := {
  parent_hash : H256;
  ommers_hash : H256;
  coinbase : Address;
  state_root : H256;
  transactions_root : H256;
  receipts_root : H256;
  logs_bloom : Bloom;
  difficulty : u256;
  number : BlockNumber;
  gas_limit : u64;
  gas_used : u64;
  timestamp : u64;
  extra_data : Bytes;
  prev_randao : H256;
  nonce : u64;
  base_fee_per_gas : option u64;
  withdrawals_root : option H256;
  blob_gas_used : option u64;
  excess_blob_gas : option u64;
  parent_beacon_block_root : option H256;
}.

Definition encode (x : t) : list Z :=
  Encoder.finish [] (Encoder.new
    ⊕ parent_hash x ⊕ ommers_hash x ⊕ coinbase x ⊕ state_root x ⊕ transactions_root x
    ⊕ receipts_root x ⊕ logs_bloom x ⊕ difficulty x ⊕ number x ⊕ gas_limit x ⊕ gas_used x
    ⊕ timestamp x ⊕ extra_data x ⊕ prev_randao x ⊕ u64_to_be_bytes (nonce x) ⊕? base_fee_per_gas x
    ⊕? withdrawals_root x ⊕? blob_gas_used x ⊕? excess_blob_gas x
    ⊕? parent_beacon_block_root x).

Definition decode_unfinished (rlp : list Z) : Decoded (t * list Z) :=
  decoder ← Decoder.new rlp;
  '(parent_hash, decoder) ← Decoder.decode_field (T := H256) decoder "parent_hash";
  '(ommers_hash, decoder) ← Decoder.decode_field (T := H256) decoder "ommers_hash";
  '(coinbase, decoder) ← Decoder.decode_field (T := Address) decoder "coinbase";
  '(state_root, decoder) ← Decoder.decode_field (T := H256) decoder "state_root";
  '(transactions_root, decoder) ← Decoder.decode_field (T := H256) decoder "transactions_root";
  '(receipts_root, decoder) ← Decoder.decode_field (T := H256) decoder "receipts_root";
  '(logs_bloom, decoder) ← Decoder.decode_field (T := Bloom) decoder "logs_bloom";
  '(difficulty, decoder) ← Decoder.decode_field (T := u256) decoder "difficulty";
  '(number, decoder) ← Decoder.decode_field (T := BlockNumber) decoder "number";
  '(gas_limit, decoder) ← Decoder.decode_field (T := u64) decoder "gas_limit";
  '(gas_used, decoder) ← Decoder.decode_field (T := u64) decoder "gas_used";
  '(timestamp, decoder) ← Decoder.decode_field (T := u64) decoder "timestamp";
  '(extra_data, decoder) ← Decoder.decode_field (T := Bytes) decoder "extra_data";
  '(prev_randao, decoder) ← Decoder.decode_field (T := H256) decoder "prev_randao";
  '(nonce, decoder) ← Decoder.decode_field (T := ByteArray 8) decoder "nonce";
  '(base_fee_per_gas, decoder) ← Decoder.decode_optional_field (T := u64) decoder;
  '(withdrawals_root, decoder) ← Decoder.decode_optional_field (T := H256) decoder;
  '(blob_gas_used, decoder) ← Decoder.decode_optional_field (T := u64) decoder;
  '(excess_blob_gas, decoder) ← Decoder.decode_optional_field (T := u64) decoder;
  '(parent_beacon_block_root, decoder) ← Decoder.decode_optional_field (T := H256) decoder;
  rest ← Decoder.finish decoder;
  Ok ({| parent_hash := parent_hash; ommers_hash := ommers_hash; coinbase := coinbase;
         state_root := state_root; transactions_root := transactions_root;
         receipts_root := receipts_root; logs_bloom := logs_bloom; difficulty := difficulty;
         number := number; gas_limit := gas_limit; gas_used := gas_used; timestamp := timestamp;
         extra_data := extra_data; prev_randao := prev_randao; nonce := u64_from_be_bytes nonce;
         base_fee_per_gas := base_fee_per_gas; withdrawals_root := withdrawals_root;
         blob_gas_used := blob_gas_used; excess_blob_gas := excess_blob_gas;
         parent_beacon_block_root := parent_beacon_block_root |}, rest).
End BlockHeader.

#[export] Instance BlockHeader_RLPEncode : RLPEncode BlockHeader.t := mk_encode BlockHeader.encode.
#[export] Instance BlockHeader_RLPDecode : RLPDecode BlockHeader.t := BlockHeader.decode_unfinished.

Module BlockBody.
Record t := {
  transactions : list Transaction;
  ommers : list BlockHeader.t;
  withdrawals : option (list Withdrawal.t);
}.

Definition encode (x : t) : list Z :=
  Encoder.finish [] (Encoder.new
    ⊕ transactions x ⊕ ommers x ⊕? withdrawals x).

Definition decode_unfinished (rlp : list Z) : Decoded (t * list Z) :=
  decoder ← Decoder.new rlp;
  '(transactions, decoder) ← Decoder.decode_field (T := list Transaction) decoder "transactions";
  '(ommers, decoder) ← Decoder.decode_field (T := list BlockHeader.t) decoder "ommers";
  '(withdrawals, decoder) ← Decoder.decode_optional_field (T := list Withdrawal.t) decoder;
  rest ← Decoder.finish decoder;
  Ok ({| transactions := transactions; ommers := ommers; withdrawals := withdrawals |}, rest).

Definition empty : t := {| transactions := []; ommers := []; withdrawals := Some [] |}.
End BlockBody.

#[export] Instance BlockBody_RLPEncode : RLPEncode BlockBody.t := mk_encode BlockBody.encode.
#[export] Instance BlockBody_RLPDecode : RLPDecode BlockBody.t := BlockBody.decode_unfinished.

(** [hash_cell] is the [OnceCell] that [hash] fills. *)
Module Block.
Record t := { header : BlockHeader.t; body : BlockBody.t; hash_cell : option H256 }.

Definition new (header : BlockHeader.t) (body : BlockBody.t) : t :=
  {| header := header; body := body; hash_cell := None |}.

Definition encode (x : t) : list Z :=
  Encoder.finish [] (Encoder.new
    ⊕ header x ⊕ BlockBody.transactions (body x) ⊕ BlockBody.ommers (body x)
    ⊕? BlockBody.withdrawals (body x)).

Definition decode_unfinished (rlp : list Z) : Decoded (t * list Z) :=
  decoder ← Decoder.new rlp;
  '(header, decoder) ← Decoder.decode_field (T := BlockHeader.t) decoder "header";
  '(transactions, decoder) ← Decoder.decode_field (T := list Transaction) decoder "transactions";
  '(ommers, decoder) ← Decoder.decode_field (T := list BlockHeader.t) decoder "ommers";
  '(withdrawals, decoder) ← Decoder.decode_optional_field (T := list Withdrawal.t) decoder;
  remaining ← Decoder.finish decoder;
  Ok (new header {| BlockBody.transactions := transactions; BlockBody.ommers := ommers;
                    BlockBody.withdrawals := withdrawals |}, remaining).
End Block.

#[export] Instance Block_RLPEncode : RLPEncode Block.t := mk_encode Block.encode.
#[export] Instance Block_RLPDecode : RLPDecode Block.t := Block.decode_unfinished.

Section hashes.
Context `{Crypto}.

Definition compute_block_hash (self : BlockHeader.t) : list Z := keccak (encode self).

(** [get_or_init]: the first call computes the hash and keeps it. *)
Definition block_hash (self : Block.t) : list Z * Block.t :=
  match Block.hash_cell self with
  | Some h => (h, self)
  | None =>
      let h := compute_block_hash (Block.header self) in
      (h, {| Block.header := Block.header self; Block.body := Block.body self;
             Block.hash_cell := Some h |})
  end.

Definition code_hash (code : list Z) : list Z := keccak code.

(** The pairs a root is computed from: the index of an element in RLP, and
    its bytes. *)
Definition indexed {A} (f : A → list Z) (l : list A) : list (list Z * list Z) :=
  imap (λ idx x, (encode_usize (Z.of_nat idx), f x)) l.

Definition compute_transactions_root (transactions : list Transaction) : TrieResult H256 :=
  compute_hash_from_unsorted_iter (indexed Transaction.encode_canonical_to_vec transactions).

Definition compute_receipts_root (receipts : list Receipt.t) : TrieResult H256 :=
  compute_hash_from_unsorted_iter (indexed Receipt.encode_inner receipts).

Definition compute_withdrawals_root (withdrawals : list Withdrawal.t) : TrieResult H256 :=
  compute_hash_from_unsorted_iter (indexed encode withdrawals).

(** The slots of a [HashMap], in the order it iterates them. *)
Definition compute_storage_root (storage : list (H256 * u256)) : TrieResult H256 :=
  compute_hash_from_unsorted_iter
    (omap (λ kv : H256 * u256,
       if kv.2 =? 0 then None else Some (keccak kv.1, encode kv.2)) storage).
End hashes.
