(* ===== verification/BlockCodecs.v ===== *)
(** * Correctness of the codecs of blocks, receipts and accounts *)

From stdpp Require Import base option list numbers strings pretty.
From S2P Require Import Prelude Rlp RlpProofs RlpStruct LevmHost Tx TxProofs BlockTypes.

Local Open Scope Z_scope.

#[export] Instance AccountInfo_valid : RLPValid AccountInfo.t := λ x,
  rlp_valid (AccountInfo.code_hash x) ∧ rlp_valid (AccountInfo.balance x) ∧
  rlp_valid (AccountInfo.nonce x).

#[export] Instance AccountInfo_codec : RLPCodec AccountInfo.t.
Proof. struct_codec AccountInfo.encode AccountInfo.decode_unfinished. Qed.

#[export] Instance AccountState_valid : RLPValid AccountState.t := λ x,
  rlp_valid (AccountState.nonce x) ∧ rlp_valid (AccountState.balance x) ∧
  rlp_valid (AccountState.storage_root x) ∧ rlp_valid (AccountState.code_hash x).

#[export] Instance AccountState_codec : RLPCodec AccountState.t.
Proof. struct_codec AccountState.encode AccountState.decode_unfinished. Qed.

#[export] Instance Withdrawal_valid : RLPValid Withdrawal.t := λ x,
  rlp_valid (Withdrawal.index x) ∧ rlp_valid (Withdrawal.validator_index x) ∧
  rlp_valid (Withdrawal.address x) ∧ rlp_valid (Withdrawal.amount x).

#[export] Instance Withdrawal_codec : RLPCodec Withdrawal.t.
Proof. struct_codec Withdrawal.encode Withdrawal.decode_unfinished. Qed.

#[export] Instance Log_valid : RLPValid Log.t := λ x,
  rlp_valid (Log.address x) ∧ rlp_valid (Log.topics x) ∧ rlp_valid (Log.data x).

#[export] Instance Log_codec : RLPCodec Log.t.
Proof. struct_codec Log.encode Log.decode_unfinished. Qed.

(** ** Headers *)

(** A header has the optional fields of one fork: those of the forks before it
    and none of a later one. *)
Definition fork_fields_ok (h : BlockHeader.t) : Prop :=
  match BlockHeader.base_fee_per_gas h, BlockHeader.withdrawals_root h,
        BlockHeader.blob_gas_used h, BlockHeader.excess_blob_gas h,
        BlockHeader.parent_beacon_block_root h with
  | None, None, None, None, None => True
  | Some fee, None, None, None, None => rlp_valid fee
  | Some fee, Some root, None, None, None => rlp_valid fee ∧ rlp_valid root
  | Some fee, Some root, Some used, Some excess, Some beacon =>
      rlp_valid fee ∧ rlp_valid root ∧ rlp_valid used ∧ rlp_valid excess ∧ rlp_valid beacon
  | _, _, _, _, _ => False
  end.

#[export] Instance BlockHeader_valid : RLPValid BlockHeader.t := λ x,
  rlp_valid (BlockHeader.parent_hash x) ∧ rlp_valid (BlockHeader.ommers_hash x) ∧
  rlp_valid (BlockHeader.coinbase x) ∧ rlp_valid (BlockHeader.state_root x) ∧
  rlp_valid (BlockHeader.transactions_root x) ∧ rlp_valid (BlockHeader.receipts_root x) ∧
  rlp_valid (BlockHeader.logs_bloom x) ∧ rlp_valid (BlockHeader.difficulty x) ∧
  rlp_valid (BlockHeader.number x) ∧ rlp_valid (BlockHeader.gas_limit x) ∧
  rlp_valid (BlockHeader.gas_used x) ∧ rlp_valid (BlockHeader.timestamp x) ∧
  rlp_valid (BlockHeader.extra_data x) ∧ rlp_valid (BlockHeader.prev_randao x) ∧
  rlp_valid (BlockHeader.nonce x) ∧ fork_fields_ok x.

Lemma u64_bytes_valid (x : u64) : rlp_valid (u64_to_be_bytes x).
Proof. split; [apply be_encode_bytes|apply be_encode_length]. Qed.

Lemma u64_bytes_inv (x : u64) : rlp_valid x → u64_from_be_bytes (u64_to_be_bytes x) = x.
Proof. intros Hx. apply be_decode_encode. exact Hx. Qed.

#[local] Hint Resolve u64_bytes_valid : core.

Lemma header_roundtrip (x : BlockHeader.t) rest :
  rlp_valid x → len (BlockHeader.encode x) ≤ isize_max →
  BlockHeader.decode_unfinished (BlockHeader.encode x ++ rest) = Ok (x, rest).
Proof.
  intros Hv Hl. split_valid Hv. pose proof (u64_bytes_valid (BlockHeader.nonce x)).
  apply struct_roundtrip_new; [done|]. clear Hl.
  unfold Encoder.new. rewrite ?optional_app, ?field_app. cbn [app]. rewrite <-?app_assoc.
  unfold fork_fields_ok in *.
  destruct (BlockHeader.base_fee_per_gas x) eqn:?, (BlockHeader.withdrawals_root x) eqn:?,
    (BlockHeader.blob_gas_used x) eqn:?, (BlockHeader.excess_blob_gas x) eqn:?,
    (BlockHeader.parent_beacon_block_root x) eqn:?; try done; cbn [from_option];
    rewrite ?app_nil_r; intros Hlen; field_sizes Hlen; destruct_and?; repeat read_field;
    rewrite u64_bytes_inv by done; destruct x; cbn in *; by subst.
Qed.

Lemma optional_bytes `{RLPCodec T} (x : option T) :
  from_option rlp_valid True x → bytes (from_option encode [] x).
Proof. destruct x; [apply codec_bytes|constructor]. Qed.

Lemma header_bytes (x : BlockHeader.t) : rlp_valid x → bytes (BlockHeader.encode x).
Proof.
  intros Hv. split_valid Hv. apply as_list_bytes.
  unfold Encoder.new. rewrite ?optional_app, ?field_app. cbn [app].
  assert (from_option rlp_valid True (BlockHeader.base_fee_per_gas x) ∧
    from_option rlp_valid True (BlockHeader.withdrawals_root x) ∧
    from_option rlp_valid True (BlockHeader.blob_gas_used x) ∧
    from_option rlp_valid True (BlockHeader.excess_blob_gas x) ∧
    from_option rlp_valid True (BlockHeader.parent_beacon_block_root x)) as (?&?&?&?&?).
  { unfold fork_fields_ok in *.
    destruct (BlockHeader.base_fee_per_gas x), (BlockHeader.withdrawals_root x),
      (BlockHeader.blob_gas_used x), (BlockHeader.excess_blob_gas x),
      (BlockHeader.parent_beacon_block_root x); cbn [from_option]; tauto. }
  pose proof (u64_bytes_valid (BlockHeader.nonce x)).
  app_bytes; by (apply optional_bytes || apply codec_bytes).
Qed.

#[export] Instance BlockHeader_codec : RLPCodec BlockHeader.t.
Proof.
  split.
  - done.
  - exact header_roundtrip.
  - intros ? ?. apply (struct_new _ _). intros. struct_progress.
  - intros ?. apply (struct_new _ _). intros. struct_progress.
  - exact header_bytes.
Qed.

(** ** Bodies and blocks *)

#[export] Instance BlockBody_valid : RLPValid BlockBody.t := λ x,
  rlp_valid (BlockBody.transactions x) ∧ rlp_valid (BlockBody.ommers x) ∧
  from_option rlp_valid True (BlockBody.withdrawals x).

#[export] Instance BlockBody_codec : RLPCodec BlockBody.t.
Proof.
  split.
  - done.
  - intros x rest Hv Hl. change (encode x) with (BlockBody.encode x) in *.
    split_valid Hv. apply struct_roundtrip_new; [done|]. clear Hl.
    unfold Encoder.new. rewrite ?optional_app, ?field_app. cbn [app]. rewrite <-?app_assoc.
    destruct (BlockBody.withdrawals x) eqn:?; cbn [from_option] in *; rewrite ?app_nil_r;
      intros Hlen; field_sizes Hlen; repeat read_field; destruct x; cbn in *; by subst.
  - intros ? ?. apply (struct_new _ _). intros. struct_progress.
  - intros ?. apply (struct_new _ _). intros. struct_progress.
  - intros x Hv. split_valid Hv. apply as_list_bytes.
    unfold Encoder.new. rewrite ?optional_app, ?field_app. cbn [app].
    app_bytes; by (apply optional_bytes || apply codec_bytes).
Qed.

(** A block that is read has an empty cell for its hash. *)
#[export] Instance Block_valid : RLPValid Block.t := λ x,
  rlp_valid (Block.header x) ∧ rlp_valid (Block.body x) ∧ Block.hash_cell x = None.

#[export] Instance Block_codec : RLPCodec Block.t.
Proof.
  split.
  - done.
  - intros x rest Hv Hl. change (encode x) with (Block.encode x) in *.
    split_valid Hv. match goal with H : rlp_valid (Block.body x) |- _ => split_valid H end.
    apply struct_roundtrip_new; [done|]. clear Hl.
    unfold Encoder.new. rewrite ?optional_app, ?field_app. cbn [app]. rewrite <-?app_assoc.
    destruct (BlockBody.withdrawals (Block.body x)) eqn:?; cbn [from_option] in *;
      rewrite ?app_nil_r; intros Hlen; field_sizes Hlen; repeat read_field;
      destruct x as [h [] c]; cbn in *; by subst.
  - intros ? ?. apply (struct_new _ _). intros. struct_progress.
  - intros ?. apply (struct_new _ _). intros. struct_progress.
  - intros x Hv. split_valid Hv. apply as_list_bytes.
    match goal with H : rlp_valid (Block.body x) |- _ => split_valid H end.
    unfold Encoder.new. rewrite ?optional_app, ?field_app. cbn [app].
    app_bytes; by (apply optional_bytes || apply codec_bytes).
Qed.

(** ** Receipts *)

#[export] Instance Receipt_valid : RLPValid Receipt.t := λ x,
  rlp_valid (Receipt.succeeded x) ∧ rlp_valid (Receipt.cumulative_gas_used x) ∧
  rlp_valid (Receipt.bloom x) ∧ rlp_valid (Receipt.logs x).

(** The list of the fields, which follows the type byte. *)
Definition receipt_fields (x : Receipt.t) : list Z :=
  as_list (Encoder.new ⊕ Receipt.succeeded x ⊕ Receipt.cumulative_gas_used x
    ⊕ Receipt.bloom x ⊕ Receipt.logs x)%rlp.

Lemma encode_inner_eq x :
  Receipt.encode_inner x =
    match Receipt.tx_type x with
    | TxType.Legacy => []
    | ty => [TxType.to_u8 ty]
    end ++ receipt_fields x.
Proof. unfold Receipt.encode_inner. by destruct (Receipt.tx_type x). Qed.

Lemma receipt_fields_bytes x : rlp_valid x → bytes (receipt_fields x).
Proof.
  intros Hv. split_valid Hv. apply as_list_bytes. unfold Encoder.new. rewrite ?field_app.
  cbn [app]. app_bytes; by apply codec_bytes.
Qed.

Lemma encode_inner_bytes x : rlp_valid x → bytes (Receipt.encode_inner x).
Proof.
  intros Hv. rewrite encode_inner_eq. apply Forall_app. split; [|by apply receipt_fields_bytes].
  destruct (Receipt.tx_type x); by repeat constructor.
Qed.

Lemma decode_fields_roundtrip x rest :
  rlp_valid x → len (receipt_fields x) ≤ isize_max →
  Receipt.decode_fields (Receipt.tx_type x) (receipt_fields x ++ rest) = Ok (x, rest).
Proof. intros Hv Hl. struct_roundtrip Hv. Qed.

(** The bloom filter alone is longer than a short string. *)
Lemma receipt_is_long x : rlp_valid x → 56 ≤ len (receipt_fields x).
Proof.
  intros Hv. split_valid Hv. unfold receipt_fields.
  match goal with |- context [as_list ?e'] => set (e := e'); pose proof (as_list_length e) end.
  assert (e = [] ++ encode (Receipt.succeeded x) ++ encode (Receipt.cumulative_gas_used x)
    ++ encode (Receipt.bloom x) ++ encode (Receipt.logs x)) as He
    by (unfold e; rewrite !field_app, <-!app_assoc; done).
  assert (len e = len e) as Hl by done. rewrite He in Hl at 2. rewrite !len_app in Hl.
  pose proof (encode_slice_length (Receipt.bloom x)) as Hb.
  change (encode_slice (Receipt.bloom x)) with (encode (Receipt.bloom x)) in Hb.
  assert (len (Receipt.bloom x) = 256) as Hn.
  { unfold len. match goal with H : rlp_valid (Receipt.bloom x) |- _ => destruct H as [_ ->] end.
    done. }
  pose proof (len_encode_nonneg (Receipt.succeeded x)).
  pose proof (len_encode_nonneg (Receipt.cumulative_gas_used x)).
  pose proof (len_encode_nonneg (Receipt.logs x)). rewrite len_nil in Hl. lia.
Qed.

Lemma decode_type_inv ty : Receipt.decode_type (TxType.to_u8 ty) = Ok ty.
Proof. by destruct ty. Qed.

Lemma receipt_inner_roundtrip x :
  rlp_valid x → len (receipt_fields x) ≤ isize_max →
  Receipt.decode_inner (Receipt.encode_inner x) = Ok x.
Proof.
  intros Hv Hl. pose proof (decode_fields_roundtrip x [] Hv Hl) as Hd. rewrite app_nil_r in Hd.
  rewrite encode_inner_eq. unfold Receipt.decode_inner.
  destruct (Receipt.tx_type x) eqn:Ht; cbn [app];
    [|cbn -[Receipt.decode_fields]; by rewrite Hd..].
  destruct (as_list_head (Encoder.new ⊕ Receipt.succeeded x ⊕ Receipt.cumulative_gas_used x
    ⊕ Receipt.bloom x ⊕ Receipt.logs x)%rlp) as (b & l & E & Hb).
  fold (receipt_fields x) in E. rewrite E in *. decide_tests. cbn [mbind outcome_bind].
  by rewrite Hd.
Qed.

Lemma receipt_roundtrip x rest :
  rlp_valid x → len (Receipt.encode x) ≤ isize_max →
  Receipt.decode_unfinished (Receipt.encode x ++ rest) = Ok (x, rest).
Proof.
  intros Hv Hl. pose proof (receipt_is_long x Hv) as H56.
  pose proof (decode_fields_roundtrip x rest Hv) as Hd.
  unfold Receipt.encode, Receipt.decode_unfinished in *. rewrite encode_inner_eq in *.
  destruct (Receipt.tx_type x) eqn:Ht; cbn [app] in *.
  { destruct (as_list_head (Encoder.new ⊕ Receipt.succeeded x ⊕ Receipt.cumulative_gas_used x
      ⊕ Receipt.bloom x ⊕ Receipt.logs x)%rlp) as (b & l & E & Hb).
    fold (receipt_fields x) in E. rewrite E in *. unfold is_encoded_as_bytes.
    cbn [app head ok_or mbind outcome_bind] in *. decide_tests. cbn [andb mbind outcome_bind].
    by apply Hd. }
  all: match type of Hl with context [encode_slice ?c] =>
    pose proof (encode_slice_length c) as Hs; rewrite len_cons in Hs;
    destruct (long_slice c rest) as [-> Hg]; [rewrite len_cons; lia|] end;
    cbn [mbind outcome_bind]; rewrite Hg; cbn -[Receipt.decode_fields]; apply Hd; lia.
Qed.

Lemma decode_fields_body ty data :
  Receipt.decode_fields ty data ≠ NoFuel ∧
  ∀ x rest, Receipt.decode_fields ty data = Ok (x, rest) → (length rest < length data)%nat.
Proof. apply (struct_new _ _). intros. struct_progress. Qed.

Lemma receipt_progress d x rest :
  Receipt.decode_unfinished d = Ok (x, rest) → (length rest < length d)%nat.
Proof.
  unfold Receipt.decode_unfinished. intros Hd. apply bind_Ok in Hd as ([] & _ & Hd).
  - apply bind_Ok in Hd as ([ty rlp] & Hp & Hd). apply decode_fields_body in Hd.
    apply bind_Ok in Hp as ([|b l] & Hg & Hp); [done|]. apply get_payload_shorter in Hg.
    apply bind_Ok in Hp as (? & _ & [= <- <-]). cbn [length] in Hg. lia.
  - by apply decode_fields_body in Hd.
Qed.

Lemma receipt_fuel d : Receipt.decode_unfinished d ≠ NoFuel.
Proof.
  apply bind_fuel; [by destruct d|]. intros as_bytes _.
  apply bind_fuel; [|intros [ty rlp] _; apply decode_fields_body].
  destruct as_bytes; [|done]. apply bind_fuel; [apply get_payload_fuel|].
  intros [|ty l] _; [done|]. apply bind_fuel; [|done].
  unfold Receipt.decode_type. by destruct (TxType.from_u8 ty).
Qed.

#[export] Instance Receipt_codec : RLPCodec Receipt.t.
Proof.
  split.
  - done.
  - exact receipt_roundtrip.
  - exact (λ x d r, receipt_progress d x r).
  - exact receipt_fuel.
  - intros x Hv. pose proof (encode_inner_bytes x Hv).
    change (encode x) with (Receipt.encode x). unfold Receipt.encode.
    destruct (Receipt.tx_type x); by (done || apply encode_slice_bytes).
Qed.

(** ** Sizes *)

Lemma header_in_block b : len (encode (Block.header b)) ≤ len (encode b).
Proof.
  change (encode b) with (Block.encode b). unfold Block.encode.
  match goal with |- context [Encoder.finish [] ?e'] =>
    set (e := e'); pose proof (as_list_length e) as Ha end.
  change (Encoder.finish [] e) with (as_list e).
  assert (∃ l, e = encode (Block.header b) ++ l) as [l He].
  { unfold e. rewrite optional_app, !field_app. cbn [app Encoder.new]. rewrite <-!app_assoc. by eexists. }
  rewrite He in Ha at 1. rewrite len_app in Ha. pose proof (len_nonneg l). lia.
Qed.

Lemma receipt_fields_length x : len (receipt_fields x) ≤ len (Receipt.encode x).
Proof.
  assert (len (receipt_fields x) ≤ len (Receipt.encode_inner x)) as Hi.
  { rewrite encode_inner_eq, len_app.
    match goal with |- _ ≤ len ?l + _ => pose proof (len_nonneg l) end. lia. }
  etrans; [exact Hi|]. unfold Receipt.encode.
  destruct (Receipt.tx_type x); [done|apply encode_slice_length..].
Qed.
