(* ===== verification/BlockRoots.v ===== *)
(** * What the roots and the hash of a block determine

    [compute_transactions_root], [compute_receipts_root] and
    [compute_withdrawals_root] insert their elements into an empty trie, with
    the index of the element as its key.  They return the hash of that trie,
    which determines the list, and so the hash of the header determines the
    block. *)

From stdpp Require Import base option list numbers strings pretty gmap.
From S2P Require Import Prelude Rlp RlpProofs RlpStruct LevmHost LevmDemo TrieNode TrieCodec Trie.
From S2P Require Import TrieLogic TrieMap TrieOps TrieCorrect TrieTheorems.
From S2P Require Import Tx TxProofs BlockTypes BlockCodecs.

Local Open Scope Z_scope.

(** ** The hash of a trie as the hash of its root node *)

Definition inserts (iter : list (list Z * list Z)) : list TrieOp :=
  (λ kv, OpInsert kv.1 kv.2) <$> iter.

Section roots.
Context `{CryptoLaws}.

(** The trie that [compute_hash_from_unsorted_iter] builds. *)
Definition trie_of (iter : list (list Z * list Z)) : Trie NullTrieDB :=
  (run_ops (inserts iter) stateless).2.

Definition root_encoding (t : Trie NullTrieDB) : list Z :=
  match root t with
  | None => [RLP_NULL]
  | Some h => match get_node (state t) h with Ok (Some n) => encode_raw n | _ => [] end
  end.

Lemma insert_all_run iter t M :
  trie_ok t M → Forall op_ok (inserts iter) →
  collision_free (state (run_ops (inserts iter) t).2) →
  insert_all iter t = Ok (run_ops (inserts iter) t).2.
Proof.
  revert t M. induction iter as [|[k v] iter IH]; intros t M Ht Ho; [done|].
  apply Forall_cons in Ho as [Hop Ho]. cbn [inserts fmap list_fmap run_ops insert_all fst snd].
  pose proof (run_op_ok (OpInsert k v) t M Ht Hop) as Hr. cbn [run_op] in *.
  destruct (trie_insert k v t) as [r t1]. pose proof (run_ops_grows (inserts iter) t1) as Hg.
  specialize (IH t1 (<[k := v]> M)). unfold inserts in *.
  destruct (run_ops _ t1) as [rs t2]. cbn [fst snd] in *. intros Hc.
  destruct Hr as [Hr1 Ht1]; [by eapply collision_free_extends|].
  destruct r; [by apply IH|done..].
Qed.

Lemma encode_raw_not_null n : node_ok n → encode_raw n ≠ [RLP_NULL].
Proof.
  intros Hn E. pose proof (decode_encode_raw n Hn) as Hd. rewrite E in Hd.
  discriminate Hd. vm_compute. congruence.
Qed.

Lemma root_encoding_spec t M :
  trie_ok t M → collision_free (state t) →
  hash_no_commit t = keccak (root_encoding t) ∧
  root t = if decide (root_encoding t = [RLP_NULL]) then None
           else Some (from_encoded_raw (root_encoding t)).
Proof.
  intros [_ Ht] Hc. unfold hash_no_commit, root_encoding.
  destruct (root t) as [h|]; [|by rewrite decide_True].
  destruct Ht as (n & -> & Hk & Hr). rewrite (get_node_knows _ _ n) by done.
  apply Rep_node_ok in Hr. rewrite decide_False by by apply encode_raw_not_null.
  split; [|done]. unfold compute_hash, from_encoded_raw. by destruct (32 <=? _).
Qed.

(** Two tries without a collision between their nodes or their roots. *)
Definition tries_apart (t1 t2 : Trie NullTrieDB) : Prop :=
  collision_free (state t1) ∧ collision_free (state t2) ∧ agree (state t1) (state t2) ∧
  (keccak (root_encoding t1) = keccak (root_encoding t2) → root_encoding t1 = root_encoding t2).

Lemma trie_of_ok iter :
  Forall op_ok (inserts iter) → collision_free (state (trie_of iter)) →
  trie_ok (trie_of iter) (spec_ops (inserts iter) ∅).2 ∧
  compute_hash_from_unsorted_iter iter = Ok (hash_no_commit (trie_of iter)).
Proof.
  intros Ho Hc. split; [by apply run_ops_ok; [apply trie_new_ok|..]|].
  unfold compute_hash_from_unsorted_iter.
  by rewrite (insert_all_run iter stateless ∅ (trie_new_ok NullDB) Ho Hc).
Qed.

Lemma hash_binds_map iter1 iter2 :
  Forall op_ok (inserts iter1) → Forall op_ok (inserts iter2) →
  tries_apart (trie_of iter1) (trie_of iter2) →
  compute_hash_from_unsorted_iter iter1 = compute_hash_from_unsorted_iter iter2 →
  (spec_ops (inserts iter1) ∅).2 = (spec_ops (inserts iter2) ∅).2.
Proof.
  intros Ho1 Ho2 (Hc1 & Hc2 & Ha & Hr).
  destruct (trie_of_ok iter1 Ho1 Hc1) as [Ht1 ->], (trie_of_ok iter2 Ho2 Hc2) as [Ht2 ->].
  intros [= He]. apply (trie_ok_binding _ _ _ _ Ht1 Ht2 Ha).
  destruct (root_encoding_spec _ _ Ht1 Hc1) as [Hh1 ->].
  destruct (root_encoding_spec _ _ Ht2 Hc2) as [Hh2 ->].
  rewrite Hh1, Hh2 in He. by rewrite (Hr He).
Qed.
End roots.

(** ** Indexed lists *)

Lemma spec_inserts iter M :
  (spec_ops (inserts iter) M).2 = foldl (λ M kv, <[kv.1 := kv.2]> M) M iter.
Proof.
  revert M. induction iter as [|[k v] iter IH]; intros M; [done|].
  cbn. rewrite <-IH. unfold inserts. by destruct (spec_ops _ _).
Qed.

Definition usize_max : Z := 2 ^ 64 - 1.

Lemma encode_usize_inj i j :
  0 ≤ i ≤ usize_max → 0 ≤ j ≤ usize_max → encode_usize i = encode_usize j → i = j.
Proof.
  intros Hi Hj He. pose proof (uint_codec 8 i []) as Hi'. pose proof (uint_codec 8 j []) as Hj'.
  unfold in_u, usize_max in *. change (encode_uint 8) with encode_usize in *.
  rewrite He in Hi'. rewrite Hi' in Hj' by (lia || done).
  by injection Hj' as ->; (lia || done).
Qed.

Section indexed_lists.
Context {A : Type} (f : A → list Z).

Lemma indexed_snoc l x :
  indexed f (l ++ [x]) = indexed f l ++ [(encode_usize (Z.of_nat (length l)), f x)].
Proof. unfold indexed. rewrite imap_app. cbn. by rewrite Nat.add_0_r. Qed.

Lemma indexed_lookup l (i : nat) :
  Z.of_nat (length l) ≤ usize_max → Z.of_nat i ≤ usize_max →
  (spec_ops (inserts (indexed f l)) ∅).2 !! encode_usize (Z.of_nat i) = f <$> l !! i.
Proof.
  rewrite spec_inserts. induction l as [|x l IH] using rev_ind; intros Hl Hi; [done|].
  rewrite length_app in Hl. cbn [length] in Hl. rewrite indexed_snoc, foldl_app. cbn.
  destruct (decide (i = length l)) as [->|Hne].
  - rewrite lookup_insert_eq, lookup_app_r, Nat.sub_diag by lia. done.
  - rewrite lookup_insert_ne, IH by (lia || (intros ?%encode_usize_inj; lia)).
    f_equal. destruct (decide (i < length l)%nat); [by rewrite lookup_app_l|].
    rewrite !(proj2 (lookup_ge_None _ _)); [done|rewrite length_app; cbn; lia|lia].
Qed.

Lemma indexed_ops_ok l :
  Z.of_nat (length l) ≤ usize_max → Forall (λ x, good_value (f x)) l →
  Forall op_ok (inserts (indexed f l)).
Proof.
  induction l as [|x l IH] using rev_ind; intros Hl Hf; [constructor|].
  rewrite length_app in Hl. cbn [length] in Hl. apply Forall_app in Hf as [Hf Hx].
  rewrite indexed_snoc. unfold inserts. rewrite fmap_app. apply Forall_app.
  split; [apply IH; [lia|done]|]. apply Forall_cons in Hx as [Hx _]. constructor; [|constructor].
  split; [|done]. apply (encode_uint_bytes 8); [lia|]. unfold in_u, usize_max in *. cbn. lia.
Qed.

(** The root of an indexed list determines it, when [f] is injective. *)
Lemma indexed_root_binds `{CryptoLaws} (P : A → Prop) l1 l2 :
  (∀ x y, P x → P y → f x = f y → x = y) →
  Forall P l1 → Forall P l2 →
  Forall (λ x, good_value (f x)) l1 → Forall (λ x, good_value (f x)) l2 →
  Z.of_nat (length l1) ≤ usize_max → Z.of_nat (length l2) ≤ usize_max →
  tries_apart (trie_of (indexed f l1)) (trie_of (indexed f l2)) →
  compute_hash_from_unsorted_iter (indexed f l1) = compute_hash_from_unsorted_iter (indexed f l2) →
  l1 = l2.
Proof.
  intros Hinj HP1 HP2 Hg1 Hg2 Hl1 Hl2 Hap He. apply hash_binds_map in He; [|by apply indexed_ops_ok..|done].
  assert (∀ i, Z.of_nat i ≤ usize_max → f <$> l1 !! i = f <$> l2 !! i) as Hi.
  { intros i Hi. rewrite <-!indexed_lookup by done. by rewrite He. }
  assert (∀ l : list A, Z.of_nat (length l) ≤ usize_max →
    ∀ i, ¬ Z.of_nat i ≤ usize_max → l !! i = None) as Hnone.
  { intros l Hl i Hn. apply lookup_ge_None. lia. }
  apply list_eq. intros i. destruct (decide (Z.of_nat i ≤ usize_max)) as [Hb|Hb].
  - specialize (Hi i Hb). destruct (l1 !! i) eqn:E1, (l2 !! i) eqn:E2; try done.
    injection Hi as Hi. f_equal. apply Hinj; [exact (Forall_lookup_1 P l1 i _ HP1 E1)|exact (Forall_lookup_1 P l2 i _ HP2 E2)|done].
  - by rewrite !Hnone.
Qed.
End indexed_lists.

(** ** Transactions, withdrawals and the block *)

Lemma canonical_inj tx1 tx2 :
  (tx_fields_ok tx1 ∧ len (Transaction.encode_canonical_to_vec tx1) ≤ isize_max) →
  (tx_fields_ok tx2 ∧ len (Transaction.encode_canonical_to_vec tx2) ≤ isize_max) →
  Transaction.encode_canonical_to_vec tx1 = Transaction.encode_canonical_to_vec tx2 → tx1 = tx2.
Proof.
  intros [Hv1 Hl1] [Hv2 Hl2] He. pose proof (canonical_roundtrip tx1 Hv1 Hl1) as Hr.
  rewrite He, canonical_roundtrip in Hr by done. by injection Hr.
Qed.

Lemma encode_inj `{RLPCodec T} (x y : T) :
  (rlp_valid x ∧ len (encode x) ≤ isize_max) → (rlp_valid y ∧ len (encode y) ≤ isize_max) →
  encode x = encode y → x = y.
Proof.
  intros [Hx Hlx] [Hy Hly] He. pose proof (decode_encode x Hx Hlx) as Hr.
  rewrite He, decode_encode in Hr by done. by injection Hr.
Qed.

Lemma canonical_good tx : tx_fields_ok tx → good_value (Transaction.encode_canonical_to_vec tx).
Proof.
  intros Hv. split; [|by apply canonical_bytes]. intros E.
  destruct (is_legacy tx) eqn:Ht.
  - destruct tx as [t| | | |]; [|done..]. change (encode t = []) in E.
    destruct (legacy_head t) as (b & l & Hh & _).
    by rewrite Hh in E.
  - pose proof (canonical_nonempty tx Ht) as Hn. rewrite E, len_nil in Hn. lia.
Qed.

Lemma encode_good `{RLPCodec T} (x : T) :
  rlp_valid x → len (encode x) ≤ isize_max → good_value (encode x).
Proof.
  intros Hx Hl. split; [|by apply codec_bytes]. pose proof (codec_nonempty x Hx Hl) as Hn.
  intros E. rewrite E in Hn. by apply Nat.lt_irrefl in Hn.
Qed.

Definition withdrawals_of (b : Block.t) : list Withdrawal.t :=
  default [] (BlockBody.withdrawals (Block.body b)).

(** A block whose fields are in range and whose header has the roots of its
    body. *)
Record block_ok `{Crypto} (b : Block.t) : Prop := {
  ok_header : rlp_valid (Block.header b) ∧ len (encode (Block.header b)) ≤ isize_max;
  ok_transactions :
    Forall (λ tx, tx_fields_ok tx ∧ len (Transaction.encode_canonical_to_vec tx) ≤ isize_max)
      (BlockBody.transactions (Block.body b));
  ok_withdrawals : Forall (λ w, rlp_valid w ∧ len (encode w) ≤ isize_max) (withdrawals_of b);
  ok_counts :
    Z.of_nat (length (BlockBody.transactions (Block.body b))) ≤ usize_max ∧
    Z.of_nat (length (withdrawals_of b)) ≤ usize_max;
  ok_transactions_root :
    compute_transactions_root (BlockBody.transactions (Block.body b))
    = Ok (BlockHeader.transactions_root (Block.header b));
  ok_withdrawals_root :
    match BlockBody.withdrawals (Block.body b), BlockHeader.withdrawals_root (Block.header b) with
    | Some ws, Some root => compute_withdrawals_root ws = Ok root
    | None, None => True
    | _, _ => False
    end;
}.

Section binding.
Context `{CryptoLaws}.

Definition transactions_trie (b : Block.t) : Trie NullTrieDB :=
  trie_of (indexed Transaction.encode_canonical_to_vec (BlockBody.transactions (Block.body b))).
Definition withdrawals_trie (b : Block.t) : Trie NullTrieDB :=
  trie_of (indexed encode (withdrawals_of b)).

(** Nothing that is hashed for the two blocks collides. *)
Definition blocks_apart (b1 b2 : Block.t) : Prop :=
  (compute_block_hash (Block.header b1) = compute_block_hash (Block.header b2) →
   encode (Block.header b1) = encode (Block.header b2)) ∧
  tries_apart (transactions_trie b1) (transactions_trie b2) ∧
  tries_apart (withdrawals_trie b1) (withdrawals_trie b2).

(** C26 The hash of a block determines the block.  Two blocks with the roots of
    their bodies in their headers and the same block hash have the same header,
    transactions and withdrawals, unless two of the headers or trie nodes that
    are hashed for them collide. *)
Theorem block_hash_binds b1 b2 :
  block_ok b1 → block_ok b2 → blocks_apart b1 b2 →
  compute_block_hash (Block.header b1) = compute_block_hash (Block.header b2) →
  Block.header b1 = Block.header b2 ∧
  BlockBody.transactions (Block.body b1) = BlockBody.transactions (Block.body b2) ∧
  BlockBody.withdrawals (Block.body b1) = BlockBody.withdrawals (Block.body b2).
Proof.
  intros [Hh1 Ht1 Hw1 [Hn1 Hm1] Hr1 Hq1] [Hh2 Ht2 Hw2 [Hn2 Hm2] Hr2 Hq2] (Hc & Hat & Haw) He.
  assert (Block.header b1 = Block.header b2) as Hh by (by apply encode_inj; [..|apply Hc]).
  rewrite Hh in *. split_and!; [done|..].
  - apply (indexed_root_binds Transaction.encode_canonical_to_vec _ _ _ canonical_inj); try done.
    + eapply Forall_impl; [exact Ht1|]. intros tx [? _]. by apply canonical_good.
    + eapply Forall_impl; [exact Ht2|]. intros tx [? _]. by apply canonical_good.
    + unfold compute_transactions_root in *. congruence.
  - unfold withdrawals_trie, withdrawals_of in *.
    destruct (BlockBody.withdrawals (Block.body b1)) as [ws1|],
      (BlockBody.withdrawals (Block.body b2)) as [ws2|],
      (BlockHeader.withdrawals_root (Block.header b2)) as [root|]; try done.
    f_equal. apply (indexed_root_binds encode _ _ _ encode_inj); try done.
    + eapply Forall_impl; [exact Hw1|]. intros w [? ?]. by apply encode_good.
    + eapply Forall_impl; [exact Hw2|]. intros w [? ?]. by apply encode_good.
    + unfold compute_withdrawals_root in *. congruence.
Qed.
End binding.

(** A block of one transaction and one withdrawal. *)
Definition demo_txs : list Transaction := [EIP1559Transaction demo_tx].
Definition demo_withdrawal : Withdrawal.t := {|
  Withdrawal.index := 3; Withdrawal.validator_index := 400;
  Withdrawal.address := replicate 20 0x55; Withdrawal.amount := 10 ^ 9;
|}.

Definition demo_root (r : TrieResult (list Z)) : list Z :=
  match r with Ok h => h | _ => [] end.

Definition demo_tx_root : list Z :=
  Eval vm_compute in demo_root (compute_transactions_root demo_txs).
Definition demo_withdrawals_root : list Z :=
  Eval vm_compute in demo_root (compute_withdrawals_root [demo_withdrawal]).

Definition demo_header (parent_hash : list Z) (number timestamp : Z) : BlockHeader.t := {|
  BlockHeader.parent_hash := parent_hash; BlockHeader.ommers_hash := replicate 32 1;
  BlockHeader.coinbase := replicate 20 2; BlockHeader.state_root := replicate 32 3;
  BlockHeader.transactions_root := demo_tx_root;
  BlockHeader.receipts_root := replicate 32 4; BlockHeader.logs_bloom := replicate 256 0;
  BlockHeader.difficulty := 0; BlockHeader.number := number;
  BlockHeader.gas_limit := 30000000; BlockHeader.gas_used := 21000;
  BlockHeader.timestamp := timestamp; BlockHeader.extra_data := [0xab];
  BlockHeader.prev_randao := replicate 32 5; BlockHeader.nonce := 0;
  BlockHeader.base_fee_per_gas := Some 7;
  BlockHeader.withdrawals_root := Some demo_withdrawals_root;
  BlockHeader.blob_gas_used := Some 0; BlockHeader.excess_blob_gas := Some 0;
  BlockHeader.parent_beacon_block_root := Some (replicate 32 6);
|}.

Definition demo_body : BlockBody.t := {|
  BlockBody.transactions := demo_txs; BlockBody.ommers := [];
  BlockBody.withdrawals := Some [demo_withdrawal];
|}.

Definition demo_block : Block.t := Block.new (demo_header (replicate 32 7) 12 1000) demo_body.

Lemma demo_header_valid p n t :
  rlp_valid (p : H256) → rlp_valid (n : u64) → rlp_valid (t : u64) →
  rlp_valid (demo_header p n t).
Proof.
  intros Hp Hn Ht. split_and!; try done; [check_valid..|]. split_and!; check_valid.
Qed.

Lemma demo_block_ok : block_ok demo_block.
Proof.
  split.
  - split; [apply demo_header_valid; check_valid|vm_compute; congruence].
  - constructor; [|constructor]. split; [apply demo_tx_ok|vm_compute; congruence].
  - constructor; [|constructor]. split; [split_and!; check_valid|vm_compute; congruence].
  - split; vm_compute; congruence.
  - vm_compute; reflexivity.
  - vm_compute; reflexivity.
Qed.

(** The same block, with its hash computed before. *)
Definition demo_hashed_block : Block.t := (block_hash demo_block).2.

Lemma demo_hashed_block_ok : block_ok demo_hashed_block.
Proof. destruct demo_block_ok as [H1 H2 H3 H4 H5 H6]. by split. Qed.

Example block_hash_binds_witness :
  BlockBody.transactions (Block.body demo_block)
  = BlockBody.transactions (Block.body demo_hashed_block).
Proof.
  assert (∀ iter, consistent (cache (state (trie_of iter))) (cache (state (trie_of iter))) = true →
    tries_apart (trie_of iter) (trie_of iter)) as Hself.
  { intros iter Hc. split_and!; try (by apply collision_free_check); try done. }
  destruct (block_hash_binds demo_block demo_hashed_block) as (_ & Ht & _);
    [apply demo_block_ok|apply demo_hashed_block_ok| |done|exact Ht].
  split_and!; [done|apply Hself; vm_compute; reflexivity..].
Defined.

(** C36 Blocks, headers, bodies, receipts and account states survive their
    encodings, whatever bytes follow; a receipt also survives the form its root
    is computed from.  A header is required to have the optional fields of one
    fork, and a typed transaction of the body to be at least 56 bytes long. *)
Theorem block_types_roundtrip (b : Block.t) (r : Receipt.t) (a : AccountState.t) rest :
  rlp_valid b → rlp_valid r → rlp_valid a →
  len (encode b) ≤ isize_max → len (encode (Block.body b)) ≤ isize_max →
  len (encode r) ≤ isize_max → len (encode a) ≤ isize_max →
  decode_unfinished (encode b ++ rest) = Ok (b, rest) ∧
  decode_unfinished (encode (Block.header b) ++ rest) = Ok (Block.header b, rest) ∧
  decode_unfinished (encode (Block.body b) ++ rest) = Ok (Block.body b, rest) ∧
  decode_unfinished (encode r ++ rest) = Ok (r, rest) ∧
  Receipt.decode_inner (Receipt.encode_inner r) = Ok r ∧
  decode_unfinished (encode a ++ rest) = Ok (a, rest).
Proof.
  intros Hb Hr Ha Hlb Hlbody Hlr Hla. pose proof Hb as (Hh & Hbody & _).
  assert (len (encode (Block.header b)) ≤ len (encode b)) as Hlh by apply header_in_block.
  split_and!; try (by apply codec_roundtrip).
  - apply codec_roundtrip; [done|lia].
  - apply receipt_inner_roundtrip; [done|]. pose proof (receipt_fields_length r) as Hf.
    change (Receipt.encode r) with (encode r) in Hf. lia.
Qed.

Definition demo_receipt : Receipt.t := {|
  Receipt.tx_type := TxType.EIP1559; Receipt.succeeded := true;
  Receipt.cumulative_gas_used := 21000; Receipt.bloom := replicate 256 9;
  Receipt.logs := [{| Log.address := replicate 20 1; Log.topics := [replicate 32 2]; Log.data := [3] |}];
|}.

Definition demo_account : AccountState.t := {|
  AccountState.nonce := 1; AccountState.balance := 10 ^ 20;
  AccountState.storage_root := replicate 32 1; AccountState.code_hash := replicate 32 2;
|}.

Example block_types_roundtrip_witness :
  decode_unfinished (encode demo_block ++ [0]) = Ok (demo_block, [0]) ∧
  decode_unfinished (encode demo_receipt ++ [0]) = Ok (demo_receipt, [0]).
Proof.
  destruct (block_types_roundtrip demo_block demo_receipt demo_account [0])
    as (Hb & _ & _ & Hr & _); [| | |vm_compute; congruence..|].
  - split; [apply demo_header_valid; check_valid|]. split; [|done]. split; [|split].
    + constructor; [|constructor]. split; [apply demo_tx_ok|right; vm_compute; congruence].
    + constructor.
    + constructor; [|constructor]. split_and!; check_valid.
  - split_and!; [done|check_valid..|]. constructor; [|constructor].
    split_and!; [check_valid|constructor; [check_valid|constructor]|check_valid].
  - split_and!; check_valid.
  - by split.
Defined.
