(* ===== verification/Chain.v ===== *)
(** * Chain rules (crates/common/types)

    The fee and gas-limit rules and the header validation of block.rs, the
    chain configuration and the genesis block of genesis.rs, the fork
    identifier of fork_id.rs and the blobs of blobs_bundle.rs.  Unchecked
    operators on [u64] depend on the build, see [BuildProfile].  The CRC-32 of
    crc32fast and the KZG proofs of c-kzg are parameters. *)

From stdpp Require Import base option list numbers strings pretty gmap.
From S2P Require Import Prelude Rlp RlpStruct LevmHost TrieNode Trie Tx BlockTypes.

Local Open Scope Z_scope.
Local Open Scope rlp_scope.

(** ** constants.rs *)

Definition ELASTICITY_MULTIPLIER : Z := 2.
Definition BASE_FEE_MAX_CHANGE_DENOMINATOR : Z := 8.
Definition GAS_LIMIT_ADJUSTMENT_FACTOR : Z := 1024.
Definition GAS_LIMIT_MINIMUM : Z := 5000.
Definition GWEI_TO_WEI : Z := 1000000000.
Definition INITIAL_BASE_FEE : Z := 1000000000.
Definition MIN_BASE_FEE_PER_BLOB_GAS : Z := 1.
Definition BLOB_BASE_FEE_UPDATE_FRACTION : Z := 3338477.
Definition VERSIONED_HASH_VERSION_KZG : Z := 0x01.
Definition BYTES_PER_FIELD_ELEMENT : nat := 32.
Definition FIELD_ELEMENTS_PER_BLOB : nat := 4096.
Definition BYTES_PER_BLOB : nat := BYTES_PER_FIELD_ELEMENT * FIELD_ELEMENTS_PER_BLOB.

Definition DEFAULT_OMMERS_HASH : H256 :=
  [0x1d; 0xcc; 0x4d; 0xe8; 0xde; 0xc7; 0x5d; 0x7a; 0xab; 0x85; 0xb5; 0x67; 0xb6; 0xcc; 0xd4; 0x1a;
   0xd3; 0x12; 0x45; 0x1b; 0x94; 0x8a; 0x74; 0x13; 0xf0; 0xa1; 0x42; 0xfd; 0x40; 0xd4; 0x93; 0x47].

(** The operator [/]: a zero divisor panics in every build. *)
Definition u_div {E} (a b : Z) : Outcome E Z := if b =? 0 then Panic else Ok (a / b).

(** ** Fees and gas limits (block.rs) *)

Section fees.
Context `{BuildProfile} {E : Type}.

Definition check_gas_limit (gas_limit parent_gas_limit : Z) : Outcome E bool :=
  let max_adjustment_delta := parent_gas_limit / GAS_LIMIT_ADJUSTMENT_FACTOR in
  upper ← u_add 64 parent_gas_limit max_adjustment_delta;
  if negb (gas_limit <? upper) then Ok false
  else
    lower ← u_sub 64 parent_gas_limit max_adjustment_delta;
    if negb (lower <? gas_limit) then Ok false
    else Ok (GAS_LIMIT_MINIMUM <=? gas_limit).

(** The [while numerator_accum > 0] loop. *)
Fixpoint fake_exponential_loop (fuel : nat) (numerator denominator i output numerator_accum : Z) :
    Outcome E Z :=
  if numerator_accum <=? 0 then Ok output
  else
    match fuel with
    | O => NoFuel
    | S fuel =>
        output ← u_add 64 output numerator_accum;
        product ← u_mul 64 numerator_accum numerator;
        divisor ← u_mul 64 denominator i;
        numerator_accum ← u_div product divisor;
        i ← u_add 64 i 1;
        fake_exponential_loop fuel numerator denominator i output numerator_accum
    end.

(** The number of rounds of a build with overflow checks; a build without them
    takes as many unless an operation wraps. *)
Definition fake_exponential_fuel : nat := Z.to_nat (5 * 64 + 8).

Definition fake_exponential (factor numerator denominator : Z) : Outcome E Z :=
  numerator_accum ← u_mul 64 factor denominator;
  output ← fake_exponential_loop fake_exponential_fuel numerator denominator 1 0 numerator_accum;
  u_div output denominator.

(** [fake_exponential_checked] and its errors. *)
Inductive FakeExponentialError := DenominatorIsZero | CheckedDiv | CheckedMul.

Fixpoint fake_exponential_checked_loop (fuel : nat)
    (numerator denominator i output numerator_accum : Z) : Outcome FakeExponentialError Z :=
  if numerator_accum <=? 0 then Ok output
  else
    match fuel with
    | O => NoFuel
    | S fuel =>
        let output := saturating_add 64 output numerator_accum in
        denominator_i ← ok_or (checked_mul 64 denominator i) CheckedMul;
        if denominator_i =? 0 then Err DenominatorIsZero
        else
          product ← u_mul 64 numerator_accum numerator;
          numerator_accum ← u_div product denominator_i;
          i ← u_add 64 i 1;
          fake_exponential_checked_loop fuel numerator denominator i output numerator_accum
    end.

Definition fake_exponential_checked (factor numerator denominator : Z) :
    Outcome FakeExponentialError Z :=
  numerator_accum ← u_mul 64 factor denominator;
  if denominator =? 0 then Err DenominatorIsZero
  else
    output ← fake_exponential_checked_loop fake_exponential_fuel numerator denominator 1 0
               numerator_accum;
    ok_or (checked_div output denominator) CheckedDiv.

Definition calculate_base_fee_per_blob_gas (parent_excess_blob_gas : Z) : Outcome E Z :=
  fake_exponential MIN_BASE_FEE_PER_BLOB_GAS parent_excess_blob_gas BLOB_BASE_FEE_UPDATE_FRACTION.

Definition calculate_base_fee_per_gas (block_gas_limit parent_gas_limit parent_gas_used
    parent_base_fee_per_gas : Z) : Outcome E (option Z) :=
  valid ← check_gas_limit block_gas_limit parent_gas_limit;
  if negb valid then Ok None
  else
    let parent_gas_target := parent_gas_limit / ELASTICITY_MULTIPLIER in
    match Z.compare parent_gas_used parent_gas_target with
    | Eq => Ok (Some parent_base_fee_per_gas)
    | Gt =>
        gas_used_delta ← u_sub 64 parent_gas_used parent_gas_target;
        parent_fee_gas_delta ← u_mul 64 parent_base_fee_per_gas gas_used_delta;
        target_fee_gas_delta ← u_div parent_fee_gas_delta parent_gas_target;
        let base_fee_per_gas_delta :=
          Z.max (target_fee_gas_delta / BASE_FEE_MAX_CHANGE_DENOMINATOR) 1 in
        fee ← u_add 64 parent_base_fee_per_gas base_fee_per_gas_delta;
        Ok (Some fee)
    | Lt =>
        gas_used_delta ← u_sub 64 parent_gas_target parent_gas_used;
        parent_fee_gas_delta ← u_mul 64 parent_base_fee_per_gas gas_used_delta;
        target_fee_gas_delta ← u_div parent_fee_gas_delta parent_gas_target;
        let base_fee_per_gas_delta :=
          target_fee_gas_delta / BASE_FEE_MAX_CHANGE_DENOMINATOR in
        fee ← u_sub 64 parent_base_fee_per_gas base_fee_per_gas_delta;
        Ok (Some fee)
    end.

Definition calc_excess_blob_gas (parent_header : BlockHeader.t) : Outcome E Z :=
  let parent_excess_blob_gas := default 0 (BlockHeader.excess_blob_gas parent_header) in
  let parent_blob_gas_used := default 0 (BlockHeader.blob_gas_used parent_header) in
  parent_blob_gas ← u_add 64 parent_excess_blob_gas parent_blob_gas_used;
  if parent_blob_gas <? 393216 then Ok 0 else u_sub 64 parent_blob_gas 393216.
End fees.

(** ** Header validation (block.rs) *)

Inductive InvalidBlockHeaderError :=
| GasUsedGreaterThanGasLimit
| BaseFeePerGasIncorrect
| TimestampNotGreaterThanParent
| BlockNumberNotOneGreater
| ExtraDataTooLong
| DifficultyNotZero
| NonceNotZero
| OmmersHashNotDefault
| ParentHashIncorrect
| ExcessBlobGasNotPresent
| BlobGasUsedNotPresent
| ExcessBlobGasIncorrect
| ParentBeaconBlockRootNotPresent
| ExcessBlobGasPresent
| BlobGasUsedPresent.

Notation HeaderResult := (Outcome InvalidBlockHeaderError).

(** [if c { return Err(e) }]. *)
Definition reject_if {E} (c : bool) (e : E) : Outcome E unit := if c then Err e else Ok tt.

(** [==] on hashes and addresses. *)
Definition bytes_eqb (a b : list Z) : bool := bool_decide (a = b).

Section validation.
Context `{Crypto} `{BuildProfile}.

Definition validate_block_header (header parent_header : BlockHeader.t) : HeaderResult unit :=
  _ ← reject_if (BlockHeader.gas_limit header <? BlockHeader.gas_used header)
        GasUsedGreaterThanGasLimit;
  base_fee ← calculate_base_fee_per_gas (BlockHeader.gas_limit header)
    (BlockHeader.gas_limit parent_header) (BlockHeader.gas_used parent_header)
    (default INITIAL_BASE_FEE (BlockHeader.base_fee_per_gas parent_header));
  expected_base_fee_per_gas ← ok_or base_fee BaseFeePerGasIncorrect;
  _ ← reject_if (negb (expected_base_fee_per_gas
                       =? default INITIAL_BASE_FEE (BlockHeader.base_fee_per_gas header)))
        BaseFeePerGasIncorrect;
  _ ← reject_if (BlockHeader.timestamp header <=? BlockHeader.timestamp parent_header)
        TimestampNotGreaterThanParent;
  next ← u_add 64 (BlockHeader.number parent_header) 1;
  _ ← reject_if (negb (BlockHeader.number header =? next)) BlockNumberNotOneGreater;
  _ ← reject_if (32 <? len (BlockHeader.extra_data header)) ExtraDataTooLong;
  _ ← reject_if (negb (BlockHeader.difficulty header =? 0)) DifficultyNotZero;
  _ ← reject_if (negb (BlockHeader.nonce header =? 0)) NonceNotZero;
  _ ← reject_if (negb (bytes_eqb (BlockHeader.ommers_hash header) DEFAULT_OMMERS_HASH))
        OmmersHashNotDefault;
  reject_if (negb (bytes_eqb (BlockHeader.parent_hash header) (compute_block_hash parent_header)))
    ParentHashIncorrect.

Definition validate_cancun_header_fields (header parent_header : BlockHeader.t) :
    HeaderResult unit :=
  match BlockHeader.excess_blob_gas header with
  | None => Err ExcessBlobGasNotPresent
  | Some excess_blob_gas =>
      match BlockHeader.blob_gas_used header with
      | None => Err BlobGasUsedNotPresent
      | Some _ =>
          expected ← calc_excess_blob_gas parent_header;
          _ ← reject_if (negb (excess_blob_gas =? expected)) ExcessBlobGasIncorrect;
          match BlockHeader.parent_beacon_block_root header with
          | None => Err ParentBeaconBlockRootNotPresent
          | Some _ => Ok tt
          end
      end
  end.

Definition validate_no_cancun_header_fields (header : BlockHeader.t) : HeaderResult unit :=
  match BlockHeader.excess_blob_gas header with
  | Some _ => Err ExcessBlobGasPresent
  | None =>
      match BlockHeader.blob_gas_used header with
      | Some _ => Err BlobGasUsedPresent
      | None => Ok tt
      end
  end.
End validation.

(** ** Chain configuration (genesis.rs) *)

Module ChainConfig.
Record t := {
  chain_id : Z;
  homestead_block : option Z;
  dao_fork_block : option Z;
  dao_fork_support : bool;
  eip150_block : option Z;
  eip155_block : option Z;
  eip158_block : option Z;
  byzantium_block : option Z;
  constantinople_block : option Z;
  petersburg_block : option Z;
  istanbul_block : option Z;
  muir_glacier_block : option Z;
  berlin_block : option Z;
  london_block : option Z;
  arrow_glacier_block : option Z;
  gray_glacier_block : option Z;
  merge_netsplit_block : option Z;
  shanghai_time : option Z;
  cancun_time : option Z;
  prague_time : option Z;
  verkle_time : option Z;
  terminal_total_difficulty : option Z;
  terminal_total_difficulty_passed : bool;
}.

(** [opt.is_some_and(|x| x <= at)]. *)
Definition activated (activation : option Z) (now : Z) : bool :=
  match activation with Some x => x <=? now | None => false end.

Definition is_shanghai_activated (self : t) (block_timestamp : Z) : bool :=
  activated (shanghai_time self) block_timestamp.
Definition is_cancun_activated (self : t) (block_timestamp : Z) : bool :=
  activated (cancun_time self) block_timestamp.
Definition is_istanbul_activated (self : t) (block_number : Z) : bool :=
  activated (istanbul_block self) block_number.
Definition is_eip155_activated (self : t) (block_number : Z) : bool :=
  activated (eip155_block self) block_number.

Definition gather_forks (self : t) : list (option Z) * list (option Z) :=
  let block_number_based_forks :=
    [ homestead_block self;
      (if dao_fork_support self then dao_fork_block self else None);
      eip150_block self; eip155_block self; eip158_block self; byzantium_block self;
      constantinople_block self; petersburg_block self; istanbul_block self;
      muir_glacier_block self; berlin_block self; london_block self;
      arrow_glacier_block self; gray_glacier_block self; merge_netsplit_block self ] in
  let timestamp_based_forks :=
    [ shanghai_time self; cancun_time self; prague_time self; verkle_time self ] in
  (block_number_based_forks, timestamp_based_forks).
End ChainConfig.

Module Fork.
Inductive t := Paris | Shanghai | Cancun.

Definition to_nat (f : t) : nat := match f with Paris => 0 | Shanghai => 1 | Cancun => 2 end.
End Fork.

Definition get_fork (self : ChainConfig.t) (block_timestamp : Z) : Fork.t :=
  if ChainConfig.is_cancun_activated self block_timestamp then Fork.Cancun
  else if ChainConfig.is_shanghai_activated self block_timestamp then Fork.Shanghai
  else Fork.Paris.

(** ** The genesis block (genesis.rs) *)

(** The storage and the accounts are [HashMap]s, here the pairs in the order
    they are iterated. *)
Module GenesisAccount.
Record t := {
  code : list Z;
  storage : list (H256 * u256);
  balance : Z;
  nonce : Z;
}.
End GenesisAccount.

Module Genesis.
Record t := {
  config : ChainConfig.t;
  alloc : list (Address * GenesisAccount.t);
  coinbase : Address;
  difficulty : Z;
  extra_data : list Z;
  gas_limit : Z;
  nonce : Z;
  mix_hash : H256;
  timestamp : Z;
  base_fee_per_gas : option Z;
  blob_gas_used : option Z;
  excess_blob_gas : option Z;
}.
End Genesis.

Section genesis.
Context `{Crypto}.

Definition account_state_of (value : GenesisAccount.t) : TrieResult AccountState.t :=
  storage_root ← compute_storage_root (GenesisAccount.storage value);
  Ok {| AccountState.nonce := GenesisAccount.nonce value;
        AccountState.balance := GenesisAccount.balance value;
        AccountState.storage_root := storage_root;
        AccountState.code_hash := code_hash (GenesisAccount.code value) |}.

(** The iterator of [compute_state_root]. *)
Fixpoint state_pairs (alloc : list (Address * GenesisAccount.t)) :
    TrieResult (list (list Z * list Z)) :=
  match alloc with
  | [] => Ok []
  | (addr, account) :: alloc =>
      state ← account_state_of account;
      pairs ← state_pairs alloc;
      Ok ((keccak addr, encode state) :: pairs)
  end.

Definition compute_state_root (self : Genesis.t) : TrieResult H256 :=
  pairs ← state_pairs (Genesis.alloc self);
  (compute_hash_from_unsorted_iter pairs : TrieResult H256).

Definition get_block_header (self : Genesis.t) : TrieResult BlockHeader.t :=
  let cancun :=
    match ChainConfig.cancun_time (Genesis.config self) with
    | Some cancun_time => cancun_time <=? Genesis.timestamp self
    | None => false
    end in
  let blob_gas_used :=
    if cancun then Some (default 0 (Genesis.blob_gas_used self)) else None in
  let excess_blob_gas :=
    if cancun then Some (default 0 (Genesis.excess_blob_gas self)) else None in
  state_root ← compute_state_root self;
  transactions_root ← compute_transactions_root [];
  receipts_root ← compute_receipts_root [];
  withdrawals_root ← compute_withdrawals_root [];
  Ok {|
    BlockHeader.parent_hash := replicate 32 0;
    BlockHeader.ommers_hash := DEFAULT_OMMERS_HASH;
    BlockHeader.coinbase := Genesis.coinbase self;
    BlockHeader.state_root := state_root;
    BlockHeader.transactions_root := transactions_root;
    BlockHeader.receipts_root := receipts_root;
    BlockHeader.logs_bloom := bloom_zero;
    BlockHeader.difficulty := Genesis.difficulty self;
    BlockHeader.number := 0;
    BlockHeader.gas_limit := Genesis.gas_limit self;
    BlockHeader.gas_used := 0;
    BlockHeader.timestamp := Genesis.timestamp self;
    BlockHeader.extra_data := Genesis.extra_data self;
    BlockHeader.prev_randao := Genesis.mix_hash self;
    BlockHeader.nonce := Genesis.nonce self;
    BlockHeader.base_fee_per_gas :=
      match Genesis.base_fee_per_gas self with
      | Some fee => Some fee
      | None => Some INITIAL_BASE_FEE
      end;
    BlockHeader.withdrawals_root :=
      if ChainConfig.is_shanghai_activated (Genesis.config self) (Genesis.timestamp self)
      then Some withdrawals_root else None;
    BlockHeader.blob_gas_used := blob_gas_used;
    BlockHeader.excess_blob_gas := excess_blob_gas;
    BlockHeader.parent_beacon_block_root :=
      if ChainConfig.is_cancun_activated (Genesis.config self) (Genesis.timestamp self)
      then Some (replicate 32 0) else None;
  |}.

Definition get_block_body (self : Genesis.t) : BlockBody.t :=
  {| BlockBody.transactions := []; BlockBody.ommers := []; BlockBody.withdrawals := Some [] |}.

Definition get_block (self : Genesis.t) : TrieResult Block.t :=
  header ← get_block_header self;
  Ok (Block.new header (get_block_body self)).
End genesis.

(** ** The fork identifier (fork_id.rs) *)

(** [crc32fast::Hasher]. *)
Class Crc32 := {
  Hasher : Type;
  hasher_new : Hasher;
  hasher_update : Hasher → list Z → Hasher;
  hasher_finalize : Hasher → Z;
}.

Module ForkId.
Record t := { fork_hash : ByteArray 4; fork_next : BlockNumber }.

Definition encode (x : t) : list Z :=
  Encoder.finish [] (Encoder.new ⊕ fork_hash x ⊕ fork_next x).

Definition decode_unfinished (rlp : list Z) : Decoded (t * list Z) :=
  decoder ← Decoder.new rlp;
  '(fork_hash, decoder) ← Decoder.decode_field (T := ByteArray 4) decoder "forkHash";
  '(fork_next, decoder) ← Decoder.decode_field (T := u64) decoder "forkNext";
  remaining ← Decoder.finish decoder;
  Ok ({| fork_hash := fork_hash; fork_next := fork_next |}, remaining).

Section checksum.
Context `{Crc32}.

(** The loop of [update_checksum] over the forks that are set. *)
Fixpoint update_checksum_loop (forks : list Z) (hasher : Hasher) (head last_included : Z) :
    Z * Hasher :=
  match forks with
  | [] => (0, hasher)
  | activation :: forks =>
      if activation <=? head then
        if negb (activation =? last_included) then
          update_checksum_loop forks (hasher_update hasher (be_encode 8 activation)) head activation
        else update_checksum_loop forks hasher head last_included
      else (activation, hasher)
  end.

Definition update_checksum (forks : list (option Z)) (hasher : Hasher) (head : Z) : Z * Hasher :=
  update_checksum_loop (omap id forks) hasher head 0.

Definition new (chain_config : ChainConfig.t) (genesis_hash : list Z)
    (head_timestamp head_block_number : Z) : t :=
  let '(block_number_based_forks, timestamp_based_forks) :=
    ChainConfig.gather_forks chain_config in
  let hasher := hasher_update hasher_new genesis_hash in
  let '(fork_next, hasher) := update_checksum block_number_based_forks hasher head_block_number in
  if 0 <? fork_next then
    {| fork_hash := be_encode 4 (hasher_finalize hasher); fork_next := fork_next |}
  else
    let '(fork_next, hasher) := update_checksum timestamp_based_forks hasher head_timestamp in
    {| fork_hash := be_encode 4 (hasher_finalize hasher); fork_next := fork_next |}.
End checksum.
End ForkId.

#[export] Instance ForkId_RLPEncode : RLPEncode ForkId.t := mk_encode ForkId.encode.
#[export] Instance ForkId_RLPDecode : RLPDecode ForkId.t := ForkId.decode_unfinished.

(** ** Blobs (blobs_bundle.rs) *)

Notation Bytes48 := (ByteArray 48).
Notation Blob := (ByteArray BYTES_PER_BLOB).

Inductive BlobsBundleError :=
| BlobDataInvalidBytesLength
| BlobBundleEmptyError
| BlobsBundleWrongLen
| BlobVersionedHashesError
| BlobToCommitmentAndProofError.

Notation BlobResult := (Outcome BlobsBundleError).

(** The functions of c-kzg, under the mainnet settings. *)
Class Kzg := {
  blob_to_kzg_commitment : Blob → option Bytes48;
  compute_blob_kzg_proof : Blob → Bytes48 → option Bytes48;
  kzg_verify_blob_proof : Blob → Bytes48 → Bytes48 → option bool;
}.

(** [bytes.chunks(31)], each behind a zero byte. *)
Fixpoint field_elements (fuel : nat) (bs : list Z) : list Z :=
  match fuel, bs with
  | _, [] => []
  | O, _ => []
  | S fuel, _ => 0 :: take 31 bs ++ field_elements fuel (drop 31 bs)
  end.

Definition blob_from_bytes (bs : list Z) : BlobResult (list Z) :=
  if Z.of_nat BYTES_PER_BLOB * 31 / 32 <? len bs then Err BlobDataInvalidBytesLength
  else
    let elements := field_elements (length bs) bs in
    let stop := div_ceil (len bs * 32) 31 in
    if (Z.of_nat BYTES_PER_BLOB <? stop) || negb (len elements =? stop) then Panic
    else Ok (elements ++ replicate (BYTES_PER_BLOB - length elements) 0).

Module BlobsBundle.
Record t := {
  blobs : list Blob;
  commitments : list Bytes48;
  proofs : list Bytes48;
}.

Definition empty : t := {| blobs := []; commitments := []; proofs := [] |}.

(** [AddAssign]. *)
Definition add_assign (self rhs : t) : t :=
  {| blobs := blobs self ++ blobs rhs;
     commitments := commitments self ++ commitments rhs;
     proofs := proofs self ++ proofs rhs |}.

Definition encode (x : t) : list Z :=
  Encoder.finish [] (Encoder.new ⊕ blobs x ⊕ commitments x ⊕ proofs x).

Definition decode_unfinished (rlp : list Z) : Decoded (t * list Z) :=
  decoder ← Decoder.new rlp;
  '(blobs, decoder) ← Decoder.decode_field (T := list Blob) decoder "blobs";
  '(commitments, decoder) ← Decoder.decode_field (T := list Bytes48) decoder "commitments";
  '(proofs, decoder) ← Decoder.decode_field (T := list Bytes48) decoder "proofs";
  rest ← Decoder.finish decoder;
  Ok ({| blobs := blobs; commitments := commitments; proofs := proofs |}, rest).

Section kzg.
Context `{Crypto} `{Kzg}.

Definition kzg_commitment_to_versioned_hash (data : Bytes48) : H256 :=
  VERSIONED_HASH_VERSION_KZG :: drop 1 (sha256_digest data).

Definition blob_to_kzg_commitment_and_proof (blob : Blob) : BlobResult (Bytes48 * Bytes48) :=
  commitment ← ok_or (blob_to_kzg_commitment blob) BlobToCommitmentAndProofError;
  proof ← ok_or (compute_blob_kzg_proof blob commitment) BlobToCommitmentAndProofError;
  Ok (commitment, proof).

Definition verify_blob_kzg_proof (blob : Blob) (commitment proof : Bytes48) : BlobResult bool :=
  ok_or (kzg_verify_blob_proof blob commitment proof) BlobToCommitmentAndProofError.

Fixpoint commit_blobs (bs : list Blob) : BlobResult (list Bytes48 * list Bytes48) :=
  match bs with
  | [] => Ok ([], [])
  | blob :: bs =>
      '(commitment, proof) ← blob_to_kzg_commitment_and_proof blob;
      '(commitments, proofs) ← commit_blobs bs;
      Ok (commitment :: commitments, proof :: proofs)
  end.

Definition create_from_blobs (bs : list Blob) : BlobResult t :=
  '(commitments, proofs) ← commit_blobs bs;
  Ok {| blobs := bs; commitments := commitments; proofs := proofs |}.

Definition generate_versioned_hashes (self : t) : list H256 :=
  kzg_commitment_to_versioned_hash <$> commitments self.

(** The loops of [validate]: the hashes match, and every proof verifies. *)
Fixpoint check_hashes (cs : list (Bytes48 * H256)) : BlobResult unit :=
  match cs with
  | [] => Ok tt
  | (commitment, blob_versioned_hash) :: cs =>
      if bytes_eqb blob_versioned_hash (kzg_commitment_to_versioned_hash commitment)
      then check_hashes cs
      else Err BlobVersionedHashesError
  end.

Fixpoint check_proofs (bs : list (Blob * Bytes48 * Bytes48)) : BlobResult unit :=
  match bs with
  | [] => Ok tt
  | (blob, commitment, proof) :: bs =>
      ok ← verify_blob_kzg_proof blob commitment proof;
      if ok : bool then check_proofs bs else Err BlobToCommitmentAndProofError
  end.

Definition validate (self : t) (tx : EIP4844Transaction.t) : BlobResult unit :=
  let blob_count := length (blobs self) in
  if (blob_count =? 0)%nat then Err BlobBundleEmptyError
  else if negb (blob_count =? length (commitments self))%nat
       || negb (blob_count =? length (proofs self))%nat
       || negb (blob_count =? length (EIP4844Transaction.blob_versioned_hashes tx))%nat
  then Err BlobsBundleWrongLen
  else
    _ ← check_hashes (zip (commitments self) (EIP4844Transaction.blob_versioned_hashes tx));
    check_proofs (zip (zip (blobs self) (commitments self)) (proofs self)).
End kzg.
End BlobsBundle.

#[export] Instance BlobsBundle_RLPEncode : RLPEncode BlobsBundle.t := mk_encode BlobsBundle.encode.
#[export] Instance BlobsBundle_RLPDecode : RLPDecode BlobsBundle.t :=
  BlobsBundle.decode_unfinished.
