(* ===== verification/ChainProofs.v ===== *)
(** * Correctness of the chain rules

    The base fee is that of EIP-1559 and moves by at most an eighth, the header
    checks are exactly the rules of a valid child, and the two copies of
    [fake_exponential] in the client agree. *)

From stdpp Require Import base option list numbers strings pretty gmap.
From S2P Require Import Prelude Rlp RlpProofs RlpStruct LevmState LevmGas LevmHost LevmDemo LevmFees.
From S2P Require Import TrieNode Trie Tx TxProofs BlockTypes BlockCodecs Chain.

Local Open Scope Z_scope.

(** ** Operators that do not overflow *)

Section operators.
Context `{BuildProfile} {E : Type}.

Lemma in_width_fits w x : in_u w x → in_width (E := E) w x = Ok x.
Proof. intros Hx. unfold in_width, fits, in_u in *. by decide_tests. Qed.

Lemma in_width_overflow w x :
  overflow_checks = true → ¬ in_u w x → in_width (E := E) w x = Panic.
Proof.
  intros Ho Hx. unfold in_width, fits, in_u in *. rewrite Ho.
  destruct (0 <=? x) eqn:?, (x <? 2 ^ w) eqn:?; cbn [andb]; propify; try done. lia.
Qed.

Lemma in_width_Ok {w x y} :
  overflow_checks = true → in_width (E := E) w x = Ok y → in_u w x ∧ y = x.
Proof.
  intros Ho. unfold in_width. destruct (fits w x) eqn:Ef; [|by rewrite Ho].
  intros [= <-]. unfold fits in Ef. unfold in_u. by propify.
Qed.
End operators.

(** ** The base fee *)

(** EIP-1559 on unbounded integers. *)
Definition eip1559_base_fee (gas_limit gas_used base_fee : Z) : Z :=
  let target := gas_limit / 2 in
  if gas_used =? target then base_fee
  else if target <? gas_used then
    base_fee + Z.max (base_fee * (gas_used - target) / target / 8) 1
  else base_fee - base_fee * (target - gas_used) / target / 8.

(** The gas limit of a child: within a 1024th of its parent's, and at least 5000. *)
Definition gas_limit_ok (gas_limit parent_gas_limit : Z) : Prop :=
  parent_gas_limit - parent_gas_limit / 1024 < gas_limit < parent_gas_limit + parent_gas_limit / 1024
  ∧ 5000 ≤ gas_limit.

(** The sums and products that the rules form of a parent fit in 64 bits. *)
Definition fees_fit (gas_limit gas_used base_fee : Z) : Prop :=
  in_u 64 gas_limit ∧ in_u 64 gas_used ∧ in_u 64 base_fee ∧
  gas_limit + gas_limit / 1024 < 2 ^ 64 ∧
  base_fee * Z.abs (gas_used - gas_limit / 2) < 2 ^ 64 ∧
  eip1559_base_fee gas_limit gas_used base_fee < 2 ^ 64.

Section fees.
Context `{BuildProfile} {E : Type}.

Lemma check_gas_limit_spec gas_limit parent :
  in_u 64 parent → parent + parent / 1024 < 2 ^ 64 →
  check_gas_limit (E := E) gas_limit parent = Ok (bool_decide (gas_limit_ok gas_limit parent)).
Proof.
  intros Hp Hs. unfold in_u in Hp. assert (0 ≤ parent / 1024 ≤ parent).
  { split; [apply Z.div_pos; lia|]. apply Z.div_le_upper_bound; lia. }
  unfold check_gas_limit, u_add, u_sub, GAS_LIMIT_ADJUSTMENT_FACTOR, GAS_LIMIT_MINIMUM.
  rewrite !in_width_fits by (unfold in_u; lia). cbn [mbind outcome_bind].
  unfold gas_limit_ok. repeat case_match; propify; f_equal; symmetry;
    (apply bool_decide_eq_true; lia) || (apply bool_decide_eq_false; lia) || idtac.
  destruct (5000 <=? gas_limit) eqn:?; propify;
    [apply bool_decide_eq_true|apply bool_decide_eq_false]; lia.
Qed.

(** A valid gas limit has a positive target, so no division is by zero. *)
Lemma gas_limit_target gas_limit parent :
  gas_limit_ok gas_limit parent → 0 ≤ parent → 0 < parent / 2.
Proof.
  intros [Hl _] Hp. assert (1 ≤ parent / 1024) by lia.
  assert (1024 ≤ parent) by (pose proof (Z.mul_div_le parent 1024); lia).
  apply Z.div_str_pos. lia.
Qed.

Lemma fee_step base delta target :
  0 ≤ base → 0 ≤ delta ≤ target → 0 < target → 0 ≤ base * delta / target / 8 ≤ base / 8.
Proof.
  intros Hb Hd Ht. assert (0 ≤ base * delta / target ≤ base).
  { split; [apply Z.div_pos; nia|]. apply Z.div_le_upper_bound; nia. }
  split; [apply Z.div_pos; lia|]. apply Z.div_le_mono; lia.
Qed.

Lemma base_fee_spec gas_limit parent_limit used base :
  fees_fit parent_limit used base →
  calculate_base_fee_per_gas (E := E) gas_limit parent_limit used base =
    Ok (if bool_decide (gas_limit_ok gas_limit parent_limit)
        then Some (eip1559_base_fee parent_limit used base) else None).
Proof.
  intros (Hl & Hu & Hb & Hs & Hm & He). unfold in_u in *. unfold calculate_base_fee_per_gas.
  rewrite check_gas_limit_spec by done. cbn [mbind outcome_bind].
  case_bool_decide as Hok; cbn [negb]; [|done].
  apply gas_limit_target in Hok; [|lia]. unfold ELASTICITY_MULTIPLIER, BASE_FEE_MAX_CHANGE_DENOMINATOR.
  set (target := parent_limit / 2) in *. unfold eip1559_base_fee in *. fold target in He |- *.
  assert (target < 2 ^ 64) by (apply Z.div_lt_upper_bound; lia).
  unfold u_sub, u_mul, u_add, u_div.
  destruct (Z.compare_spec used target) as [->|Hlt|Hgt].
  - by rewrite Z.eqb_refl.
  - replace (Z.abs (used - target)) with (target - used) in Hm by lia.
    destruct (fee_step base (target - used) target) as [? ?]; [lia..|].
    assert (base / 8 ≤ base) by (apply Z.div_le_upper_bound; lia).
    rewrite (in_width_fits _ (target - used)) by (unfold in_u; lia). cbn [mbind outcome_bind].
    rewrite in_width_fits by (unfold in_u; nia). cbn [mbind outcome_bind]. decide_tests.
    cbn [mbind outcome_bind]. rewrite in_width_fits by (unfold in_u; lia). done.
  - replace (Z.abs (used - target)) with (used - target) in Hm by lia.
    assert (0 ≤ base * (used - target) / target / 8) by (repeat apply Z.div_pos; nia).
    rewrite (in_width_fits _ (used - target)) by (unfold in_u; lia). cbn [mbind outcome_bind].
    rewrite in_width_fits by (unfold in_u; nia). cbn [mbind outcome_bind]. decide_tests.
    cbn [mbind outcome_bind]. revert He. decide_tests. intros He.
    rewrite in_width_fits by (unfold in_u; lia). done.
Qed.

Lemma base_fee_overflow gas_limit parent_limit used base :
  in_u 64 parent_limit → in_u 64 used → in_u 64 base →
  parent_limit + parent_limit / 1024 < 2 ^ 64 → gas_limit_ok gas_limit parent_limit →
  overflow_checks = true → 2 ^ 64 ≤ base * Z.abs (used - parent_limit / 2) →
  calculate_base_fee_per_gas (E := E) gas_limit parent_limit used base = Panic.
Proof.
  unfold in_u. intros Hl Hu Hb Hs Hok Ho Hm. unfold calculate_base_fee_per_gas.
  rewrite check_gas_limit_spec by done. cbn [mbind outcome_bind].
  rewrite bool_decide_true by done. cbn [negb]. unfold ELASTICITY_MULTIPLIER.
  set (target := parent_limit / 2) in *.
  assert (0 ≤ target < 2 ^ 64)
    by (split; [apply Z.div_pos; lia|apply Z.div_lt_upper_bound; lia]).
  unfold u_sub, u_mul. destruct (Z.compare_spec used target) as [->|Hlt|Hgt].
  - rewrite Z.sub_diag in Hm. lia.
  - rewrite in_width_fits by (unfold in_u; lia). cbn [mbind outcome_bind].
    rewrite in_width_overflow; [done..|]. unfold in_u.
    replace (Z.abs (used - target)) with (target - used) in Hm by lia. lia.
  - rewrite in_width_fits by (unfold in_u; lia). cbn [mbind outcome_bind].
    rewrite in_width_overflow; [done..|]. unfold in_u.
    replace (Z.abs (used - target)) with (used - target) in Hm by lia. lia.
Qed.
End fees.

Lemma base_fee_bounds limit used base :
  0 ≤ base → 0 ≤ used → 0 < limit / 2 → used ≤ 2 * (limit / 2) →
  base - base / 8 ≤ eip1559_base_fee limit used base ≤ base + Z.max (base / 8) 1.
Proof.
  intros Hb Hu Ht Hused. unfold eip1559_base_fee. set (target := limit / 2) in *.
  assert (0 ≤ base / 8) by (apply Z.div_pos; lia).
  destruct (used =? target) eqn:?; propify; [lia|].
  destruct (target <? used) eqn:?; propify.
  - destruct (fee_step base (used - target) target); lia.
  - destruct (fee_step base (target - used) target); lia.
Qed.

(** The base fee is that of EIP-1559.  When the sums and products fit in 64
    bits, [calculate_base_fee_per_gas] rejects exactly the gas limits that move
    by a 1024th or more or fall below 5000, and returns the fee of the EIP
    otherwise, which is at most an eighth (or one) above the parent's and at
    most an eighth below it.  A product that does not fit panics in a build with
    overflow checks. *)
Theorem base_fee_correct `{BuildProfile} gas_limit parent_limit used base :
  in_u 64 parent_limit → in_u 64 used → in_u 64 base →
  parent_limit + parent_limit / 1024 < 2 ^ 64 → used ≤ 2 * (parent_limit / 2) →
  let result := calculate_base_fee_per_gas (E := unit) gas_limit parent_limit used base in
  let fee := eip1559_base_fee parent_limit used base in
  (¬ gas_limit_ok gas_limit parent_limit → result = Ok None) ∧
  (gas_limit_ok gas_limit parent_limit →
   base - base / 8 ≤ fee ≤ base + Z.max (base / 8) 1 ∧
   (base * Z.abs (used - parent_limit / 2) < 2 ^ 64 → fee < 2 ^ 64 → result = Ok (Some fee)) ∧
   (overflow_checks = true → 2 ^ 64 ≤ base * Z.abs (used - parent_limit / 2) → result = Panic)).
Proof.
  intros Hl Hu Hb Hs Hused result fee. split.
  { intros Hno. unfold result, calculate_base_fee_per_gas. rewrite check_gas_limit_spec by done.
    by rewrite bool_decide_false. }
  intros Hok. split; [|split].
  - apply base_fee_bounds; [apply Hb|apply Hu| |done].
    eapply gas_limit_target; [done|apply Hl].
  - intros Hm Hf. unfold result. rewrite base_fee_spec by done. by rewrite bool_decide_true.
  - intros Ho Hm. by apply base_fee_overflow.
Qed.

(** A build with overflow checks, for the examples. *)
#[local] Instance debug_build : BuildProfile := true.

Example base_fee_correct_witness :
  calculate_base_fee_per_gas (E := unit) 30000000 30000000 30000000 1000000000
    = Ok (Some 1125000000) ∧
  calculate_base_fee_per_gas (E := unit) 30000000 30000000 30000000 (2 * 10 ^ 12)
    = Panic.
Proof.
  split.
  - destruct (base_fee_correct 30000000 30000000 30000000 1000000000) as [_ Hw];
      [done..|]. destruct Hw as (_ & Hw & _); [done|by apply Hw].
  - destruct (base_fee_correct 30000000 30000000 30000000 (2 * 10 ^ 12)) as [_ Hw];
      [done..|]. destruct Hw as (_ & _ & Hw); [done|by apply Hw].
Defined.

(** ** Header validation *)

(** The rules that make a header a valid child of another (EIP-1559, EIP-3675). *)
Record valid_child `{Crypto} (header parent : BlockHeader.t) : Prop := {
  child_gas_used : BlockHeader.gas_used header ≤ BlockHeader.gas_limit header;
  child_gas_limit : gas_limit_ok (BlockHeader.gas_limit header) (BlockHeader.gas_limit parent);
  child_base_fee :
    default INITIAL_BASE_FEE (BlockHeader.base_fee_per_gas header) =
      eip1559_base_fee (BlockHeader.gas_limit parent) (BlockHeader.gas_used parent)
        (default INITIAL_BASE_FEE (BlockHeader.base_fee_per_gas parent));
  child_timestamp : BlockHeader.timestamp parent < BlockHeader.timestamp header;
  child_number : BlockHeader.number header = BlockHeader.number parent + 1;
  child_extra_data : len (BlockHeader.extra_data header) ≤ 32;
  child_difficulty : BlockHeader.difficulty header = 0;
  child_nonce : BlockHeader.nonce header = 0;
  child_ommers : BlockHeader.ommers_hash header = DEFAULT_OMMERS_HASH;
  child_parent : BlockHeader.parent_hash header = compute_block_hash parent;
}.

(** The numbers of a parent that the rules compute with fit in 64 bits. *)
Definition parent_fits (parent : BlockHeader.t) : Prop :=
  fees_fit (BlockHeader.gas_limit parent) (BlockHeader.gas_used parent)
    (default INITIAL_BASE_FEE (BlockHeader.base_fee_per_gas parent)) ∧
  in_u 64 (BlockHeader.number parent + 1).

Lemma reject_if_true {E A} (e : E) (k : unit → Outcome E A) :
  (reject_if true e ≫= k) = Err e.
Proof. done. Qed.

Lemma reject_if_false {E A} (e : E) (k : unit → Outcome E A) :
  (reject_if false e ≫= k) = k tt.
Proof. done. Qed.

Lemma bytes_eqb_spec a b : bytes_eqb a b = true ↔ a = b.
Proof. apply bool_decide_eq_true. Qed.

(** A header that breaks a rule is no valid child. *)
Ltac broken_rule :=
  right; split; [by eexists|];
  intros []; propify;
  repeat match goal with
  | H : bytes_eqb _ _ = false |- _ => apply bool_decide_eq_false in H
  end; (lia || congruence).

(** Follow a chain of early returns: each either stops, for a broken rule, or
    leaves its condition. *)
Ltac early_returns :=
  repeat match goal with
  | |- context [reject_if ?c ?e ≫= ?k] =>
      let H := fresh "Hc" in
      destruct c eqn:H; [rewrite reject_if_true; broken_rule|rewrite reject_if_false]
  end.

Lemma validate_block_header_cases `{Crypto} `{BuildProfile} header parent :
  parent_fits parent →
  (validate_block_header header parent = Ok tt ∧ valid_child header parent) ∨
  (∃ e, validate_block_header header parent = Err e) ∧ ¬ valid_child header parent.
Proof.
  intros [Hf Hn]. unfold validate_block_header. early_returns.
  rewrite base_fee_spec by done. cbn [mbind outcome_bind].
  case_bool_decide as Hok; cbn [ok_or mbind outcome_bind]; [|right; split; [by eexists|by intros []]].
  early_returns. unfold u_add. rewrite in_width_fits by done. cbn [mbind outcome_bind].
  early_returns. unfold reject_if.
  destruct (bytes_eqb (BlockHeader.parent_hash header) _) eqn:Hp; [|broken_rule].
  left. split; [done|]. apply bytes_eqb_spec in Hp. propify.
  match goal with H : bytes_eqb _ _ = true |- _ => apply bytes_eqb_spec in H end.
  split; (done || lia).
Qed.

(** The numbers of a header are [u64]s. *)
Definition header_typed (h : BlockHeader.t) : Prop :=
  in_u 64 (BlockHeader.gas_limit h) ∧ in_u 64 (BlockHeader.gas_used h) ∧
  in_u 64 (default INITIAL_BASE_FEE (BlockHeader.base_fee_per_gas h)) ∧
  in_u 64 (BlockHeader.number h).

(** With overflow checks, a base fee that is returned was computed without overflow. *)
Lemma base_fee_checked `{BuildProfile} {E} gas_limit parent_limit used base fee :
  overflow_checks = true → in_u 64 parent_limit → in_u 64 used → in_u 64 base →
  calculate_base_fee_per_gas (E := E) gas_limit parent_limit used base = Ok (Some fee) →
  fees_fit parent_limit used base.
Proof.
  intros Ho Hl Hu Hb E0. unfold calculate_base_fee_per_gas in E0.
  apply bind_Ok in E0 as (valid & Ev & E0). destruct valid; cbn [negb] in E0; [|done].
  unfold check_gas_limit in Ev. apply bind_Ok in Ev as (upper & [Hs ->]%(in_width_Ok Ho) & Ev).
  unfold GAS_LIMIT_ADJUSTMENT_FACTOR, in_u in Hs. unfold ELASTICITY_MULTIPLIER in E0.
  set (target := parent_limit / 2) in *.
  assert (fees_fit parent_limit used base ↔
    base * Z.abs (used - target) < 2 ^ 64 ∧ eip1559_base_fee parent_limit used base < 2 ^ 64) as ->.
  { unfold fees_fit. fold target. intuition lia. }
  unfold eip1559_base_fee. fold target.
  destruct (Z.compare_spec used target) as [->|Hlt|Hgt].
  - rewrite Z.eqb_refl, Z.sub_diag, Z.mul_0_r. unfold in_u in Hb. lia.
  - apply bind_Ok in E0 as (delta & [Hd ->]%(in_width_Ok Ho) & E0).
    apply bind_Ok in E0 as (product & [Hm ->]%(in_width_Ok Ho) & E0).
    apply bind_Ok in E0 as (step & Es & E0).
    apply bind_Ok in E0 as (new & [Hn ->]%(in_width_Ok Ho) & _).
    unfold u_div in Es. destruct (_ =? 0); [done|]. injection Es as <-.
    replace (Z.abs (used - target)) with (target - used) by lia.
    decide_tests. unfold BASE_FEE_MAX_CHANGE_DENOMINATOR, in_u in *. lia.
  - apply bind_Ok in E0 as (delta & [Hd ->]%(in_width_Ok Ho) & E0).
    apply bind_Ok in E0 as (product & [Hm ->]%(in_width_Ok Ho) & E0).
    apply bind_Ok in E0 as (step & Es & E0).
    apply bind_Ok in E0 as (new & [Hn ->]%(in_width_Ok Ho) & _).
    unfold u_div in Es. destruct (_ =? 0); [done|]. injection Es as <-.
    replace (Z.abs (used - target)) with (used - target) by lia.
    decide_tests. unfold BASE_FEE_MAX_CHANGE_DENOMINATOR, in_u in *. lia.
Qed.

(** So an accepted header has a parent whose numbers fit. *)
Lemma accepted_fits `{Crypto} `{BuildProfile} header parent :
  overflow_checks = true → header_typed parent →
  validate_block_header header parent = Ok tt → parent_fits parent.
Proof.
  intros Ho (Hl & Hu & Hb & _) E. unfold validate_block_header in E.
  apply bind_Ok in E as (_ & _ & E). apply bind_Ok in E as (base_fee & Ef & E).
  apply bind_Ok in E as (fee & ->%ok_or_Ok & E). apply bind_Ok in E as (_ & _ & E).
  apply bind_Ok in E as (_ & _ & E).
  apply bind_Ok in E as (next & [Hn _]%(in_width_Ok Ho) & _).
  split; [by eapply base_fee_checked|done].
Qed.

(** C25 Validation of headers.  When the sums and products that the rules form of the
    parent fit in 64 bits, [validate_block_header] accepts exactly the valid children
    of the parent (gas used, gas limit, base fee, timestamp, number, extra data,
    difficulty, nonce, ommers hash and parent hash follow the rules), and rejects any
    other header with an error, in both builds.  When they do not fit, a build with
    overflow checks accepts nothing: whatever the parent, it accepts only valid
    children.  A build without the checks then compares with a wrapped base fee, of
    which nothing is claimed. *)
Theorem header_validation_exact `{Crypto} `{BuildProfile} header parent :
  header_typed parent →
  (parent_fits parent →
   (validate_block_header header parent = Ok tt ↔ valid_child header parent) ∧
   (¬ valid_child header parent → ∃ e, validate_block_header header parent = Err e)) ∧
  (overflow_checks = true → ¬ parent_fits parent → validate_block_header header parent ≠ Ok tt) ∧
  (overflow_checks = true → validate_block_header header parent = Ok tt →
   valid_child header parent).
Proof.
  intros Ht. split_and!.
  - intros Hf.
    destruct (validate_block_header_cases header parent Hf) as [[-> Hv]|[[e ->] Hv]]; naive_solver.
  - intros Ho Hn E. by apply Hn, (accepted_fits header).
  - intros Ho E. pose proof (accepted_fits header parent Ho Ht E) as Hf.
    by destruct (validate_block_header_cases header parent Hf) as [[_ Hv]|[[e Ee] _]]; [|congruence].
Qed.

(** An empty block of a chain. *)
Definition demo_link (parent_hash : list Z) (number timestamp : Z) : BlockHeader.t := {|
  BlockHeader.parent_hash := parent_hash; BlockHeader.ommers_hash := DEFAULT_OMMERS_HASH;
  BlockHeader.coinbase := replicate 20 2; BlockHeader.state_root := replicate 32 3;
  BlockHeader.transactions_root := replicate 32 4; BlockHeader.receipts_root := replicate 32 4;
  BlockHeader.logs_bloom := replicate 256 0; BlockHeader.difficulty := 0;
  BlockHeader.number := number; BlockHeader.gas_limit := 30000000;
  BlockHeader.gas_used := 21000; BlockHeader.timestamp := timestamp;
  BlockHeader.extra_data := [0xab]; BlockHeader.prev_randao := replicate 32 5;
  BlockHeader.nonce := 0; BlockHeader.base_fee_per_gas := Some 7;
  BlockHeader.withdrawals_root := None; BlockHeader.blob_gas_used := None;
  BlockHeader.excess_blob_gas := None; BlockHeader.parent_beacon_block_root := None;
|}.

Lemma demo_link_child parent number timestamp timestamp' :
  timestamp < timestamp' →
  valid_child
    (demo_link (compute_block_hash (demo_link parent number timestamp)) (number + 1) timestamp')
    (demo_link parent number timestamp).
Proof.
  intros Ht. generalize (eq_refl (compute_block_hash (demo_link parent number timestamp))).
  generalize (compute_block_hash (demo_link parent number timestamp)) at 1 3 as hash.
  intros hash ->. split; try reflexivity; unfold demo_link; simpl; try done.
Qed.

Example header_validation_exact_witness :
  let parent := demo_link (replicate 32 7) 12 1000 in
  validate_block_header (demo_link (compute_block_hash parent) 13 1012) parent = Ok tt ∧
  ∃ e, validate_block_header (demo_link (replicate 32 8) 13 1000) parent = Err e.
Proof.
  set (parent := demo_link (replicate 32 7) 12 1000).
  assert (header_typed parent) as Hp by (vm_compute; intuition discriminate).
  assert (parent_fits parent) as Hf by (vm_compute; intuition discriminate).
  split.
  - destruct (header_validation_exact (demo_link (compute_block_hash parent) 13 1012) parent Hp)
      as [[[_ Hok] _]%(λ H, H Hf) _]. by apply Hok, (demo_link_child _ 12).
  - destruct (header_validation_exact (demo_link (replicate 32 8) 13 1000) parent Hp)
      as [[_ Herr]%(λ H, H Hf) _]. apply Herr. intros [_ _ _ Ht]. vm_compute in Ht. discriminate Ht.
Defined.

(** ** The blob base fee *)

Section blob_fee.
Context `{BuildProfile} {E : Type}.

(** A computation with checked operations and the same one with operators: the
    same value, or a panic where the first has an error. *)
Definition follows {A} (checked : Result A) (plain : Outcome E A) : Prop :=
  match checked with
  | Ok a => plain = Ok a
  | Err _ => overflow_checks = true → plain = Panic
  | Panic => False
  | NoFuel => plain = NoFuel
  end.

Lemma follows_bind {A B} (checked : Result A) plain (k : A → Result B) k' :
  follows checked plain → (∀ a, follows (k a) (k' a)) → follows (checked ≫= k) (plain ≫= k').
Proof.
  intros Hm Hk. destruct checked; cbn in *; [by rewrite Hm|intros ?; by rewrite Hm|done|by rewrite Hm].
Qed.

Lemma follows_width w x (e : InternalError.t) :
  follows (internal (if fits w x then Some x else None) e) (in_width w x).
Proof. unfold in_width. destruct (fits w x); [done|]. intros ?. by rewrite H0. Qed.

Lemma follows_div a b (e : InternalError.t) :
  follows (internal (checked_div a b) e) (u_div a b).
Proof. unfold checked_div, u_div. by destruct (b =? 0). Qed.

Lemma follows_loop fuel e numerator denominator : ∀ i output accum,
  follows (Gas.fake_exponential_loop 64 e fuel numerator denominator i output accum)
    (fake_exponential_loop fuel numerator denominator i output accum).
Proof.
  induction fuel as [|fuel IH]; intros i output accum; simpl; destruct (accum <=? 0); try done.
  repeat (apply follows_bind; [apply follows_width || apply follows_div|intros ?]). apply IH.
Qed.

Lemma fake_exponential_follows factor numerator denominator :
  follows (Gas.fake_exponential factor numerator denominator)
    (fake_exponential factor numerator denominator).
Proof.
  apply follows_bind; [apply follows_width|intros accum].
  apply follows_bind; [apply follows_loop|intros output]. apply follows_div.
Qed.
End blob_fee.

(** A checked computation repeated on wider integers. *)
Definition widens {A} (m m' : Result A) : Prop := ∀ a, m = Ok a → m' = Ok a.

Lemma widens_bind {A B} (m m' : Result A) (k k' : A → Result B) :
  widens m m' → (∀ a, widens (k a) (k' a)) → widens (m ≫= k) (m' ≫= k').
Proof. intros Hm Hk b (a & Ha & Hb)%bind_Ok. apply bind_Ok. exists a. split; [by apply Hm|by apply Hk]. Qed.

Lemma widens_checked w w' x e e' :
  w ≤ w' →
  widens (internal (if fits w x then Some x else None) e)
    (internal (if fits w' x then Some x else None) e').
Proof.
  intros Hw r. unfold fits. destruct (_ && _) eqn:Hx; [|done]. intros [= ->]. propify.
  assert (2 ^ w ≤ 2 ^ w') by (apply Z.pow_le_mono_r; lia). by decide_tests.
Qed.

Lemma widens_div a b e e' : widens (internal (checked_div a b) e) (internal (checked_div a b) e').
Proof. intros r. unfold checked_div. by destruct (b =? 0). Qed.

Lemma widens_loop w w' e e' numerator denominator fuel : ∀ fuel' i output accum,
  w ≤ w' → (fuel ≤ fuel')%nat →
  widens (Gas.fake_exponential_loop w e fuel numerator denominator i output accum)
    (Gas.fake_exponential_loop w' e' fuel' numerator denominator i output accum).
Proof.
  induction fuel as [|fuel IH]; intros [|fuel'] i output accum Hw Hf; simpl;
    destruct (accum <=? 0); try done; try lia; try (by intros ?).
  repeat (apply widens_bind; [by apply widens_checked || apply widens_div|intros ?]).
  apply IH; lia.
Qed.

Lemma fake_exponential_widens w w' e e' factor numerator denominator :
  w ≤ w' →
  widens (Gas.fake_exponential_w w e factor numerator denominator)
    (Gas.fake_exponential_w w' e' factor numerator denominator).
Proof.
  intros Hw. apply widens_bind; [by apply widens_checked|intros accum].
  apply widens_bind; [|intros output; apply widens_div].
  apply widens_loop; [done|]. unfold Gas.fake_exponential_fuel. lia.
Qed.

(** The client has three copies of EIP-4844's [fake_exponential]: that of
    block.rs with plain [u64] operators, that of LEVM's fee rules with checked
    [u64] operations and that of the BLOBBASEFEE opcode with checked [U256]
    operations.  Where the checked [u64] one gives a fee, all three give the
    same.  Where it reports an overflow, block.rs panics in a build with
    overflow checks, so there it always returns or panics; that already happens
    for an excess of 46488066 blob gas, at a fee of about a million wei, where
    the opcode still has a value. *)
Theorem blob_base_fee_copies `{BuildProfile} factor numerator denominator :
  (∀ fee, Gas.fake_exponential factor numerator denominator = Ok fee →
     fake_exponential (E := unit) factor numerator denominator = Ok fee ∧
     Gas.fake_exponential_w 256 InternalError.ArithmeticOperationDividedByZero
       factor numerator denominator = Ok fee) ∧
  (overflow_checks = true → ∀ e, Gas.fake_exponential factor numerator denominator = Err e →
     fake_exponential (E := unit) factor numerator denominator = Panic) ∧
  (∃ fee, calculate_base_fee_per_blob_gas (E := unit) 46488065 = Ok fee) ∧
  (overflow_checks = true → calculate_base_fee_per_blob_gas (E := unit) 46488066 = Panic) ∧
  Gas.fake_exponential_w 256 InternalError.ArithmeticOperationDividedByZero
    MIN_BASE_FEE_PER_BLOB_GAS 46488066 BLOB_BASE_FEE_UPDATE_FRACTION = Ok 1115632.
Proof.
  pose proof (fake_exponential_follows (E := unit) factor numerator denominator) as Hf.
  split_and!.
  - intros fee Hfee. rewrite Hfee in Hf. split; [done|].
    refine (fake_exponential_widens 64 256 _ _ factor numerator denominator _ fee Hfee). lia.
  - intros Ho e He. rewrite He in Hf. by apply Hf.
  - pose proof (fake_exponential_follows (E := unit) 1 46488065 3338477) as Hb.
    assert (Gas.fake_exponential 1 46488065 3338477 = Ok 1115632) as Hr by (vm_compute; reflexivity).
    rewrite Hr in Hb. by exists 1115632.
  - intros Ho. pose proof (fake_exponential_follows (E := unit) 1 46488066 3338477) as Hb.
    assert (Gas.fake_exponential 1 46488066 3338477 =
      Err (Internal InternalError.ArithmeticOperationOverflow)) as Hr by (vm_compute; reflexivity).
    rewrite Hr in Hb. by apply Hb.
  - vm_compute; reflexivity.
Qed.

(** ** Encodings *)

#[export] Instance ForkId_valid : RLPValid ForkId.t := λ x,
  rlp_valid (ForkId.fork_hash x) ∧ rlp_valid (ForkId.fork_next x).

#[export] Instance ForkId_codec : RLPCodec ForkId.t.
Proof. struct_codec ForkId.encode ForkId.decode_unfinished. Qed.

#[export] Instance BlobsBundle_valid : RLPValid BlobsBundle.t := λ x,
  rlp_valid (BlobsBundle.blobs x) ∧ rlp_valid (BlobsBundle.commitments x) ∧
  rlp_valid (BlobsBundle.proofs x).

#[export] Instance BlobsBundle_codec : RLPCodec BlobsBundle.t.
Proof. struct_codec BlobsBundle.encode BlobsBundle.decode_unfinished. Qed.
