(* ===== verification/Store.v ===== *)
(** * The block store

    crates/storage/store: the in-memory engine (engines/in_memory.rs), the
    default methods of the engine interface (engines/api.rs) and the store that
    the rest of the client uses (storage.rs).

    The store is shared behind locks; the model is one holder of it at a time,
    with the state passed explicitly.  Hashes and addresses are byte lists,
    numbers are [Z].  A trie that the store opens shares the node map of the
    store: [save_state_trie] and [save_storage_trie] say where the source writes
    through it, which is when the trie is committed by [hash]. *)

From stdpp Require Import base option list numbers strings gmap sorting.
From S2P Require Import Prelude Rlp LevmHost TrieNode Trie Tx BlockTypes Chain.

Local Open Scope Z_scope.

(** [StoreError], without the variants of the database engines. *)
Inductive StoreError :=
| DecodeError
| StoreCustom (message : string)
| StoreRLPDecode (e : RLPDecodeError)
| StoreTrie (e : TrieError)
| MissingStore
| ReadError
| CursorError (table : string)
| MissingLatestBlockNumber
| MissingEarliestBlockNumber.

Notation StoreResult := (Outcome StoreError).

(** ** The in-memory engine (engines/in_memory.rs) *)

Notation NodeMap := InMemoryTrieDB.

Definition node_map_default : NodeMap := {| inner := ∅; poisoned := false |}.

Module ChainData.
Record t := {
  chain_config : option ChainConfig.t;
  earliest_block_number : option Z;
  finalized_block_number : option Z;
  safe_block_number : option Z;
  latest_block_number : option Z;
  latest_total_difficulty : option Z;
  pending_block_number : option Z;
}.
Definition set_chain_config (x : option ChainConfig.t) (s : t) : t :=
  {| chain_config := x; earliest_block_number := earliest_block_number s;
     finalized_block_number := finalized_block_number s;
     safe_block_number := safe_block_number s; latest_block_number := latest_block_number s;
     latest_total_difficulty := latest_total_difficulty s;
     pending_block_number := pending_block_number s |}.
Definition set_earliest_block_number (x : option Z) (s : t) : t :=
  {| chain_config := chain_config s; earliest_block_number := x;
     finalized_block_number := finalized_block_number s;
     safe_block_number := safe_block_number s; latest_block_number := latest_block_number s;
     latest_total_difficulty := latest_total_difficulty s;
     pending_block_number := pending_block_number s |}.
Definition set_finalized_block_number (x : option Z) (s : t) : t :=
  {| chain_config := chain_config s; earliest_block_number := earliest_block_number s;
     finalized_block_number := x; safe_block_number := safe_block_number s;
     latest_block_number := latest_block_number s;
     latest_total_difficulty := latest_total_difficulty s;
     pending_block_number := pending_block_number s |}.
Definition set_safe_block_number (x : option Z) (s : t) : t :=
  {| chain_config := chain_config s; earliest_block_number := earliest_block_number s;
     finalized_block_number := finalized_block_number s; safe_block_number := x;
     latest_block_number := latest_block_number s;
     latest_total_difficulty := latest_total_difficulty s;
     pending_block_number := pending_block_number s |}.
Definition set_latest_block_number (x : option Z) (s : t) : t :=
  {| chain_config := chain_config s; earliest_block_number := earliest_block_number s;
     finalized_block_number := finalized_block_number s;
     safe_block_number := safe_block_number s; latest_block_number := x;
     latest_total_difficulty := latest_total_difficulty s;
     pending_block_number := pending_block_number s |}.
Definition set_latest_total_difficulty (x : option Z) (s : t) : t :=
  {| chain_config := chain_config s; earliest_block_number := earliest_block_number s;
     finalized_block_number := finalized_block_number s;
     safe_block_number := safe_block_number s; latest_block_number := latest_block_number s;
     latest_total_difficulty := x; pending_block_number := pending_block_number s |}.
Definition set_pending_block_number (x : option Z) (s : t) : t :=
  {| chain_config := chain_config s; earliest_block_number := earliest_block_number s;
     finalized_block_number := finalized_block_number s;
     safe_block_number := safe_block_number s; latest_block_number := latest_block_number s;
     latest_total_difficulty := latest_total_difficulty s; pending_block_number := x |}.

Definition default : t :=
  {| chain_config := None; earliest_block_number := None; finalized_block_number := None;
     safe_block_number := None; latest_block_number := None; latest_total_difficulty := None;
     pending_block_number := None |}.
End ChainData.

Record StoreInner := {
  chain_data : ChainData.t;
  block_numbers : gmap (list Z) Z;
  canonical_hashes : gmap Z (list Z);
  bodies : gmap (list Z) BlockBody.t;
  headers : gmap (list Z) BlockHeader.t;
  account_codes : gmap (list Z) (list Z);
  transaction_locations : gmap (list Z) (list (Z * list Z * Z));
  receipts : gmap (list Z) (gmap Z Receipt.t);
  state_trie_nodes : NodeMap;
  storage_trie_nodes : gmap (list Z) NodeMap;
  block_total_difficulties : gmap (list Z) Z;
  payloads : gmap Z (Block.t * Z * BlobsBundle.t * bool);
  pending_blocks : gmap (list Z) Block.t;
}.
Definition set_chain_data (x : ChainData.t) (s : StoreInner) : StoreInner :=
  {| chain_data := x; block_numbers := block_numbers s; canonical_hashes := canonical_hashes s;
     bodies := bodies s; headers := headers s; account_codes := account_codes s;
     transaction_locations := transaction_locations s; receipts := receipts s;
     state_trie_nodes := state_trie_nodes s; storage_trie_nodes := storage_trie_nodes s;
     block_total_difficulties := block_total_difficulties s; payloads := payloads s;
     pending_blocks := pending_blocks s |}.
Definition set_block_numbers (x : gmap (list Z) Z) (s : StoreInner) : StoreInner :=
  {| chain_data := chain_data s; block_numbers := x; canonical_hashes := canonical_hashes s;
     bodies := bodies s; headers := headers s; account_codes := account_codes s;
     transaction_locations := transaction_locations s; receipts := receipts s;
     state_trie_nodes := state_trie_nodes s; storage_trie_nodes := storage_trie_nodes s;
     block_total_difficulties := block_total_difficulties s; payloads := payloads s;
     pending_blocks := pending_blocks s |}.
Definition set_canonical_hashes (x : gmap Z (list Z)) (s : StoreInner) : StoreInner :=
  {| chain_data := chain_data s; block_numbers := block_numbers s; canonical_hashes := x;
     bodies := bodies s; headers := headers s; account_codes := account_codes s;
     transaction_locations := transaction_locations s; receipts := receipts s;
     state_trie_nodes := state_trie_nodes s; storage_trie_nodes := storage_trie_nodes s;
     block_total_difficulties := block_total_difficulties s; payloads := payloads s;
     pending_blocks := pending_blocks s |}.
Definition set_bodies (x : gmap (list Z) BlockBody.t) (s : StoreInner) : StoreInner :=
  {| chain_data := chain_data s; block_numbers := block_numbers s;
     canonical_hashes := canonical_hashes s; bodies := x; headers := headers s;
     account_codes := account_codes s; transaction_locations := transaction_locations s;
     receipts := receipts s; state_trie_nodes := state_trie_nodes s;
     storage_trie_nodes := storage_trie_nodes s;
     block_total_difficulties := block_total_difficulties s; payloads := payloads s;
     pending_blocks := pending_blocks s |}.
Definition set_headers (x : gmap (list Z) BlockHeader.t) (s : StoreInner) : StoreInner :=
  {| chain_data := chain_data s; block_numbers := block_numbers s;
     canonical_hashes := canonical_hashes s; bodies := bodies s; headers := x;
     account_codes := account_codes s; transaction_locations := transaction_locations s;
     receipts := receipts s; state_trie_nodes := state_trie_nodes s;
     storage_trie_nodes := storage_trie_nodes s;
     block_total_difficulties := block_total_difficulties s; payloads := payloads s;
     pending_blocks := pending_blocks s |}.
Definition set_account_codes (x : gmap (list Z) (list Z)) (s : StoreInner) : StoreInner :=
  {| chain_data := chain_data s; block_numbers := block_numbers s;
     canonical_hashes := canonical_hashes s; bodies := bodies s; headers := headers s;
     account_codes := x; transaction_locations := transaction_locations s;
     receipts := receipts s; state_trie_nodes := state_trie_nodes s;
     storage_trie_nodes := storage_trie_nodes s;
     block_total_difficulties := block_total_difficulties s; payloads := payloads s;
     pending_blocks := pending_blocks s |}.
Definition set_transaction_locations (x : gmap (list Z) (list (Z * list Z * Z))) (s : StoreInner) : StoreInner :=
  {| chain_data := chain_data s; block_numbers := block_numbers s;
     canonical_hashes := canonical_hashes s; bodies := bodies s; headers := headers s;
     account_codes := account_codes s; transaction_locations := x; receipts := receipts s;
     state_trie_nodes := state_trie_nodes s; storage_trie_nodes := storage_trie_nodes s;
     block_total_difficulties := block_total_difficulties s; payloads := payloads s;
     pending_blocks := pending_blocks s |}.
Definition set_receipts (x : gmap (list Z) (gmap Z Receipt.t)) (s : StoreInner) : StoreInner :=
  {| chain_data := chain_data s; block_numbers := block_numbers s;
     canonical_hashes := canonical_hashes s; bodies := bodies s; headers := headers s;
     account_codes := account_codes s; transaction_locations := transaction_locations s;
     receipts := x; state_trie_nodes := state_trie_nodes s;
     storage_trie_nodes := storage_trie_nodes s;
     block_total_difficulties := block_total_difficulties s; payloads := payloads s;
     pending_blocks := pending_blocks s |}.
Definition set_state_trie_nodes (x : NodeMap) (s : StoreInner) : StoreInner :=
  {| chain_data := chain_data s; block_numbers := block_numbers s;
     canonical_hashes := canonical_hashes s; bodies := bodies s; headers := headers s;
     account_codes := account_codes s; transaction_locations := transaction_locations s;
     receipts := receipts s; state_trie_nodes := x; storage_trie_nodes := storage_trie_nodes s;
     block_total_difficulties := block_total_difficulties s; payloads := payloads s;
     pending_blocks := pending_blocks s |}.
Definition set_storage_trie_nodes (x : gmap (list Z) NodeMap) (s : StoreInner) : StoreInner :=
  {| chain_data := chain_data s; block_numbers := block_numbers s;
     canonical_hashes := canonical_hashes s; bodies := bodies s; headers := headers s;
     account_codes := account_codes s; transaction_locations := transaction_locations s;
     receipts := receipts s; state_trie_nodes := state_trie_nodes s; storage_trie_nodes := x;
     block_total_difficulties := block_total_difficulties s; payloads := payloads s;
     pending_blocks := pending_blocks s |}.
Definition set_block_total_difficulties (x : gmap (list Z) Z) (s : StoreInner) : StoreInner :=
  {| chain_data := chain_data s; block_numbers := block_numbers s;
     canonical_hashes := canonical_hashes s; bodies := bodies s; headers := headers s;
     account_codes := account_codes s; transaction_locations := transaction_locations s;
     receipts := receipts s; state_trie_nodes := state_trie_nodes s;
     storage_trie_nodes := storage_trie_nodes s; block_total_difficulties := x;
     payloads := payloads s; pending_blocks := pending_blocks s |}.
Definition set_payloads (x : gmap Z (Block.t * Z * BlobsBundle.t * bool)) (s : StoreInner) : StoreInner :=
  {| chain_data := chain_data s; block_numbers := block_numbers s;
     canonical_hashes := canonical_hashes s; bodies := bodies s; headers := headers s;
     account_codes := account_codes s; transaction_locations := transaction_locations s;
     receipts := receipts s; state_trie_nodes := state_trie_nodes s;
     storage_trie_nodes := storage_trie_nodes s;
     block_total_difficulties := block_total_difficulties s; payloads := x;
     pending_blocks := pending_blocks s |}.
Definition set_pending_blocks (x : gmap (list Z) Block.t) (s : StoreInner) : StoreInner :=
  {| chain_data := chain_data s; block_numbers := block_numbers s;
     canonical_hashes := canonical_hashes s; bodies := bodies s; headers := headers s;
     account_codes := account_codes s; transaction_locations := transaction_locations s;
     receipts := receipts s; state_trie_nodes := state_trie_nodes s;
     storage_trie_nodes := storage_trie_nodes s;
     block_total_difficulties := block_total_difficulties s; payloads := payloads s;
     pending_blocks := x |}.

Definition in_memory_new : StoreInner :=
  {| chain_data := ChainData.default; block_numbers := ∅; canonical_hashes := ∅; bodies := ∅;
     headers := ∅; account_codes := ∅; transaction_locations := ∅; receipts := ∅;
     state_trie_nodes := node_map_default; storage_trie_nodes := ∅;
     block_total_difficulties := ∅; payloads := ∅; pending_blocks := ∅ |}.

Notation EngineM := (StateT StoreInner StoreError).

Definition on_chain_data (f : ChainData.t → ChainData.t) (s : StoreInner) : StoreInner :=
  set_chain_data (f (chain_data s)) s.

(** The order of [sort_by_key] on the receipts of a block. *)
Definition by_index (a b : Z * Receipt.t) : Prop := a.1 ≤ b.1.
#[export] Instance by_index_dec : RelDecision by_index.
Proof. intros a b. apply Z.le_dec. Defined.

Module Engine.
Section engine.
Context `{Crypto}.

Definition get_block_header (block_number : Z) : EngineM (option BlockHeader.t) :=
  state_gets (λ s, hash ← canonical_hashes s !! block_number; headers s !! hash).
Definition get_block_body (block_number : Z) : EngineM (option BlockBody.t) :=
  state_gets (λ s, hash ← canonical_hashes s !! block_number; bodies s !! hash).

Definition add_pending_block (block : Block.t) : EngineM unit :=
  state_modify (λ s, set_pending_blocks
    (<[compute_block_hash (Block.header block) := block]> (pending_blocks s)) s).
Definition get_pending_block (block_hash : list Z) : EngineM (option Block.t) :=
  state_gets (λ s, pending_blocks s !! block_hash).

Definition add_block_header (block_hash : list Z) (block_header : BlockHeader.t) : EngineM unit :=
  state_modify (λ s, set_headers (<[block_hash := block_header]> (headers s)) s).
Definition add_block_body (block_hash : list Z) (block_body : BlockBody.t) : EngineM unit :=
  state_modify (λ s, set_bodies (<[block_hash := block_body]> (bodies s)) s).
Definition add_block_number (block_hash : list Z) (block_number : Z) : EngineM unit :=
  state_modify (λ s, set_block_numbers (<[block_hash := block_number]> (block_numbers s)) s).
Definition get_block_number (block_hash : list Z) : EngineM (option Z) :=
  state_gets (λ s, block_numbers s !! block_hash).
Definition add_block_total_difficulty (block_hash : list Z) (difficulty : Z) : EngineM unit :=
  state_modify (λ s, set_block_total_difficulties
    (<[block_hash := difficulty]> (block_total_difficulties s)) s).
Definition get_block_total_difficulty (block_hash : list Z) : EngineM (option Z) :=
  state_gets (λ s, block_total_difficulties s !! block_hash).

(** [entry(hash).or_default().push(location)]. *)
Definition push_location (transaction_hash : list Z) (location : Z * list Z * Z)
    (s : StoreInner) : StoreInner :=
  set_transaction_locations
    (<[transaction_hash :=
         default [] (transaction_locations s !! transaction_hash) ++ [location]]>
       (transaction_locations s)) s.

Definition add_transaction_location (transaction_hash : list Z) (block_number : Z)
    (block_hash : list Z) (index : Z) : EngineM unit :=
  state_modify (push_location transaction_hash (block_number, block_hash, index)).

Definition add_transaction_locations (locations : list (list Z * Z * list Z * Z)) : EngineM unit :=
  state_modify (λ s, foldl
    (λ s '(transaction_hash, block_number, block_hash, index),
       push_location transaction_hash (block_number, block_hash, index) s) s locations).

(** Of the locations of a transaction, the first in a canonical block. *)
Definition get_transaction_location (transaction_hash : list Z) :
    EngineM (option (Z * list Z * Z)) :=
  state_gets (λ s,
    v ← transaction_locations s !! transaction_hash;
    snd <$> list_find (λ l, canonical_hashes s !! l.1.1 = Some l.1.2) v).

Definition add_receipt (block_hash : list Z) (index : Z) (receipt : Receipt.t) : EngineM unit :=
  state_modify (λ s, set_receipts
    (<[block_hash := <[index := receipt]> (default ∅ (receipts s !! block_hash))]> (receipts s)) s).
Definition get_receipt (block_number index : Z) : EngineM (option Receipt.t) :=
  state_gets (λ s,
    hash ← canonical_hashes s !! block_number;
    entry ← receipts s !! hash;
    entry !! index).
Definition add_receipts (block_hash : list Z) (rs : list Receipt.t) : EngineM unit :=
  state_modify (λ s, set_receipts
    (<[block_hash :=
         foldl (λ entry '(index, receipt), <[Z.of_nat index := receipt]> entry)
           (default ∅ (receipts s !! block_hash)) (imap pair rs)]> (receipts s)) s).

(** [sort_by_key] on the entries of the map, which has each index once. *)
Definition get_receipts_for_block (block_hash : list Z) : EngineM (list Receipt.t) :=
  state_gets (λ s,
    match receipts s !! block_hash with
    | None => []
    | Some receipts_for_block =>
        snd <$> merge_sort by_index (map_to_list receipts_for_block)
    end).

Definition add_account_code (code_hash code : list Z) : EngineM unit :=
  state_modify (λ s, set_account_codes (<[code_hash := code]> (account_codes s)) s).
Definition get_account_code (code_hash : list Z) : EngineM (option (list Z)) :=
  state_gets (λ s, account_codes s !! code_hash).

Definition set_chain_config (chain_config : ChainConfig.t) : EngineM unit :=
  state_modify (on_chain_data (ChainData.set_chain_config (Some chain_config))).
Definition get_chain_config : EngineM ChainConfig.t := λ s,
  (unwrap (ChainData.chain_config (chain_data s)), s).

Definition update_earliest_block_number (n : Z) : EngineM unit :=
  state_modify (on_chain_data (ChainData.set_earliest_block_number (Some n))).
Definition get_earliest_block_number : EngineM (option Z) :=
  state_gets (λ s, ChainData.earliest_block_number (chain_data s)).
Definition update_finalized_block_number (n : Z) : EngineM unit :=
  state_modify (on_chain_data (ChainData.set_finalized_block_number (Some n))).
Definition get_finalized_block_number : EngineM (option Z) :=
  state_gets (λ s, ChainData.finalized_block_number (chain_data s)).
Definition update_safe_block_number (n : Z) : EngineM unit :=
  state_modify (on_chain_data (ChainData.set_safe_block_number (Some n))).
Definition get_safe_block_number : EngineM (option Z) :=
  state_gets (λ s, ChainData.safe_block_number (chain_data s)).
Definition update_latest_block_number (n : Z) : EngineM unit :=
  state_modify (on_chain_data (ChainData.set_latest_block_number (Some n))).
Definition get_latest_block_number : EngineM (option Z) :=
  state_gets (λ s, ChainData.latest_block_number (chain_data s)).
Definition update_latest_total_difficulty (n : Z) : EngineM unit :=
  state_modify (on_chain_data (ChainData.set_latest_total_difficulty (Some n))).
Definition get_latest_total_difficulty : EngineM (option Z) :=
  state_gets (λ s, ChainData.latest_total_difficulty (chain_data s)).
Definition update_pending_block_number (n : Z) : EngineM unit :=
  state_modify (on_chain_data (ChainData.set_pending_block_number (Some n))).
Definition get_pending_block_number : EngineM (option Z) :=
  state_gets (λ s, ChainData.pending_block_number (chain_data s)).

Definition open_storage_trie (hashed_address storage_root : list Z) :
    EngineM (Trie InMemoryTrieDB) := λ s,
  let trie_backend := default node_map_default (storage_trie_nodes s !! hashed_address) in
  (Ok (trie_open trie_backend storage_root),
   set_storage_trie_nodes (<[hashed_address := trie_backend]> (storage_trie_nodes s)) s).
Definition open_state_trie (state_root : list Z) : EngineM (Trie InMemoryTrieDB) :=
  state_gets (λ s, trie_open (state_trie_nodes s) state_root).

(** The node maps after a commit of a trie that the store opened. *)
Definition save_storage_trie (hashed_address : list Z) (t : Trie InMemoryTrieDB) : EngineM unit :=
  state_modify (λ s, set_storage_trie_nodes
    (<[hashed_address := db (state t)]> (storage_trie_nodes s)) s).
Definition save_state_trie (t : Trie InMemoryTrieDB) : EngineM unit :=
  state_modify (set_state_trie_nodes (db (state t))).

Definition get_block_body_by_hash (block_hash : list Z) : EngineM (option BlockBody.t) :=
  state_gets (λ s, bodies s !! block_hash).
Definition get_block_header_by_hash (block_hash : list Z) : EngineM (option BlockHeader.t) :=
  state_gets (λ s, headers s !! block_hash).

Definition set_canonical_block (number : Z) (hash : list Z) : EngineM unit :=
  state_modify (λ s, set_canonical_hashes (<[number := hash]> (canonical_hashes s)) s).
Definition get_canonical_block_hash (block_number : Z) : EngineM (option (list Z)) :=
  state_gets (λ s, canonical_hashes s !! block_number).
Definition unset_canonical_block (number : Z) : EngineM unit :=
  state_modify (λ s, set_canonical_hashes (delete number (canonical_hashes s)) s).

Definition add_payload (payload_id : Z) (block : Block.t) : EngineM unit :=
  state_modify (λ s, set_payloads
    (<[payload_id := (block, 0, BlobsBundle.empty, false)]> (payloads s)) s).
Definition get_payload (payload_id : Z) : EngineM (option (Block.t * Z * BlobsBundle.t * bool)) :=
  state_gets (λ s, payloads s !! payload_id).
Definition update_payload (payload_id : Z) (block : Block.t) (block_value : Z)
    (blobs_bundle : BlobsBundle.t) (completed : bool) : EngineM unit :=
  state_modify (λ s, set_payloads
    (<[payload_id := (block, block_value, blobs_bundle, completed)]> (payloads s)) s).

(** The default methods of the engine interface (engines/api.rs). *)
Definition get_transaction_by_location (block_hash : list Z) (index : Z) :
    EngineM (option Transaction) :=
  body ← get_block_body_by_hash block_hash;
  match body with
  | None => mret None
  | Some body =>
      mret (index ← try_into 64 index; BlockBody.transactions body !! Z.to_nat index)
  end.

Definition get_transaction_by_hash (transaction_hash : list Z) : EngineM (option Transaction) :=
  location ← get_transaction_location transaction_hash;
  match location with
  | None => mret None
  | Some (_, block_hash, index) => get_transaction_by_location block_hash index
  end.

Definition get_block_by_hash (block_hash : list Z) : EngineM (option Block.t) :=
  header ← get_block_header_by_hash block_hash;
  match header with
  | None => mret None
  | Some header =>
      body ← get_block_body_by_hash block_hash;
      mret (match body with None => None | Some body => Some (Block.new header body) end)
  end.
End engine.
End Engine.

(** ** The store (storage.rs) *)

(** The order in which a [HashMap] with hash keys is iterated, which the
    standard library leaves open. *)
Class HashMapIter := {
  hash_iter : ∀ {V : Type}, gmap (list Z) V → list (list Z * V);
  hash_iter_perm : ∀ {V : Type} (m : gmap (list Z) V), hash_iter m ≡ₚ map_to_list m;
}.

Definition EMPTY_KECCACK_HASH : list Z :=
  [0xc5; 0xd2; 0x46; 0x01; 0x86; 0xf7; 0x23; 0x3c; 0x92; 0x7e; 0x7d; 0xb2; 0xdc; 0xc7; 0x03; 0xc0;
   0xe5; 0x00; 0xb6; 0x53; 0xca; 0x82; 0x27; 0x3b; 0x7b; 0xfa; 0xd8; 0x04; 0x5d; 0x85; 0xa4; 0x70].

(** [AccountState::default]. *)
Definition account_state_default `{Crypto} : AccountState.t :=
  {| AccountState.nonce := 0; AccountState.balance := 0;
     AccountState.storage_root := EMPTY_TRIE_HASH;
     AccountState.code_hash := EMPTY_KECCACK_HASH |}.

(** The slots of [added_storage] are listed in the order of the map. *)
Module AccountUpdate.
Record t := {
  address : list Z;
  removed : bool;
  info : option AccountInfo.t;
  code : option (list Z);
  added_storage : list (list Z * Z);
}.

Definition new (address : list Z) : t :=
  {| address := address; removed := false; info := None; code := None; added_storage := [] |}.

(** [AccountUpdate::removed]. *)
Definition new_removed (address : list Z) : t :=
  {| address := address; removed := true; info := None; code := None; added_storage := [] |}.
End AccountUpdate.

Module Store.
Record t := {
  engine : StoreInner;
  mempool : gmap (list Z) MempoolTransaction.t;
  blobs_bundle_pool : gmap (list Z) BlobsBundle.t;
}.

(** [Store::new] with the in-memory engine. *)
Definition new : t := {| engine := in_memory_new; mempool := ∅; blobs_bundle_pool := ∅ |}.

Definition set_engine (x : StoreInner) (s : t) : t :=
  {| engine := x; mempool := mempool s; blobs_bundle_pool := blobs_bundle_pool s |}.
Definition set_mempool (x : gmap (list Z) MempoolTransaction.t) (s : t) : t :=
  {| engine := engine s; mempool := x; blobs_bundle_pool := blobs_bundle_pool s |}.
Definition set_blobs_bundle_pool (x : gmap (list Z) BlobsBundle.t) (s : t) : t :=
  {| engine := engine s; mempool := mempool s; blobs_bundle_pool := x |}.

Notation StoreM := (StateT t StoreError).

Definition on_engine {A} (m : EngineM A) : StoreM A := λ s,
  let '(r, e) := m (engine s) in (r, set_engine e s).

Section store.
Context `{Crypto}.

(** *** Calls of the engine *)

Definition add_block_header (block_hash : list Z) (block_header : BlockHeader.t) : StoreM unit :=
  on_engine (Engine.add_block_header block_hash block_header).
Definition get_block_header (block_number : Z) : StoreM (option BlockHeader.t) :=
  on_engine (Engine.get_block_header block_number).
Definition get_block_header_by_hash (block_hash : list Z) : StoreM (option BlockHeader.t) :=
  on_engine (Engine.get_block_header_by_hash block_hash).
Definition get_block_body_by_hash (block_hash : list Z) : StoreM (option BlockBody.t) :=
  on_engine (Engine.get_block_body_by_hash block_hash).
Definition add_block_body (block_hash : list Z) (block_body : BlockBody.t) : StoreM unit :=
  on_engine (Engine.add_block_body block_hash block_body).
Definition get_block_body (block_number : Z) : StoreM (option BlockBody.t) :=
  on_engine (Engine.get_block_body block_number).
Definition add_pending_block (block : Block.t) : StoreM unit :=
  on_engine (Engine.add_pending_block block).
Definition get_pending_block (block_hash : list Z) : StoreM (option Block.t) :=
  on_engine (Engine.get_pending_block block_hash).
Definition add_block_number (block_hash : list Z) (block_number : Z) : StoreM unit :=
  on_engine (Engine.add_block_number block_hash block_number).
Definition get_block_number (block_hash : list Z) : StoreM (option Z) :=
  on_engine (Engine.get_block_number block_hash).
Definition add_block_total_difficulty (block_hash : list Z)
    (block_difficulty : Z) : StoreM unit :=
  on_engine (Engine.add_block_total_difficulty block_hash block_difficulty).
Definition get_block_total_difficulty (block_hash : list Z) : StoreM (option Z) :=
  on_engine (Engine.get_block_total_difficulty block_hash).
Definition add_transaction_location (transaction_hash : list Z) (block_number : Z)
    (block_hash : list Z) (index : Z) : StoreM unit :=
  on_engine (Engine.add_transaction_location transaction_hash block_number block_hash index).
Definition get_transaction_location (transaction_hash : list Z) : StoreM (option
    (Z * list Z * Z)) :=
  on_engine (Engine.get_transaction_location transaction_hash).
Definition add_account_code (code_hash : list Z) (code : list Z) : StoreM unit :=
  on_engine (Engine.add_account_code code_hash code).
Definition get_account_code (code_hash : list Z) : StoreM (option (list Z)) :=
  on_engine (Engine.get_account_code code_hash).
Definition add_receipt (block_hash : list Z) (index : Z) (receipt : Receipt.t) : StoreM unit :=
  on_engine (Engine.add_receipt block_hash index receipt).
Definition add_receipts (block_hash : list Z) (receipts : list Receipt.t) : StoreM unit :=
  on_engine (Engine.add_receipts block_hash receipts).
Definition get_receipt (block_number : Z) (index : Z) : StoreM (option Receipt.t) :=
  on_engine (Engine.get_receipt block_number index).
Definition get_transaction_by_hash (transaction_hash : list Z) : StoreM (option Transaction) :=
  on_engine (Engine.get_transaction_by_hash transaction_hash).
Definition get_transaction_by_location (block_hash : list Z) (index : Z) : StoreM
    (option Transaction) :=
  on_engine (Engine.get_transaction_by_location block_hash index).
Definition get_block_by_hash (block_hash : list Z) : StoreM (option Block.t) :=
  on_engine (Engine.get_block_by_hash block_hash).
Definition set_chain_config (chain_config : ChainConfig.t) : StoreM unit :=
  on_engine (Engine.set_chain_config chain_config).
Definition get_chain_config : StoreM ChainConfig.t :=
  on_engine Engine.get_chain_config.
Definition update_earliest_block_number (block_number : Z) : StoreM unit :=
  on_engine (Engine.update_earliest_block_number block_number).
Definition update_finalized_block_number (block_number : Z) : StoreM unit :=
  on_engine (Engine.update_finalized_block_number block_number).
Definition get_finalized_block_number : StoreM (option Z) :=
  on_engine Engine.get_finalized_block_number.
Definition update_safe_block_number (block_number : Z) : StoreM unit :=
  on_engine (Engine.update_safe_block_number block_number).
Definition get_safe_block_number : StoreM (option Z) :=
  on_engine Engine.get_safe_block_number.
Definition update_latest_block_number (block_number : Z) : StoreM unit :=
  on_engine (Engine.update_latest_block_number block_number).
Definition update_latest_total_difficulty (block_difficulty : Z) : StoreM unit :=
  on_engine (Engine.update_latest_total_difficulty block_difficulty).
Definition get_latest_total_difficulty : StoreM (option Z) :=
  on_engine Engine.get_latest_total_difficulty.
Definition update_pending_block_number (block_number : Z) : StoreM unit :=
  on_engine (Engine.update_pending_block_number block_number).
Definition get_pending_block_number : StoreM (option Z) :=
  on_engine Engine.get_pending_block_number.
Definition set_canonical_block (number : Z) (hash : list Z) : StoreM unit :=
  on_engine (Engine.set_canonical_block number hash).
Definition get_canonical_block_hash (block_number : Z) : StoreM (option (list Z)) :=
  on_engine (Engine.get_canonical_block_hash block_number).
Definition unset_canonical_block (number : Z) : StoreM unit :=
  on_engine (Engine.unset_canonical_block number).
Definition add_payload (payload_id : Z) (block : Block.t) : StoreM unit :=
  on_engine (Engine.add_payload payload_id block).
Definition get_payload (payload_id : Z) : StoreM (option (Block.t * Z * BlobsBundle.t * bool)) :=
  on_engine (Engine.get_payload payload_id).
Definition update_payload (payload_id : Z) (block : Block.t) (block_value : Z)
    (blobs_bundle : BlobsBundle.t) (completed : bool) : StoreM unit :=
  on_engine (Engine.update_payload payload_id block block_value blobs_bundle completed).
Definition open_state_trie (state_root : list Z) : StoreM (Trie InMemoryTrieDB) :=
  on_engine (Engine.open_state_trie state_root).
Definition open_storage_trie (account_hash : list Z) (storage_root : list Z) : StoreM
    (Trie InMemoryTrieDB) :=
  on_engine (Engine.open_storage_trie account_hash storage_root).
Definition get_receipts_for_block (block_hash : list Z) : StoreM (list Receipt.t) :=
  on_engine (Engine.get_receipts_for_block block_hash).

Definition get_earliest_block_number : StoreM Z :=
  n ← on_engine Engine.get_earliest_block_number;
  state_lift (ok_or n MissingEarliestBlockNumber).
Definition get_latest_block_number : StoreM Z :=
  n ← on_engine Engine.get_latest_block_number;
  state_lift (ok_or n MissingLatestBlockNumber).

Definition add_transaction_locations (transactions : list Transaction) (block_number : Z)
    (block_hash : list Z) : StoreM unit :=
  on_engine (Engine.add_transaction_locations
    (imap (λ index tx, (Transaction.compute_hash tx, block_number, block_hash, Z.of_nat index))
       transactions)).

(** *** The transaction pool *)

Definition add_transaction_to_pool (hash : list Z) (transaction : MempoolTransaction.t) :
    StoreM unit :=
  state_modify (λ s, set_mempool (<[hash := transaction]> (mempool s)) s).

Definition add_blobs_bundle_to_pool (tx_hash : list Z) (blobs_bundle : BlobsBundle.t) :
    StoreM unit :=
  state_modify (λ s, set_blobs_bundle_pool
    (<[tx_hash := blobs_bundle]> (blobs_bundle_pool s)) s).

Definition get_blobs_bundle_from_pool (tx_hash : list Z) : StoreM (option BlobsBundle.t) :=
  state_gets (λ s, blobs_bundle_pool s !! tx_hash).

Definition remove_transaction_from_pool (hash : list Z) : StoreM unit :=
  state_modify (λ s,
    match mempool s !! hash with
    | Some tx =>
        let inner := MempoolTransaction.inner tx in
        let s :=
          match Transaction.tx_type inner with
          | TxType.EIP4844 =>
              set_blobs_bundle_pool
                (delete (Transaction.compute_hash inner) (blobs_bundle_pool s)) s
          | _ => s
          end in
        set_mempool (delete hash (mempool s)) s
    | None => s
    end).

(** [entry(sender).or_default().push(tx)] for each transaction that passes. *)
Definition group_by_sender (filter : Transaction → bool)
    (txs : list (list Z * MempoolTransaction.t)) :
    gmap (list Z) (list MempoolTransaction.t) :=
  foldl (λ by_sender '(_, tx),
    if filter (MempoolTransaction.inner tx) then
      let sender : list Z := MempoolTransaction.sender tx in
      <[sender := default [] (by_sender !! sender) ++ [tx]]> by_sender
    else by_sender) ∅ txs.

(** [sort] by the order of the transactions. *)
Definition nonce_order (a b : MempoolTransaction.t) : bool :=
  match MempoolTransaction.cmp a b with Gt => false | _ => true end.

Definition filter_pool_transactions `{HashMapIter} (filter : Transaction → bool) :
    StoreM (gmap (list Z) (list MempoolTransaction.t)) :=
  state_gets (λ s, stable_sort nonce_order <$> group_by_sender filter (hash_iter (mempool s))).

Definition filter_unknown_transactions (possible_hashes : list (list Z)) :
    StoreM (list (list Z)) :=
  state_gets (λ s, base.filter (λ hash, mempool s !! hash = None) possible_hashes).

(** *** Accounts and tries *)

Definition hash_address (address : list Z) : list Z := keccak address.
Definition hash_key (key : list Z) : list Z := keccak key.

(** [?] on a result of the trie, and [AccountState::decode]. *)
Definition trie_result {A} (m : TrieResult A) : StoreM A := state_lift (map_err StoreTrie m).
Definition decode_account (encoded : list Z) : StoreM AccountState.t :=
  state_lift (map_err StoreRLPDecode (decode (T := AccountState.t) encoded)).

Definition state_trie (block_hash : list Z) : StoreM (option (Trie InMemoryTrieDB)) :=
  header ← get_block_header_by_hash block_hash;
  match header with
  | None => mret None
  | Some header =>
      t ← open_state_trie (BlockHeader.state_root header);
      mret (Some t)
  end.

(** The account in a trie. *)
Definition account_in (t : Trie InMemoryTrieDB) (address : list Z) :
    StoreM (option AccountState.t) :=
  encoded_state ← trie_result (trie_get t (hash_address address));
  match encoded_state with
  | None => mret None
  | Some encoded_state => a ← decode_account encoded_state; mret (Some a)
  end.

Definition get_account_state_by_hash (block_hash address : list Z) :
    StoreM (option AccountState.t) :=
  t ← state_trie block_hash;
  match t with
  | None => mret None
  | Some t => account_in t address
  end.

Definition get_account_state (block_number : Z) (address : list Z) :
    StoreM (option AccountState.t) :=
  block_hash ← get_canonical_block_hash block_number;
  match block_hash with
  | None => mret None
  | Some block_hash => get_account_state_by_hash block_hash address
  end.

Definition get_account_info_by_hash (block_hash address : list Z) :
    StoreM (option AccountInfo.t) :=
  account_state ← get_account_state_by_hash block_hash address;
  mret (match account_state with
        | None => None
        | Some a => Some {| AccountInfo.code_hash := AccountState.code_hash a;
                            AccountInfo.balance := AccountState.balance a;
                            AccountInfo.nonce := AccountState.nonce a |}
        end).

Definition get_account_info (block_number : Z) (address : list Z) :
    StoreM (option AccountInfo.t) :=
  block_hash ← get_canonical_block_hash block_number;
  match block_hash with
  | None => mret None
  | Some block_hash => get_account_info_by_hash block_hash address
  end.

Definition get_code_by_account_address (block_number : Z) (address : list Z) :
    StoreM (option (list Z)) :=
  account_state ← get_account_state block_number address;
  match account_state with
  | None => mret None
  | Some a => get_account_code (AccountState.code_hash a)
  end.

Definition get_nonce_by_account_address (block_number : Z) (address : list Z) :
    StoreM (option Z) :=
  account_state ← get_account_state block_number address;
  mret (match account_state with None => None | Some a => Some (AccountState.nonce a) end).

Definition storage_trie (block_hash address : list Z) : StoreM (option (Trie InMemoryTrieDB)) :=
  account ← get_account_state_by_hash block_hash address;
  match account with
  | None => mret None
  | Some account =>
      t ← open_storage_trie (hash_address address) (AccountState.storage_root account);
      mret (Some t)
  end.

Definition get_storage_at_hash (block_hash address storage_key : list Z) : StoreM (option Z) :=
  t ← storage_trie block_hash address;
  match t with
  | None => mret None
  | Some t =>
      rlp ← trie_result (trie_get t (hash_key storage_key));
      match rlp with
      | None => mret None
      | Some rlp =>
          v ← state_lift (map_err StoreRLPDecode (decode (T := u256) rlp));
          mret (Some v)
      end
  end.

Definition get_storage_at (block_number : Z) (address storage_key : list Z) :
    StoreM (option Z) :=
  block_hash ← get_canonical_block_hash block_number;
  match block_hash with
  | None => mret None
  | Some block_hash => get_storage_at_hash block_hash address storage_key
  end.

(** [for (storage_key, storage_value) in &update.added_storage]. *)
Fixpoint update_storage (slots : list (list Z * Z)) (t : Trie InMemoryTrieDB) :
    TrieResult (Trie InMemoryTrieDB) :=
  match slots with
  | [] => Ok t
  | (storage_key, storage_value) :: slots =>
      let hashed_key := hash_key storage_key in
      let '(r, t) :=
        if storage_value =? 0 then
          let '(r, t) := trie_remove hashed_key t in (_ ← r; Ok (), t)
        else trie_insert hashed_key (encode (storage_value : u256)) t in
      _ ← r;
      update_storage slots t
  end.

(** The trie is shared with the store: what [hash] commits is there. *)
Definition commit_storage_trie (hashed_address : list Z) (t : Trie InMemoryTrieDB) :
    StoreM (list Z) :=
  let '(r, t) := trie_hash t in
  _ ← on_engine (Engine.save_storage_trie hashed_address t);
  trie_result r.
Definition commit_state_trie (t : Trie InMemoryTrieDB) : StoreM (list Z) :=
  let '(r, t) := trie_hash t in
  _ ← on_engine (Engine.save_state_trie t);
  trie_result r.

(** The nonce, balance and code hash of [info], and the code into the store. *)
Definition update_info (update : AccountUpdate.t) (a : AccountState.t) : StoreM AccountState.t :=
  match AccountUpdate.info update with
  | None => mret a
  | Some info =>
      _ ← (match AccountUpdate.code update with
           | Some code => add_account_code (AccountInfo.code_hash info) code
           | None => mret ()
           end);
      mret {| AccountState.nonce := AccountInfo.nonce info;
              AccountState.balance := AccountInfo.balance info;
              AccountState.storage_root := AccountState.storage_root a;
              AccountState.code_hash := AccountInfo.code_hash info |}
  end.

(** The new storage root of an account. *)
Definition update_storage_root (hashed_address : list Z) (update : AccountUpdate.t)
    (a : AccountState.t) : StoreM AccountState.t :=
  match AccountUpdate.added_storage update with
  | [] => mret a
  | slots =>
      t ← open_storage_trie hashed_address (AccountState.storage_root a);
      t ← trie_result (update_storage slots t);
      storage_root ← commit_storage_trie hashed_address t;
      mret {| AccountState.nonce := AccountState.nonce a;
              AccountState.balance := AccountState.balance a;
              AccountState.storage_root := storage_root;
              AccountState.code_hash := AccountState.code_hash a |}
  end.

(** One round of the loop of [apply_account_updates]. *)
Definition apply_account_update (update : AccountUpdate.t) (state_trie : Trie InMemoryTrieDB) :
    StoreM (Trie InMemoryTrieDB) :=
  let hashed_address := hash_address (AccountUpdate.address update) in
  if AccountUpdate.removed update then
    let '(r, state_trie) := trie_remove hashed_address state_trie in
    _ ← trie_result r;
    mret state_trie
  else
    current ← account_in state_trie (AccountUpdate.address update);
    a ← update_info update (default account_state_default current);
    a ← update_storage_root hashed_address update a;
    let '(r, state_trie) := trie_insert hashed_address (encode a) state_trie in
    _ ← trie_result r;
    mret state_trie.

Fixpoint apply_updates (account_updates : list AccountUpdate.t)
    (state_trie : Trie InMemoryTrieDB) : StoreM (Trie InMemoryTrieDB) :=
  match account_updates with
  | [] => mret state_trie
  | update :: account_updates =>
      state_trie ← apply_account_update update state_trie;
      apply_updates account_updates state_trie
  end.

Definition apply_account_updates (block_hash : list Z) (account_updates : list AccountUpdate.t) :
    StoreM (option (list Z)) :=
  t ← state_trie block_hash;
  match t with
  | None => mret None
  | Some t =>
      t ← apply_updates account_updates t;
      root ← commit_state_trie t;
      mret (Some root)
  end.

(** *** Genesis *)

Fixpoint insert_slots (slots : list (list Z * Z)) (t : Trie InMemoryTrieDB) :
    TrieResult (Trie InMemoryTrieDB) :=
  match slots with
  | [] => Ok t
  | (storage_key, storage_value) :: slots =>
      if storage_value =? 0 then insert_slots slots t
      else
        let '(r, t) := trie_insert (hash_key storage_key) (encode (storage_value : u256)) t in
        _ ← r;
        insert_slots slots t
  end.

Fixpoint genesis_accounts (accounts : list (list Z * GenesisAccount.t))
    (genesis_state_trie : Trie InMemoryTrieDB) : StoreM (Trie InMemoryTrieDB) :=
  match accounts with
  | [] => mret genesis_state_trie
  | (address, account) :: accounts =>
      let hashed_address := hash_address address in
      let code_hash := code_hash (GenesisAccount.code account) in
      _ ← add_account_code code_hash (GenesisAccount.code account);
      t ← open_storage_trie hashed_address EMPTY_TRIE_HASH;
      t ← trie_result (insert_slots (GenesisAccount.storage account) t);
      storage_root ← commit_storage_trie hashed_address t;
      let account_state :=
        {| AccountState.nonce := GenesisAccount.nonce account;
           AccountState.balance := GenesisAccount.balance account;
           AccountState.storage_root := storage_root;
           AccountState.code_hash := code_hash |} in
      let '(r, genesis_state_trie) :=
        trie_insert hashed_address (encode account_state) genesis_state_trie in
      _ ← trie_result r;
      genesis_accounts accounts genesis_state_trie
  end.

Definition setup_genesis_state_trie (accounts : list (list Z * GenesisAccount.t)) :
    StoreM (list Z) :=
  t ← open_state_trie EMPTY_TRIE_HASH;
  t ← genesis_accounts accounts t;
  commit_state_trie t.

(** [+] on [U256] panics on overflow in every build. *)
Definition u256_add {E} (a b : Z) : Outcome E Z := unwrap (checked_add 256 a b).

Definition add_block (block : Block.t) : StoreM unit :=
  let header := Block.header block in
  let number := BlockHeader.number header in
  latest_total_difficulty ← get_latest_total_difficulty;
  block_total_difficulty ←
    state_lift (u256_add (default 0 latest_total_difficulty) (BlockHeader.difficulty header));
  let hash := compute_block_hash header in
  _ ← add_transaction_locations (BlockBody.transactions (Block.body block)) number hash;
  _ ← add_block_body hash (Block.body block);
  _ ← add_block_header hash header;
  _ ← add_block_number hash number;
  _ ← add_block_total_difficulty hash block_total_difficulty;
  update_latest_total_difficulty block_total_difficulty.

(** [debug_assert_eq] is compiled in the builds that check overflow. *)
Definition add_initial_state `{EthBloom} `{BuildProfile} (genesis : Genesis.t) : StoreM unit :=
  genesis_block ← trie_result (Chain.get_block genesis);
  let genesis_block_number := BlockHeader.number (Block.header genesis_block) in
  let genesis_hash := (block_hash genesis_block).1 in
  header ← get_block_header genesis_block_number;
  match header with
  | Some header =>
      if bytes_eqb (compute_block_hash header) genesis_hash then mret ()
      else state_lift Panic
  | None =>
      genesis_state_root ← setup_genesis_state_trie (Genesis.alloc genesis);
      _ ← state_lift
            (if overflow_checks
                && negb (bytes_eqb genesis_state_root
                           (BlockHeader.state_root (Block.header genesis_block)))
             then Panic else Ok ());
      _ ← add_block genesis_block;
      _ ← update_earliest_block_number genesis_block_number;
      _ ← update_latest_block_number genesis_block_number;
      _ ← set_canonical_block genesis_block_number genesis_hash;
      set_chain_config (Genesis.config genesis)
  end.

(** *** Proofs, iterators and trie nodes *)

Definition get_account_proof (block_number : Z) (address : list Z) :
    StoreM (option (list (list Z))) :=
  block_hash ← get_canonical_block_hash block_number;
  match block_hash with
  | None => mret None
  | Some block_hash =>
      t ← state_trie block_hash;
      match t with
      | None => mret None
      | Some t =>
          proof ← trie_result (get_proof t (hash_address address));
          mret (Some proof)
      end
  end.

Definition get_storage_proof (address storage_root storage_key : list Z) :
    StoreM (list (list Z)) :=
  t ← open_storage_trie (hash_address address) storage_root;
  trie_result (get_proof t (hash_key storage_key)).

(** [map_while] on the content of a trie: the first value that does not decode
    ends the iteration, a path that is not a hash panics. *)
Fixpoint map_while_decoded {V} (dec : list Z → Decoded V) (items : list (list Z * list Z)) :
    TrieResult (list (list Z * V)) :=
  match items with
  | [] => Ok []
  | (path, value) :: items =>
      if (length path =? 32)%nat then
        match dec value with
        | Ok v => rest ← map_while_decoded dec items; Ok ((path, v) :: rest)
        | Err _ => Ok []
        | Panic => Panic
        | NoFuel => NoFuel
        end
      else Panic
  end.

(** The iterators are lazy in the source; [fuel] bounds the nodes visited. *)
Definition trie_items {V} (dec : list Z → Decoded V) (fuel : nat) (t : Trie InMemoryTrieDB) :
    TrieResult (list (list Z * V)) :=
  items ← content fuel (iter_new t);
  map_while_decoded dec items.

Definition decode_slot (rlp : list Z) : Decoded Z := decode (T := u256) rlp.

Definition iter_accounts (fuel : nat) (state_root : list Z) :
    StoreM (list (list Z * AccountState.t)) :=
  t ← open_state_trie state_root;
  trie_result (trie_items (decode (T := AccountState.t)) fuel t).

Definition iter_storage (fuel : nat) (state_root hashed_address : list Z) :
    StoreM (option (list (list Z * Z))) :=
  t ← open_state_trie state_root;
  account_rlp ← trie_result (trie_get t hashed_address);
  match account_rlp with
  | None => mret None
  | Some account_rlp =>
      account ← decode_account account_rlp;
      t ← open_storage_trie hashed_address (AccountState.storage_root account);
      items ← trie_result (trie_items decode_slot fuel t);
      mret (Some items)
  end.

(** A proof of the first key of a range and, if there is one, of the last. *)
Definition range_proof (t : Trie InMemoryTrieDB) (starting_hash : list Z)
    (last_hash : option (list Z)) : StoreM (list (list Z)) :=
  proof ← trie_result (get_proof t starting_hash);
  match last_hash with
  | None => mret proof
  | Some last_hash =>
      last_proof ← trie_result (get_proof t last_hash);
      mret (proof ++ last_proof)
  end.

Definition get_account_range_proof (state_root starting_hash : list Z)
    (last_hash : option (list Z)) : StoreM (list (list Z)) :=
  t ← open_state_trie state_root;
  range_proof t starting_hash last_hash.

Definition get_storage_range_proof (state_root hashed_address starting_hash : list Z)
    (last_hash : option (list Z)) : StoreM (option (list (list Z))) :=
  t ← open_state_trie state_root;
  account_rlp ← trie_result (trie_get t hashed_address);
  match account_rlp with
  | None => mret None
  | Some account_rlp =>
      account ← decode_account account_rlp;
      t ← open_storage_trie hashed_address (AccountState.storage_root account);
      proof ← range_proof t starting_hash last_hash;
      mret (Some proof)
  end.

(** The loop of [get_trie_nodes] over the paths in a storage trie. *)
Fixpoint storage_nodes `{BuildProfile} (t : Trie InMemoryTrieDB) (byte_limit bytes_used : Z)
    (paths : list (list Z)) : StoreM (list (list Z)) :=
  match paths with
  | [] => mret []
  | path :: paths =>
      if byte_limit <=? bytes_used then mret []
      else
        node ← trie_result (trie_get_node t path);
        bytes_used ← state_lift (u_add 64 bytes_used (len node));
        nodes ← storage_nodes t byte_limit bytes_used paths;
        mret (node :: nodes)
  end.

Definition get_trie_nodes `{BuildProfile} (state_root : list Z) (paths : list (list Z))
    (byte_limit : Z) : StoreM (list (list Z)) :=
  match paths with
  | [] => mret []
  | account_path :: rest =>
      t ← open_state_trie state_root;
      match rest with
      | [] =>
          node ← trie_result (trie_get_node t account_path);
          mret [node]
      | _ =>
          rlp ← trie_result (trie_get t account_path);
          match rlp with
          | None => mret []
          | Some rlp =>
              account_state ← decode_account rlp;
              if (length account_path =? 32)%nat then
                t ← open_storage_trie account_path (AccountState.storage_root account_state);
                storage_nodes t byte_limit 0 rest
              else mret []
          end
      end
  end.
End store.
End Store.

Notation StoreM := (StateT Store.t StoreError).
