(* ===== verification/StoreLogic.v ===== *)
(** * Reasoning about operations on the store

    A specification of a stateful operation, its rules, and what the calls of
    the engine do. *)

From stdpp Require Import base option list numbers strings gmap.
From S2P Require Import Prelude Rlp LevmHost TrieNode Trie Tx BlockTypes Chain Store.

Local Open Scope Z_scope.

Create HintDb store.

(** ** Specifications *)

Section spec.
Context {S E : Type}.

(** The outcome and the state that an operation ends with satisfy [Q]. *)
Definition spec {A} (m : StateT S E A) (s : S) (Q : Outcome E A → S → Prop) : Prop :=
  Q (m s).1 (m s).2.

Lemma spec_run {A} (m : StateT S E A) s r s' Q : m s = (r, s') → Q r s' → spec m s Q.
Proof. intros Hm. unfold spec. by rewrite Hm. Qed.

Lemma spec_weaken {A} (m : StateT S E A) s (Q Q' : Outcome E A → S → Prop) :
  spec m s Q → (∀ r s', Q r s' → Q' r s') → spec m s Q'.
Proof. unfold spec. auto. Qed.

Lemma spec_bind {A B} (m : StateT S E A) (f : A → StateT S E B) s Q :
  spec m s (λ r s', match r with
                    | Ok a => spec (f a) s' Q
                    | Err e => Q (Err e) s'
                    | Panic => Q Panic s'
                    | NoFuel => Q NoFuel s'
                    end) →
  spec (m ≫= f) s Q.
Proof. unfold spec, mbind, state_bind. destruct (m s) as [[] s']; done. Qed.

Lemma spec_ret {A} (a : A) s (Q : Outcome E A → S → Prop) : Q (Ok a) s → spec (mret a) s Q.
Proof. done. Qed.

Lemma spec_lift {A} (m : Outcome E A) s (Q : Outcome E A → S → Prop) :
  Q m s → spec (state_lift m) s Q.
Proof. done. Qed.

Lemma bind_run {A B} (m : StateT S E A) (f : A → StateT S E B) s a s' :
  m s = (Ok a, s') → (m ≫= f) s = f a s'.
Proof. intros Hm. unfold mbind, state_bind. by rewrite Hm. Qed.

Lemma bind_run_err {A B} (m : StateT S E A) (f : A → StateT S E B) s e s' :
  m s = (Err e, s') → (m ≫= f) s = (Err e, s').
Proof. intros Hm. unfold mbind, state_bind. by rewrite Hm. Qed.

Lemma bind_Ok_inv {A B} (m : StateT S E A) (f : A → StateT S E B) s b s'' :
  (m ≫= f) s = (Ok b, s'') → ∃ a s', m s = (Ok a, s') ∧ f a s' = (Ok b, s'').
Proof. unfold mbind, state_bind. destruct (m s) as [[] s'] eqn:?; naive_solver. Qed.
End spec.

Lemma spec_map_err {S E F A} (f : E → F) (m : StateT S E A) s (Q : Outcome F A → S → Prop) :
  spec m s (λ r, Q (map_err f r)) → spec (state_map_err f m) s Q.
Proof. unfold spec, state_map_err. by destruct (m s). Qed.

Lemma map_err_run {S E F A} (f : E → F) (m : StateT S E A) s r s' :
  m s = (r, s') → state_map_err f m s = (map_err f r, s').
Proof. unfold state_map_err. by intros ->. Qed.

Lemma map_err_run_ok {S E F A} (f : E → F) (m : StateT S E A) s a s' :
  m s = (Ok a, s') → state_map_err f m s = (Ok a, s').
Proof. unfold state_map_err. by intros ->. Qed.

(** ** Operations that only read *)

Section read_only.
Context {S E : Type}.

Definition read_only {A} (m : StateT S E A) : Prop := ∀ s, (m s).2 = s.

Lemma read_only_run {A} (m : StateT S E A) s : read_only m → m s = ((m s).1, s).
Proof. intros Hm. rewrite <-(Hm s) at 3. by destruct (m s). Qed.

Lemma read_only_bind {A B} (m : StateT S E A) (f : A → StateT S E B) :
  read_only m → (∀ a, read_only (f a)) → read_only (m ≫= f).
Proof.
  intros Hm Hf s. unfold mbind, state_bind. specialize (Hm s).
  destruct (m s) as [[] s']; cbn in *; subst; [apply Hf|done..].
Qed.

Lemma read_only_ret {A} (a : A) : read_only (mret a : StateT S E A).
Proof. done. Qed.
Lemma read_only_lift {A} (m : Outcome E A) : read_only (state_lift m : StateT S E A).
Proof. done. Qed.
Lemma read_only_gets {A} (f : S → A) : read_only (state_gets f : StateT S E A).
Proof. done. Qed.
Lemma read_only_throw {A} (e : E) : read_only (state_throw e : StateT S E A).
Proof. done. Qed.
End read_only.

Lemma read_only_map_err {S E F A} (f : E → F) (m : StateT S E A) :
  read_only m → read_only (state_map_err f m).
Proof. intros Hm s. specialize (Hm s). unfold state_map_err. by destruct (m s). Qed.

#[export] Hint Resolve read_only_bind read_only_ret read_only_lift read_only_gets
  read_only_throw read_only_map_err : store.

(** ** Calls of the engine *)

Lemma set_engine_id s : Store.set_engine (Store.engine s) s = s.
Proof. by destruct s. Qed.

Lemma on_engine_gets {A} (f : StoreInner → A) s :
  Store.on_engine (state_gets f) s = (Ok (f (Store.engine s)), s).
Proof. unfold Store.on_engine. cbn. by rewrite set_engine_id. Qed.

Lemma on_engine_modify (f : StoreInner → StoreInner) s :
  Store.on_engine (state_modify f) s = (Ok tt, Store.set_engine (f (Store.engine s)) s).
Proof. done. Qed.

Lemma on_engine_read_only {A} (m : EngineM A) : read_only m → read_only (Store.on_engine m).
Proof.
  intros Hm s. unfold Store.on_engine. specialize (Hm (Store.engine s)).
  destruct (m (Store.engine s)) as [r e]. cbn in *. subst. apply set_engine_id.
Qed.
#[export] Hint Resolve on_engine_read_only : store.

(** Close a goal that an operation only reads, unfolding the operations. *)
Ltac head_of t := lazymatch t with ?f _ => head_of f | _ => t end.
Ltac read_only :=
  repeat match goal with
  | |- read_only (mbind _ _) => apply read_only_bind; [|intros ?]
  | |- read_only (match ?x with _ => _ end) => destruct x
  | |- read_only (state_map_err _ _) => apply read_only_map_err
  | |- read_only (Store.on_engine _) => apply on_engine_read_only
  | |- read_only (state_gets _) => apply read_only_gets
  | |- read_only (state_lift _) => apply read_only_lift
  | |- read_only (state_throw _) => apply read_only_throw
  | |- read_only (mret _) => apply read_only_ret
  | |- read_only (λ _, _) => intros ?; reflexivity
  | |- read_only ?m => let f := head_of m in progress unfold f
  end.
