(* ===== verification/Blockchain.v ===== *)
(** * Block import and fork choice

    crates/blockchain: adding a block to the store (blockchain.rs), choosing the
    canonical chain (fork_choice.rs) and their errors (error.rs).

    The execution of a block is that of the revm library, a parameter of the
    model: what it gives for a block on the state of its parent, or its error. *)

From stdpp Require Import base option list numbers strings pretty gmap.
From S2P Require Import Prelude Rlp LevmHost TrieNode Trie Tx BlockTypes Chain Store.

Local Open Scope Z_scope.

(** ** Constants (constants.rs) *)

Definition TX_GAS_COST : Z := 21000.
Definition TX_CREATE_GAS_COST : Z := 53000.
Definition TX_DATA_ZERO_GAS_COST : Z := 4.
Definition TX_INIT_CODE_WORD_GAS_COST : Z := 2.
Definition TX_ACCESS_LIST_ADDRESS_GAS : Z := 2400.
Definition TX_ACCESS_LIST_STORAGE_KEY_GAS : Z := 1900.
Definition TX_DATA_NON_ZERO_GAS : Z := 68.
Definition MAX_CODE_SIZE : Z := 0x6000.
Definition MAX_INITCODE_SIZE : Z := 2 * MAX_CODE_SIZE.
Definition TX_DATA_NON_ZERO_GAS_EIP2028 : Z := 16.
Definition GAS_PER_BLOB : Z := 2 ^ 17.
Definition TARGET_BLOB_GAS_PER_BLOCK : Z := 393216.
Definition TARGET_BLOB_NUMBER_PER_BLOCK : Z := 3.
Definition MAX_BLOB_NUMBER_PER_BLOCK : Z := 2 * TARGET_BLOB_NUMBER_PER_BLOCK.
Definition MAX_BLOB_GAS_PER_BLOCK : Z := MAX_BLOB_NUMBER_PER_BLOCK * GAS_PER_BLOB.
Definition MIN_BASE_FEE_PER_BLOB_GAS : Z := 1.
Definition GAS_LIMIT_BOUND_DIVISOR : Z := 1024.
Definition MIN_GAS_LIMIT : Z := 5000.

(** ** Errors (error.rs, and [EvmError] of crates/vm/errors.rs) *)

Inductive EvmError :=
| EvmTransaction (message : string)
| EvmHeader (message : string)
| EvmDB (e : StoreError)
| EvmCustom (message : string)
| EvmPrecompile (message : string).

Inductive InvalidBlockError :=
| StateRootMismatch
| ReceiptsRootMismatch
| InvalidHeader (e : InvalidBlockHeaderError)
| ExceededMaxBlobGasPerBlock
| ExceededMaxBlobNumberPerBlock
| GasUsedMismatch
| BlobGasUsedMismatch
| InvalidTransaction (message : string).

Inductive ChainError :=
| InvalidBlock (e : InvalidBlockError)
| ParentNotFound
| ParentStateNotFound
| ChainStoreError (e : StoreError)
| ChainEvmError (e : EvmError).

Inductive ForkChoiceElement := Head | Safe | Finalized.

Inductive InvalidForkChoice :=
| ForkChoiceStoreError (e : StoreError)
| Syncing
| InvalidHeadHash
| NewHeadAlreadyCanonical
| ElementNotFound (e : ForkChoiceElement)
| PreMergeBlock
| Unordered
| Disconnected (a b : ForkChoiceElement)
| InvalidHead.

Notation ChainM := (StateT Store.t ChainError).
Notation ForkChoiceM := (StateT Store.t InvalidForkChoice).
Notation ChainResult := (Outcome ChainError).

Definition chain_store {A} (m : StoreM A) : ChainM A := state_map_err ChainStoreError m.
Definition fc_store {A} (m : StoreM A) : ForkChoiceM A := state_map_err ForkChoiceStoreError m.

(** ** The execution of a block *)

(** What [execute_block] and [get_state_transitions] give for a block on the
    state after its parent. *)
Class Execution :=
  execute_block : Store.t → Block.t → Outcome EvmError (list Receipt.t * list AccountUpdate.t).

(** [spec_id] (crates/vm/vm.rs). *)
Inductive SpecId := CANCUN | SHANGHAI | MERGE.
Definition spec_id (chain_config : ChainConfig.t) (block_timestamp : Z) : SpecId :=
  match get_fork chain_config block_timestamp with
  | Fork.Cancun => CANCUN
  | Fork.Shanghai => SHANGHAI
  | Fork.Paris => MERGE
  end.

(** ** Block import (blockchain.rs) *)

Section blockchain.
Context `{Crypto} `{EthBloom} `{BuildProfile}.

Definition is_canonical (block_number : Z) (block_hash : list Z) : StoreM bool :=
  hash ← Store.get_canonical_block_hash block_number;
  mret (match hash with Some hash => bytes_eqb hash block_hash | None => false end).

Definition store_block (block : Block.t) : ChainM unit := chain_store (Store.add_block block).
Definition store_receipts (receipts : list Receipt.t) (block_hash : list Z) : ChainM unit :=
  chain_store (Store.add_receipts block_hash receipts).

Definition validate_state_root (block_header : BlockHeader.t) (new_state_root : list Z) :
    ChainResult unit :=
  if bytes_eqb new_state_root (BlockHeader.state_root block_header) then Ok tt
  else Err (InvalidBlock StateRootMismatch).

(** [compute_receipts_root] panics where the trie fails. *)
Definition root_or_panic {E} (m : TrieResult (list Z)) : Outcome E (list Z) :=
  match m with Ok root => Ok root | Err _ | Panic => Panic | NoFuel => NoFuel end.

Definition validate_receipts_root (block_header : BlockHeader.t) (receipts : list Receipt.t) :
    ChainResult unit :=
  receipts_root ← root_or_panic (compute_receipts_root receipts);
  if bytes_eqb receipts_root (BlockHeader.receipts_root block_header) then Ok tt
  else Err (InvalidBlock ReceiptsRootMismatch).

Definition latest_canonical_block_hash : ChainM (list Z) :=
  latest_block_number ← chain_store Store.get_latest_block_number;
  header ← chain_store (Store.get_block_header latest_block_number);
  match header with
  | Some latest_valid_header => mret (compute_block_hash latest_valid_header : list Z)
  | None => state_throw (ChainStoreError (StoreCustom "Could not find latest valid hash"))
  end.

Definition find_parent_header (block_header : BlockHeader.t) : ChainM BlockHeader.t :=
  parent ← chain_store (Store.get_block_header_by_hash (BlockHeader.parent_hash block_header));
  state_lift (ok_or parent ParentNotFound).

Definition get_total_blob_gas (tx : EIP4844Transaction.t) : ChainResult Z :=
  u_mul 64 GAS_PER_BLOB (len (EIP4844Transaction.blob_versioned_hashes tx)).

(** The gas and the number of the blobs of a list of transactions. *)
Fixpoint count_blobs (txs : list Transaction) (blob_gas_used blobs_in_block : Z) :
    ChainResult (Z * Z) :=
  match txs with
  | [] => Ok (blob_gas_used, blobs_in_block)
  | EIP4844Transaction tx :: txs =>
      gas ← get_total_blob_gas tx;
      blob_gas_used ← u_add 64 blob_gas_used gas;
      blobs_in_block ← u_add 64 blobs_in_block
                         (len (EIP4844Transaction.blob_versioned_hashes tx));
      count_blobs txs blob_gas_used blobs_in_block
  | _ :: txs => count_blobs txs blob_gas_used blobs_in_block
  end.

Definition verify_blob_gas_usage (block : Block.t) : ChainResult unit :=
  '(blob_gas_used, blobs_in_block) ←
    count_blobs (BlockBody.transactions (Block.body block)) 0 0;
  _ ← reject_if (MAX_BLOB_GAS_PER_BLOCK <? blob_gas_used)
        (InvalidBlock ExceededMaxBlobGasPerBlock);
  _ ← reject_if (MAX_BLOB_NUMBER_PER_BLOCK <? blobs_in_block)
        (InvalidBlock ExceededMaxBlobNumberPerBlock);
  reject_if (match BlockHeader.blob_gas_used (Block.header block) with
             | Some header_blob_gas_used => negb (header_blob_gas_used =? blob_gas_used)
             | None => false
             end) (InvalidBlock BlobGasUsedMismatch).

Definition invalid_header (e : InvalidBlockHeaderError) : ChainError :=
  InvalidBlock (InvalidHeader e).

Definition validate_block (block : Block.t) (parent_header : BlockHeader.t) : ChainM unit :=
  config ← state_map_err (λ e, ChainEvmError (EvmDB e)) Store.get_chain_config;
  let spec := spec_id config (BlockHeader.timestamp (Block.header block)) in
  _ ← state_lift (map_err invalid_header (validate_block_header (Block.header block) parent_header));
  state_lift
    (match spec with
     | CANCUN =>
         _ ← map_err invalid_header
               (validate_cancun_header_fields (Block.header block) parent_header);
         verify_blob_gas_usage block
     | _ => map_err invalid_header (validate_no_cancun_header_fields (Block.header block))
     end).

Definition validate_gas_used (receipts : list Receipt.t) (block_header : BlockHeader.t) :
    ChainResult unit :=
  match last receipts with
  | Some last =>
      if Receipt.cumulative_gas_used last =? BlockHeader.gas_used block_header then Ok tt
      else Err (InvalidBlock GasUsedMismatch)
  | None => Ok tt
  end.

(** A missing parent is not an error of the search but its result. *)
Definition parent_or_pending (block : Block.t) : ChainM BlockHeader.t := λ s,
  match find_parent_header (Block.header block) s with
  | (Err _, s) =>
      (_ ← chain_store (Store.add_pending_block block);
       state_throw ParentNotFound) s
  | r => r
  end.

Definition run_block `{Execution} (block : Block.t) :
    ChainM (list Receipt.t * list AccountUpdate.t) := λ s,
  (map_err ChainEvmError (execute_block s block), s).

Definition add_block `{Execution} (block : Block.t) : ChainM unit :=
  let header := Block.header block in
  let block_hash := compute_block_hash header in
  parent_header ← parent_or_pending block;
  _ ← validate_block block parent_header;
  '(receipts, account_updates) ← run_block block;
  _ ← state_lift (validate_gas_used receipts header);
  new_state_root ← chain_store
    (Store.apply_account_updates (BlockHeader.parent_hash header) account_updates);
  new_state_root ← state_lift (ok_or new_state_root ParentStateNotFound);
  _ ← state_lift (validate_state_root header new_state_root);
  _ ← state_lift (validate_receipts_root header receipts);
  _ ← store_block block;
  store_receipts receipts block_hash.
End blockchain.

(** ** Fork choice (fork_choice.rs) *)

Section fork_choice.
Context `{Crypto} `{BuildProfile}.

(** [H256::is_zero]. *)
Definition is_zero (hash : list Z) : bool := forallb (λ b, b =? 0) hash.

Definition check_order (block_1 block_2 : option Block.t) : Outcome InvalidForkChoice unit :=
  match block_1, block_2 with
  | None, Some _ => Err (ElementNotFound Finalized)
  | Some b1, Some b2 =>
      if BlockHeader.number (Block.header b2) <? BlockHeader.number (Block.header b1)
      then Err Unordered else Ok tt
  | _, _ => Err Syncing
  end.

(** The loop of [find_link_with_canonical_chain]; [branch] grows at its end. *)
Fixpoint find_link_loop (fuel : nat) (genesis_number block_number : Z) (header : BlockHeader.t)
    (branch : list (Z * list Z)) : StoreM (option (list (Z * list Z))) :=
  if block_number <=? genesis_number then mret None
  else
    match fuel with
    | O => state_lift NoFuel
    | S fuel =>
        let block_number := block_number - 1 in
        let parent_hash : list Z := BlockHeader.parent_hash header in
        parent_header ← Store.get_block_header_by_hash parent_hash;
        match parent_header with
        | None => mret None
        | Some parent_header =>
            canonical ← is_canonical block_number parent_hash;
            if canonical : bool then mret (Some branch)
            else
              find_link_loop fuel genesis_number block_number parent_header
                (branch ++ [(block_number, parent_hash)])
        end
    end.

(** The block number decreases to that of the genesis block. *)
Definition find_link_with_canonical_chain (block : BlockHeader.t) :
    StoreM (option (list (Z * list Z))) :=
  let block_number := BlockHeader.number block in
  canonical ← is_canonical block_number (compute_block_hash block);
  if canonical : bool then mret (Some [])
  else
    genesis_number ← Store.get_earliest_block_number;
    find_link_loop (Z.to_nat (block_number - genesis_number)) genesis_number block_number block [].

Definition total_difficulty_check (head_block_hash : list Z) (head_block : BlockHeader.t) :
    ForkChoiceM unit :=
  if (BlockHeader.difficulty head_block =? 0) && negb (BlockHeader.number head_block =? 0)
  then mret tt
  else
    total_difficulty ← fc_store (Store.get_block_total_difficulty head_block_hash);
    total_difficulty ← state_lift (ok_or total_difficulty
      (ForkChoiceStoreError (StoreCustom "Block difficulty not found for head block")));
    config ← fc_store Store.get_chain_config;
    terminal_total_difficulty ← state_lift (ok_or (ChainConfig.terminal_total_difficulty config)
      (ForkChoiceStoreError (StoreCustom "Terminal total difficulty not found in chain config")));
    if total_difficulty <? terminal_total_difficulty then state_throw PreMergeBlock
    else if BlockHeader.number head_block =? 0 then mret tt
    else
      parent_total_difficulty ← fc_store
        (Store.get_block_total_difficulty (BlockHeader.parent_hash head_block));
      parent_total_difficulty ← state_lift (ok_or parent_total_difficulty
        (ForkChoiceStoreError (StoreCustom "Block difficulty not found for parent block")));
      if terminal_total_difficulty <=? parent_total_difficulty then
        state_throw (ForkChoiceStoreError
          (StoreCustom "Parent block is already post terminal total difficulty"))
      else mret tt.

(** A hash of zero stands for no block. *)
Definition block_of_hash (hash : list Z) : ForkChoiceM (option Block.t) :=
  if is_zero hash then mret None else fc_store (Store.get_block_by_hash hash).

(** The test on the finalized and on the safe block: part of the new chain. *)
Definition check_connected (element : ForkChoiceElement) (head : BlockHeader.t)
    (head_hash : list Z) (link_block_number : Z) (new_canonical_blocks : list (Z * list Z))
    (hash : list Z) (block : option Block.t) : ForkChoiceM unit :=
  match block with
  | None => mret tt
  | Some block =>
      let number : Z := BlockHeader.number (Block.header block) in
      canonical ← fc_store (is_canonical number hash);
      if (canonical && (number <=? link_block_number))
         || ((number =? BlockHeader.number head) && bytes_eqb hash head_hash)
         || bool_decide ((number, hash) ∈ new_canonical_blocks)
      then mret tt
      else state_throw (Disconnected Head element)
  end.

Fixpoint set_canonical_blocks (blocks : list (Z * list Z)) : StoreM unit :=
  match blocks with
  | [] => mret tt
  | (number, hash) :: blocks =>
      _ ← Store.set_canonical_block number hash;
      set_canonical_blocks blocks
  end.

Fixpoint unset_canonical_blocks (numbers : list Z) : StoreM unit :=
  match numbers with
  | [] => mret tt
  | number :: numbers =>
      _ ← Store.unset_canonical_block number;
      unset_canonical_blocks numbers
  end.

(** The updates, once every check has passed. *)
Definition update_chain (head : BlockHeader.t) (head_hash : list Z)
    (new_canonical_blocks : list (Z * list Z)) (latest : Z)
    (finalized safe : option Block.t) : StoreM unit :=
  _ ← set_canonical_blocks new_canonical_blocks;
  first ← state_lift (u_add 64 (BlockHeader.number head) 1);
  stop ← state_lift (u_add 64 latest 1);
  _ ← unset_canonical_blocks (seqZ first (stop - first));
  _ ← Store.set_canonical_block (BlockHeader.number head) head_hash;
  _ ← (match finalized with
       | Some b => Store.update_finalized_block_number (BlockHeader.number (Block.header b))
       | None => mret tt
       end);
  _ ← (match safe with
       | Some b => Store.update_safe_block_number (BlockHeader.number (Block.header b))
       | None => mret tt
       end);
  Store.update_latest_block_number (BlockHeader.number head).

Definition apply_fork_choice (head_hash safe_hash finalized_hash : list Z) :
    ForkChoiceM BlockHeader.t :=
  if is_zero head_hash then state_throw InvalidHeadHash
  else
    finalized_res ← block_of_hash finalized_hash;
    safe_res ← block_of_hash safe_hash;
    head_res ← fc_store (Store.get_block_by_hash head_hash);
    _ ← state_lift (if is_zero safe_hash then Ok tt else check_order safe_res head_res);
    _ ← state_lift (if is_zero finalized_hash || is_zero safe_hash then Ok tt
                    else check_order finalized_res safe_res);
    match head_res with
    (* a pending head is only logged *)
    | None => state_throw Syncing
    | Some head_block =>
        let head := Block.header head_block in
        _ ← total_difficulty_check head_hash head;
        latest ← fc_store Store.get_latest_block_number;
        canonical ← fc_store (is_canonical (BlockHeader.number head) head_hash);
        if canonical && (BlockHeader.number head <? latest)
        then state_throw NewHeadAlreadyCanonical
        else
          link ← fc_store (find_link_with_canonical_chain head);
          match link with
          | None => state_throw (Disconnected Head Safe)
          | Some new_canonical_blocks =>
              let link_block_number :=
                match last new_canonical_blocks with
                | Some (number, _) => number
                | None => BlockHeader.number head
                end in
              _ ← check_connected Finalized head head_hash link_block_number
                    new_canonical_blocks finalized_hash finalized_res;
              _ ← check_connected Safe head head_hash link_block_number
                    new_canonical_blocks safe_hash safe_res;
              _ ← fc_store (update_chain head head_hash new_canonical_blocks latest
                              finalized_res safe_res);
              mret head
          end
    end.
End fork_choice.
