(* ===== verification/ForkChoice.v ===== *)
(** * Correctness of fork choice

    The canonical chain is a chain: every canonical block is stored, has the
    number it is canonical at, and its parent is canonical one below.  Fork
    choice keeps that and makes the head and its ancestors canonical. *)

From stdpp Require Import base option list numbers strings gmap.
From S2P Require Import Prelude Rlp RlpProofs RlpStruct LevmHost LevmDemo TrieNode Trie Tx.
From S2P Require Import BlockTypes Chain ChainProofs Store StoreLogic Blockchain.

Local Open Scope Z_scope.

(** ** The canonical chain *)

Section chain.
Variables (H : gmap (list Z) BlockHeader.t) (g : Z).

(** The block at a number, with its parent one below. *)
Definition linked (C : gmap Z (list Z)) (n : Z) : Prop :=
  ∃ hash header, C !! n = Some hash ∧ H !! hash = Some header ∧ BlockHeader.number header = n ∧
    (g < n → C !! (n - 1) = Some (BlockHeader.parent_hash header : list Z)).

Definition linked_below (C : gmap Z (list Z)) (m : Z) : Prop :=
  ∀ n, g ≤ n < m → is_Some (C !! n) → linked C n.

Lemma linked_ext C C' n :
  C !! n = C' !! n → C !! (n - 1) = C' !! (n - 1) → linked C n → linked C' n.
Proof. intros E1 E2 (h & x & Hh & Hx & Hn & Hp). exists h, x. by rewrite <-E1, <-E2. Qed.

(** A linked block below which all is linked has all its ancestors. *)
Lemma linked_down C m :
  linked_below C m → is_Some (C !! (m - 1)) → ∀ n, g ≤ n < m → linked C n.
Proof.
  intros Hb Hm n Hn. remember (Z.to_nat (m - 1 - n)) as k eqn:Hk.
  assert (n = m - 1 - Z.of_nat k) as -> by lia. clear Hk. induction k as [|k IH].
  - apply Hb; [lia|]. by rewrite Z.sub_0_r.
  - destruct IH as (h & x & Hh & Hx & Hnum & Hp); [lia|]. apply Hb; [lia|].
    exists (BlockHeader.parent_hash x). rewrite <-Hp by lia. f_equal. lia.
Qed.

(** The blocks that the search collects on its way from a header down to the
    canonical chain. *)
Fixpoint branch_of (C : gmap Z (list Z)) (header : BlockHeader.t) (branch : list (Z * list Z)) :
    Prop :=
  match branch with
  | [] => C !! (BlockHeader.number header - 1) = Some (BlockHeader.parent_hash header : list Z)
  | (n, hash) :: branch =>
      n = BlockHeader.number header - 1 ∧ hash = BlockHeader.parent_hash header ∧ g ≤ n ∧
      ∃ parent, H !! hash = Some parent ∧ BlockHeader.number parent = n ∧
        branch_of C parent branch
  end.

Lemma branch_of_ext C C' branch : ∀ header,
  (∀ n, n < BlockHeader.number header → C !! n = C' !! n) →
  branch_of C header branch → branch_of C' header branch.
Proof.
  induction branch as [|[n h] branch IH]; intros header HC; cbn.
  - rewrite HC by lia. done.
  - intros (-> & -> & Hg & p & Hp & Hn & Hb). split_and!; try done. exists p.
    split_and!; try done. apply IH; [|done]. intros m Hm. apply HC. lia.
Qed.

Definition with_blocks (C : gmap Z (list Z)) (blocks : list (Z * list Z)) : gmap Z (list Z) :=
  foldl (λ C '(n, hash), <[n := hash]> C) C blocks.

(** Making the branch canonical links all ancestors of the header. *)
Lemma branch_linked branch : ∀ C header,
  linked_below C (BlockHeader.number header) → branch_of C header branch →
  let C' := with_blocks C branch in
  (∀ n, g ≤ n < BlockHeader.number header → linked C' n) ∧
  C' !! (BlockHeader.number header - 1) = Some (BlockHeader.parent_hash header : list Z) ∧
  (∀ n, BlockHeader.number header ≤ n ∨ n < g → C' !! n = C !! n).
Proof.
  induction branch as [|[n h] branch IH]; intros C header Hl Hb; cbn in Hb |- *.
  - split_and!; try done. eapply linked_down; [done|]. by rewrite Hb.
  - destruct Hb as (-> & -> & Hg & p & Hp & Hn & Hb).
    set (k := BlockHeader.number header) in *.
    set (C1 := <[k - 1 := (BlockHeader.parent_hash header : list Z)]> C).
    assert (∀ m, m < k - 1 → C !! m = C1 !! m) as HC
      by (intros m Hm; unfold C1; by rewrite lookup_insert_ne by lia).
    destruct (IH C1 p) as (Hlink & Hpar & Hsame).
    { rewrite Hn. intros m Hm Hs. eapply linked_ext, Hl; [by apply HC; lia| |lia|].
      - apply HC; lia.
      - by rewrite HC by lia. }
    { apply (branch_of_ext C); [|done]. rewrite Hn. exact HC. }
    rewrite Hn in *. fold (with_blocks C1 branch).
    assert (with_blocks C1 branch !! (k - 1) = Some (BlockHeader.parent_hash header : list Z)) as Ht
      by (rewrite Hsame by lia; unfold C1; by rewrite lookup_insert_eq).
    split_and!; [|done|].
    + intros m Hm. destruct (decide (m = k - 1)) as [->|]; [|apply Hlink; lia].
      exists (BlockHeader.parent_hash header), p. by split_and!.
    + intros m Hm. rewrite Hsame by lia. unfold C1. by rewrite lookup_insert_ne by lia.
Qed.

(** The canonical chain from [g] to [l]. *)
Definition chain_of (C : gmap Z (list Z)) (l : Z) : Prop :=
  (∀ n, g ≤ n ≤ l → linked C n) ∧ (∀ n, n < g ∨ l < n → C !! n = None).

Lemma chain_of_linked_below C l m : chain_of C l → linked_below C m.
Proof.
  intros [Hl Hn] n Hr [h Hh]. apply Hl. destruct (decide (n ≤ l)); [lia|].
  rewrite Hn in Hh by lia. done.
Qed.

(** Cut the chain above a number and put a block on top. *)
Lemma chain_of_extend C C' l header hash :
  chain_of C l → g ≤ BlockHeader.number header → H !! hash = Some header →
  let k : Z := BlockHeader.number header in
  (∀ n, g ≤ n < k → linked C' n) →
  (g < k → C' !! (k - 1) = Some (BlockHeader.parent_hash header : list Z)) →
  (∀ n, k ≤ n ∨ n < g → C' !! n = C !! n) →
  ∀ C'', (∀ n, n < k → C'' !! n = C' !! n) → C'' !! k = Some hash →
  (∀ n, k < n ≤ l → C'' !! n = None) → (∀ n, k < n → l < n → C'' !! n = C' !! n) →
  chain_of C'' k.
Proof.
  intros [Hl Hn] Hg Hh k Hlow Hpar Hsame C'' Hlt Heq Hcut Habove. split.
  - intros n Hr. destruct (decide (n = k)) as [->|].
    + exists hash, header. split_and!; try done. intros. rewrite Hlt by lia. by apply Hpar.
    + eapply linked_ext, Hlow; [symmetry; apply Hlt; lia..|lia].
  - intros n Hr. destruct (decide (k < n)).
    + destruct (decide (n ≤ l)); [apply Hcut; lia|]. rewrite Habove, Hsame by lia. apply Hn; lia.
    + rewrite Hlt, Hsame by lia. apply Hn. lia.
Qed.
End chain.

(** ** The store *)

Section fork_choice.
Context `{Crypto} `{BuildProfile}.

(** A store whose chain goes from the block [g] to the block [l]: headers are
    stored under their hash and count up from their parents. *)
Record store_ok (g l : Z) (s : Store.t) : Prop := {
  so_earliest : ChainData.earliest_block_number (chain_data (Store.engine s)) = Some g;
  so_latest : ChainData.latest_block_number (chain_data (Store.engine s)) = Some l;
  so_order : g ≤ l;
  so_hash : ∀ hash header,
    headers (Store.engine s) !! hash = Some header → compute_block_hash header = hash;
  so_parent : ∀ hash header parent,
    headers (Store.engine s) !! hash = Some header →
    headers (Store.engine s) !! (BlockHeader.parent_hash header : list Z) = Some parent →
    BlockHeader.number header = BlockHeader.number parent + 1;
  so_range : ∀ hash header,
    headers (Store.engine s) !! hash = Some header → in_u 64 (BlockHeader.number header + 1);
  so_chain : chain_of (headers (Store.engine s)) g (canonical_hashes (Store.engine s)) l;
  so_config : ChainData.chain_config (chain_data (Store.engine s)) ≠ None;
}.

Lemma fc_store_run {A} (m : StoreM A) s a s' : m s = (Ok a, s') → fc_store m s = (Ok a, s').
Proof. apply map_err_run_ok. Qed.

Lemma is_canonical_run n hash s :
  is_canonical n hash s =
    (Ok (bool_decide (canonical_hashes (Store.engine s) !! n = Some hash)), s).
Proof.
  unfold is_canonical, Store.get_canonical_block_hash, Engine.get_canonical_block_hash.
  rewrite (bind_run _ _ _ _ _ (on_engine_gets _ s)). unfold mret, state_ret. f_equal. f_equal.
  unfold bytes_eqb. destruct (_ !! n) as [h|]; [apply bool_decide_ext; naive_solver|by rewrite bool_decide_false].
Qed.

Lemma find_link_loop_spec g l s fuel : store_ok g l s →
  ∀ header hash block_number branch,
  headers (Store.engine s) !! hash = Some header → block_number = BlockHeader.number header →
  (Z.to_nat (block_number - g) ≤ fuel)%nat →
  ∃ r, find_link_loop fuel g block_number header branch s = (Ok r, s) ∧
    ∀ blocks, r = Some blocks → g < block_number ∧
      ∃ ext, blocks = branch ++ ext ∧
        branch_of (headers (Store.engine s)) g (canonical_hashes (Store.engine s)) header ext.
Proof.
  intros Hok. induction fuel as [|fuel IH]; intros header hash bn branch Hh -> Hf; cbn;
    (destruct (_ <=? g) eqn:Eg; propify; [by exists None|]); [lia|].
  unfold Store.get_block_header_by_hash, Engine.get_block_header_by_hash.
  rewrite (bind_run _ _ _ _ _ (on_engine_gets _ s)).
  destruct (headers (Store.engine s) !! (BlockHeader.parent_hash header : list Z))
    as [parent|] eqn:Hp; [|by exists None].
  rewrite (bind_run _ _ _ _ _ (is_canonical_run _ _ s)).
  pose proof (so_parent g l s Hok hash header parent Hh Hp) as Hn.
  case_bool_decide as Hc.
  - exists (Some branch). split; [done|]. intros blocks [= <-]. split; [done|].
    exists []. by rewrite app_nil_r.
  - destruct (IH parent _ (BlockHeader.number header - 1)
      (branch ++ [(BlockHeader.number header - 1, BlockHeader.parent_hash header : list Z)]) Hp)
      as (r & Hr & Hb); [lia..|].
    exists r. split; [done|]. intros blocks Hbl. destruct (Hb blocks Hbl) as (Hg & ext & -> & Hext).
    split; [done|]. eexists. split; [by rewrite <-app_assoc|]. cbn.
    split_and!; try done; [lia|]. exists parent. split_and!; [done|lia|done].
Qed.

(** The search ends; what it finds leads from the head to the chain. *)
Lemma find_link_spec g l s header hash :
  store_ok g l s → headers (Store.engine s) !! hash = Some header →
  ∃ r, find_link_with_canonical_chain header s = (Ok r, s) ∧
    ∀ blocks, r = Some blocks →
      (blocks = [] ∧ canonical_hashes (Store.engine s) !! (BlockHeader.number header : Z) = Some hash)
      ∨ (g < BlockHeader.number header ∧
         branch_of (headers (Store.engine s)) g (canonical_hashes (Store.engine s)) header blocks).
Proof.
  intros Hok Hh. unfold find_link_with_canonical_chain.
  rewrite (bind_run _ _ _ _ _ (is_canonical_run _ _ s)). rewrite (so_hash g l s Hok _ _ Hh).
  case_bool_decide as Hc.
  { exists (Some []). split; [done|]. intros blocks [= <-]. by left. }
  assert (Store.get_earliest_block_number s = (Ok g, s)) as He.
  { unfold Store.get_earliest_block_number, Engine.get_earliest_block_number.
    rewrite (bind_run _ _ _ _ _ (on_engine_gets _ s)). unfold state_lift.
    by rewrite (so_earliest g l s Hok). }
  rewrite (bind_run _ _ _ _ _ He).
  destruct (find_link_loop_spec g l s (Z.to_nat (BlockHeader.number header - g)) Hok header hash
    _ [] Hh eq_refl (reflexivity _)) as (r & Hr & Hb).
  exists r. split; [done|]. intros blocks Hbl. destruct (Hb blocks Hbl) as (Hg & ext & -> & Hext).
  by right.
Qed.

(** A store with another canonical chain and other chain data. *)
Definition chain_state (C : gmap Z (list Z)) (D : ChainData.t) (s : Store.t) : Store.t :=
  Store.set_engine (set_chain_data D (set_canonical_hashes C (Store.engine s))) s.

Lemma chain_state_id s :
  chain_state (canonical_hashes (Store.engine s)) (chain_data (Store.engine s)) s = s.
Proof. by destruct s as [[] ? ?]. Qed.

Lemma set_canonical_blocks_run blocks : ∀ C D s,
  set_canonical_blocks blocks (chain_state C D s) =
    (Ok tt, chain_state (with_blocks C blocks) D s).
Proof.
  induction blocks as [|[n h] blocks IH]; intros C D s; [done|].
  cbn [set_canonical_blocks]. erewrite bind_run; [|apply on_engine_modify].
  pose (C' := <[n := h]> C : gmap Z (list Z)). exact (IH C' D s).
Qed.

Definition without_blocks (C : gmap Z (list Z)) (numbers : list Z) : gmap Z (list Z) :=
  foldl (λ C n, delete n C) C numbers.

Lemma unset_canonical_blocks_run numbers : ∀ C D s,
  unset_canonical_blocks numbers (chain_state C D s) =
    (Ok tt, chain_state (without_blocks C numbers) D s).
Proof.
  induction numbers as [|n numbers IH]; intros C D s; [done|].
  cbn [unset_canonical_blocks]. erewrite bind_run; [|apply on_engine_modify].
  pose (C' := delete n C : gmap Z (list Z)). exact (IH C' D s).
Qed.

Lemma without_blocks_lookup numbers : ∀ C n,
  without_blocks C numbers !! n = if decide (n ∈ numbers) then None else C !! n.
Proof.
  induction numbers as [|m numbers IH]; intros C n; cbn; [done|].
  fold (without_blocks (delete m C) numbers). rewrite IH.
  destruct (decide (n ∈ numbers)), (decide (n ∈ m :: numbers)) as [Hin|Hin]; try done.
  - destruct Hin. by right.
  - apply elem_of_cons in Hin as [->|]; [by rewrite lookup_delete_eq|done].
  - rewrite lookup_delete_ne; [done|]. intros ->. destruct Hin. by left.
Qed.

(** The chain data after the updates. *)
Definition new_chain_data (head : BlockHeader.t) (finalized safe : option Block.t)
    (D : ChainData.t) : ChainData.t :=
  let D := match finalized with
           | Some b => ChainData.set_finalized_block_number
                         (Some (BlockHeader.number (Block.header b))) D
           | None => D
           end in
  let D := match safe with
           | Some b => ChainData.set_safe_block_number
                         (Some (BlockHeader.number (Block.header b))) D
           | None => D
           end in
  ChainData.set_latest_block_number (Some (BlockHeader.number head)) D.

Definition new_canonical (C : gmap Z (list Z)) (head : BlockHeader.t) (head_hash : list Z)
    (blocks : list (Z * list Z)) (latest : Z) : gmap Z (list Z) :=
  let k : Z := BlockHeader.number head in
  <[k := head_hash]> (without_blocks (with_blocks C blocks) (seqZ (k + 1) (latest - k))).

Lemma update_chain_run head head_hash blocks latest finalized safe s :
  in_u 64 (BlockHeader.number head + 1) → in_u 64 (latest + 1) →
  update_chain head head_hash blocks latest finalized safe s =
    (Ok tt,
     chain_state
       (new_canonical (canonical_hashes (Store.engine s)) head head_hash blocks latest)
       (new_chain_data head finalized safe (chain_data (Store.engine s))) s).
Proof.
  intros Hk Hl. rewrite <-(chain_state_id s) at 1. unfold update_chain.
  rewrite (bind_run _ _ _ _ _ (set_canonical_blocks_run _ _ _ s)).
  unfold u_add. rewrite !in_width_fits by done.
  do 2 (erewrite bind_run; [|reflexivity]).
  rewrite (bind_run _ _ _ _ _ (unset_canonical_blocks_run _ _ _ s)).
  erewrite bind_run; [|apply on_engine_modify].
  unfold new_canonical. replace (latest + 1 - (BlockHeader.number head + 1))
    with (latest - BlockHeader.number head) by lia.
  by destruct finalized, safe.
Qed.

(** ** The new chain *)

Lemma branch_lookup Hd g branch : ∀ C header n hash,
  branch_of Hd g C header branch → (n, hash) ∈ branch →
  n < BlockHeader.number header ∧ with_blocks C branch !! n = Some hash.
Proof.
  induction branch as [|[m h] branch IH]; intros C header n hash Hb; [by intros ?%not_elem_of_nil|].
  destruct Hb as (-> & -> & Hg & p & Hp & Hn & Hb).
  assert (∀ (C : gmap Z (list Z)), branch_of Hd g C p branch →
    ∀ n, BlockHeader.number p ≤ n → with_blocks C branch !! n = C !! n) as Hsame.
  { clear. revert p. induction branch as [|[m h] branch IH]; intros p C Hb n Hn; [done|].
    destruct Hb as (-> & -> & Hg & q & Hq & Hnq & Hb). cbn.
    fold (with_blocks (<[BlockHeader.number p - 1 := BlockHeader.parent_hash p : list Z]> C) branch).
    rewrite (IH q) by (lia || (eapply branch_of_ext; [|done]; intros; by rewrite lookup_insert_ne by lia)).
    by rewrite lookup_insert_ne by lia. }
  set (C1 := <[BlockHeader.number header - 1 := (BlockHeader.parent_hash header : list Z)]> C).
  assert (branch_of Hd g C1 p branch) as Hb1.
  { eapply branch_of_ext; [|done]. intros. unfold C1. by rewrite lookup_insert_ne by lia. }
  cbn. fold C1. fold (with_blocks C1 branch). intros [[= -> ->]|Hin]%elem_of_cons.
  - split; [lia|]. rewrite Hsame by (done || lia). unfold C1. by rewrite lookup_insert_eq.
  - destruct (IH C1 p n hash Hb1 Hin). split; [lia|done].
Qed.

(** Below the last block of a branch nothing changes. *)
Definition link_number (head : BlockHeader.t) (blocks : list (Z * list Z)) : Z :=
  match last blocks with Some (number, _) => number | None => BlockHeader.number head end.

Lemma branch_low Hd g branch : ∀ C header n,
  branch_of Hd g C header branch → n < link_number header branch →
  with_blocks C branch !! n = C !! n ∧ n < BlockHeader.number header.
Proof.
  induction branch as [|[m h] branch IH]; intros C header n Hb Hn; [done|].
  destruct Hb as (-> & -> & Hg & p & Hp & Hnum & Hb). cbn.
  set (C1 := <[BlockHeader.number header - 1 := (BlockHeader.parent_hash header : list Z)]> C).
  fold (with_blocks C1 branch).
  destruct (IH C1 p n) as [Hw Hlt].
  - eapply branch_of_ext; [|done]. intros. unfold C1. by rewrite lookup_insert_ne by lia.
  - unfold link_number in *. rewrite last_cons in Hn. destruct (last branch) as [[]|]; [done|lia].
  - rewrite Hw. unfold C1. split; [|lia]. by rewrite lookup_insert_ne by lia.
Qed.

(** What [find_link_with_canonical_chain] gives for a head that is not below
    the latest block. *)
Definition new_branch (g l : Z) (s : Store.t) (head : BlockHeader.t) (head_hash : list Z)
    (blocks : list (Z * list Z)) : Prop :=
  (blocks = [] ∧ canonical_hashes (Store.engine s) !! (BlockHeader.number head : Z) = Some head_hash
   ∧ l ≤ BlockHeader.number head)
  ∨ (g < BlockHeader.number head ∧
     branch_of (headers (Store.engine s)) g (canonical_hashes (Store.engine s)) head blocks).

Lemma new_canonical_low C head head_hash blocks latest n :
  n < BlockHeader.number head →
  new_canonical C head head_hash blocks latest !! n = with_blocks C blocks !! n.
Proof.
  intros Hn. unfold new_canonical. rewrite lookup_insert_ne by lia.
  rewrite without_blocks_lookup, decide_False; [done|]. rewrite elem_of_seqZ. lia.
Qed.

Lemma new_chain_ok g l s head head_hash blocks :
  store_ok g l s → headers (Store.engine s) !! head_hash = Some head →
  new_branch g l s head head_hash blocks →
  chain_of (headers (Store.engine s)) g
    (new_canonical (canonical_hashes (Store.engine s)) head head_hash blocks l)
    (BlockHeader.number head).
Proof.
  intros Hok Hh Hb. set (C := canonical_hashes (Store.engine s)) in *.
  pose proof (so_chain g l s Hok) as Hc. fold C in Hc.
  assert (g ≤ BlockHeader.number head ∧
    (∀ n, g ≤ n < BlockHeader.number head →
       linked (headers (Store.engine s)) g (with_blocks C blocks) n) ∧
    (g < BlockHeader.number head → with_blocks C blocks !! (BlockHeader.number head - 1)
       = Some (BlockHeader.parent_hash head : list Z)) ∧
    (∀ n, BlockHeader.number head ≤ n ∨ n < g → with_blocks C blocks !! n = C !! n))
    as (Hg & Hlow & Hpar & Hsame).
  { destruct Hb as [(-> & Hcan & Hle)|[Hg Hb]].
    - pose proof (so_order g l s Hok). destruct Hc as [Hlink Hnone].
      assert (BlockHeader.number head = l) as Hl.
      { destruct (Z.lt_ge_cases l (BlockHeader.number head)); [|lia].
        fold C in Hcan. rewrite Hnone in Hcan by lia. done. }
      split_and!; [lia|intros; apply Hlink; lia| |done]. intros Hgk.
      destruct (Hlink (BlockHeader.number head)) as (h & x & Hh' & Hx & Hn & Hp); [lia|].
      fold C in Hcan. rewrite Hcan in Hh'. injection Hh' as <-. rewrite Hh in Hx.
      injection Hx as <-. apply Hp. lia.
    - destruct (branch_linked (headers (Store.engine s)) g blocks C head) as (H1 & H2 & H3);
        [by eapply chain_of_linked_below|done|]. split_and!; [lia|done..]. }
  eapply (chain_of_extend _ _ C (with_blocks C blocks)); try done.
  - intros. by apply new_canonical_low.
  - unfold new_canonical. by rewrite lookup_insert_eq.
  - intros n Hn. unfold new_canonical. rewrite lookup_insert_ne by lia.
    rewrite without_blocks_lookup, decide_True; [done|]. rewrite elem_of_seqZ. lia.
  - intros n Hn Hl. unfold new_canonical. rewrite lookup_insert_ne by lia.
    rewrite without_blocks_lookup, decide_False; [done|]. rewrite elem_of_seqZ. lia.
Qed.

Lemma new_store_ok g l s head head_hash blocks finalized safe :
  store_ok g l s → headers (Store.engine s) !! head_hash = Some head →
  new_branch g l s head head_hash blocks →
  store_ok g (BlockHeader.number head)
    (chain_state (new_canonical (canonical_hashes (Store.engine s)) head head_hash blocks l)
       (new_chain_data head finalized safe (chain_data (Store.engine s))) s).
Proof.
  intros Hok Hh Hb. pose proof (new_chain_ok g l s head head_hash blocks Hok Hh Hb) as Hc.
  destruct Hok as [He Hl Ho Hhash Hpar Hr _ Hcfg].
  split; cbn; try done; [by destruct finalized, safe| |by destruct finalized, safe].
  destruct Hb as [(_ & _ & ?)|[? _]]; lia.
Qed.

(** A block of the new chain, or the old block at the number where the new
    chain leaves the old one. *)
Definition on_new_chain (C C' : gmap Z (list Z)) (n : Z) (hash : list Z) : Prop :=
  C' !! n = Some hash ∨ (C !! n = Some hash ∧ ∀ m, m < n → C' !! m = C !! m).

Definition connected (C : gmap Z (list Z)) (head : BlockHeader.t) (head_hash : list Z)
    (blocks : list (Z * list Z)) (n : Z) (hash : list Z) : Prop :=
  (C !! n = Some hash ∧ n ≤ link_number head blocks) ∨
  (n = BlockHeader.number head ∧ hash = head_hash) ∨ (n, hash) ∈ blocks.

Lemma connected_on_new_chain g l s head head_hash blocks n hash :
  store_ok g l s → new_branch g l s head head_hash blocks →
  let C := canonical_hashes (Store.engine s) in
  connected C head head_hash blocks n hash →
  on_new_chain C (new_canonical C head head_hash blocks l) n hash.
Proof.
  intros Hok Hb C. set (C' := new_canonical C head head_hash blocks l).
  assert (∀ m, m < link_number head blocks → C' !! m = C !! m) as Hlow.
  { intros m Hm. destruct Hb as [(-> & _ & _)|[_ Hb]].
    - by apply new_canonical_low.
    - destruct (branch_low _ _ _ _ _ _ Hb Hm) as [Hw Hlt]. unfold C'.
      by rewrite new_canonical_low. }
  intros [[Hn Hle]|[[-> ->]|Hin]].
  - right. split; [done|]. intros m Hm. apply Hlow. lia.
  - left. unfold C', new_canonical. by rewrite lookup_insert_eq.
  - left. destruct Hb as [(-> & _ & _)|[_ Hb]]; [by apply not_elem_of_nil in Hin|].
    destruct (branch_lookup _ _ _ _ _ _ _ Hb Hin) as [Hlt Hw]. unfold C'.
    by rewrite new_canonical_low.
Qed.

(** ** The checks *)

(** The block that a hash stands for. *)
Definition stored_block (s : Store.t) (hash : list Z) : option Block.t :=
  if is_zero hash then None
  else
    header ← headers (Store.engine s) !! hash;
    body ← bodies (Store.engine s) !! hash;
    Some (Block.new header body).

Lemma get_block_by_hash_run hash s :
  Store.get_block_by_hash hash s =
    (Ok (header ← headers (Store.engine s) !! hash;
         body ← bodies (Store.engine s) !! hash;
         Some (Block.new header body)), s).
Proof.
  unfold Store.get_block_by_hash, Store.on_engine, Engine.get_block_by_hash,
    Engine.get_block_header_by_hash, Engine.get_block_body_by_hash, state_gets, mbind, state_bind.
  cbn. destruct (headers _ !! _); cbn; [|by rewrite set_engine_id].
  destruct (bodies _ !! _); cbn; by rewrite set_engine_id.
Qed.

Lemma block_of_hash_run hash s : block_of_hash hash s = (Ok (stored_block s hash), s).
Proof.
  unfold block_of_hash, stored_block, fc_store. destruct (is_zero hash); [done|].
  by rewrite (map_err_run _ _ _ _ _ (get_block_by_hash_run hash s)).
Qed.

Lemma latest_run g l s : store_ok g l s → Store.get_latest_block_number s = (Ok l, s).
Proof.
  intros Hok. unfold Store.get_latest_block_number, Engine.get_latest_block_number.
  rewrite (bind_run _ _ _ _ _ (on_engine_gets _ s)). unfold state_lift.
  by rewrite (so_latest g l s Hok).
Qed.

Lemma difficulty_check_run g l s hash header :
  store_ok g l s → ∃ r, total_difficulty_check hash header s = (r, s) ∧ returns r.
Proof.
  intros Hok. exists (total_difficulty_check hash header s).1. split.
  - apply read_only_run. unfold total_difficulty_check, fc_store. read_only.
  - pose proof (so_config g l s Hok) as Hc.
    unfold total_difficulty_check, fc_store, state_map_err, Store.get_chain_config,
      Store.get_block_total_difficulty, Store.on_engine, Engine.get_chain_config,
      Engine.get_block_total_difficulty, state_gets, state_throw, state_lift, mbind, state_bind.
    destruct (_ && _); cbn; [done|].
    repeat (destruct (block_total_difficulties _ !! _); cbn; [|done]).
    destruct (ChainData.chain_config _) as [c|]; cbn; [|done].
    destruct (ChainConfig.terminal_total_difficulty c); cbn; [|done].
    destruct (_ <? _); cbn; [done|]. destruct (_ =? _); cbn; [done|].
    destruct (block_total_difficulties _ !! _); cbn; [|done]. by destruct (_ <=? _).
Qed.

Lemma check_connected_run element head head_hash blocks hash block s :
  ∃ r, check_connected element head head_hash (link_number head blocks) blocks hash block s = (r, s)
    ∧ returns r ∧
    (r = Ok tt → ∀ b, block = Some b →
       connected (canonical_hashes (Store.engine s)) head head_hash blocks
         (BlockHeader.number (Block.header b)) hash).
Proof.
  unfold check_connected. destruct block as [b|]; [|by exists (Ok tt)].
  erewrite bind_run; [|apply fc_store_run, is_canonical_run].
  destruct (_ || _) eqn:Hc; [|by eexists].
  eexists. split; [done|]. split; [done|]. intros _ b' [= <-]. unfold connected.
  apply orb_true_iff in Hc as [Hc|Hc]; [apply orb_true_iff in Hc as [Hc|Hc]|].
  - apply andb_true_iff in Hc as [Hc Hn]. apply bool_decide_eq_true in Hc. propify. by left.
  - apply andb_true_iff in Hc as [Hn Hc]. apply bytes_eqb_spec in Hc. propify. auto.
  - apply bool_decide_eq_true in Hc. auto.
Qed.

(** ** The theorem *)

(** What a call leaves. *)
Definition fork_choice_post (g l : Z) (s : Store.t) (head_hash safe_hash finalized_hash : list Z)
    (r : Outcome InvalidForkChoice BlockHeader.t) (s' : Store.t) : Prop :=
  match r with
  | Ok head =>
      headers (Store.engine s) !! head_hash = Some head ∧
      headers (Store.engine s') = headers (Store.engine s) ∧
      store_ok g (BlockHeader.number head) s' ∧
      canonical_hashes (Store.engine s') !! (BlockHeader.number head : Z) = Some head_hash ∧
      (∀ b, stored_block s finalized_hash = Some b →
         ChainData.finalized_block_number (chain_data (Store.engine s')) =
           Some (BlockHeader.number (Block.header b) : Z) ∧
         on_new_chain (canonical_hashes (Store.engine s)) (canonical_hashes (Store.engine s'))
           (BlockHeader.number (Block.header b)) finalized_hash) ∧
      (∀ b, stored_block s safe_hash = Some b →
         ChainData.safe_block_number (chain_data (Store.engine s')) =
           Some (BlockHeader.number (Block.header b) : Z) ∧
         on_new_chain (canonical_hashes (Store.engine s)) (canonical_hashes (Store.engine s'))
           (BlockHeader.number (Block.header b)) safe_hash)
  | Err _ => s' = s
  | _ => False
  end.

(** A check that fails ends the call and leaves the store. *)
Lemma check_step g l s hh sh fh (m : ForkChoiceM unit) (r : Outcome InvalidForkChoice unit)
    (k : unit → ForkChoiceM BlockHeader.t) :
  m s = (r, s) → returns r →
  (r = Ok tt → spec (k tt) s (fork_choice_post g l s hh sh fh)) →
  spec (m ≫= k) s (fork_choice_post g l s hh sh fh).
Proof.
  intros Hm [? ?] Hk. apply spec_bind. eapply spec_run; [exact Hm|].
  destruct r as [[]| | |]; try done. by apply Hk.
Qed.

Lemma check_order_returns b1 b2 : returns (check_order b1 b2).
Proof. destruct b1, b2; cbn; try done. by destruct (_ <? _). Qed.

(** The updates, after the checks. *)
Lemma update_spec g l s head hh sh fh blocks :
  store_ok g l s → headers (Store.engine s) !! hh = Some head →
  new_branch g l s head hh blocks →
  (∀ b, stored_block s fh = Some b → connected (canonical_hashes (Store.engine s)) head hh blocks
     (BlockHeader.number (Block.header b)) fh) →
  (∀ b, stored_block s sh = Some b → connected (canonical_hashes (Store.engine s)) head hh blocks
     (BlockHeader.number (Block.header b)) sh) →
  spec (fc_store (update_chain head hh blocks l (stored_block s fh) (stored_block s sh)) ≫=
        λ _, mret head) s (fork_choice_post g l s hh sh fh).
Proof.
  intros Hok Hh Hb Hf Hs. apply spec_bind. eapply spec_run.
  { apply fc_store_run, update_chain_run; [by eapply so_range|].
    destruct (so_chain g l s Hok) as [Hl _]. pose proof (so_order g l s Hok).
    destruct (Hl l) as (h & x & _ & Hx & <- & _); [lia|]. by eapply so_range. }
  apply spec_ret. split_and!; [done|done|by apply new_store_ok| | |].
  - cbn. unfold new_canonical. by rewrite lookup_insert_eq.
  - intros b Eb. split; [rewrite Eb; by destruct (stored_block s sh)|].
    by eapply connected_on_new_chain, Hf.
  - intros b Eb. split; [rewrite Eb; by destruct (stored_block s fh)|].
    by eapply connected_on_new_chain, Hs.
Qed.

Lemma apply_fork_choice_spec g l s hh sh fh :
  store_ok g l s → spec (apply_fork_choice hh sh fh) s (fork_choice_post g l s hh sh fh).
Proof.
  intros Hok. unfold apply_fork_choice. destruct (is_zero hh) eqn:Hz; [done|].
  apply spec_bind. eapply spec_run; [apply block_of_hash_run|].
  apply spec_bind. eapply spec_run; [apply block_of_hash_run|].
  apply spec_bind. eapply spec_run; [apply fc_store_run, get_block_by_hash_run|].
  eapply check_step; [done|destruct (is_zero sh); [done|apply check_order_returns]|intros _].
  eapply check_step; [done|destruct (_ || _); [done|apply check_order_returns]|intros _].
  destruct (headers (Store.engine s) !! hh) as [head|] eqn:Hh; [|done].
  destruct (bodies (Store.engine s) !! hh) as [body|] eqn:Hbody; [|done]. cbn.
  destruct (difficulty_check_run g l s hh head Hok) as (r & Hr & Hret).
  eapply check_step; [exact Hr|done|intros _].
  apply spec_bind. eapply spec_run; [by apply fc_store_run, (latest_run g l)|].
  apply spec_bind. eapply spec_run; [apply fc_store_run, is_canonical_run|].
  cbv beta iota. destruct (_ && _) eqn:Hcan; [done|].
  destruct (find_link_spec g l s head hh Hok Hh) as (link & Hlink & Hblocks).
  apply spec_bind. eapply spec_run; [by apply fc_store_run|].
  destruct link as [blocks|]; [|done]. specialize (Hblocks blocks eq_refl).
  assert (new_branch g l s head hh blocks) as Hb.
  { destruct Hblocks as [[-> Hc]|?]; [left|by right]. split_and!; [done..|].
    rewrite Hc, bool_decide_true in Hcan by done. by apply Z.ltb_ge in Hcan. }
  change (match last blocks with Some (n, _) => n | None => BlockHeader.number head end)
    with (link_number head blocks).
  destruct (check_connected_run Finalized head hh blocks fh (stored_block s fh) s)
    as (rf & Hrf & Hretf & Hf).
  eapply check_step; [exact Hrf|done|intros ->].
  destruct (check_connected_run Safe head hh blocks sh (stored_block s sh) s)
    as (rs & Hrs & Hrets & Hs).
  eapply check_step; [exact Hrs|done|intros ->].
  apply update_spec; auto.
Qed.
End fork_choice.

(** C7 Fork choice keeps the canonical chain a chain.  On a store whose
    canonical blocks are linked from the first block to the latest, a call
    returns, without panic.  If it succeeds, the head and all its ancestors, and
    nothing else, are canonical, the head is the latest block, and the safe and
    the finalized block are recorded; each is a block of the new chain, unless
    it is the old block at the number where the new chain leaves the old one.
    If it fails the store is unchanged. *)
Theorem fork_choice_correct `{Crypto} `{BuildProfile} g l s head_hash safe_hash finalized_hash :
  store_ok g l s →
  let '(r, s') := apply_fork_choice head_hash safe_hash finalized_hash s in
  fork_choice_post g l s head_hash safe_hash finalized_hash r s'.
Proof.
  intros Hok. pose proof (apply_fork_choice_spec g l s head_hash safe_hash finalized_hash Hok) as Hs.
  unfold spec in Hs. by destruct (apply_fork_choice _ _ _ s).
Qed.

(** ** A check of the invariant *)

Section check.
Context `{Crypto}.

Definition header_check (Hd : gmap (list Z) BlockHeader.t) (e : list Z * BlockHeader.t) : bool :=
  bytes_eqb (compute_block_hash e.2) e.1 && fits 64 (BlockHeader.number e.2 + 1) &&
  match Hd !! (BlockHeader.parent_hash e.2 : list Z) with
  | Some p => BlockHeader.number e.2 =? BlockHeader.number p + 1
  | None => true
  end.

Definition linked_check (Hd : gmap (list Z) BlockHeader.t) (g : Z) (C : gmap Z (list Z)) (n : Z) :
    bool :=
  match C !! n with
  | Some hash =>
      match Hd !! hash with
      | Some header =>
          (BlockHeader.number header =? n) &&
          ((n <=? g) ||
           bool_decide (C !! (n - 1) = Some (BlockHeader.parent_hash header : list Z)))
      | None => false
      end
  | None => false
  end.

Definition store_check (g l : Z) (s : Store.t) : bool :=
  let e := Store.engine s in
  bool_decide (ChainData.earliest_block_number (chain_data e) = Some g) &&
  bool_decide (ChainData.latest_block_number (chain_data e) = Some l) &&
  (g <=? l) && forallb (header_check (headers e)) (map_to_list (headers e)) &&
  forallb (linked_check (headers e) g (canonical_hashes e)) (seqZ g (l - g + 1)) &&
  forallb (λ c, (g <=? c.1) && (c.1 <=? l)) (map_to_list (canonical_hashes e)) &&
  match ChainData.chain_config (chain_data e) with Some _ => true | None => false end.

Lemma header_check_spec Hd h x :
  forallb (header_check Hd) (map_to_list Hd) = true → Hd !! h = Some x → header_check Hd (h, x) = true.
Proof.
  intros Hc Hx. rewrite forallb_forall in Hc. apply Hc, list_elem_of_In.
  by apply elem_of_map_to_list.
Qed.

Lemma linked_check_spec Hd g C n : linked_check Hd g C n = true → linked Hd g C n.
Proof.
  unfold linked_check. destruct (C !! n) as [h|] eqn:Eh; [|done].
  destruct (Hd !! h) as [x|] eqn:Ex; [|done]. intros Hc. propify. exists h, x. split_and!; try done.
  intros Hg. destruct_or!; propify; [lia|]. by eapply bool_decide_eq_true.
Qed.

Lemma store_check_ok g l s : store_check g l s = true → store_ok g l s.
Proof.
  unfold store_check. intros Hc. repeat (apply andb_true_iff in Hc as [Hc ?]).
  repeat match goal with H : bool_decide _ = true |- _ => apply bool_decide_eq_true in H end.
  split; try done; [by propify| | | | |by destruct (ChainData.chain_config _)].
  - intros h x Hx. eapply header_check_spec in Hx; [|done]. unfold header_check in Hx. propify.
    by apply bytes_eqb_spec.
  - intros h x p Hx Hp. eapply header_check_spec in Hx; [|done]. unfold header_check in Hx.
    cbn in Hx. rewrite Hp in Hx. by propify.
  - intros h x Hx. eapply header_check_spec in Hx; [|done]. unfold header_check, fits in Hx.
    unfold in_u. cbn in Hx. propify. lia.
  - split.
    + intros n Hn. apply linked_check_spec.
      match goal with H : forallb (linked_check _ _ _) _ = true |- _ =>
        rewrite forallb_forall in H; apply H, list_elem_of_In, elem_of_seqZ; lia end.
    + intros n Hn. destruct (canonical_hashes _ !! n) as [h|] eqn:Eh; [|done].
      match goal with H : forallb (λ c, _) (map_to_list (canonical_hashes _)) = true |- _ =>
        rewrite forallb_forall in H; specialize (H (n, h)) end.
      rewrite <-list_elem_of_In, elem_of_map_to_list in *.
      match goal with H : _ → _ = true |- _ => specialize (H Eh); cbn in H; propify; lia end.
Qed.
End check.

(** ** A fork *)

#[local] Instance debug_build : BuildProfile := true.

Definition demo_config : ChainConfig.t := {|
  ChainConfig.chain_id := 1; ChainConfig.homestead_block := Some 0;
  ChainConfig.dao_fork_block := None; ChainConfig.dao_fork_support := false;
  ChainConfig.eip150_block := Some 0; ChainConfig.eip155_block := Some 0;
  ChainConfig.eip158_block := Some 0; ChainConfig.byzantium_block := Some 0;
  ChainConfig.constantinople_block := Some 0; ChainConfig.petersburg_block := Some 0;
  ChainConfig.istanbul_block := Some 0; ChainConfig.muir_glacier_block := None;
  ChainConfig.berlin_block := Some 0; ChainConfig.london_block := Some 0;
  ChainConfig.arrow_glacier_block := None; ChainConfig.gray_glacier_block := None;
  ChainConfig.merge_netsplit_block := None; ChainConfig.shanghai_time := None;
  ChainConfig.cancun_time := None; ChainConfig.prague_time := None;
  ChainConfig.verkle_time := None; ChainConfig.terminal_total_difficulty := Some 0;
  ChainConfig.terminal_total_difficulty_passed := true;
|}.

(** A first block, two blocks on top of it and a block on the second of them. *)
Definition demo_genesis : BlockHeader.t := demo_link (replicate 32 0) 0 1000.
Definition genesis_hash : list Z := Eval vm_compute in compute_block_hash demo_genesis.
Definition demo_a : BlockHeader.t := demo_link genesis_hash 1 1010.
Definition hash_a : list Z := Eval vm_compute in compute_block_hash demo_a.
Definition demo_b : BlockHeader.t := demo_link genesis_hash 1 1011.
Definition hash_b : list Z := Eval vm_compute in compute_block_hash demo_b.
Definition demo_c : BlockHeader.t := demo_link hash_b 2 1020.
Definition hash_c : list Z := Eval vm_compute in compute_block_hash demo_c.

(** The store with all of them, the first branch being canonical. *)
Definition demo_store : Store.t :=
  let e := in_memory_new in
  let e := set_headers (list_to_map [(genesis_hash, demo_genesis); (hash_a, demo_a);
                                     (hash_b, demo_b); (hash_c, demo_c)]) e in
  let e := set_bodies (list_to_map [(genesis_hash, BlockBody.empty); (hash_a, BlockBody.empty);
                                    (hash_b, BlockBody.empty); (hash_c, BlockBody.empty)]) e in
  let e := set_canonical_hashes (list_to_map [(0, genesis_hash); (1, hash_a)]) e in
  let e := on_chain_data (ChainData.set_earliest_block_number (Some 0)) e in
  let e := on_chain_data (ChainData.set_latest_block_number (Some 1)) e in
  let e := on_chain_data (ChainData.set_chain_config (Some demo_config)) e in
  Store.set_engine e Store.new.

Lemma demo_store_ok : store_ok 0 1 demo_store.
Proof. apply store_check_ok. vm_compute. reflexivity. Qed.

Example fork_choice_correct_witness :
  let '(r, s') := apply_fork_choice hash_c hash_b genesis_hash demo_store in
  r = Ok demo_c ∧ store_ok 0 2 s'.
Proof.
  pose proof (fork_choice_correct 0 1 demo_store hash_c hash_b genesis_hash demo_store_ok) as Hw.
  assert ((apply_fork_choice hash_c hash_b genesis_hash demo_store).1 = Ok demo_c) as Hr
    by (vm_compute; reflexivity).
  destruct (apply_fork_choice hash_c hash_b genesis_hash demo_store) as [r s']. cbn [fst] in Hr.
  subst r. destruct Hw as (_ & _ & Hok & _). exact (conj eq_refl Hok).
Defined.

(** A call that names a block as safe and finalized and a sibling as head, and
    what it leaves at the number 1. *)
Definition dropped_check `{BuildProfile} (s : Store.t) (head_hash finalized_hash : list Z) : bool :=
  match apply_fork_choice head_hash finalized_hash finalized_hash s with
  | (Ok _, s') =>
      bool_decide (ChainData.finalized_block_number (chain_data (Store.engine s')) = Some 1) &&
      bool_decide (canonical_hashes (Store.engine s') !! 1 = Some head_hash)
  | _ => false
  end.

Lemma dropped_check_spec `{BuildProfile} s head_hash finalized_hash :
  dropped_check s head_hash finalized_hash = true →
  ∃ s' head, apply_fork_choice head_hash finalized_hash finalized_hash s = (Ok head, s') ∧
    ChainData.finalized_block_number (chain_data (Store.engine s')) = Some 1 ∧
    canonical_hashes (Store.engine s') !! 1 = Some head_hash.
Proof.
  unfold dropped_check. destruct (apply_fork_choice _ _ _ s) as [[head| | |] s']; try done.
  intros [Hf%bool_decide_eq_true Hb%bool_decide_eq_true]%andb_true_iff. by exists s', head.
Qed.

Lemma demo_dropped `{BuildProfile} : dropped_check demo_store hash_b hash_a = true.
Proof. destruct H; vm_compute; reflexivity. Qed.

Lemma a_canonical : canonical_hashes (Store.engine demo_store) !! 1 = Some hash_a.
Proof. vm_compute. reflexivity. Qed.
Lemma b_not_a : hash_b ≠ hash_a.
Proof. vm_compute. discriminate. Qed.

(** A finalized block can be dropped.  The test that the finalized (or safe)
    block stays canonical accepts the block at the number where the new branch
    starts, which the update replaces: a call that names a canonical block as
    finalized and safe and its sibling as head succeeds, records the number as
    finalized, and leaves the sibling as the canonical block at that number. *)
Theorem finalized_block_dropped `{BuildProfile} :
  ∃ s head_hash finalized_hash s' head,
    store_ok 0 1 s ∧
    canonical_hashes (Store.engine s) !! 1 = Some finalized_hash ∧
    apply_fork_choice head_hash finalized_hash finalized_hash s = (Ok head, s') ∧
    ChainData.finalized_block_number (chain_data (Store.engine s')) = Some 1 ∧
    canonical_hashes (Store.engine s') !! 1 = Some head_hash ∧ head_hash ≠ finalized_hash.
Proof.
  destruct (dropped_check_spec _ _ _ demo_dropped) as (s' & head & Hr & Hf & Hb).
  exact (ex_intro _ demo_store (ex_intro _ hash_b (ex_intro _ hash_a (ex_intro _ s' (ex_intro _ head
    (conj demo_store_ok (conj a_canonical (conj Hr (conj Hf (conj Hb b_not_a)))))))))).
Qed.
