(* ===== verification/BlockImport.v ===== *)
(** * Correctness of block import

    What [add_block] checks and stores, and the invariant of every store that is
    reached by importing blocks and choosing forks: a chain of valid blocks. *)

From stdpp Require Import base option list numbers strings gmap.
From S2P Require Import Prelude Rlp RlpProofs RlpStruct LevmHost LevmDemo TrieNode Trie Tx.
From S2P Require Import BlockTypes Chain ChainProofs Store StoreLogic Blockchain ForkChoice.

Local Open Scope Z_scope.

(** ** Operations that leave the blocks alone *)

(** All of the store but the codes and the nodes of the tries. *)
Definition block_part (s : Store.t) :=
  let e := Store.engine s in
  (chain_data e, block_numbers e, canonical_hashes e, bodies e, headers e,
   transaction_locations e, receipts e, block_total_difficulties e, payloads e, pending_blocks e,
   Store.mempool s, Store.blobs_bundle_pool s).

Section keeps.
Context {E : Type}.

Definition keeps_blocks {A} (m : StateT Store.t E A) : Prop :=
  ∀ s, block_part (m s).2 = block_part s.

Lemma keeps_blocks_bind {A B} (m : StateT Store.t E A) (f : A → StateT Store.t E B) :
  keeps_blocks m → (∀ a, keeps_blocks (f a)) → keeps_blocks (m ≫= f).
Proof.
  intros Hm Hf s. unfold mbind, state_bind. specialize (Hm s).
  destruct (m s) as [[] s']; cbn in *; rewrite <-Hm; [apply Hf|done..].
Qed.

Lemma keeps_read_only {A} (m : StateT Store.t E A) : read_only m → keeps_blocks m.
Proof. intros Hm s. by rewrite Hm. Qed.
End keeps.

Lemma keeps_map_err {E F A} (f : E → F) (m : StateT Store.t E A) :
  keeps_blocks m → keeps_blocks (state_map_err f m).
Proof. intros Hm s. specialize (Hm s). unfold state_map_err. by destruct (m s). Qed.

Section updates.
Context `{Crypto}.

Lemma keeps_add_account_code h c : keeps_blocks (Store.add_account_code h c).
Proof. done. Qed.
Lemma keeps_open_storage_trie h r : keeps_blocks (Store.open_storage_trie h r).
Proof. done. Qed.
Lemma keeps_commit_storage_trie h t : keeps_blocks (Store.commit_storage_trie h t).
Proof. unfold Store.commit_storage_trie. destruct (trie_hash t). by intros s. Qed.
Lemma keeps_commit_state_trie t : keeps_blocks (Store.commit_state_trie t).
Proof. unfold Store.commit_state_trie. destruct (trie_hash t). by intros s. Qed.

Lemma keeps_update_info u a : keeps_blocks (Store.update_info u a).
Proof.
  unfold Store.update_info. destruct (AccountUpdate.info u); [|done].
  apply keeps_blocks_bind; [|done]. by destruct (AccountUpdate.code u).
Qed.

Lemma keeps_update_storage_root h u a : keeps_blocks (Store.update_storage_root h u a).
Proof.
  unfold Store.update_storage_root. destruct (AccountUpdate.added_storage u); [done|].
  apply keeps_blocks_bind; [apply keeps_open_storage_trie|intros t].
  apply keeps_blocks_bind; [apply keeps_read_only; read_only|intros t'].
  apply keeps_blocks_bind; [apply keeps_commit_storage_trie|done].
Qed.

Lemma keeps_apply_account_update u t : keeps_blocks (Store.apply_account_update u t).
Proof.
  unfold Store.apply_account_update. destruct (AccountUpdate.removed u).
  - destruct (trie_remove _ t). apply keeps_read_only. read_only.
  - apply keeps_blocks_bind; [apply keeps_read_only; read_only|intros c].
    apply keeps_blocks_bind; [apply keeps_update_info|intros a].
    apply keeps_blocks_bind; [apply keeps_update_storage_root|intros a'].
    destruct (trie_insert _ _ t). apply keeps_read_only. read_only.
Qed.

Lemma keeps_apply_updates us : ∀ t, keeps_blocks (Store.apply_updates us t).
Proof.
  induction us as [|u us IH]; intros t; [done|].
  apply keeps_blocks_bind; [apply keeps_apply_account_update|intros t'; apply IH].
Qed.

Lemma keeps_apply_account_updates h us : keeps_blocks (Store.apply_account_updates h us).
Proof.
  unfold Store.apply_account_updates. apply keeps_blocks_bind; [apply keeps_read_only; read_only|].
  intros [t|]; [|done]. apply keeps_blocks_bind; [apply keeps_apply_updates|intros t'].
  apply keeps_blocks_bind; [apply keeps_commit_state_trie|done].
Qed.
End updates.

(** ** What [add_block] does *)

(** The blocks of a store and the chain data. *)
Definition stored_part (s : Store.t) :=
  let e := Store.engine s in
  (chain_data e, canonical_hashes e, bodies e, headers e, transaction_locations e, receipts e).

Lemma block_part_stored s s' : block_part s' = block_part s → stored_part s' = stored_part s.
Proof. unfold block_part, stored_part. by intros [= -> _ -> -> -> -> -> _ _ _ _ _]. Qed.

Section import.
Context `{Crypto} `{EthBloom} `{BuildProfile} `{Execution}.

(** The receipts of a block, by their index. *)
Definition receipts_by_index (rs : list Receipt.t) (entry : gmap Z Receipt.t) : gmap Z Receipt.t :=
  foldl (λ entry '(index, receipt), <[Z.of_nat index := receipt]> entry) entry (imap pair rs).

(** A block is stored with its receipts. *)
Record stored_in (block : Block.t) (rs : list Receipt.t) (s s' : Store.t) : Prop := {
  in_headers : headers (Store.engine s') =
    <[compute_block_hash (Block.header block) : list Z := Block.header block]>
      (headers (Store.engine s));
  in_bodies : bodies (Store.engine s') =
    <[compute_block_hash (Block.header block) : list Z := Block.body block]>
      (bodies (Store.engine s));
  in_receipts : receipts (Store.engine s') =
    <[compute_block_hash (Block.header block) : list Z :=
        receipts_by_index rs
          (default ∅ (receipts (Store.engine s) !! (compute_block_hash (Block.header block) : list Z)))]>
      (receipts (Store.engine s));
  in_canonical : canonical_hashes (Store.engine s') = canonical_hashes (Store.engine s);
  in_chain_data : ∃ td, chain_data (Store.engine s') =
    ChainData.set_latest_total_difficulty (Some td) (chain_data (Store.engine s));
}.

(** The block passed every check on the state of its parent. *)
Record accepted (block : Block.t) (parent : BlockHeader.t) (rs : list Receipt.t)
    (updates : list AccountUpdate.t) (s : Store.t) : Prop := {
  acc_stored : headers (Store.engine s) !! (BlockHeader.parent_hash (Block.header block) : list Z)
    = Some parent;
  acc_valid : (validate_block block parent s).1 = Ok tt;
  acc_executed : execute_block s block = Ok (rs, updates);
  acc_gas : ∀ r, last rs = Some r →
    Receipt.cumulative_gas_used r = BlockHeader.gas_used (Block.header block);
  acc_state_root : (Store.apply_account_updates (BlockHeader.parent_hash (Block.header block))
    updates s).1 = Ok (Some (BlockHeader.state_root (Block.header block) : list Z));
  acc_receipts_root : compute_receipts_root rs = Ok (BlockHeader.receipts_root (Block.header block));
}.

(** The nodes of the tries. *)
Definition trie_part (s : Store.t) :=
  (state_trie_nodes (Store.engine s), storage_trie_nodes (Store.engine s)).

(** The codes of the accounts, by their hash. *)
Definition codes (s : Store.t) : gmap (list Z) (list Z) := account_codes (Store.engine s).

Definition import_post (block : Block.t) (s : Store.t) (r : Outcome ChainError unit)
    (s' : Store.t) : Prop :=
  match r with
  | Ok _ => ∃ parent rs updates, accepted block parent rs updates s ∧ stored_in block rs s s' ∧
      trie_part s' = trie_part (Store.apply_account_updates
        (BlockHeader.parent_hash (Block.header block)) updates s).2 ∧
      codes s' = codes (Store.apply_account_updates
        (BlockHeader.parent_hash (Block.header block)) updates s).2
  | _ => stored_part s' = stored_part s
  end.

(** A step that reads, or that leaves the blocks: failing there is harmless. *)
Lemma import_step {A} (m : ChainM A) (k : A → ChainM unit) block s s1 :
  stored_part s1 = stored_part s →
  stored_part (m s1).2 = stored_part s1 →
  (∀ a, (m s1).1 = Ok a → spec (k a) (m s1).2 (import_post block s)) →
  spec (m ≫= k) s1 (import_post block s).
Proof.
  intros Hs1 Hm Hk. apply spec_bind. unfold spec. rewrite Hs1 in Hm.
  destruct (m s1) as [[a| | |] s2]; cbn in *; [by apply Hk|done..].
Qed.

Lemma read_step {A} (m : ChainM A) (k : A → ChainM unit) block s s1 :
  read_only m → stored_part s1 = stored_part s →
  (∀ a, (m s1).1 = Ok a → spec (k a) s1 (import_post block s)) →
  spec (m ≫= k) s1 (import_post block s).
Proof. intros Hm Hs Hk. apply import_step; [done|by rewrite Hm|by rewrite Hm]. Qed.

Lemma validate_block_read_only block parent : read_only (validate_block block parent).
Proof. unfold validate_block. read_only. Qed.

Lemma find_parent_header_run header s :
  find_parent_header header s =
    (ok_or (headers (Store.engine s) !! (BlockHeader.parent_hash header : list Z)) ParentNotFound, s).
Proof.
  unfold find_parent_header, chain_store, Store.get_block_header_by_hash,
    Engine.get_block_header_by_hash.
  erewrite bind_run; [|apply map_err_run_ok, on_engine_gets]. done.
Qed.

Lemma parent_or_pending_run block s :
  match headers (Store.engine s) !! (BlockHeader.parent_hash (Block.header block) : list Z) with
  | Some parent => parent_or_pending block s = (Ok parent, s)
  | None => (parent_or_pending block s).1 = Err ParentNotFound ∧
            stored_part (parent_or_pending block s).2 = stored_part s
  end.
Proof.
  unfold parent_or_pending. rewrite find_parent_header_run.
  by destruct (headers (Store.engine s) !! _).
Qed.

(** Recording locations changes nothing else. *)
Lemma locations_only ls : ∀ e, ∃ L,
  foldl (λ s '(transaction_hash, block_number, block_hash, index),
    Engine.push_location transaction_hash (block_number, block_hash, index) s) e ls
  = set_transaction_locations L e.
Proof.
  induction ls as [|[[[h n] bh] ix] ls IH]; intros e; cbn.
  - exists (transaction_locations e). by destruct e.
  - destruct (IH (Engine.push_location h (n, bh, ix) e)) as [L ->]. by exists L.
Qed.

(** Storing a block fails only where the total difficulty overflows. *)
Lemma store_add_block_cases block s :
  (Store.add_block block s = (Panic, s)) ∨
  ∃ s', Store.add_block block s = (Ok tt, s') ∧
    headers (Store.engine s') =
      <[compute_block_hash (Block.header block) : list Z := Block.header block]>
        (headers (Store.engine s)) ∧
    bodies (Store.engine s') =
      <[compute_block_hash (Block.header block) : list Z := Block.body block]>
        (bodies (Store.engine s)) ∧
    canonical_hashes (Store.engine s') = canonical_hashes (Store.engine s) ∧
    receipts (Store.engine s') = receipts (Store.engine s) ∧ trie_part s' = trie_part s ∧
    codes s' = codes s ∧
    ∃ td, chain_data (Store.engine s') =
      ChainData.set_latest_total_difficulty (Some td) (chain_data (Store.engine s)).
Proof.
  unfold Store.add_block, Store.get_latest_total_difficulty, Engine.get_latest_total_difficulty.
  rewrite (bind_run _ _ _ _ _ (on_engine_gets _ s)). unfold Store.u256_add.
  destruct (checked_add 256 _ _) as [td|]; [|by left].
  right. eexists. split; [reflexivity|]. cbn.
  match goal with |- context [foldl ?f ?e ?ls] => destruct (locations_only ls e) as [L HL] end.
  unfold codes. cbn. rewrite HL. split_and!; try done. by exists td.
Qed.

Lemma stored_part_fields s s' : stored_part s' = stored_part s →
  headers (Store.engine s') = headers (Store.engine s) ∧
  bodies (Store.engine s') = bodies (Store.engine s) ∧
  receipts (Store.engine s') = receipts (Store.engine s) ∧
  canonical_hashes (Store.engine s') = canonical_hashes (Store.engine s) ∧
  chain_data (Store.engine s') = chain_data (Store.engine s).
Proof. by intros [= -> -> -> -> _ ->]. Qed.

Lemma validate_gas_used_Ok rs header r :
  validate_gas_used rs header = Ok tt → last rs = Some r →
  Receipt.cumulative_gas_used r = BlockHeader.gas_used header.
Proof. unfold validate_gas_used. intros Hv Hr. rewrite Hr in Hv. case_match; [by propify|done]. Qed.

Lemma validate_state_root_Ok header root :
  validate_state_root header root = Ok tt → root = BlockHeader.state_root header.
Proof. unfold validate_state_root. case_match; [|done]. intros _. by apply bytes_eqb_spec. Qed.

Lemma validate_receipts_root_Ok header rs :
  validate_receipts_root header rs = Ok tt →
  compute_receipts_root rs = Ok (BlockHeader.receipts_root header).
Proof.
  unfold validate_receipts_root. destruct (compute_receipts_root rs) as [root| | |]; try done.
  cbn. case_match; [|done]. intros _. f_equal. by apply bytes_eqb_spec.
Qed.

(** The end of [add_block]: block and receipts are stored. *)
Lemma store_spec block parent rs updates s s1 :
  accepted block parent rs updates s → stored_part s1 = stored_part s →
  trie_part s1 = trie_part (Store.apply_account_updates
    (BlockHeader.parent_hash (Block.header block)) updates s).2 →
  codes s1 = codes (Store.apply_account_updates
    (BlockHeader.parent_hash (Block.header block)) updates s).2 →
  spec (_ ← store_block block; store_receipts rs (compute_block_hash (Block.header block))) s1
    (import_post block s).
Proof.
  intros Hacc Hs Htr Hco. unfold store_block, store_receipts, chain_store. apply spec_bind.
  destruct (store_add_block_cases block s1) as [Hr|(s2 & Hr & Hh & Hb & Hc & Hrec & Ht2 & Hc2 & td & Hd)].
  { eapply spec_run; [by apply map_err_run|done]. }
  eapply spec_run; [by apply map_err_run_ok|]. cbv beta iota.
  eapply spec_run; [apply map_err_run_ok, on_engine_modify|].
  destruct (stored_part_fields _ _ Hs) as (E1 & E2 & E3 & E4 & E5).
  exists parent, rs, updates. split; [done|]. split; [|by rewrite <-Htr, <-Ht2, <-Hco, <-Hc2].
  split; cbn; [by rewrite Hh, E1|by rewrite Hb, E2|by rewrite Hrec, E3|by rewrite Hc|].
  exists td. by rewrite Hd, E5.
Qed.

Lemma add_block_spec block s : spec (add_block block) s (import_post block s).
Proof.
  unfold add_block. apply spec_bind. pose proof (parent_or_pending_run block s) as Hp.
  destruct (headers (Store.engine s) !! _) as [parent|] eqn:Hpar;
    [|destruct Hp as [Hr Hs]; unfold spec; by rewrite Hr].
  eapply spec_run; [exact Hp|]. cbv beta iota.
  apply read_step; [apply validate_block_read_only|done|intros [] Hval].
  apply read_step; [by intros ?|done|intros [rs updates] Hex].
  assert (execute_block s block = Ok (rs, updates)) as Hexec.
  { cbn in Hex. destruct (execute_block s block); cbn in Hex; congruence. }
  apply read_step; [read_only|done|intros [] Hgas].
  assert (stored_part (Store.apply_account_updates (BlockHeader.parent_hash (Block.header block))
    updates s).2 = stored_part s) as Hkeep by apply block_part_stored, keeps_apply_account_updates.
  apply import_step; [done| |].
  { unfold chain_store, state_map_err. by destruct (Store.apply_account_updates _ _ _). }
  unfold chain_store, state_map_err.
  destruct (Store.apply_account_updates _ _ s) as [[root| | |] s1] eqn:Happ; cbn in *; try done.
  intros ? [= <-]. apply read_step; [read_only|done|intros root' Hroot].
  apply read_step; [read_only|done|intros [] Hsr].
  apply read_step; [read_only|done|intros [] Hrr].
  eapply store_spec; [|done|by rewrite Happ|by rewrite Happ]. split; try done.
  - intros r. by apply validate_gas_used_Ok.
  - rewrite Happ. cbn. destruct root as [root|]; cbn in Hroot; [|done]. injection Hroot as ->.
    by rewrite (validate_state_root_Ok _ _ Hsr).
  - by apply validate_receipts_root_Ok.
Qed.
End import.

(** ** Reachable stores *)

Section reachable.
Context `{Crypto} `{EthBloom} `{BuildProfile}.

Lemma validate_block_Ok block parent s :
  (validate_block block parent s).1 = Ok tt →
  validate_block_header (Block.header block) parent = Ok tt.
Proof.
  unfold validate_block, state_map_err, Store.get_chain_config, Store.on_engine,
    Engine.get_chain_config, state_lift, mbind, state_bind. cbn.
  destruct (ChainData.chain_config _); cbn; [|done].
  by destruct (validate_block_header _ _) as [[]| | |].
Qed.

(** An accepted header counts up from its parent, whatever the fees. *)
Lemma validated_number header parent :
  validate_block_header header parent = Ok tt → in_u 64 (BlockHeader.number parent + 1) →
  BlockHeader.number header = BlockHeader.number parent + 1.
Proof.
  unfold validate_block_header. intros Hv Hn.
  do 5 apply bind_Ok in Hv as (? & _ & Hv). apply bind_Ok in Hv as (next & Hnext & Hv).
  apply bind_Ok in Hv as (? & Hr & _). unfold u_add in Hnext.
  rewrite in_width_fits in Hnext by done. injection Hnext as <-. unfold reject_if in Hr.
  destruct (BlockHeader.number header =? _) eqn:En; [by apply Z.eqb_eq in En|done].
Qed.

(** A block that was imported: a child of a stored block. *)
Definition imported (s : Store.t) (header : BlockHeader.t) : Prop :=
  ∃ parent, headers (Store.engine s) !! (BlockHeader.parent_hash header : list Z) = Some parent ∧
    BlockHeader.number header = BlockHeader.number parent + 1 ∧
    (parent_fits parent → valid_child header parent).

(** The canonical chain is linked, and every block but the first was imported. *)
Record chain_inv (genesis : BlockHeader.t) (s : Store.t) : Prop := {
  ci_store : ∃ l, store_ok (BlockHeader.number genesis) l s;
  ci_genesis : headers (Store.engine s) !! (compute_block_hash genesis : list Z) = Some genesis;
  ci_imported : ∀ hash header, headers (Store.engine s) !! hash = Some header →
    hash = compute_block_hash genesis ∨ imported s header;
  ci_low : ∀ hash header, headers (Store.engine s) !! hash = Some header →
    BlockHeader.number genesis ≤ BlockHeader.number header;
}.

(** The hash of a block is new, or it is that of the block itself. *)
Definition no_collision (genesis : BlockHeader.t) (s : Store.t) (header : BlockHeader.t) : Prop :=
  headers (Store.engine s) !! (compute_block_hash header : list Z) = Some header ∨
  (headers (Store.engine s) !! (compute_block_hash header : list Z) = None ∧
   BlockHeader.parent_hash genesis ≠ compute_block_hash header).

Inductive chain_step `{Execution} (genesis : BlockHeader.t) : Store.t → Store.t → Prop :=
| step_add_block block s r s' :
    add_block block s = (r, s') → no_collision genesis s (Block.header block) →
    in_u 64 (BlockHeader.number (Block.header block) + 1) → chain_step genesis s s'
| step_fork_choice head_hash safe_hash finalized_hash s r s' :
    apply_fork_choice head_hash safe_hash finalized_hash s = (r, s') → chain_step genesis s s'.

Lemma store_ok_ext g l s s' :
  headers (Store.engine s') = headers (Store.engine s) →
  canonical_hashes (Store.engine s') = canonical_hashes (Store.engine s) →
  chain_data (Store.engine s') = chain_data (Store.engine s) → store_ok g l s → store_ok g l s'.
Proof. intros E1 E2 E3 []. by split; rewrite ?E1, ?E2, ?E3. Qed.

Lemma chain_inv_ext genesis s s' :
  stored_part s' = stored_part s → chain_inv genesis s → chain_inv genesis s'.
Proof.
  intros Hs [[l Hok] Hg Hi Hlow]. destruct (stored_part_fields _ _ Hs) as (E1 & _ & _ & E4 & E5).
  split; rewrite ?E1; [|done| |done].
  - exists l. by eapply store_ok_ext.
  - intros h x Hx. destruct (Hi h x Hx) as [|Himp]; [by left|right].
    unfold imported in *. by rewrite E1.
Qed.

(** More headers, and another total difficulty. *)
Lemma linked_mono Hd Hd' g C n : Hd ⊆ Hd' → linked Hd g C n → linked Hd' g C n.
Proof.
  intros Hsub (h & x & Hh & Hx & Hn & Hp). exists h, x. split_and!; try done.
  by eapply lookup_weaken.
Qed.

Lemma store_ok_grow g l s s' td :
  headers (Store.engine s) ⊆ headers (Store.engine s') →
  canonical_hashes (Store.engine s') = canonical_hashes (Store.engine s) →
  chain_data (Store.engine s') =
    ChainData.set_latest_total_difficulty (Some td) (chain_data (Store.engine s)) →
  (∀ hash header, headers (Store.engine s') !! hash = Some header →
     compute_block_hash header = hash ∧ in_u 64 (BlockHeader.number header + 1) ∧
     ∀ parent, headers (Store.engine s') !! (BlockHeader.parent_hash header : list Z) = Some parent →
       BlockHeader.number header = BlockHeader.number parent + 1) →
  store_ok g l s → store_ok g l s'.
Proof.
  intros Hsub Hc Hd Hnew [He Hl Ho _ _ _ [Hlink Hnone] Hcfg].
  split; rewrite ?Hd, ?Hc; try done; [apply Hnew|intros h x p Hx; by apply (Hnew h)|
    intros h x Hx; by apply (Hnew h)|].
  split; [|done]. intros n Hn. eapply linked_mono, Hlink; done.
Qed.

Lemma validated_child header parent :
  validate_block_header header parent = Ok tt → parent_fits parent → valid_child header parent.
Proof.
  intros Hv Hf. destruct (validate_block_header_cases header parent Hf) as [[_ ?]|[[e He] _]];
    [done|congruence].
Qed.

(** Importing a valid child. *)
Lemma import_keeps genesis block rs s s' parent :
  chain_inv genesis s → no_collision genesis s (Block.header block) →
  in_u 64 (BlockHeader.number (Block.header block) + 1) →
  headers (Store.engine s) !! (BlockHeader.parent_hash (Block.header block) : list Z) = Some parent →
  validate_block_header (Block.header block) parent = Ok tt →
  stored_in block rs s s' → chain_inv genesis s'.
Proof.
  intros [[l Hok] Hg Hi Hlow] Hnc Hr Hp Hv [Hh _ _ Hc [td Hd]]. unfold no_collision in Hnc.
  set (header := Block.header block) in *. set (hash := compute_block_hash header : list Z) in *.
  assert (BlockHeader.number header = BlockHeader.number parent + 1) as Hn.
  { apply validated_number; [done|]. by eapply so_range. }
  assert (headers (Store.engine s) ⊆ headers (Store.engine s')) as Hsub.
  { rewrite Hh. destruct Hnc as [Hs|[Hs _]]; [by rewrite insert_id|by apply insert_subseteq]. }
  assert (∀ x, imported s x → imported s' x) as Hmono.
  { intros x (p & Hxp & ? & ?). exists p. split_and!; try done. by eapply lookup_weaken. }
  assert (imported s header) as Himp by (exists parent; auto using validated_child).
  split; [|by eapply lookup_weaken| |].
  - exists l. eapply store_ok_grow; try done. intros h x Hx. rewrite Hh in Hx.
    apply lookup_insert_Some in Hx as [[<- <-]|[Hne Hx]].
    + split_and!; [done..|]. intros p Hp'. eapply lookup_weaken in Hp; [|exact Hsub]. congruence.
    + split_and!; [by eapply so_hash|by eapply so_range|]. intros p Hp'.
      rewrite Hh in Hp'. apply lookup_insert_Some in Hp' as [[Hxh <-]|[_ Hp']]; [|by eapply so_parent].
      destruct Hnc as [Hs|[Hs Hng]]; [by eapply so_parent; [..|rewrite <-Hxh]|].
      destruct (Hi h x Hx) as [->|(q & Hq & _)].
      * rewrite Hg in Hx. injection Hx as <-. by destruct Hng.
      * rewrite <-Hxh, Hs in Hq. done.
  - intros h x Hx. rewrite Hh in Hx. apply lookup_insert_Some in Hx as [[<- <-]|[_ Hx]].
    + right. by apply Hmono.
    + destruct (Hi h x Hx) as [|Hx']; [by left|right; by apply Hmono].
  - intros h x Hx. rewrite Hh in Hx. apply lookup_insert_Some in Hx as [[<- <-]|[_ Hx]].
    + apply Hlow in Hp. lia.
    + by eapply Hlow.
Qed.

Lemma fork_choice_keeps genesis hh sh fh s r s' :
  apply_fork_choice hh sh fh s = (r, s') → chain_inv genesis s → chain_inv genesis s'.
Proof.
  intros Hr [[l Hok] Hg Hi Hlow].
  pose proof (apply_fork_choice_spec (BlockHeader.number genesis) l s hh sh fh Hok) as Hs.
  unfold spec in Hs. rewrite Hr in Hs. cbn in Hs.
  destruct r as [head|e| |]; cbn in Hs; [|subst s'; by split; eauto|done..].
  destruct Hs as (_ & Hh & Hok' & _). split; rewrite ?Hh; [by eexists|done| |done].
  intros h x Hx. destruct (Hi h x Hx) as [|Hx']; [by left|right]. unfold imported in *.
  by rewrite Hh.
Qed.

Lemma add_block_keeps `{Execution} genesis block s r s' :
  add_block block s = (r, s') → no_collision genesis s (Block.header block) →
  in_u 64 (BlockHeader.number (Block.header block) + 1) →
  chain_inv genesis s → chain_inv genesis s'.
Proof.
  intros Hr Hnc Hn Hi. pose proof (add_block_spec block s) as Hs. unfold spec in Hs.
  rewrite Hr in Hs. cbn [fst snd] in Hs. destruct r as [[]| | |]; try by eapply chain_inv_ext.
  destruct Hs as (parent & rs & us & [Hp Hv _ _ _ _] & Hin & _).
  eapply import_keeps; try done. by eapply validate_block_Ok.
Qed.

Lemma reachable_inv `{Execution} genesis s s' :
  rtc (chain_step genesis) s s' → chain_inv genesis s → chain_inv genesis s'.
Proof.
  induction 1 as [|s1 s2 s3 Hstep _ IH]; [done|]. intros Hi. apply IH.
  destruct Hstep; [by eapply add_block_keeps|by eapply fork_choice_keeps].
Qed.

(** ** The first block *)

Lemma keeps_genesis_accounts accounts : ∀ t, keeps_blocks (Store.genesis_accounts accounts t).
Proof.
  induction accounts as [|[address account] accounts IH]; intros t; [done|].
  cbn [Store.genesis_accounts]. cbv zeta. apply keeps_blocks_bind; [apply keeps_add_account_code|intros _].
  apply keeps_blocks_bind; [apply keeps_open_storage_trie|intros t1].
  apply keeps_blocks_bind; [apply keeps_read_only; read_only|intros t2].
  apply keeps_blocks_bind; [apply keeps_commit_storage_trie|intros root].
  destruct (trie_insert _ _ t).
  apply keeps_blocks_bind; [apply keeps_read_only; read_only|intros _; apply IH].
Qed.

Lemma keeps_setup_genesis_state_trie accounts :
  keeps_blocks (Store.setup_genesis_state_trie accounts).
Proof.
  apply keeps_blocks_bind; [done|intros t]. apply keeps_blocks_bind; [apply keeps_genesis_accounts|].
  apply keeps_commit_state_trie.
Qed.

Lemma genesis_block_shape genesis block :
  Chain.get_block genesis = Ok block →
  BlockHeader.number (Block.header block) = 0 ∧
  BlockHeader.parent_hash (Block.header block) = replicate 32 0 ∧
  (block_hash block).1 = compute_block_hash (Block.header block).
Proof.
  unfold Chain.get_block, Chain.get_block_header. intros Hb.
  apply bind_Ok in Hb as (header & Hh & [= <-]).
  do 4 apply bind_Ok in Hh as (? & _ & Hh). by injection Hh as <-.
Qed.

(** A store of one block. *)
Lemma single_block_inv genesis s :
  BlockHeader.number genesis = 0 → BlockHeader.parent_hash genesis ≠ compute_block_hash genesis →
  headers (Store.engine s) = {[(compute_block_hash genesis : list Z) := genesis]} →
  canonical_hashes (Store.engine s) = {[0 := (compute_block_hash genesis : list Z)]} →
  ChainData.earliest_block_number (chain_data (Store.engine s)) = Some 0 →
  ChainData.latest_block_number (chain_data (Store.engine s)) = Some 0 →
  ChainData.chain_config (chain_data (Store.engine s)) ≠ None →
  chain_inv genesis s.
Proof.
  intros Hn Hp Hh Hc He Hl Hcfg. split; rewrite ?Hh, ?Hn.
  - exists 0. split; rewrite ?Hh, ?Hc; try done.
    + by intros h x [<- <-]%lookup_singleton_Some.
    + intros h x p [<- <-]%lookup_singleton_Some [Hx _]%lookup_singleton_Some. congruence.
    + intros h x [<- <-]%lookup_singleton_Some. by rewrite Hn.
    + split.
      * intros n Hr. assert (n = 0) as -> by lia. eexists _, genesis.
        rewrite !lookup_singleton_eq. split_and!; [done..|lia].
      * intros n Hr. apply lookup_singleton_ne. lia.
  - by rewrite lookup_singleton_eq.
  - intros h x [<- <-]%lookup_singleton_Some. by left.
  - intros h x [<- <-]%lookup_singleton_Some. by rewrite Hn.
Qed.

Lemma add_initial_state_inv genesis block s0 :
  Chain.get_block genesis = Ok block →
  compute_block_hash (Block.header block) ≠ replicate 32 0 →
  Store.add_initial_state genesis Store.new = (Ok tt, s0) → chain_inv (Block.header block) s0.
Proof.
  intros Hb Hz Hi. destruct (genesis_block_shape genesis block Hb) as (Hn & Hp & Hh).
  unfold Store.add_initial_state in Hi. rewrite Hb in Hi.
  apply bind_Ok_inv in Hi as (? & ? & [= <- <-] & Hi). cbv zeta in Hi. rewrite Hh, Hn in Hi.
  apply bind_Ok_inv in Hi as (? & ? & [= <- <-] & Hi).
  apply bind_Ok_inv in Hi as (root & s1 & Hroot & Hi).
  pose proof (keeps_setup_genesis_state_trie (Genesis.alloc genesis)
    (Store.set_engine in_memory_new Store.new)) as Hk.
  rewrite Hroot in Hk. cbn [snd] in Hk. apply block_part_stored, stored_part_fields in Hk as (E1 & _ & _ & E4 & E5).
  apply bind_Ok_inv in Hi as (? & s2 & Hs2 & Hi).
  assert (s2 = s1) as -> by (by unfold state_lift in Hs2; injection Hs2).
  apply bind_Ok_inv in Hi as (? & s2' & Ha & Hi).
  destruct (store_add_block_cases block s1) as [Hr|(s3 & Hr & Hh3 & _ & Hc3 & _ & _ & _ & td & Hd3)];
    rewrite Hr in Ha; [done|injection Ha as _ <-].
  injection Hi as <-. apply single_block_inv; cbn; rewrite ?Hp; try done.
  - rewrite Hh3, E1. done.
  - rewrite Hc3, E4. done.
Qed.

(** ** The canonical chain of a reachable store *)

Lemma get_block_header_run n s :
  Store.get_block_header n s =
    (Ok (hash ← canonical_hashes (Store.engine s) !! (n : Z); headers (Store.engine s) !! hash), s).
Proof. apply on_engine_gets. Qed.

Lemma linked_header g s n :
  linked (headers (Store.engine s)) g (canonical_hashes (Store.engine s)) n →
  ∃ hash header, canonical_hashes (Store.engine s) !! n = Some hash ∧
    headers (Store.engine s) !! hash = Some header ∧
    Store.get_block_header n s = (Ok (Some header), s) ∧ BlockHeader.number header = n ∧
    (g < n → canonical_hashes (Store.engine s) !! (n - 1) = Some (BlockHeader.parent_hash header : list Z)).
Proof.
  intros (h & x & Hh & Hx & Hn & Hp). exists h, x. rewrite get_block_header_run, Hh. cbn.
  by rewrite Hx.
Qed.

Lemma chain_inv_valid genesis s :
  chain_inv genesis s →
  ∃ latest,
    ChainData.latest_block_number (chain_data (Store.engine s)) = Some latest ∧
    ∀ n, BlockHeader.number genesis ≤ n ≤ latest →
      ∃ header,
        Store.get_block_header n s = (Ok (Some header), s) ∧ BlockHeader.number header = n ∧
        (n = BlockHeader.number genesis → header = genesis) ∧
        (BlockHeader.number genesis < n → ∃ parent,
           Store.get_block_header (n - 1) s = (Ok (Some parent), s) ∧
           BlockHeader.parent_hash header = compute_block_hash parent ∧
           (parent_fits parent → valid_child header parent)).
Proof.
  intros [[l Hok] Hg Hi Hlow]. exists l. split; [by eapply so_latest|]. intros n Hn.
  destruct (so_chain _ _ _ Hok) as [Hl _].
  destruct (linked_header _ _ _ (Hl n Hn)) as (h & x & Hh & Hx & Hget & Hnum & Hp).
  exists x. split_and!; [done..| |].
  - intros ->. destruct (Hi h x Hx) as [->|(p & Hxp & Hpn & _)]; [congruence|].
    apply Hlow in Hxp. lia.
  - intros Hlt. destruct (Hi h x Hx) as [->|(p & Hxp & Hpn & Hval)].
    { rewrite Hg in Hx. injection Hx as <-. lia. }
    destruct (linked_header _ _ _ (Hl (n - 1) ltac:(lia))) as (h' & p' & Hh' & Hp' & Hget' & _ & _).
    rewrite (Hp Hlt) in Hh'. injection Hh' as <-. rewrite Hp' in Hxp. injection Hxp as <-.
    exists p'. split_and!; [done| |done]. symmetry. by eapply so_hash.
Qed.
End reachable.

(** C1 Every store reached from the genesis block holds a valid chain.  Start
    with an empty store and add the genesis block; then import blocks and choose
    forks, in any order and with any arguments, accepted or not.  The canonical
    headers from number 0 to the latest number are all there; the first is that
    of the genesis block, and each of the others names the hash of the one below
    as its parent and follows it by the rules of the headers, wherever the sums and
    products that these form of the one below fit in 64 bits.  No two headers that are
    imported have the same hash, and none the largest number of a block. *)
Theorem reachable_chain_valid `{Crypto} `{EthBloom} `{BuildProfile} `{Execution}
    (genesis : Genesis.t) block s0 s :
  Chain.get_block genesis = Ok block →
  compute_block_hash (Block.header block) ≠ replicate 32 0 →
  Store.add_initial_state genesis Store.new = (Ok tt, s0) →
  rtc (chain_step (Block.header block)) s0 s →
  ∃ latest,
    ChainData.latest_block_number (chain_data (Store.engine s)) = Some latest ∧
    ∀ n, 0 ≤ n ≤ latest →
      ∃ header,
        Store.get_block_header n s = (Ok (Some header), s) ∧ BlockHeader.number header = n ∧
        (n = 0 → header = Block.header block) ∧
        (0 < n → ∃ parent,
           Store.get_block_header (n - 1) s = (Ok (Some parent), s) ∧
           BlockHeader.parent_hash header = compute_block_hash parent ∧
           (parent_fits parent → valid_child header parent)).
Proof.
  intros Hb Hz Hi Hs. destruct (genesis_block_shape genesis block Hb) as (Hn & _ & _).
  rewrite <-Hn. by eapply chain_inv_valid, reachable_inv, add_initial_state_inv.
Qed.

(** C14 Importing a block.  [add_block] stores a block only if its parent is
    stored, the header follows the parent by the rules, the block executes, the
    receipts add up to the gas of the header and have its receipts root, and
    the state after the updates has its state root; then the header, the body
    and the receipts are recorded under the hash of the block, the tries and the codes
    are those of the updates, and the canonical chain is untouched.  In every other
    case the headers, bodies, receipts, transaction locations, canonical hashes and
    chain data stay as they were. *)
Theorem block_import_correct `{Crypto} `{EthBloom} `{BuildProfile} `{Execution} block s :
  let '(r, s') := add_block block s in
  match r with
  | Ok _ => ∃ parent rs updates, accepted block parent rs updates s ∧ stored_in block rs s s' ∧
      trie_part s' = trie_part (Store.apply_account_updates
        (BlockHeader.parent_hash (Block.header block)) updates s).2 ∧
      codes s' = codes (Store.apply_account_updates
        (BlockHeader.parent_hash (Block.header block)) updates s).2
  | _ => stored_part s' = stored_part s
  end.
Proof.
  pose proof (add_block_spec block s) as Hs. unfold spec in Hs. by destruct (add_block block s).
Qed.

(** ** A chain of two blocks *)

Section run.
Context `{Crypto} `{EthBloom} `{BuildProfile} `{Execution}.

(** From a genesis block: import a block and make it the head. *)
Definition import_check (genesis : Genesis.t) (first : BlockHeader.t) (child : Block.t) : bool :=
  let hash : list Z := compute_block_hash (Block.header child) in
  match Store.add_initial_state genesis Store.new with
  | (Ok _, s0) =>
      bool_decide (headers (Store.engine s0) !! hash = None) &&
      negb (bytes_eqb (BlockHeader.parent_hash first) hash) &&
      fits 64 (BlockHeader.number (Block.header child) + 1) &&
      let '(_, s1) := add_block child s0 in
      let '(_, s2) := apply_fork_choice hash hash hash s1 in
      bool_decide (ChainData.latest_block_number (chain_data (Store.engine s2)) = Some 1)
  | _ => false
  end.

Lemma import_check_spec genesis first child :
  import_check genesis first child = true →
  ∃ s0 s, Store.add_initial_state genesis Store.new = (Ok tt, s0) ∧
    rtc (chain_step first) s0 s ∧
    ChainData.latest_block_number (chain_data (Store.engine s)) = Some 1.
Proof.
  unfold import_check. destruct (Store.add_initial_state _ _) as [[[]| | |] s0]; try done.
  destruct (add_block child s0) as [r1 s1] eqn:E1.
  destruct (apply_fork_choice _ _ _ s1) as [r2 s2] eqn:E2. intros Hc.
  repeat (apply andb_true_iff in Hc as [Hc ?]).
  repeat match goal with Hb : bool_decide _ = true |- _ => apply bool_decide_eq_true in Hb end.
  exists s0, s2. split_and!; [done| |done].
  eapply rtc_l, rtc_l, rtc_refl; [|by eapply step_fork_choice].
  eapply step_add_block; [done|right; split; [done|]|by apply fits_spec].
  intros Hp%bytes_eqb_spec. by rewrite Hp in *.
Qed.
End run.

#[local] Instance debug_build : BuildProfile := true.
#[local] Instance demo_bloom : EthBloom := λ bloom _, bloom.
#[local] Instance demo_execution : Execution := λ _ _, Ok ([], []).

Definition first_genesis : Genesis.t := {|
  Genesis.config := demo_config; Genesis.alloc := []; Genesis.coinbase := replicate 20 2;
  Genesis.difficulty := 0; Genesis.extra_data := [0xab]; Genesis.gas_limit := 30000000;
  Genesis.nonce := 0; Genesis.mix_hash := replicate 32 5; Genesis.timestamp := 1000;
  Genesis.base_fee_per_gas := Some 7; Genesis.blob_gas_used := None;
  Genesis.excess_blob_gas := None;
|}.

Definition first_block : Block.t := Eval vm_compute in
  match Chain.get_block first_genesis with
  | Ok block => block
  | _ => Block.new demo_genesis BlockBody.empty
  end.

Definition next_header (first : BlockHeader.t) (state_root : list Z) : BlockHeader.t := {|
  BlockHeader.parent_hash := compute_block_hash first;
  BlockHeader.ommers_hash := DEFAULT_OMMERS_HASH;
  BlockHeader.coinbase := replicate 20 2; BlockHeader.state_root := state_root;
  BlockHeader.transactions_root := BlockHeader.transactions_root first;
  BlockHeader.receipts_root := BlockHeader.receipts_root first;
  BlockHeader.logs_bloom := bloom_zero; BlockHeader.difficulty := 0;
  BlockHeader.number := 1; BlockHeader.gas_limit := 30000000;
  BlockHeader.gas_used := 0; BlockHeader.timestamp := 1012;
  BlockHeader.extra_data := []; BlockHeader.prev_randao := replicate 32 5;
  BlockHeader.nonce := 0; BlockHeader.base_fee_per_gas := Some 7;
  BlockHeader.withdrawals_root := None; BlockHeader.blob_gas_used := None;
  BlockHeader.excess_blob_gas := None; BlockHeader.parent_beacon_block_root := None;
|}.

Definition next_block : Block.t :=
  let first := Block.header first_block in
  Block.new (next_header first (BlockHeader.state_root first)) BlockBody.empty.

Lemma next_block_imported : import_check first_genesis (Block.header first_block) next_block = true.
Proof. vm_compute. reflexivity. Qed.
Lemma first_block_built : Chain.get_block first_genesis = Ok first_block.
Proof. vm_compute. reflexivity. Qed.
Lemma first_hash : compute_block_hash (Block.header first_block) ≠ replicate 32 0.
Proof. vm_compute. discriminate. Qed.
Lemma first_fits : parent_fits (Block.header first_block).
Proof. vm_compute. intuition discriminate. Qed.

Lemma header_found n s (a b : BlockHeader.t) :
  Store.get_block_header n s = (Ok (Some a), s) → Store.get_block_header n s = (Ok (Some b), s) → a = b.
Proof. congruence. Qed.

Example reachable_chain_valid_witness :
  ∃ s0 s header,
    Store.add_initial_state first_genesis Store.new = (Ok tt, s0) ∧
    rtc (chain_step (Block.header first_block)) s0 s ∧
    Store.get_block_header 1 s = (Ok (Some header), s) ∧
    valid_child header (Block.header first_block).
Proof.
  destruct (import_check_spec _ _ _ next_block_imported) as (s0 & s & Hi & Hs & Hl).
  destruct (reachable_chain_valid first_genesis first_block s0 s first_block_built first_hash Hi Hs)
    as (l & Hl' & Hc).
  rewrite Hl in Hl'. injection Hl' as <-.
  destruct (Hc 1 ltac:(lia)) as (header & Hh & _ & _ & Hp).
  destruct (Hp ltac:(lia)) as (parent & Hpar & _ & Hv).
  destruct (Hc 0 ltac:(lia)) as (first & Hf & _ & Hfirst & _).
  pose proof (Hfirst eq_refl) as E. pose proof (header_found _ _ _ _ Hpar Hf) as E'.
  rewrite E', E in Hv. exact (ex_intro _ s0 (ex_intro _ s (ex_intro _ header
    (conj Hi (conj Hs (conj Hh (Hv first_fits))))))).
Defined.
