(* ===== verification/WorldState.v ===== *)
(** * The state of the accounts

    The tries of the store as a map from accounts to their nonce, balance, code
    and storage.  Applying the updates of a block to the tries, from the root of
    its parent, gives a root at which the tries hold the updated map, and leaves
    the states at all other roots as they were; reads at a root return what the
    map holds. *)

From stdpp Require Import base option list numbers strings gmap.
From S2P Require Import Prelude Rlp RlpProofs RlpStruct LevmHost LevmDemo.
From S2P Require Import TrieNode TrieCodec Trie TrieLogic TrieMap TrieOps TrieCorrect TrieCommit.
From S2P Require Import TrieHashed TrieTheorems Tx TxProofs BlockTypes BlockCodecs BlockRoots.
From S2P Require Import Chain ChainProofs Store StoreLogic Blockchain ForkChoice BlockImport.

Local Open Scope Z_scope.

(** ** Sizes *)

Lemma encode_slice_upper bs : len (encode_slice bs) ≤ len bs + 9.
Proof.
  assert (len (strip_zeros (be_encode 8 (len bs))) ≤ 8) as Hs.
  { unfold len. pose proof (strip_zeros_length (be_encode 8 (Z.of_nat (length bs)))) as Hl.
    rewrite be_encode_length in Hl. lia. }
  unfold encode_slice, put_stripped.
  repeat case_match; rewrite ?len_app, ?len_cons, ?len_nil in *; lia.
Qed.

Lemma encode_uint_upper k n : len (encode_uint k n) ≤ Z.of_nat k + 1.
Proof.
  unfold encode_uint, put_stripped. repeat case_match; rewrite ?len_cons, ?len_nil; [lia..|].
  pose proof (strip_zeros_length (be_encode k n)) as Hl. rewrite be_encode_length in Hl.
  unfold len. lia.
Qed.

Lemma encode_u256_upper n : len (encode (n : u256)) ≤ 41.
Proof.
  cbn. unfold encode_u256. etrans; [apply encode_slice_upper|]. unfold len.
  rewrite length_drop, be_encode_length. lia.
Qed.

Lemma as_list_upper e : len (as_list e) ≤ len e + 9.
Proof.
  unfold as_list, encode_length, put_stripped. rewrite len_app.
  pose proof (strip_zeros_length (be_encode 8 (len e))) as Hl. rewrite be_encode_length in Hl.
  destruct (_ <? _); rewrite ?len_cons, ?len_nil; unfold len in *; lia.
Qed.

Lemma account_state_size (a : AccountState.t) : rlp_valid a → len (encode a) ≤ isize_max.
Proof.
  intros (_ & _ & [_ Hr] & [_ Hc]). change (encode a) with (AccountState.encode a).
  unfold AccountState.encode, Encoder.new. rewrite finish_as_list, !field_app. cbn [app].
  etrans; [apply as_list_upper|]. rewrite !len_app.
  pose proof (encode_uint_upper 8 (AccountState.nonce a)) as H1.
  pose proof (encode_u256_upper (AccountState.balance a)) as H2.
  pose proof (encode_slice_upper (AccountState.storage_root a)) as H3.
  pose proof (encode_slice_upper (AccountState.code_hash a)) as H4.
  cbn in *. unfold encode_u64, isize_max. unfold len in *. lia.
Qed.

(** ** The map of the accounts *)

(** An account, with its storage by the hashes of the keys. *)
Record WorldAccount := {
  w_nonce : Z;
  w_balance : Z;
  w_code_hash : list Z;
  w_slots : gmap (list Z) Z;
}.

(** The accounts by the hashes of their addresses. *)
Notation World := (gmap (list Z) WorldAccount).

Section world.
Context `{CryptoLaws}.

Definition state_db (s : Store.t) : InMemoryTrieDB := state_trie_nodes (Store.engine s).
Definition storage_db (s : Store.t) (hashed_address : list Z) : InMemoryTrieDB :=
  default node_map_default (storage_trie_nodes (Store.engine s) !! hashed_address).

(** The values a storage trie holds: a slot of value 0 is not there. *)
Definition slot_value (v : Z) : list Z := encode (T := u256) v.
Definition slots_map (S : gmap (list Z) Z) : gmap (list Z) (list Z) := slot_value <$> S.
Definition slots_valid (S : gmap (list Z) Z) : Prop :=
  map_Forall (λ key v, len key = 32 ∧ 0 < v < 2 ^ 256) S.

(** The storage of an account at a root. *)
Definition storage_rep (d : InMemoryTrieDB) (root : list Z) (S : gmap (list Z) Z) : Prop :=
  slots_valid S ∧ trie_ok (trie_open d root) (slots_map S).

(** A stored account and the account it stands for. *)
Record account_rep (d : InMemoryTrieDB) (a : AccountState.t) (w : WorldAccount) : Prop := {
  ar_valid : rlp_valid a;
  ar_nonce : AccountState.nonce a = w_nonce w;
  ar_balance : AccountState.balance a = w_balance w;
  ar_code_hash : AccountState.code_hash a = w_code_hash w;
  ar_storage : storage_rep d (AccountState.storage_root a) (w_slots w);
}.

Definition accounts_map (A : gmap (list Z) AccountState.t) : gmap (list Z) (list Z) :=
  encode <$> A.

(** The accounts of a state trie that may have uncommitted changes. *)
Definition world_in (s : Store.t) (t : Trie InMemoryTrieDB) (W : World) : Prop :=
  ∃ A, trie_ok t (accounts_map A) ∧ map_Forall (λ key _, len key = 32) A ∧
    ∀ h, option_Forall2 (account_rep (storage_db s h)) (A !! h) (W !! h).

(** The accounts at a state root. *)
Definition world_at (s : Store.t) (root : list Z) (W : World) : Prop :=
  world_in s (trie_open (state_db s) root) W.

(** *** Reads *)

Lemma slot_value_ok (v : Z) :
  0 < v < 2 ^ 256 → decode (T := u256) (slot_value v) = Ok v ∧ good_value (slot_value v).
Proof.
  intros Hv. assert (rlp_valid (v : u256)) as Hval.
  { unfold rlp_valid, u256_valid, in_u. lia. }
  pose proof (encode_u256_upper v). split; [apply decode_encode|apply encode_good];
    try done; unfold isize_max; lia.
Qed.

Lemma account_decodes (a : AccountState.t) s :
  rlp_valid a → Store.decode_account (encode a) s = (Ok a, s).
Proof.
  intros Ha. unfold Store.decode_account, state_lift.
  by rewrite (decode_encode a Ha (account_state_size a Ha)).
Qed.

Lemma hash_address_bytes address : bytes (Store.hash_address address).
Proof. apply keccak_bytes. Qed.
Lemma hash_address_len address : len (Store.hash_address address) = 32.
Proof. apply len_32, keccak_length. Qed.
Lemma hash_key_bytes key : bytes (Store.hash_key key).
Proof. apply keccak_bytes. Qed.
Lemma hash_key_len key : len (Store.hash_key key) = 32.
Proof. apply len_32, keccak_length. Qed.

Lemma trie_result_run {A} (m : TrieResult A) a s : m = Ok a → Store.trie_result m s = (Ok a, s).
Proof. by intros ->. Qed.

(** An account of a trie. *)
Lemma account_in_run s s1 t W address :
  world_in s t W → collision_free (state t) →
  ∃ o, Store.account_in t address s1 = (Ok o, s1) ∧
    option_Forall2 (account_rep (storage_db s (Store.hash_address address))) o
      (W !! Store.hash_address address).
Proof.
  intros (A & Ht & _ & HA) Hc. exists (A !! Store.hash_address address). split; [|apply HA].
  specialize (HA (Store.hash_address address)).
  unfold Store.account_in. erewrite bind_run;
    [|by apply trie_result_run, (trie_get_ok t _ _ Ht Hc (hash_address_bytes address))].
  unfold accounts_map. rewrite lookup_fmap.
  destruct HA as [a w Ha|]; cbn [fmap option_fmap option_map]; [|done].
  erewrite bind_run; [done|]. apply account_decodes, Ha.
Qed.

(** *** Growing stores *)

Definition dbs_ok (s : Store.t) : Prop := db_ok (state_db s) ∧ ∀ h, db_ok (storage_db s h).

(** The nodes of the storage tries are kept, the state trie is the same. *)
Definition store_grows (s s' : Store.t) : Prop :=
  state_db s' = state_db s ∧ ∀ h, db_grows (storage_db s h) (storage_db s' h).

#[export] Instance store_grows_preorder : PreOrder store_grows.
Proof.
  split; [by intros s|]. intros s1 s2 s3 [E1 G1] [E2 G2]. split; [congruence|].
  intros h. etrans; [apply G1|apply G2].
Qed.

Lemma storage_rep_grows d d' root S : db_grows d d' → storage_rep d root S → storage_rep d' root S.
Proof. intros Hg [HS Ht]. split; [done|]. by eapply trie_ok_grows. Qed.

Lemma account_rep_grows d d' a w : db_grows d d' → account_rep d a w → account_rep d' a w.
Proof. intros Hg []. split; try done. by eapply storage_rep_grows. Qed.

Lemma world_in_grows s s' t W :
  (∀ h, db_grows (storage_db s h) (storage_db s' h)) → world_in s t W → world_in s' t W.
Proof.
  intros Hg (A & Ht & Hk & HA). exists A. split_and!; try done. intros h.
  destruct (HA h) as [a w Ha|]; constructor.
  eapply account_rep_grows, Ha. apply Hg.
Qed.

(** *** Storage *)

Definition slot_op (kv : list Z * Z) : TrieOp :=
  if kv.2 =? 0 then OpRemove (Store.hash_key kv.1)
  else OpInsert (Store.hash_key kv.1) (slot_value kv.2).

Definition write_slot (S : gmap (list Z) Z) (kv : list Z * Z) : gmap (list Z) Z :=
  if kv.2 =? 0 then delete (Store.hash_key kv.1) S else <[Store.hash_key kv.1 := kv.2]> S.
Definition write_slots (slots : list (list Z * Z)) (S : gmap (list Z) Z) : gmap (list Z) Z :=
  foldl write_slot S slots.

Definition slot_valid (kv : list Z * Z) : Prop := 0 ≤ kv.2 < 2 ^ 256.

Lemma slot_op_ok kv : slot_valid kv → op_ok (slot_op kv).
Proof.
  unfold slot_valid, slot_op. intros Hv. destruct (kv.2 =? 0) eqn:E; propify.
  - apply hash_key_bytes.
  - split; [apply hash_key_bytes|]. apply slot_value_ok. lia.
Qed.

Lemma spec_slot_op kv S : (spec_op (slot_op kv) (slots_map S)).2 = slots_map (write_slot S kv).
Proof.
  unfold slot_op, write_slot, slots_map. destruct (kv.2 =? 0); cbn.
  - by rewrite fmap_delete.
  - by rewrite fmap_insert.
Qed.

Lemma write_slot_valid kv S : slot_valid kv → slots_valid S → slots_valid (write_slot S kv).
Proof.
  unfold slot_valid, write_slot. intros Hv HS. destruct (kv.2 =? 0) eqn:E; propify.
  - by apply map_Forall_delete.
  - apply map_Forall_insert_2; [|done]. split; [apply hash_key_len|lia].
Qed.

(** The loop over the slots is a sequence of operations on the trie. *)
Lemma update_storage_run slots : ∀ t S,
  Forall slot_valid slots → slots_valid S → trie_ok t (slots_map S) →
  collision_free (state (run_ops (slot_op <$> slots) t).2) →
  Store.update_storage slots t = Ok (run_ops (slot_op <$> slots) t).2 ∧
  slots_valid (write_slots slots S) ∧
  trie_ok (run_ops (slot_op <$> slots) t).2 (slots_map (write_slots slots S)).
Proof.
  induction slots as [|[k v] slots IH]; intros t S Hv HS Ht Hc; [done|].
  apply Forall_cons in Hv as [Hkv Hv]. cbn [fmap list_fmap run_ops Store.update_storage] in *.
  pose proof (run_op_ok (slot_op (k, v)) t _ Ht (slot_op_ok _ Hkv)) as Hop.
  pose proof (run_ops_grows (slot_op <$> slots) (run_op (slot_op (k, v)) t).2) as Hg.
  assert (∀ r t1, run_op (slot_op (k, v)) t = (r, t1) →
    (let '(r, t) :=
       if v =? 0 then let '(r, t) := trie_remove (Store.hash_key k) t in (_ ← r; Ok (), t)
       else trie_insert (Store.hash_key k) (encode (v : u256)) t in
     _ ← r; Store.update_storage slots t) = (_ ← r; Store.update_storage slots t1)) as Hstep.
  { intros r t1. unfold slot_op. cbn [fst snd]. destruct (v =? 0); cbn [run_op].
    - destruct (trie_remove _ t) as [r' t']. intros [= -> ->]. by destruct r.
    - change (encode (v : u256)) with (slot_value v). destruct (trie_insert _ _ t) as [r' t'].
      intros [= <- ->]. by destruct r'. }
  destruct (run_op (slot_op (k, v)) t) as [r t1]. cbn [fst snd] in *.
  rewrite (Hstep _ _ eq_refl). clear Hstep.
  destruct (run_ops (slot_op <$> slots) t1) as [rs t2] eqn:E. cbn [snd] in *.
  destruct Hop as [-> Ht1]; [by eapply collision_free_extends|]. rewrite spec_slot_op in Ht1.
  specialize (IH t1 (write_slot S (k, v)) Hv (write_slot_valid _ _ Hkv HS) Ht1).
  rewrite E in IH. by apply IH.
Qed.

(** The trie of the storage of an account after an update of its slots. *)
Definition written_trie (s : Store.t) (h : list Z) (u : AccountUpdate.t) (a : AccountState.t) :
    Trie InMemoryTrieDB :=
  (run_ops (slot_op <$> AccountUpdate.added_storage u)
     (trie_open (storage_db s h) (AccountState.storage_root a))).2.

Lemma written_trie_state s h u a :
  db (state (written_trie s h u a)) = storage_db s h ∧ cache_ok (cache (state (written_trie s h u a))).
Proof.
  pose proof (run_ops_grows (slot_op <$> AccountUpdate.added_storage u)
    (trie_open (storage_db s h) (AccountState.storage_root a))) as Hg.
  unfold written_trie. split; [apply Hg|]. eapply cache_ok_extends; [exact Hg|constructor].
Qed.

Lemma slots_map_keys S : slots_valid S → hashed_keys (slots_map S).
Proof.
  intros HS k v Hk. unfold slots_map in Hk. apply lookup_fmap_Some in Hk as (w & _ & Hw).
  by apply HS in Hw as [? _].
Qed.

(** Opening, writing and committing the storage of an account. *)
Lemma commit_storage_run s h u a S :
  db_ok (storage_db s h) → storage_rep (storage_db s h) (AccountState.storage_root a) S →
  Forall slot_valid (AccountUpdate.added_storage u) → trie_safe (written_trie s h u a) →
  ∃ s', (t ← Store.open_storage_trie h (AccountState.storage_root a);
         t ← Store.trie_result (Store.update_storage (AccountUpdate.added_storage u) t);
         Store.commit_storage_trie h t) s = (Ok (hash_no_commit (written_trie s h u a)), s') ∧
    state_db s' = state_db s ∧ db_ok (storage_db s' h) ∧
    db_grows (storage_db s h) (storage_db s' h) ∧
    (∀ h', h' ≠ h → storage_db s' h' = storage_db s h') ∧
    storage_rep (storage_db s' h) (hash_no_commit (written_trie s h u a))
      (write_slots (AccountUpdate.added_storage u) S).
Proof.
  intros Hdb [HS Ht] Hv Hsafe. destruct (written_trie_state s h u a) as [Edb Hcache].
  destruct (update_storage_run (AccountUpdate.added_storage u) _ S Hv HS Ht (proj1 Hsafe))
    as (Hrun & HS' & Ht').
  fold (written_trie s h u a) in Hrun, Ht'.
  destruct (commit_reopens (written_trie s h u a) _ Ht' (slots_map_keys _ HS') Hsafe Hcache)
    as (t' & Hhash & Hok' & Hg & Hopen); [by rewrite Edb|]. rewrite Edb in Hg.
  erewrite bind_run by reflexivity.
  erewrite bind_run by (apply trie_result_run, Hrun).
  unfold Store.commit_storage_trie. rewrite Hhash. erewrite bind_run by reflexivity.
  eexists. split; [reflexivity|]. unfold storage_db, state_db. cbn.
  rewrite !lookup_insert_eq. split_and!; try done.
  intros h' Hh'. by rewrite !lookup_insert_ne by done.
Qed.

(** *** One update *)

Definition update_ok (u : AccountUpdate.t) : Prop :=
  from_option rlp_valid True (AccountUpdate.info u) ∧
  Forall slot_valid (AccountUpdate.added_storage u).

Definition empty_account : WorldAccount :=
  {| w_nonce := 0; w_balance := 0; w_code_hash := EMPTY_KECCACK_HASH; w_slots := ∅ |}.

(** What an update that does not remove the account makes of it. *)
Definition updated (u : AccountUpdate.t) (w : WorldAccount) : WorldAccount := {|
  w_nonce := from_option AccountInfo.nonce (w_nonce w) (AccountUpdate.info u);
  w_balance := from_option AccountInfo.balance (w_balance w) (AccountUpdate.info u);
  w_code_hash := from_option AccountInfo.code_hash (w_code_hash w) (AccountUpdate.info u);
  w_slots := write_slots (AccountUpdate.added_storage u) (w_slots w);
|}.

Definition update_world (W : World) (u : AccountUpdate.t) : World :=
  let h := Store.hash_address (AccountUpdate.address u) in
  if AccountUpdate.removed u then delete h W
  else <[h := updated u (default empty_account (W !! h))]> W.

Lemma empty_code_hash_valid : rlp_valid (EMPTY_KECCACK_HASH : H256).
Proof.
  split; [|done]. repeat (apply Forall_cons; split; [unfold byte; lia|]). constructor.
Qed.

Lemma default_rep d : account_rep d account_state_default empty_account.
Proof.
  split; try done.
  - split; [done|]. split; [done|]. split; [|apply empty_code_hash_valid].
    split; [apply keccak_bytes|apply keccak_length].
  - split; [apply map_Forall_empty|]. unfold slots_map. cbn [w_slots empty_account].
    rewrite fmap_empty. split; [apply map_Forall_empty|]. cbn. by rewrite decide_True.
Qed.

(** The account with the fields of [info] and another storage root. *)
Definition with_info (u : AccountUpdate.t) (storage_root : list Z) (a : AccountState.t) :
    AccountState.t := {|
  AccountState.nonce := from_option AccountInfo.nonce (AccountState.nonce a) (AccountUpdate.info u);
  AccountState.balance :=
    from_option AccountInfo.balance (AccountState.balance a) (AccountUpdate.info u);
  AccountState.storage_root := storage_root;
  AccountState.code_hash :=
    from_option AccountInfo.code_hash (AccountState.code_hash a) (AccountUpdate.info u);
|}.

(** [update_info] changes the fields and, of the store, only the codes. *)
Lemma update_info_run u a s :
  ∃ s', Store.update_info u a s = (Ok (with_info u (AccountState.storage_root a) a), s') ∧
    state_db s' = state_db s ∧ ∀ h, storage_db s' h = storage_db s h.
Proof.
  unfold Store.update_info, with_info. destruct (AccountUpdate.info u) as [info|]; cbn.
  - by destruct (AccountUpdate.code u) as [code|]; eexists.
  - exists s. by destruct a.
Qed.

Lemma with_info_rep u a w d d' root :
  update_ok u → account_rep d a w → bytes root → length root = 32%nat →
  storage_rep d' root (w_slots (updated u w)) →
  account_rep d' (with_info u root a) (updated u w).
Proof.
  intros [Hi _] [(Hv1 & Hv2 & Hv3 & Hv4) En Eb Ec _] Hb Hl Hs. split; cbn; rewrite ?En, ?Eb, ?Ec;
    try done. cbn in Hi. unfold with_info.
  destruct (AccountUpdate.info u) as [info|]; cbn in *; [destruct Hi as (? & ? & ?)|];
    by split_and!.
Qed.

(** The account that is inserted. *)
Definition new_state (s : Store.t) (h : list Z) (u : AccountUpdate.t) (a : AccountState.t) :
    AccountState.t :=
  with_info u
    (match AccountUpdate.added_storage u with
     | [] => AccountState.storage_root a
     | _ => hash_no_commit (written_trie s h u a)
     end) a.

Lemma hash_no_commit_ok (t : Trie InMemoryTrieDB) M :
  trie_ok t M → bytes (hash_no_commit t) ∧ length (hash_no_commit t) = 32%nat.
Proof.
  intros [_ Ht]. unfold hash_no_commit.
  destruct (root t) as [r|]; [|split; [apply keccak_bytes|apply keccak_length]].
  destruct Ht as (n & -> & _ & _). unfold compute_hash, from_encoded_raw.
  destruct (32 <=? len (encode_raw n)); split; first [apply keccak_bytes|apply keccak_length].
Qed.

Lemma update_account_run u a w s h :
  dbs_ok s → update_ok u → account_rep (storage_db s h) a w →
  (AccountUpdate.added_storage u ≠ [] → trie_safe (written_trie s h u a)) →
  ∃ s', (a ← Store.update_info u a; Store.update_storage_root h u a) s
      = (Ok (new_state s h u a), s') ∧
    store_grows s s' ∧ dbs_ok s' ∧ account_rep (storage_db s' h) (new_state s h u a) (updated u w).
Proof.
  intros [Hdb Hdbs] Hu Ha Hsafe.
  destruct (update_info_run u a s) as (s1 & Hr & Est & Es). rewrite (bind_run _ _ _ _ _ Hr).
  set (a1 := with_info u (AccountState.storage_root a) a) in *.
  assert (written_trie s1 h u a1 = written_trie s h u a) as Ew by (unfold written_trie; by rewrite Es).
  assert (dbs_ok s1) as Hdbs1 by (split; [by rewrite Est|intros h'; by rewrite Es]).
  assert (store_grows s s1) as Hg1 by (split; [done|intros h'; by rewrite Es]).
  unfold Store.update_storage_root, new_state.
  destruct (AccountUpdate.added_storage u) as [|kv slots] eqn:Eu.
  { exists s1. split; [done|]. split; [done|]. split; [done|]. rewrite Es. pose proof Ha as [].
    apply with_info_rep with (d := storage_db s h); try done; [by apply ar_valid0..|].
    cbn. by rewrite Eu. }
  rewrite <-Eu in *. specialize (Hsafe ltac:(congruence)).
  destruct (commit_storage_run s1 h u a1 (w_slots w)) as (s2 & Hrun & Est2 & Hok2 & Hg2 & Hne & Hrep2).
  { apply Hdbs1. } { rewrite Es. apply Ha. } { apply Hu. } { by rewrite Ew. }
  rewrite Ew in Hrun, Hrep2. exists s2.
  apply bind_Ok_inv in Hrun as (t1 & s3 & Ho & Hrun).
  apply bind_Ok_inv in Hrun as (t2 & s4 & Hup & Hrun).
  split; [by erewrite bind_run, bind_run, bind_run|]. split; [|split; [split|]].
  - etrans; [exact Hg1|]. split; [done|]. intros h'. destruct (decide (h' = h)) as [->|]; [done|].
    by rewrite Hne.
  - rewrite Est2. apply Hdbs1.
  - intros h'. destruct (decide (h' = h)) as [->|]; [done|]. rewrite Hne by done. apply Hdbs1.
  - destruct Hrep2 as [HS Ht]. 
    assert (trie_ok (written_trie s h u a) (slots_map (write_slots (AccountUpdate.added_storage u) (w_slots w)))) as Hw.
    { destruct Ha as [_ _ _ _ [HS0 Ht0]]. by apply (update_storage_run _ _ _ (proj2 Hu) HS0 Ht0), Hsafe. }
    destruct (hash_no_commit_ok _ _ Hw). by apply with_info_rep with (d := storage_db s h).
Qed.

(** No collisions in the tries that an update makes. *)
Definition safe_update (u : AccountUpdate.t) (t : Trie InMemoryTrieDB) (s : Store.t) : Prop :=
  let h := Store.hash_address (AccountUpdate.address u) in
  collision_free (state t) ∧
  if AccountUpdate.removed u then collision_free (state (trie_remove h t).2)
  else
    ∀ o, Store.account_in t (AccountUpdate.address u) s = (Ok o, s) →
      let a := default account_state_default o in
      (AccountUpdate.added_storage u ≠ [] → trie_safe (written_trie s h u a)) ∧
      collision_free (state (trie_insert h (encode (new_state s h u a)) t).2).

Fixpoint safe_updates (us : list AccountUpdate.t) (t : Trie InMemoryTrieDB) (s : Store.t) : Prop :=
  match us with
  | [] => trie_safe t
  | u :: us =>
      safe_update u t s ∧
      ∀ t' s', Store.apply_account_update u t s = (Ok t', s') → safe_updates us t' s'
  end.

(** The state trie in the loop: of the nodes of the store, and uncommitted ones. *)
Record loop_inv (s : Store.t) (t : Trie InMemoryTrieDB) (W : World) : Prop := {
  li_dbs : dbs_ok s;
  li_db : db (state t) = state_db s;
  li_cache : cache_ok (cache (state t));
  li_world : world_in s t W;
}.

Lemma world_in_delete s t t' W h :
  len h = 32 → (∀ M, trie_ok t M → trie_ok t' (delete h M)) →
  world_in s t W → world_in s t' (delete h W).
Proof.
  intros Hh Ht' (A & Ht & Hk & HA). exists (delete h A). split_and!.
  - unfold accounts_map. rewrite fmap_delete. by apply Ht'.
  - by apply map_Forall_delete.
  - intros h'. destruct (decide (h' = h)) as [->|].
    + rewrite !lookup_delete_eq. constructor.
    + by rewrite !lookup_delete_ne.
Qed.

Lemma world_in_insert s t t' W h a w :
  len h = 32 → (∀ M, trie_ok t M → trie_ok t' (<[h := encode a]> M)) →
  account_rep (storage_db s h) a w → world_in s t W → world_in s t' (<[h := w]> W).
Proof.
  intros Hh Ht' Ha (A & Ht & Hk & HA). exists (<[h := a]> A). split_and!.
  - unfold accounts_map. rewrite fmap_insert. by apply Ht'.
  - by apply map_Forall_insert_2.
  - intros h'. destruct (decide (h' = h)) as [->|].
    + rewrite !lookup_insert_eq. by constructor.
    + by rewrite !lookup_insert_ne.
Qed.

Lemma account_good (a : AccountState.t) : rlp_valid a → good_value (encode a).
Proof. intros Ha. by apply encode_good, account_state_size. Qed.

Lemma removed_run u t s W :
  AccountUpdate.removed u = true → loop_inv s t W → safe_update u t s →
  ∃ t' s', Store.apply_account_update u t s = (Ok t', s') ∧ store_grows s s' ∧
    loop_inv s' t' (update_world W u).
Proof.
  unfold safe_update, Store.apply_account_update, update_world. intros -> [Hdbs Hdb Hc HW] [_ Hs].
  set (h := Store.hash_address (AccountUpdate.address u)) in *.
  assert (∀ M, trie_ok t M → (trie_remove h t).1 = Ok (M !! h) ∧ trie_ok (trie_remove h t).2 (delete h M)) as Hr.
  { intros M HM. pose proof (trie_remove_ok t M h HM (hash_address_bytes _)) as Hx.
    destruct (trie_remove h t). by apply Hx. }
  pose proof (trie_remove_grows h t) as Hg. pose proof HW as (A & HA & _).
  destruct (Hr _ HA) as [Hok _]. destruct (trie_remove h t) as [r t'] eqn:E. cbn [fst snd] in *.
  subst r. exists t', s. split; [done|]. split; [done|]. split; [done| | |].
  - by rewrite (proj1 Hg).
  - by eapply cache_ok_extends.
  - apply (world_in_delete s t t' W h); [apply hash_address_len| |done]. intros M HM. by apply Hr.
Qed.

Lemma option_rep_default d o ow :
  option_Forall2 (account_rep d) o ow →
  account_rep d (default account_state_default o) (default empty_account ow).
Proof. intros [a w Ha|]; [done|apply default_rep]. Qed.

(** Inserting an account keeps the invariant of the loop. *)
Lemma loop_insert s s' t W h a w :
  loop_inv s t W → store_grows s s' → dbs_ok s' → bytes h → len h = 32 →
  account_rep (storage_db s' h) a w →
  collision_free (state (trie_insert h (encode a) t).2) →
  ∃ t', trie_insert h (encode a) t = (Ok (), t') ∧ loop_inv s' t' (<[h := w]> W).
Proof.
  intros [Hdbs Hdb Hc HW] Hg Hdbs' Hb Hl Ha Hcf.
  assert (∀ M, trie_ok t M → (trie_insert h (encode a) t).1 = Ok () ∧
    trie_ok (trie_insert h (encode a) t).2 (<[h := encode a]> M)) as Hr.
  { intros M HM. pose proof (trie_insert_ok t M h (encode a) HM Hb
      (account_good a (ar_valid _ _ _ Ha))) as Hx.
    destruct (trie_insert h (encode a) t). by apply Hx. }
  pose proof (trie_insert_grows h (encode a) t) as Hgt. pose proof HW as (A & HA & _).
  destruct (Hr _ HA) as [Hok _]. destruct (trie_insert h (encode a) t) as [r t'] eqn:E.
  cbn [fst snd] in *. subst r. exists t'. split; [done|]. split; [done| | |].
  - rewrite (proj1 Hgt), Hdb. by destruct Hg.
  - by eapply cache_ok_extends.
  - apply (world_in_insert s' t t' W h a); [done| |done|].
    + intros M HM. by apply Hr.
    + eapply world_in_grows, HW. apply Hg.
Qed.

Lemma inserted_run u t s W :
  AccountUpdate.removed u = false → update_ok u → loop_inv s t W → safe_update u t s →
  ∃ t' s', Store.apply_account_update u t s = (Ok t', s') ∧ store_grows s s' ∧
    loop_inv s' t' (update_world W u).
Proof.
  unfold safe_update, Store.apply_account_update, update_world.
  intros -> Hu [Hdbs Hdb Hc HW] [Hcf Hs].
  set (h := Store.hash_address (AccountUpdate.address u)) in *.
  destruct (account_in_run s s t W (AccountUpdate.address u) HW Hcf) as (o & Ho & Hrep).
  apply option_rep_default in Hrep. fold h in Hrep. destruct (Hs o Ho) as [Hsafe Hins].
  set (a := default account_state_default o) in *.
  destruct (update_account_run u a _ s h Hdbs Hu Hrep Hsafe) as (s' & Hrun & Hg & Hdbs' & Ha).
  apply bind_Ok_inv in Hrun as (a1 & s1 & Hr1 & Hr2).
  erewrite bind_run by exact Ho. fold a. rewrite (bind_run _ _ _ _ _ Hr1), (bind_run _ _ _ _ _ Hr2).
  destruct (loop_insert s s' t W h (new_state s h u a) _ (Build_loop_inv _ _ _ Hdbs Hdb Hc HW) Hg Hdbs'
    (hash_address_bytes _) (hash_address_len _) Ha Hins) as (t' & Hok & Hi).
  rewrite Hok. by exists t', s'.
Qed.

Lemma apply_account_update_run u t s W :
  update_ok u → loop_inv s t W → safe_update u t s →
  ∃ t' s', Store.apply_account_update u t s = (Ok t', s') ∧ store_grows s s' ∧
    loop_inv s' t' (update_world W u).
Proof.
  intros Hu Hi Hs. destruct (AccountUpdate.removed u) eqn:E;
    [by apply removed_run|by apply inserted_run].
Qed.

Lemma apply_updates_run us : ∀ t s W,
  Forall update_ok us → loop_inv s t W → safe_updates us t s →
  ∃ t' s', Store.apply_updates us t s = (Ok t', s') ∧ store_grows s s' ∧ trie_safe t' ∧
    loop_inv s' t' (foldl update_world W us).
Proof.
  induction us as [|u us IH]; intros t s W Hus Hi Hs; [by exists t, s|].
  apply Forall_cons in Hus as [Hu Hus]. destruct Hs as [Hs Hrest].
  destruct (apply_account_update_run u t s W Hu Hi Hs) as (t1 & s1 & Hr & Hg & Hi1).
  destruct (IH t1 s1 (update_world W u) Hus Hi1 (Hrest _ _ Hr)) as (t2 & s2 & Hr2 & Hg2 & Hs2 & Hi2).
  exists t2, s2. cbn [Store.apply_updates]. rewrite (bind_run _ _ _ _ _ Hr).
  split; [done|]. split; [by etrans|done].
Qed.

Lemma world_at_grows s s' root W :
  db_grows (state_db s) (state_db s') → (∀ h, db_grows (storage_db s h) (storage_db s' h)) →
  world_at s root W → world_at s' root W.
Proof.
  intros Hg Hgs HW. unfold world_at in *. apply (world_in_grows s s'); [done|].
  destruct HW as (A & Ht & Hk & HA). exists A. split_and!; try done. by eapply trie_ok_grows.
Qed.

Lemma accounts_map_keys A :
  map_Forall (λ key _, len key = 32) A → hashed_keys (accounts_map A).
Proof.
  intros HA k v Hk. unfold accounts_map in Hk. apply lookup_fmap_Some in Hk as (a & _ & Ha).
  by apply HA in Ha.
Qed.

Lemma commit_state_run t s W :
  loop_inv s t W → trie_safe t →
  ∃ s', Store.commit_state_trie t s = (Ok (hash_no_commit t), s') ∧ dbs_ok s' ∧
    db_grows (state_db s) (state_db s') ∧ (∀ h, storage_db s' h = storage_db s h) ∧
    world_at s' (hash_no_commit t) W.
Proof.
  intros [[Hst Hdbs] Hdb Hc (A & Ht & Hk & HA)] Hs.
  destruct (commit_reopens t _ Ht (accounts_map_keys A Hk) Hs Hc) as (t' & Hhash & Hok & Hg & Ho);
    [by rewrite Hdb|].
  unfold Store.commit_state_trie. rewrite Hhash. eexists. split; [reflexivity|].
  rewrite Hdb in Hg. split; [split; [done|apply Hdbs]|]. split; [done|]. split; [done|].
  exists A. split_and!; try done.
Qed.
End world.

Lemma apply_account_updates_run `{CryptoLaws} (block_hash : list Z) (header : BlockHeader.t)
    (us : list AccountUpdate.t) (s : Store.t) (W : World) :
  headers (Store.engine s) !! block_hash = Some header →
  dbs_ok s → world_at s (BlockHeader.state_root header) W → Forall update_ok us →
  safe_updates us (trie_open (state_db s) (BlockHeader.state_root header)) s →
  ∃ root s', Store.apply_account_updates block_hash us s = (Ok (Some root), s') ∧
    world_at s' root (foldl update_world W us) ∧ dbs_ok s' ∧
    (∀ root0 W0, world_at s root0 W0 → world_at s' root0 W0).
Proof.
  intros Hh Hdbs HW Hus Hs. set (t := trie_open _ _) in Hs.
  assert (loop_inv s t W) as Hi by (split; [done|done|constructor|done]).
  destruct (apply_updates_run us t s W Hus Hi Hs) as (t1 & s1 & Hr1 & Hg1 & Hs1 & Hi1).
  destruct (commit_state_run t1 s1 _ Hi1 Hs1) as (s2 & Hr2 & Hdbs2 & Hg2 & Est2 & HW2).
  exists (hash_no_commit t1), s2. split; [|split; [done|split; [done|]]].
  - unfold Store.apply_account_updates, Store.state_trie, Store.get_block_header_by_hash,
      Engine.get_block_header_by_hash.
    erewrite bind_run; [|erewrite bind_run by apply on_engine_gets; rewrite Hh;
      erewrite bind_run by apply on_engine_gets; reflexivity].
    etrans; [apply bind_run; exact Hr1|]. by rewrite (bind_run _ _ _ _ _ Hr2).
  - intros root0 W0. apply world_at_grows.
    + destruct Hg1 as [<- _]. done.
    + intros h. rewrite Est2. apply Hg1.
Qed.

(** *** Codes *)

(** The code of an update goes under the code hash that the update gives the account. *)
Definition write_code (C : gmap (list Z) (list Z)) (u : AccountUpdate.t) : gmap (list Z) (list Z) :=
  if AccountUpdate.removed u then C
  else
    match AccountUpdate.info u, AccountUpdate.code u with
    | Some info, Some code => <[AccountInfo.code_hash info : list Z := code]> C
    | _, _ => C
    end.

Section codes.
Context `{Crypto}.

Lemma get_account_code_run (hash : list Z) s : (Store.get_account_code hash s).1 = Ok (codes s !! hash).
Proof.
  unfold Store.get_account_code, Engine.get_account_code. by rewrite on_engine_gets.
Qed.

Definition keeps_codes {E A} (m : StateT Store.t E A) : Prop := ∀ s, codes (m s).2 = codes s.

Lemma keeps_codes_run {E A} (m : StateT Store.t E A) s r s' :
  keeps_codes m → m s = (r, s') → codes s' = codes s.
Proof. intros Hm E0. specialize (Hm s). by rewrite E0 in Hm. Qed.

Lemma keeps_codes_read_only {E A} (m : StateT Store.t E A) : read_only m → keeps_codes m.
Proof. intros Hm s. by rewrite Hm. Qed.

Lemma read_only_state {E A} (m : StateT Store.t E A) s r s' :
  read_only m → m s = (r, s') → s' = s.
Proof. intros Hm E0. specialize (Hm s). by rewrite E0 in Hm. Qed.

Lemma keeps_codes_bind {E A B} (m : StateT Store.t E A) (f : A → StateT Store.t E B) :
  keeps_codes m → (∀ a, keeps_codes (f a)) → keeps_codes (m ≫= f).
Proof.
  intros Hm Hf s. unfold mbind, state_bind. specialize (Hm s).
  destruct (m s) as [[] s']; cbn in *; rewrite <-Hm; [apply Hf|done..].
Qed.

Lemma keeps_codes_commit_storage h t : keeps_codes (Store.commit_storage_trie h t).
Proof. unfold Store.commit_storage_trie. destruct (trie_hash t) as [r t']. intros s. by destruct r. Qed.

Lemma keeps_codes_commit_state t : keeps_codes (Store.commit_state_trie t).
Proof. unfold Store.commit_state_trie. destruct (trie_hash t) as [r t']. intros s. by destruct r. Qed.

Lemma keeps_codes_update_storage h u a : keeps_codes (Store.update_storage_root h u a).
Proof.
  unfold Store.update_storage_root. destruct (AccountUpdate.added_storage u); [done|].
  apply keeps_codes_bind; [done|intros t].
  apply keeps_codes_bind; [apply keeps_codes_read_only; read_only|intros t'].
  apply keeps_codes_bind; [apply keeps_codes_commit_storage|done].
Qed.

Lemma update_info_codes u a a' s s' :
  AccountUpdate.removed u = false → Store.update_info u a s = (Ok a', s') →
  codes s' = write_code (codes s) u.
Proof.
  unfold Store.update_info, write_code. intros ->.
  destruct (AccountUpdate.info u) as [info|]; [|by intros [= _ <-]].
  by destruct (AccountUpdate.code u) as [code|]; intros [= _ <-].
Qed.

Lemma apply_account_update_codes u t t' s s' :
  Store.apply_account_update u t s = (Ok t', s') → codes s' = write_code (codes s) u.
Proof.
  unfold Store.apply_account_update. destruct (AccountUpdate.removed u) eqn:Er.
  - destruct (trie_remove _ t) as [[o| | |] t1]; intros E; try done.
    injection E as _ <-. unfold write_code. by rewrite Er.
  - intros (o & s1 & Ho & (a & s2 & Ha & (a' & s3 & Ha' & E)%bind_Ok_inv)%bind_Ok_inv)%bind_Ok_inv.
    assert (s1 = s) as -> by (eapply read_only_state; [|exact Ho]; read_only).
    rewrite <-(update_info_codes _ _ _ _ _ Er Ha).
    rewrite <-(keeps_codes_run _ _ _ _ (keeps_codes_update_storage _ _ _) Ha').
    destruct (trie_insert _ _ t) as [[[]| | |] t1]; try done. by injection E as _ <-.
Qed.

Lemma apply_updates_codes us : ∀ t t' s s',
  Store.apply_updates us t s = (Ok t', s') → codes s' = foldl write_code (codes s) us.
Proof.
  induction us as [|u us IH]; intros t t' s s'; [by intros [= _ <-]|].
  intros (t1 & s1 & Hu & Hr)%bind_Ok_inv. cbn [foldl].
  rewrite <-(apply_account_update_codes _ _ _ _ _ Hu). by eapply IH.
Qed.

Lemma apply_account_updates_written block_hash us s root s' :
  Store.apply_account_updates block_hash us s = (Ok (Some root), s') →
  codes s' = foldl write_code (codes s) us.
Proof.
  intros (o & s1 & Ho & E)%bind_Ok_inv.
  assert (s1 = s) as -> by (eapply read_only_state; [|exact Ho]; read_only).
  destruct o as [t|]; [|done].
  apply bind_Ok_inv in E as (t1 & s2 & Hu & (r & s3 & Hc & [= _ <-])%bind_Ok_inv).
  rewrite <-(apply_updates_codes _ _ _ _ _ Hu).
  by rewrite (keeps_codes_run _ _ _ _ (keeps_codes_commit_state _) Hc).
Qed.
End codes.

(** ** Reads at a block *)

Section reads.
Context `{CryptoLaws}.

Definition info_of (w : WorldAccount) : AccountInfo.t := {|
  AccountInfo.code_hash := w_code_hash w; AccountInfo.balance := w_balance w;
  AccountInfo.nonce := w_nonce w;
|}.

(** What the store answers for the state at a block. *)
Definition reads_at (s : Store.t) (block_hash : list Z) (W : World) : Prop :=
  ∀ address,
    (Store.get_account_info_by_hash block_hash address s).1 =
      Ok (info_of <$> W !! Store.hash_address address) ∧
    ∀ key,
      (Store.get_storage_at_hash block_hash address key s).1 =
        Ok (w ← W !! Store.hash_address address; w_slots w !! Store.hash_key key).

Lemma state_trie_run s (block_hash : list Z) header :
  headers (Store.engine s) !! block_hash = Some header →
  Store.state_trie block_hash s =
    (Ok (Some (trie_open (state_db s) (BlockHeader.state_root header))), s).
Proof.
  intros Hh. unfold Store.state_trie, Store.get_block_header_by_hash,
    Engine.get_block_header_by_hash.
  erewrite bind_run by apply on_engine_gets. rewrite Hh.
  by erewrite bind_run by apply on_engine_gets.
Qed.

Lemma account_state_run s (block_hash address : list Z) header W :
  headers (Store.engine s) !! block_hash = Some header →
  world_at s (BlockHeader.state_root header) W →
  ∃ o, Store.get_account_state_by_hash block_hash address s = (Ok o, s) ∧
    option_Forall2 (account_rep (storage_db s (Store.hash_address address))) o
      (W !! Store.hash_address address).
Proof.
  intros Hh HW. unfold Store.get_account_state_by_hash.
  rewrite (bind_run _ _ _ _ _ (state_trie_run _ _ _ Hh)).
  apply (account_in_run s); [done|apply collision_free_nil].
Qed.

Lemma storage_read s h (a : AccountState.t) w key :
  account_rep (storage_db s h) a w →
  trie_get (trie_open (storage_db s h) (AccountState.storage_root a)) (Store.hash_key key) =
    Ok (slot_value <$> w_slots w !! Store.hash_key key).
Proof.
  intros [_ _ _ _ [_ Ht]]. rewrite (trie_get_ok _ _ _ Ht (collision_free_nil _) (hash_key_bytes key)).
  unfold slots_map. by rewrite lookup_fmap.
Qed.

Lemma world_reads s (block_hash : list Z) header W :
  headers (Store.engine s) !! block_hash = Some header →
  world_at s (BlockHeader.state_root header) W → reads_at s block_hash W.
Proof.
  intros Hh HW address.
  destruct (account_state_run s block_hash address header W Hh HW) as (o & Ho & Hrep).
  set (h := Store.hash_address address) in *. split.
  - unfold Store.get_account_info_by_hash. rewrite (bind_run _ _ _ _ _ Ho).
    destruct Hrep as [a w [_ En Eb Ec _]|]; [|done]. cbn. unfold info_of. by rewrite En, Eb, Ec.
  - intros key. unfold Store.get_storage_at_hash, Store.storage_trie.
    destruct Hrep as [a w Ha|].
    + erewrite bind_run; [|rewrite (bind_run _ _ _ _ _ Ho); erewrite bind_run by reflexivity;
        reflexivity].
      cbv beta iota. erewrite bind_run; [|apply trie_result_run, (storage_read s h a w key Ha)].
      destruct Ha as [_ _ _ _ [HS _]]. cbn [mbind option_bind].
      destruct (w_slots w !! Store.hash_key key) as [v|] eqn:Ev; [|done].
      apply HS in Ev as [_ Hv]. destruct (slot_value_ok v Hv) as [Hd _].
      cbn [fmap option_fmap option_map]. unfold state_lift, mbind, state_bind. by rewrite Hd.
    + by erewrite bind_run; [|rewrite (bind_run _ _ _ _ _ Ho); reflexivity].
Qed.
End reads.

Lemma world_at_part `{CryptoLaws} (s s' : Store.t) (root : list Z) (W : World) :
  trie_part s' = trie_part s → world_at s root W → world_at s' root W.
Proof.
  unfold trie_part, world_at, world_in, state_db, storage_db. by intros [= -> ->].
Qed.

Lemma dbs_ok_part `{CryptoLaws} (s s' : Store.t) : trie_part s' = trie_part s → dbs_ok s → dbs_ok s'.
Proof. unfold trie_part, dbs_ok, state_db, storage_db. by intros [= -> ->]. Qed.

(** ** The state of imported blocks *)

(** C15 Applying the updates of a block.  From the state of its parent, whatever
    the updates (of new, existing or removed accounts, any number of slots, any
    order), [apply_account_updates] succeeds and returns a root; the tries of
    the store hold, at this root, the accounts and storage of the parent with
    the updates made one after the other, and the states at all other roots are
    still there.  No two different nodes may have the same hash. *)
Theorem state_updates_correct `{CryptoLaws} (block_hash : list Z) (header : BlockHeader.t)
    (us : list AccountUpdate.t) (s : Store.t) (W : World) :
  headers (Store.engine s) !! block_hash = Some header →
  dbs_ok s → world_at s (BlockHeader.state_root header) W → Forall update_ok us →
  safe_updates us (trie_open (state_db s) (BlockHeader.state_root header)) s →
  ∃ root s', Store.apply_account_updates block_hash us s = (Ok (Some root), s') ∧
    world_at s' root (foldl update_world W us) ∧ dbs_ok s' ∧
    (∀ root0 W0, world_at s root0 W0 → world_at s' root0 W0).
Proof. apply apply_account_updates_run. Qed.

(** C6 The state of an imported block.  If [add_block] accepts a block whose
    parent has a state in the store, then reading balances, nonces, code hashes
    and storage at the new block returns what the updates of its execution make
    of the state of the parent, and reading them at any other block returns what
    it returned before.  Reading a code by its hash returns the code that the last
    update with this code hash brought along, and the code that was there when
    there is no such update.  No two different nodes of the tries may have the same
    hash. *)
Theorem imported_state_correct `{CryptoLaws} `{EthBloom} `{BuildProfile} `{Execution}
    (block : Block.t) (parent : BlockHeader.t) (rs : list Receipt.t)
    (us : list AccountUpdate.t) (s s' : Store.t) (W : World) :
  headers (Store.engine s) !! (BlockHeader.parent_hash (Block.header block) : list Z) = Some parent →
  dbs_ok s → world_at s (BlockHeader.state_root parent) W →
  execute_block s block = Ok (rs, us) → Forall update_ok us →
  safe_updates us (trie_open (state_db s) (BlockHeader.state_root parent)) s →
  add_block block s = (Ok tt, s') →
  reads_at s' (compute_block_hash (Block.header block)) (foldl update_world W us) ∧ dbs_ok s' ∧
  (∀ hash, (Store.get_account_code hash s').1 = Ok (foldl write_code (codes s) us !! hash)) ∧
  ∀ (hash : list Z) header W0,
    headers (Store.engine s) !! hash = Some header → hash ≠ compute_block_hash (Block.header block) →
    world_at s (BlockHeader.state_root header) W0 → reads_at s' hash W0.
Proof.
  intros Hp Hdbs HW Hex Hus Hsafe Hadd. pose proof (add_block_spec block s) as Hs. unfold spec in Hs.
  rewrite Hadd in Hs. cbn [fst snd] in Hs. destruct Hs as (parent' & rs' & us' & [_ _ Hex' _ Hroot _] & Hin & Htr & Hco).
  rewrite Hex in Hex'. injection Hex' as <- <-.
  destruct (apply_account_updates_run _ parent us s W Hp Hdbs HW Hus Hsafe)
    as (root & s1 & Hrun & HW1 & Hdbs1 & Hold).
  rewrite Hrun in Hroot, Htr, Hco. cbn [fst snd] in Hroot, Htr, Hco. injection Hroot as ->.
  split; [|split; [by eapply dbs_ok_part|split]].
  - eapply world_reads; [|by eapply world_at_part].
    rewrite (in_headers _ _ _ _ Hin). by rewrite lookup_insert_eq.
  - intros hash. rewrite get_account_code_run, Hco.
    by rewrite (apply_account_updates_written _ _ _ _ _ Hrun).
  - intros hash header W0 Hh Hne HW0. eapply (world_reads _ _ header); [|by eapply world_at_part, Hold].
    rewrite (in_headers _ _ _ _ Hin). by rewrite lookup_insert_ne.
Qed.

(** ** A block that creates an account *)

Section check.
Context `{CryptoLaws}.

(** The nodes of a trie: those of its cache and of its database. *)
Definition db_node (e : list Z * list Z) : option (NodeHash * Node) :=
  match decode (T := Node) e.2 with Ok n => Some (Hashed e.1, n) | _ => None end.
Definition known_nodes (t : Trie InMemoryTrieDB) : list (NodeHash * Node) :=
  cache (state t) ++ omap db_node (map_to_list (inner (db (state t)))).

Definition free_check (t : Trie InMemoryTrieDB) : bool := consistent (known_nodes t) (known_nodes t).

Definition safe_check (t : Trie InMemoryTrieDB) : bool :=
  free_check t && forallb (λ e, len (encode_node e.2) <=? isize_max) (cache (state t)) &&
  (bool_decide (root t = None) || negb (bytes_eqb (hash_no_commit t) EMPTY_TRIE_HASH)).

Lemma known_nodes_spec t x n : knows (state t) (Hashed x) n → (Hashed x, n) ∈ known_nodes t.
Proof.
  intros Hk. apply elem_of_app. destruct Hk as [Hk|(rlp & Hg & Hd)]; [by left|right].
  cbn in Hg. unfold in_memory_get in Hg. destruct (poisoned _); [done|]. injection Hg as Hg.
  apply list_elem_of_omap. exists (x, rlp). split; [by apply elem_of_map_to_list|].
  unfold db_node. cbn [fst snd]. by rewrite Hd.
Qed.

Lemma free_check_spec t : free_check t = true → collision_free (state t).
Proof.
  intros Hc [x|e] n1 n2; [|cbn; congruence]. intros H1%known_nodes_spec H2%known_nodes_spec.
  by eapply consistent_spec.
Qed.

Lemma safe_check_spec t : safe_check t = true → trie_safe t.
Proof.
  unfold safe_check. intros [[Hf Hs]%andb_true_iff He]%andb_true_iff.
  split; [by apply free_check_spec|]. split.
  - apply Forall_forall. intros e Hin. rewrite forallb_forall in Hs.
    by apply Z.leb_le, Hs, list_elem_of_In.
  - intros Hr E. rewrite (proj2 (bytes_eqb_spec _ _) E), bool_decide_false in He by done. done.
Qed.

(** One update, that does not remove the account. *)
Definition update_check (u : AccountUpdate.t) (t : Trie InMemoryTrieDB) (s : Store.t) : bool :=
  let h := Store.hash_address (AccountUpdate.address u) in
  free_check t && negb (AccountUpdate.removed u) &&
  match (Store.account_in t (AccountUpdate.address u) s).1 with
  | Ok o =>
      let a := default account_state_default o in
      safe_check (written_trie s h u a) &&
      free_check (trie_insert h (encode (new_state s h u a)) t).2
  | _ => true
  end &&
  match (Store.apply_account_update u t s).1 with
  | Ok t' => safe_check t'
  | _ => true
  end.

Lemma update_check_spec u t s : update_check u t s = true → safe_updates [u] t s.
Proof.
  unfold update_check.
  intros [[[Hf Hr]%andb_true_iff Ha]%andb_true_iff Hu]%andb_true_iff. split.
  - split; [by apply free_check_spec|]. destruct (AccountUpdate.removed u); [done|].
    intros o Ho. rewrite Ho in Ha. cbn [fst] in Ha. apply andb_true_iff in Ha as [Hw Hi].
    split; [intros _; by apply safe_check_spec|by apply free_check_spec].
  - intros t' s' Hrun. rewrite Hrun in Hu. by apply safe_check_spec.
Qed.
End check.

#[local] Instance debug_build : BuildProfile := true.
#[local] Instance demo_bloom : EthBloom := λ bloom _, bloom.

(** A new account with a balance, a code and a storage slot. *)
Definition demo_code : list Z := [0x60; 0x00].
Definition demo_update : AccountUpdate.t := {|
  AccountUpdate.address := replicate 20 9; AccountUpdate.removed := false;
  AccountUpdate.info := Some {| AccountInfo.code_hash := code_hash demo_code;
                                AccountInfo.balance := 1000; AccountInfo.nonce := 1 |};
  AccountUpdate.code := Some demo_code;
  AccountUpdate.added_storage := [(replicate 32 1, 77); (replicate 32 2, 0)];
|}.

#[local] Instance demo_execution : Execution := λ _ _, Ok ([], [demo_update]).

Definition first_store : Store.t := (Store.add_initial_state first_genesis Store.new).2.
Definition first_block_hash : list Z := Eval vm_compute in
  compute_block_hash (Block.header first_block).
Definition first_root : list Z := Eval vm_compute in
  BlockHeader.state_root (Block.header first_block).

Lemma first_store_headers :
  headers (Store.engine first_store) !! first_block_hash = Some (Block.header first_block).
Proof. vm_compute. reflexivity. Qed.

Lemma first_store_nodes : trie_part first_store = (node_map_default, ∅).
Proof. vm_compute. reflexivity. Qed.

Lemma quiet_ok `{CryptoLaws} : db_ok node_map_default.
Proof. split; [done|]. intros x n y (rlp & Hg & _). cbn in Hg. unfold in_memory_get in Hg. done. Qed.

Lemma new_store_dbs `{CryptoLaws} (s : Store.t) : trie_part s = (node_map_default, ∅) → dbs_ok s.
Proof.
  unfold trie_part, dbs_ok, state_db, storage_db. intros [= -> ->].
  split; [apply quiet_ok|]. intros h. rewrite lookup_empty. apply quiet_ok.
Qed.

Lemma new_store_world `{CryptoLaws} (s : Store.t) (root : list Z) :
  trie_part s = (node_map_default, ∅) → root = EMPTY_TRIE_HASH → world_at s root ∅.
Proof.
  intros Hp ->. exists ∅. unfold accounts_map. rewrite fmap_empty. split_and!.
  - split; [apply map_Forall_empty|]. cbn. by rewrite decide_True.
  - apply map_Forall_empty.
  - intros h. rewrite !lookup_empty. constructor.
Qed.

Lemma first_root_empty : first_root = EMPTY_TRIE_HASH.
Proof. vm_compute. reflexivity. Qed.

Lemma demo_update_ok : Forall update_ok [demo_update].
Proof.
  constructor; [|constructor]. split.
  - split; [|by split]. split; [apply keccak_bytes|apply keccak_length].
  - repeat constructor; unfold slot_valid; cbn; lia.
Qed.

Lemma demo_update_checked :
  update_check demo_update (trie_open (state_db first_store) first_root) first_store = true.
Proof. vm_compute. reflexivity. Qed.

(** The state of the first block, in the form of the hypotheses. *)
Lemma first_state :
  dbs_ok first_store ∧ world_at first_store (BlockHeader.state_root (Block.header first_block)) ∅ ∧
  safe_updates [demo_update]
    (trie_open (state_db first_store) (BlockHeader.state_root (Block.header first_block))) first_store.
Proof.
  split; [apply new_store_dbs, first_store_nodes|].
  split; [apply (new_store_world _ first_root first_store_nodes first_root_empty)|].
  apply (update_check_spec _ _ _ demo_update_checked).
Qed.

Example state_updates_correct_witness :
  ∃ root s', Store.apply_account_updates first_block_hash [demo_update] first_store
      = (Ok (Some root), s') ∧
    world_at s' root (update_world ∅ demo_update).
Proof.
  destruct first_state as (Hd & Hw & Hs).
  destruct (state_updates_correct first_block_hash (Block.header first_block) [demo_update]
    first_store ∅ first_store_headers Hd Hw demo_update_ok Hs) as (root & s' & Hr & HW & _).
  exact (ex_intro _ root (ex_intro _ s' (conj Hr HW))).
Defined.

Definition root_of (r : StoreResult (option (list Z))) : list Z :=
  match r with Ok (Some root) => root | _ => [] end.
Definition account_root : list Z := Eval vm_compute in
  root_of (Store.apply_account_updates first_block_hash [demo_update] first_store).1.
Definition account_block : Block.t :=
  Block.new (next_header (Block.header first_block) account_root) BlockBody.empty.

Lemma account_block_added : (add_block account_block first_store).1 = Ok tt.
Proof. vm_compute. reflexivity. Qed.

Lemma account_block_parent :
  BlockHeader.parent_hash (Block.header account_block) = first_block_hash.
Proof. vm_compute. reflexivity. Qed.

Lemma run_fst {S E A} (m : StateT S E A) s a : (m s).1 = Ok a → m s = (Ok a, (m s).2).
Proof. destruct (m s) as [r s']. cbn. by intros ->. Qed.

Example imported_state_correct_witness :
  ∃ s', add_block account_block first_store = (Ok tt, s') ∧
    reads_at s' (compute_block_hash (Block.header account_block)) (update_world ∅ demo_update) ∧
    (Store.get_account_code (code_hash demo_code) s').1 = Ok (Some demo_code).
Proof.
  destruct first_state as (Hd & Hw & Hs).
  pose proof first_store_headers as Hp. rewrite <-account_block_parent in Hp.
  pose proof (run_fst _ _ _ account_block_added) as Hadd.
  destruct (imported_state_correct account_block (Block.header first_block) [] [demo_update]
    first_store _ ∅ Hp Hd Hw eq_refl demo_update_ok Hs Hadd) as (Hr & _ & Hc & _).
  exact (ex_intro _ _ (conj Hadd (conj Hr (eq_trans (Hc _) (f_equal Ok (lookup_insert_eq _ _ _)))))).
Defined.
