(* ===== verification/GenesisState.v ===== *)
(** * The state of the genesis block

    The root that [setup_genesis_state_trie] commits to the store is the root
    that the header of the genesis block is built with; [add_initial_state] stores
    that block, and the store holds the accounts of the genesis file, with their
    storage and codes, there. *)

From stdpp Require Import base option list numbers strings gmap.
From S2P Require Import Prelude Rlp RlpProofs RlpStruct LevmHost LevmDemo.
From S2P Require Import TrieNode TrieCodec Trie TrieLogic TrieMap TrieOps TrieCorrect TrieCommit.
From S2P Require Import TrieHashed TrieTheorems Tx TxProofs BlockTypes BlockCodecs BlockRoots.
From S2P Require Import Chain ChainProofs Store StoreLogic Blockchain ForkChoice BlockImport.
From S2P Require Import WorldState.

Local Open Scope Z_scope.

Section genesis.
Context `{CryptoLaws}.

(** The slots that are stored: those with a value other than 0. *)
Definition stored_slots (account : GenesisAccount.t) : list (list Z * Z) :=
  base.filter (λ kv, kv.2 ≠ 0) (GenesisAccount.storage account : list (list Z * Z)).

(** An account of the genesis file as an update of the empty account. *)
Definition genesis_update (address : list Z) (account : GenesisAccount.t) : AccountUpdate.t := {|
  AccountUpdate.address := address; AccountUpdate.removed := false;
  AccountUpdate.info := Some {| AccountInfo.code_hash := code_hash (GenesisAccount.code account);
                                AccountInfo.balance := GenesisAccount.balance account;
                                AccountInfo.nonce := GenesisAccount.nonce account |};
  AccountUpdate.code := Some (GenesisAccount.code account);
  AccountUpdate.added_storage := stored_slots account;
|}.

(** The accounts of the genesis file. *)
Definition genesis_world (alloc : list (list Z * GenesisAccount.t)) (W : World) : World :=
  foldl (λ W '(address, account),
    <[Store.hash_address address := updated (genesis_update address account) empty_account]> W)
    W alloc.

Definition genesis_account_ok (account : GenesisAccount.t) : Prop :=
  in_u 64 (GenesisAccount.nonce account) ∧ in_u 256 (GenesisAccount.balance account) ∧
  Forall slot_valid (GenesisAccount.storage account).

Lemma genesis_update_ok address account :
  genesis_account_ok account → update_ok (genesis_update address account).
Proof.
  intros (Hn & Hb & Hs). split.
  - cbn. split_and!; [|done|done]. split; [apply keccak_bytes|apply keccak_length].
  - cbn. unfold stored_slots. apply Forall_forall.
    intros kv [_ Hkv]%list_elem_of_filter. by apply (proj1 (Forall_forall _ _) Hs).
Qed.

(** The loop over the slots skips those with value 0. *)
Lemma insert_slots_run slots : ∀ t,
  Store.insert_slots slots t = Store.update_storage (base.filter (λ kv, kv.2 ≠ 0) slots) t.
Proof.
  induction slots as [|[k v] slots IH]; intros t; [done|]. cbn [Store.insert_slots].
  rewrite filter_cons. cbn [snd]. destruct (v =? 0) eqn:E; propify.
  - by rewrite decide_False by lia.
  - rewrite decide_True by done. cbn [Store.update_storage]. rewrite (proj2 (Z.eqb_neq _ _) E).
    destruct (trie_insert _ _ t) as [[[]| | |] t']; [apply IH|done..].
Qed.

(** The pairs of [compute_storage_root]. *)
Definition slot_pairs (account : GenesisAccount.t) : list (list Z * list Z) :=
  (λ kv, (Store.hash_key kv.1, slot_value kv.2)) <$> stored_slots account.

Lemma compute_storage_root_pairs account :
  compute_storage_root (GenesisAccount.storage account) =
    compute_hash_from_unsorted_iter (slot_pairs account).
Proof.
  unfold compute_storage_root. f_equal. unfold slot_pairs, stored_slots.
  induction (GenesisAccount.storage account) as [|[k v] slots IH]; [done|].
  rewrite filter_cons. cbn [omap list_omap fst snd]. destruct (v =? 0) eqn:E; propify.
  - rewrite decide_False by lia. apply IH.
  - rewrite decide_True by done. cbn [fmap list_fmap fst snd]. f_equal. apply IH.
Qed.

Lemma slot_pairs_ops account :
  slot_op <$> stored_slots account = inserts (slot_pairs account).
Proof.
  unfold slot_pairs, inserts, stored_slots. rewrite <-list_fmap_compose.
  apply list_fmap_ext. intros i [k v] Hi. apply list_elem_of_lookup_2, list_elem_of_filter in Hi as [Hv _].
  unfold slot_op. cbn in *. by rewrite (proj2 (Z.eqb_neq _ _) Hv).
Qed.

(** The storage of an account, and the account. *)
Definition genesis_storage_trie (account : GenesisAccount.t) : Trie InMemoryTrieDB :=
  (run_ops (inserts (slot_pairs account)) (trie_open node_map_default EMPTY_TRIE_HASH)).2.

Definition genesis_state (account : GenesisAccount.t) : AccountState.t := {|
  AccountState.nonce := GenesisAccount.nonce account;
  AccountState.balance := GenesisAccount.balance account;
  AccountState.storage_root := hash_no_commit (genesis_storage_trie account);
  AccountState.code_hash := code_hash (GenesisAccount.code account);
|}.

Lemma written_genesis s h address account :
  storage_db s h = node_map_default →
  written_trie s h (genesis_update address account) account_state_default =
    genesis_storage_trie account.
Proof. intros E. unfold written_trie, genesis_storage_trie. by rewrite <-slot_pairs_ops, E. Qed.

Lemma genesis_storage_ok account :
  genesis_account_ok account → collision_free (state (genesis_storage_trie account)) →
  trie_ok (genesis_storage_trie account)
    (slots_map (write_slots (stored_slots account) ∅)).
Proof.
  intros Hok. unfold genesis_storage_trie. rewrite <-slot_pairs_ops.
  destruct (default_rep node_map_default) as [_ _ _ _ [HS Ht]].
  apply (update_storage_run _ _ ∅ (proj2 (genesis_update_ok [] account Hok)) HS Ht).
Qed.

(** The code and the storage of an account. *)
Lemma genesis_account_run s address account :
  let h := Store.hash_address address in
  dbs_ok s → storage_db s h = node_map_default → genesis_account_ok account →
  trie_safe (genesis_storage_trie account) →
  ∃ s1 t1 s2 t2 s3 s4,
    Store.add_account_code (code_hash (GenesisAccount.code account)) (GenesisAccount.code account) s
      = (Ok tt, s1) ∧
    Store.open_storage_trie h EMPTY_TRIE_HASH s1 = (Ok t1, s2) ∧
    Store.trie_result (Store.insert_slots (GenesisAccount.storage account) t1) s2 = (Ok t2, s3) ∧
    Store.commit_storage_trie h t2 s3 = (Ok (hash_no_commit (genesis_storage_trie account)), s4) ∧
    store_grows s s4 ∧ dbs_ok s4 ∧ (∀ h', h' ≠ h → storage_db s4 h' = storage_db s h') ∧
    account_rep (storage_db s4 h) (genesis_state account)
      (updated (genesis_update address account) empty_account).
Proof.
  intros h Hdbs Edb Hok Hsafe. set (u := genesis_update address account).
  assert (∃ s1, Store.add_account_code (code_hash (GenesisAccount.code account))
    (GenesisAccount.code account) s = (Ok tt, s1) ∧ trie_part s1 = trie_part s) as (s1 & Hr1 & Hp1)
    by (by eexists).
  assert (∀ h', storage_db s1 h' = storage_db s h') as Es.
  { intros h'. unfold trie_part in Hp1. injection Hp1 as _ Hp1. unfold storage_db. by rewrite Hp1. }
  assert (state_db s1 = state_db s) as Est by (by injection Hp1).
  pose proof (genesis_update_ok address account Hok) as Hu.
  assert (written_trie s1 h u account_state_default = genesis_storage_trie account) as Ew
    by (apply written_genesis; by rewrite Es).
  pose proof (default_rep (storage_db s1 h)) as Hdef.
  destruct (commit_storage_run s1 h u account_state_default ∅) as (s4 & Hrun & E4 & Hok4 & Hg4 & Hne & Hrep).
  { rewrite Es. apply Hdbs. } { apply Hdef. } { apply Hu. } { by rewrite Ew. }
  rewrite Ew in Hrun, Hrep. apply bind_Ok_inv in Hrun as (t1 & s2 & Ho & Hrun).
  apply bind_Ok_inv in Hrun as (t2 & s3 & Hup & Hrun).
  exists s1, t1, s2, t2, s3, s4. split; [done|]. split; [done|].
  split; [by rewrite insert_slots_run|]. split; [done|]. split; [|split; [split|split]].
  - split; [congruence|]. intros h'. rewrite <-Es. destruct (decide (h' = h)) as [->|]; [done|].
    by rewrite Hne.
  - rewrite E4, Est. apply Hdbs.
  - intros h'. destruct (decide (h' = h)) as [->|]; [done|]. rewrite Hne, Es by done. apply Hdbs.
  - intros h' Hh'. by rewrite Hne, Es.
  - destruct (hash_no_commit_ok _ _ (genesis_storage_ok account Hok (proj1 Hsafe))).
    by apply (with_info_rep u account_state_default empty_account (storage_db s1 h)).
Qed.

(** ** The loop *)

Definition state_pairs_of (alloc : list (list Z * GenesisAccount.t)) : list (list Z * list Z) :=
  (λ e, (Store.hash_address e.1, encode (genesis_state e.2))) <$> alloc.

Definition genesis_trie (alloc : list (list Z * GenesisAccount.t)) (t : Trie InMemoryTrieDB) :
    Trie InMemoryTrieDB := (run_ops (inserts (state_pairs_of alloc)) t).2.

Definition entry_ok (e : list Z * GenesisAccount.t) : Prop :=
  genesis_account_ok e.2 ∧ trie_safe (genesis_storage_trie e.2).

Lemma genesis_trie_cons e alloc t :
  genesis_trie (e :: alloc) t =
    genesis_trie alloc (trie_insert (Store.hash_address e.1) (encode (genesis_state e.2)) t).2.
Proof.
  unfold genesis_trie. cbn [state_pairs_of inserts fmap list_fmap run_ops run_op fst snd].
  destruct (trie_insert _ _ t) as [r t1]. cbn [snd]. unfold inserts, state_pairs_of.
  by destruct (run_ops _ t1).
Qed.

Lemma genesis_trie_grows alloc t : extends (state t) (state (genesis_trie alloc t)).
Proof. apply run_ops_grows. Qed.

Lemma genesis_accounts_run alloc : ∀ t s W,
  Forall entry_ok alloc → NoDup (Store.hash_address <$> alloc.*1) →
  Forall (λ e, storage_db s (Store.hash_address e.1) = node_map_default) alloc →
  loop_inv s t W → collision_free (state (genesis_trie alloc t)) →
  ∃ s', Store.genesis_accounts alloc t s = (Ok (genesis_trie alloc t), s') ∧
    store_grows s s' ∧ loop_inv s' (genesis_trie alloc t) (genesis_world alloc W).
Proof.
  induction alloc as [|[address account] alloc IH]; intros t s W Hok Hnd Hst Hi Hc; [by exists s|].
  apply Forall_cons in Hok as [[Hacc Hsafe] Hok]. apply Forall_cons in Hst as [Hst0 Hst].
  cbn [fmap list_fmap fst snd] in *. apply NoDup_cons in Hnd as [Hnin Hnd].
  pose proof Hi as [Hdbs Hdb Hca HW].
  destruct (genesis_account_run s address account Hdbs Hst0 Hacc Hsafe)
    as (s1 & t1 & s2 & t2 & s3 & s4 & R1 & R2 & R3 & R4 & Hg & Hdbs4 & Hne & Ha).
  cbn [Store.genesis_accounts]. cbv zeta.
  rewrite (bind_run _ _ _ _ _ R1), (bind_run _ _ _ _ _ R2), (bind_run _ _ _ _ _ R3),
    (bind_run _ _ _ _ _ R4).
  fold (genesis_state account). set (h := Store.hash_address address) in *.
  rewrite genesis_trie_cons in *. cbn [fst snd] in *. fold h in Hc |- *.
  pose proof (genesis_trie_grows alloc (trie_insert h (encode (genesis_state account)) t).2) as Hgt.
  destruct (loop_insert s s4 t W h (genesis_state account) _ Hi Hg Hdbs4 (hash_address_bytes _)
    (hash_address_len _) Ha) as (t' & E & Hi4); [by eapply collision_free_extends|].
  rewrite E in *. cbn [snd] in *. erewrite bind_run by reflexivity.
  destruct (IH t' s4 (<[h := updated (genesis_update address account) empty_account]> W))
    as (s' & Hrun & Hg' & Hi'); [done|done| |done|done|].
  - apply Forall_forall. intros e He. rewrite Hne.
    + by apply (proj1 (Forall_forall _ _) Hst).
    + intros Eh. apply Hnin. rewrite <-Eh. by apply list_elem_of_fmap_2, list_elem_of_fmap_2.
  - exists s'. split; [done|]. split; [by etrans|done].
Qed.

(** ** The root of the header *)

Lemma same_root {D1 D2} `{TrieDB D1, TrieDB D2} (t1 : Trie D1) (t2 : Trie D2) M :
  trie_ok t1 M → trie_ok t2 M → hash_no_commit t1 = hash_no_commit t2.
Proof.
  intros Ht1 Ht2. unfold hash_no_commit. by rewrite (trie_ok_canonical t1 t2 M Ht1 Ht2).
Qed.

Lemma open_empty_ok : trie_ok (trie_open node_map_default EMPTY_TRIE_HASH) ∅.
Proof. split; [apply map_Forall_empty|]. cbn. by rewrite decide_True. Qed.

(** A trie built without a database has the root of one built in the store. *)
Lemma stateless_root iter :
  Forall op_ok (inserts iter) → collision_free (state (trie_of iter)) →
  collision_free (state (run_ops (inserts iter) (trie_open node_map_default EMPTY_TRIE_HASH)).2) →
  compute_hash_from_unsorted_iter iter =
    Ok (hash_no_commit (run_ops (inserts iter) (trie_open node_map_default EMPTY_TRIE_HASH)).2).
Proof.
  intros Ho Hc Hc'. destruct (trie_of_ok iter Ho Hc) as [Ht ->]. f_equal.
  eapply same_root; [exact Ht|]. by apply run_ops_ok; [apply open_empty_ok|..].
Qed.

Lemma slot_pairs_ok account : genesis_account_ok account → Forall op_ok (inserts (slot_pairs account)).
Proof.
  intros Hok. rewrite <-slot_pairs_ops. apply Forall_fmap.
  eapply Forall_impl; [apply (genesis_update_ok [] account Hok)|]. intros kv. apply slot_op_ok.
Qed.

Lemma account_state_of_run account :
  genesis_account_ok account → collision_free (state (genesis_storage_trie account)) →
  collision_free (state (trie_of (slot_pairs account))) →
  Chain.account_state_of account = Ok (genesis_state account).
Proof.
  intros Hok Hc Hc'. unfold Chain.account_state_of. rewrite compute_storage_root_pairs.
  by rewrite (stateless_root _ (slot_pairs_ok account Hok) Hc' Hc).
Qed.

Lemma state_pairs_run alloc :
  Forall entry_ok alloc →
  Forall (λ e, collision_free (state (trie_of (slot_pairs e.2)))) alloc →
  Chain.state_pairs alloc = Ok (state_pairs_of alloc).
Proof.
  induction alloc as [|[address account] alloc IH]; intros Hok Hc; [done|].
  apply Forall_cons in Hok as [[Ha [Hcf _]] Hok]. apply Forall_cons in Hc as [Hc0 Hc].
  cbn [Chain.state_pairs]. rewrite (account_state_of_run account Ha Hcf Hc0).
  cbn [mbind outcome_bind]. by rewrite IH.
Qed.

Lemma genesis_state_valid account :
  entry_ok ([], account) → rlp_valid (genesis_state account).
Proof.
  intros [Hok Hs]. pose proof Hok as (Hn & Hb & _).
  destruct (hash_no_commit_ok _ _ (genesis_storage_ok account Hok (proj1 Hs))).
  split; [done|]. split; [done|]. split; [done|]. split; [apply keccak_bytes|apply keccak_length].
Qed.

Lemma state_pairs_ok alloc : Forall entry_ok alloc → Forall op_ok (inserts (state_pairs_of alloc)).
Proof.
  intros Hok. unfold inserts, state_pairs_of. rewrite !Forall_fmap.
  eapply Forall_impl; [exact Hok|]. intros [address account] He.
  split; [apply hash_address_bytes|]. by apply account_good, genesis_state_valid.
Qed.
End genesis.

(** What the store holds after the accounts of a genesis file are committed. *)
Lemma genesis_committed `{CryptoLaws} (alloc : list (list Z * GenesisAccount.t)) (s : Store.t) :
  let t := genesis_trie alloc (trie_open node_map_default EMPTY_TRIE_HASH) in
  trie_part s = (node_map_default, ∅) →
  Forall entry_ok alloc → NoDup (Store.hash_address <$> alloc.*1) → trie_safe t →
  ∃ s', Store.setup_genesis_state_trie alloc s = (Ok (hash_no_commit t), s') ∧
    dbs_ok s' ∧ world_at s' (hash_no_commit t) (genesis_world alloc ∅).
Proof.
  intros t Hp Hok Hnd Hsafe.
  assert (state_db s = node_map_default) as Hp1 by exact (f_equal fst Hp).
  assert (∀ h, storage_db s h = node_map_default) as Hp2.
  { intros h. unfold storage_db. pose proof (f_equal snd Hp) as Hp2. cbn in Hp2. by rewrite Hp2. }
  pose proof (new_store_world s EMPTY_TRIE_HASH Hp eq_refl) as Hw. unfold world_at in Hw.
  rewrite Hp1 in Hw.
  assert (loop_inv s (trie_open node_map_default EMPTY_TRIE_HASH) ∅) as Hi
    by (split; [by apply new_store_dbs|done|constructor|done]).
  destruct (genesis_accounts_run alloc _ s ∅ Hok Hnd (Forall_true _ _ (λ e, Hp2 _)) Hi (proj1 Hsafe))
    as (s1 & Hr1 & _ & Hi1).
  destruct (commit_state_run _ _ _ Hi1 Hsafe) as (s2 & Hr2 & Hdbs2 & _ & _ & HW2).
  exists s2. split; [|done].
  unfold Store.setup_genesis_state_trie. erewrite bind_run by apply on_engine_gets.
  change (state_trie_nodes (Store.engine s)) with (state_db s). rewrite Hp1.
  by rewrite (bind_run _ _ _ _ _ Hr1).
Qed.

(** ** The codes *)

Definition genesis_codes (alloc : list (list Z * GenesisAccount.t)) (C : gmap (list Z) (list Z))
    `{Crypto} : gmap (list Z) (list Z) :=
  foldl (λ C e, <[code_hash (GenesisAccount.code e.2) := GenesisAccount.code e.2]> C) C alloc.

(** No two accounts have different codes with the same hash. *)
Definition codes_distinct `{Crypto} (alloc : list (list Z * GenesisAccount.t)) : Prop :=
  ∀ e1 e2, e1 ∈ alloc → e2 ∈ alloc →
    code_hash (GenesisAccount.code e1.2) = code_hash (GenesisAccount.code e2.2) →
    GenesisAccount.code e1.2 = GenesisAccount.code e2.2.

Lemma genesis_accounts_codes `{Crypto} alloc : ∀ t s t' s',
  Store.genesis_accounts alloc t s = (Ok t', s') → codes s' = genesis_codes alloc (codes s).
Proof.
  induction alloc as [|[address account] alloc IH]; intros t s t' s'; [by intros [= _ <-]|].
  cbn [Store.genesis_accounts]. cbv zeta.
  intros (? & s1 & [= _ <-] & (t1 & s2 & [= _ <-] & E)%bind_Ok_inv)%bind_Ok_inv.
  apply bind_Ok_inv in E as (t2 & s3 & Hu & (root & s4 & Hc & E)%bind_Ok_inv).
  apply (read_only_state _ _ _ _ (read_only_lift _)) in Hu as ->.
  apply (keeps_codes_run _ _ _ _ (keeps_codes_commit_storage _ _)) in Hc.
  destruct (trie_insert _ _ t) as [[[]| | |] t3]; try done.
  apply IH in E. by rewrite E, Hc.
Qed.

Lemma setup_genesis_codes `{Crypto} alloc s root s' :
  Store.setup_genesis_state_trie alloc s = (Ok root, s') →
  codes s' = genesis_codes alloc (codes s).
Proof.
  intros (t & s1 & [= _ <-] & (t1 & s2 & Ha & Hc)%bind_Ok_inv)%bind_Ok_inv.
  rewrite (keeps_codes_run _ _ _ _ (keeps_codes_commit_state _) Hc).
  by rewrite (genesis_accounts_codes _ _ _ _ _ Ha).
Qed.

Lemma genesis_codes_lookup `{Crypto} alloc : ∀ C e,
  e ∈ alloc → codes_distinct alloc →
  genesis_codes alloc C !! code_hash (GenesisAccount.code e.2) = Some (GenesisAccount.code e.2).
Proof.
  assert (∀ l C c, (∀ e', e' ∈ l → code_hash (GenesisAccount.code e'.2) = code_hash c →
      GenesisAccount.code e'.2 = c) →
    C !! code_hash c = Some c → genesis_codes l C !! code_hash c = Some c) as Hkeep.
  { induction l as [|e' l IH]; intros C c Hl HC; [done|]. cbn. apply IH; [set_solver|].
    destruct (decide (code_hash (GenesisAccount.code e'.2) = code_hash c)) as [Eh|Hne].
    - rewrite Eh, lookup_insert_eq. f_equal. apply Hl; [set_solver|done].
    - by rewrite lookup_insert_ne. }
  induction alloc as [|e0 alloc IH]; intros C e He Hd; [by apply not_elem_of_nil in He|].
  apply list_elem_of_In in He as [->|He%list_elem_of_In]; cbn.
  - apply Hkeep; [intros e' He' Eh; apply Hd; set_solver|]. by rewrite lookup_insert_eq.
  - apply IH; [done|]. intros e1 e2 H1 H2. apply Hd; set_solver.
Qed.

(** ** The first block *)

(** The header of the genesis block, with the root of the accounts. *)
Lemma genesis_block_run `{Crypto} (genesis : Genesis.t) (root : list Z) :
  Chain.compute_state_root genesis = Ok root →
  ∃ block, Chain.get_block genesis = Ok block ∧
    BlockHeader.state_root (Block.header block) = root ∧
    BlockHeader.difficulty (Block.header block) = Genesis.difficulty genesis.
Proof.
  intros E. unfold Chain.get_block, Chain.get_block_header. rewrite E. by eexists.
Qed.

(** [add_initial_state] on an empty store, once the accounts are committed. *)
Lemma add_initial_state_run `{Crypto} `{EthBloom} `{BuildProfile} (genesis : Genesis.t) block s1 :
  Chain.get_block genesis = Ok block → in_u 256 (BlockHeader.difficulty (Block.header block)) →
  Store.setup_genesis_state_trie (Genesis.alloc genesis) Store.new =
    (Ok (BlockHeader.state_root (Block.header block) : list Z), s1) →
  ∃ s', Store.add_initial_state genesis Store.new = (Ok tt, s') ∧
    trie_part s' = trie_part s1 ∧ codes s' = codes s1 ∧
    headers (Store.engine s') !! (compute_block_hash (Block.header block) : list Z) =
      Some (Block.header block) ∧
    canonical_hashes (Store.engine s') !! 0 =
      Some (compute_block_hash (Block.header block) : list Z).
Proof.
  intros Hb Hd Hs. destruct (genesis_block_shape genesis block Hb) as (Hn & _ & Hh).
  pose proof (keeps_setup_genesis_state_trie (Genesis.alloc genesis) Store.new) as Hk.
  rewrite Hs in Hk. cbn [snd] in Hk.
  apply block_part_stored, stored_part_fields in Hk as (_ & _ & _ & _ & E5).
  destruct (store_add_block_cases block s1) as [Hp|(s2 & Hr & Hh2 & _ & _ & _ & Ht2 & Hc2 & _)].
  { exfalso. revert Hp. unfold Store.add_block, Store.get_latest_total_difficulty,
      Engine.get_latest_total_difficulty.
    rewrite (bind_run _ _ _ _ _ (on_engine_gets _ s1)), E5. unfold Store.u256_add. cbn [default].
    by rewrite checked_add_in. }
  unfold Store.add_initial_state. rewrite Hb. erewrite bind_run by reflexivity. cbv zeta.
  rewrite Hh, Hn. erewrite bind_run by apply get_block_header_run. cbv beta iota.
  assert (bytes_eqb (BlockHeader.state_root (Block.header block))
    (BlockHeader.state_root (Block.header block)) = true) as Eb by (by apply bytes_eqb_spec).
  eexists. split.
  - etrans; [apply bind_run; exact Hs|]. rewrite Eb, andb_false_r.
    erewrite bind_run by reflexivity. rewrite (bind_run _ _ _ _ _ Hr). reflexivity.
  - cbn. rewrite Hh2, !lookup_insert_eq. by split_and!.
Qed.

Lemma genesis_world_cons `{Crypto} a x alloc W :
  genesis_world ((a, x) :: alloc) W =
    genesis_world alloc (<[Store.hash_address a := updated (genesis_update a x) empty_account]> W).
Proof. done. Qed.

(** The account of an address in the file. *)
Lemma genesis_world_lookup `{Crypto} alloc : ∀ W address account,
  NoDup (Store.hash_address <$> alloc.*1) → (address, account) ∈ alloc →
  genesis_world alloc W !! Store.hash_address address =
    Some (updated (genesis_update address account) empty_account).
Proof.
  assert (∀ l W h, h ∉ Store.hash_address <$> l.*1 → genesis_world l W !! h = W !! h) as Hkeep.
  { induction l as [|[a x] l IH]; intros W h Hl; [done|]. cbn [fmap list_fmap fst] in Hl.
    apply not_elem_of_cons in Hl as [Hne Hl]. by rewrite genesis_world_cons, IH, lookup_insert_ne. }
  induction alloc as [|[a x] alloc IH]; intros W address account Hnd Hin;
    [by apply not_elem_of_nil in Hin|].
  cbn [fmap list_fmap fst] in Hnd. apply NoDup_cons in Hnd as [Hn Hnd]. rewrite genesis_world_cons.
  apply elem_of_cons in Hin as [[= -> ->]|Hin]; [|by apply IH].
  by rewrite Hkeep, lookup_insert_eq.
Qed.

(** Reading the code of an account at the genesis block. *)
Lemma genesis_code_read `{CryptoLaws} s header alloc address account :
  canonical_hashes (Store.engine s) !! 0 = Some (compute_block_hash header : list Z) →
  headers (Store.engine s) !! (compute_block_hash header : list Z) = Some header →
  world_at s (BlockHeader.state_root header) (genesis_world alloc ∅) →
  NoDup (Store.hash_address <$> alloc.*1) → (address, account) ∈ alloc →
  codes s !! code_hash (GenesisAccount.code account) = Some (GenesisAccount.code account) →
  (Store.get_code_by_account_address 0 address s).1 = Ok (Some (GenesisAccount.code account)).
Proof.
  intros Hcan Hh HW Hnd Hin Hco.
  destruct (account_state_run s _ address header _ Hh HW) as (o & Ho & Hrep).
  rewrite (genesis_world_lookup alloc ∅ address account Hnd Hin) in Hrep.
  inversion Hrep as [a w [_ _ _ Ec _]|]; subst.
  unfold Store.get_code_by_account_address, Store.get_account_state,
    Store.get_canonical_block_hash, Engine.get_canonical_block_hash.
  erewrite bind_run; [|erewrite bind_run by apply on_engine_gets; rewrite Hcan; exact Ho].
  cbv beta iota. rewrite get_account_code_run, Ec. cbn. by rewrite Hco.
Qed.

(** C30 The genesis state.  Starting from an empty store, [add_initial_state] stores
    the genesis block under number 0, with the state root that [compute_state_root]
    computes without a store; the assertion that compares it with the root of the
    committed tries holds.  Reading at the genesis block returns nonce, balance, code
    hash and storage of the accounts of the genesis file and no others, and every
    account of the file has its code there.  Addresses are distinct after hashing, and
    no two different nodes or codes have the same hash. *)
Theorem genesis_state_correct `{CryptoLaws} `{EthBloom} `{BuildProfile} (genesis : Genesis.t) :
  let alloc : list (list Z * GenesisAccount.t) := Genesis.alloc genesis in
  let t := genesis_trie alloc (trie_open node_map_default EMPTY_TRIE_HASH) in
  Forall entry_ok alloc → NoDup (Store.hash_address <$> alloc.*1) → trie_safe t →
  Forall (λ e, collision_free (state (trie_of (slot_pairs e.2)))) alloc →
  collision_free (state (trie_of (state_pairs_of alloc))) →
  in_u 256 (Genesis.difficulty genesis) → codes_distinct alloc →
  ∃ block s',
    Chain.get_block genesis = Ok block ∧
    Store.add_initial_state genesis Store.new = (Ok tt, s') ∧
    (Store.get_block_header 0 s').1 = Ok (Some (Block.header block)) ∧
    Chain.compute_state_root genesis = Ok (BlockHeader.state_root (Block.header block)) ∧
    dbs_ok s' ∧ world_at s' (BlockHeader.state_root (Block.header block)) (genesis_world alloc ∅) ∧
    reads_at s' (compute_block_hash (Block.header block)) (genesis_world alloc ∅) ∧
    ∀ address account, (address, account) ∈ alloc →
      (Store.get_code_by_account_address 0 address s').1 = Ok (Some (GenesisAccount.code account)).
Proof.
  intros alloc t Hok Hnd Hsafe Hc Hcs Hd Hcd.
  assert (Chain.compute_state_root genesis = Ok (hash_no_commit t)) as Hroot.
  { unfold Chain.compute_state_root. fold alloc. rewrite (state_pairs_run alloc Hok Hc).
    exact (stateless_root _ (state_pairs_ok alloc Hok) Hcs (proj1 Hsafe)). }
  destruct (genesis_committed alloc Store.new eq_refl Hok Hnd Hsafe) as (s1 & Hr & Hdbs & HW).
  destruct (genesis_block_run genesis _ Hroot) as (block & Hb & Er & Ed).
  fold t in Hr, HW. rewrite <-Er in Hr, HW, Hroot. rewrite <-Ed in Hd.
  destruct (add_initial_state_run genesis block s1 Hb Hd Hr)
    as (s' & Hrun & Ht & Hco & Hh & Hcan).
  pose proof (world_at_part _ _ _ _ Ht HW) as HW'.
  exists block, s'. split_and!; try done.
  - rewrite get_block_header_run, Hcan. cbn. by rewrite Hh.
  - by eapply dbs_ok_part.
  - by eapply world_reads.
  - intros address account Hin. eapply genesis_code_read; [done..|].
    rewrite Hco, (setup_genesis_codes _ _ _ _ Hr).
    by apply (genesis_codes_lookup alloc _ (address, account)).
Qed.

(** ** A genesis file with a contract *)

Definition demo_account : GenesisAccount.t := {|
  GenesisAccount.code := [0x60; 0x01];
  GenesisAccount.storage := [(replicate 32 1, 5); (replicate 32 2, 0); (replicate 32 3, 6)];
  GenesisAccount.balance := 10; GenesisAccount.nonce := 1;
|}.
Definition demo_alloc : list (list Z * GenesisAccount.t) :=
  [(replicate 20 7, demo_account); (replicate 20 8, demo_account)].

Definition contract_genesis : Genesis.t := {|
  Genesis.config := demo_config; Genesis.alloc := demo_alloc; Genesis.coinbase := replicate 20 2;
  Genesis.difficulty := 0; Genesis.extra_data := [0xab]; Genesis.gas_limit := 30000000;
  Genesis.nonce := 0; Genesis.mix_hash := replicate 32 5; Genesis.timestamp := 1000;
  Genesis.base_fee_per_gas := Some 7; Genesis.blob_gas_used := None;
  Genesis.excess_blob_gas := None;
|}.

Lemma demo_account_ok address : entry_ok (address, demo_account).
Proof.
  split.
  - split; [done|]. split; [done|]. repeat constructor; unfold slot_valid; cbn; lia.
  - apply safe_check_spec. vm_compute. reflexivity.
Qed.

Lemma demo_slots_free : collision_free (state (trie_of (slot_pairs demo_account))).
Proof. apply collision_free_check; check_nodes. Qed.

Lemma two_entries (P : list Z * GenesisAccount.t → Prop) :
  (∀ address, P (address, demo_account)) → Forall P demo_alloc.
Proof. intros HP. exact (Forall_cons_2 _ _ _ (HP _) (Forall_cons_2 _ _ _ (HP _) (Forall_nil_2 _))). Qed.

Lemma demo_alloc_distinct : NoDup (Store.hash_address <$> demo_alloc.*1).
Proof. apply (bool_decide_unpack _). vm_compute. exact I. Qed.

Lemma demo_alloc_safe :
  trie_safe (genesis_trie demo_alloc (trie_open node_map_default EMPTY_TRIE_HASH)).
Proof. apply safe_check_spec. vm_compute. reflexivity. Qed.

Lemma demo_alloc_free : collision_free (state (trie_of (state_pairs_of demo_alloc))).
Proof. apply collision_free_check; check_nodes. Qed.

Lemma demo_codes_distinct : codes_distinct demo_alloc.
Proof.
  intros e1 e2 H1 H2 _. assert (∀ e, e ∈ demo_alloc → e.2 = demo_account) as He.
  { apply Forall_forall, two_entries. done. }
  by rewrite (He e1 H1), (He e2 H2).
Qed.

#[local] Instance debug_build : BuildProfile := true.
#[local] Instance demo_bloom : EthBloom := λ bloom _, bloom.

Example genesis_state_correct_witness :
  ∃ block s', Store.add_initial_state contract_genesis Store.new = (Ok tt, s') ∧
    reads_at s' (compute_block_hash (Block.header block)) (genesis_world demo_alloc ∅) ∧
    (Store.get_code_by_account_address 0 (replicate 20 8) s').1 = Ok (Some [0x60; 0x01]).
Proof.
  destruct (genesis_state_correct contract_genesis (two_entries _ demo_account_ok)
    demo_alloc_distinct demo_alloc_safe (two_entries _ (λ _, demo_slots_free)) demo_alloc_free
    ltac:(unfold in_u; cbn; lia) demo_codes_distinct)
    as (block & s' & _ & Hr & _ & _ & _ & _ & HW & Hc).
  exists block, s'. split; [exact Hr|]. split; [exact HW|].
  apply (Hc (replicate 20 8) demo_account). right. left.
Defined.
