(* ===== verification/Mempool.v ===== *)
(** * The mempool (crates/blockchain/mempool.rs)

    Admission of transactions to the pool of the store, the filters that select
    transactions for a payload, and the nonce of the pending transactions. *)

From stdpp Require Import base option list numbers strings gmap.
From S2P Require Import Prelude Rlp LevmHost Trie Tx BlockTypes Chain Store Blockchain.

Local Open Scope Z_scope.

Inductive MempoolError :=
| NoBlockHeaderError
| MempoolStoreError (e : StoreError)
| MempoolBlobsBundleError (e : BlobsBundleError)
| TxMaxInitCodeSizeError
| TxGasLimitExceededError
| TxGasOverflowError
| TxTipAboveFeeCapError
| TxIntrinsicGasCostAboveLimitError
| TxBlobBaseFeeTooLowError
| BlobTxNoBlobsBundle
| InvalidNonce
| InvalidChainId (expected : Z)
| NotEnoughBalance
| InvalidTxGasvalues.

Notation MempoolM := (StateT Store.t MempoolError).
Notation MempoolResult := (Outcome MempoolError).

Definition mempool_store {A} (m : StoreM A) : MempoolM A := state_map_err MempoolStoreError m.

Section mempool.
Context `{Crypto} `{BuildProfile}.

(** *** The intrinsic gas *)

(** [gas.checked_add(x).ok_or(TxGasOverflowError)]. *)
Definition add_gas (gas x : Z) : MempoolResult Z := ok_or (checked_add 64 gas x) TxGasOverflowError.

(** [sum]: an addition of [u64]. *)
Definition sum_keys (l : list (Address * list H256)) : MempoolResult Z :=
  foldl (λ acc e, acc ← acc; u_add 64 acc (len e.2)) (Ok 0) l.

Definition data_gas (tx : Transaction) (header : BlockHeader.t) (config : ChainConfig.t) (gas : Z) :
    MempoolResult Z :=
  let data_len := len (Transaction.data tx) in
  let non_zero_gas_cost :=
    if ChainConfig.is_istanbul_activated config (BlockHeader.number header)
    then TX_DATA_NON_ZERO_GAS_EIP2028 else TX_DATA_NON_ZERO_GAS in
  let non_zero_count := len (base.filter (λ x, x ≠ 0) (Transaction.data tx)) in
  cost ← u_mul 64 non_zero_count non_zero_gas_cost;
  gas ← add_gas gas cost;
  zero_count ← u_sub 64 data_len non_zero_count;
  cost ← u_mul 64 zero_count TX_DATA_ZERO_GAS_COST;
  gas ← add_gas gas cost;
  if Transaction.is_contract_creation tx
     && ChainConfig.is_shanghai_activated config (BlockHeader.timestamp header)
  then
    let len_in_words := saturating_add 64 data_len 31 / 32 in
    cost ← u_mul 64 len_in_words TX_INIT_CODE_WORD_GAS_COST;
    add_gas gas cost
  else Ok gas.

Definition transaction_intrinsic_gas (tx : Transaction) (header : BlockHeader.t)
    (config : ChainConfig.t) : MempoolResult Z :=
  let gas := if Transaction.is_contract_creation tx then TX_CREATE_GAS_COST else TX_GAS_COST in
  gas ← (if 0 <? len (Transaction.data tx) then data_gas tx header config gas else Ok gas);
  storage_keys_count ← sum_keys (Transaction.access_list tx);
  cost ← u_mul 64 (len (Transaction.access_list tx)) TX_ACCESS_LIST_ADDRESS_GAS;
  gas ← add_gas gas cost;
  cost ← u_mul 64 storage_keys_count TX_ACCESS_LIST_STORAGE_KEY_GAS;
  add_gas gas cost.

(** *** Validation *)

(** The checks that need no account. *)
Definition check_fields (tx : Transaction) (header : BlockHeader.t) (config : ChainConfig.t) :
    MempoolResult unit :=
  _ ← reject_if (ChainConfig.is_shanghai_activated config (BlockHeader.timestamp header)
                 && Transaction.is_contract_creation tx
                 && (MAX_INITCODE_SIZE <? len (Transaction.data tx))) TxMaxInitCodeSizeError;
  _ ← reject_if (BlockHeader.gas_limit header <? Transaction.gas_limit tx) TxGasLimitExceededError;
  _ ← reject_if (default 0 (Transaction.max_fee_per_gas tx)
                 <? default 0 (Transaction.max_priority_fee tx)) TxTipAboveFeeCapError;
  intrinsic ← transaction_intrinsic_gas tx header config;
  _ ← reject_if (Transaction.gas_limit tx <? intrinsic) TxIntrinsicGasCostAboveLimitError;
  match Transaction.max_fee_per_blob_gas tx with
  | Some fee => reject_if (fee <? MIN_BASE_FEE_PER_BLOB_GAS) TxBlobBaseFeeTooLowError
  | None => Ok tt
  end.

(** The checks on the account of the sender. *)
Definition check_account (tx : Transaction) (maybe_sender_acc_info : option AccountInfo.t) :
    MempoolResult unit :=
  match maybe_sender_acc_info with
  | Some sender_acc_info =>
      _ ← reject_if (Transaction.nonce tx <? AccountInfo.nonce sender_acc_info) InvalidNonce;
      tx_cost ← ok_or (Transaction.cost_without_base_fee tx) InvalidTxGasvalues;
      reject_if (AccountInfo.balance sender_acc_info <? tx_cost) NotEnoughBalance
  | None => Err NotEnoughBalance
  end.

Definition check_chain_id (tx : Transaction) (config : ChainConfig.t) : MempoolResult unit :=
  chain_id ← Transaction.chain_id tx;
  match chain_id with
  | Some chain_id =>
      reject_if (negb (chain_id =? ChainConfig.chain_id config))
        (InvalidChainId (ChainConfig.chain_id config))
  | None => Ok tt
  end.

Definition validate_transaction (tx : Transaction) (sender : list Z) : MempoolM unit :=
  header_no ← mempool_store Store.get_latest_block_number;
  header ← mempool_store (Store.get_block_header header_no);
  header ← state_lift (ok_or header NoBlockHeaderError);
  config ← mempool_store Store.get_chain_config;
  _ ← state_lift (check_fields tx header config);
  maybe_sender_acc_info ← mempool_store (Store.get_account_info header_no sender);
  _ ← state_lift (check_account tx maybe_sender_acc_info);
  state_lift (check_chain_id tx config).

(** *** The pool *)

Context `{Secp256k1}.

(** The time of arrival is that of the clock. *)
Definition add_blob_transaction `{Kzg} (now : Z) (transaction : EIP4844Transaction.t)
    (blobs_bundle : BlobsBundle.t) : MempoolM (list Z) :=
  _ ← state_lift (map_err MempoolBlobsBundleError (BlobsBundle.validate blobs_bundle transaction));
  let transaction := EIP4844Transaction transaction in
  sender ← state_lift (Transaction.sender transaction);
  _ ← validate_transaction transaction sender;
  let hash := Transaction.compute_hash transaction in
  _ ← mempool_store
        (Store.add_transaction_to_pool hash (MempoolTransaction.new now transaction sender));
  _ ← mempool_store (Store.add_blobs_bundle_to_pool hash blobs_bundle);
  mret hash.

Definition is_blob_tx (tx : Transaction) : bool :=
  match tx with EIP4844Transaction _ => true | _ => false end.

Definition add_transaction (now : Z) (transaction : Transaction) : MempoolM (list Z) :=
  if is_blob_tx transaction then state_throw BlobTxNoBlobsBundle
  else
    sender ← state_lift (Transaction.sender transaction);
    _ ← validate_transaction transaction sender;
    let hash := Transaction.compute_hash transaction in
    _ ← mempool_store
          (Store.add_transaction_to_pool hash (MempoolTransaction.new now transaction sender));
    mret hash.

Definition get_blobs_bundle (tx_hash : list Z) : MempoolM (option BlobsBundle.t) :=
  mempool_store (Store.get_blobs_bundle_from_pool tx_hash).

Definition remove_transaction (hash : list Z) : StoreM unit :=
  Store.remove_transaction_from_pool hash.

Record PendingTxFilter := {
  min_tip : option Z;
  base_fee : option Z;
  blob_fee : option Z;
  only_plain_txs : bool;
  only_blob_txs : bool;
}.

(** The closure of [filter_transactions]. *)
Definition filter_tx (filter : PendingTxFilter) (tx : Transaction) : bool :=
  let is_blob_tx := is_blob_tx tx in
  if (only_plain_txs filter && is_blob_tx) || (only_blob_txs filter && negb is_blob_tx) then false
  else
    let tip := Transaction.effective_gas_tip tx (base_fee filter) in
    if match min_tip filter with
       | Some min_tip => negb (match tip with Some tip => min_tip <=? tip | None => false end)
       | None => match tip with None => true | Some _ => false end
       end then false
    else
      match is_blob_tx, blob_fee filter with
      | true, Some blob_fee =>
          match Transaction.max_fee_per_blob_gas tx with
          | Some fee => blob_fee <=? fee
          | None => false
          end
      | _, _ => true
      end.

Definition filter_transactions `{HashMapIter} (filter : PendingTxFilter) :
    StoreM (gmap (list Z) (list MempoolTransaction.t)) :=
  Store.filter_pool_transactions (filter_tx filter).

Definition no_filter : PendingTxFilter :=
  {| min_tip := None; base_fee := None; blob_fee := None; only_plain_txs := false;
     only_blob_txs := false |}.

Definition get_nonce `{HashMapIter} (address : list Z) : MempoolM (option Z) :=
  pending_txs ← mempool_store (filter_transactions no_filter);
  match pending_txs !! address with
  | Some txs =>
      match last txs with
      | Some tx =>
          nonce ← state_lift (u_add 64 (Transaction.nonce (MempoolTransaction.inner tx)) 1);
          mret (Some nonce)
      | None => mret None
      end
  | None => mret None
  end.
End mempool.
