(* ===== verification/MempoolProofs.v ===== *)
(** * Correctness of the mempool

    What the pool holds, when a transaction enters it, and what the filters
    select from it for a payload. *)

From stdpp Require Import base option list numbers strings gmap sorting.
From S2P Require Import Prelude Rlp LevmHost Trie Tx BlockTypes Chain Store StoreLogic Blockchain.
From S2P Require Import Mempool.

Local Open Scope Z_scope.

(** ** The groups of [filter_pool_transactions] *)

Definition sender_of (m : MempoolTransaction.t) : list Z := MempoolTransaction.sender m.

(** The transactions of a sender that pass a filter, in their order. *)
Definition group_of (filter : Transaction → bool) (sender : list Z)
    (txs : list (list Z * MempoolTransaction.t)) : list MempoolTransaction.t :=
  base.filter (λ m, filter (MempoolTransaction.inner m) = true ∧ sender_of m = sender)
    (snd <$> txs).

Definition nonempty {A} (l : list A) : option (list A) :=
  match l with [] => None | _ => Some l end.

Lemma nonempty_Some {A} (l k : list A) : nonempty l = Some k ↔ k = l ∧ l ≠ [].
Proof. destruct l; cbn; split; [done|by intros [_ ?]|by intros [= <-]|by intros [-> _]]. Qed.

Lemma default_nonempty {A} (l : list A) : default [] (nonempty l) = l.
Proof. by destruct l. Qed.

Lemma nonempty_snoc {A} (l : list A) x : nonempty (l ++ [x]) = Some (l ++ [x]).
Proof. by destruct l. Qed.

Lemma group_by_sender_spec filter txs sender :
  Store.group_by_sender filter txs !! sender = nonempty (group_of filter sender txs).
Proof.
  induction txs as [|[hash m] txs IH] using rev_ind; [done|].
  unfold Store.group_by_sender in *. rewrite foldl_snoc. unfold group_of in *.
  rewrite fmap_app, filter_app. cbn [fmap list_fmap snd].
  destruct (filter (MempoolTransaction.inner m)) eqn:Ef; cycle 1.
  { rewrite IH, filter_cons_False, filter_nil, app_nil_r by (by intros [? _]; congruence). done. }
  destruct (decide (sender_of m = sender)) as [E|E].
  - rewrite filter_cons_True, filter_nil, nonempty_snoc by done.
    unfold sender_of in E. rewrite E, lookup_insert_eq, IH, default_nonempty. done.
  - rewrite filter_cons_False, filter_nil, app_nil_r by (by intros [_ ?]).
    rewrite lookup_insert_ne by done. exact IH.
Qed.

Definition by_nonce (a b : MempoolTransaction.t) : Prop := Store.nonce_order a b = true.

Lemma nonce_order_spec a b :
  by_nonce a b ↔
  let na := Transaction.nonce (MempoolTransaction.inner a) in
  let nb := Transaction.nonce (MempoolTransaction.inner b) in
  na < nb ∨ na = nb ∧ MempoolTransaction.time b ≤ MempoolTransaction.time a.
Proof.
  unfold by_nonce, Store.nonce_order, MempoolTransaction.cmp. cbv zeta.
  destruct (Z.compare_spec (Transaction.nonce (MempoolTransaction.inner a))
    (Transaction.nonce (MempoolTransaction.inner b)));
    [destruct (Z.compare_spec (MempoolTransaction.time b) (MempoolTransaction.time a))|..];
    split; intros; first [done | lia | exfalso; lia].
Qed.

Lemma nonce_order_total a b : by_nonce a b ∨ by_nonce b a.
Proof. rewrite !nonce_order_spec. cbv zeta. lia. Qed.

Lemma nonce_order_trans a b c : by_nonce a b → by_nonce b c → by_nonce a c.
Proof. rewrite !nonce_order_spec. cbv zeta. lia. Qed.

(** The group of a sender in what a filter selects: the transactions of the
    sender that pass, ordered. *)
Definition groups_spec (filter : Transaction → bool) (pool : gmap (list Z) MempoolTransaction.t)
    (groups : gmap (list Z) (list MempoolTransaction.t)) : Prop :=
  ∀ sender,
    match groups !! sender with
    | Some l => l ≠ [] ∧ StronglySorted by_nonce l ∧ l ≡ₚ group_of filter sender (map_to_list pool)
    | None => group_of filter sender (map_to_list pool) = []
    end.

Lemma group_of_perm filter sender l k : l ≡ₚ k → group_of filter sender l ≡ₚ group_of filter sender k.
Proof. intros Hp. unfold group_of. by rewrite Hp. Qed.

Lemma filter_groups `{HashMapIter} filter s :
  ∃ groups, Store.filter_pool_transactions filter s = (Ok groups, s) ∧
    groups_spec filter (Store.mempool s) groups.
Proof.
  eexists. split; [reflexivity|]. intros sender.
  rewrite lookup_fmap, group_by_sender_spec.
  pose proof (group_of_perm filter sender _ _ (hash_iter_perm (Store.mempool s))) as Hp.
  destruct (group_of filter sender (hash_iter _)) as [|m l] eqn:E; cbn [nonempty fmap option_fmap option_map].
  { by apply Permutation_nil. }
  split_and!.
  - intros Hn. pose proof (stable_sort_perm Store.nonce_order (m :: l)) as Hl. rewrite Hn in Hl.
    by apply Permutation_nil in Hl.
  - apply stable_sort_sorted; [apply nonce_order_total|apply nonce_order_trans].
  - by rewrite stable_sort_perm.
Qed.

(** Membership in a group. *)
Lemma group_of_elem (filter : Transaction → bool) (sender : list Z)
    (pool : gmap (list Z) MempoolTransaction.t) (m : MempoolTransaction.t) :
  m ∈ group_of filter sender (map_to_list pool) ↔
  filter (MempoolTransaction.inner m) = true ∧ sender_of m = sender ∧
  ∃ hash, pool !! hash = Some m.
Proof.
  unfold group_of. rewrite list_elem_of_filter, list_elem_of_fmap. split.
  - intros [[Hf Hs] ([hash m'] & -> & Hin)]. apply elem_of_map_to_list in Hin. eauto.
  - intros (Hf & Hs & hash & Hin). split; [done|]. exists (hash, m).
    by rewrite elem_of_map_to_list.
Qed.
