(* ===== verification/Vm.v ===== *)
(** * The execution of blocks (crates/vm: vm.rs, db.rs, execution_result.rs)

    How the client runs blocks on the revm machine: the environments it builds
    for a block and a transaction, the loop over the transactions of a block
    with the receipts, the withdrawals, and the account updates that it reads
    off the state of the machine.  revm is the class [Revm]. *)

From stdpp Require Import base option list numbers strings gmap.
From S2P Require Import Prelude Rlp LevmHost Trie Tx BlockTypes Chain Store Blockchain.

Local Open Scope Z_scope.

(** ** Results (execution_result.rs) *)

Module ExecutionResult.
Inductive SuccessReason := Stop | Return | SelfDestruct | EofReturnContract.
Inductive Output := OutputCall (bytes : list Z) | OutputCreate (bytes : list Z) (a : option (list Z)).

Inductive t :=
| Success (reason : SuccessReason) (gas_used gas_refunded : Z) (logs : list Log.t) (output : Output)
| Revert (gas_used : Z) (output : list Z)
| Halt (reason : string) (gas_used : Z).

Definition is_success (self : t) : bool :=
  match self with Success _ _ _ _ _ => true | _ => false end.
Definition gas_used (self : t) : Z :=
  match self with
  | Success _ gas_used _ _ _ => gas_used
  | Revert gas_used _ => gas_used
  | Halt _ gas_used => gas_used
  end.
Definition logs (self : t) : list Log.t :=
  match self with Success _ _ _ logs _ => logs | _ => [] end.
Definition gas_refunded (self : t) : Z :=
  match self with Success _ _ gas_refunded _ _ => gas_refunded | _ => 0 end.
Definition output (self : t) : list Z :=
  match self with
  | Success _ _ _ _ (OutputCall bytes) => bytes
  | Success _ _ _ _ (OutputCreate bytes _) => bytes
  | Revert _ output => output
  | Halt _ _ => []
  end.
End ExecutionResult.

(** ** Environments *)

(** The price of blob gas is a function of [blob_excess_gas] in revm. *)
Record BlockEnv := {
  be_number : Z;
  be_coinbase : list Z;
  be_timestamp : Z;
  be_gas_limit : Z;
  be_basefee : Z;
  be_difficulty : Z;
  be_prevrandao : option (list Z);
  be_blob_excess_gas : option Z;
}.

Record TxEnv := {
  te_caller : list Z;
  te_gas_limit : Z;
  te_gas_price : Z;
  te_transact_to : TxKind;
  te_value : Z;
  te_data : list Z;
  te_nonce : option Z;
  te_chain_id : option Z;
  te_access_list : list (list Z * list (list Z));
  te_gas_priority_fee : option Z;
  te_blob_hashes : list (list Z);
  te_max_fee_per_blob_gas : option Z;
}.

(** ["burn"] and ["mint"]. *)
Definition WITHDRAWAL_MAGIC_DATA : list Z := [0x62; 0x75; 0x72; 0x6e].
Definition DEPOSIT_MAGIC_DATA : list Z := [0x6d; 0x69; 0x6e; 0x74].

Definition address_zero : list Z := replicate 20 0.

Definition block_env (header : BlockHeader.t) : BlockEnv := {|
  be_number := BlockHeader.number header;
  be_coinbase := BlockHeader.coinbase header;
  be_timestamp := BlockHeader.timestamp header;
  be_gas_limit := BlockHeader.gas_limit header;
  be_basefee := default INITIAL_BASE_FEE (BlockHeader.base_fee_per_gas header);
  be_difficulty := BlockHeader.difficulty header;
  be_prevrandao := Some (BlockHeader.prev_randao header);
  be_blob_excess_gas := Some (default 0 (BlockHeader.excess_blob_gas header));
|}.

(** The addresses of the system call of EIP-4788. *)
Definition SYSTEM_ADDRESS : list Z := replicate 19 0xff ++ [0xfe].
Definition CONTRACT_ADDRESS : list Z :=
  [0x00; 0x0f; 0x3d; 0xf6; 0xd7; 0x32; 0x80; 0x7e; 0xf1; 0x31;
   0x9f; 0xb7; 0xb8; 0xbb; 0x85; 0x22; 0xd0; 0xbe; 0xac; 0x02].

(** Its block environment: that of the block with two fields overwritten. *)
Definition system_block_env (header : BlockHeader.t) : BlockEnv :=
  let e := block_env header in {|
  be_number := be_number e; be_coinbase := be_coinbase e; be_timestamp := be_timestamp e;
  be_gas_limit := 30000000; be_basefee := 0; be_difficulty := be_difficulty e;
  be_prevrandao := be_prevrandao e; be_blob_excess_gas := be_blob_excess_gas e;
|}.

(** ** The machine *)

(** revm's account info. *)
Record RevmAccountInfo := {
  ri_balance : Z;
  ri_nonce : Z;
  ri_code_hash : list Z;
  ri_code : option (list Z);
}.

(** What the client reads of an account that revm changed. *)
Record BundleSlot := { slot_changed : bool; slot_present_value : Z }.
Record BundleAccount := {
  ba_not_modified : bool;
  ba_destroyed : bool;
  ba_account_info : option RevmAccountInfo;
  ba_info_changed : bool;
  ba_contract_changed : bool;
  ba_storage : list (Z * BundleSlot);
}.

(** The database revm reads: the functions of its trait. *)
Record RevmDatabase := {
  basic : list Z → StoreResult (option RevmAccountInfo);
  code_by_hash : list Z → StoreResult (list Z);
  storage : list Z → Z → StoreResult Z;
  block_hash_of : Z → StoreResult (list Z);
}.

(** revm's [State] over a database: its operations.  They may load accounts into
    the cache of the state also when they fail, so each returns the state;
    [default_tx_env] is revm's [TxEnv::default()] and [info_is_empty] the
    [is_empty] of its account infos.  The parts of the store that the database
    reads do not change while a block is executed or built, so the state is
    built on what they are at the start. *)
Class Revm := {
  RevmState : Type;
  ResultState : Type;
  default_tx_env : TxEnv;
  info_is_empty : RevmAccountInfo → bool;
  state_builder : RevmDatabase → RevmState;
  transact_commit : Z → SpecId → BlockEnv → TxEnv → RevmState →
    Outcome EvmError ExecutionResult.t * RevmState;
  transact : SpecId → BlockEnv → TxEnv → RevmState →
    Outcome EvmError (ExecutionResult.t * ResultState) * RevmState;
  result_remove : list Z → ResultState → ResultState;
  commit_result : ResultState → RevmState → RevmState;
  increment_balances : list (list Z * Z) → RevmState → Outcome StoreError unit * RevmState;
  take_bundle : RevmState → list (list Z * BundleAccount);
}.

Section vm.
Context `{Crypto} `{Secp256k1} `{EthBloom} `{BuildProfile} `{Revm}.

Notation EvmM := (StateT RevmState EvmError).

(** *** The database over the store (db.rs) *)

(** [StoreWrapper]: the state after the block [block_hash]. *)
Definition wrapper_basic (s : Store.t) (block_hash address : list Z) :
    StoreResult (option RevmAccountInfo) :=
  acc_info ← (Store.get_account_info_by_hash block_hash address s).1;
  match acc_info with
  | None => Ok None
  | Some acc_info =>
      code ← (Store.get_account_code (AccountInfo.code_hash acc_info) s).1;
      Ok (Some {| ri_balance := AccountInfo.balance acc_info; ri_nonce := AccountInfo.nonce acc_info;
                  ri_code_hash := AccountInfo.code_hash acc_info; ri_code := code |})
  end.

Definition wrapper_code_by_hash (s : Store.t) (code_hash : list Z) : StoreResult (list Z) :=
  code ← (Store.get_account_code code_hash s).1;
  ok_or code (StoreCustom "No code for hash").

Definition wrapper_storage (s : Store.t) (block_hash address : list Z) (index : Z) : StoreResult Z :=
  value ← (Store.get_storage_at_hash block_hash address (be_encode 32 index) s).1;
  Ok (default 0 value).

Definition wrapper_block_hash (s : Store.t) (number : Z) : StoreResult (list Z) :=
  header ← (Store.get_block_header number s).1;
  match header with
  | Some header => Ok (compute_block_hash header)
  | None => Err (StoreCustom "Block not found")
  end.

Definition StoreWrapper (s : Store.t) (block_hash : list Z) : RevmDatabase := {|
  basic := wrapper_basic s block_hash;
  code_by_hash := wrapper_code_by_hash s;
  storage := wrapper_storage s block_hash;
  block_hash_of := wrapper_block_hash s;
|}.

(** [evm_state]. *)
Definition evm_state_of (s : Store.t) (block_hash : list Z) : RevmState :=
  state_builder (StoreWrapper s block_hash).

Definition tx_env {E} (tx : Transaction) : Outcome E TxEnv :=
  caller ← (match tx with
            | PrivilegedL2Transaction t =>
                match PrivilegedL2Transaction.tx_type t with
                | PrivilegedTxType.Deposit => Ok address_zero
                | PrivilegedTxType.Withdrawal => Transaction.sender tx
                end
            | _ => Transaction.sender tx
            end);
  chain_id ← Transaction.chain_id tx;
  Ok {|
    te_caller := caller;
    te_gas_limit := Transaction.gas_limit tx;
    te_gas_price := Transaction.gas_price tx;
    te_transact_to :=
      match tx with
      | PrivilegedL2Transaction t =>
          match PrivilegedL2Transaction.tx_type t with
          | PrivilegedTxType.Withdrawal => Call address_zero
          | PrivilegedTxType.Deposit => Transaction.to tx
          end
      | _ => Transaction.to tx
      end;
    te_value := Transaction.value tx;
    te_data :=
      match tx with
      | PrivilegedL2Transaction t =>
          match PrivilegedL2Transaction.tx_type t with
          | PrivilegedTxType.Deposit => DEPOSIT_MAGIC_DATA
          | PrivilegedTxType.Withdrawal =>
              WITHDRAWAL_MAGIC_DATA ++
                match PrivilegedL2Transaction.to t with Call to => to | Create => address_zero end
          end
      | _ => Transaction.data tx
      end;
    te_nonce := Some (Transaction.nonce tx);
    te_chain_id := chain_id;
    te_access_list := Transaction.access_list tx;
    te_gas_priority_fee := Transaction.max_priority_fee tx;
    te_blob_hashes := Transaction.blob_versioned_hashes tx;
    te_max_fee_per_blob_gas := Transaction.max_fee_per_blob_gas tx;
  |}.

(** The chain config is read from the store of the state. *)
Definition run_evm (config : ChainConfig.t) (tx_env : TxEnv) (block_env : BlockEnv)
    (spec_id : SpecId) : EvmM ExecutionResult.t :=
  transact_commit (ChainConfig.chain_id config) spec_id block_env tx_env.

Definition execute_tx (config : ChainConfig.t) (tx : Transaction) (header : BlockHeader.t)
    (spec_id : SpecId) : EvmM ExecutionResult.t :=
  let block_env := block_env header in
  tx_env ← state_lift (tx_env tx);
  run_evm config tx_env block_env spec_id.

Definition system_tx_env (beacon_root : list Z) : TxEnv := {|
  te_caller := SYSTEM_ADDRESS;
  te_gas_limit := 30000000;
  te_gas_price := te_gas_price default_tx_env;
  te_transact_to := Call CONTRACT_ADDRESS;
  te_value := te_value default_tx_env;
  te_data := beacon_root;
  te_nonce := te_nonce default_tx_env;
  te_chain_id := te_chain_id default_tx_env;
  te_access_list := te_access_list default_tx_env;
  te_gas_priority_fee := te_gas_priority_fee default_tx_env;
  te_blob_hashes := te_blob_hashes default_tx_env;
  te_max_fee_per_blob_gas := te_max_fee_per_blob_gas default_tx_env;
|}.

Definition beacon_root_contract_call (header : BlockHeader.t) (spec_id : SpecId) :
    EvmM ExecutionResult.t :=
  match BlockHeader.parent_beacon_block_root header with
  | None => state_throw (EvmHeader "parent_beacon_block_root field is missing")
  | Some beacon_root => λ s,
      let block_env := system_block_env header in
      match transact spec_id block_env (system_tx_env beacon_root) s with
      | (Ok (result, result_state), s) =>
          let result_state := result_remove SYSTEM_ADDRESS result_state in
          let result_state := result_remove (be_coinbase block_env) result_state in
          (Ok result, commit_result result_state s)
      | (Err e, s) => (Err e, s)
      | (Panic, s) => (Panic, s)
      | (NoFuel, s) => (NoFuel, s)
      end
  end.

(** The product of two [u64] fits in a [u128]. *)
Definition balance_increment (w : Withdrawal.t) : list Z * Z :=
  (Withdrawal.address w, Withdrawal.amount w * GWEI_TO_WEI).

Definition process_withdrawals (withdrawals : list Withdrawal.t) : StateT RevmState StoreError unit :=
  let balance_increments :=
    balance_increment <$> List.filter (λ w, 0 <? Withdrawal.amount w) withdrawals in
  increment_balances balance_increments.

(** *** The account updates *)

Definition changed_slots (storage : list (Z * BundleSlot)) : list (list Z * Z) :=
  omap (λ '(key, slot),
    if slot_changed slot then Some (be_encode 32 key, slot_present_value slot) else None) storage.

Definition update_of (address : list Z) (account : BundleAccount) : option AccountUpdate.t :=
  if ba_not_modified account then None
  else if ba_destroyed account then Some (AccountUpdate.new_removed address)
  else if match ba_account_info account with
          | Some acc_info => info_is_empty acc_info
          | None => false
          end then None
  else
    let new_acc_info := if ba_info_changed account then ba_account_info account else None in
    Some {|
      AccountUpdate.address := address;
      AccountUpdate.removed := false;
      AccountUpdate.info :=
        (λ i, {| AccountInfo.code_hash := ri_code_hash i; AccountInfo.balance := ri_balance i;
                 AccountInfo.nonce := ri_nonce i |}) <$> new_acc_info;
      AccountUpdate.code :=
        if ba_contract_changed account then new_acc_info ≫= ri_code else None;
      AccountUpdate.added_storage := changed_slots (ba_storage account);
    |}.

Definition get_state_transitions (state : RevmState) : list AccountUpdate.t :=
  omap (λ '(address, account), update_of address account) (take_bundle state).

(** *** Blocks *)

(** The loop over the transactions. *)
Fixpoint execute_txs (config : ChainConfig.t) (header : BlockHeader.t) (spec_id : SpecId)
    (transactions : list Transaction) (cumulative_gas_used : Z) (receipts : list Receipt.t) :
    EvmM (list Receipt.t) :=
  match transactions with
  | [] => mret receipts
  | transaction :: transactions =>
      result ← execute_tx config transaction header spec_id;
      cumulative_gas_used ← state_lift
        (u_add 64 cumulative_gas_used (ExecutionResult.gas_used result));
      let receipt :=
        Receipt.new (Transaction.tx_type transaction) (ExecutionResult.is_success result)
          cumulative_gas_used (ExecutionResult.logs result) in
      execute_txs config header spec_id transactions cumulative_gas_used (receipts ++ [receipt])
  end.

Definition wants_beacon_root (header : BlockHeader.t) (spec_id : SpecId) : bool :=
  match BlockHeader.parent_beacon_block_root header, spec_id with
  | Some _, CANCUN => true
  | _, _ => false
  end.

(** [execute_block] of the build with revm and without the L2 feature. *)
Definition execute_block_revm (config : ChainConfig.t) (block : Block.t) :
    EvmM (list Receipt.t) :=
  let block_header := Block.header block in
  let spec_id := spec_id config (BlockHeader.timestamp block_header) in
  _ ← (if wants_beacon_root block_header spec_id
       then _ ← beacon_root_contract_call block_header spec_id; mret ()
       else mret ());
  receipts ← execute_txs config block_header spec_id
               (BlockBody.transactions (Block.body block)) 0 [];
  _ ← (match BlockBody.withdrawals (Block.body block) with
       | Some withdrawals => state_map_err EvmDB (process_withdrawals withdrawals)
       | None => mret ()
       end);
  mret receipts.

(** What [add_block] takes from the machine: the receipts of the block on the
    state of its parent, and then the updates. *)
#[export] Instance revm_execution : Execution := λ s block,
  config ← map_err EvmDB (Store.get_chain_config s).1;
  let '(receipts, state) :=
    execute_block_revm config block
      (evm_state_of s (BlockHeader.parent_hash (Block.header block))) in
  receipts ← receipts;
  Ok (receipts, get_state_transitions state).
End vm.
