(* ===== verification/Payload.v ===== *)
(** * The payload builder (crates/blockchain/payload.rs)

    A payload is created empty on top of its parent, and built when it is asked
    for: the system call and the withdrawals are applied, the queues of the
    pool are emptied into the block as long as there is gas, and the header is
    completed.  The state of the builder is [PayloadBuildContext], with the store
    that the source reaches through the state of the machine. *)

From stdpp Require Import base option list numbers strings gmap.
From S2P Require Import Prelude Rlp LevmHost TrieNode Trie Tx BlockTypes Chain Store Blockchain.
From S2P Require Import Mempool Vm.

Local Open Scope Z_scope.

(** ** Creating a payload *)

Module BuildPayloadArgs.
Record t := {
  parent : list Z;
  timestamp : Z;
  fee_recipient : list Z;
  random : list Z;
  withdrawals : option (list Withdrawal.t);
  beacon_root : option (list Z);
  version : Z;
}.

Definition id `{Crypto} (self : t) : Z :=
  let digest := keccak
    (parent self ++ u64_to_be_bytes (timestamp self) ++ random self ++ fee_recipient self
     ++ match withdrawals self with Some withdrawals => encode withdrawals | None => [] end
     ++ default [] (beacon_root self)) in
  u64_from_be_bytes (version self :: drop 1 (take 8 digest)).
End BuildPayloadArgs.

Section create.
Context `{Crypto} `{EthBloom} `{BuildProfile}.

Definition DEFAULT_BUILDER_GAS_CEIL : Z := 30000000.

Definition calc_gas_limit {E} (parent_gas_limit desired_limit : Z) : Outcome E Z :=
  delta ← u_sub 64 (parent_gas_limit / GAS_LIMIT_BOUND_DIVISOR) 1;
  let limit := parent_gas_limit in
  let desired_limit := Z.min desired_limit MIN_GAS_LIMIT in
  if limit <? desired_limit then
    limit ← u_add 64 parent_gas_limit delta;
    Ok (if desired_limit <? limit then desired_limit else limit)
  else if desired_limit <? limit then
    limit ← u_sub 64 parent_gas_limit delta;
    Ok (if limit <? desired_limit then desired_limit else limit)
  else Ok limit.

Definition calc_excess_blob_gas {E} (parent_excess_blob_gas parent_blob_gas_used : Z) :
    Outcome E Z :=
  excess_blob_gas ← u_add 64 parent_excess_blob_gas parent_blob_gas_used;
  if excess_blob_gas <? TARGET_BLOB_GAS_PER_BLOCK then Ok 0
  else u_sub 64 excess_blob_gas TARGET_BLOB_GAS_PER_BLOCK.

(** [then_some]: its argument is evaluated in both cases. *)
Definition then_some {A} (b : bool) (a : A) : option A := if b then Some a else None.

(** The struct expressions of [create_payload], with the computed fields. *)
Definition payload_block (args : BuildPayloadArgs.t) (parent_block : BlockHeader.t)
    (chain_config : ChainConfig.t) (gas_limit : Z) (transactions_root receipts_root : list Z)
    (base_fee_per_gas : option Z) (withdrawals_root : list Z) (excess_blob_gas : Z) : Block.t :=
  let shanghai :=
    ChainConfig.is_shanghai_activated chain_config (BuildPayloadArgs.timestamp args) in
  let cancun := ChainConfig.is_cancun_activated chain_config (BuildPayloadArgs.timestamp args) in
  Block.new
    {| BlockHeader.parent_hash := BuildPayloadArgs.parent args;
       BlockHeader.ommers_hash := DEFAULT_OMMERS_HASH;
       BlockHeader.coinbase := BuildPayloadArgs.fee_recipient args;
       BlockHeader.state_root := BlockHeader.state_root parent_block;
       BlockHeader.transactions_root := transactions_root;
       BlockHeader.receipts_root := receipts_root;
       BlockHeader.logs_bloom := bloom_zero;
       BlockHeader.difficulty := 0;
       BlockHeader.number := saturating_add 64 (BlockHeader.number parent_block) 1;
       BlockHeader.gas_limit := gas_limit;
       BlockHeader.gas_used := 0;
       BlockHeader.timestamp := BuildPayloadArgs.timestamp args;
       BlockHeader.extra_data := [];
       BlockHeader.prev_randao := BuildPayloadArgs.random args;
       BlockHeader.nonce := 0;
       BlockHeader.base_fee_per_gas := base_fee_per_gas;
       BlockHeader.withdrawals_root := then_some shanghai withdrawals_root;
       BlockHeader.blob_gas_used := then_some cancun 0;
       BlockHeader.excess_blob_gas := then_some cancun excess_blob_gas;
       BlockHeader.parent_beacon_block_root := BuildPayloadArgs.beacon_root args |}
    {| BlockBody.transactions := [];
       BlockBody.ommers := [];
       BlockBody.withdrawals := BuildPayloadArgs.withdrawals args |}.

(** The block on a parent, once the store has been read: the fields that are
    computed, in their order. *)
Definition payload_on (args : BuildPayloadArgs.t) (parent_block : BlockHeader.t)
    (chain_config : ChainConfig.t) : ChainResult Block.t :=
  let parent_gas_limit : Z := BlockHeader.gas_limit parent_block in
  gas_limit ← calc_gas_limit parent_gas_limit DEFAULT_BUILDER_GAS_CEIL;
  transactions_root ← root_or_panic (compute_transactions_root []);
  receipts_root ← root_or_panic (compute_receipts_root []);
  base_fee_per_gas ← calculate_base_fee_per_gas gas_limit parent_gas_limit
    (BlockHeader.gas_used parent_block) (default 0 (BlockHeader.base_fee_per_gas parent_block));
  withdrawals_root ← root_or_panic
    (compute_withdrawals_root (default [] (BuildPayloadArgs.withdrawals args)));
  excess_blob_gas ← calc_excess_blob_gas (default 0 (BlockHeader.excess_blob_gas parent_block))
    (default 0 (BlockHeader.blob_gas_used parent_block));
  Ok (payload_block args parent_block chain_config gas_limit transactions_root receipts_root
        base_fee_per_gas withdrawals_root excess_blob_gas).

Definition create_payload (args : BuildPayloadArgs.t) : ChainM Block.t :=
  parent_block ← chain_store (Store.get_block_header_by_hash (BuildPayloadArgs.parent args));
  parent_block ← state_lift (ok_or parent_block ParentNotFound);
  chain_config ← chain_store Store.get_chain_config;
  state_lift (payload_on args parent_block chain_config).
End create.

(** ** The queue of transactions *)

Module HeadTransaction.
Record t := { tx : MempoolTransaction.t; sender : list Z; tip : Z }.

(** [Deref] to the transaction. *)
Definition inner (self : t) : Transaction := MempoolTransaction.inner (tx self).

Definition cmp (self other : t) : comparison :=
  match Z.compare (tip other) (tip self) with
  | Eq => Z.compare (MempoolTransaction.time (tx self)) (MempoolTransaction.time (tx other))
  | ordering => ordering
  end.

Definition leb (a b : t) : bool := match cmp a b with Gt => false | _ => true end.
End HeadTransaction.

(** [slice::binary_search]: the index in [Ok] or in [Err]; which of several
    matches it returns is left open by the standard library. *)
Class BinarySearch :=
  binary_search : ∀ {A : Type}, (A → A → comparison) → list A → A → nat.

Module TransactionQueue.
Record t := {
  heads : list HeadTransaction.t;
  txs : gmap (list Z) (list MempoolTransaction.t);
  base_fee : option Z;
}.

Definition invalid_tx : ChainError := InvalidBlock (InvalidTransaction
  "Attempted to add an invalid transaction to the block. The transaction filter must have failed.").

Definition make_head (base_fee : option Z) (sender : list Z) (tx : MempoolTransaction.t) :
    ChainResult HeadTransaction.t :=
  tip ← ok_or (Transaction.effective_gas_tip (MempoolTransaction.inner tx) base_fee) invalid_tx;
  Ok {| HeadTransaction.tx := tx; HeadTransaction.sender := sender; HeadTransaction.tip := tip |}.

(** The loop of [new]; [remove(0)] panics on an empty list. *)
Fixpoint take_heads (base_fee : option Z) (entries : list (list Z * list MempoolTransaction.t)) :
    ChainResult (list HeadTransaction.t) :=
  match entries with
  | [] => Ok []
  | (_, []) :: _ => Panic
  | (address, head_tx :: _) :: entries =>
      head ← make_head base_fee address head_tx;
      heads ← take_heads base_fee entries;
      Ok (head :: heads)
  end.

Definition new `{HashMapIter} (txs : gmap (list Z) (list MempoolTransaction.t))
    (base_fee : option Z) : ChainResult t :=
  heads ← take_heads base_fee (hash_iter txs);
  Ok {| heads := stable_sort HeadTransaction.leb heads; txs := tail <$> txs;
        base_fee := base_fee |}.

Definition clear (self : t) : t := {| heads := []; txs := ∅; base_fee := base_fee self |}.

Definition is_empty (self : t) : bool := match heads self with [] => true | _ => false end.

Definition peek (self : t) : option HeadTransaction.t := head (heads self).

Definition pop (self : t) : t :=
  match heads self with
  | [] => self
  | head :: heads =>
      {| heads := heads; txs := delete (HeadTransaction.sender head) (txs self);
         base_fee := base_fee self |}
  end.

(** [Vec::insert] panics past the end. *)
Definition vec_insert {E A} (index : nat) (a : A) (l : list A) : Outcome E (list A) :=
  if (index <=? length l)%nat then Ok (take index l ++ a :: drop index l) else Panic.

Definition shift `{BinarySearch} (self : t) : ChainResult t :=
  match heads self with
  | [] => Panic
  | tx :: heads =>
      match txs self !! HeadTransaction.sender tx with
      | Some (head_tx :: rest) =>
          head ← make_head (base_fee self) (HeadTransaction.sender tx) head_tx;
          heads ← vec_insert (binary_search HeadTransaction.cmp heads head) head heads;
          Ok {| heads := heads; txs := <[HeadTransaction.sender tx := rest]> (txs self);
                base_fee := base_fee self |}
      | _ => Ok {| heads := heads; txs := txs self; base_fee := base_fee self |}
      end
  end.

(** The number of transactions that wait in the queue. *)
Definition size (self : t) : nat :=
  length (heads self) + sum_list_with (λ e, length e.2) (map_to_list (txs self)).
End TransactionQueue.

(** ** Building a payload *)

Section build.
Context `{Crypto} `{Secp256k1} `{EthBloom} `{BuildProfile} `{Revm} `{HashMapIter} `{BinarySearch}.

Record PayloadBuildContext := {
  payload : Block.t;
  evm_state : RevmState;
  remaining_gas : Z;
  receipts : list Receipt.t;
  block_value : Z;
  base_fee_per_blob_gas : Z;
  blobs_bundle : BlobsBundle.t;
  store : Store.t;
}.

Notation PayloadM := (StateT PayloadBuildContext ChainError).

Definition context_new {E} (payload : Block.t) (evm_state : RevmState) (store : Store.t) :
    Outcome E PayloadBuildContext :=
  base_fee_per_blob_gas ← calculate_base_fee_per_blob_gas
    (default 0 (BlockHeader.excess_blob_gas (Block.header payload)));
  Ok {| payload := payload; evm_state := evm_state;
        remaining_gas := BlockHeader.gas_limit (Block.header payload);
        receipts := []; block_value := 0; base_fee_per_blob_gas := base_fee_per_blob_gas;
        blobs_bundle := BlobsBundle.empty; store := store |}.

Definition set_payload (p : Block.t) (c : PayloadBuildContext) : PayloadBuildContext :=
  {| payload := p; evm_state := evm_state c; remaining_gas := remaining_gas c;
     receipts := receipts c; block_value := block_value c;
     base_fee_per_blob_gas := base_fee_per_blob_gas c; blobs_bundle := blobs_bundle c;
     store := store c |}.
Definition set_evm_state (e : RevmState) (c : PayloadBuildContext) : PayloadBuildContext :=
  {| payload := payload c; evm_state := e; remaining_gas := remaining_gas c;
     receipts := receipts c; block_value := block_value c;
     base_fee_per_blob_gas := base_fee_per_blob_gas c; blobs_bundle := blobs_bundle c;
     store := store c |}.
Definition set_remaining_gas (g : Z) (c : PayloadBuildContext) : PayloadBuildContext :=
  {| payload := payload c; evm_state := evm_state c; remaining_gas := g;
     receipts := receipts c; block_value := block_value c;
     base_fee_per_blob_gas := base_fee_per_blob_gas c; blobs_bundle := blobs_bundle c;
     store := store c |}.
Definition push_receipt (r : Receipt.t) (c : PayloadBuildContext) : PayloadBuildContext :=
  {| payload := payload c; evm_state := evm_state c; remaining_gas := remaining_gas c;
     receipts := receipts c ++ [r]; block_value := block_value c;
     base_fee_per_blob_gas := base_fee_per_blob_gas c; blobs_bundle := blobs_bundle c;
     store := store c |}.
Definition set_block_value (v : Z) (c : PayloadBuildContext) : PayloadBuildContext :=
  {| payload := payload c; evm_state := evm_state c; remaining_gas := remaining_gas c;
     receipts := receipts c; block_value := v;
     base_fee_per_blob_gas := base_fee_per_blob_gas c; blobs_bundle := blobs_bundle c;
     store := store c |}.
Definition add_blobs (b : BlobsBundle.t) (c : PayloadBuildContext) : PayloadBuildContext :=
  {| payload := payload c; evm_state := evm_state c; remaining_gas := remaining_gas c;
     receipts := receipts c; block_value := block_value c;
     base_fee_per_blob_gas := base_fee_per_blob_gas c;
     blobs_bundle := BlobsBundle.add_assign (blobs_bundle c) b; store := store c |}.
Definition set_store (s : Store.t) (c : PayloadBuildContext) : PayloadBuildContext :=
  {| payload := payload c; evm_state := evm_state c; remaining_gas := remaining_gas c;
     receipts := receipts c; block_value := block_value c;
     base_fee_per_blob_gas := base_fee_per_blob_gas c; blobs_bundle := blobs_bundle c;
     store := s |}.

Definition header (c : PayloadBuildContext) : BlockHeader.t := Block.header (payload c).

Definition parent_hash (c : PayloadBuildContext) : list Z := BlockHeader.parent_hash (header c).
Definition block_number (c : PayloadBuildContext) : Z := BlockHeader.number (header c).
Definition base_fee_per_gas (c : PayloadBuildContext) : option Z :=
  BlockHeader.base_fee_per_gas (header c).

(** Operations of the store and of the machine, on the parts of the context. *)
Definition in_store {A} (m : StoreM A) : PayloadM A := λ c,
  let '(r, s) := chain_store m (store c) in (r, set_store s c).
Definition in_evm {A} (m : StateT RevmState EvmError A) : PayloadM A := λ c,
  let '(r, e) := state_map_err ChainEvmError m (evm_state c) in (r, set_evm_state e c).

Definition chain_config : PayloadM ChainConfig.t := λ c,
  let '(r, s) := state_map_err (λ e, ChainEvmError (EvmDB e)) Store.get_chain_config (store c) in
  (r, set_store s c).

Definition apply_withdrawals : PayloadM unit :=
  config ← chain_config;
  header ← state_gets header;
  let spec_id := spec_id config (BlockHeader.timestamp header) in
  _ ← (if wants_beacon_root header spec_id
       then _ ← in_evm (beacon_root_contract_call header spec_id); mret tt
       else mret tt);
  payload ← state_gets payload;
  let withdrawals := default [] (BlockBody.withdrawals (Block.body payload)) in
  in_evm (state_map_err EvmDB (process_withdrawals withdrawals)).

Definition fetch_mempool_transactions : PayloadM (TransactionQueue.t * TransactionQueue.t) :=
  base_fee ← state_gets base_fee_per_gas;
  blob_fee ← state_gets base_fee_per_blob_gas;
  let plain_tx_filter :=
    {| min_tip := None; Mempool.base_fee := base_fee; blob_fee := Some blob_fee;
       only_plain_txs := true; only_blob_txs := false |} in
  let blob_tx_filter :=
    {| min_tip := None; Mempool.base_fee := base_fee; blob_fee := Some blob_fee;
       only_plain_txs := false; only_blob_txs := true |} in
  plain_txs ← in_store (filter_transactions plain_tx_filter);
  plain ← state_lift (TransactionQueue.new plain_txs base_fee);
  blob_txs ← in_store (filter_transactions blob_tx_filter);
  blob ← state_lift (TransactionQueue.new blob_txs base_fee);
  mret (plain, blob).

Definition apply_plain_transaction (head : HeadTransaction.t) : PayloadM Receipt.t :=
  config ← chain_config;
  header ← state_gets header;
  result ← in_evm (execute_tx config (HeadTransaction.inner head) header
                     (spec_id config (BlockHeader.timestamp header)));
  let gas_used := ExecutionResult.gas_used result in
  _ ← state_modify (λ c, set_remaining_gas (saturating_sub (remaining_gas c) gas_used) c);
  value ← state_gets block_value;
  value ← state_lift (Store.u256_add value (gas_used * HeadTransaction.tip head));
  _ ← state_modify (set_block_value value);
  remaining ← state_gets remaining_gas;
  cumulative ← state_lift (u_sub 64 (BlockHeader.gas_limit header) remaining);
  mret (Receipt.new (Transaction.tx_type (HeadTransaction.inner head))
          (ExecutionResult.is_success result) cumulative (ExecutionResult.logs result)).

Definition set_blob_gas_used (gas : Z) (c : PayloadBuildContext) : PayloadBuildContext :=
  let h := header c in
  set_payload {|
    Block.header := {|
      BlockHeader.parent_hash := BlockHeader.parent_hash h;
      BlockHeader.ommers_hash := BlockHeader.ommers_hash h;
      BlockHeader.coinbase := BlockHeader.coinbase h;
      BlockHeader.state_root := BlockHeader.state_root h;
      BlockHeader.transactions_root := BlockHeader.transactions_root h;
      BlockHeader.receipts_root := BlockHeader.receipts_root h;
      BlockHeader.logs_bloom := BlockHeader.logs_bloom h;
      BlockHeader.difficulty := BlockHeader.difficulty h;
      BlockHeader.number := BlockHeader.number h;
      BlockHeader.gas_limit := BlockHeader.gas_limit h;
      BlockHeader.gas_used := BlockHeader.gas_used h;
      BlockHeader.timestamp := BlockHeader.timestamp h;
      BlockHeader.extra_data := BlockHeader.extra_data h;
      BlockHeader.prev_randao := BlockHeader.prev_randao h;
      BlockHeader.nonce := BlockHeader.nonce h;
      BlockHeader.base_fee_per_gas := BlockHeader.base_fee_per_gas h;
      BlockHeader.withdrawals_root := BlockHeader.withdrawals_root h;
      BlockHeader.blob_gas_used := Some gas;
      BlockHeader.excess_blob_gas := BlockHeader.excess_blob_gas h;
      BlockHeader.parent_beacon_block_root := BlockHeader.parent_beacon_block_root h |};
    Block.body := Block.body (payload c);
    Block.hash_cell := Block.hash_cell (payload c) |} c.

Definition apply_blob_transaction (head : HeadTransaction.t) : PayloadM Receipt.t :=
  let tx_hash := Transaction.compute_hash (HeadTransaction.inner head) in
  bundle ← in_store (Store.get_blobs_bundle_from_pool tx_hash);
  match bundle with
  | None => state_throw (ChainStoreError (StoreCustom "No blobs bundle found for blob tx"))
  | Some bundle =>
      context_bundle ← state_gets blobs_bundle;
      blobs ← state_lift (u_add 64 (len (BlobsBundle.blobs context_bundle))
                            (len (BlobsBundle.blobs bundle)));
      blob_gas ← state_lift (u_mul 64 blobs GAS_PER_BLOB);
      if MAX_BLOB_GAS_PER_BLOCK <? blob_gas
      then state_throw (ChainEvmError (EvmCustom "max data blobs reached"))
      else
        receipt ← apply_plain_transaction head;
        prev_blob_gas ← state_gets (λ c, default 0 (BlockHeader.blob_gas_used (header c)));
        tx_blob_gas ← state_lift (u_mul 64 (len (BlobsBundle.blobs bundle)) GAS_PER_BLOB);
        blob_gas_used ← state_lift (u_add 64 prev_blob_gas tx_blob_gas);
        _ ← state_modify (set_blob_gas_used blob_gas_used);
        _ ← state_modify (add_blobs bundle);
        mret receipt
  end.

Definition apply_transaction (head : HeadTransaction.t) : PayloadM Receipt.t :=
  if is_blob_tx (HeadTransaction.inner head) then apply_blob_transaction head
  else apply_plain_transaction head.

Definition push_transaction (tx : Transaction) (c : PayloadBuildContext) : PayloadBuildContext :=
  set_payload {|
    Block.header := header c;
    Block.body := {|
      BlockBody.transactions := BlockBody.transactions (Block.body (payload c)) ++ [tx];
      BlockBody.ommers := BlockBody.ommers (Block.body (payload c));
      BlockBody.withdrawals := BlockBody.withdrawals (Block.body (payload c)) |};
    Block.hash_cell := Block.hash_cell (payload c) |} c.

(** The choice between the heads of the two queues; [true] for the blob queue. *)
Definition next_head (plain_txs blob_txs : TransactionQueue.t) :
    option (HeadTransaction.t * bool) :=
  match TransactionQueue.peek plain_txs, TransactionQueue.peek blob_txs with
  | None, None => None
  | None, Some tx => Some (tx, true)
  | Some tx, None => Some (tx, false)
  | Some a, Some b =>
      match HeadTransaction.cmp b a with Lt => Some (b, true) | _ => Some (a, false) end
  end.

(** [blob_txs.clear()] once the blobs of the block are used up. *)
Definition clear_when_full (blob_txs : TransactionQueue.t) : PayloadM TransactionQueue.t :=
  if TransactionQueue.is_empty blob_txs then mret blob_txs
  else
    bundle ← state_gets blobs_bundle;
    blob_gas ← state_lift (u_mul 64 (len (BlobsBundle.blobs bundle)) GAS_PER_BLOB);
    mret (if MAX_BLOB_GAS_PER_BLOCK <=? blob_gas then TransactionQueue.clear blob_txs
          else blob_txs).

(** What a round does with the head of a queue: the queue that is left. *)
Definition process_head (config : ChainConfig.t) (head_tx : HeadTransaction.t)
    (txs : TransactionQueue.t) : PayloadM TransactionQueue.t :=
  let tx := HeadTransaction.inner head_tx in
  remaining ← state_gets remaining_gas;
  if remaining <? Transaction.gas_limit tx then mret (TransactionQueue.pop txs)
  else
    protected ← state_lift (Transaction.protected tx);
    number ← state_gets block_number;
    if protected && negb (ChainConfig.is_eip155_activated config number) then
      _ ← in_store (remove_transaction (Transaction.compute_hash tx));
      mret (TransactionQueue.pop txs)
    else λ c,
      match apply_transaction head_tx c with
      | (Ok receipt, c) =>
          (txs ← state_lift (TransactionQueue.shift txs);
           _ ← in_store (remove_transaction (Transaction.compute_hash tx));
           _ ← state_modify (push_transaction tx);
           _ ← state_modify (push_receipt receipt);
           mret txs) c
      | (Err _, c) => (Ok (TransactionQueue.pop txs), c)
      | (Panic, c) => (Panic, c)
      | (NoFuel, c) => (NoFuel, c)
      end.

(** The loop of [fill_transactions]. *)
Fixpoint fill_loop (fuel : nat) (config : ChainConfig.t)
    (plain_txs blob_txs : TransactionQueue.t) : PayloadM unit :=
  match fuel with
  | O => state_lift NoFuel
  | S fuel =>
      remaining ← state_gets remaining_gas;
      if remaining <? TX_GAS_COST then mret tt
      else
        blob_txs ← clear_when_full blob_txs;
        match next_head plain_txs blob_txs with
        | None => mret tt
        | Some (head_tx, true) =>
            blob_txs ← process_head config head_tx blob_txs;
            fill_loop fuel config plain_txs blob_txs
        | Some (head_tx, false) =>
            plain_txs ← process_head config head_tx plain_txs;
            fill_loop fuel config plain_txs blob_txs
        end
  end.

(** Each round but the last takes a transaction off a queue. *)
Definition fill_transactions : PayloadM unit :=
  config ← chain_config;
  '(plain_txs, blob_txs) ← fetch_mempool_transactions;
  fill_loop (S (TransactionQueue.size plain_txs + TransactionQueue.size blob_txs))
    config plain_txs blob_txs.

Definition finish_header (state_root transactions_root receipts_root : list Z) (gas_used : Z)
    (c : PayloadBuildContext) : PayloadBuildContext :=
  let h := header c in
  set_payload {|
    Block.header := {|
      BlockHeader.parent_hash := BlockHeader.parent_hash h;
      BlockHeader.ommers_hash := BlockHeader.ommers_hash h;
      BlockHeader.coinbase := BlockHeader.coinbase h;
      BlockHeader.state_root := state_root;
      BlockHeader.transactions_root := transactions_root;
      BlockHeader.receipts_root := receipts_root;
      BlockHeader.logs_bloom := BlockHeader.logs_bloom h;
      BlockHeader.difficulty := BlockHeader.difficulty h;
      BlockHeader.number := BlockHeader.number h;
      BlockHeader.gas_limit := BlockHeader.gas_limit h;
      BlockHeader.gas_used := gas_used;
      BlockHeader.timestamp := BlockHeader.timestamp h;
      BlockHeader.extra_data := BlockHeader.extra_data h;
      BlockHeader.prev_randao := BlockHeader.prev_randao h;
      BlockHeader.nonce := BlockHeader.nonce h;
      BlockHeader.base_fee_per_gas := BlockHeader.base_fee_per_gas h;
      BlockHeader.withdrawals_root := BlockHeader.withdrawals_root h;
      BlockHeader.blob_gas_used := BlockHeader.blob_gas_used h;
      BlockHeader.excess_blob_gas := BlockHeader.excess_blob_gas h;
      BlockHeader.parent_beacon_block_root := BlockHeader.parent_beacon_block_root h |};
    Block.body := Block.body (payload c);
    Block.hash_cell := Block.hash_cell (payload c) |} c.

Definition finalize_payload : PayloadM unit :=
  account_updates ← state_gets (λ c, get_state_transitions (evm_state c));
  parent ← state_gets parent_hash;
  state_root ← in_store (Store.apply_account_updates parent account_updates);
  body ← state_gets (λ c, Block.body (payload c));
  transactions_root ← state_lift
    (root_or_panic (compute_transactions_root (BlockBody.transactions body)));
  receipts ← state_gets receipts;
  receipts_root ← state_lift (root_or_panic (compute_receipts_root receipts));
  gas_limit ← state_gets (λ c, BlockHeader.gas_limit (header c));
  remaining ← state_gets remaining_gas;
  gas_used ← state_lift (u_sub 64 gas_limit remaining);
  state_modify (finish_header (default (replicate 32 0) state_root) transactions_root
    receipts_root gas_used).

(** The three stages, on the context. *)
Definition build : PayloadM (BlobsBundle.t * Z) :=
  _ ← apply_withdrawals;
  _ ← fill_transactions;
  _ ← finalize_payload;
  bundle ← state_gets blobs_bundle;
  value ← state_gets block_value;
  mret (bundle, value).

(** The payload is passed by reference: it is returned with the result. *)
Definition build_payload (p : Block.t) : ChainM (Block.t * (BlobsBundle.t * Z)) := λ s,
  match context_new p (evm_state_of s (BlockHeader.parent_hash (Block.header p))) s with
  | Ok c => let '(r, c) := build c in (r ← r; Ok (payload c, r), store c)
  | Err e => (Err e, s)
  | Panic => (Panic, s)
  | NoFuel => (NoFuel, s)
  end.
End build.
