(* ===== verification/PayloadQueue.v ===== *)
(** * The queue of the payload builder

    The invariant of [TransactionQueue]: the heads are sorted by tip, there is
    one for each sender, and the transactions of a sender wait in the order of
    their nonces.  Creating a queue from the groups of the pool establishes it,
    and every operation keeps it and makes the queue smaller. *)

From stdpp Require Import base option list numbers strings gmap sorting.
From S2P Require Import Prelude Rlp LevmHost Trie Tx BlockTypes Chain Store StoreLogic Blockchain.
From S2P Require Import Mempool MempoolProofs Vm Payload.

Local Open Scope Z_scope.

(** What the standard library promises of [binary_search] on a slice that is
    sorted by a total order: an index at which the element can be inserted and
    the order kept. *)
Class BinarySearchLaws `{BinarySearch} : Prop :=
  binary_search_spec : ∀ {A : Type} (cmp : A → A → comparison) (l : list A) (x : A),
    (∀ a b, cmp b a = CompOpp (cmp a b)) →
    (∀ a b c, cmp a b ≠ Gt → cmp b c ≠ Gt → cmp a c ≠ Gt) →
    StronglySorted (λ a b, cmp a b ≠ Gt) l →
    (binary_search cmp l x ≤ length l)%nat ∧
    Forall (λ a, cmp a x ≠ Gt) (take (binary_search cmp l x) l) ∧
    Forall (λ a, cmp a x ≠ Lt) (drop (binary_search cmp l x) l).

(** ** The order of the heads *)

Definition head_before (a b : HeadTransaction.t) : Prop := HeadTransaction.cmp a b ≠ Gt.

Lemma head_before_spec a b :
  head_before a b ↔
  HeadTransaction.tip b < HeadTransaction.tip a ∨
  HeadTransaction.tip b = HeadTransaction.tip a ∧
  MempoolTransaction.time (HeadTransaction.tx a) ≤ MempoolTransaction.time (HeadTransaction.tx b).
Proof.
  unfold head_before, HeadTransaction.cmp.
  destruct (Z.compare_spec (HeadTransaction.tip b) (HeadTransaction.tip a));
    [destruct (Z.compare_spec (MempoolTransaction.time (HeadTransaction.tx a))
       (MempoolTransaction.time (HeadTransaction.tx b)))|..];
    split; intros; first [done | lia | exfalso; lia].
Qed.

Lemma head_not_lt a b : HeadTransaction.cmp a b ≠ Lt ↔ head_before b a.
Proof.
  rewrite head_before_spec. unfold HeadTransaction.cmp.
  destruct (Z.compare_spec (HeadTransaction.tip b) (HeadTransaction.tip a));
    [destruct (Z.compare_spec (MempoolTransaction.time (HeadTransaction.tx a))
       (MempoolTransaction.time (HeadTransaction.tx b)))|..];
    split; intros; first [done | lia | exfalso; lia].
Qed.

Lemma head_cmp_opp a b : HeadTransaction.cmp b a = CompOpp (HeadTransaction.cmp a b).
Proof.
  unfold HeadTransaction.cmp. rewrite (Z.compare_antisym (HeadTransaction.tip b)).
  destruct (HeadTransaction.tip b ?= HeadTransaction.tip a); cbn; [|done..].
  apply Z.compare_antisym.
Qed.

Lemma head_cmp_trans a b c : head_before a b → head_before b c → head_before a c.
Proof. rewrite !head_before_spec. lia. Qed.

Lemma leb_before a b : HeadTransaction.leb a b = true ↔ head_before a b.
Proof. unfold HeadTransaction.leb, head_before. by destruct (HeadTransaction.cmp a b). Qed.

Lemma leb_head_total a b : HeadTransaction.leb a b = true ∨ HeadTransaction.leb b a = true.
Proof. rewrite !leb_before, !head_before_spec. lia. Qed.

Lemma leb_head_trans a b c :
  HeadTransaction.leb a b = true → HeadTransaction.leb b c = true → HeadTransaction.leb a c = true.
Proof. rewrite !leb_before, !head_before_spec. lia. Qed.

Lemma StronglySorted_impl {A} (R R' : relation A) l :
  (∀ a b, R a b → R' a b) → StronglySorted R l → StronglySorted R' l.
Proof.
  intros HR. induction 1 as [|a l Hl IH Ha]; constructor; [done|].
  eapply Forall_impl; [exact Ha|]. eauto.
Qed.

(** Inserting between the smaller and the greater elements. *)
Lemma StronglySorted_insert {A} (R : relation A) l k x :
  StronglySorted R (l ++ k) → Forall (λ a, R a x) l → Forall (R x) k →
  StronglySorted R (l ++ x :: k).
Proof.
  intros Hs Hl Hk. induction l as [|a l IH]; cbn [app] in *; [by constructor|].
  inversion_clear Hs as [|? ? Hs' Ha]. inversion_clear Hl as [|? ? Hax Hl'].
  constructor; [by apply IH|]. apply Forall_app in Ha as [? ?].
  apply Forall_app. split; [done|]. by constructor.
Qed.

(** ** The invariant *)

Section queue.
Context `{BinarySearch} `{!BinarySearchLaws} `{HashMapIter}.
Implicit Types (q : TransactionQueue.t) (h : HeadTransaction.t) (m : MempoolTransaction.t).

Definition head_sender h : list Z := HeadTransaction.sender h.
Definition tip_of (base_fee : option Z) m : option Z :=
  Transaction.effective_gas_tip (MempoolTransaction.inner m) base_fee.

Record queue_ok q : Prop := {
  q_sorted : StronglySorted head_before (TransactionQueue.heads q);
  q_senders : NoDup (head_sender <$> TransactionQueue.heads q);
  q_tips : Forall (λ h, tip_of (TransactionQueue.base_fee q) (HeadTransaction.tx h) =
                          Some (HeadTransaction.tip h)) (TransactionQueue.heads q);
  q_waiting : ∀ sender l, TransactionQueue.txs q !! sender = Some l → l ≠ [] →
    ∃ h, h ∈ TransactionQueue.heads q ∧ head_sender h = sender ∧
      StronglySorted by_nonce (HeadTransaction.tx h :: l) ∧
      Forall (λ m, is_Some (tip_of (TransactionQueue.base_fee q) m)) l;
}.

(** A transaction that waits in a queue, and its sender. *)
Definition in_queue q (sender : list Z) m : Prop :=
  (∃ h, h ∈ TransactionQueue.heads q ∧ HeadTransaction.tx h = m ∧ head_sender h = sender) ∨
  ∃ l, TransactionQueue.txs q !! sender = Some l ∧ m ∈ l.

(** *** Sizes *)

Definition txs_size (txs : gmap (list Z) (list MempoolTransaction.t)) : nat :=
  sum_list_with (λ e, length e.2) (map_to_list txs).

Lemma sum_list_with_perm {A} (f : A → nat) l k : l ≡ₚ k → sum_list_with f l = sum_list_with f k.
Proof. induction 1; cbn; lia. Qed.

Lemma txs_size_delete txs sender l :
  txs !! sender = Some l → txs_size txs = (length l + txs_size (delete sender txs))%nat.
Proof.
  intros Hl. unfold txs_size. erewrite <-sum_list_with_perm by (by apply map_to_list_delete). done.
Qed.

Lemma txs_size_insert txs sender l k :
  txs !! sender = Some l → (txs_size (<[sender := k]> txs) + length l = txs_size txs + length k)%nat.
Proof.
  intros Hl. rewrite (txs_size_delete txs _ _ Hl).
  rewrite (txs_size_delete (<[sender := k]> txs) sender k) by apply lookup_insert_eq.
  rewrite delete_insert_eq. lia.
Qed.

Lemma txs_size_delete_le txs sender : (txs_size (delete sender txs) ≤ txs_size txs)%nat.
Proof.
  destruct (txs !! sender) as [l|] eqn:E.
  - rewrite (txs_size_delete txs _ _ E). lia.
  - by rewrite delete_id.
Qed.

(** *** Operations *)

(** What an operation leaves: a smaller queue of transactions that were there. *)
Definition shrinks q q' : Prop :=
  queue_ok q' ∧ (TransactionQueue.size q' < TransactionQueue.size q)%nat ∧
  TransactionQueue.base_fee q' = TransactionQueue.base_fee q ∧
  ∀ sender m, in_queue q' sender m → in_queue q sender m.

Lemma clear_ok q : queue_ok (TransactionQueue.clear q).
Proof. split; cbn; [constructor..|]. intros sender l. by rewrite lookup_empty. Qed.

Lemma head_unique q h h' :
  queue_ok q → h ∈ TransactionQueue.heads q → h' ∈ TransactionQueue.heads q →
  head_sender h = head_sender h' → h = h'.
Proof.
  intros [_ Hn _ _] Hh Hh' E. apply list_elem_of_lookup in Hh as [i Hi].
  apply list_elem_of_lookup in Hh' as [j Hj].
  assert (i = j) as <-; [|congruence]. eapply NoDup_lookup; [exact Hn|..];
    rewrite list_lookup_fmap; [by rewrite Hi|]. rewrite Hj. cbn. by f_equal.
Qed.

Lemma pop_ok q h :
  queue_ok q → TransactionQueue.peek q = Some h → shrinks q (TransactionQueue.pop q).
Proof.
  intros Hq Hp. pose proof Hq as [Hs Hn Ht Hw].
  destruct q as [heads txs base_fee]. unfold TransactionQueue.peek, TransactionQueue.pop in *. cbn in *.
  destruct heads as [|h' heads]; [done|]. injection Hp as ->. split_and!.
  - inversion_clear Hs. inversion_clear Ht. apply NoDup_cons in Hn as [Hh Hn].
    split; cbn; try done. intros sender l Hl Hne. apply lookup_delete_Some in Hl as [Hd Hl].
    destruct (Hw sender l Hl Hne) as (h' & Hin & E & ?). exists h'. split; [|done].
    apply elem_of_cons in Hin as [->|?]; [|done]. by destruct Hd.
  - unfold TransactionQueue.size. cbn.
    pose proof (txs_size_delete_le txs (HeadTransaction.sender h)). unfold txs_size in *. lia.
  - done.
  - intros sender m [(h' & ? & ? & ?)|(l & Hl & ?)]; cbn in *.
    + left. exists h'. cbn. split_and!; try done. by right.
    + right. apply lookup_delete_Some in Hl as [_ Hl]. eauto.
Qed.

Lemma make_head_ok base_fee sender m tip :
  tip_of base_fee m = Some tip →
  TransactionQueue.make_head base_fee sender m =
    Ok {| HeadTransaction.tx := m; HeadTransaction.sender := sender; HeadTransaction.tip := tip |}.
Proof. unfold TransactionQueue.make_head, tip_of. by intros ->. Qed.

(** The head is dropped and nothing of its sender waits. *)
Lemma drop_head_ok q h heads :
  queue_ok q → TransactionQueue.heads q = h :: heads →
  (∀ l, TransactionQueue.txs q !! head_sender h = Some l → l = []) →
  shrinks q {| TransactionQueue.heads := heads; TransactionQueue.txs := TransactionQueue.txs q;
               TransactionQueue.base_fee := TransactionQueue.base_fee q |}.
Proof.
  intros [Hs Hn Ht Hw] Eh Hnone. rewrite Eh in *. split_and!.
  - inversion_clear Hs. inversion_clear Ht. apply NoDup_cons in Hn as [Hh Hn].
    split; cbn; try done. intros sender l Hl Hne.
    destruct (Hw sender l Hl Hne) as (h' & Hin & <- & ?). exists h'. split; [|done].
    apply elem_of_cons in Hin as [->|?]; [|done]. by apply Hnone in Hl.
  - unfold TransactionQueue.size. rewrite Eh. cbn. lia.
  - done.
  - intros sender m [(h' & ? & ? & ?)|?]; [|by right].
    left. exists h'. rewrite Eh. split_and!; try done. by right.
Qed.

Lemma insert_perm {A} n (x : A) l : take n l ++ x :: drop n l ≡ₚ x :: l.
Proof. rewrite <-Permutation_middle. by rewrite take_drop. Qed.

(** The next transaction of the sender becomes a head. *)
Lemma next_head_ok q h heads m rest tip n :
  queue_ok q → TransactionQueue.heads q = h :: heads →
  TransactionQueue.txs q !! head_sender h = Some (m :: rest) →
  tip_of (TransactionQueue.base_fee q) m = Some tip →
  let h' := {| HeadTransaction.tx := m; HeadTransaction.sender := head_sender h;
               HeadTransaction.tip := tip |} in
  StronglySorted head_before (take n heads ++ h' :: drop n heads) →
  shrinks q {| TransactionQueue.heads := take n heads ++ h' :: drop n heads;
               TransactionQueue.txs := <[head_sender h := rest]> (TransactionQueue.txs q);
               TransactionQueue.base_fee := TransactionQueue.base_fee q |}.
Proof.
  intros Hq Eh Em Htip h' Hsort. pose proof Hq as [Hs Hn Ht Hw]. rewrite Eh in *.
  destruct (Hw _ _ Em) as (h0 & Hh0 & E0 & Hord & Hall); [done|].
  assert (h0 = h) as ->.
  { apply (head_unique q); rewrite ?Eh; [done|done|by left|done]. }
  pose proof (insert_perm n h' heads) as Hperm.
  inversion_clear Ht as [|? ? _ Ht']. inversion_clear Hall as [|? ? _ Hall'].
  inversion_clear Hord as [|? ? Hord' _]. split_and!.
  - split; cbn.
    + done.
    + rewrite Hperm. exact Hn.
    + rewrite Hperm. by constructor.
    + intros sender l Hl Hne. destruct (decide (sender = head_sender h)) as [->|Hd].
      * rewrite lookup_insert_eq in Hl. injection Hl as <-. exists h'.
        rewrite Hperm. split_and!; try done. by left.
      * rewrite lookup_insert_ne in Hl by done.
        destruct (Hw sender l Hl Hne) as (h1 & Hin & E & ?). exists h1. rewrite Hperm.
        split; [|done]. apply elem_of_cons in Hin as [->|?]; [by destruct Hd|by right].
  - unfold TransactionQueue.size. rewrite Eh. cbn. rewrite Hperm. cbn.
    pose proof (txs_size_insert _ _ _ rest Em) as Hz. unfold txs_size in Hz. cbn in Hz. lia.
  - done.
  - intros sender m0 [(h1 & Hin & ? & ?)|(l & Hl & Hin)]; cbn in *.
    + rewrite Hperm in Hin. apply elem_of_cons in Hin as [->|Hin].
      * right. exists (m :: rest). cbn in *. subst. split; [done|by left].
      * left. exists h1. rewrite Eh. split_and!; try done. by right.
    + right. apply lookup_insert_Some in Hl as [[<- <-]|[? ?]]; [|by eauto].
      exists (m :: rest). split; [done|by right].
Qed.

Lemma shift_ok q h :
  queue_ok q → TransactionQueue.peek q = Some h →
  ∃ q', TransactionQueue.shift q = Ok q' ∧ shrinks q q'.
Proof.
  intros Hq Hp. unfold TransactionQueue.peek, TransactionQueue.shift in *.
  destruct (TransactionQueue.heads q) as [|h' heads] eqn:Eh; [done|]. injection Hp as ->.
  change (HeadTransaction.sender h) with (head_sender h).
  destruct (TransactionQueue.txs q !! head_sender h) as [[|m rest]|] eqn:Em;
    [eexists; split; [reflexivity|]; apply (drop_head_ok q h); [done|done|]; intros; congruence| |
     eexists; split; [reflexivity|]; apply (drop_head_ok q h); [done|done|]; intros; congruence].
  pose proof Hq as [Hs Hn Ht Hw]. rewrite Eh in *.
  destruct (Hw _ _ Em) as (_ & _ & _ & _ & Hall); [done|].
  apply Forall_cons in Hall as [[tip Htip] _].
  rewrite (make_head_ok _ _ _ _ Htip). cbn [mbind outcome_bind].
  set (h' := {| HeadTransaction.tx := m |}). inversion_clear Hs as [|? ? Hs' _].
  destruct (binary_search_spec HeadTransaction.cmp heads h' head_cmp_opp head_cmp_trans Hs') as (Hle & Hlo & Hhi).
  unfold TransactionQueue.vec_insert. rewrite (proj2 (Nat.leb_le _ _) Hle). cbn [mbind outcome_bind].
  eexists. split; [reflexivity|]. eapply next_head_ok; [done|done|done|done|].
  apply StronglySorted_insert; [by rewrite take_drop|exact Hlo|].
  eapply Forall_impl; [exact Hhi|]. intros a. apply head_not_lt.
Qed.

(** *** What an operation takes out *)

(** Every transaction of the queue has a head of its sender, which comes first. *)
Lemma in_queue_head q sender m :
  queue_ok q → in_queue q sender m →
  ∃ h, h ∈ TransactionQueue.heads q ∧ head_sender h = sender ∧
    (HeadTransaction.tx h = m ∨ by_nonce (HeadTransaction.tx h) m).
Proof.
  intros Hq [(h & Hh & E & Es)|(l & Hl & Hm)]; [by exists h; auto|].
  destruct (q_waiting _ Hq sender l Hl) as (h & Hh & Es & Hsort & _); [by intros ->; apply elem_of_nil in Hm|].
  exists h. split; [done|]. split; [done|]. right. inversion_clear Hsort as [|? ? _ Hf].
  by apply (proj1 (Forall_forall _ _) Hf).
Qed.

Lemma empty_queue q sender m :
  queue_ok q → TransactionQueue.peek q = None → ¬ in_queue q sender m.
Proof.
  intros Hq Hp Hin. destruct (in_queue_head q sender m Hq Hin) as (h & Hh & _).
  unfold TransactionQueue.peek in Hp. destruct (TransactionQueue.heads q); [|done].
  by apply elem_of_nil in Hh.
Qed.

(** [pop] takes out the transactions of the sender of the head. *)
Lemma pop_takes q h sender m :
  queue_ok q → TransactionQueue.peek q = Some h → in_queue q sender m →
  in_queue (TransactionQueue.pop q) sender m ∨
  sender = head_sender h ∧ (HeadTransaction.tx h = m ∨ by_nonce (HeadTransaction.tx h) m).
Proof.
  intros Hq Hp Hin. destruct (decide (sender = head_sender h)) as [->|Hne].
  - right. split; [done|]. destruct (in_queue_head _ _ _ Hq Hin) as (h' & Hh' & Es & Hm).
    assert (h' = h) as <-; [|done]. apply (head_unique q); [done|done|by apply head_Some_elem_of|done].
  - left. unfold TransactionQueue.peek, TransactionQueue.pop in *.
    destruct (TransactionQueue.heads q) as [|h' heads] eqn:Eh; [done|]. injection Hp as ->.
    destruct Hin as [(h' & Hh' & Em & Es)|(l & Hl & Hm)]; rewrite ?Eh in *.
    + left. exists h'. cbn. split_and!; try done.
      apply elem_of_cons in Hh' as [->|?]; [congruence|done].
    + right. exists l. cbn. by rewrite lookup_delete_ne.
Qed.

(** [shift] takes out the head only. *)
Lemma shift_takes q q' h sender m :
  queue_ok q → TransactionQueue.peek q = Some h → TransactionQueue.shift q = Ok q' →
  in_queue q sender m → in_queue q' sender m ∨ m = HeadTransaction.tx h.
Proof.
  intros Hq Hp Hs Hin. unfold TransactionQueue.peek, TransactionQueue.shift in *.
  destruct (TransactionQueue.heads q) as [|h' heads] eqn:Eh; [done|]. injection Hp as ->.
  assert (∀ heads' txs', (∀ h0, h0 ∈ heads → h0 ∈ heads') →
    (∀ l, TransactionQueue.txs q !! sender = Some l → m ∈ l →
      (∃ l', txs' !! sender = Some l' ∧ m ∈ l') ∨
      ∃ h0, h0 ∈ heads' ∧ HeadTransaction.tx h0 = m ∧ head_sender h0 = sender) →
    in_queue {| TransactionQueue.heads := heads'; TransactionQueue.txs := txs';
      TransactionQueue.base_fee := TransactionQueue.base_fee q |} sender m ∨
    m = HeadTransaction.tx h) as Hkeep.
  { intros heads' txs' Hh Ht. destruct Hin as [(h0 & Hh0 & Em & Es)|(l & Hl & Hm)].
    - rewrite Eh in Hh0. apply elem_of_cons in Hh0 as [->|Hh0]; [by right|].
      left. left. exists h0. cbn. auto.
    - left. destruct (Ht l Hl Hm) as [?|?]; [right|left]; done. }
  destruct (TransactionQueue.txs q !! HeadTransaction.sender h) as [[|m' rest]|] eqn:Em;
    [injection Hs as <-; apply Hkeep; eauto| |injection Hs as <-; apply Hkeep; eauto].
  apply bind_Ok in Hs as (hd & Hhd & Hs). apply bind_Ok in Hs as (heads' & Hins & [= <-]).
  unfold TransactionQueue.vec_insert in Hins. case_match; [|done]. injection Hins as <-.
  unfold TransactionQueue.make_head in Hhd. apply bind_Ok in Hhd as (tip & _ & [= <-]).
  apply Hkeep; [intros h0 Hh0; rewrite insert_perm; by right|]. intros l Hl Hm.
  destruct (decide (sender = HeadTransaction.sender h)) as [->|Hne];
    [|left; exists l; by rewrite lookup_insert_ne].
  rewrite Em in Hl. injection Hl as <-. apply elem_of_cons in Hm as [->|Hm].
  - right. eexists. rewrite insert_perm. split; [by left|done].
  - left. exists rest. by rewrite lookup_insert_eq.
Qed.

(** *** Creation *)

(** The head that a group gives. *)
Definition head_of_group base_fee (e : list Z * list MempoolTransaction.t) h : Prop :=
  head_sender h = e.1 ∧ head e.2 = Some (HeadTransaction.tx h) ∧
  tip_of base_fee (HeadTransaction.tx h) = Some (HeadTransaction.tip h).

Definition group_ok base_fee (l : list MempoolTransaction.t) : Prop :=
  l ≠ [] ∧ StronglySorted by_nonce l ∧ Forall (λ m, is_Some (tip_of base_fee m)) l.

Lemma take_heads_ok base_fee entries :
  Forall (λ e, group_ok base_fee e.2) entries →
  ∃ heads, TransactionQueue.take_heads base_fee entries = Ok heads ∧
    Forall2 (head_of_group base_fee) entries heads.
Proof.
  induction 1 as [|[sender [|m l]] entries He _ (heads & IH & HF)]; [by exists []|by destruct He|].
  destruct He as (_ & _ & Hall). apply Forall_cons in Hall as [[tip Htip] _].
  cbn [TransactionQueue.take_heads]. rewrite (make_head_ok _ _ _ _ Htip). cbn [mbind outcome_bind].
  rewrite IH. cbn [mbind outcome_bind]. eexists. split; [reflexivity|]. by constructor.
Qed.

Lemma heads_senders base_fee entries heads :
  Forall2 (head_of_group base_fee) entries heads → head_sender <$> heads = entries.*1.
Proof. induction 1 as [|e h entries heads [E _] _ IH]; cbn; [done|]. by rewrite E, IH. Qed.

Lemma StronglySorted_head {A} (R : relation A) l x : StronglySorted R l → head l = Some x → l = x :: tail l.
Proof. intros _. destruct l; cbn; congruence. Qed.

Lemma queue_new_ok (base_fee : option Z) (groups : gmap (list Z) (list MempoolTransaction.t)) :
  map_Forall (λ _ l, group_ok base_fee l) groups →
  ∃ q, TransactionQueue.new groups base_fee = Ok q ∧ queue_ok q ∧
    TransactionQueue.base_fee q = base_fee ∧
    ∀ sender m, in_queue q sender m ↔ ∃ l, groups !! sender = Some l ∧ m ∈ l.
Proof.
  intros Hg. unfold TransactionQueue.new. pose proof (hash_iter_perm groups) as Hperm.
  assert (∀ e, e ∈ hash_iter groups ↔ groups !! e.1 = Some e.2) as Hin.
  { intros [k l]. by rewrite Hperm, elem_of_map_to_list. }
  destruct (take_heads_ok base_fee (hash_iter groups)) as (heads & Hrun & HF).
  { apply Forall_forall. intros e He. apply Hin in He. by apply Hg in He. }
  rewrite Hrun. cbn [mbind outcome_bind]. eexists. split; [reflexivity|].
  pose proof (stable_sort_perm HeadTransaction.leb heads) as Hs.
  assert (∀ h, h ∈ heads → ∃ l, groups !! head_sender h = Some (HeadTransaction.tx h :: l)) as Hhead.
  { intros h Hh. apply list_elem_of_lookup in Hh as [i Hi].
    destruct (Forall2_lookup_r _ _ _ _ _ HF Hi) as ([k l] & Hl & E & Hd & _). cbn in *.
    apply list_elem_of_lookup_2, Hin in Hl. cbn in Hl. rewrite E, Hl.
    exists (tail l). f_equal. destruct l; cbn in *; congruence. }
  split_and!; [|done|].
  - split; cbn.
    + eapply StronglySorted_impl; [|apply stable_sort_sorted; [apply leb_head_total|apply leb_head_trans]].
      intros a b. apply leb_before.
    + rewrite Hs, (heads_senders _ _ _ HF), Hperm. apply NoDup_fst_map_to_list.
    + rewrite Hs. apply Forall_forall. intros h Hh. apply list_elem_of_lookup in Hh as [i Hi].
      by destruct (Forall2_lookup_r _ _ _ _ _ HF Hi) as (? & _ & _ & _ & ?).
    + intros sender l' Hl Hne. rewrite lookup_fmap in Hl. apply fmap_Some in Hl as (l & Hl & ->).
      pose proof (Hg _ _ Hl) as (Hl0 & Hsorted & Hall).
      assert ((sender, l) ∈ hash_iter groups) as He by by apply Hin.
      apply list_elem_of_lookup in He as [i Hi].
      destruct (Forall2_lookup_l _ _ _ _ _ HF Hi) as (h & Hh & E & Hd & _). cbn in *.
      pose proof (StronglySorted_head _ _ _ Hsorted Hd) as El. exists h. rewrite Hs. split_and!; try done.
      * by eapply list_elem_of_lookup_2.
      * by rewrite <-El.
      * rewrite El in Hall. by inversion Hall.
  - intros sender m. split; [intros [(h & Hh & <- & <-)|(l & Hl & Hm)]; cbn in *|intros (l & Hl & Hm)].
    + rewrite Hs in Hh. destruct (Hhead h Hh) as [l Hl]. exists (HeadTransaction.tx h :: l). split; [done|by left].
    + rewrite lookup_fmap in Hl. apply fmap_Some in Hl as (l0 & Hl & ->). exists l0. split; [done|].
      destruct l0; [done|by right].
    + assert ((sender, l) ∈ hash_iter groups) as He by by apply Hin.
      apply list_elem_of_lookup in He as [i Hi].
      destruct (Forall2_lookup_l _ _ _ _ _ HF Hi) as (h & Hh & E & Hd & _).
      destruct l as [|m' l]; [by apply elem_of_nil in Hm|]. cbn in E, Hd. injection Hd as ->.
      apply elem_of_cons in Hm as [->|Hm].
      * left. exists h. cbn. rewrite Hs. split; [by eapply list_elem_of_lookup_2|done].
      * right. exists l. cbn. by rewrite lookup_fmap, Hl.
Qed.
End queue.
