(* ===== verification/PayloadProofs.v ===== *)
(** * Filling a payload

    What revm promises ([RevmLaws]), and what the loop of the builder makes of
    the queues: it ends with a result, within the gas of the block, the transactions
    and receipts it collects are those of executing the block, and every transaction
    that waited is in the block or was left out for a reason. *)

From stdpp Require Import base option list numbers strings gmap sorting.
From S2P Require Import Prelude Rlp LevmHost TrieNode Trie Tx BlockTypes Chain ChainProofs.
From S2P Require Import Store StoreLogic Blockchain Mempool MempoolProofs Vm Payload PayloadQueue.

Local Open Scope Z_scope.

(** ** The machine *)

(** Databases that answer alike; code is asked for by the hash of an account. *)
Record database_equiv (d1 d2 : RevmDatabase) : Prop := {
  de_basic : ∀ address, basic d1 address = basic d2 address;
  de_storage : ∀ address index, storage d1 address index = storage d2 address index;
  de_block_hash : ∀ number, block_hash_of d1 number = block_hash_of d2 number;
  de_code : ∀ address info, basic d1 address = Ok (Some info) →
    code_by_hash d1 (ri_code_hash info) = code_by_hash d2 (ri_code_hash info);
}.

(** Accounts of a bundle that agree but for the order of the slots, and bundles
    that agree but for the order of the accounts. *)
Record bundle_account_equiv (a b : list Z * BundleAccount) : Prop := {
  bae_address : a.1 = b.1;
  bae_not_modified : ba_not_modified a.2 = ba_not_modified b.2;
  bae_destroyed : ba_destroyed a.2 = ba_destroyed b.2;
  bae_account_info : ba_account_info a.2 = ba_account_info b.2;
  bae_info_changed : ba_info_changed a.2 = ba_info_changed b.2;
  bae_contract_changed : ba_contract_changed a.2 = ba_contract_changed b.2;
  bae_storage : ba_storage a.2 ≡ₚ ba_storage b.2;
}.
Definition bundle_equiv (b1 b2 : list (list Z * BundleAccount)) : Prop :=
  ∃ b, b1 ≡ₚ b ∧ Forall2 bundle_account_equiv b b2.

(** Outcomes with equal results and equivalent states of the accounts. *)
Definition outcome_equiv {E A S} `{Equiv S} (o1 o2 : Outcome E (A * S)) : Prop :=
  match o1, o2 with
  | Ok (a1, s1), Ok (a2, s2) => a1 = a2 ∧ s1 ≡ s2
  | Err e1, Err e2 => e1 = e2
  | Panic, Panic | NoFuel, NoFuel => True
  | _, _ => False
  end.

(** States that cannot be told apart may differ in what they have cached.  A
    transaction that is refused changes nothing, one that is run uses no more
    gas than its limit, and the machine always returns. *)
Class RevmLaws `{Revm} := {
  state_equiv :: Equiv RevmState;
  state_equivalence :: Equivalence (≡@{RevmState});
  transact_commit_proper chain_id spec_id block_env tx_env (e1 e2 : RevmState) :
    e1 ≡ e2 →
    (transact_commit chain_id spec_id block_env tx_env e1).1 =
      (transact_commit chain_id spec_id block_env tx_env e2).1 ∧
    (transact_commit chain_id spec_id block_env tx_env e1).2 ≡
      (transact_commit chain_id spec_id block_env tx_env e2).2;
  refused_keeps chain_id spec_id block_env tx_env (e e' : RevmState) err :
    transact_commit chain_id spec_id block_env tx_env e = (Err err, e') → e' ≡ e;
  gas_within_limit chain_id spec_id block_env tx_env (e e' : RevmState) result :
    transact_commit chain_id spec_id block_env tx_env e = (Ok result, e') →
    0 ≤ ExecutionResult.gas_used result ≤ te_gas_limit tx_env;
  transact_returns chain_id spec_id block_env tx_env (e : RevmState) :
    returns (transact_commit chain_id spec_id block_env tx_env e).1;
  result_equiv :: Equiv ResultState;
  transact_proper spec_id block_env tx_env (e1 e2 : RevmState) :
    e1 ≡ e2 →
    outcome_equiv (transact spec_id block_env tx_env e1).1 (transact spec_id block_env tx_env e2).1 ∧
    (transact spec_id block_env tx_env e1).2 ≡ (transact spec_id block_env tx_env e2).2;
  result_remove_proper address :: Proper ((≡@{ResultState}) ==> (≡)) (result_remove address);
  commit_result_proper :: Proper ((≡@{ResultState}) ==> (≡@{RevmState}) ==> (≡)) commit_result;
  no_increments (e : RevmState) :
    (increment_balances [] e).1 = Ok tt ∧ (increment_balances [] e).2 ≡ e;
  state_builder_proper d1 d2 :
    database_equiv d1 d2 → state_builder d1 ≡ state_builder d2;
  take_bundle_proper (e1 e2 : RevmState) :
    e1 ≡ e2 → bundle_equiv (take_bundle e1) (take_bundle e2);
}.

Section machine.
Context `{Crypto} `{Secp256k1} `{EthBloom} `{BuildProfile} `{Revm} `{!RevmLaws}.

Notation EvmM := (StateT RevmState EvmError).

(** Computations of the machine that respect the equivalence of states. *)
Definition respects {E A} (m : StateT RevmState E A) : Prop :=
  ∀ e1 e2, e1 ≡ e2 → (m e1).1 = (m e2).1 ∧ (m e1).2 ≡ (m e2).2.

Lemma respects_run {E A} (m : StateT RevmState E A) e1 e2 r e1' :
  respects m → e1 ≡ e2 → m e1 = (r, e1') → ∃ e2', m e2 = (r, e2') ∧ e1' ≡ e2'.
Proof.
  intros Hm He Hr. destruct (Hm e1 e2 He) as [Hout Hst]. rewrite Hr in *. cbn in *.
  destruct (m e2) as [r2 e2']. cbn in *. subst. eauto.
Qed.

Lemma respects_ret {E A} (a : A) : respects (mret a : StateT RevmState E A).
Proof. by intros e1 e2. Qed.

Lemma respects_lift {E A} (m : Outcome E A) : respects (state_lift m : StateT RevmState E A).
Proof. by intros e1 e2. Qed.

Lemma respects_bind {E A B} (m : StateT RevmState E A) (f : A → StateT RevmState E B) :
  respects m → (∀ a, respects (f a)) → respects (m ≫= f).
Proof.
  intros Hm Hf e1 e2 He. destruct (Hm e1 e2 He) as [Hout Hst].
  unfold mbind, state_bind. destruct (m e1) as [r1 e1'], (m e2) as [r2 e2']. cbn in *. subst.
  destruct r2; cbn; [by apply Hf|done..].
Qed.

Lemma respects_map_err {E F A} (f : E → F) (m : StateT RevmState E A) :
  respects m → respects (state_map_err f m).
Proof.
  intros Hm e1 e2 He. destruct (Hm e1 e2 He) as [Hout Hst].
  unfold state_map_err. destruct (m e1) as [r1 e1'], (m e2) as [r2 e2']. cbn in *. by subst.
Qed.

Lemma execute_tx_respects config tx header spec_id : respects (execute_tx config tx header spec_id).
Proof.
  apply respects_bind; [apply respects_lift|]. intros te e1 e2 He. by apply transact_commit_proper.
Qed.

Lemma system_call_respects header spec_id : respects (beacon_root_contract_call header spec_id).
Proof.
  unfold beacon_root_contract_call. destruct (BlockHeader.parent_beacon_block_root header) as [root|];
    [|by intros e1 e2]. intros e1 e2 He.
  destruct (transact_proper spec_id (system_block_env header) (system_tx_env root) e1 e2 He) as [Hout Hst].
  destruct (transact _ _ _ e1) as [[[r1 s1]|err1| |] e1'], (transact _ _ _ e2) as [[[r2 s2]|err2| |] e2'];
    cbn in *; try done; [|by subst].
  destruct Hout as [-> Hout]. split; [done|].
  apply commit_result_proper; [|done]. by do 2 apply result_remove_proper.
Qed.
End machine.

(** ** The context *)

Section context.
Context `{Crypto} `{Secp256k1} `{EthBloom} `{BuildProfile} `{Revm} `{!RevmLaws}.
Context `{HashMapIter} `{BinarySearch} `{!BinarySearchLaws}.
Implicit Types (c : PayloadBuildContext) (tx : Transaction).

Definition config_of (s : Store.t) : option ChainConfig.t :=
  ChainData.chain_config (chain_data (Store.engine s)).
Definition spec_of (config : ChainConfig.t) (h : BlockHeader.t) : SpecId :=
  spec_id config (BlockHeader.timestamp h).
Definition txs_of c : list Transaction := BlockBody.transactions (Block.body (payload c)).
Definition gas_limit_of c : Z := BlockHeader.gas_limit (header c).
Definition blobs_of c : Z := len (BlobsBundle.blobs (blobs_bundle c)).

(** A context in which the gas and the blobs of the block add up. *)
Record ctx_ok c : Prop := {
  co_limit : in_u 64 (gas_limit_of c);
  co_gas : 0 ≤ remaining_gas c ≤ gas_limit_of c;
  co_value : 0 ≤ block_value c ≤ (gas_limit_of c - remaining_gas c) * 2 ^ 64;
  co_blobs : blobs_of c ≤ MAX_BLOB_NUMBER_PER_BLOCK;
  co_blob_gas : default 0 (BlockHeader.blob_gas_used (header c)) = blobs_of c * GAS_PER_BLOB;
}.

(** A transaction of the pool: its signature recovers, its numbers have their
    widths, and a bundle under its hash has its blobs. *)
Record tx_good (s : Store.t) tx : Prop := {
  tg_env : ∃ te, tx_env (E := EvmError) tx = Ok te;
  tg_protected : ∃ b, Transaction.protected (E := ChainError) tx = Ok b;
  tg_tip : ∀ base_fee tip, Transaction.effective_gas_tip tx base_fee = Some tip → in_u 64 tip;
  tg_bundle : is_blob_tx tx = true → ∀ b,
    Store.blobs_bundle_pool s !! Transaction.compute_hash tx = Some b →
    len (BlobsBundle.blobs b) = len (Transaction.blob_versioned_hashes tx) ∧
    in_u 32 (len (BlobsBundle.blobs b));
}.

Lemma set_store_id c : set_store (store c) c = c.
Proof. by destruct c. Qed.

Lemma chain_config_run c config :
  config_of (store c) = Some config → chain_config c = (Ok config, c).
Proof.
  intros Hc. unfold chain_config, state_map_err, Store.get_chain_config, Store.on_engine.
  unfold Engine.get_chain_config. unfold config_of in Hc. rewrite Hc. cbn.
  by rewrite set_engine_id, set_store_id.
Qed.

Lemma tx_env_gas {E} tx te : tx_env (E := E) tx = Ok te → te_gas_limit te = Transaction.gas_limit tx.
Proof.
  unfold tx_env. intros Hte. apply bind_Ok in Hte as (caller & _ & Hte).
  apply bind_Ok in Hte as (chain_id & _ & Hte). by injection Hte as <-.
Qed.

(** A transaction is executed within its gas limit, or refused. *)
Lemma execute_tx_cases config tx h spec e s :
  tx_good s tx →
  (∃ result e', execute_tx config tx h spec e = (Ok result, e') ∧
     0 ≤ ExecutionResult.gas_used result ≤ Transaction.gas_limit tx) ∨
  (∃ err e', execute_tx config tx h spec e = (Err err, e') ∧ e' ≡ e).
Proof.
  intros [[te Hte] _ _ _]. unfold execute_tx, run_evm.
  assert (∀ r e', transact_commit (ChainConfig.chain_id config) spec (block_env h) te e = (r, e') →
    (tx_env ← state_lift (tx_env tx);
     transact_commit (ChainConfig.chain_id config) spec (block_env h) tx_env) e = (r, e')) as Hrun.
  { intros r e' <-. apply bind_run. unfold state_lift. by rewrite Hte. }
  pose proof (transact_returns (ChainConfig.chain_id config) spec (block_env h) te e) as Hret.
  destruct (transact_commit _ spec (block_env h) te e) as [[result|err| |] e'] eqn:E; [| |by destruct Hret..].
  - left. exists result, e'. split; [by apply Hrun|]. rewrite <-(tx_env_gas tx te Hte).
    by eapply gas_within_limit.
  - right. exists err, e'. split; [by apply Hrun|]. by eapply refused_keeps.
Qed.

Definition receipt_of tx (result : ExecutionResult.t) (cumulative : Z) : Receipt.t :=
  Receipt.new (Transaction.tx_type tx) (ExecutionResult.is_success result) cumulative
    (ExecutionResult.logs result).

(** The context after a transaction that used some gas for a tip. *)
Definition charged (used tip : Z) (e : RevmState) c : PayloadBuildContext :=
  set_block_value (block_value c + used * tip)
    (set_remaining_gas (remaining_gas c - used) (set_evm_state e c)).

Lemma value_bound v g u t : 0 ≤ v ≤ g * 2 ^ 64 → 0 ≤ u → in_u 64 t →
  0 ≤ v + u * t ≤ (g + u) * 2 ^ 64.
Proof. unfold in_u. intros. assert (0 ≤ u * t ≤ u * 2 ^ 64) by nia. lia. Qed.

Lemma apply_plain_cases config c head :
  config_of (store c) = Some config → ctx_ok c →
  tx_good (store c) (HeadTransaction.inner head) → in_u 64 (HeadTransaction.tip head) →
  Transaction.gas_limit (HeadTransaction.inner head) ≤ remaining_gas c →
  (∃ result e', let used := ExecutionResult.gas_used result in
     execute_tx config (HeadTransaction.inner head) (header c) (spec_of config (header c))
       (evm_state c) = (Ok result, e') ∧
     0 ≤ used ≤ remaining_gas c ∧
     apply_plain_transaction head c =
       (Ok (receipt_of (HeadTransaction.inner head) result
              (gas_limit_of c - (remaining_gas c - used))),
        charged used (HeadTransaction.tip head) e' c)) ∨
  (∃ err e', apply_plain_transaction head c = (Err err, set_evm_state e' c) ∧ e' ≡ evm_state c).
Proof.
  intros Hc [Hl Hg Hv _ _] Htx Htip Hgas. unfold apply_plain_transaction.
  rewrite (bind_run _ _ _ _ _ (chain_config_run c config Hc)). erewrite bind_run by reflexivity.
  change (spec_id config (BlockHeader.timestamp (header c))) with (spec_of config (header c)).
  destruct (execute_tx_cases config (HeadTransaction.inner head) (header c)
    (spec_of config (header c)) (evm_state c) _ Htx)
    as [(result & e' & Hrun & Hused)|(err & e' & Hrun & He)]; [left|right].
  - exists result, e'. split; [done|]. cbv zeta. split; [lia|].
    erewrite bind_run by (unfold in_evm, state_map_err; rewrite Hrun; reflexivity).
    do 2 (erewrite bind_run by reflexivity).
    unfold gas_limit_of in *. cbn [set_remaining_gas set_evm_state block_value] in *.
    pose proof (value_bound _ _ _ _ Hv (proj1 Hused) Htip) as Hv'. unfold in_u in Hl.
    assert (saturating_sub (remaining_gas c) (ExecutionResult.gas_used result) =
      remaining_gas c - ExecutionResult.gas_used result) as Es by (unfold saturating_sub; lia).
    erewrite bind_run.
    2: { unfold state_lift, Store.u256_add. rewrite checked_add_in; [reflexivity|].
      unfold in_u. cbn. lia. }
    do 2 (erewrite bind_run by reflexivity). cbn [remaining_gas set_block_value set_remaining_gas].
    change (remaining_gas (set_evm_state e' c)) with (remaining_gas c). rewrite Es. erewrite bind_run.
    2: { unfold state_lift, u_sub. rewrite in_width_fits; [reflexivity|]. unfold in_u. lia. }
    done.
  - exists (ChainEvmError err), e'. split; [|done]. apply bind_run_err.
    unfold in_evm, state_map_err. by rewrite Hrun.
Qed.

(** *** One transaction *)

(** The header without the field that the blobs of the block change. *)
Definition clear_blob_gas (h : BlockHeader.t) : BlockHeader.t := {|
  BlockHeader.parent_hash := BlockHeader.parent_hash h;
  BlockHeader.ommers_hash := BlockHeader.ommers_hash h;
  BlockHeader.coinbase := BlockHeader.coinbase h;
  BlockHeader.state_root := BlockHeader.state_root h;
  BlockHeader.transactions_root := BlockHeader.transactions_root h;
  BlockHeader.receipts_root := BlockHeader.receipts_root h;
  BlockHeader.logs_bloom := BlockHeader.logs_bloom h;
  BlockHeader.difficulty := BlockHeader.difficulty h;
  BlockHeader.number := BlockHeader.number h;
  BlockHeader.gas_limit := BlockHeader.gas_limit h;
  BlockHeader.gas_used := BlockHeader.gas_used h;
  BlockHeader.timestamp := BlockHeader.timestamp h;
  BlockHeader.extra_data := BlockHeader.extra_data h;
  BlockHeader.prev_randao := BlockHeader.prev_randao h;
  BlockHeader.nonce := BlockHeader.nonce h;
  BlockHeader.base_fee_per_gas := BlockHeader.base_fee_per_gas h;
  BlockHeader.withdrawals_root := BlockHeader.withdrawals_root h;
  BlockHeader.blob_gas_used := None;
  BlockHeader.excess_blob_gas := BlockHeader.excess_blob_gas h;
  BlockHeader.parent_beacon_block_root := BlockHeader.parent_beacon_block_root h |}.

(** A transaction was run: the context after it, before it is added. *)
Record ran (config : ChainConfig.t) tx c (receipt : Receipt.t) c' : Prop := {
  ran_result : ∃ result,
    execute_tx config tx (header c) (spec_of config (header c)) (evm_state c) =
      (Ok result, evm_state c') ∧
    0 ≤ ExecutionResult.gas_used result ≤ remaining_gas c ∧
    remaining_gas c' = remaining_gas c - ExecutionResult.gas_used result ∧
    receipt = receipt_of tx result (gas_limit_of c - remaining_gas c');
  ran_ok : ctx_ok c';
  ran_header : clear_blob_gas (header c') = clear_blob_gas (header c);
  ran_body : Block.body (payload c') = Block.body (payload c);
  ran_cell : Block.hash_cell (payload c') = Block.hash_cell (payload c);
  ran_receipts : receipts c' = receipts c;
  ran_store : store c' = store c;
  ran_blobs : blobs_of c' = blobs_of c + len (Transaction.blob_versioned_hashes tx);
  ran_blob_field : is_Some (BlockHeader.blob_gas_used (header c)) →
    is_Some (BlockHeader.blob_gas_used (header c'));
}.

Lemma charged_ok c used tip e :
  ctx_ok c → 0 ≤ used ≤ remaining_gas c → in_u 64 tip → ctx_ok (charged used tip e c).
Proof.
  intros [Hl Hg Hv Hb Hbg] Hu Ht. pose proof (value_bound _ _ _ _ Hv (proj1 Hu) Ht).
  split; [exact Hl| | |exact Hb|exact Hbg];
    change (gas_limit_of (charged used tip e c)) with (gas_limit_of c); cbn; [lia|].
  replace (gas_limit_of c - (remaining_gas c - used)) with (gas_limit_of c - remaining_gas c + used)
    by lia. done.
Qed.

Lemma apply_plain_ran config c head :
  config_of (store c) = Some config → ctx_ok c →
  tx_good (store c) (HeadTransaction.inner head) → in_u 64 (HeadTransaction.tip head) →
  Transaction.gas_limit (HeadTransaction.inner head) ≤ remaining_gas c →
  (∃ receipt c', apply_plain_transaction head c = (Ok receipt, c') ∧
     ctx_ok c' ∧ blobs_bundle c' = blobs_bundle c ∧ payload c' = payload c ∧
     receipts c' = receipts c ∧ store c' = store c ∧ ∃ result,
       execute_tx config (HeadTransaction.inner head) (header c) (spec_of config (header c))
         (evm_state c) = (Ok result, evm_state c') ∧
       0 ≤ ExecutionResult.gas_used result ≤ remaining_gas c ∧
       remaining_gas c' = remaining_gas c - ExecutionResult.gas_used result ∧
       receipt = receipt_of (HeadTransaction.inner head) result (gas_limit_of c - remaining_gas c')) ∨
  (∃ err e', apply_plain_transaction head c = (Err err, set_evm_state e' c) ∧ e' ≡ evm_state c).
Proof.
  intros Hc Hok Htx Htip Hgas.
  destruct (apply_plain_cases config c head Hc Hok Htx Htip Hgas)
    as [(result & e' & Hrun & Hused & Happ)|?]; [left|by right].
  eexists _, _. split; [exact Happ|]. split; [by apply charged_ok|].
  do 4 (split; [done|]). by exists result.
Qed.

Lemma plain_no_blobs tx : is_blob_tx tx = false → Transaction.blob_versioned_hashes tx = [].
Proof. by destruct tx. Qed.

(** The context that [apply_blob_transaction] leaves. *)
Definition with_blobs (bundle : BlobsBundle.t) (blob_gas : Z) c : PayloadBuildContext :=
  add_blobs bundle (set_blob_gas_used blob_gas c).

Lemma with_blobs_ok bundle c :
  ctx_ok c → blobs_of c + len (BlobsBundle.blobs bundle) ≤ MAX_BLOB_NUMBER_PER_BLOCK →
  ctx_ok (with_blobs bundle ((blobs_of c + len (BlobsBundle.blobs bundle)) * GAS_PER_BLOB) c) ∧
  blobs_of (with_blobs bundle ((blobs_of c + len (BlobsBundle.blobs bundle)) * GAS_PER_BLOB) c) =
    blobs_of c + len (BlobsBundle.blobs bundle).
Proof.
  intros [Hl Hg Hv Hb Hbg] Hmax.
  assert (∀ g, blobs_of (with_blobs bundle g c) = blobs_of c + len (BlobsBundle.blobs bundle)) as E
    by (intros g; apply len_app).
  split; [|apply E]. split; [exact Hl|exact Hg|exact Hv| |]; rewrite E; done.
Qed.

(** How the lookup of the bundle and the test of the blob limit go. *)
Lemma apply_blob_start c head bundle :
  ctx_ok c → in_u 32 (len (BlobsBundle.blobs bundle)) →
  Store.blobs_bundle_pool (store c) !! Transaction.compute_hash (HeadTransaction.inner head)
    = Some bundle →
  apply_blob_transaction head c =
  (if MAX_BLOB_GAS_PER_BLOCK <? (blobs_of c + len (BlobsBundle.blobs bundle)) * GAS_PER_BLOB
   then state_throw (ChainEvmError (EvmCustom "max data blobs reached"))
   else
     receipt ← apply_plain_transaction head;
     prev_blob_gas ← state_gets (λ c, default 0 (BlockHeader.blob_gas_used (header c)));
     tx_blob_gas ← state_lift (u_mul 64 (len (BlobsBundle.blobs bundle)) GAS_PER_BLOB);
     blob_gas_used ← state_lift (u_add 64 prev_blob_gas tx_blob_gas);
     _ ← state_modify (set_blob_gas_used blob_gas_used);
     _ ← state_modify (add_blobs bundle);
     mret receipt) c.
Proof.
  intros [_ _ _ Hb _] Hlen Hl. unfold apply_blob_transaction.
  pose proof (len_nonneg (BlobsBundle.blobs (blobs_bundle c))) as Hnn.
  unfold blobs_of, MAX_BLOB_NUMBER_PER_BLOCK, TARGET_BLOB_NUMBER_PER_BLOCK, in_u in *.
  erewrite bind_run.
  2: { unfold in_store, chain_store, state_map_err, Store.get_blobs_bundle_from_pool, state_gets.
    rewrite Hl, set_store_id. reflexivity. }
  cbv beta iota. erewrite bind_run by reflexivity. erewrite bind_run.
  2: { unfold state_lift, u_add. rewrite in_width_fits; [reflexivity|]. unfold in_u. lia. }
  erewrite bind_run; [reflexivity|].
  unfold state_lift, u_mul. rewrite in_width_fits; [reflexivity|]. unfold in_u, GAS_PER_BLOB. lia.
Qed.

Lemma apply_blob_cases config c head :
  is_blob_tx (HeadTransaction.inner head) = true →
  config_of (store c) = Some config → ctx_ok c →
  tx_good (store c) (HeadTransaction.inner head) → in_u 64 (HeadTransaction.tip head) →
  Transaction.gas_limit (HeadTransaction.inner head) ≤ remaining_gas c →
  (∃ receipt c', apply_blob_transaction head c = (Ok receipt, c') ∧
     ran config (HeadTransaction.inner head) c receipt c') ∨
  (∃ err e', apply_blob_transaction head c = (Err err, set_evm_state e' c) ∧ e' ≡ evm_state c).
Proof.
  intros Hblob Hc Hok Htx Htip Hgas.
  destruct (Store.blobs_bundle_pool (store c) !! Transaction.compute_hash (HeadTransaction.inner head))
    as [bundle|] eqn:Hl; cycle 1.
  { right. eexists _, (evm_state c). split; [|done]. unfold apply_blob_transaction.
    erewrite bind_run.
    2: { unfold in_store, chain_store, state_map_err, Store.get_blobs_bundle_from_pool, state_gets.
      rewrite Hl, set_store_id. reflexivity. }
    cbv beta iota. by destruct c. }
  destruct (tg_bundle _ _ Htx Hblob bundle Hl) as [Hn Hlen]. rewrite (apply_blob_start c head bundle Hok Hlen Hl).
  destruct (MAX_BLOB_GAS_PER_BLOCK <? _) eqn:Hmax; propify.
  { right. eexists _, (evm_state c). split; [|done]. by destruct c. }
  assert (blobs_of c + len (BlobsBundle.blobs bundle) ≤ MAX_BLOB_NUMBER_PER_BLOCK) as Hb
    by (unfold MAX_BLOB_GAS_PER_BLOCK, GAS_PER_BLOB in Hmax; lia).
  destruct (apply_plain_ran config c head Hc Hok Htx Htip Hgas)
    as [(receipt & c1 & Happ & Hok1 & Eb & Ep & Er & Es & Hres)|(err & e' & Happ & He)]; [left|right].
  - assert (blobs_of c1 = blobs_of c) as Eb1 by (unfold blobs_of; by rewrite Eb).
    destruct (with_blobs_ok bundle c1 Hok1) as [Hok2 Eb2]; [by rewrite Eb1|].
    exists receipt, (with_blobs bundle ((blobs_of c1 + len (BlobsBundle.blobs bundle)) * GAS_PER_BLOB) c1).
    split.
    + rewrite (bind_run _ _ _ _ _ Happ). erewrite bind_run by reflexivity. cbv beta.
      rewrite (co_blob_gas _ Hok1), Eb1.
      pose proof (len_nonneg (BlobsBundle.blobs (blobs_bundle c))).
      unfold MAX_BLOB_NUMBER_PER_BLOCK, TARGET_BLOB_NUMBER_PER_BLOCK, in_u, blobs_of in *.
      erewrite bind_run.
      2: { unfold state_lift, u_mul. rewrite in_width_fits; [reflexivity|]. unfold in_u, GAS_PER_BLOB. lia. }
      erewrite bind_run.
      2: { unfold state_lift, u_add. rewrite in_width_fits; [reflexivity|]. unfold in_u, GAS_PER_BLOB. lia. }
      do 2 (erewrite bind_run by reflexivity). rewrite Z.mul_add_distr_r. reflexivity.
    + generalize dependent ((blobs_of c1 + len (BlobsBundle.blobs bundle)) * GAS_PER_BLOB).
      intros g Hok2 Eb2. assert (header c1 = header c) as Eh by (unfold header; by rewrite Ep).
      split; [exact Hres|exact Hok2| | | |exact Er|exact Es| |intros _; by eexists].
      * change (clear_blob_gas (header (with_blobs bundle g c1))) with (clear_blob_gas (header c1)).
        by rewrite Eh.
      * change (Block.body (payload (with_blobs bundle g c1))) with (Block.body (payload c1)).
        by rewrite Ep.
      * change (Block.hash_cell (payload (with_blobs bundle g c1))) with (Block.hash_cell (payload c1)).
        by rewrite Ep.
      * by rewrite Eb2, Eb1, Hn.
  - exists err, e'. split; [|done]. by apply bind_run_err.
Qed.

Lemma apply_transaction_cases config c head :
  config_of (store c) = Some config → ctx_ok c →
  tx_good (store c) (HeadTransaction.inner head) → in_u 64 (HeadTransaction.tip head) →
  Transaction.gas_limit (HeadTransaction.inner head) ≤ remaining_gas c →
  (∃ receipt c', apply_transaction head c = (Ok receipt, c') ∧
     ran config (HeadTransaction.inner head) c receipt c') ∨
  (∃ err e', apply_transaction head c = (Err err, set_evm_state e' c) ∧ e' ≡ evm_state c).
Proof.
  intros Hc Hok Htx Htip Hgas. unfold apply_transaction.
  destruct (is_blob_tx (HeadTransaction.inner head)) eqn:Eb; [by apply apply_blob_cases|].
  destruct (apply_plain_ran config c head Hc Hok Htx Htip Hgas)
    as [(receipt & c1 & Happ & Hok1 & Ebl & Ep & Er & Es & Hres)|?]; [left|by right].
  exists receipt, c1. split; [done|].
  assert (header c1 = header c) as Eh by (unfold header; by rewrite Ep).
  split; [exact Hres|exact Hok1|by rewrite Eh|by rewrite Ep|by rewrite Ep|done|done| |by rewrite Eh].
  rewrite (plain_no_blobs _ Eb), len_nil. unfold blobs_of. rewrite Ebl. lia.
Qed.

(** *** Sequences of transactions *)

Definition gas_after (r : Receipt.t) : Z := Receipt.cumulative_gas_used r.
Definition blob_count (txs : list Transaction) : Z :=
  foldr (λ tx n, len (Transaction.blob_versioned_hashes tx) + n) 0 txs.

(** Executing transactions on states that cannot be told apart. *)
Definition executes config (h : BlockHeader.t) (txs : list Transaction) (cumulative : Z)
    (rs : list Receipt.t) (e e' : RevmState) : Prop :=
  ∀ e0 acc, e0 ≡ e → ∃ e1,
    execute_txs config h (spec_of config h) txs cumulative acc e0 = (Ok (acc ++ rs), e1) ∧ e1 ≡ e'.

(** The builder went from one context to another: it added these transactions
    and receipts, which are those of executing them; it took nothing but
    transactions out of the store; and the new context adds up. *)
Record extends config c (txs : list Transaction) (rs : list Receipt.t) c' : Prop := {
  ex_txs : txs_of c' = txs_of c ++ txs;
  ex_receipts : receipts c' = receipts c ++ rs;
  ex_executes : executes config (header c) txs (gas_limit_of c - remaining_gas c) rs
    (evm_state c) (evm_state c');
  ex_gas : from_option gas_after (gas_limit_of c - remaining_gas c) (last rs) =
    gas_limit_of c' - remaining_gas c';
  ex_header : clear_blob_gas (header c') = clear_blob_gas (header c);
  ex_withdrawals : BlockBody.withdrawals (Block.body (payload c')) =
    BlockBody.withdrawals (Block.body (payload c));
  ex_ommers : BlockBody.ommers (Block.body (payload c')) = BlockBody.ommers (Block.body (payload c));
  ex_blobs : blobs_of c' = blobs_of c + blob_count txs;
  ex_blob_field : is_Some (BlockHeader.blob_gas_used (header c)) →
    is_Some (BlockHeader.blob_gas_used (header c'));
  ex_engine : Store.engine (store c') = Store.engine (store c);
  ex_mempool : Store.mempool (store c') ⊆ Store.mempool (store c);
  ex_bundles : Store.blobs_bundle_pool (store c') ⊆ Store.blobs_bundle_pool (store c);
  ex_ok : ctx_ok c';
}.

Lemma same_env h h' : clear_blob_gas h' = clear_blob_gas h → block_env h' = block_env h.
Proof. intros E. change (block_env (clear_blob_gas h') = block_env (clear_blob_gas h)). by rewrite E. Qed.

Lemma same_spec config h h' :
  clear_blob_gas h' = clear_blob_gas h → spec_of config h' = spec_of config h.
Proof.
  intros E. change (spec_of config (clear_blob_gas h') = spec_of config (clear_blob_gas h)).
  by rewrite E.
Qed.

Lemma bind_ext {S E A B} (m m' : StateT S E A) (f f' : A → StateT S E B) s :
  m s = m' s → (∀ a s', f a s' = f' a s') → (m ≫= f) s = (m' ≫= f') s.
Proof. intros Hm Hf. unfold mbind, state_bind. rewrite Hm. destruct (m' s) as [[]]; auto. Qed.

Lemma execute_txs_env config h h' spec txs : ∀ cumulative acc e,
  block_env h' = block_env h →
  execute_txs config h' spec txs cumulative acc e = execute_txs config h spec txs cumulative acc e.
Proof.
  induction txs as [|tx txs IH]; intros cumulative acc e E; [done|]. cbn [execute_txs].
  apply bind_ext; [unfold execute_tx; by rewrite E|]. intros result e1.
  apply bind_ext; [done|]. intros g e2. by apply IH.
Qed.

(** Each transaction adds a receipt, and the next ones go on from it. *)
Lemma execute_txs_app config h spec txs : ∀ cumulative acc e out e',
  execute_txs config h spec txs cumulative acc e = (Ok out, e') →
  ∃ rs, out = acc ++ rs ∧ length rs = length txs ∧
    ∀ txs', execute_txs config h spec (txs ++ txs') cumulative acc e =
      execute_txs config h spec txs' (from_option gas_after cumulative (last rs))
        out e'.
Proof.
  induction txs as [|tx txs IH]; intros cumulative acc e out e' Hrun.
  { injection Hrun as <- <-. exists []. by rewrite app_nil_r. }
  cbn [execute_txs app] in *. apply bind_Ok_inv in Hrun as (result & e1 & Hres & Hrun).
  apply bind_Ok_inv in Hrun as (g & e2 & Hg & Hrun).
  destruct (IH _ _ _ _ _ Hrun) as (rs & -> & Hlen & Happ).
  set (r := Receipt.new _ _ g _) in *. exists (r :: rs). rewrite <-app_assoc. split; [done|].
  split; [cbn; by rewrite Hlen|]. intros txs'. rewrite (bind_run _ _ _ _ _ Hres).
  rewrite (bind_run _ _ _ _ _ Hg). rewrite app_assoc, Happ. by rewrite last_cons; destruct (last rs).
Qed.

Lemma executes_trans config h txs1 txs2 cumulative rs1 rs2 e e1 e2 :
  executes config h txs1 cumulative rs1 e e1 →
  executes config h txs2 (from_option gas_after cumulative (last rs1)) rs2 e1 e2 →
  executes config h (txs1 ++ txs2) cumulative (rs1 ++ rs2) e e2.
Proof.
  intros Hx1 Hx2 e0 acc He. destruct (Hx1 e0 acc He) as (e1' & Hrun & He1).
  destruct (execute_txs_app _ _ _ _ _ _ _ _ _ Hrun) as (rs & Ers & _ & Happ).
  apply app_inv_head in Ers as <-. rewrite Happ.
  destruct (Hx2 e1' (acc ++ rs1) He1) as (e2' & Hrun2 & He2). rewrite Hrun2.
  exists e2'. by rewrite app_assoc.
Qed.

Lemma last_app_default {A} (f : A → Z) d (l k : list A) :
  from_option f d (last (l ++ k)) = from_option f (from_option f d (last l)) (last k).
Proof. rewrite last_app. by destruct (last k). Qed.

Lemma blob_count_app l k : blob_count (l ++ k) = blob_count l + blob_count k.
Proof.
  unfold blob_count. induction l as [|tx l IH]; cbn [app foldr]; [done|]. rewrite IH. lia.
Qed.

Lemma extends_trans config c txs1 rs1 c1 txs2 rs2 c2 :
  extends config c txs1 rs1 c1 → extends config c1 txs2 rs2 c2 →
  extends config c (txs1 ++ txs2) (rs1 ++ rs2) c2.
Proof.
  intros [] []. split; try congruence.
  - rewrite ex_txs1, ex_txs0. by rewrite app_assoc.
  - rewrite ex_receipts1, ex_receipts0. by rewrite app_assoc.
  - eapply executes_trans; [exact ex_executes0|]. rewrite ex_gas0. intros e0 acc He.
    destruct (ex_executes1 e0 acc He) as (e' & Hrun & He'). exists e'. split; [|done].
    rewrite <-Hrun, <-(same_spec _ _ _ ex_header0).
    symmetry. by apply execute_txs_env, same_env.
  - rewrite last_app_default, ex_gas0. exact ex_gas1.
  - rewrite blob_count_app. lia.
  - auto.
  - by etrans.
  - by etrans.
Qed.

(** Nothing was added. *)
Lemma extends_skip config c c' :
  ctx_ok c' → payload c' = payload c → receipts c' = receipts c →
  remaining_gas c' = remaining_gas c → blobs_bundle c' = blobs_bundle c →
  evm_state c' ≡ evm_state c → Store.engine (store c') = Store.engine (store c) →
  Store.mempool (store c') ⊆ Store.mempool (store c) →
  Store.blobs_bundle_pool (store c') ⊆ Store.blobs_bundle_pool (store c) →
  extends config c [] [] c'.
Proof.
  intros Hok Ep Er Eg Eb He Hs Hm Hb. assert (header c' = header c) as Eh by (unfold header; by rewrite Ep).
  split; [..|exact Hs|exact Hm|exact Hb|exact Hok].
  - unfold txs_of. by rewrite Ep, app_nil_r.
  - by rewrite Er, app_nil_r.
  - intros e0 acc He0. exists e0. rewrite app_nil_r. split; [reflexivity|]. by rewrite He0.
  - unfold gas_limit_of. by rewrite Eh, Eg.
  - by rewrite Eh.
  - by rewrite Ep.
  - by rewrite Ep.
  - unfold blobs_of. rewrite Eb. cbn [blob_count foldr]. lia.
  - by rewrite Eh.
Qed.

(** *** A round of the loop *)

Lemma remove_transaction_run c hash :
  ∃ s, in_store (remove_transaction hash) c = (Ok tt, set_store s c) ∧
    Store.engine s = Store.engine (store c) ∧ Store.mempool s ⊆ Store.mempool (store c) ∧
    Store.blobs_bundle_pool s ⊆ Store.blobs_bundle_pool (store c) ∧ Store.mempool s !! hash = None.
Proof.
  unfold in_store, chain_store, state_map_err, remove_transaction, Store.remove_transaction_from_pool,
    state_modify. destruct (Store.mempool (store c) !! hash) as [m|] eqn:E; [|by exists (store c)].
  destruct (Transaction.tx_type (MempoolTransaction.inner m)); eexists; (split; [reflexivity|]);
    (split; [done|]); (split; [apply delete_subseteq|]);
    (split; [first [done|apply delete_subseteq]|apply lookup_delete_eq]).
Qed.

Lemma ran_executes config tx c receipt c' :
  ctx_ok c → ran config tx c receipt c' →
  executes config (header c) [tx] (gas_limit_of c - remaining_gas c) [receipt] (evm_state c) (evm_state c').
Proof.
  intros [Hl Hg _ _ _] [(result & Hrun & Hused & Eg & ->) _ _ _ _ _ _ _ _] e0 acc He0.
  symmetry in He0. destruct (respects_run _ _ _ _ _ (execute_tx_respects config tx (header c) _) He0 Hrun)
    as (e1 & Hrun' & He1).
  exists e1. split; [|by symmetry]. cbn [execute_txs]. rewrite (bind_run _ _ _ _ _ Hrun').
  unfold in_u in Hl. erewrite bind_run.
  2: { unfold state_lift, u_add. rewrite in_width_fits; [reflexivity|]. unfold in_u. lia. }
  unfold receipt_of. rewrite Eg.
  replace (gas_limit_of c - (remaining_gas c - ExecutionResult.gas_used result)) with
    (gas_limit_of c - remaining_gas c + ExecutionResult.gas_used result) by lia. reflexivity.
Qed.

(** The context after a transaction was added. *)
Definition added tx (receipt : Receipt.t) (s : Store.t) c : PayloadBuildContext :=
  push_receipt receipt (push_transaction tx (set_store s c)).

Lemma extends_one config tx c receipt c' s :
  ctx_ok c → ran config tx c receipt c' →
  Store.engine s = Store.engine (store c') → Store.mempool s ⊆ Store.mempool (store c') →
  Store.blobs_bundle_pool s ⊆ Store.blobs_bundle_pool (store c') →
  extends config c [tx] [receipt] (added tx receipt s c').
Proof.
  intros Hok Hran Hs Hm Hb. pose proof (ran_executes _ _ _ _ _ Hok Hran) as Hx.
  destruct Hran as [(result & _ & _ & _ & Ercp) [Hl' Hg' Hv' Hb' Hbg'] Eh Ebody _ Er Es Ebl Hfield].
  assert (gas_limit_of c' = gas_limit_of c) as El.
  { change (BlockHeader.gas_limit (clear_blob_gas (header c')) =
      BlockHeader.gas_limit (clear_blob_gas (header c))). by rewrite Eh. }
  rewrite Es in *. split; [..|exact Hs|exact Hm|exact Hb|].
  - unfold txs_of. cbn. by rewrite Ebody.
  - cbn. by rewrite Er.
  - exact Hx.
  - rewrite Ercp. unfold gas_after. cbn. by rewrite <-El.
  - exact Eh.
  - cbn. by rewrite Ebody.
  - cbn. by rewrite Ebody.
  - change (blobs_of (added tx receipt s c')) with (blobs_of c'). rewrite Ebl. cbn [blob_count foldr]. lia.
  - exact Hfield.
  - split; [exact Hl'|exact Hg'|exact Hv'|exact Hb'|exact Hbg'].
Qed.

Lemma ctx_ok_evm e c : ctx_ok c → ctx_ok (set_evm_state e c).
Proof. intros [Hl Hg Hv Hb Hbg]. split; [exact Hl|exact Hg|exact Hv|exact Hb|exact Hbg]. Qed.

Lemma ctx_ok_store s c : ctx_ok c → ctx_ok (set_store s c).
Proof. intros [Hl Hg Hv Hb Hbg]. split; [exact Hl|exact Hg|exact Hv|exact Hb|exact Hbg]. Qed.

Definition queue_good (s : Store.t) (q : TransactionQueue.t) : Prop :=
  ∀ sender m, in_queue q sender m → tx_good s (MempoolTransaction.inner m).

(** Why the builder passes over a transaction in a context: it does not fit into the gas
    that is left, it is replay-protected before EIP-155, or it fails. *)
Inductive refused (config : ChainConfig.t) c (m : MempoolTransaction.t) : Prop :=
| RefusedGas : remaining_gas c < Transaction.gas_limit (MempoolTransaction.inner m) →
    refused config c m
| RefusedProtected : Transaction.protected (E := ChainError) (MempoolTransaction.inner m) = Ok true →
    ChainConfig.is_eip155_activated config (block_number c) = false → refused config c m
| RefusedFailed head err c1 : HeadTransaction.tx head = m →
    apply_transaction head c = (Err err, c1) → refused config c m.

(** A round adds the head to the block and takes it out of the pool, or passes over it. *)
Definition round_result config head q c q' (txs : list Transaction) c1 : Prop :=
  (txs = [HeadTransaction.inner head] ∧ TransactionQueue.shift q = Ok q' ∧
   Store.mempool (store c1) !! Transaction.compute_hash (HeadTransaction.inner head) = None) ∨
  (txs = [] ∧ q' = TransactionQueue.pop q ∧ refused config c (HeadTransaction.tx head)).

Lemma process_head_ok config c head q :
  config_of (store c) = Some config → ctx_ok c → queue_ok q → queue_good (store c) q →
  TransactionQueue.peek q = Some head →
  ∃ q' c' txs rs, process_head config head q c = (Ok q', c') ∧ shrinks q q' ∧
    extends config c txs rs c' ∧ round_result config head q c q' txs c'.
Proof.
  intros Hc Hok Hq Hgood Hpeek. pose proof (pop_ok q head Hq Hpeek) as Hpop.
  assert (head ∈ TransactionQueue.heads q) as Hin by (by apply head_Some_elem_of).
  assert (tx_good (store c) (HeadTransaction.inner head)) as Htx.
  { apply (Hgood (head_sender head)). left. by exists head. }
  assert (in_u 64 (HeadTransaction.tip head)) as Htip.
  { eapply (tg_tip _ _ Htx). by apply (proj1 (Forall_forall _ _) (q_tips _ Hq)). }
  unfold process_head. erewrite bind_run by reflexivity.
  destruct (remaining_gas c <? _) eqn:Hgas; propify.
  { eexists _, c, [], []. split; [reflexivity|]. split; [done|].
    split; [by apply extends_skip|]. right. split_and!; [done..|by apply RefusedGas]. }
  destruct (tg_protected _ _ Htx) as [protected Hprot].
  erewrite bind_run by (unfold state_lift; rewrite Hprot; reflexivity).
  erewrite bind_run by reflexivity.
  destruct (remove_transaction_run c (Transaction.compute_hash (HeadTransaction.inner head)))
    as (s0 & Hrm & Hs0 & Hm0 & Hb0 & _).
  destruct (protected && _) eqn:Hpr.
  { rewrite (bind_run _ _ _ _ _ Hrm). eexists _, _, [], []. split; [reflexivity|]. split; [done|].
    split; [apply extends_skip; try done; by apply ctx_ok_store|]. right. split_and!; [done..|].
    apply andb_true_iff in Hpr as [-> Hact%negb_true_iff]. by apply RefusedProtected. }
  destruct (apply_transaction_cases config c head Hc Hok Htx Htip Hgas)
    as [(receipt & c1 & Happ & Hran)|(err & e' & Happ & He)]; rewrite Happ.
  - destruct (shift_ok q head Hq Hpeek) as (q' & Hshift & Hshr).
    destruct (remove_transaction_run c1 (Transaction.compute_hash (HeadTransaction.inner head)))
      as (s1 & Hrm1 & Hs1 & Hm1 & Hb1 & Hnone).
    erewrite bind_run by (unfold state_lift; rewrite Hshift; reflexivity).
    rewrite (bind_run _ _ _ _ _ Hrm1). do 2 (erewrite bind_run by reflexivity).
    eexists _, _, _, _. split; [reflexivity|]. split; [done|].
    split; [by apply (extends_one _ _ _ _ c1)|]. by left.
  - eexists _, _, [], []. split; [reflexivity|]. split; [done|].
    split; [apply extends_skip; try done; by apply ctx_ok_evm|]. right. split_and!; [done..|].
    by eapply RefusedFailed.
Qed.

(** *** The loop *)

Lemma clear_when_full_run c q :
  ctx_ok c → queue_ok q →
  ∃ q', clear_when_full q c = (Ok q', c) ∧ queue_ok q' ∧
    (TransactionQueue.size q' ≤ TransactionQueue.size q)%nat ∧
    (∀ sender m, in_queue q' sender m → in_queue q sender m) ∧
    (q' = q ∨ MAX_BLOB_GAS_PER_BLOCK ≤ blobs_of c * GAS_PER_BLOB).
Proof.
  intros [_ _ _ Hb _] Hq. unfold clear_when_full.
  destruct (TransactionQueue.is_empty q); [exists q; by auto 6|]. erewrite bind_run by reflexivity.
  pose proof (len_nonneg (BlobsBundle.blobs (blobs_bundle c))) as Hnn.
  unfold blobs_of, MAX_BLOB_NUMBER_PER_BLOCK, TARGET_BLOB_NUMBER_PER_BLOCK in Hb.
  erewrite bind_run.
  2: { unfold state_lift, u_mul. rewrite in_width_fits; [reflexivity|]. unfold in_u, GAS_PER_BLOB. lia. }
  eexists. split; [reflexivity|].
  destruct (MAX_BLOB_GAS_PER_BLOCK <=? _) eqn:Hfull; propify; [|by auto 6].
  split; [apply clear_ok|]. split; [|split; [|by right]].
  { unfold TransactionQueue.size, TransactionQueue.clear. cbn [TransactionQueue.heads TransactionQueue.txs].
    rewrite map_to_list_empty. cbn. lia. }
  intros sender m [(h & Hh & _)|(l & Hl & _)]; [by apply elem_of_nil in Hh|].
  unfold TransactionQueue.clear in Hl. cbn [TransactionQueue.txs] in Hl. by rewrite lookup_empty in Hl.
Qed.

Lemma tx_good_shrink s s' tx :
  Store.blobs_bundle_pool s' ⊆ Store.blobs_bundle_pool s → tx_good s tx → tx_good s' tx.
Proof.
  intros Hb []. split; try done. intros Hblob b Hl. eapply tg_bundle0, lookup_weaken; done.
Qed.

Lemma queue_good_mono s s' q q' :
  Store.blobs_bundle_pool s' ⊆ Store.blobs_bundle_pool s →
  (∀ sender m, in_queue q' sender m → in_queue q sender m) → queue_good s q → queue_good s' q'.
Proof. intros Hb Hin Hq sender m Hm. by eapply tx_good_shrink, Hq, Hin. Qed.

Lemma next_head_peek plain blob head is_blob :
  next_head plain blob = Some (head, is_blob) →
  TransactionQueue.peek (if is_blob then blob else plain) = Some head.
Proof.
  unfold next_head. destruct (TransactionQueue.peek plain) as [a|] eqn:Ea,
    (TransactionQueue.peek blob) as [b|] eqn:Eb; [destruct (HeadTransaction.cmp b a)|..];
    by intros [= <- <-].
Qed.

Lemma next_head_none plain blob :
  next_head plain blob = None →
  TransactionQueue.peek plain = None ∧ TransactionQueue.peek blob = None.
Proof.
  unfold next_head. destruct (TransactionQueue.peek plain), (TransactionQueue.peek blob); try done.
  by destruct (HeadTransaction.cmp _ _).
Qed.

(** What became of a transaction that waited: it was added to the block; or the gas of the
    block is used up; or it has blobs and the blobs of the block are used up; or, in some
    context on the way, the builder passed over it or over an earlier one of its sender. *)
Inductive settled config (P : list Z → MempoolTransaction.t → Prop) c (txs : list Transaction) c'
    (sender : list Z) (m : MempoolTransaction.t) : Prop :=
| SettledAdded : MempoolTransaction.inner m ∈ txs → settled config P c txs c' sender m
| SettledNoGas : remaining_gas c' < TX_GAS_COST → settled config P c txs c' sender m
| SettledNoBlobs : is_blob_tx (MempoolTransaction.inner m) = true →
    MAX_BLOB_GAS_PER_BLOCK ≤ blobs_of c' * GAS_PER_BLOB → settled config P c txs c' sender m
| SettledPassed m0 c1 txs1 rs1 txs2 rs2 :
    extends config c txs1 rs1 c1 → extends config c1 txs2 rs2 c' → txs = txs1 ++ txs2 →
    P sender m0 → Transaction.nonce (MempoolTransaction.inner m0)
      ≤ Transaction.nonce (MempoolTransaction.inner m) →
    refused config c1 m0 → settled config P c txs c' sender m.

(** The transactions of the block waited, and have left the pool. *)
Definition taken (P : list Z → MempoolTransaction.t → Prop) c' (txs : list Transaction) : Prop :=
  Forall (λ tx, (∃ sender m, P sender m ∧ MempoolTransaction.inner m = tx) ∧
    Store.mempool (store c') !! Transaction.compute_hash tx = None) txs.

Lemma settled_trans config P c txs1 rs1 c1 txs2 c2 sender m :
  extends config c txs1 rs1 c1 → settled config P c1 txs2 c2 sender m →
  settled config P c (txs1 ++ txs2) c2 sender m.
Proof.
  intros Hext [Hin|Hg|Hb Hf|m0 c3 t1 r1 t2 r2 He1 He2 -> HP Hn Hr].
  - apply SettledAdded, elem_of_app. by right.
  - by apply SettledNoGas.
  - by apply SettledNoBlobs.
  - eapply SettledPassed; [by eapply extends_trans|done|by rewrite app_assoc|done..].
Qed.

Lemma blob_count_nonneg txs : 0 ≤ blob_count txs.
Proof.
  induction txs as [|tx txs IH]; cbn [blob_count foldr]; [done|].
  pose proof (len_nonneg (Transaction.blob_versioned_hashes tx)). fold (blob_count txs). lia.
Qed.

Lemma first_nonce m m' :
  m = m' ∨ by_nonce m m' →
  Transaction.nonce (MempoolTransaction.inner m) ≤ Transaction.nonce (MempoolTransaction.inner m').
Proof. intros [->|Hn%nonce_order_spec]; [done|]. cbv zeta in Hn. lia. Qed.

(** A round settles what it takes out of its queue. *)
Lemma round_settled config (P : list Z → MempoolTransaction.t → Prop) head q q' c c1 c2
    txs rs txs2 rs2 sender m :
  ctx_ok c → queue_ok q → TransactionQueue.peek q = Some head →
  P (head_sender head) (HeadTransaction.tx head) →
  extends config c txs rs c1 → extends config c1 txs2 rs2 c2 →
  round_result config head q c q' txs c1 → in_queue q sender m →
  (in_queue q' sender m → settled config P c1 txs2 c2 sender m) →
  settled config P c (txs ++ txs2) c2 sender m.
Proof.
  intros Hok Hq Hpeek HP Hext1 Hext2 [(-> & Hs & _)|(-> & -> & Hr)] Hin Hrest.
  - destruct (shift_takes q q' head sender m Hq Hpeek Hs Hin) as [Hin'| ->].
    + eapply settled_trans; [done|by apply Hrest].
    + apply SettledAdded. by left.
  - destruct (pop_takes q head sender m Hq Hpeek Hin) as [Hin'|[-> Hm]].
    + eapply settled_trans; [done|by apply Hrest].
    + eapply (SettledPassed _ _ _ _ _ _ _ _ c); [by apply extends_skip|by eapply extends_trans|done|done| |done].
      by apply first_nonce.
Qed.

Lemma round_taken config (P : list Z → MempoolTransaction.t → Prop) head q q' c c1 c2 txs txs2 rs2 :
  P (head_sender head) (HeadTransaction.tx head) → extends config c1 txs2 rs2 c2 →
  round_result config head q c q' txs c1 → taken P c2 txs2 → taken P c2 (txs ++ txs2).
Proof.
  intros HP Hext [(-> & _ & Hn)|(-> & _)] Ht; [|done]. constructor; [|done]. split; [by eauto|].
  eapply lookup_weaken_None; [exact Hn|]. by apply ex_mempool in Hext.
Qed.

(** What the queues of a context hold. *)
Record waiting (P : list Z → MempoolTransaction.t → Prop) (plain blob : TransactionQueue.t) : Prop := {
  wa_plain : ∀ sender m, in_queue plain sender m → P sender m;
  wa_blob : ∀ sender m, in_queue blob sender m →
    P sender m ∧ is_blob_tx (MempoolTransaction.inner m) = true;
}.

Lemma peek_waits P plain blob (is_blob : bool) head :
  waiting P plain blob → TransactionQueue.peek (if is_blob then blob else plain) = Some head →
  P (head_sender head) (HeadTransaction.tx head).
Proof.
  intros [Hp Hb] Hpeek. apply head_Some_elem_of in Hpeek.
  destruct is_blob; [apply Hb|apply Hp]; left; by exists head.
Qed.

Lemma full_settled config P c txs rs c' sender m :
  extends config c txs rs c' → MAX_BLOB_GAS_PER_BLOCK ≤ blobs_of c * GAS_PER_BLOB →
  is_blob_tx (MempoolTransaction.inner m) = true → settled config P c txs c' sender m.
Proof.
  intros Hext Hfull Hb. apply SettledNoBlobs; [done|]. rewrite (ex_blobs _ _ _ _ _ Hext).
  pose proof (blob_count_nonneg txs). unfold GAS_PER_BLOB in *. lia.
Qed.

(** The loop returns: with fuel for every transaction that waits, it runs out of
    transactions or gas. *)
Definition loop_post config P plain blob c c' (txs : list Transaction) : Prop :=
  taken P c' txs ∧
  ∀ sender m, in_queue plain sender m ∨ in_queue blob sender m →
    settled config P c txs c' sender m.

Definition loop_returns config P (fuel : nat) : Prop := ∀ plain blob c,
  (TransactionQueue.size plain + TransactionQueue.size blob < fuel)%nat →
  config_of (store c) = Some config → ctx_ok c →
  queue_ok plain → queue_ok blob → queue_good (store c) plain → queue_good (store c) blob →
  waiting P plain blob →
  ∃ c' txs rs, fill_loop fuel config plain blob c = (Ok tt, c') ∧ extends config c txs rs c' ∧
    loop_post config P plain blob c c' txs.

(** The rest of a round, once the blob queue was cleared if it had to be. *)
Lemma fill_round config P fuel plain blob c :
  loop_returns config P fuel →
  (TransactionQueue.size plain + TransactionQueue.size blob < S fuel)%nat →
  config_of (store c) = Some config → ctx_ok c →
  queue_ok plain → queue_ok blob → queue_good (store c) plain → queue_good (store c) blob →
  waiting P plain blob →
  ∃ c' txs rs,
    match next_head plain blob with
    | None => mret tt
    | Some (head_tx, true) => q ← process_head config head_tx blob; fill_loop fuel config plain q
    | Some (head_tx, false) => q ← process_head config head_tx plain; fill_loop fuel config q blob
    end c = (Ok tt, c') ∧ extends config c txs rs c' ∧ loop_post config P plain blob c c' txs.
Proof.
  intros IH Hf Hc Hok Hp Hb Hgp Hgb Hw.
  destruct (next_head plain blob) as [[head is_blob]|] eqn:Hnext; cycle 1.
  { exists c, [], []. split; [done|]. split; [by apply extends_skip|]. split; [constructor|].
    apply next_head_none in Hnext as [Hn1 Hn2].
    intros sender m [Hm|Hm]; exfalso; revert Hm; by apply empty_queue. }
  apply next_head_peek in Hnext.
  pose proof (peek_waits P plain blob is_blob head Hw Hnext) as HP.
  destruct (process_head_ok config c head (if is_blob then blob else plain) Hc Hok)
    as (q' & c1 & txs & rs & Hrun & (Hq' & Hlt & _ & Hin') & Hext & Hres); [by destruct is_blob..|done|].
  assert (config_of (store c1) = Some config) as Hc1
    by (unfold config_of; by rewrite (ex_engine _ _ _ _ _ Hext)).
  pose proof (ex_bundles _ _ _ _ _ Hext) as Hsub. pose proof (ex_ok _ _ _ _ _ Hext) as Hok1.
  destruct is_blob; rewrite (bind_run _ _ _ _ _ Hrun).
  - destruct (IH plain q' c1) as (c2 & txs2 & rs2 & Hrun2 & Hext2 & Ht2 & Hs2);
      [lia|done|done|done|done|by eapply queue_good_mono|by eapply queue_good_mono| |].
    { split; [apply Hw|]. intros sender m Hm. by apply Hw, Hin'. }
    exists c2, (txs ++ txs2), (rs ++ rs2). split; [exact Hrun2|]. split; [by eapply extends_trans|].
    split; [by eapply round_taken|]. intros sender m [Hm|Hm].
    + eapply settled_trans; [done|]. apply Hs2. by left.
    + eapply (round_settled config P head blob); [done..|]. intros Hm'. apply Hs2. by right.
  - destruct (IH q' blob c1) as (c2 & txs2 & rs2 & Hrun2 & Hext2 & Ht2 & Hs2);
      [lia|done|done|done|done|by eapply queue_good_mono|by eapply queue_good_mono| |].
    { split; [|apply Hw]. intros sender m Hm. by apply Hw, Hin'. }
    exists c2, (txs ++ txs2), (rs ++ rs2). split; [exact Hrun2|]. split; [by eapply extends_trans|].
    split; [by eapply round_taken|]. intros sender m [Hm|Hm].
    + eapply (round_settled config P head plain); [done..|]. intros Hm'. apply Hs2. by left.
    + eapply settled_trans; [done|]. apply Hs2. by right.
Qed.

Lemma fill_loop_ok config P fuel : loop_returns config P fuel.
Proof.
  induction fuel as [|fuel IH]; intros plain blob c Hf Hc Hok Hp Hb Hgp Hgb Hw; [lia|].
  cbn [fill_loop]. erewrite bind_run by reflexivity.
  destruct (remaining_gas c <? TX_GAS_COST) eqn:Hgas; propify.
  { exists c, [], []. split; [done|]. split; [by apply extends_skip|].
    split; [constructor|]. intros sender m _. by apply SettledNoGas. }
  destruct (clear_when_full_run c blob Hok Hb) as (blob' & Hclear & Hb' & Hsize & Hin & Hcl).
  rewrite (bind_run _ _ _ _ _ Hclear).
  destruct (fill_round config P fuel plain blob' c IH)
    as (c' & txs & rs & Hrun & Hext & Ht & Hs);
    [lia|done|done|done|done|done|by eapply queue_good_mono| |].
  { split; [apply Hw|intros sender m Hm; by apply Hw, Hin]. }
  exists c', txs, rs. split; [done|]. split; [done|]. split; [done|]. intros sender m Hm.
  destruct Hcl as [->|Hfull]; [by apply Hs|]. destruct Hm as [Hm|Hm]; [by apply Hs; left|].
  eapply full_settled; [done..|]. by apply (wa_blob _ _ _ Hw) in Hm as [_ ?].
Qed.

(** *** Fetching and filling *)

(** Every transaction of the pool is good. *)
Definition pool_good (s : Store.t) : Prop :=
  map_Forall (λ _ m, tx_good s (MempoolTransaction.inner m)) (Store.mempool s).

Lemma passing_tip filter m :
  min_tip filter = None → filter_tx filter (MempoolTransaction.inner m) = true →
  is_Some (tip_of (Mempool.base_fee filter) m).
Proof.
  intros Hmin. unfold filter_tx, tip_of. rewrite Hmin. destruct (_ || _); [done|].
  by destruct (Transaction.effective_gas_tip _ _).
Qed.

(** The filters of [fetch_mempool_transactions]. *)
Definition payload_filter c (plain blob : bool) : PendingTxFilter :=
  {| min_tip := None; Mempool.base_fee := base_fee_per_gas c;
     blob_fee := Some (base_fee_per_blob_gas c); only_plain_txs := plain; only_blob_txs := blob |}.

(** A transaction of the pool that a filter selects. *)
Definition selected c (filter : PendingTxFilter) (sender : list Z) (m : MempoolTransaction.t) : Prop :=
  filter_tx filter (MempoolTransaction.inner m) = true ∧ sender_of m = sender ∧
  ∃ hash, Store.mempool (store c) !! hash = Some m.

(** A transaction of the pool that pays the fees of the block, with or without blobs. *)
Definition waits c (sender : list Z) (m : MempoolTransaction.t) : Prop :=
  selected c (payload_filter c true false) sender m ∨
  selected c (payload_filter c false true) sender m.

Lemma selected_blob c sender m :
  selected c (payload_filter c false true) sender m →
  is_blob_tx (MempoolTransaction.inner m) = true.
Proof.
  intros (Hf & _). unfold filter_tx in Hf. cbn in Hf.
  by destruct (is_blob_tx (MempoolTransaction.inner m)).
Qed.

Lemma fetch_queue c filter :
  min_tip filter = None → pool_good (store c) →
  ∃ groups q, in_store (filter_transactions filter) c = (Ok groups, c) ∧
    TransactionQueue.new groups (Mempool.base_fee filter) = Ok q ∧ queue_ok q ∧
    queue_good (store c) q ∧ ∀ sender m, in_queue q sender m ↔ selected c filter sender m.
Proof.
  intros Hmin Hgood. destruct (filter_groups (filter_tx filter) (store c)) as (groups & Hrun & Hspec).
  assert (∀ sender m, (∃ l, groups !! sender = Some l ∧ m ∈ l) ↔ selected c filter sender m) as Helem.
  { intros sender m. specialize (Hspec sender). unfold selected. rewrite <-group_of_elem.
    destruct (groups !! sender) as [l|].
    - destruct Hspec as (_ & _ & Hperm). rewrite <-Hperm. naive_solver.
    - rewrite Hspec, elem_of_nil. naive_solver. }
  destruct (queue_new_ok (Mempool.base_fee filter) groups) as (q & Hnew & Hq & _ & Hin).
  { intros sender l Hl. pose proof (Hspec sender) as Hs. rewrite Hl in Hs.
    destruct Hs as (? & ? & _). split_and!; try done. apply Forall_forall. intros m Hm.
    apply passing_tip; [done|]. apply (Helem sender m). eauto. }
  exists groups, q. split_and!; try done.
  - unfold in_store, chain_store, state_map_err, filter_transactions. rewrite Hrun. cbn.
    by rewrite set_store_id.
  - intros sender m Hm. apply Hin, Helem in Hm as (_ & _ & hash & Hh). by eapply Hgood.
  - intros sender m. by rewrite Hin, Helem.
Qed.

(** What the builder does with the pool. *)
Lemma fill_transactions_settles config c :
  config_of (store c) = Some config → ctx_ok c → pool_good (store c) →
  ∃ c' txs rs, fill_transactions c = (Ok tt, c') ∧ extends config c txs rs c' ∧
    taken (waits c) c' txs ∧
    ∀ sender m, waits c sender m → settled config (waits c) c txs c' sender m.
Proof.
  intros Hc Hok Hgood. unfold fill_transactions, fetch_mempool_transactions.
  rewrite (bind_run _ _ _ _ _ (chain_config_run c config Hc)).
  destruct (fetch_queue c (payload_filter c true false)) as (g1 & plain & Hf1 & Hn1 & Hq1 & Hg1 & Hi1); [done..|].
  destruct (fetch_queue c (payload_filter c false true)) as (g2 & blob & Hf2 & Hn2 & Hq2 & Hg2 & Hi2); [done..|].
  erewrite bind_run.
  2: { do 2 (erewrite bind_run by reflexivity). rewrite (bind_run _ _ _ _ _ Hf1).
    erewrite bind_run by (unfold state_lift; cbn in Hn1; rewrite Hn1; reflexivity).
    rewrite (bind_run _ _ _ _ _ Hf2).
    erewrite bind_run by (unfold state_lift; cbn in Hn2; rewrite Hn2; reflexivity). reflexivity. }
  assert (waiting (waits c) plain blob) as Hw.
  { split; intros sender m.
    - intros Hm%Hi1. by left.
    - intros Hm%Hi2. split; [by right|]. by eapply selected_blob. }
  destruct (fill_loop_ok config (waits c) _ plain blob c (Nat.lt_succ_diag_r _) Hc Hok Hq1 Hq2 Hg1 Hg2 Hw)
    as (c' & txs & rs & Hrun & Hext & Ht & Hs).
  exists c', txs, rs. split_and!; [done..|]. intros sender m Hm. apply Hs.
  rewrite Hi1, Hi2. exact Hm.
Qed.

Lemma fill_transactions_ok config c :
  config_of (store c) = Some config → ctx_ok c → pool_good (store c) →
  ∃ c' txs rs, fill_transactions c = (Ok tt, c') ∧ extends config c txs rs c'.
Proof.
  intros Hc Hok Hgood.
  destruct (fill_transactions_settles config c Hc Hok Hgood) as (c' & txs & rs & ? & ? & _). eauto.
Qed.
End context.
