(* ===== verification/MempoolPool.v ===== *)
(** * What the pool can hold

    The pool as a state machine: submissions of transactions, with and without
    blobs, accepted or not, and removals.  Every pool that these steps reach from
    the empty one holds transactions under their own hash, with the sender that
    their signature gives, and blob transactions with the bundle that was
    checked against them; this is what the builder of payloads relies on. *)

From stdpp Require Import base option list numbers strings gmap relations.
From S2P Require Import Prelude Rlp RlpProofs LevmHost Trie Tx TxProofs BlockTypes Chain ChainProofs.
From S2P Require Import Store StoreLogic Blockchain Mempool MempoolProofs Vm Payload PayloadQueue.
From S2P Require Import PayloadProofs.

Local Open Scope Z_scope.

(** ** Results that do not depend on the type of errors *)

Definition transfers {E F A} (m : Outcome E A) (n : Outcome F A) : Prop := ∀ a, m = Ok a → n = Ok a.

Section transfers.
Context `{Crypto, Secp256k1, BuildProfile} {E F : Type}.

Lemma transfers_bind {A B} (m : Outcome E A) (n : Outcome F A) (f : A → Outcome E B)
    (g : A → Outcome F B) :
  transfers m n → (∀ a, transfers (f a) (g a)) → transfers (m ≫= f) (n ≫= g).
Proof. intros Hm Hf b (a & Ea & Hb)%bind_Ok. rewrite (Hm a Ea). by apply Hf. Qed.

Lemma transfers_ok {A} (a : A) : transfers (Ok a : Outcome E A) (Ok a : Outcome F A).
Proof. by intros ? [= <-]. Qed.

Lemma transfers_as_u64 v : transfers (as_u64 v : Outcome E Z) (as_u64 v : Outcome F Z).
Proof. intros n. unfold as_u64. destruct (fits 64 v); [by intros [= <-]|done]. Qed.

Lemma transfers_unwrap {A} (o : option A) : transfers (unwrap o : Outcome E A) (unwrap o : Outcome F A).
Proof. intros a. destruct o; [by intros [= <-]|done]. Qed.

Lemma transfers_width w x :
  transfers (in_width w x : Outcome E Z) (in_width w x : Outcome F Z).
Proof. intros a. unfold in_width. repeat case_match; by intros [= <-]. Qed.

Lemma transfers_chain_id tx :
  transfers (Transaction.chain_id (E := E) tx) (Transaction.chain_id (E := F) tx).
Proof.
  destruct tx as [tx|tx|tx|tx|tx]; cbn; try apply transfers_ok.
  unfold Transaction.derive_legacy_chain_id. apply transfers_bind; [apply transfers_as_u64|intros v].
  destruct (_ || _); [apply transfers_ok|].
  apply transfers_bind; [apply transfers_width|intros n; apply transfers_ok].
Qed.

Lemma transfers_recover r s y message :
  transfers (Transaction.recover_address (E := E) r s y message)
    (Transaction.recover_address (E := F) r s y message).
Proof.
  apply transfers_bind; [apply transfers_unwrap|intros signature].
  apply transfers_bind; [apply transfers_unwrap|intros public]. apply transfers_ok.
Qed.

Lemma transfers_sender tx :
  transfers (Transaction.sender (E := E) tx) (Transaction.sender (E := F) tx).
Proof.
  destruct tx as [tx|tx|tx|tx|tx]; cbn [Transaction.sender]; try apply transfers_recover.
  apply transfers_bind; [apply transfers_chain_id|intros id].
  apply transfers_bind; [apply transfers_as_u64|intros v].
  apply transfers_bind; [|intros y; apply transfers_recover].
  destruct id as [id|]; [|apply transfers_ok].
  do 2 (apply transfers_bind; [apply transfers_width|intros ?]). apply transfers_ok.
Qed.
End transfers.

(** ** Admission *)

(** The store that a transaction is checked in: its latest block, its
    configuration and the account of the sender there. *)
Record checked_in `{Crypto} (s : Store.t) (sender : list Z) (header : BlockHeader.t)
    (config : ChainConfig.t) (account : AccountInfo.t) : Prop := {
  ci_header : ∃ n, (Store.get_latest_block_number s).1 = Ok n ∧
    (Store.get_block_header n s).1 = Ok (Some header) ∧
    (Store.get_account_info n sender s).1 = Ok (Some account);
  ci_config : (Store.get_chain_config s).1 = Ok config;
}.

(** The rules of admission. *)
Record admissible `{BuildProfile} (tx : Transaction) (header : BlockHeader.t)
    (config : ChainConfig.t) (account : AccountInfo.t) : Prop := {
  ad_init_code : ChainConfig.is_shanghai_activated config (BlockHeader.timestamp header) = true →
    Transaction.is_contract_creation tx = true → len (Transaction.data tx) ≤ MAX_INITCODE_SIZE;
  ad_gas_limit : Transaction.gas_limit tx ≤ BlockHeader.gas_limit header;
  ad_tip : default 0 (Transaction.max_priority_fee tx) ≤ default 0 (Transaction.max_fee_per_gas tx);
  ad_intrinsic : ∃ g, transaction_intrinsic_gas tx header config = Ok g ∧
    g ≤ Transaction.gas_limit tx;
  ad_blob_fee : ∀ fee, Transaction.max_fee_per_blob_gas tx = Some fee →
    MIN_BASE_FEE_PER_BLOB_GAS ≤ fee;
  ad_nonce : AccountInfo.nonce account ≤ Transaction.nonce tx;
  ad_cost : ∃ cost, Transaction.cost_without_base_fee tx = Some cost ∧
    cost ≤ AccountInfo.balance account;
  ad_chain_id : ∃ id, Transaction.chain_id (E := MempoolError) tx = Ok id ∧
    (id = None ∨ id = Some (ChainConfig.chain_id config));
}.

Lemma reject_if_Ok {E} (b : bool) (e : E) : reject_if b e = Ok tt ↔ b = false.
Proof. unfold reject_if. by destruct b. Qed.

Lemma reject_bind_Ok {E A} (b : bool) (e : E) (k : unit → Outcome E A) a :
  (reject_if b e ≫= k) = Ok a ↔ b = false ∧ k tt = Ok a.
Proof. destruct b; cbn; naive_solver. Qed.

Section admission.
Context `{Crypto} `{BuildProfile}.

Lemma check_fields_Ok tx header config :
  check_fields tx header config = Ok tt ↔
  (ChainConfig.is_shanghai_activated config (BlockHeader.timestamp header) = true →
   Transaction.is_contract_creation tx = true → len (Transaction.data tx) ≤ MAX_INITCODE_SIZE) ∧
  Transaction.gas_limit tx ≤ BlockHeader.gas_limit header ∧
  default 0 (Transaction.max_priority_fee tx) ≤ default 0 (Transaction.max_fee_per_gas tx) ∧
  (∃ g, transaction_intrinsic_gas tx header config = Ok g ∧ g ≤ Transaction.gas_limit tx) ∧
  (∀ fee, Transaction.max_fee_per_blob_gas tx = Some fee → MIN_BASE_FEE_PER_BLOB_GAS ≤ fee).
Proof.
  unfold check_fields. rewrite !reject_bind_Ok.
  assert (∀ a b n, (a && b && (MAX_INITCODE_SIZE <? n) = false) ↔
    (a = true → b = true → n ≤ MAX_INITCODE_SIZE)) as ->.
  { intros [] [] n; cbn [andb]; rewrite ?Z.ltb_ge; naive_solver. }
  rewrite !Z.ltb_ge. split.
  - intros (? & ? & ? & (g & Hg & (Hl%Z.ltb_ge & Hf)%reject_bind_Ok)%bind_Ok). split_and!; eauto.
    intros fee Hfee. rewrite Hfee in Hf. by apply reject_if_Ok, Z.ltb_ge in Hf.
  - intros (? & ? & ? & (g & Hg & Hl) & Hf). split_and!; [done..|]. apply bind_Ok.
    exists g. rewrite reject_bind_Ok, Z.ltb_ge. split_and!; [done..|].
    destruct (Transaction.max_fee_per_blob_gas tx) as [fee|]; [|done].
    apply reject_if_Ok, Z.ltb_ge, Hf. done.
Qed.

Lemma check_account_Ok tx account :
  check_account tx account = Ok tt ↔
  ∃ a, account = Some a ∧ AccountInfo.nonce a ≤ Transaction.nonce tx ∧
    ∃ cost, Transaction.cost_without_base_fee tx = Some cost ∧ cost ≤ AccountInfo.balance a.
Proof.
  destruct account as [a|]; cbn [check_account]; [|split; [done|naive_solver]].
  rewrite reject_bind_Ok, Z.ltb_ge. split.
  - intros [Hn (cost & Hc%ok_or_Ok & Hb%reject_if_Ok%Z.ltb_ge)%bind_Ok]. eauto 8.
  - intros (? & [= <-] & Hn & cost & Hc & Hb). split; [done|]. apply bind_Ok. exists cost.
    by rewrite ok_or_Ok, reject_if_Ok, Z.ltb_ge.
Qed.

Lemma check_chain_id_Ok tx config :
  check_chain_id tx config = Ok tt ↔
  ∃ id, Transaction.chain_id (E := MempoolError) tx = Ok id ∧
    (id = None ∨ id = Some (ChainConfig.chain_id config)).
Proof.
  unfold check_chain_id. rewrite bind_Ok. apply exist_proper. intros [id|]; [|naive_solver].
  rewrite reject_if_Ok, negb_false_iff, Z.eqb_eq. naive_solver.
Qed.

Lemma read_bind_Ok {S E A B} (m : StateT S E A) (f : A → StateT S E B) s b s' :
  read_only m → (m ≫= f) s = (Ok b, s') ↔ ∃ a, (m s).1 = Ok a ∧ f a s = (Ok b, s').
Proof.
  intros Hm. pose proof (read_only_run m s Hm) as E1. split.
  - intros (a & s1 & Ha & Hf)%bind_Ok_inv. rewrite Ha in E1. injection E1 as ->. rewrite Ha. eauto.
  - intros (a & Ha & Hf). rewrite Ha in E1. by rewrite (bind_run _ _ _ _ _ E1).
Qed.

Lemma state_map_err_Ok {S E F A} (f : E → F) (m : StateT S E A) s a :
  (state_map_err f m s).1 = Ok a ↔ (m s).1 = Ok a.
Proof. unfold state_map_err. destruct (m s) as [[] s']; cbn; naive_solver. Qed.

Lemma validate_transaction_read_only tx sender : read_only (validate_transaction tx sender).
Proof. unfold validate_transaction. read_only. Qed.

(** A transaction is valid exactly when the rules hold. *)
Lemma validate_transaction_Ok tx sender s :
  (validate_transaction tx sender s).1 = Ok tt ↔
  ∃ header config account,
    checked_in s sender header config account ∧ admissible tx header config account.
Proof.
  assert ((validate_transaction tx sender s).1 = Ok tt ↔
    validate_transaction tx sender s = (Ok tt, s)) as ->.
  { rewrite (read_only_run _ s (validate_transaction_read_only tx sender)) at 2.
    split; [by intros ->|congruence]. }
  unfold validate_transaction, mempool_store. split.
  - intros (n & Hn%state_map_err_Ok & (h & Hh%state_map_err_Ok & (header & E1%ok_or_Ok & 
      (config & Hc%state_map_err_Ok & ([] & Hf%check_fields_Ok & (acc & Ha%state_map_err_Ok & 
      ([] & Hacc%check_account_Ok & [= Hid%check_chain_id_Ok])%read_bind_Ok)%read_bind_Ok)%read_bind_Ok)%read_bind_Ok)%read_bind_Ok)%read_bind_Ok)%read_bind_Ok;
      try (by read_only); subst.
    destruct Hacc as (account & -> & ? & ?), Hf as (? & ? & ? & ? & ?).
    exists header, config, account. split; split; eauto.
  - intros (header & config & account & [(n & Hn & Hh & Ha) Hc] & [? ? ? ? ? ? ? Hid]).
    apply read_bind_Ok; [read_only|exists n; rewrite state_map_err_Ok; split; [done|]].
    apply read_bind_Ok; [read_only|exists (Some header); rewrite state_map_err_Ok; split; [done|]].
    apply read_bind_Ok; [read_only|exists header; split; [done|]].
    apply read_bind_Ok; [read_only|exists config; rewrite state_map_err_Ok; split; [done|]].
    apply read_bind_Ok; [read_only|exists tt; split; [by apply check_fields_Ok|]].
    apply read_bind_Ok; [read_only|exists (Some account); rewrite state_map_err_Ok; split; [done|]].
    apply read_bind_Ok; [read_only|exists tt; split; [apply check_account_Ok; eauto|]].
    unfold state_lift. by rewrite (proj2 (check_chain_id_Ok tx config)).
Qed.
End admission.

(** *** Refusals *)

(** The error of a refusal names a rule that the transaction breaks. *)
Inductive broken_rule `{BuildProfile} (tx : Transaction) (header : BlockHeader.t)
    (config : ChainConfig.t) (account : option AccountInfo.t) : MempoolError → Prop :=
| BrokenInitCode : Transaction.is_contract_creation tx = true →
    MAX_INITCODE_SIZE < len (Transaction.data tx) →
    broken_rule tx header config account TxMaxInitCodeSizeError
| BrokenGasLimit : BlockHeader.gas_limit header < Transaction.gas_limit tx →
    broken_rule tx header config account TxGasLimitExceededError
| BrokenTip : default 0 (Transaction.max_fee_per_gas tx)
      < default 0 (Transaction.max_priority_fee tx) →
    broken_rule tx header config account TxTipAboveFeeCapError
| BrokenGasOverflow e : transaction_intrinsic_gas tx header config = Err e →
    broken_rule tx header config account e
| BrokenIntrinsic g : transaction_intrinsic_gas tx header config = Ok g →
    Transaction.gas_limit tx < g →
    broken_rule tx header config account TxIntrinsicGasCostAboveLimitError
| BrokenBlobFee fee : Transaction.max_fee_per_blob_gas tx = Some fee →
    fee < MIN_BASE_FEE_PER_BLOB_GAS →
    broken_rule tx header config account TxBlobBaseFeeTooLowError
| BrokenNoAccount : account = None → broken_rule tx header config account NotEnoughBalance
| BrokenNonce a : account = Some a → Transaction.nonce tx < AccountInfo.nonce a →
    broken_rule tx header config account InvalidNonce
| BrokenCost : Transaction.cost_without_base_fee tx = None →
    broken_rule tx header config account InvalidTxGasvalues
| BrokenBalance a cost : account = Some a → Transaction.cost_without_base_fee tx = Some cost →
    AccountInfo.balance a < cost →
    broken_rule tx header config account NotEnoughBalance
| BrokenChainId id : Transaction.chain_id (E := MempoolError) tx = Ok (Some id) →
    id ≠ ChainConfig.chain_id config →
    broken_rule tx header config account (InvalidChainId (ChainConfig.chain_id config)).

(** A check that passes, or fails with an error of [R]. *)
Definition answers (R : MempoolError → Prop) (m : MempoolResult unit) : Prop :=
  m = Ok tt ∨ ∃ e, m = Err e ∧ R e.

Section answers.
Context (R : MempoolError → Prop).

Lemma answers_reject (b : bool) e : (b = true → R e) → answers R (reject_if b e).
Proof. intros Hb. destruct b; [right; eauto|by left]. Qed.

Lemma answers_bind {A} (m : MempoolResult A) k :
  returns m → (∀ e, m = Err e → R e) → (∀ a, m = Ok a → answers R (k a)) → answers R (m ≫= k).
Proof. destruct m as [a|e| |]; intros [? ?] He Hk; [by apply Hk|right; eauto|done..]. Qed.

Lemma answers_reject_bind (b : bool) e k :
  (b = true → R e) → answers R (k tt) → answers R (reject_if b e ≫= k).
Proof. intros Hb Hk. destruct b; [right; eauto|done]. Qed.
End answers.

Section refusals.
Context `{Crypto} `{BuildProfile}.

Lemma check_fields_answers tx header config account :
  returns (transaction_intrinsic_gas tx header config) →
  answers (broken_rule tx header config account) (check_fields tx header config).
Proof.
  intros Hg. unfold check_fields.
  apply answers_reject_bind; [intros [[_ Hc]%andb_prop Hl]%andb_prop; apply BrokenInitCode; [done|lia]|].
  apply answers_reject_bind; [intros Hl; apply BrokenGasLimit; lia|].
  apply answers_reject_bind; [intros Hl; apply BrokenTip; lia|].
  apply answers_bind; [done|intros e He; by apply BrokenGasOverflow|intros g Eg].
  apply answers_reject_bind; [intros Hl; eapply BrokenIntrinsic; [done|lia]|].
  destruct (Transaction.max_fee_per_blob_gas tx) as [fee|] eqn:Ef; [|by left].
  apply answers_reject. intros Hl. eapply BrokenBlobFee; [done|lia].
Qed.

Lemma check_account_answers tx header config account :
  answers (broken_rule tx header config account) (check_account tx account).
Proof.
  destruct account as [a|]; cbn [check_account]; [|right; eexists; split; [done|by apply BrokenNoAccount]].
  apply answers_reject_bind; [intros Hl; eapply BrokenNonce; [done|lia]|].
  destruct (Transaction.cost_without_base_fee tx) as [cost|] eqn:Ec; cbn.
  - apply answers_reject. intros Hl. eapply BrokenBalance; [done..|lia].
  - right. eexists. split; [done|by apply BrokenCost].
Qed.

Lemma check_chain_id_answers tx header config account id :
  Transaction.chain_id (E := MempoolError) tx = Ok id →
  answers (broken_rule tx header config account) (check_chain_id tx config).
Proof.
  intros E. unfold check_chain_id. rewrite E. cbn. destruct id as [id|]; [|by left].
  apply answers_reject. intros Hn%negb_true_iff%Z.eqb_neq. by eapply BrokenChainId.
Qed.

(** What the checks read of the store, and that they return. *)
Record readable (s : Store.t) (tx : Transaction) (sender : list Z) (header : BlockHeader.t)
    (config : ChainConfig.t) (account : option AccountInfo.t) : Prop := {
  rd_header : ∃ n, (Store.get_latest_block_number s).1 = Ok n ∧
    (Store.get_block_header n s).1 = Ok (Some header) ∧
    (Store.get_account_info n sender s).1 = Ok account;
  rd_config : (Store.get_chain_config s).1 = Ok config;
  rd_intrinsic : returns (transaction_intrinsic_gas tx header config);
  rd_chain_id : ∃ id, Transaction.chain_id (E := MempoolError) tx = Ok id;
}.

Lemma mempool_store_bind {A B} (m : StoreM A) (f : A → MempoolM B) s a :
  read_only m → (m s).1 = Ok a → (mempool_store m ≫= f) s = f a s.
Proof.
  intros Hm Ha. pose proof (read_only_run m s Hm) as E. rewrite Ha in E.
  erewrite bind_run; [done|]. unfold mempool_store, state_map_err. by rewrite E.
Qed.

Lemma validate_transaction_answers s tx sender header config account :
  readable s tx sender header config account →
  answers (broken_rule tx header config account) (validate_transaction tx sender s).1.
Proof.
  intros [(n & Hn & Hh & Ha) Hc Hg [id Hid]]. unfold validate_transaction.
  rewrite (mempool_store_bind _ _ _ n) by (done || read_only).
  rewrite (mempool_store_bind _ _ _ (Some header)) by (done || read_only).
  rewrite (bind_run _ _ s header s) by done.
  rewrite (mempool_store_bind _ _ _ config) by (done || read_only).
  unfold mbind at 1, state_bind at 1, state_lift at 1.
  destruct (check_fields_answers tx header config account Hg) as [->|(e & -> & He)];
    [|right; eauto].
  rewrite (mempool_store_bind _ _ _ account) by (done || read_only).
  unfold mbind at 1, state_bind at 1, state_lift at 1.
  destruct (check_account_answers tx header config account) as [->|(e & -> & He)];
    [|right; eauto].
  by eapply check_chain_id_answers.
Qed.
End refusals.

(** ** Submissions *)

Section submission.
Context `{Crypto} `{BuildProfile} `{Secp256k1}.

(** A transaction enters the pool. *)
Definition pool_insert (hash : list Z) (m : MempoolTransaction.t) (s : Store.t) : Store.t :=
  Store.set_mempool (<[hash := m]> (Store.mempool s)) s.
Definition bundle_insert (hash : list Z) (b : BlobsBundle.t) (s : Store.t) : Store.t :=
  Store.set_blobs_bundle_pool (<[hash := b]> (Store.blobs_bundle_pool s)) s.

(** What validation has established of a transaction and its sender. *)
Definition accepted_from (s : Store.t) (tx : Transaction) (sender : list Z) : Prop :=
  Transaction.sender (E := MempoolError) tx = Ok sender ∧
  ∃ header config account,
    checked_in s sender header config account ∧ admissible tx header config account.

(** The common part of the two submissions: recover the sender, validate, go on. *)
Lemma submit_cases {A} tx (k : list Z → MempoolM A) s :
  (∃ sender, accepted_from s tx sender ∧
     (sender ← state_lift (Transaction.sender tx);
      _ ← validate_transaction tx sender; k sender) s = k sender s) ∨
  (¬ (∃ sender, accepted_from s tx sender) ∧ ∃ r,
     (sender ← state_lift (Transaction.sender tx);
      _ ← validate_transaction tx sender; k sender) s = (r, s) ∧ ∀ a, r ≠ Ok a).
Proof.
  unfold accepted_from, mbind at 1 3, state_bind at 1 3, state_lift.
  destruct (Transaction.sender tx) as [sender|e| |]; cycle 1.
  1-3: right; split; [by intros (? & [=] & _)|by eexists].
  pose proof (validate_transaction_Ok tx sender s) as Hv.
  pose proof (read_only_run _ s (validate_transaction_read_only tx sender)) as Hr.
  destruct (validate_transaction tx sender s).1 as [[]|e| |] eqn:E.
  { left. exists sender. split; [by split; [|apply Hv]|]. by rewrite (bind_run _ _ _ _ _ Hr). }
  all: right; split; [by intros (? & [= <-] & Ha%Hv)|].
  all: eexists; unfold mbind, state_bind; rewrite Hr; by split.
Qed.

Lemma add_transaction_cases now tx s :
  (is_blob_tx tx = false ∧ ∃ sender, accepted_from s tx sender ∧
     add_transaction now tx s =
       (Ok (Transaction.compute_hash tx),
        pool_insert (Transaction.compute_hash tx) (MempoolTransaction.new now tx sender) s)) ∨
  ((is_blob_tx tx = true ∨ ¬ ∃ sender, accepted_from s tx sender) ∧
   ∃ r, add_transaction now tx s = (r, s) ∧ ∀ h, r ≠ Ok h).
Proof.
  unfold add_transaction. destruct (is_blob_tx tx); [right; split; [by left|by eexists]|].
  destruct (submit_cases tx (λ sender, 
    let hash := Transaction.compute_hash tx in
    _ ← mempool_store
          (Store.add_transaction_to_pool hash (MempoolTransaction.new now tx sender));
    mret hash) s) as [(sender & Ha & E)|(Hn & r & E & Hr)].
  - left. split; [done|]. exists sender. split; [done|]. etransitivity; [exact E|reflexivity].
  - right. split; [by right|]. exists r. split; [exact E|exact Hr].
Qed.

(** A transaction that is not accepted although everything that is read of the store is
    there is refused with the error of a rule that it breaks; a signature that cannot be
    parsed or recovered is a panic. *)
Lemma add_transaction_refused now tx s r s' :
  is_blob_tx tx = false → add_transaction now tx s = (r, s') → (∀ hash, r ≠ Ok hash) →
  (∀ sender header config account,
     Transaction.sender (E := MempoolError) tx = Ok sender →
     readable s tx sender header config account →
     ∃ e, r = Err e ∧ broken_rule tx header config account e) ∧
  (Transaction.sender (E := MempoolError) tx = Panic → r = Panic).
Proof.
  unfold add_transaction. intros -> E Hr.
  unfold mbind at 1, state_bind at 1, state_lift at 1 in E. split.
  - intros sender header config account Hs Hrd. rewrite Hs in E.
    pose proof (read_only_run _ s (validate_transaction_read_only tx sender)) as Hv.
    unfold mbind at 1, state_bind at 1 in E.
    destruct (validate_transaction_answers _ _ _ _ _ _ Hrd) as [E1|(e & E1 & He)];
      rewrite E1 in Hv; rewrite Hv in E; cbn in E; injection E as <- <-; [|by eauto].
    by destruct (Hr (Transaction.compute_hash tx)).
  - intros Hs. rewrite Hs in E. by injection E as <- _.
Qed.

Lemma add_blob_transaction_cases `{Kzg} now (t : EIP4844Transaction.t) b s :
  let tx := EIP4844Transaction t in
  let hash := Transaction.compute_hash tx in
  (BlobsBundle.validate b t = Ok tt ∧ ∃ sender, accepted_from s tx sender ∧
     add_blob_transaction now t b s =
       (Ok hash, bundle_insert hash b (pool_insert hash (MempoolTransaction.new now tx sender) s))) ∨
  ((BlobsBundle.validate b t ≠ Ok tt ∨ ¬ ∃ sender, accepted_from s tx sender) ∧
   ∃ r, add_blob_transaction now t b s = (r, s) ∧ ∀ h, r ≠ Ok h).
Proof.
  intros tx hash. unfold add_blob_transaction.
  unfold mbind at 1 6, state_bind at 1 6, state_lift at 1 3.
  destruct (BlobsBundle.validate b t) as [[]|e| |]; cbn [map_err]; cycle 1.
  1-3: right; split; [by left|by eexists].
  destruct (submit_cases tx (λ sender,
    _ ← mempool_store
          (Store.add_transaction_to_pool hash (MempoolTransaction.new now tx sender));
    _ ← mempool_store (Store.add_blobs_bundle_to_pool hash b); mret hash) s)
    as [(sender & Ha & E)|(Hn & r & E & Hr)].
  - left. split; [done|]. exists sender. split; [done|]. etransitivity; [exact E|reflexivity].
  - right. split; [by right|]. exists r. split; [exact E|exact Hr].
Qed.
End submission.

(** ** The pool as a state machine *)

Section pool.
Context `{Crypto} `{BuildProfile} `{Secp256k1} `{Kzg}.

(** The fees of a transaction are [u64], and a bundle has fewer than 2^32 blobs. *)
Definition typed_tx (tx : Transaction) : Prop := in_u 64 (Transaction.gas_tip_cap tx).
Definition typed_bundle (b : BlobsBundle.t) : Prop := in_u 32 (len (BlobsBundle.blobs b)).

(** A step of the pool: a submission or a removal, of which the result may be an error or
    a panic, or any change of the rest of the store, as when blocks are imported. *)
Inductive pool_step (s s' : Store.t) : Prop :=
| PoolAdd now tx r : typed_tx tx → add_transaction now tx s = (r, s') → pool_step s s'
| PoolAddBlob now t b r : typed_tx (EIP4844Transaction t) → typed_bundle b →
    add_blob_transaction now t b s = (r, s') → pool_step s s'
| PoolRemove hash r : remove_transaction hash s = (r, s') → pool_step s s'
| PoolChain : Store.mempool s' = Store.mempool s →
    Store.blobs_bundle_pool s' = Store.blobs_bundle_pool s → pool_step s s'.

(** An entry of the pool. *)
Record pooled (s : Store.t) (hash : list Z) (m : MempoolTransaction.t) : Prop := {
  po_hash : hash = Transaction.compute_hash (MempoolTransaction.inner m);
  po_sender : Transaction.sender (E := MempoolError) (MempoolTransaction.inner m) =
    Ok (sender_of m);
  po_chain_id : ∃ id, Transaction.chain_id (E := MempoolError) (MempoolTransaction.inner m) = Ok id;
  po_typed : typed_tx (MempoolTransaction.inner m);
  po_bundle : ∀ t, MempoolTransaction.inner m = EIP4844Transaction t →
    ∃ b, Store.blobs_bundle_pool s !! hash = Some b ∧ typed_bundle b ∧
      BlobsBundle.validate b t = Ok tt;
}.

Definition pool_ok (s : Store.t) : Prop := map_Forall (pooled s) (Store.mempool s).

(** Entries depend on the bundles only at their hash. *)
Lemma pooled_bundles s s' hash m :
  Store.blobs_bundle_pool s' !! hash = Store.blobs_bundle_pool s !! hash →
  pooled s hash m → pooled s' hash m.
Proof. intros E [? ? ? ? Hb]. split; [done..|]. intros t Ht. rewrite E. by apply Hb. Qed.

Lemma accepted_pooled s now tx sender :
  is_blob_tx tx = false → typed_tx tx → accepted_from s tx sender →
  ∀ s', pooled s' (Transaction.compute_hash tx) (MempoolTransaction.new now tx sender).
Proof.
  intros Hb Hty (Hs & h & c & a & _ & [_ _ _ _ _ _ _ (id & Hid & _)]) s'. split; cbn; eauto.
  by intros t ->.
Qed.

Lemma add_ok s now tx sender :
  pool_ok s → is_blob_tx tx = false → typed_tx tx → accepted_from s tx sender →
  pool_ok (pool_insert (Transaction.compute_hash tx) (MempoolTransaction.new now tx sender) s).
Proof.
  intros Hok Hb Hty Ha. unfold pool_ok. cbn. apply map_Forall_insert_2.
  - by eapply accepted_pooled.
  - intros hash m Hm. eapply pooled_bundles; [|by apply Hok]. done.
Qed.

Lemma add_blob_ok s now t b sender :
  let tx := EIP4844Transaction t in
  let hash := Transaction.compute_hash tx in
  pool_ok s → typed_tx tx → typed_bundle b → BlobsBundle.validate b t = Ok tt →
  accepted_from s tx sender →
  pool_ok (bundle_insert hash b (pool_insert hash (MempoolTransaction.new now tx sender) s)).
Proof.
  intros tx hash Hok Hty Hbty Hv (Hs & h & c & a & _ & [_ _ _ _ _ _ _ (id & Hid & _)]) hash' m.
  cbn. rewrite lookup_insert_Some. intros [[<- <-]|[Hne Hm]].
  - split; cbn; eauto. intros t' [= <-]. exists b. by rewrite lookup_insert_eq.
  - eapply pooled_bundles; [|by apply Hok]. cbn. by rewrite lookup_insert_ne.
Qed.

Lemma remove_ok s hash : pool_ok s → pool_ok (remove_transaction hash s).2.
Proof.
  intros Hok. unfold remove_transaction, Store.remove_transaction_from_pool, state_modify. cbn [snd].
  destruct (Store.mempool s !! hash) as [m|] eqn:Hm; [|done].
  pose proof (po_hash _ _ _ (Hok _ _ Hm)) as Hh. intros hash' m'. cbn.
  intros [Hne Hm']%lookup_delete_Some.
  assert (Store.mempool s !! hash' = Some m') as Hin.
  { destruct (Transaction.tx_type _); done. }
  eapply pooled_bundles; [|by apply Hok]. cbn.
  destruct (Transaction.tx_type _); cbn; [done..| |done]. rewrite lookup_delete_ne; congruence.
Qed.

Lemma pool_step_ok s s' : pool_step s s' → pool_ok s → pool_ok s'.
Proof.
  intros [now tx r Hty Hrun|now t b r Hty Hb Hrun|hash r Hrun|Hm Hb] Hok.
  - destruct (add_transaction_cases now tx s) as [(Hn & sender & Ha & E)|(_ & r' & E & _)];
      rewrite E in Hrun; simplify_eq; [by apply add_ok|done].
  - destruct (add_blob_transaction_cases now t b s) as [(Hv & sender & Ha & E)|(_ & r' & E & _)];
      rewrite E in Hrun; simplify_eq; [by apply add_blob_ok|done].
  - pose proof (remove_ok s hash Hok) as Hr. by rewrite Hrun in Hr.
  - intros hash m. rewrite Hm. intros Hin. eapply pooled_bundles; [by rewrite Hb|by apply Hok].
Qed.

Lemma pool_reachable_ok s0 s : rtc pool_step s0 s → Store.mempool s0 = ∅ → pool_ok s.
Proof.
  intros Hr He. assert (pool_ok s0) as Hok by (unfold pool_ok; rewrite He; apply map_Forall_empty).
  clear He. induction Hr as [|s0 s1 s Hstep _ IH]; [done|]. by eapply IH, pool_step_ok.
Qed.

(** *** Every entry was admitted *)

(** A state of the history from [s0] to [s] in which the rules of admission held of the
    transaction, among them those on its gas, its nonce and its cost. *)
Definition admitted (s0 s : Store.t) (m : MempoolTransaction.t) : Prop :=
  ∃ s1, rtc pool_step s0 s1 ∧ rtc pool_step s1 s ∧
    accepted_from s1 (MempoolTransaction.inner m) (sender_of m).

(** Entries that a step adds were accepted in the state before it. *)
Lemma pool_step_new s s' hash m :
  pool_step s s' → Store.mempool s' !! hash = Some m →
  Store.mempool s !! hash = Some m ∨ accepted_from s (MempoolTransaction.inner m) (sender_of m).
Proof.
  intros [now tx r Hty Hrun|now t b r Hty Hb Hrun|hash' r Hrun|Hm Hb].
  - destruct (add_transaction_cases now tx s) as [(Hn & sender & Ha & E)|(_ & r' & E & _)];
      rewrite E in Hrun; simplify_eq; [|by left]. cbn.
    rewrite lookup_insert_Some. intros [[_ <-]|[_ ?]]; [by right|by left].
  - destruct (add_blob_transaction_cases now t b s) as [(Hv & sender & Ha & E)|(_ & r' & E & _)];
      rewrite E in Hrun; simplify_eq; [|by left]. cbn.
    rewrite lookup_insert_Some. intros [[_ <-]|[_ ?]]; [by right|by left].
  - apply (f_equal snd) in Hrun. cbn [snd] in Hrun. subst s'.
    unfold remove_transaction, Store.remove_transaction_from_pool, state_modify. cbn [snd].
    destruct (Store.mempool s !! hash') as [m'|]; [|by left].
    cbn. intros [_ Hin]%lookup_delete_Some. left. by destruct (Transaction.tx_type _).
  - rewrite Hm. by left.
Qed.

Lemma pool_reachable_admitted s0 s :
  rtc pool_step s0 s → Store.mempool s0 = ∅ →
  map_Forall (λ _, admitted s0 s) (Store.mempool s).
Proof.
  intros Hr He. revert s Hr. apply rtc_ind_r; [rewrite He; apply map_Forall_empty|].
  intros s s' Hr Hstep IH hash m [Hin|Ha]%(pool_step_new _ _ _ _ Hstep).
  - destruct (IH hash m Hin) as (s1 & ? & ? & ?). exists s1. split_and!; [done|by eapply rtc_r|done].
  - exists s. split_and!; [done|by apply rtc_once|done].
Qed.

(** ** The builder can use it *)

Lemma effective_tip_bound tx base_fee tip :
  typed_tx tx → Transaction.effective_gas_tip tx base_fee = Some tip → in_u 64 tip.
Proof.
  unfold Transaction.effective_gas_tip. destruct base_fee as [fee|]; intros Hcap; [|by intros [= <-]].
  destruct (checked_sub 64 (Transaction.gas_fee_cap tx) fee) as [d|] eqn:E; [|done]. cbn.
  apply checked_sub_Some in E as [-> Hd]. intros [= <-]. unfold typed_tx, in_u in *. lia.
Qed.

Lemma protected_of_chain_id {E F} tx id :
  Transaction.chain_id (E := E) tx = Ok id → ∃ b, Transaction.protected (E := F) tx = Ok b.
Proof.
  destruct tx as [tx|tx|tx|tx|tx]; cbn; [|by eexists..].
  intros (v & Hv & _)%bind_Ok. destruct (_ <=? 8); [|by eexists].
  rewrite (transfers_as_u64 _ _ Hv). by eexists.
Qed.

Lemma validate_blob_count b t :
  BlobsBundle.validate b t = Ok tt →
  len (BlobsBundle.blobs b) = len (EIP4844Transaction.blob_versioned_hashes t).
Proof.
  unfold BlobsBundle.validate. destruct (_ =? 0)%nat; [done|].
  destruct (_ || _) eqn:E; [done|]. intros _. apply orb_false_iff in E as [_ E].
  apply negb_false_iff, Nat.eqb_eq in E. unfold len. by rewrite E.
Qed.

Lemma pooled_good s hash m : pooled s hash m → tx_good s (MempoolTransaction.inner m).
Proof.
  intros [Hh Hs [id Hid] Hty Hb]. split.
  - unfold tx_env. rewrite (transfers_chain_id _ _ Hid), (transfers_sender _ _ Hs).
    destruct (MempoolTransaction.inner m) as [tx|tx|tx|tx|tx]; try (by eexists).
    destruct (PrivilegedL2Transaction.tx_type tx); by eexists.
  - by eapply protected_of_chain_id.
  - intros base_fee tip. by apply effective_tip_bound.
  - rewrite <-Hh. destruct (MempoolTransaction.inner m) as [tx|tx|tx|t|tx]; try done.
    intros _ b Hl. destruct (Hb t eq_refl) as (b' & Hl' & Hbt & Hv). simplify_eq.
    split; [by apply validate_blob_count|done].
Qed.

Lemma pool_ok_good s : pool_ok s → pool_good s.
Proof. intros Hok. eapply map_Forall_impl; [exact Hok|]. apply pooled_good. Qed.
End pool.
