(* ===== verification/MempoolTheorems.v ===== *)
(** * Theorems on the mempool

    When a transaction enters the pool, what every reachable pool holds, the gas
    that admission asks for against the gas that the EVM charges, and the nonce
    of the pending transactions.  A store with a funded account shows that the
    hypotheses can be met. *)

From stdpp Require Import base option list numbers strings gmap sorting relations.
From S2P Require Import Prelude Rlp RlpProofs LevmState LevmGas LevmHost LevmHandlers LevmSystem LevmVm.
From S2P Require Import LevmDemo LevmTransaction Trie Tx TxProofs BlockTypes Chain ChainProofs Store.
From S2P Require Import StoreLogic Blockchain Mempool MempoolProofs Vm Payload PayloadProofs MempoolPool.

Local Open Scope Z_scope.

(** C29 Admission.  [add_transaction] accepts a transaction exactly when it is not a
    blob transaction, its sender can be recovered, and the rules hold against the
    latest block: size of init code, gas limit within that of the block and above
    the intrinsic gas, tip within the fee, nonce not used, cost covered by the
    balance, chain id of the chain.  It is then in the pool under its hash, with
    its sender.  In every other case the store is as it was: a blob transaction is
    refused for want of a bundle; when the sender is recovered and the header, the
    configuration, the account, the intrinsic gas and the chain id can be computed,
    the result is an error that names a rule which the transaction breaks; and
    where the recovery of the sender panics, so does the submission. *)
Theorem admission_exact `{Crypto} `{BuildProfile} `{Secp256k1} (now : Z) (tx : Transaction)
    (s s' : Store.t) (r : MempoolResult (list Z)) :
  add_transaction now tx s = (r, s') →
  (r = Ok (Transaction.compute_hash tx) ∧ is_blob_tx tx = false ∧
   ∃ sender header config account,
     Transaction.sender (E := MempoolError) tx = Ok sender ∧
     checked_in s sender header config account ∧ admissible tx header config account ∧
     s' = pool_insert (Transaction.compute_hash tx) (MempoolTransaction.new now tx sender) s) ∨
  (s' = s ∧ is_blob_tx tx = true ∧ r = Err BlobTxNoBlobsBundle) ∨
  (s' = s ∧ is_blob_tx tx = false ∧ (∀ hash, r ≠ Ok hash) ∧
   (∀ sender header config account,
      Transaction.sender (E := MempoolError) tx = Ok sender →
      checked_in s sender header config account → ¬ admissible tx header config account) ∧
   (∀ sender header config account,
      Transaction.sender (E := MempoolError) tx = Ok sender →
      readable s tx sender header config account →
      ∃ e, r = Err e ∧ broken_rule tx header config account e) ∧
   (Transaction.sender (E := MempoolError) tx = Panic → r = Panic)).
Proof.
  intros Hrun. destruct (is_blob_tx tx) eqn:Hblob.
  { right; left. unfold add_transaction in Hrun. rewrite Hblob in Hrun.
    by injection Hrun as <- <-. }
  destruct (add_transaction_cases now tx s) as [(Hb & sender & Ha & E)|(Hn & r' & E & Hr)].
  - rewrite E in Hrun. injection Hrun as <- <-. left.
    destruct Ha as (Hs & header & config & account & Hc & Ha). split_and!; [done..|].
    by exists sender, header, config, account.
  - pose proof Hrun as Hrun'. rewrite E in Hrun'. injection Hrun' as <- <-. right; right.
    split_and!; [done|done|done| |by eapply add_transaction_refused..].
    destruct Hn as [|Hn]; [congruence|].
    intros sender header config account Hs Hc Ha. apply Hn. exists sender. split; [done|]. eauto.
Qed.


(** ** The gas of admission and the gas of the EVM *)

Section gas.
Context `{BuildProfile}.

Definition non_zero (d : list Z) : Z := len (base.filter (λ x, x ≠ 0) d).

Lemma calldata_gas_count d :
  calldata_gas d = 16 * non_zero d + 4 * (len d - non_zero d) ∧ 0 ≤ non_zero d ≤ len d.
Proof.
  unfold non_zero. induction d as [|b d [IH Hl]]; [done|]. cbn [calldata_gas foldr].
  change (foldr _ 0 d) with (calldata_gas d). rewrite IH.
  destruct (Z.eqb_spec b 0) as [E|E].
  - rewrite filter_cons_False by (by intros ?). unfold len in *. cbn [length]. lia.
  - rewrite filter_cons_True by done. unfold len in *. cbn [length]. lia.
Qed.

Definition key_count {A B} (al : list (A * list B)) : Z := foldr (λ e n, len e.2 + n) 0 al.

Lemma key_count_nonneg {A B} (al : list (A * list B)) : 0 ≤ key_count al.
Proof.
  unfold key_count, len. induction al as [|e al IH]; cbn [foldr]; lia.
Qed.

Lemma access_list_gas_count al : access_list_gas al = 2400 * len al + 1900 * key_count al.
Proof.
  unfold access_list_gas, key_count, len in *.
  induction al as [|e al IH]; [done|]. cbn [foldr length]. rewrite IH. lia.
Qed.

Lemma sum_keys_count (al : list (Address * list H256)) :
  in_u 64 (key_count al) → sum_keys al = Ok (key_count al).
Proof.
  unfold sum_keys. cut (∀ n, 0 ≤ n → in_u 64 (n + key_count al) →
    foldl (λ acc e, acc ← acc; u_add 64 acc (len e.2)) (Ok n : MempoolResult Z) al =
      Ok (n + key_count al)).
  { intros Hc Hin. apply (Hc 0); [lia|done]. }
  induction al as [|e al IH]; intros n Hn Hin; cbn [foldl key_count foldr] in *.
  { by rewrite Z.add_0_r. }
  pose proof (key_count_nonneg al). unfold key_count in *.
  cbn [mbind outcome_bind]. unfold u_add. rewrite in_width_fits by (unfold in_u, len in *; lia).
  rewrite IH; [f_equal; lia|unfold len; lia|]. unfold in_u in *. lia.
Qed.

(** Two access lists with as many keys at each place. *)
Lemma same_counts {A B C D} (l : list (A * list B)) (k : list (C * list D)) :
  (λ e, length e.2) <$> l = (λ e, length e.2) <$> k → len l = len k ∧ key_count l = key_count k.
Proof.
  revert k. induction l as [|e l IH]; intros [|e' k] E; try done. cbn in E. injection E as E1 E2.
  destruct (IH k E2) as [El Ek]. unfold key_count, len in *. cbn [length foldr].
  cbn in E1. lia.
Qed.

Lemma add_gas_fits gas x : in_u 64 (gas + x) → add_gas gas x = Ok (gas + x).
Proof. intros Hin. unfold add_gas. by rewrite checked_add_in. Qed.

Lemma words_eq n : 0 ≤ n → n + 31 < 2 ^ 64 → saturating_add 64 n 31 / 32 = div_ceil n 32.
Proof.
  intros Hn Hb. unfold saturating_add, div_ceil. rewrite Z.min_l by lia.
  destruct (Z.eqb_spec (n mod 32) 0); Z.to_euclidean_division_equations; lia.
Qed.
End gas.

Ltac gas_steps :=
  unfold u_mul, u_sub;
  repeat (first [rewrite in_width_fits by (unfold in_u; lia)
                |rewrite add_gas_fits by (unfold in_u; lia)]; cbn [mbind outcome_bind]).

Lemma data_gas_fits `{BuildProfile} tx header config gas :
  let d := len (Transaction.data tx) in
  let n := non_zero (Transaction.data tx) in
  let words := if Transaction.is_contract_creation tx
    && ChainConfig.is_shanghai_activated config (BlockHeader.timestamp header)
    then 2 * div_ceil d 32 else 0 in
  ChainConfig.is_istanbul_activated config (BlockHeader.number header) = true → 0 ≤ gas →
  in_u 64 (gas + (16 * n + 4 * (d - n)) + words) →
  data_gas tx header config gas = Ok (gas + (16 * n + 4 * (d - n)) + words).
Proof.
  intros d n words Hi Hg Hin. unfold data_gas. fold d. rewrite Hi. fold (non_zero (Transaction.data tx)).
  fold n. destruct (calldata_gas_count (Transaction.data tx)) as [_ Hn]. fold n d in Hn.
  assert (0 ≤ div_ceil d 32) as Hw by apply words_nonneg.
  change TX_DATA_NON_ZERO_GAS_EIP2028 with 16. change TX_DATA_ZERO_GAS_COST with 4.
  change TX_INIT_CODE_WORD_GAS_COST with 2. unfold in_u in Hin.
  subst words. set (b := _ && _) in *. clearbody b n d. destruct b.
  - rewrite words_eq by lia. gas_steps. f_equal. lia.
  - gas_steps. f_equal. lia.
Qed.

(** C34 The mempool and the EVM agree on the intrinsic gas.  The amount that LEVM
    charges a transaction before executing it is the amount that admission to the
    pool asks its gas limit to cover, under the rules of Istanbul, and of Shanghai
    for a creation. *)
Theorem mempool_gas_is_levm_gas `{BuildProfile} (vm : VM) (tx : Transaction)
    (header : BlockHeader.t) (config : ChainConfig.t) (g : Z) :
  ChainConfig.is_istanbul_activated config (BlockHeader.number header) = true →
  (Transaction.is_contract_creation tx = true →
   ChainConfig.is_shanghai_activated config (BlockHeader.timestamp header) = true) →
  is_create vm = Transaction.is_contract_creation tx →
  (λ e, length e.2) <$> access_list vm = (λ e, length e.2) <$> Transaction.access_list tx →
  intrinsic_gas vm (Transaction.data tx) = Ok g →
  transaction_intrinsic_gas tx header config = Ok g.
Proof.
  intros Hi Hsh Hc Hal [-> Hin]%intrinsic_gas_spec. unfold intrinsic_spec in *. rewrite Hc in *.
  destruct (calldata_gas_count (Transaction.data tx)) as [Ed Hnz].
  destruct (same_counts _ _ Hal) as [El Ek]. rewrite Ed, access_list_gas_count, El, Ek in *.
  set (n := non_zero _) in *. set (d := len (Transaction.data tx)) in *.
  set (k := key_count (Transaction.access_list tx)) in *.
  set (l := len (Transaction.access_list tx)) in *.
  assert (0 ≤ k) as Hk by apply key_count_nonneg. assert (0 ≤ l) as Hl by apply len_nonneg.
  assert (0 ≤ div_ceil d 32) as Hw by apply words_nonneg.
  unfold transaction_intrinsic_gas. fold d l.
  set (base := if Transaction.is_contract_creation tx then TX_CREATE_GAS_COST else TX_GAS_COST).
  assert (∃ gas, (if 0 <? d then data_gas tx header config base else Ok base) = Ok gas ∧
    gas + (2400 * l + 1900 * k) = 21000 + (16 * n + 4 * (d - n)) + (2400 * l + 1900 * k) +
      (if Transaction.is_contract_creation tx then 32000 + 2 * div_ceil d 32 else 0))
    as (gas & Hd & Eg).
  { unfold in_u in Hin. destruct (Z.ltb_spec 0 d) as [Hpos|Hpos].
    - eexists. split; [apply data_gas_fits; fold n d; [done|..]|].
      all: subst base; fold n d; unfold TX_CREATE_GAS_COST, TX_GAS_COST;
        destruct (Transaction.is_contract_creation tx); rewrite ?Hsh by done; cbn [andb]; unfold in_u; lia.
    - exists base. split; [done|]. assert (d = 0) as -> by (subst d; pose proof (len_nonneg (Transaction.data tx)); lia).
      change (div_ceil 0 32) with 0. subst base. unfold TX_CREATE_GAS_COST, TX_GAS_COST. case_match; lia. }
  assert (0 ≤ gas) as Hg by (destruct (Transaction.is_contract_creation tx); lia).
  rewrite Hd, <-Eg in *. cbn [mbind outcome_bind].
  rewrite sum_keys_count by (unfold in_u in *; lia). fold k. cbn [mbind outcome_bind].
  change TX_ACCESS_LIST_ADDRESS_GAS with 2400. change TX_ACCESS_LIST_STORAGE_KEY_GAS with 1900.
  unfold in_u in Hin. gas_steps. f_equal. lia.
Qed.

(** ** The nonce of the pending transactions *)

Lemma no_filter_passes tx : filter_tx no_filter tx = true.
Proof. by destruct tx. Qed.

Lemma last_greatest (l : list MempoolTransaction.t) m m' :
  StronglySorted by_nonce l → last l = Some m → m' ∈ l →
  Transaction.nonce (MempoolTransaction.inner m') ≤ Transaction.nonce (MempoolTransaction.inner m).
Proof.
  intros Hs Hl Hm. apply last_Some in Hl as [k ->].
  apply elem_of_app in Hm as [Hm|Hm]; [|apply list_elem_of_singleton in Hm as ->; lia].
  pose proof (StronglySorted_app_1_elem_of _ k [m] m' m Hs Hm (list_elem_of_here m [])) as Ho.
  apply nonce_order_spec in Ho. cbv zeta in Ho. lia.
Qed.

Definition pending (s : Store.t) (address : list Z) (n : Z) : Prop :=
  ∃ hash m, Store.mempool s !! hash = Some m ∧ sender_of m = address ∧
    Transaction.nonce (MempoolTransaction.inner m) = n.

(** The next nonce of an account.  [get_nonce] answers one more than the greatest
    nonce among the transactions of the account in the pool, and nothing when it
    has none. *)
Theorem get_nonce_next `{Crypto} `{BuildProfile} `{HashMapIter} (s : Store.t) (address : list Z) :
  (∀ n, pending s address n → 0 ≤ n < 2 ^ 64 - 1) →
  ∃ o, get_nonce address s = (Ok o, s) ∧
    match o with
    | Some next => pending s address (next - 1) ∧ ∀ n, pending s address n → n < next
    | None => ∀ n, ¬ pending s address n
    end.
Proof.
  intros Hb. destruct (filter_groups (filter_tx no_filter) s) as (groups & Hrun & Hspec).
  specialize (Hspec address). unfold get_nonce, filter_transactions.
  assert (∀ m, m ∈ group_of (filter_tx no_filter) address (map_to_list (Store.mempool s)) ↔
    sender_of m = address ∧ ∃ hash, Store.mempool s !! hash = Some m) as Hg.
  { intros m. rewrite group_of_elem, no_filter_passes. naive_solver. }
  erewrite bind_run by (apply map_err_run_ok, Hrun).
  destruct (groups !! address) as [l|]; cycle 1.
  { eexists. split; [reflexivity|]. intros n (hash & m & Hl & Hs & _).
    assert (m ∈ ([] : list MempoolTransaction.t)) as Hm by (rewrite <-Hspec; apply Hg; eauto).
    by apply elem_of_nil in Hm. }
  destruct Hspec as (Hne & Hsort & Hperm).
  destruct (last l) as [m|] eqn:Hlast; [|by apply last_None in Hlast].
  assert (m ∈ l) as Hm by (by apply last_Some_elem_of).
  assert (∀ m, m ∈ l ↔ sender_of m = address ∧ ∃ hash, Store.mempool s !! hash = Some m) as Hin
    by (intros m'; rewrite Hperm; apply Hg).
  pose proof (proj1 (Hin m) Hm) as (Hs & hash & Hl).
  set (n := Transaction.nonce (MempoolTransaction.inner m)).
  assert (pending s address n) as Hp by (by exists hash, m).
  specialize (Hb n Hp). exists (Some (n + 1)). split; [|split].
  - erewrite bind_run; [reflexivity|]. unfold state_lift, u_add.
    by rewrite in_width_fits by (unfold in_u; lia).
  - by rewrite Z.add_simpl_r.
  - intros n' (hash' & m' & Hl' & Hs' & <-).
    pose proof (last_greatest l m m' Hsort Hlast) as Hle. fold n in Hle.
    rewrite Hin in Hle. specialize (Hle (conj Hs' (ex_intro _ hash' Hl'))). lia.
Qed.

(** ** A store with a funded account *)

#[local] Instance debug_build : BuildProfile := true.
#[local] Instance pool_iter : HashMapIter :=
  {| hash_iter V m := map_to_list m; hash_iter_perm V m := Permutation_refl _ |}.

Definition pay_config : ChainConfig.t := {|
  ChainConfig.chain_id := 1; ChainConfig.homestead_block := Some 0;
  ChainConfig.dao_fork_block := None; ChainConfig.dao_fork_support := false;
  ChainConfig.eip150_block := Some 0; ChainConfig.eip155_block := Some 0;
  ChainConfig.eip158_block := Some 0; ChainConfig.byzantium_block := Some 0;
  ChainConfig.constantinople_block := Some 0; ChainConfig.petersburg_block := Some 0;
  ChainConfig.istanbul_block := Some 0; ChainConfig.muir_glacier_block := None;
  ChainConfig.berlin_block := Some 0; ChainConfig.london_block := Some 0;
  ChainConfig.arrow_glacier_block := None; ChainConfig.gray_glacier_block := None;
  ChainConfig.merge_netsplit_block := None; ChainConfig.shanghai_time := Some 0;
  ChainConfig.cancun_time := Some 0; ChainConfig.prague_time := None;
  ChainConfig.verkle_time := None; ChainConfig.terminal_total_difficulty := Some 0;
  ChainConfig.terminal_total_difficulty_passed := true;
|}.

(** The demo transaction with another value. *)
Definition pay_tx (value : Z) : Transaction := EIP1559Transaction {|
  EIP1559Transaction.chain_id := 1; EIP1559Transaction.nonce := 0;
  EIP1559Transaction.max_priority_fee_per_gas := 2;
  EIP1559Transaction.max_fee_per_gas := 1000000000;
  EIP1559Transaction.gas_limit := 21000;
  EIP1559Transaction.to := Call (replicate 20 0x11);
  EIP1559Transaction.value := value; EIP1559Transaction.data := [];
  EIP1559Transaction.access_list := [];
  EIP1559Transaction.signature_y_parity := true;
  EIP1559Transaction.signature_r := 2 ^ 255 + 3; EIP1559Transaction.signature_s := 2 ^ 254 + 5;
|}.

(** The address that the signature of the transaction gives. *)
Definition rich_sender : list Z := Eval vm_compute in
  match Transaction.sender (E := MempoolError) (pay_tx 0) with Ok a => a | _ => [] end.

Definition rich_genesis : Genesis.t := {|
  Genesis.config := pay_config;
  Genesis.alloc := [(rich_sender, {| GenesisAccount.code := []; GenesisAccount.storage := [];
                                     GenesisAccount.balance := 10 ^ 18; GenesisAccount.nonce := 0 |})];
  Genesis.coinbase := replicate 20 2; Genesis.difficulty := 0; Genesis.extra_data := [0xab];
  Genesis.gas_limit := 30000000; Genesis.nonce := 0; Genesis.mix_hash := replicate 32 5;
  Genesis.timestamp := 1000; Genesis.base_fee_per_gas := Some 7; Genesis.blob_gas_used := Some 0;
  Genesis.excess_blob_gas := Some 0;
|}.

Definition rich_base : Store.t := Eval vm_compute in
  (Store.add_initial_state rich_genesis Store.new).2.
Definition rich_result : MempoolResult (list Z) := Eval vm_compute in
  (add_transaction 5 (pay_tx 0) rich_base).1.
Definition rich_store : Store.t := Eval vm_compute in (add_transaction 5 (pay_tx 0) rich_base).2.

Lemma rich_added : add_transaction 5 (pay_tx 0) rich_base = (rich_result, rich_store).
Proof. vm_cast_no_check (eq_refl (rich_result, rich_store)). Qed.

Definition accepted_result (r : MempoolResult (list Z)) : bool :=
  match r with Ok _ => true | _ => false end.
Lemma rich_accepted : accepted_result rich_result = true.
Proof. reflexivity. Qed.

Example admission_exact_witness :
  ∃ sender header config account,
    checked_in rich_base sender header config account ∧
    admissible (pay_tx 0) header config account.
Proof.
  destruct (admission_exact 5 (pay_tx 0) rich_base rich_store rich_result rich_added)
    as [(_ & _ & sender & header & config & account & _ & Hc & Ha & _)|[(_ & Hb & _)|(_ & _ & Hn & _)]].
  - exists sender, header, config, account. split; [exact Hc|exact Ha].
  - discriminate Hb.
  - exfalso. pose proof rich_accepted as Ha. destruct rich_result as [hash| | |];
      [exact (Hn hash eq_refl)|discriminate Ha..].
Defined.

#[local] Instance pool_kzg : Kzg := {|
  blob_to_kzg_commitment _ := Some [];
  compute_blob_kzg_proof _ _ := Some [];
  kzg_verify_blob_proof _ _ _ := Some true |}.

Lemma rich_reached : rtc pool_step rich_base rich_store.
Proof.
  apply rtc_once. eapply PoolAdd; [|exact rich_added].
  change (in_u 64 2). unfold in_u. lia.
Qed.

Lemma rich_base_empty : Store.mempool rich_base = ∅.
Proof. reflexivity. Qed.


Lemma rich_pending n : pending rich_store rich_sender n → n = 0.
Proof.
  intros (hash & m & Hl & _ & <-).
  assert (m ∈ (snd <$> map_to_list (Store.mempool rich_store))) as Hm.
  { apply list_elem_of_fmap. exists (hash, m). by rewrite elem_of_map_to_list. }
  change (snd <$> map_to_list (Store.mempool rich_store))
    with [MempoolTransaction.new 5 (pay_tx 0) rich_sender] in Hm.
  apply list_elem_of_singleton in Hm as ->. reflexivity.
Qed.

Lemma rich_is_pending : pending rich_store rich_sender 0.
Proof.
  exists (Transaction.compute_hash (pay_tx 0)), (MempoolTransaction.new 5 (pay_tx 0) rich_sender).
  split; [vm_compute; reflexivity|]. split; reflexivity.
Qed.

Example get_nonce_next_witness :
  get_nonce rich_sender rich_store = (Ok (Some 1), rich_store).
Proof.
  destruct (get_nonce_next rich_store rich_sender) as (o & Ho & Hspec).
  { intros n ->%rich_pending. lia. }
  destruct o as [next|].
  - destruct Hspec as [Hp%rich_pending _]. rewrite Ho. repeat f_equal. lia.
  - exfalso. exact (Hspec 0 rich_is_pending).
Defined.

(** A call with calldata and an access list. *)
Definition gas_tx : Transaction := EIP2930Transaction {|
  EIP2930Transaction.chain_id := 1; EIP2930Transaction.nonce := 0;
  EIP2930Transaction.gas_price := 10; EIP2930Transaction.gas_limit := 100000;
  EIP2930Transaction.to := Call (replicate 20 0x11); EIP2930Transaction.value := 0;
  EIP2930Transaction.data := [0; 7; 0; 9];
  EIP2930Transaction.access_list := [(replicate 20 0x11, [replicate 32 1; replicate 32 2])];
  EIP2930Transaction.signature_y_parity := true;
  EIP2930Transaction.signature_r := 3; EIP2930Transaction.signature_s := 5;
|}.

Definition gas_vm : VM := {|
  LevmState.call_frames := []; LevmState.env := demo_env 100000;
  LevmState.accrued_substate := demo_substate; LevmState.db := demo_db [];
  LevmState.cache := ∅; LevmState.tx_kind := LevmState.Call 0x11;
  LevmState.access_list := [(0x11, [1; 2])] |}.

Example mempool_gas_is_levm_gas_witness :
  transaction_intrinsic_gas gas_tx (demo_link (replicate 32 0) 0 1000) pay_config = Ok 27240.
Proof.
  exact (mempool_gas_is_levm_gas gas_vm gas_tx (demo_link (replicate 32 0) 0 1000) pay_config 27240
    eq_refl (λ _, eq_refl) eq_refl eq_refl eq_refl).
Defined.
