(* ===== verification/PayloadImport.v ===== *)
(** * Built payloads are valid blocks

    A payload that is created on a stored block and built there is accepted by
    [add_block]: the header follows its parent by the rules, executing the block
    gives the receipts and the gas that the builder recorded, and applying the
    updates gives its state root, whatever the order in which the machine lists
    them. *)

From stdpp Require Import base option list numbers strings gmap sorting.
From S2P Require Import Prelude Rlp RlpProofs LevmHost TrieNode Trie TrieLogic TrieMap TrieCorrect.
From S2P Require Import TrieHashed Tx BlockTypes Chain ChainProofs Store StoreLogic Blockchain.
From S2P Require Import BlockImport WorldState Mempool MempoolProofs Vm Payload PayloadQueue.
From S2P Require Import PayloadProofs.

Local Open Scope Z_scope.

(** ** The root of a state *)

Section roots.
Context `{CryptoLaws}.

Lemma trie_open_inj (d d' : InMemoryTrieDB) (r r' : list Z) (M : gmap (list Z) (list Z)) :
  trie_ok (trie_open d r) M → trie_ok (trie_open d' r') M → r = r'.
Proof.
  intros Ht Ht'. pose proof (trie_ok_canonical _ _ _ Ht Ht') as E.
  unfold trie_open in E. cbn [root] in E. repeat case_decide; congruence.
Qed.

Lemma account_rep_unique (d d' : InMemoryTrieDB) (a a' : AccountState.t) (w : WorldAccount) :
  account_rep d a w → account_rep d' a' w → a = a'.
Proof.
  intros [_ En Eb Ec [_ Hs]] [_ En' Eb' Ec' [_ Hs']].
  pose proof (trie_open_inj _ _ _ _ _ Hs Hs') as Er. destruct a, a'; cbn in *. congruence.
Qed.

(** The root is determined by the accounts. *)
Lemma world_root_unique (s s' : Store.t) (root root' : list Z) (W : World) :
  world_at s root W → world_at s' root' W → root = root'.
Proof.
  intros (A & Ht & _ & HA) (A' & Ht' & _ & HA').
  assert (A = A') as <-; [|by eapply trie_open_inj].
  apply map_eq. intros h. specialize (HA h). specialize (HA' h).
  destruct HA as [a w Ha|]; inversion HA' as [a' w' Ha' E1 E2|]; [|done].
  f_equal. by eapply account_rep_unique.
Qed.
End roots.

(** ** The order of the updates *)

(** A fold over elements with different keys, whose steps commute. *)
Lemma foldl_perm {A B K} (f : B → A → B) (key : A → K) :
  (∀ b x y, key x ≠ key y → f (f b x) y = f (f b y) x) →
  ∀ l l', l ≡ₚ l' → NoDup (key <$> l) → ∀ b, foldl f b l = foldl f b l'.
Proof.
  intros Hf l l'. induction 1 as [|x l l' _ IH|x y l|l l' l'' Hp IH _ IH']; intros Hn b; cbn in *.
  - done.
  - apply NoDup_cons in Hn as [_ Hn]. by apply IH.
  - apply NoDup_cons in Hn as [Hx _]. rewrite Hf; [done|]. set_solver.
  - rewrite IH by done. apply IH'. by rewrite <-Hp.
Qed.

Section updates.
Context `{CryptoLaws}.

(** Updates that agree but for the order of the slots, and lists of them that
    agree but for their order. *)
Record update_equiv (u u' : AccountUpdate.t) : Prop := {
  ue_address : AccountUpdate.address u = AccountUpdate.address u';
  ue_removed : AccountUpdate.removed u = AccountUpdate.removed u';
  ue_info : AccountUpdate.info u = AccountUpdate.info u';
  ue_code : AccountUpdate.code u = AccountUpdate.code u';
  ue_storage : AccountUpdate.added_storage u ≡ₚ AccountUpdate.added_storage u';
}.
Definition updates_equiv (us us' : list AccountUpdate.t) : Prop :=
  ∃ l, us ≡ₚ l ∧ Forall2 update_equiv l us'.

Definition update_key (u : AccountUpdate.t) : list Z := Store.hash_address (AccountUpdate.address u).
Definition slot_key (kv : list Z * Z) : list Z := Store.hash_key kv.1.

(** No two updates are for one account, and no two slots for one key. *)
Definition updates_apart (us : list AccountUpdate.t) : Prop :=
  NoDup (update_key <$> us) ∧
  Forall (λ u, NoDup (slot_key <$> AccountUpdate.added_storage u)) us.

Lemma write_slot_comm (S : gmap (list Z) Z) kv kv' :
  slot_key kv ≠ slot_key kv' →
  write_slot (write_slot S kv) kv' = write_slot (write_slot S kv') kv.
Proof.
  unfold slot_key, write_slot. intros Hk. destruct (kv.2 =? 0), (kv'.2 =? 0).
  - apply delete_delete.
  - by rewrite delete_insert_ne.
  - by rewrite delete_insert_ne.
  - by apply insert_insert_ne.
Qed.

Lemma update_world_comm (W : World) u u' :
  update_key u ≠ update_key u' →
  update_world (update_world W u) u' = update_world (update_world W u') u.
Proof.
  unfold update_key, update_world. intros Hk.
  destruct (AccountUpdate.removed u), (AccountUpdate.removed u').
  - apply delete_delete.
  - rewrite lookup_delete_ne by done. by rewrite delete_insert_ne.
  - rewrite lookup_delete_ne by done. by rewrite delete_insert_ne.
  - rewrite !lookup_insert_ne by done. by apply insert_insert_ne.
Qed.

Lemma update_world_equiv (W : World) u u' :
  NoDup (slot_key <$> AccountUpdate.added_storage u) → update_equiv u u' →
  update_world W u = update_world W u'.
Proof.
  intros Hn [Ea Er Ei _ Es]. unfold update_world, updated. rewrite Ea, Er, Ei.
  destruct (AccountUpdate.removed u'); [done|]. f_equal. f_equal.
  apply (foldl_perm write_slot slot_key write_slot_comm); done.
Qed.

(** The accounts after the updates do not depend on the order. *)
Lemma updates_equiv_world (us us' : list AccountUpdate.t) (W : World) :
  updates_apart us → updates_equiv us us' →
  foldl update_world W us = foldl update_world W us'.
Proof.
  intros [Hn Hs] (l & Hp & Hf). rewrite (foldl_perm update_world update_key update_world_comm us l Hp Hn).
  rewrite Hp in Hs. clear Hp Hn. revert W. induction Hf as [|u u' l us' Hu _ IH]; intros W; [done|].
  apply Forall_cons in Hs as [Hu1 Hs]. cbn [foldl].
  rewrite (update_world_equiv W u u' Hu1 Hu). by apply IH.
Qed.
End updates.

Section transitions.
Context `{Crypto} `{Secp256k1} `{EthBloom} `{BuildProfile} `{Revm}.

Lemma changed_slots_perm l l' : l ≡ₚ l' → changed_slots l ≡ₚ changed_slots l'.
Proof. unfold changed_slots. by intros ->. Qed.

Lemma update_of_equiv (a b : list Z * BundleAccount) :
  bundle_account_equiv a b →
  option_Forall2 update_equiv (update_of a.1 a.2) (update_of b.1 b.2).
Proof.
  intros [Ea En Ed Ei Ec Ek Es]. unfold update_of. rewrite Ea, En, Ed, Ei, Ec, Ek.
  destruct (ba_not_modified b.2); [constructor|].
  destruct (ba_destroyed b.2); [by repeat constructor|].
  destruct (match ba_account_info b.2 with Some _ => _ | None => _ end); [constructor|].
  constructor. split; try done. by apply changed_slots_perm.
Qed.

(** Equivalent bundles give equivalent updates. *)
Lemma transitions_equiv (e e' : RevmState) :
  bundle_equiv (take_bundle e) (take_bundle e') →
  updates_equiv (get_state_transitions e) (get_state_transitions e').
Proof.
  intros (b & Hp & Hf). unfold get_state_transitions.
  exists (omap (λ '(address, account), update_of address account) b). split; [by rewrite Hp|].
  clear Hp. induction Hf as [|[a x] [a' x'] b b' Hx _ IH]; [constructor|].
  apply update_of_equiv in Hx. cbn [fst snd] in Hx. cbn [omap list_omap].
  destruct Hx; [by constructor|done].
Qed.
End transitions.

(** ** Codes *)

Section codes.
Context `{Crypto}.

Definition info_code_hash (info : AccountInfo.t) : list Z := AccountInfo.code_hash info.

(** The update writes this code. *)
Definition writes_code (u : AccountUpdate.t) (hash code : list Z) : Prop :=
  ∃ info, AccountUpdate.info u = Some info ∧ info_code_hash info = hash ∧
    AccountUpdate.code u = Some code.

(** The codes after a computation: those before it, or those of updates. *)
Definition codes_from (us : list AccountUpdate.t) (s s' : Store.t) : Prop :=
  ∀ hash, codes s' !! hash = codes s !! hash ∨
    ∃ u code, u ∈ us ∧ writes_code u hash code ∧ codes s' !! hash = Some code.

Lemma codes_from_refl us s s' : codes s' = codes s → codes_from us s s'.
Proof. intros E hash. left. by rewrite E. Qed.

Lemma codes_from_trans us s s1 s2 : codes_from us s s1 → codes_from us s1 s2 → codes_from us s s2.
Proof.
  intros Hs Hs' hash. destruct (Hs' hash) as [E|?]; [|by right]. rewrite E. apply Hs.
Qed.

Definition writes_codes {E A} (us : list AccountUpdate.t) (m : StateT Store.t E A) : Prop :=
  ∀ s, codes_from us s (m s).2.

Lemma writes_codes_bind {E A B} us (m : StateT Store.t E A) (f : A → StateT Store.t E B) :
  writes_codes us m → (∀ a, writes_codes us (f a)) → writes_codes us (m ≫= f).
Proof.
  intros Hm Hf s. unfold mbind, state_bind. specialize (Hm s).
  destruct (m s) as [[a|e| |] s']; cbn in *; [|done..].
  eapply codes_from_trans; [done|]. apply Hf.
Qed.

Lemma writes_codes_read_only {E A} us (m : StateT Store.t E A) : read_only m → writes_codes us m.
Proof. intros Hm s. rewrite Hm. by apply codes_from_refl. Qed.

Lemma writes_update_info us u a : u ∈ us → writes_codes us (Store.update_info u a).
Proof.
  intros Hu. unfold Store.update_info. destruct (AccountUpdate.info u) as [info|] eqn:Ei;
    [|by apply writes_codes_read_only; read_only].
  apply writes_codes_bind; [|by intros; apply writes_codes_read_only; read_only].
  destruct (AccountUpdate.code u) as [code|] eqn:Ec; [|by apply writes_codes_read_only; read_only].
  intros s hash. unfold codes. cbn.
  change (AccountInfo.code_hash info) with (info_code_hash info).
  destruct (decide (info_code_hash info = hash)) as [<-|Hne].
  - right. exists u, code. rewrite lookup_insert_eq. split; [done|]. split; [|done]. by exists info.
  - left. by rewrite lookup_insert_ne.
Qed.

Lemma writes_update_storage_root us h u a : writes_codes us (Store.update_storage_root h u a).
Proof.
  unfold Store.update_storage_root. destruct (AccountUpdate.added_storage u);
    [by apply writes_codes_read_only; read_only|].
  apply writes_codes_bind; [by intros s; apply codes_from_refl|intros t].
  apply writes_codes_bind; [apply writes_codes_read_only; read_only|intros t'].
  apply writes_codes_bind; [|by intros; apply writes_codes_read_only; read_only].
  unfold Store.commit_storage_trie. destruct (trie_hash t') as [r t2].
  intros s. apply codes_from_refl. by destruct r.
Qed.

Lemma writes_apply_account_update us u t :
  u ∈ us → writes_codes us (Store.apply_account_update u t).
Proof.
  intros Hu. unfold Store.apply_account_update. destruct (AccountUpdate.removed u).
  - destruct (trie_remove _ t). apply writes_codes_read_only. read_only.
  - apply writes_codes_bind; [apply writes_codes_read_only; read_only|intros c].
    apply writes_codes_bind; [by apply writes_update_info|intros a].
    apply writes_codes_bind; [apply writes_update_storage_root|intros a'].
    destruct (trie_insert _ _ t). apply writes_codes_read_only. read_only.
Qed.

Lemma writes_apply_updates us us' : us' ⊆ us → ∀ t, writes_codes us (Store.apply_updates us' t).
Proof.
  induction us' as [|u us' IH]; intros Hsub t; [by intros s; apply codes_from_refl|].
  apply writes_codes_bind; [apply writes_apply_account_update; set_solver|intros t'].
  apply IH. set_solver.
Qed.

Lemma apply_account_updates_codes block_hash us s :
  codes_from us s (Store.apply_account_updates block_hash us s).2.
Proof.
  revert s. change (writes_codes us (Store.apply_account_updates block_hash us)).
  unfold Store.apply_account_updates.
  apply writes_codes_bind; [apply writes_codes_read_only; read_only|]. intros [t|];
    [|by intros s; apply codes_from_refl].
  apply writes_codes_bind; [by apply writes_apply_updates|intros t'].
  apply writes_codes_bind; [|by intros root s; apply codes_from_refl].
  unfold Store.commit_state_trie. destruct (trie_hash t') as [r t2].
  intros s. apply codes_from_refl. by destruct r.
Qed.
End codes.

(** ** The database of the machine *)

Section database.
Context `{CryptoLaws} `{Secp256k1} `{EthBloom} `{BuildProfile}.

(** A code that is written under the hash of an account is the one it has. *)
Definition codes_agree (s : Store.t) (W : World) (us : list AccountUpdate.t) : Prop :=
  ∀ u hash code, u ∈ us → writes_code u hash code →
    ∀ h w, W !! h = Some w → w_code_hash w = hash → codes s !! hash = Some code.

Lemma codes_kept (s s2 : Store.t) (W : World) us h w :
  codes_agree s W us → codes_from us s s2 → W !! h = Some w →
  codes s2 !! w_code_hash w = codes s !! w_code_hash w.
Proof.
  intros Hagree Hfrom Hw. destruct (Hfrom (w_code_hash w)) as [?|(u & code & Hu & Hwr & E)]; [done|].
  rewrite E. symmetry. by eapply Hagree.
Qed.

(** A store that keeps the blocks and a state answers as before about it. *)
Lemma database_kept (s s2 : Store.t) (block_hash : list Z) (header : BlockHeader.t)
    (us : list AccountUpdate.t) (W : World) :
  headers (Store.engine s) !! block_hash = Some header →
  headers (Store.engine s2) = headers (Store.engine s) →
  canonical_hashes (Store.engine s2) = canonical_hashes (Store.engine s) →
  world_at s (BlockHeader.state_root header) W → world_at s2 (BlockHeader.state_root header) W →
  codes_agree s W us → codes_from us s s2 →
  database_equiv (StoreWrapper s block_hash) (StoreWrapper s2 block_hash).
Proof.
  intros Hh Eh Ec HW HW2 Hagree Hfrom.
  pose proof (world_reads s block_hash header W Hh HW) as Hr.
  assert (headers (Store.engine s2) !! block_hash = Some header) as Hh2 by by rewrite Eh.
  pose proof (world_reads s2 block_hash header W Hh2 HW2) as Hr2.
  split; cbn [StoreWrapper basic storage block_hash_of code_by_hash].
  - intros address. unfold wrapper_basic. rewrite (proj1 (Hr address)), (proj1 (Hr2 address)).
    cbn [mbind outcome_bind]. destruct (W !! Store.hash_address address) as [w|] eqn:Ew; [|done].
    cbn [fmap option_fmap option_map]. rewrite !get_account_code_run.
    unfold info_of. cbn [AccountInfo.code_hash]. by rewrite (codes_kept s s2 W us _ w Hagree Hfrom Ew).
  - intros address index. unfold wrapper_storage.
    by rewrite (proj2 (Hr address)), (proj2 (Hr2 address)).
  - intros number. unfold wrapper_block_hash. rewrite !get_block_header_run. by rewrite Eh, Ec.
  - intros address info. unfold wrapper_basic. rewrite (proj1 (Hr address)).
    cbn [mbind outcome_bind]. destruct (W !! Store.hash_address address) as [w|] eqn:Ew; [|done].
    cbn [fmap option_fmap option_map]. rewrite get_account_code_run. cbn [mbind outcome_bind].
    intros [= <-]. cbn [ri_code_hash]. unfold wrapper_code_by_hash, info_of. cbn [AccountInfo.code_hash]. rewrite !get_account_code_run.
    by rewrite (codes_kept s s2 W us _ w Hagree Hfrom Ew).
Qed.
End database.

(** ** Blocks that pass every check *)

Section accepting.
Context `{Crypto} `{EthBloom} `{BuildProfile} `{Execution}.

Definition total_difficulty_of (s : Store.t) : Z :=
  default 0 (ChainData.latest_total_difficulty (chain_data (Store.engine s))).

Lemma store_block_ok block s :
  in_u 256 (total_difficulty_of s + BlockHeader.difficulty (Block.header block)) →
  ∃ s', store_block block s = (Ok tt, s').
Proof.
  intros Htd. unfold store_block, chain_store.
  destruct (store_add_block_cases block s) as [Hp|(s' & Hr & _)].
  - exfalso. revert Hp. unfold Store.add_block, Store.get_latest_total_difficulty,
      Engine.get_latest_total_difficulty.
    rewrite (bind_run _ _ _ _ _ (on_engine_gets _ s)). unfold Store.u256_add.
    unfold total_difficulty_of in Htd. by rewrite checked_add_in.
  - exists s'. by apply map_err_run_ok.
Qed.

Lemma accepted_add_block block parent rs us s :
  accepted block parent rs us s →
  in_u 256 (total_difficulty_of s + BlockHeader.difficulty (Block.header block)) →
  (add_block block s).1 = Ok tt.
Proof.
  intros [Hst Hval Hex Hgas Hroot Hrr] Htd. unfold add_block.
  pose proof (parent_or_pending_run block s) as Hp. rewrite Hst in Hp.
  rewrite (bind_run _ _ _ _ _ Hp). clear Hp.
  assert (validate_block block parent s = (Ok tt, s)) as Hv
    by (rewrite read_only_run by apply validate_block_read_only; by rewrite Hval).
  rewrite (bind_run _ _ _ _ _ Hv). erewrite bind_run.
  2: { unfold run_block. rewrite Hex. reflexivity. }
  cbv beta iota. erewrite bind_run.
  2: { unfold state_lift, validate_gas_used. destruct (last rs) as [r|]; [|reflexivity].
    rewrite (Hgas r eq_refl), Z.eqb_refl. reflexivity. }
  pose proof (keeps_apply_account_updates (BlockHeader.parent_hash (Block.header block)) us s) as Hk.
  destruct (Store.apply_account_updates _ us s) as [r s1] eqn:Happ. cbn [fst snd] in *. subst r.
  erewrite bind_run by (unfold chain_store; apply map_err_run_ok, Happ).
  erewrite bind_run by reflexivity. erewrite bind_run.
  2: { unfold state_lift, validate_state_root. rewrite (proj2 (bytes_eqb_spec _ _) eq_refl). reflexivity. }
  erewrite bind_run.
  2: { unfold state_lift, validate_receipts_root. rewrite Hrr. cbn [root_or_panic mbind outcome_bind].
    rewrite (proj2 (bytes_eqb_spec _ _) eq_refl). reflexivity. }
  destruct (store_block_ok block s1) as [s2 Hs2].
  { apply block_part_stored, stored_part_fields in Hk as (_ & _ & _ & _ & Ec).
    unfold total_difficulty_of in *. by rewrite Ec. }
  rewrite (bind_run _ _ _ _ _ Hs2). unfold store_receipts, chain_store.
  by erewrite map_err_run_ok by apply on_engine_modify.
Qed.
End accepting.

(** ** The pool does not matter to the state *)

(** The same engine with another pool. *)
Definition with_pool (p s : Store.t) : Store.t := {|
  Store.engine := Store.engine s; Store.mempool := Store.mempool p;
  Store.blobs_bundle_pool := Store.blobs_bundle_pool p |}.

Definition pool_free {E A} (m : StateT Store.t E A) : Prop :=
  ∀ p s, m (with_pool p s) = ((m s).1, with_pool p (m s).2).

Lemma pool_free_bind {E A B} (m : StateT Store.t E A) (f : A → StateT Store.t E B) :
  pool_free m → (∀ a, pool_free (f a)) → pool_free (m ≫= f).
Proof.
  intros Hm Hf p s. unfold mbind, state_bind. rewrite Hm.
  destruct (m s) as [[a|e| |] s']; cbn; [apply Hf|done..].
Qed.

Lemma pool_free_on_engine {A} (m : EngineM A) : pool_free (Store.on_engine m).
Proof.
  intros p s. unfold Store.on_engine. cbn [Store.engine with_pool].
  by destruct (m (Store.engine s)).
Qed.

Lemma pool_free_lift {E A} (m : Outcome E A) : pool_free (state_lift m : StateT Store.t E A).
Proof. done. Qed.

Section pool.
Context `{Crypto}.

Lemma pool_free_account_in t address : pool_free (Store.account_in t address).
Proof.
  unfold Store.account_in. apply pool_free_bind; [apply pool_free_lift|]. intros [rlp|]; [|done].
  apply pool_free_bind; [apply pool_free_lift|done].
Qed.

Lemma pool_free_update_info u a : pool_free (Store.update_info u a).
Proof.
  unfold Store.update_info. destruct (AccountUpdate.info u); [|done].
  apply pool_free_bind; [|done]. destruct (AccountUpdate.code u); [apply pool_free_on_engine|done].
Qed.

Lemma pool_free_update_storage_root h u a : pool_free (Store.update_storage_root h u a).
Proof.
  unfold Store.update_storage_root. destruct (AccountUpdate.added_storage u); [done|].
  apply pool_free_bind; [apply pool_free_on_engine|intros t].
  apply pool_free_bind; [apply pool_free_lift|intros t'].
  apply pool_free_bind; [|done]. unfold Store.commit_storage_trie. destruct (trie_hash t').
  apply pool_free_bind; [apply pool_free_on_engine|done].
Qed.

Lemma pool_free_apply_account_update u t : pool_free (Store.apply_account_update u t).
Proof.
  unfold Store.apply_account_update. destruct (AccountUpdate.removed u).
  - destruct (trie_remove _ t). apply pool_free_bind; [apply pool_free_lift|done].
  - apply pool_free_bind; [apply pool_free_account_in|intros c].
    apply pool_free_bind; [apply pool_free_update_info|intros a].
    apply pool_free_bind; [apply pool_free_update_storage_root|intros a'].
    destruct (trie_insert _ _ t). apply pool_free_bind; [apply pool_free_lift|done].
Qed.

Lemma with_pool_engine s s' : Store.engine s' = Store.engine s → s' = with_pool s' s.
Proof. destruct s'. cbn. by intros ->. Qed.
End pool.

Lemma safe_updates_pool `{CryptoLaws} p us : ∀ t s, safe_updates us t s → safe_updates us t (with_pool p s).
Proof.
  induction us as [|u us IH]; intros t s; [done|]. intros [[Hc Hs] Hnext]. cbn [safe_updates]. split.
  - split; [done|]. destruct (AccountUpdate.removed u); [done|]. intros o Ho.
    apply (Hs o). pose proof (pool_free_account_in t (AccountUpdate.address u) p s) as Hp.
    rewrite Ho in Hp. injection Hp as E _.
    assert (read_only (Store.account_in t (AccountUpdate.address u))) as Hro
      by (unfold Store.account_in; read_only).
    rewrite (read_only_run _ s Hro). by rewrite <-E.
  - intros t' s' Hrun. rewrite pool_free_apply_account_update in Hrun.
    destruct (Store.apply_account_update u t s) as [r s1] eqn:E. cbn [fst snd] in Hrun.
    injection Hrun as -> <-. apply IH. by apply Hnext.
Qed.

(** ** The header of a payload *)

Section created.
Context `{Crypto} `{EthBloom} `{BuildProfile}.

(** The limit goes down to 5000 and never up. *)
Lemma calc_gas_limit_spec {E} gas_limit desired :
  MIN_GAS_LIMIT ≤ gas_limit < 2 ^ 64 → MIN_GAS_LIMIT ≤ desired →
  calc_gas_limit (E := E) gas_limit desired = Ok (Z.max MIN_GAS_LIMIT (gas_limit - gas_limit / 1024 + 1)).
Proof.
  unfold MIN_GAS_LIMIT. intros Hg Hd. unfold calc_gas_limit, GAS_LIMIT_BOUND_DIVISOR, MIN_GAS_LIMIT, u_sub.
  assert (1 ≤ gas_limit / 1024 ≤ gas_limit) by (Z.to_euclidean_division_equations; lia).
  rewrite (in_width_fits _ (gas_limit / 1024 - 1)) by (unfold in_u; lia). cbn [mbind outcome_bind].
  rewrite (Z.min_r desired 5000) by lia. repeat case_match; propify; try lia.
  - rewrite in_width_fits by (unfold in_u; lia). cbn [mbind outcome_bind]. f_equal. case_match; propify; lia.
  - f_equal. Z.to_euclidean_division_equations. lia.
Qed.

Lemma calc_gas_limit_ok parent :
  MIN_GAS_LIMIT ≤ parent → gas_limit_ok (Z.max MIN_GAS_LIMIT (parent - parent / 1024 + 1)) parent.
Proof.
  unfold MIN_GAS_LIMIT, gas_limit_ok. intros Hp. Z.to_euclidean_division_equations. lia.
Qed.

(** What makes a block a parent on which a payload can be created: it is known
    under its hash, its numbers fit, it has a base fee, and the arguments are
    those of a later block after the Cancun fork. *)
Record payload_ready (args : BuildPayloadArgs.t) (parent : BlockHeader.t)
    (config : ChainConfig.t) : Prop := {
  pr_hash : BuildPayloadArgs.parent args = compute_block_hash parent;
  pr_fits : parent_fits parent;
  pr_limit : MIN_GAS_LIMIT ≤ BlockHeader.gas_limit parent;
  pr_base_fee : is_Some (BlockHeader.base_fee_per_gas parent);
  pr_number : 0 ≤ BlockHeader.number parent;
  pr_time : BlockHeader.timestamp parent < BuildPayloadArgs.timestamp args;
  pr_cancun : ChainConfig.is_cancun_activated config (BuildPayloadArgs.timestamp args) = true;
  pr_beacon_root : is_Some (BuildPayloadArgs.beacon_root args);
}.

(** The fields of a header that the builder leaves as they were created. *)
Record created_on (args : BuildPayloadArgs.t) (parent h : BlockHeader.t) : Prop := {
  cr_parent : BlockHeader.parent_hash h = BuildPayloadArgs.parent args;
  cr_ommers : BlockHeader.ommers_hash h = DEFAULT_OMMERS_HASH;
  cr_difficulty : BlockHeader.difficulty h = 0;
  cr_number : BlockHeader.number h = BlockHeader.number parent + 1;
  cr_gas_limit : BlockHeader.gas_limit h =
    Z.max MIN_GAS_LIMIT (BlockHeader.gas_limit parent - BlockHeader.gas_limit parent / 1024 + 1);
  cr_timestamp : BlockHeader.timestamp h = BuildPayloadArgs.timestamp args;
  cr_extra_data : BlockHeader.extra_data h = [];
  cr_nonce : BlockHeader.nonce h = 0;
  cr_base_fee : BlockHeader.base_fee_per_gas h =
    Some (eip1559_base_fee (BlockHeader.gas_limit parent) (BlockHeader.gas_used parent)
      (default INITIAL_BASE_FEE (BlockHeader.base_fee_per_gas parent)));
  cr_excess : ∃ excess, BlockHeader.excess_blob_gas h = Some excess ∧
    Chain.calc_excess_blob_gas (E := InvalidBlockHeaderError) parent = Ok excess;
  cr_beacon_root : BlockHeader.parent_beacon_block_root h = BuildPayloadArgs.beacon_root args;
}.

(** The errors of an arithmetic operation do not matter to its result. *)
Lemma in_width_any {E1 E2} w x y : in_width (E := E1) w x = Ok y → in_width (E := E2) w x = Ok y.
Proof. unfold in_width. repeat case_match; congruence. Qed.

Lemma excess_agrees parent excess :
  Payload.calc_excess_blob_gas (E := ChainError) (default 0 (BlockHeader.excess_blob_gas parent))
    (default 0 (BlockHeader.blob_gas_used parent)) = Ok excess →
  Chain.calc_excess_blob_gas (E := InvalidBlockHeaderError) parent = Ok excess.
Proof.
  unfold Payload.calc_excess_blob_gas, Chain.calc_excess_blob_gas, TARGET_BLOB_GAS_PER_BLOCK, u_add, u_sub.
  intros Hc. apply bind_Ok in Hc as (g & Hg & Hc). rewrite (in_width_any _ _ _ Hg).
  cbn [mbind outcome_bind]. destruct (g <? 393216); [congruence|]. by apply (in_width_any (E1 := ChainError)).
Qed.

Lemma payload_on_created args parent config p :
  payload_ready args parent config → payload_on args parent config = Ok p →
  created_on args parent (Block.header p) ∧
  BlockHeader.blob_gas_used (Block.header p) = Some 0 ∧
  BlockBody.transactions (Block.body p) = [] ∧
  BlockBody.withdrawals (Block.body p) = BuildPayloadArgs.withdrawals args.
Proof.
  intros [Eh [Hf Hn] Hl [bf Hbf] Hnn Ht Hc Hb] Hp. unfold payload_on in Hp. cbv zeta in Hp.
  assert (BlockHeader.gas_limit parent < 2 ^ 64) as Hl' by apply Hf.
  rewrite calc_gas_limit_spec in Hp by (unfold DEFAULT_BUILDER_GAS_CEIL, MIN_GAS_LIMIT in *; lia).
  cbn [mbind outcome_bind] in Hp.
  apply bind_Ok in Hp as (tr & _ & Hp). apply bind_Ok in Hp as (rr & _ & Hp).
  pose proof (calc_gas_limit_ok _ Hl) as Hok. rewrite Hbf in *. cbn [default] in Hf, Hp.
  rewrite base_fee_spec in Hp by done. rewrite bool_decide_true in Hp by done.
  cbn [mbind outcome_bind] in Hp. apply bind_Ok in Hp as (wr & _ & Hp).
  apply bind_Ok in Hp as (excess & Hex & Hp). injection Hp as <-.
  unfold payload_block. rewrite Hc. split; [|done]. split; try done.
  - cbn. unfold saturating_add. unfold in_u in Hn. lia.
  - cbn. by rewrite Hbf.
  - exists excess. split; [done|]. by apply excess_agrees.
Qed.

Lemma count_blobs_ok txs : ∀ gas n,
  0 ≤ n → gas = n * GAS_PER_BLOB → n + blob_count txs ≤ MAX_BLOB_NUMBER_PER_BLOCK →
  count_blobs txs gas n = Ok ((n + blob_count txs) * GAS_PER_BLOB, n + blob_count txs).
Proof.
  induction txs as [|tx txs IH]; intros gas n Hn Hg Hmax.
  { cbn [count_blobs blob_count foldr]. subst gas. by rewrite Z.add_0_r. }
  assert (0 ≤ blob_count txs) as Hnn.
  { unfold blob_count. clear. induction txs as [|tx txs IH]; cbn [foldr]; [lia|].
    pose proof (len_nonneg (Transaction.blob_versioned_hashes tx)). lia. }
  pose proof (len_nonneg (Transaction.blob_versioned_hashes tx)) as Hl.
  change (blob_count (tx :: txs)) with
    (len (Transaction.blob_versioned_hashes tx) + blob_count txs) in *.
  unfold MAX_BLOB_NUMBER_PER_BLOCK, TARGET_BLOB_NUMBER_PER_BLOCK in *.
  destruct tx as [| | |t|]; cbn [count_blobs Transaction.blob_versioned_hashes] in *;
    rewrite ?len_nil, ?Z.add_0_l in *; try (by apply IH).
  unfold get_total_blob_gas, u_mul, u_add. unfold GAS_PER_BLOB in *.
  rewrite in_width_fits by (unfold in_u; lia). cbn [mbind outcome_bind].
  rewrite in_width_fits by (unfold in_u; lia). cbn [mbind outcome_bind].
  rewrite in_width_fits by (unfold in_u; lia). cbn [mbind outcome_bind].
  rewrite IH by lia. by rewrite Z.add_assoc.
Qed.

Lemma verify_blob_gas_ok block :
  blob_count (BlockBody.transactions (Block.body block)) ≤ MAX_BLOB_NUMBER_PER_BLOCK →
  BlockHeader.blob_gas_used (Block.header block) =
    Some (blob_count (BlockBody.transactions (Block.body block)) * GAS_PER_BLOB) →
  verify_blob_gas_usage block = Ok tt.
Proof.
  intros Hmax Hg. unfold verify_blob_gas_usage. rewrite count_blobs_ok by (done || lia).
  cbn [mbind outcome_bind]. rewrite Hg, !Z.add_0_l, Z.eqb_refl.
  unfold MAX_BLOB_GAS_PER_BLOCK, GAS_PER_BLOB.
  rewrite (proj2 (Z.ltb_ge _ _)) by lia. cbn [reject_if mbind outcome_bind].
  by rewrite (proj2 (Z.ltb_ge _ _)) by lia.
Qed.

Lemma created_child args parent config h :
  payload_ready args parent config → created_on args parent h →
  BlockHeader.gas_used h ≤ BlockHeader.gas_limit h → valid_child h parent.
Proof.
  intros [Eh _ Hl _ _ Ht _ _] [Ep Eo Ed En Eg Et Ex Enn Ef _ _] Hu.
  split; try done; rewrite ?Eg, ?Ef, ?Et, ?Ex, ?Ep; try done.
  by apply calc_gas_limit_ok.
Qed.

Lemma created_validates args parent config block s :
  config_of s = Some config →
  payload_ready args parent config → created_on args parent (Block.header block) →
  BlockHeader.gas_used (Block.header block) ≤ BlockHeader.gas_limit (Block.header block) →
  blob_count (BlockBody.transactions (Block.body block)) ≤ MAX_BLOB_NUMBER_PER_BLOCK →
  BlockHeader.blob_gas_used (Block.header block) =
    Some (blob_count (BlockBody.transactions (Block.body block)) * GAS_PER_BLOB) →
  (validate_block block parent s).1 = Ok tt.
Proof.
  intros Hconf Hready Hcr Hu Hmax Hg. unfold validate_block.
  erewrite bind_run; [|apply map_err_run_ok; unfold Store.get_chain_config, Store.on_engine,
    Engine.get_chain_config; unfold config_of in Hconf; rewrite Hconf; reflexivity].
  pose proof (created_child _ _ _ _ Hready Hcr Hu) as Hchild.
  destruct (validate_block_header_cases (Block.header block) parent (pr_fits _ _ _ Hready))
    as [[Hv _]|[_ Hn]]; [|done].
  erewrite bind_run by (unfold state_lift; rewrite Hv; reflexivity).
  destruct Hready as [_ _ _ _ _ _ Hcan [root Hroot]].
  destruct Hcr as [_ _ _ _ _ Et _ _ _ (excess & Hex & Hcalc) Eb].
  unfold spec_id, get_fork. rewrite Et, Hcan. unfold state_lift. cbn [fst].
  unfold validate_cancun_header_fields. rewrite Hex, Hg, Hcalc. cbn [mbind outcome_bind].
  rewrite Z.eqb_refl. cbn [negb reject_if mbind outcome_bind]. rewrite Eb, Hroot.
  cbn [map_err mbind outcome_bind]. by apply verify_blob_gas_ok.
Qed.
End created.

(** ** Building and importing *)

Section building.
Context `{CryptoLaws} `{Secp256k1} `{EthBloom} `{BuildProfile} `{Revm} `{!RevmLaws}.
Context `{HashMapIter} `{BinarySearch} `{!BinarySearchLaws}.
Implicit Types (c : PayloadBuildContext).

(** The system call at the start of a block. *)
Definition system_part (config : ChainConfig.t) (h : BlockHeader.t) : StateT RevmState EvmError unit :=
  if wants_beacon_root h (spec_of config h)
  then _ ← beacon_root_contract_call h (spec_of config h); mret tt
  else mret tt.

Lemma system_part_respects config h : respects (system_part config h).
Proof.
  unfold system_part. destruct (wants_beacon_root _ _); [|apply respects_ret].
  apply respects_bind; [apply system_call_respects|intros; apply respects_ret].
Qed.

(** Withdrawals of nothing. *)
Definition no_withdrawals (withdrawals : option (list Withdrawal.t)) : Prop :=
  Forall (λ w, Withdrawal.amount w ≤ 0) (default [] withdrawals).

Lemma no_withdrawals_run ws (e : RevmState) :
  Forall (λ w, Withdrawal.amount w ≤ 0) ws → ∃ e', process_withdrawals ws e = (Ok tt, e') ∧ e' ≡ e.
Proof.
  intros Hws. unfold process_withdrawals.
  assert (List.filter (λ w, 0 <? Withdrawal.amount w) ws = []) as ->.
  { induction Hws as [|w ws Hw _ IH]; cbn; [done|]. by rewrite (proj2 (Z.ltb_ge _ _) Hw). }
  cbn [fmap list_fmap]. destruct (no_increments e) as [Hr He].
  destruct (increment_balances [] e) as [r e']. cbn in *. subst. eauto.
Qed.

Lemma in_evm_inv {A} (m : StateT RevmState EvmError A) c a c' :
  in_evm m c = (Ok a, c') → ∃ e, m (evm_state c) = (Ok a, e) ∧ c' = set_evm_state e c.
Proof.
  unfold in_evm, state_map_err. destruct (m (evm_state c)) as [[] e]; cbn; try done.
  intros [= -> <-]. eauto.
Qed.

Lemma set_evm_state_twice e e' c : set_evm_state e (set_evm_state e' c) = set_evm_state e c.
Proof. done. Qed.

Lemma set_evm_state_id c : set_evm_state (evm_state c) c = c.
Proof. by destruct c. Qed.

Lemma apply_withdrawals_inv config c c' :
  config_of (store c) = Some config →
  no_withdrawals (BlockBody.withdrawals (Block.body (payload c))) →
  apply_withdrawals c = (Ok tt, c') →
  ∃ e e', system_part config (header c) (evm_state c) = (Ok tt, e) ∧
    c' = set_evm_state e' c ∧ e' ≡ e.
Proof.
  intros Hc Hws. unfold apply_withdrawals.
  rewrite (bind_run _ _ _ _ _ (chain_config_run c config Hc)). erewrite bind_run by reflexivity.
  change (spec_id config (BlockHeader.timestamp (header c))) with (spec_of config (header c)).
  intros Hrun. apply bind_Ok_inv in Hrun as ([] & c1 & Hsys & Hrun).
  assert (∃ e, system_part config (header c) (evm_state c) = (Ok tt, e) ∧ c1 = set_evm_state e c)
    as (e & He & ->).
  { unfold system_part. destruct (wants_beacon_root _ _).
    - apply bind_Ok_inv in Hsys as (result & c2 & Hcall & Hret). injection Hret as <-.
      apply in_evm_inv in Hcall as (e & Hcall & ->). exists e. split; [|done].
      by rewrite (bind_run _ _ _ _ _ Hcall).
    - injection Hsys as <-. exists (evm_state c). split; [done|]. by rewrite set_evm_state_id. }
  erewrite bind_run in Hrun by reflexivity. cbn [payload set_evm_state] in Hrun.
  apply in_evm_inv in Hrun as (e' & Hw & ->). cbn [evm_state set_evm_state] in Hw.
  destruct (no_withdrawals_run _ e Hws) as (e2 & Hrun2 & He2).
  unfold state_map_err in Hw. rewrite Hrun2 in Hw. injection Hw as <-.
  exists e, e2. by rewrite set_evm_state_twice.
Qed.

Lemma finalize_inv c c' :
  finalize_payload c = (Ok tt, c') →
  ∃ root s' tr rr gas,
    Store.apply_account_updates (parent_hash c) (get_state_transitions (evm_state c)) (store c) =
      (Ok root, s') ∧
    compute_receipts_root (receipts c) = Ok rr ∧
    u_sub (E := ChainError) 64 (gas_limit_of c) (remaining_gas c) = Ok gas ∧
    c' = finish_header (default (replicate 32 0) root) tr rr gas (set_store s' c).
Proof.
  unfold finalize_payload. do 2 (erewrite bind_run by reflexivity). intros Hrun.
  apply bind_Ok_inv in Hrun as (root & c1 & Happ & Hrun).
  unfold in_store, chain_store, state_map_err in Happ.
  destruct (Store.apply_account_updates _ _ (store c)) as [[root'| | |] s'] eqn:Hupd; try done.
  cbn in Happ. injection Happ as -> <-.
  erewrite bind_run in Hrun by reflexivity.
  apply bind_Ok_inv in Hrun as (tr & c2 & Htr & Hrun). injection Htr as Htr <-.
  erewrite bind_run in Hrun by reflexivity.
  apply bind_Ok_inv in Hrun as (rr & c3 & Hrr & Hrun). injection Hrr as Hrr <-.
  do 2 (erewrite bind_run in Hrun by reflexivity).
  apply bind_Ok_inv in Hrun as (gas & c4 & Hgas & Hrun). injection Hgas as Hgas <-.
  injection Hrun as <-. exists root, s', tr, rr, gas. split_and!; try done.
  cbn [receipts set_store] in Hrr. by destruct (compute_receipts_root (receipts c)); cbn in Hrr; simplify_eq.
Qed.

(** The parts of a header that the machine sees. *)
Record same_view (h h' : BlockHeader.t) : Prop := {
  sv_env : block_env h' = block_env h;
  sv_time : BlockHeader.timestamp h' = BlockHeader.timestamp h;
  sv_beacon_root : BlockHeader.parent_beacon_block_root h' = BlockHeader.parent_beacon_block_root h;
}.

Lemma system_part_view config h h' e :
  same_view h h' → system_part config h' e = system_part config h e.
Proof.
  intros [Ee Et Eb]. unfold system_part, wants_beacon_root, beacon_root_contract_call,
    system_block_env, spec_of. by rewrite Ee, Et, Eb.
Qed.

(** Executing a block whose transactions the builder has run. *)
Lemma execute_block_run config block h e e1 e1' rs e2 :
  same_view h (Block.header block) → no_withdrawals (BlockBody.withdrawals (Block.body block)) →
  system_part config h e = (Ok tt, e1) → e1' ≡ e1 →
  executes config h (BlockBody.transactions (Block.body block)) 0 rs e1' e2 →
  ∀ e0, e0 ≡ e → ∃ e', execute_block_revm config block e0 = (Ok rs, e') ∧ e' ≡ e2.
Proof.
  intros Hview Hws Hsys He1 Hx e0 He0. symmetry in He0.
  destruct (respects_run _ _ _ _ _ (system_part_respects config h) He0 Hsys) as (e01 & Hsys0 & He01).
  unfold execute_block_revm. change (spec_id config (BlockHeader.timestamp (Block.header block)))
    with (spec_of config (Block.header block)).
  fold (system_part config (Block.header block)).
  rewrite (bind_run _ _ _ _ _ (eq_trans (system_part_view _ _ _ _ Hview) Hsys0)).
  destruct (Hx e01 []) as (e02 & Hrun & He02).
  { etrans; [symmetry; exact He01|by symmetry]. }
  erewrite bind_run.
  2: { rewrite (execute_txs_env config h _ _ _ _ _ _ (sv_env _ _ Hview)). unfold spec_of. rewrite (sv_time _ _ Hview).
    exact Hrun. }
  cbn [app]. destruct (BlockBody.withdrawals (Block.body block)) as [ws|].
  - destruct (no_withdrawals_run ws e02 Hws) as (e03 & Hw & He03).
    erewrite bind_run by (apply map_err_run_ok, Hw). exists e03. split; [done|]. by etrans.
  - exists e02. split; [|done]. by erewrite bind_run.
Qed.

(** What a payload that was built consists of. *)
Record built (args : BuildPayloadArgs.t) (parent : BlockHeader.t) (config : ChainConfig.t)
    (s : Store.t) (b : Block.t) (s' : Store.t) (e : RevmState) (rs : list Receipt.t) : Prop := {
  bu_created : created_on args parent (Block.header b);
  bu_gas : 0 ≤ BlockHeader.gas_used (Block.header b) ≤ BlockHeader.gas_limit (Block.header b);
  bu_last : ∀ r, last rs = Some r →
    Receipt.cumulative_gas_used r = BlockHeader.gas_used (Block.header b);
  bu_receipts_root : compute_receipts_root rs = Ok (BlockHeader.receipts_root (Block.header b));
  bu_blobs : blob_count (BlockBody.transactions (Block.body b)) ≤ MAX_BLOB_NUMBER_PER_BLOCK;
  bu_blob_gas : BlockHeader.blob_gas_used (Block.header b) =
    Some (blob_count (BlockBody.transactions (Block.body b)) * GAS_PER_BLOB);
  bu_state : ∃ root s1, Store.engine s1 = Store.engine s ∧
    Store.apply_account_updates (BlockHeader.parent_hash (Block.header b))
      (get_state_transitions e) s1 = (Ok root, s') ∧
    BlockHeader.state_root (Block.header b) = default (replicate 32 0) root;
  bu_executes : ∀ e0, e0 ≡ evm_state_of s (BlockHeader.parent_hash (Block.header b)) →
    ∃ e', execute_block_revm config b e0 = (Ok rs, e') ∧ e' ≡ e;
}.

Lemma created_on_clear args parent h h' :
  clear_blob_gas h' = clear_blob_gas h → created_on args parent h → created_on args parent h'.
Proof.
  intros E Hc. assert (created_on args parent (clear_blob_gas h)) as Hc' by (by destruct Hc).
  rewrite <-E in Hc'. by destruct Hc'.
Qed.

Lemma same_view_clear h h' : clear_blob_gas h' = clear_blob_gas h → same_view h h'.
Proof.
  intros E. assert (same_view (clear_blob_gas h) (clear_blob_gas h')) as Hv by by rewrite E.
  by destruct Hv.
Qed.

Lemma context_new_inv p e s c :
  context_new (E := ChainError) p e s = Ok c →
  payload c = p ∧ evm_state c = e ∧ store c = s ∧ receipts c = [] ∧ blobs_of c = 0 ∧
  remaining_gas c = gas_limit_of c ∧ block_value c = 0.
Proof. unfold context_new. intros Hc. apply bind_Ok in Hc as (fee & _ & Hc). by injection Hc as <-. Qed.

Lemma context_new_ok args parent config p e s c :
  payload_ready args parent config → created_on args parent (Block.header p) →
  BlockHeader.blob_gas_used (Block.header p) = Some 0 →
  context_new (E := ChainError) p e s = Ok c → ctx_ok c.
Proof.
  intros Hr Hcr Hb Hc. apply context_new_inv in Hc as (Ep & _ & _ & _ & Eb & Eg & Ev).
  assert (in_u 64 (gas_limit_of c)) as Hl.
  { unfold gas_limit_of, header. rewrite Ep, (cr_gas_limit _ _ _ Hcr).
    destruct Hr as [_ [(Hp & _) _] Hl _ _ _ _ _]. unfold in_u, MIN_GAS_LIMIT in *.
    Z.to_euclidean_division_equations. lia. }
  split; rewrite ?Eg, ?Ev, ?Eb; [done|unfold in_u in Hl; lia|lia|done|].
  unfold header. by rewrite Ep, Hb.
Qed.

(** The stages of [build_payload]. *)
Lemma build_payload_inv p s b x s' :
  build_payload p s = (Ok (b, x), s') →
  ∃ c c1 c2 c3,
    context_new (E := ChainError) p (evm_state_of s (BlockHeader.parent_hash (Block.header p))) s = Ok c ∧
    apply_withdrawals c = (Ok tt, c1) ∧ fill_transactions c1 = (Ok tt, c2) ∧
    finalize_payload c2 = (Ok tt, c3) ∧ b = payload c3 ∧ s' = store c3.
Proof.
  unfold build_payload. destruct (context_new _ _ s) as [c| | |]; try done.
  destruct (build c) as [r c3] eqn:Hb. intros [= Hr <-].
  apply bind_Ok in Hr as (x' & -> & Hr). injection Hr as <- <-. unfold build in Hb.
  apply bind_Ok_inv in Hb as ([] & c1 & H1' & Hb). apply bind_Ok_inv in Hb as ([] & c2 & H2' & Hb).
  apply bind_Ok_inv in Hb as ([] & c3' & H3' & Hb).
  do 2 (erewrite bind_run in Hb by reflexivity). injection Hb as <- <-.
  by exists c, c1, c2, c3'.
Qed.

(** The context between the last transaction and the end of the header. *)
Record filled (args : BuildPayloadArgs.t) (parent : BlockHeader.t) (config : ChainConfig.t)
    (s : Store.t) c : Prop := {
  fi_created : created_on args parent (header c);
  fi_withdrawals : no_withdrawals (BlockBody.withdrawals (Block.body (payload c)));
  fi_engine : Store.engine (store c) = Store.engine s;
  fi_gas : from_option gas_after 0 (last (receipts c)) = gas_limit_of c - remaining_gas c;
  fi_ok : ctx_ok c;
  fi_blobs : blobs_of c = blob_count (txs_of c);
  fi_field : is_Some (BlockHeader.blob_gas_used (header c));
  fi_executes : ∀ block, same_view (header c) (Block.header block) →
    Block.body block = Block.body (payload c) →
    ∀ e0, e0 ≡ evm_state_of s (parent_hash c) →
    ∃ e', execute_block_revm config block e0 = (Ok (receipts c), e') ∧ e' ≡ evm_state c;
}.

Lemma parent_hash_clear h h' :
  clear_blob_gas h' = clear_blob_gas h → BlockHeader.parent_hash h' = BlockHeader.parent_hash h.
Proof.
  intros E. change (BlockHeader.parent_hash (clear_blob_gas h') = BlockHeader.parent_hash (clear_blob_gas h)).
  by rewrite E.
Qed.

Lemma same_view_trans h1 h2 h3 : same_view h1 h2 → same_view h2 h3 → same_view h1 h3.
Proof. intros [] []. split; congruence. Qed.

Lemma fill_filled args parent config s p c e e1 c2 :
  config_of s = Some config → payload_ready args parent config →
  payload_on args parent config = Ok p → no_withdrawals (BuildPayloadArgs.withdrawals args) →
  pool_good s →
  context_new (E := ChainError) p (evm_state_of s (BlockHeader.parent_hash (Block.header p))) s = Ok c →
  system_part config (header c) (evm_state c) = (Ok tt, e) → e1 ≡ e →
  fill_transactions (set_evm_state e1 c) = (Ok tt, c2) →
  filled args parent config s c2.
Proof.
  intros Hconf Hready Hp Hws Hpool Hnew Hsys He1 Hfill.
  destruct (payload_on_created _ _ _ _ Hready Hp) as (Hcr & Hblob & Htxs & Ew).
  pose proof (context_new_ok _ _ _ _ _ _ _ Hready Hcr Hblob Hnew) as Hok.
  destruct (context_new_inv _ _ _ _ Hnew) as (Ep & Ee & Es & Er & Eb & Eg & _).
  destruct (fill_transactions_ok config (set_evm_state e1 c)) as (c2' & txs & rs & Hrun2 & Hext);
    [by cbn; rewrite Es|by apply ctx_ok_evm|by cbn; rewrite Es|].
  rewrite Hfill in Hrun2. injection Hrun2 as <-.
  destruct Hext as [Etx Erc Hx Hg Eh Ewd _ Ebl Hf Een _ _ Hok2].
  unfold txs_of in Etx. cbn [payload set_evm_state receipts store] in Etx, Erc, Ewd, Een.
  change (header (set_evm_state e1 c)) with (header c) in *.
  change (gas_limit_of (set_evm_state e1 c) - remaining_gas (set_evm_state e1 c)) with
    (gas_limit_of c - remaining_gas c) in *.
  change (blobs_of (set_evm_state e1 c)) with (blobs_of c) in Ebl.
  assert (header c = Block.header p) as Ehc by (unfold header; by rewrite Ep).
  rewrite Ep, ?Htxs, Er, Es, Eb, Eg, Z.sub_diag, ?Z.add_0_l in *. cbn [app] in Etx, Erc.
  split; [..|done| | |].
  - eapply created_on_clear; [exact Eh|by rewrite Ehc].
  - by rewrite Ewd, Ew.
  - done.
  - by rewrite Erc.
  - unfold txs_of. by rewrite Etx.
  - apply Hf. by rewrite Ehc, Hblob.
  - intros block Hview Ebody e0 He0.
    eapply (execute_block_run config block (header c) (evm_state c) e e1);
      [by eapply same_view_trans, Hview; apply same_view_clear|by rewrite Ebody, Ewd, Ew|done|done| |].
    + rewrite Ebody, Etx, Erc. exact Hx.
    + rewrite He0, Ee. unfold parent_hash. by rewrite (parent_hash_clear _ _ Eh), Ehc.
Qed.

Lemma build_payload_built args parent config s p b x s' :
  config_of s = Some config → payload_ready args parent config →
  payload_on args parent config = Ok p → no_withdrawals (BuildPayloadArgs.withdrawals args) →
  pool_good s → build_payload p s = (Ok (b, x), s') →
  ∃ e rs, built args parent config s b s' e rs.
Proof.
  intros Hconf Hready Hp Hws Hpool Hrun.
  destruct (build_payload_inv _ _ _ _ _ Hrun) as (c & c1 & c2 & c3 & Hnew & Hwd & Hfill & Hfin & -> & ->).
  destruct (context_new_inv _ _ _ _ Hnew) as (Ep & _ & Es & _).
  destruct (payload_on_created _ _ _ _ Hready Hp) as (_ & _ & _ & Ew).
  destruct (apply_withdrawals_inv config c c1) as (e & e1 & Hsys & -> & He1);
    [by rewrite Es|by rewrite Ep, Ew|done|].
  destruct (fill_filled _ _ _ _ _ _ _ _ _ Hconf Hready Hp Hws Hpool Hnew Hsys He1 Hfill)
    as [Hcr Hnw Een Hg Hok Hbl [bg Hbg] Hx].
  destruct (finalize_inv _ _ Hfin) as (root & s3 & tr & rr & gas & Happ & Hrr & Hgas & ->).
  destruct Hok as [Hl2 Hg2 _ Hb2 Hbg2]. rewrite Hbg in Hbg2. cbn [default id] in Hbg2.
  unfold u_sub in Hgas. rewrite in_width_fits in Hgas by (unfold in_u in *; lia). injection Hgas as <-.
  exists (evm_state c2), (receipts c2). split.
  - by destruct Hcr.
  - change (0 ≤ gas_limit_of c2 - remaining_gas c2 ≤ gas_limit_of c2). lia.
  - intros r Hr. rewrite Hr in Hg. exact Hg.
  - exact Hrr.
  - by rewrite Hbl in Hb2.
  - etrans; [exact Hbg|]. by rewrite Hbg2, Hbl.
  - by exists root, (store c2).
  - by apply Hx.
Qed.

Lemma create_payload_inv args parent config s p s1 :
  headers (Store.engine s) !! BuildPayloadArgs.parent args = Some parent →
  config_of s = Some config → create_payload args s = (Ok p, s1) →
  payload_on args parent config = Ok p ∧ s1 = s.
Proof.
  intros Hp Hc. unfold create_payload, chain_store, Store.get_block_header_by_hash,
    Engine.get_block_header_by_hash.
  erewrite bind_run; [|apply map_err_run_ok, on_engine_gets]. rewrite Hp.
  erewrite bind_run by reflexivity.
  erewrite bind_run; [|apply map_err_run_ok; unfold Store.get_chain_config, Store.on_engine,
    Engine.get_chain_config; unfold config_of in Hc; rewrite Hc; reflexivity].
  rewrite set_engine_id. by intros [= -> <-].
Qed.

(** The updates of a block can be applied to the state of its parent: their
    values have their widths, no two are for one account or slot, no node or
    code gets the hash of another one. *)
Record updates_fine (s s' : Store.t) (root : list Z) (W : World) (us : list AccountUpdate.t) : Prop := {
  uf_ok : Forall update_ok us;
  uf_apart : updates_apart us;
  uf_codes : codes_agree s W us;
  uf_built : safe_updates us (trie_open (state_db s) root) s;
  uf_imported : safe_updates us (trie_open (state_db s') root) s';
}.

Lemma execute_block_of config s b rs e :
  config_of s = Some config →
  execute_block_revm config b (evm_state_of s (BlockHeader.parent_hash (Block.header b))) = (Ok rs, e) →
  execute_block s b = Ok (rs, get_state_transitions e).
Proof.
  intros Hc Hrun. unfold execute_block, revm_execution, Store.get_chain_config, Store.on_engine,
    Engine.get_chain_config. unfold config_of in Hc. rewrite Hc.
  cbn [unwrap fst map_err mbind outcome_bind]. by rewrite Hrun.
Qed.

(** Applying the updates in a store with another pool. *)
Lemma apply_with_pool (block_hash : list Z) parent us (s s1 s' : Store.t) root W :
  Store.engine s1 = Store.engine s → headers (Store.engine s) !! block_hash = Some parent →
  dbs_ok s → world_at s (BlockHeader.state_root parent) W → Forall update_ok us →
  safe_updates us (trie_open (state_db s) (BlockHeader.state_root parent)) s →
  Store.apply_account_updates block_hash us s1 = (Ok root, s') →
  ∃ root0, root = Some root0 ∧ world_at s' root0 (foldl update_world W us) ∧ dbs_ok s' ∧
    world_at s' (BlockHeader.state_root parent) W ∧
    stored_part s' = stored_part s ∧ codes_from us s s'.
Proof.
  intros E Hh Hdbs HW Hok Hsafe Hrun.
  assert (trie_part s1 = trie_part s) as Et by (unfold trie_part; by rewrite E).
  destruct (apply_account_updates_run block_hash parent us s1 W) as (root0 & s2 & Hrun2 & HW2 & Hdbs2 & Hold);
    [by rewrite E|by eapply dbs_ok_part|by eapply world_at_part|done| |].
  { rewrite (with_pool_engine s s1 E). by apply safe_updates_pool. }
  rewrite Hrun in Hrun2. injection Hrun2 as -> <-. exists root0. split; [done|]. split; [done|].
  split; [done|]. split; [by eapply Hold, world_at_part|]. split.
  - pose proof (keeps_apply_account_updates block_hash us s1) as Hk. rewrite Hrun in Hk.
    cbn [snd] in Hk. rewrite (block_part_stored _ _ Hk). unfold stored_part. by rewrite E.
  - pose proof (apply_account_updates_codes block_hash us s1) as Hk. rewrite Hrun in Hk.
    unfold codes_from, codes in *. by rewrite E in Hk.
Qed.

Lemma built_accepted args parent config (s s' : Store.t) b e rs W :
  config_of s = Some config → payload_ready args parent config →
  headers (Store.engine s) !! BuildPayloadArgs.parent args = Some parent →
  dbs_ok s → world_at s (BlockHeader.state_root parent) W →
  built args parent config s b s' e rs →
  (∀ rs0 us us', execute_block s b = Ok (rs0, us) → updates_equiv us us' →
     updates_fine s s' (BlockHeader.state_root parent) W us') →
  stored_part s' = stored_part s ∧ ∃ us, accepted b parent rs us s'.
Proof.
  intros Hc Hready Hh Hdbs HW [Hcr Hgas Hlast Hrr Hbl Hbg (root & s1 & E1 & Happ & Eroot) Hx] Hfine.
  pose proof (cr_parent _ _ _ Hcr) as Eph.
  destruct (Hx _ (reflexivity _)) as (e0 & Hrun0 & He0).
  pose proof (execute_block_of _ _ _ _ _ Hc Hrun0) as Hex0.
  assert (∀ e1 : RevmState, e1 ≡ e → updates_fine s s' (BlockHeader.state_root parent) W (get_state_transitions e1) ∧
    foldl update_world W (get_state_transitions e0) = foldl update_world W (get_state_transitions e1)) as Hall.
  { intros e1 He1. assert (updates_equiv (get_state_transitions e0) (get_state_transitions e1)) as Heq.
    { apply transitions_equiv, take_bundle_proper. by rewrite He0. }
    split; [by eapply Hfine|]. apply updates_equiv_world; [|done].
    eapply (uf_apart s s'), Hfine; [exact Hex0|]. by apply transitions_equiv, take_bundle_proper. }
  destruct (Hall e (reflexivity _)) as [[Hok _ Hcodes Hsafe _] Eworld].
  rewrite Eph in Happ.
  destruct (apply_with_pool _ parent _ s s1 s' root W E1 Hh Hdbs HW Hok Hsafe Happ)
    as (root0 & -> & HW' & Hdbs' & Hold & Hst & Hfrom).
  destruct (stored_part_fields _ _ Hst) as (Eh & _ & _ & Ecan & Ecd).
  split; [done|]. cbn [default id] in Eroot.
  destruct (Hx (evm_state_of s' (BuildPayloadArgs.parent args))) as (e2 & Hrun2 & He2).
  { symmetry. rewrite Eph. apply state_builder_proper. by eapply database_kept. }
  assert (config_of s' = Some config) as Hc' by (unfold config_of; by rewrite Ecd).
  rewrite <-Eph in Hrun2. pose proof (execute_block_of _ _ _ _ _ Hc' Hrun2) as Hex2.
  destruct (Hall e2 He2) as [[Hok2 _ _ _ Hsafe2] Eworld2].
  destruct (apply_account_updates_run (BuildPayloadArgs.parent args) parent
    (get_state_transitions e2) s' W) as (root2 & s2 & Hrun & HW2 & _); [by rewrite Eh|done..|].
  assert (root2 = root0) as ->.
  { eapply world_root_unique; [exact HW2|]. by rewrite <-Eworld2, Eworld. }
  exists (get_state_transitions e2). split.
  - by rewrite Eph, Eh.
  - eapply created_validates; try done. apply Hgas.
  - done.
  - done.
  - by rewrite Eph, Hrun, Eroot.
  - done.
Qed.
End building.
