(* ===== verification/PayloadTheorems.v ===== *)
(** * Theorems on the payload builder

    Filling a payload always completes; what is built is accepted by the import
    of blocks when there are no withdrawals; with a withdrawal it may not be,
    because the builder applies withdrawals before the transactions and the
    execution of a block after them.  A small machine with the laws of
    [RevmLaws] shows that the hypotheses can be met. *)

From stdpp Require Import base option list numbers strings gmap sorting relations.
From S2P Require Import Prelude Rlp RlpProofs LevmHost LevmDemo TrieNode Trie TrieCorrect TrieHashed.
From S2P Require Import Tx TxProofs BlockTypes Chain ChainProofs Store StoreLogic Blockchain ForkChoice.
From S2P Require Import BlockImport WorldState Mempool MempoolProofs Vm Payload PayloadQueue.
From S2P Require Import PayloadProofs PayloadImport MempoolPool MempoolTheorems.

Local Open Scope Z_scope.

(** C10 Filling a payload completes.  Whatever has been submitted to the pool and
    removed from it since it was empty, and whatever the machine answers to its
    transactions, the loop of the builder ends with a result: it neither runs
    forever nor panics.  The transactions it has put into the block waited in the pool
    and pay the fees of the block, and are no longer in the pool.  Every transaction of
    the pool that pays the fees is in the block, unless less gas is left than any
    transaction needs, or it has blobs and the blobs of the block are used up, or on the
    way the builder has passed over it or an earlier one of its sender, for want of gas,
    because it is replay-protected before EIP-155 or because it failed.  The
    transactions of the block have the receipts that executing them one after the other
    from the same state gives, their gas stays within the limit of the block, the last
    receipt has the gas of all of them, the blobs stay within their limit and match the
    bundle, and the store has changed only by transactions that left the pool. *)
Theorem payload_filling_completes `{Crypto} `{Secp256k1} `{EthBloom} `{BuildProfile} `{Revm}
    `{!RevmLaws} `{HashMapIter} `{BinarySearch} `{!BinarySearchLaws} `{Kzg}
    (config : ChainConfig.t) (s0 : Store.t) (c : PayloadBuildContext) :
  Store.mempool s0 = ∅ → rtc pool_step s0 (store c) →
  config_of (store c) = Some config → ctx_ok c →
  ∃ c' txs rs, fill_transactions c = (Ok tt, c') ∧ extends config c txs rs c' ∧
    taken (waits c) c' txs ∧
    ∀ sender m, waits c sender m → settled config (waits c) c txs c' sender m.
Proof.
  intros He Hr Hc Hok. apply fill_transactions_settles; [done..|].
  by eapply pool_ok_good, pool_reachable_ok.
Qed.


(** The gas limit of payloads only falls.  The builder asks for 30 million, but
    bounds what it asks for from above by the minimal gas limit, so that on any
    valid parent the limit of the new block is the parent's less a 1024th, down
    to 5000; it is still a limit that the rules allow. *)
Theorem payload_gas_limit_falls `{BuildProfile} (parent_gas_limit : Z) :
  MIN_GAS_LIMIT ≤ parent_gas_limit < 2 ^ 64 →
  ∃ limit, calc_gas_limit (E := ChainError) parent_gas_limit DEFAULT_BUILDER_GAS_CEIL = Ok limit ∧
    gas_limit_ok limit parent_gas_limit ∧ limit ≤ parent_gas_limit ∧
    (MIN_GAS_LIMIT < parent_gas_limit → limit < parent_gas_limit).
Proof.
  intros Hp. eexists. split; [apply calc_gas_limit_spec; [done|]|].
  { unfold MIN_GAS_LIMIT, DEFAULT_BUILDER_GAS_CEIL. lia. }
  split; [apply calc_gas_limit_ok, Hp|]. unfold MIN_GAS_LIMIT in *.
  Z.to_euclidean_division_equations. lia.
Qed.

(** ** A small machine *)

(** It knows one account: the balance it had, the balance it has, and the number
    of transactions.  A transaction takes its value from the balance. *)
Definition pay_address : list Z := replicate 20 0x77.

Definition pay_success : ExecutionResult.t :=
  ExecutionResult.Success ExecutionResult.Stop 21000 0 [] (ExecutionResult.OutputCall []).

Definition pay_transact (te : TxEnv) (s : Z * Z * Z) : Outcome EvmError ExecutionResult.t * (Z * Z * Z) :=
  let '(old, balance, count) := s in
  if (te_value te <=? balance) && (21000 <=? te_gas_limit te)
  then (Ok pay_success, (old, balance - te_value te, count + 1))
  else (Err (EvmTransaction "lack of funds"), s).

Definition pay_increment (increments : list (list Z * Z)) (s : Z * Z * Z) : Z * Z * Z :=
  let '(old, balance, count) := s in
  (old, foldl (λ b i, if bytes_eqb i.1 pay_address then b + i.2 else b) balance increments, count).

Definition pay_bundle (s : Z * Z * Z) : list (list Z * BundleAccount) :=
  let '(old, balance, count) := s in
  if (balance =? old) && (count =? 0) then []
  else [(pay_address, {|
    ba_not_modified := false; ba_destroyed := false;
    ba_account_info := Some {| ri_balance := balance; ri_nonce := count;
                               ri_code_hash := EMPTY_KECCACK_HASH; ri_code := None |};
    ba_info_changed := true; ba_contract_changed := false; ba_storage := [] |})].

Definition pay_balance (d : RevmDatabase) : Z :=
  match basic d pay_address with Ok (Some info) => ri_balance info | _ => 0 end.

#[local] Instance pay_revm : Revm := {
  RevmState := Z * Z * Z;
  ResultState := unit;
  default_tx_env := {|
    te_caller := address_zero; te_gas_limit := 2 ^ 64 - 1; te_gas_price := 0;
    te_transact_to := Call address_zero; te_value := 0; te_data := []; te_nonce := None;
    te_chain_id := None; te_access_list := []; te_gas_priority_fee := None;
    te_blob_hashes := []; te_max_fee_per_blob_gas := None |};
  info_is_empty info := (ri_balance info =? 0) && (ri_nonce info =? 0);
  state_builder d := (pay_balance d, pay_balance d, 0);
  transact_commit _ _ _ te s := pay_transact te s;
  transact _ _ _ s := (Ok (pay_success, tt), s);
  result_remove _ r := r;
  commit_result _ s := s;
  increment_balances increments s := (Ok tt, pay_increment increments s);
  take_bundle s := pay_bundle s;
}.

Lemma bundle_equiv_refl b : bundle_equiv b b.
Proof. exists b. split; [done|]. by induction b; constructor. Qed.

Lemma pay_transact_cases te s :
  pay_transact te s = (Err (EvmTransaction "lack of funds"), s) ∨
  ∃ s', pay_transact te s = (Ok pay_success, s') ∧ 21000 ≤ te_gas_limit te.
Proof.
  destruct s as [[old balance] count]. unfold pay_transact.
  destruct (te_value te <=? balance), (21000 <=? te_gas_limit te) eqn:Hg; [|by left..].
  right. eexists. split; [reflexivity|]. by apply Z.leb_le.
Qed.

#[local] Instance pay_equiv : Equiv (Z * Z * Z) := eq.

#[local] Instance pay_laws : RevmLaws (H := pay_revm).
Proof.
  refine {| state_equiv := pay_equiv : Equiv (RevmState (Revm := pay_revm));
            result_equiv := eq : Equiv (ResultState (Revm := pay_revm)) |}.
  - by intros chain_id spec be te e1 e2 ->.
  - intros chain_id spec be te e e' err Hrun. cbn [transact_commit pay_revm] in Hrun.
    destruct (pay_transact_cases te e) as [E|(s' & E & _)]; rewrite E in Hrun; by simplify_eq.
  - intros chain_id spec be te e e' result Hrun. cbn [transact_commit pay_revm] in Hrun.
    destruct (pay_transact_cases te e) as [E|(s' & E & Hg)]; rewrite E in Hrun; simplify_eq.
    cbn. lia.
  - intros chain_id spec be te e. cbn [transact_commit pay_revm].
    by destruct (pay_transact_cases te e) as [E|(s' & E & Hg)]; rewrite E.
  - by intros spec be te e1 e2 ->.
  - intros [[old balance] count]. done.
  - intros d1 d2 [Hb _ _ _]. cbn. unfold pay_balance. by rewrite Hb.
  - intros e1 e2 ->. apply bundle_equiv_refl.
Qed.

(** ** A search and an iteration order with their laws *)

Fixpoint lower_bound {A} (cmp : A → A → comparison) (l : list A) (x : A) : nat :=
  match l with
  | a :: l => match cmp a x with Lt => S (lower_bound cmp l x) | _ => O end
  | [] => O
  end.
#[local] Instance pay_search : BinarySearch := @lower_bound.

#[local] Instance pay_search_laws : BinarySearchLaws.
Proof.
  intros A cmp l x Hopp Htrans. change (@binary_search pay_search A cmp l x) with (lower_bound cmp l x).
  induction 1 as [|a l Hl (IH1 & IH2 & IH3) Ha]; cbn; [split_and!; [lia|constructor..]|].
  destruct (cmp a x) eqn:E; cbn.
  2: { split_and!; [lia| |done]. constructor; [congruence|done]. }
  all: split_and!; [lia|constructor|]; constructor; [congruence|]; eapply Forall_impl; [exact Ha|].
  all: intros a' Haa' Hlt; assert (cmp x a' ≠ Gt) as Hxa
    by (apply (Htrans x a a'); [rewrite Hopp, E; discriminate|done]);
    rewrite Hopp, Hlt in Hxa; by destruct Hxa.
Qed.

#[local] Instance pay_iter : HashMapIter :=
  {| hash_iter V m := map_to_list m; hash_iter_perm V m := Permutation_refl _ |}.
#[local] Existing Instance debug_build.
#[local] Instance pay_bloom : EthBloom := λ bloom _, bloom.

(** ** A store with a transaction in its pool *)

Definition pay_genesis : Genesis.t := {|
  Genesis.config := pay_config; Genesis.alloc := []; Genesis.coinbase := replicate 20 2;
  Genesis.difficulty := 0; Genesis.extra_data := [0xab]; Genesis.gas_limit := 30000000;
  Genesis.nonce := 0; Genesis.mix_hash := replicate 32 5; Genesis.timestamp := 1000;
  Genesis.base_fee_per_gas := Some 7; Genesis.blob_gas_used := Some 0;
  Genesis.excess_blob_gas := Some 0;
|}.

Definition genesis_header {E} (r : Outcome E Block.t) : BlockHeader.t :=
  match r with Ok block => Block.header block | _ => demo_genesis end.
Definition pay_parent : BlockHeader.t := Eval vm_compute in
  genesis_header (Chain.get_block pay_genesis).
Definition pay_hash : list Z := Eval vm_compute in compute_block_hash pay_parent.

Definition pay_base : Store.t := Eval vm_compute in (Store.add_initial_state pay_genesis Store.new).2.

Definition pay_store (value : Z) : Store.t :=
  Store.set_mempool
    {[ Transaction.compute_hash (pay_tx value) := MempoolTransaction.new 5 (pay_tx value) pay_address ]}
    pay_base.

Definition pay_args (withdrawals : list Withdrawal.t) : BuildPayloadArgs.t := {|
  BuildPayloadArgs.parent := pay_hash; BuildPayloadArgs.timestamp := 1012;
  BuildPayloadArgs.fee_recipient := replicate 20 2; BuildPayloadArgs.random := replicate 32 6;
  BuildPayloadArgs.withdrawals := Some withdrawals;
  BuildPayloadArgs.beacon_root := Some (replicate 32 8); BuildPayloadArgs.version := 3;
|}.

Definition block_of {A} (f : A → Block.t) (r : ChainResult A) : Block.t :=
  match r with Ok a => f a | _ => Block.new pay_parent BlockBody.empty end.

(** *** The hypotheses hold there *)

Lemma pay_tx_good s value : tx_good s (pay_tx value).
Proof.
  split; [by eexists|by eexists| |done]. intros base_fee tip. apply effective_tip_bound.
  unfold typed_tx, in_u. cbn. lia.
Qed.

Lemma pay_pool_good value : pool_good (pay_store value).
Proof. unfold pool_good. apply map_Forall_singleton. apply pay_tx_good. Qed.

Lemma pay_store_nodes value : trie_part (pay_store value) = (node_map_default, ∅).
Proof. reflexivity. Qed.

Lemma pay_parent_stored value :
  headers (Store.engine (pay_store value)) !! pay_hash = Some pay_parent.
Proof. reflexivity. Qed.

Lemma pay_config_of value : config_of (pay_store value) = Some pay_config.
Proof. reflexivity. Qed.

Lemma pay_total_difficulty value : total_difficulty_of (pay_store value) = 0.
Proof. reflexivity. Qed.

Lemma pay_root : BlockHeader.state_root pay_parent = EMPTY_TRIE_HASH.
Proof. vm_compute. reflexivity. Qed.

Lemma pay_ready withdrawals : payload_ready (pay_args withdrawals) pay_parent pay_config.
Proof.
  split; [vm_compute; reflexivity| |vm_compute; congruence|by eexists|vm_compute; congruence|
    vm_compute; reflexivity|done|by eexists].
  vm_compute. intuition discriminate.
Qed.

Lemma create_payload_read_only args : read_only (create_payload args).
Proof. unfold create_payload. read_only. Qed.

(** The only account that changes: one transaction was sent. *)
Definition pay_update : AccountUpdate.t := {|
  AccountUpdate.address := pay_address; AccountUpdate.removed := false;
  AccountUpdate.info := Some {| AccountInfo.code_hash := EMPTY_KECCACK_HASH;
                                AccountInfo.balance := 0; AccountInfo.nonce := 1 |};
  AccountUpdate.code := None; AccountUpdate.added_storage := [];
|}.

(** *** A payload without withdrawals *)

Definition free_args : BuildPayloadArgs.t := pay_args [].
Definition free_payload : Block.t := Eval vm_compute in
  block_of id (create_payload free_args (pay_store 0)).1.
Definition free_block : Block.t := Eval vm_compute in
  block_of fst (build_payload free_payload (pay_store 0)).1.
Definition free_store : Store.t := Eval vm_compute in (build_payload free_payload (pay_store 0)).2.

Lemma free_created : create_payload free_args (pay_store 0) = (Ok free_payload, pay_store 0).
Proof.
  rewrite (read_only_run _ _ (create_payload_read_only free_args)).
  assert ((create_payload free_args (pay_store 0)).1 = Ok free_payload) as -> by (vm_compute; reflexivity).
  reflexivity.
Qed.

Lemma free_built : build_payload free_payload (pay_store 0) =
  (Ok (free_block, (BlobsBundle.empty, 42000)), free_store).
Proof. vm_compute. reflexivity. Qed.

Definition updates_of (r : Outcome EvmError (list Receipt.t * list AccountUpdate.t)) :
    list AccountUpdate.t :=
  match r with Ok (_, us) => us | _ => [] end.

Lemma free_updates : updates_of (execute_block (pay_store 0) free_block) = [pay_update].
Proof. vm_compute. reflexivity. Qed.

Lemma pay_update_check :
  update_check pay_update (trie_open (state_db (pay_store 0)) EMPTY_TRIE_HASH) (pay_store 0) = true ∧
  update_check pay_update (trie_open (state_db free_store) EMPTY_TRIE_HASH) free_store = true.
Proof. split; vm_compute; reflexivity. Qed.

Lemma updates_equiv_single u us :
  AccountUpdate.added_storage u = [] → updates_equiv [u] us → us = [u].
Proof.
  intros Hs (l & Hp & Hf). apply Permutation_length_1_inv in Hp as ->.
  inversion Hf as [|? u' ? ? Hu Hf' E1 E2]; subst. inversion Hf'; subst. f_equal.
  destruct Hu as [Ea Er Ei Ec Est]. rewrite Hs in Est. apply Permutation_nil in Est.
  destruct u, u'; cbn in *; congruence.
Qed.

Lemma pay_update_ok : update_ok pay_update.
Proof.
  split; [|apply Forall_nil_2].
  change (rlp_valid (EMPTY_KECCACK_HASH : H256) ∧ in_u 256 0 ∧ in_u 64 1).
  split; [exact empty_code_hash_valid|]. unfold in_u. lia.
Qed.

Lemma pay_update_fine :
  updates_fine (pay_store 0) free_store (BlockHeader.state_root pay_parent) ∅ [pay_update].
Proof.
  rewrite pay_root. destruct pay_update_check as [Hb Hi]. split.
  - exact (Forall_cons_2 _ _ _ pay_update_ok (Forall_nil_2 _)).
  - split; [apply NoDup_singleton|]. constructor; [|constructor]. constructor.
  - intros u hash code _ _ h w Hw. by rewrite lookup_empty in Hw.
  - exact (update_check_spec pay_update _ _ Hb).
  - exact (update_check_spec pay_update _ _ Hi).
Qed.

Lemma free_fine rs us us' :
  execute_block (pay_store 0) free_block = Ok (rs, us) → updates_equiv us us' →
  updates_fine (pay_store 0) free_store (BlockHeader.state_root pay_parent) ∅ us'.
Proof.
  intros He Heq. pose proof free_updates as Hu. rewrite He in Hu. cbn in Hu. subst us.
  rewrite (updates_equiv_single pay_update us' eq_refl Heq). apply pay_update_fine.
Qed.


Definition rich_context : PayloadBuildContext := {|
  payload := free_payload; evm_state := (0, 0, 0) : RevmState (Revm := pay_revm);
  remaining_gas := BlockHeader.gas_limit (Block.header free_payload); receipts := [];
  block_value := 0; base_fee_per_blob_gas := 1; blobs_bundle := BlobsBundle.empty;
  store := rich_store |}.

Lemma rich_context_ok : ctx_ok rich_context.
Proof. split; vm_compute; intuition discriminate. Qed.

Lemma rich_config : config_of rich_store = Some pay_config.
Proof. reflexivity. Qed.

Example payload_filling_completes_witness :
  ∃ c' txs rs, fill_transactions rich_context = (Ok tt, c') ∧
    extends pay_config rich_context txs rs c' ∧ taken (waits rich_context) c' txs ∧
    ∀ sender m, waits rich_context sender m →
      settled pay_config (waits rich_context) rich_context txs c' sender m.
Proof.
  exact (payload_filling_completes pay_config rich_base rich_context rich_base_empty rich_reached
    rich_config rich_context_ok).
Defined.

Example payload_gas_limit_falls_witness :
  ∃ limit, calc_gas_limit (E := ChainError) 20000000 DEFAULT_BUILDER_GAS_CEIL = Ok limit ∧
    limit < 20000000.
Proof.
  destruct (payload_gas_limit_falls 20000000) as (limit & Hl & _ & _ & Hlt);
    [unfold MIN_GAS_LIMIT; lia|]. exists limit. split; [exact Hl|].
  apply Hlt. reflexivity.
Defined.

(** ** A payload with a withdrawal *)

(** A withdrawal of 10^9 gwei for the sender of a transaction of 10^18 wei. *)
Definition paid_args : BuildPayloadArgs.t := pay_args [{|
  Withdrawal.index := 0; Withdrawal.validator_index := 0;
  Withdrawal.address := pay_address; Withdrawal.amount := 10 ^ 9 |}].
Definition paid_payload : Block.t := Eval vm_compute in
  block_of id (create_payload paid_args (pay_store (10 ^ 18))).1.

Definition import_result (b : ChainResult (Block.t * (BlobsBundle.t * Z)) * Store.t) :
    option (nat * ChainResult unit) :=
  match b with
  | (Ok (block, _), s) =>
      Some (length (BlockBody.transactions (Block.body block)), (add_block block s).1)
  | _ => None
  end.

(** A payload with a withdrawal may be rejected by the client that built it.
    The builder applies the withdrawals of a payload before its transactions, the
    execution of a block applies them after.  Here the sender of the only
    transaction of the pool can pay for it only with the withdrawal: the builder
    includes the transaction, and [add_block] then refuses the block because the
    transaction cannot be executed. *)
Theorem payload_with_withdrawal_rejected :
  create_payload paid_args (pay_store (10 ^ 18)) = (Ok paid_payload, pay_store (10 ^ 18)) ∧
  import_result (build_payload paid_payload (pay_store (10 ^ 18))) =
    Some (1%nat, Err (ChainEvmError (EvmTransaction "lack of funds"))).
Proof.
  split; [|vm_compute; reflexivity].
  rewrite (read_only_run _ _ (create_payload_read_only paid_args)).
  assert ((create_payload paid_args (pay_store (10 ^ 18))).1 = Ok paid_payload) as ->
    by (vm_compute; reflexivity).
  reflexivity.
Qed.
