(* ===== verification/Kademlia.v ===== *)
(** * The table of peers (crates/networking/p2p/kademlia.rs)

    [KademliaTable] keeps the peers of the discovery protocol in 256 buckets by
    their distance, each with a list of replacements.  The channels and senders of
    the runtime are opaque; the clock is an argument. *)

From stdpp Require Import base option list numbers gmap.
From S2P Require Import Prelude Rlp LevmHost Tx.

Local Open Scope Z_scope.

Module Kademlia.

Definition MAX_NODES_PER_BUCKET : nat := 16.
Definition NUMBER_OF_BUCKETS : nat := 256.
Definition MAX_NUMBER_OF_REPLACEMENTS : nat := 10.

(** types.rs; the address and ports are not looked at. *)
Record Node := { ip : list Z; udp_port : Z; tcp_port : Z; node_id : list Z }.

Section table.
Context `{Crypto} `{BuildProfile} {Channels Sender E : Type}.

(** discv4.rs *)
Record FindNodeRequest := { nodes_sent : Z; sent_at : Z; tx : option Sender }.

Record PeerData := {
  node : Node;
  last_ping : Z;
  last_pong : Z;
  last_ping_hash : option (list Z);
  is_proven : bool;
  find_node_request : option FindNodeRequest;
  liveness : Z;
  revalidation : option bool;
  channels : option Channels;
}.

Definition peer_id (p : PeerData) : list Z := node_id (node p).

Definition peer_new (record : Node) (last_ping last_pong : Z) (is_proven : bool) : PeerData := {|
  node := record; last_ping := last_ping; last_pong := last_pong; last_ping_hash := None;
  is_proven := is_proven; find_node_request := None; liveness := 1; revalidation := None;
  channels := None;
|}.

(** The methods on [&mut PeerData], and the assignments of the table. *)
Definition set_find_node_request (r : option FindNodeRequest) (p : PeerData) : PeerData := {|
  node := node p; last_ping := last_ping p; last_pong := last_pong p;
  last_ping_hash := last_ping_hash p; is_proven := is_proven p; find_node_request := r;
  liveness := liveness p; revalidation := revalidation p; channels := channels p |}.
Definition set_liveness (n : Z) (p : PeerData) : PeerData := {|
  node := node p; last_ping := last_ping p; last_pong := last_pong p;
  last_ping_hash := last_ping_hash p; is_proven := is_proven p;
  find_node_request := find_node_request p; liveness := n; revalidation := revalidation p;
  channels := channels p |}.
Definition set_channels_of (c : option Channels) (p : PeerData) : PeerData := {|
  node := node p; last_ping := last_ping p; last_pong := last_pong p;
  last_ping_hash := last_ping_hash p; is_proven := is_proven p;
  find_node_request := find_node_request p; liveness := liveness p;
  revalidation := revalidation p; channels := c |}.
Definition ping (hash : option (list Z)) (now : Z) (p : PeerData) : PeerData := {|
  node := node p; last_ping := now; last_pong := last_pong p; last_ping_hash := hash;
  is_proven := is_proven p; find_node_request := find_node_request p; liveness := liveness p;
  revalidation := revalidation p; channels := channels p |}.
Definition ping_with_revalidation (hash : option (list Z)) (now : Z) (p : PeerData) : PeerData := {|
  node := node p; last_ping := now; last_pong := last_pong p; last_ping_hash := hash;
  is_proven := is_proven p; find_node_request := find_node_request p; liveness := liveness p;
  revalidation := Some false; channels := channels p |}.
Definition pong (now : Z) (p : PeerData) : PeerData := {|
  node := node p; last_ping := last_ping p; last_pong := now; last_ping_hash := None;
  is_proven := true; find_node_request := find_node_request p; liveness := liveness p;
  revalidation := (match revalidation p with Some _ => Some true | None => None end);
  channels := channels p |}.

Definition new_find_node_request (now : Z) (p : PeerData) : PeerData :=
  set_find_node_request (Some {| nodes_sent := 0; sent_at := now; tx := None |}) p.
Definition new_find_node_request_with_sender (now : Z) (sender : Sender) (p : PeerData) : PeerData :=
  set_find_node_request (Some {| nodes_sent := 0; sent_at := now; tx := Some sender |}) p.
Definition increment_liveness (p : PeerData) : Outcome E PeerData :=
  n ← u_add 16 (liveness p) 1;
  Ok (set_liveness n p).
Definition decrement_liveness (p : PeerData) : PeerData := set_liveness (liveness p / 3) p.

(** ** The table *)

Record Bucket := { peers : list PeerData; replacements : list PeerData }.
Definition bucket_default : Bucket := {| peers := []; replacements := [] |}.

Record KademliaTable := { local_node_id : list Z; buckets : list Bucket }.

Notation TableM := (StateT KademliaTable E).

Definition new (local_node_id : list Z) : KademliaTable :=
  {| local_node_id := local_node_id; buckets := replicate NUMBER_OF_BUCKETS bucket_default |}.

Definition bucket_number (node_id_1 node_id_2 : list Z) : nat :=
  let distance := Z.lxor (be_decode (keccak node_id_1)) (be_decode (keccak node_id_2)) in
  Z.to_nat (saturating_sub (bits distance) 1).

(** Indexing panics out of range. *)
Definition bucket_at (idx : nat) : TableM Bucket := λ t,
  (unwrap (buckets t !! idx), t).
Definition set_bucket (idx : nat) (b : Bucket) : TableM unit :=
  state_modify (λ t, {| local_node_id := local_node_id t; buckets := <[idx := b]> (buckets t) |}).

Definition has_id (id : list Z) (p : PeerData) : bool := bool_decide (peer_id p = id).

Definition local : TableM (list Z) := state_gets local_node_id.

Definition get_by_node_id (id : list Z) : TableM (option PeerData) :=
  local_id ← local;
  bucket ← bucket_at (bucket_number id local_id);
  mret (snd <$> list_find (λ p, has_id id p = true) (peers bucket)).

(** [get_by_node_id_mut] and an assignment through the reference. *)
Definition update_first (id : list Z) (f : PeerData → PeerData) (l : list PeerData) : list PeerData :=
  match list_find (λ p, has_id id p = true) l with
  | Some (i, p) => <[i := f p]> l
  | None => l
  end.
Definition update_peer (idx : nat) (id : list Z) (f : PeerData → PeerData) : TableM unit :=
  bucket ← bucket_at idx;
  set_bucket idx {| peers := update_first id f (peers bucket); replacements := replacements bucket |}.

Definition get_by_node_id_mut (id : list Z) (f : PeerData → PeerData) : TableM unit :=
  local_id ← local;
  update_peer (bucket_number id local_id) id f.

Definition insert_as_replacement (p : PeerData) (idx : nat) : TableM unit :=
  bucket ← bucket_at idx;
  let kept :=
    if (MAX_NUMBER_OF_REPLACEMENTS <=? length (replacements bucket))%nat
    then drop 1 (replacements bucket) else replacements bucket in
  set_bucket idx {| peers := peers bucket; replacements := kept ++ [p] |}.

Definition remove_from_replacements (id : list Z) (idx : nat) : TableM unit :=
  bucket ← bucket_at idx;
  set_bucket idx {| peers := peers bucket;
                    replacements := base.filter (λ r, peer_id r ≠ id) (replacements bucket) |}.

Definition push_peer (p : PeerData) (idx : nat) : TableM unit :=
  bucket ← bucket_at idx;
  set_bucket idx {| peers := peers bucket ++ [p]; replacements := replacements bucket |}.

Definition insert_node_inner (now : Z) (n : Node) (idx : nat) : TableM (option PeerData * bool) :=
  let id := node_id n in
  bucket ← bucket_at idx;
  if existsb (has_id id) (peers bucket) then mret (None, false)
  else if existsb (has_id id) (replacements bucket) then mret (None, false)
  else
    let peer := peer_new n now 0 false in
    if (length (peers bucket) =? MAX_NODES_PER_BUCKET)%nat then
      _ ← insert_as_replacement peer idx;
      mret (Some peer, false)
    else
      _ ← remove_from_replacements id idx;
      _ ← push_peer peer idx;
      mret (Some peer, true).

Definition insert_node (now : Z) (n : Node) : TableM (option PeerData * bool) :=
  local_id ← local;
  insert_node_inner now n (bucket_number (node_id n) local_id).

(** The first entry that is farther away is replaced. *)
Fixpoint replace_farther (n : Node) (distance : nat) (nodes : list (Node * nat)) :
    list (Node * nat) :=
  match nodes with
  | [] => []
  | (other, dis) :: nodes =>
      if (distance <? dis)%nat then (n, distance) :: nodes
      else (other, dis) :: replace_farther n distance nodes
  end.

Definition closest_step (target : list Z) (nodes : list (Node * nat)) (p : PeerData) :
    list (Node * nat) :=
  let distance := bucket_number target (peer_id p) in
  if (length nodes <? MAX_NODES_PER_BUCKET)%nat then nodes ++ [(node p, distance)]
  else replace_farther (node p) distance nodes.

Definition all_peers (t : KademliaTable) : list PeerData := concat (peers <$> buckets t).

Definition get_closest_nodes (target : list Z) : TableM (list Node) :=
  state_gets (λ t, fst <$> foldl (closest_step target) [] (all_peers t)).

Definition pong_answered (now : Z) (id : list Z) : TableM unit := get_by_node_id_mut id (pong now).
Definition update_peer_ping (now : Z) (id : list Z) (ping_hash : option (list Z)) : TableM unit :=
  get_by_node_id_mut id (ping ping_hash now).
Definition update_peer_ping_with_revalidation (now : Z) (id : list Z)
    (ping_hash : option (list Z)) : TableM unit :=
  get_by_node_id_mut id (ping_with_revalidation ping_hash now).

(** The first index with the greatest [last_pong]; indexing panics out of range. *)
Definition most_recent_index (l : list PeerData) : nat :=
  (foldl (λ '(best, i) other,
     (match l !! best with
      | Some b => if last_pong b <? last_pong other then i else best
      | None => best
      end, S i)) (O, O) l).1.

Definition recent_step (limit : nat) (acc : Outcome E (list PeerData)) (p : PeerData) :
    Outcome E (list PeerData) :=
  l ← acc;
  if (length l <? limit)%nat then Ok (l ++ [p])
  else
    let i := most_recent_index l in
    other ← unwrap (l !! i);
    Ok (if last_pong p <? last_pong other then <[i := p]> l else l).

Definition get_least_recently_pinged_peers (limit : nat) : TableM (list PeerData) := λ t,
  (foldl (recent_step limit) (Ok []) (all_peers t), t).

Definition replace_peer_inner (id : list Z) (idx : nat) : TableM (option PeerData) :=
  bucket ← bucket_at idx;
  match list_find (λ p, has_id id p = true) (peers bucket) with
  | Some (i, _) =>
      match last (replacements bucket) with
      | Some new_peer =>
          _ ← set_bucket idx {| peers := <[i := new_peer]> (peers bucket);
                                replacements := take (pred (length (replacements bucket)))
                                                  (replacements bucket) |};
          mret (Some new_peer)
      | None =>
          _ ← set_bucket idx {| peers := delete i (peers bucket);
                                replacements := replacements bucket |};
          mret None
      end
  | None => mret None
  end.

Definition replace_peer (id : list Z) : TableM (option PeerData) :=
  local_id ← local;
  replace_peer_inner id (bucket_number local_id id).

(** [buckets.get_mut(idx)]: nothing happens out of range. *)
Definition set_channels (id : list Z) (c : Channels) : TableM unit := λ t,
  let idx := bucket_number (local_node_id t) id in
  match buckets t !! idx with
  | Some _ => update_peer idx id (set_channels_of (Some c)) t
  | None => (Ok tt, t)
  end.

Definition get_peer : TableM (option PeerData) :=
  l ← get_least_recently_pinged_peers 1;
  mret (last l).
End table.
End Kademlia.
