(* ===== verification/KademliaProofs.v ===== *)
(** * Correctness of the table of peers

    Every table that the operations reach has its 256 buckets, no bucket has more
    peers or replacements than it may, no node is in the table twice, and each is
    in the bucket of its distance; so no operation panics and a peer that was
    inserted is found. *)

From stdpp Require Import base option list numbers gmap relations.
From S2P Require Import Prelude Rlp RlpProofs LevmHost LevmDemo Tx StoreLogic Kademlia.
Import Kademlia.

Local Open Scope Z_scope.

Section proofs.
Context `{CryptoLaws} `{BuildProfile} {Channels Sender E : Type}.

Notation PeerData := (@Kademlia.PeerData Channels Sender).
Notation Bucket := (@Kademlia.Bucket Channels Sender).
Notation KademliaTable := (@Kademlia.KademliaTable Channels Sender).
Notation TableM := (StateT KademliaTable E).

Implicit Types (t : KademliaTable) (b : Bucket) (p : PeerData).

(** Different nodes, all of one distance. *)
Definition placed (local_id : list Z) (i : nat) (l : list PeerData) : Prop :=
  NoDup (peer_id <$> l) ∧ Forall (λ p, bucket_number (peer_id p) local_id = i) l.

Record bucket_ok (local_id : list Z) (i : nat) b : Prop := {
  bk_peers : (length (peers b) ≤ MAX_NODES_PER_BUCKET)%nat;
  bk_replacements : (length (replacements b) ≤ MAX_NUMBER_OF_REPLACEMENTS)%nat;
  bk_placed : placed local_id i (peers b ++ replacements b);
}.

Definition table_ok t : Prop :=
  length (buckets t) = NUMBER_OF_BUCKETS ∧
  ∀ i b, buckets t !! i = Some b → bucket_ok (local_node_id t) i b.

(** ** Bucket numbers *)

Lemma bucket_number_comm (x y : list Z) : bucket_number x y = bucket_number y x.
Proof. unfold bucket_number. by rewrite Z.lxor_comm. Qed.

Lemma keccak_log x : 0 ≤ be_decode (keccak x) ∧ Z.log2 (be_decode (keccak x)) < 256.
Proof.
  pose proof (be_decode_bound (keccak x) (keccak_bytes x)) as Hk. rewrite keccak_length in Hk.
  change (256 ^ Z.of_nat 32) with (2 ^ 256) in Hk. split; [lia|].
  destruct (decide (be_decode (keccak x) = 0)) as [->|]; [done|]. apply Z.log2_lt_pow2; lia.
Qed.

Lemma bucket_number_lt (x y : list Z) : (bucket_number x y < NUMBER_OF_BUCKETS)%nat.
Proof.
  destruct (keccak_log x) as [Hx Hlx], (keccak_log y) as [Hy Hly].
  pose proof (Z.log2_lxor _ _ Hx Hy) as Hl. unfold bucket_number, NUMBER_OF_BUCKETS, saturating_sub, bits.
  destruct (_ =? 0); lia.
Qed.

(** ** Changing one bucket *)

Lemma bucket_at_run t i : table_ok t → (i < NUMBER_OF_BUCKETS)%nat →
  ∃ b, buckets t !! i = Some b ∧ bucket_ok (local_node_id t) i b ∧
    (bucket_at i : TableM Bucket) t = (Ok b, t).
Proof.
  intros [Hl Hb] Hi. destruct (lookup_lt_is_Some_2 (buckets t) i) as [b Hlk]; [lia|].
  exists b. split_and!; [done|by apply Hb|]. unfold bucket_at. by rewrite Hlk.
Qed.

Definition with_bucket (i : nat) b t : KademliaTable :=
  {| local_node_id := local_node_id t; buckets := <[i := b]> (buckets t) |}.

Lemma with_bucket_ok i b t :
  table_ok t → bucket_ok (local_node_id t) i b → table_ok (with_bucket i b t).
Proof.
  intros [Hl Hb] Hi. split; [cbn; by rewrite length_insert|]. intros j b' Hj. cbn in Hj |- *.
  apply list_lookup_insert_Some in Hj as [(-> & <- & _)|[_ Hj]]; [done|by apply Hb].
Qed.

Lemma with_bucket_lookup i b t :
  table_ok t → (i < NUMBER_OF_BUCKETS)%nat → buckets (with_bucket i b t) !! i = Some b.
Proof. intros [Hl _] Hi. cbn. rewrite list_lookup_insert_eq; [done|lia]. Qed.

(** ** The peers of a bucket *)

Lemma has_id_spec id p : has_id id p = true ↔ peer_id p = id.
Proof. unfold has_id. apply bool_decide_eq_true. Qed.

Lemma no_id id (l : list PeerData) : existsb (has_id id) l = false ↔ id ∉ peer_id <$> l.
Proof.
  rewrite <-not_true_iff_false, existsb_exists, list_elem_of_fmap. split; intros Hn Hx; apply Hn.
  - destruct Hx as (p & -> & Hp). exists p. split; [by apply list_elem_of_In|by apply has_id_spec].
  - destruct Hx as (p & Hp & Hid). exists p. apply has_id_spec in Hid.
    split; [done|by apply list_elem_of_In].
Qed.

Lemma placed_sub local_id i l l' : l' ⊆+ l → placed local_id i l → placed local_id i l'.
Proof.
  intros (k & Hk)%submseteq_Permutation [Hn Hf]. rewrite Hk in Hn, Hf. rewrite fmap_app in Hn.
  split; [by apply NoDup_app in Hn as [? _]|by apply Forall_app in Hf as [? _]].
Qed.

Lemma placed_cons local_id i p l l' :
  placed local_id i l → peer_id p ∉ peer_id <$> l → bucket_number (peer_id p) local_id = i →
  l' ≡ₚ p :: l → placed local_id i l'.
Proof. intros [Hn Hf] Hp Hi Hl. unfold placed. rewrite Hl. split; cbn; by constructor. Qed.

Lemma bucket_ok_push local_id i b p :
  bucket_ok local_id i b → peer_id p ∉ peer_id <$> peers b ++ replacements b →
  bucket_number (peer_id p) local_id = i → length (peers b) ≠ MAX_NODES_PER_BUCKET →
  bucket_ok local_id i {| peers := peers b ++ [p]; replacements := replacements b |}.
Proof.
  intros [Hp Hr Hpl] Hn Hi Hne. split; cbn [peers replacements]; [rewrite length_app; cbn; lia|done|].
  eapply placed_cons; [exact Hpl|exact Hn|done|]. rewrite <-app_assoc. cbn [app].
  by rewrite <-Permutation_middle.
Qed.

Lemma bucket_ok_replacement local_id i b p :
  bucket_ok local_id i b → peer_id p ∉ peer_id <$> peers b ++ replacements b →
  bucket_number (peer_id p) local_id = i →
  let kept := if (MAX_NUMBER_OF_REPLACEMENTS <=? length (replacements b))%nat
              then drop 1 (replacements b) else replacements b in
  bucket_ok local_id i {| peers := peers b; replacements := kept ++ [p] |}.
Proof.
  intros [Hp Hr Hpl] Hn Hi kept.
  assert (kept ⊆+ replacements b ∧ (S (length kept) ≤ MAX_NUMBER_OF_REPLACEMENTS)%nat) as [Hs Hl].
  { subst kept. destruct (Nat.leb_spec MAX_NUMBER_OF_REPLACEMENTS (length (replacements b))).
    - split; [apply sublist_submseteq, sublist_drop|].
      rewrite length_drop. unfold MAX_NUMBER_OF_REPLACEMENTS in *. lia.
    - split; [done|lia]. }
  assert (peers b ++ kept ⊆+ peers b ++ replacements b) as Hs2 by (by apply submseteq_app).
  split; cbn [peers replacements]; [done|rewrite length_app; cbn; lia|].
  eapply placed_cons; [by eapply placed_sub| |done|by rewrite app_assoc, <-Permutation_cons_append].
  intros Hin. apply Hn. apply list_elem_of_fmap in Hin as (p' & -> & Hp').
  apply list_elem_of_fmap. exists p'. split; [done|]. by eapply elem_of_submseteq.
Qed.

(** The peer at [k] is replaced by the last replacement, or removed. *)
Lemma bucket_ok_replace local_id i b k p q :
  bucket_ok local_id i b → peers b !! k = Some p → last (replacements b) = Some q →
  bucket_ok local_id i {| peers := <[k := q]> (peers b);
    replacements := take (pred (length (replacements b))) (replacements b) |}.
Proof.
  intros [Hp Hr Hpl] Hk Hq. apply last_Some in Hq as [rs Hrs]. rewrite Hrs in *.
  rewrite length_app in *. cbn [length] in *. rewrite Nat.add_1_r in *. cbn [pred].
  rewrite take_app_length. split; cbn [peers replacements]; [by rewrite length_insert|lia|].
  eapply placed_sub; [|exact Hpl].
  assert (peers b ++ rs ++ [q] ≡ₚ (<[k := q]> (peers b) ++ rs) ++ [p]) as ->.
  { rewrite (insert_take_drop _ _ _ (lookup_lt_Some _ _ _ Hk)).
    rewrite <-(take_drop_middle _ _ _ Hk) at 1. rewrite <-!app_assoc. cbn [app].
    rewrite (Permutation_app_comm rs [p]), (Permutation_app_comm rs [q]). cbn [app].
    rewrite <-!Permutation_middle. constructor. }
  by apply submseteq_inserts_r.
Qed.

Lemma bucket_ok_remove local_id i b k :
  bucket_ok local_id i b →
  bucket_ok local_id i {| peers := delete k (peers b); replacements := replacements b |}.
Proof.
  intros [Hp Hr Hpl]. assert (delete k (peers b) ⊆+ peers b) as Hs
    by apply sublist_submseteq, sublist_delete.
  split; cbn [peers replacements]; [|done|].
  - apply submseteq_length in Hs. lia.
  - eapply placed_sub; [|exact Hpl]. by apply submseteq_app.
Qed.

(** Changing a peer without its node. *)
Lemma update_first_ids id f (l : list PeerData) :
  (∀ p, node (f p) = node p) → peer_id <$> update_first id f l = peer_id <$> l.
Proof.
  intros Hf. unfold update_first. destruct (list_find _ l) as [[i p]|] eqn:Ef; [|done].
  apply list_find_Some in Ef as (Hi & _). rewrite list_fmap_insert.
  apply list_insert_id. rewrite list_lookup_fmap, Hi. cbn. unfold peer_id. by rewrite Hf.
Qed.

Lemma bucket_ok_update local_id i b id f :
  (∀ p, node (f p) = node p) → bucket_ok local_id i b →
  bucket_ok local_id i {| peers := update_first id f (peers b); replacements := replacements b |}.
Proof.
  intros Hf [Hp Hr [Hn Hpl]]. pose proof (update_first_ids id f (peers b) Hf) as Hid.
  split; cbn [peers replacements]; [|done|].
  - apply (f_equal length) in Hid. rewrite !length_fmap in Hid. lia.
  - assert (peer_id <$> update_first id f (peers b) ++ replacements b =
      peer_id <$> peers b ++ replacements b) as He by (by rewrite !fmap_app, Hid).
    split; [by rewrite He|].
    change (Forall ((λ x, bucket_number x local_id = i) ∘ peer_id)
      (update_first id f (peers b) ++ replacements b)).
    rewrite <-Forall_fmap, He, Forall_fmap. done.
Qed.

(** ** The operations *)

Lemma update_peer_run t i id f :
  table_ok t → (i < NUMBER_OF_BUCKETS)%nat → (∀ p, node (f p) = node p) →
  ∃ t', (update_peer i id f : TableM unit) t = (Ok tt, t') ∧ table_ok t' ∧
    local_node_id t' = local_node_id t.
Proof.
  intros Ht Hi Hf. destruct (bucket_at_run t i Ht Hi) as (b & _ & Hb & Hrun).
  eexists. split; [unfold update_peer; by rewrite (bind_run _ _ _ _ _ Hrun)|].
  split; [|done]. apply with_bucket_ok; [done|]. by apply bucket_ok_update.
Qed.

Lemma keep_others id (l : list PeerData) :
  id ∉ peer_id <$> l → base.filter (λ r, peer_id r ≠ id) l = l.
Proof.
  induction l as [|p l IH]; [done|]. rewrite fmap_cons, not_elem_of_cons. intros [Hp Hl].
  rewrite filter_cons_True by done. by rewrite IH.
Qed.

Lemma insert_inner_run t now n :
  table_ok t → let i := bucket_number (node_id n) (local_node_id t) in
  ∃ b o flag b', buckets t !! i = Some b ∧
    (insert_node_inner now n i : TableM _) t = (Ok (o, flag), with_bucket i b' t) ∧
    bucket_ok (local_node_id t) i b' ∧
    match o with
    | None => flag = false ∧ b' = b ∧ node_id n ∈ peer_id <$> peers b ++ replacements b
    | Some p => p = peer_new n now 0 false ∧ node_id n ∉ peer_id <$> peers b ++ replacements b ∧
        peers b' = (if flag then peers b ++ [p] else peers b) ∧
        if flag then replacements b' = replacements b
        else last (replacements b') = Some p ∧ length (peers b) = MAX_NODES_PER_BUCKET
    end.
Proof.
  intros Ht i. destruct (bucket_at_run t i Ht) as (b & Hlk & Hb & Hrun); [apply bucket_number_lt|].
  exists b. unfold insert_node_inner. rewrite (bind_run _ _ _ _ _ Hrun).
  assert (with_bucket i b t = t) as Hsame.
  { unfold with_bucket. rewrite list_insert_id by done. by destruct t. }
  destruct (existsb (has_id (node_id n)) (peers b)) eqn:E1.
  { exists None, false, b. rewrite Hsame. split_and!; try done. rewrite fmap_app, elem_of_app. left.
    destruct (decide (node_id n ∈ peer_id <$> peers b)) as [|Hno%no_id]; [done|congruence]. }
  destruct (existsb (has_id (node_id n)) (replacements b)) eqn:E2.
  { exists None, false, b. rewrite Hsame. split_and!; try done. rewrite fmap_app, elem_of_app. right.
    destruct (decide (node_id n ∈ peer_id <$> replacements b)) as [|Hno%no_id]; [done|congruence]. }
  assert (node_id n ∉ peer_id <$> peers b ++ replacements b) as Hnew.
  { rewrite fmap_app, elem_of_app. intros [Hin|Hin]; by apply no_id in Hin. }
  exists (Some (peer_new n now 0 false)).
  destruct (Nat.eqb_spec (length (peers b)) MAX_NODES_PER_BUCKET) as [El|El].
  - exists false. eexists. split; [done|]. split.
    { unfold insert_as_replacement. unfold mbind at 1, state_bind at 1.
      rewrite (bind_run _ _ _ _ _ Hrun). reflexivity. }
    split; [by apply bucket_ok_replacement|]. split_and!; try done. cbn.
    by rewrite last_snoc.
  - exists true, {| peers := peers b ++ [peer_new n now 0 false]; replacements := replacements b |}.
    split; [done|]. split; [|split; [by apply bucket_ok_push|done]].
    unfold mbind at 1, state_bind at 1. unfold remove_from_replacements.
    rewrite (bind_run _ _ _ _ _ Hrun), keep_others; cycle 1.
    { intros Hin. apply Hnew. rewrite fmap_app, elem_of_app. by right. }
    unfold set_bucket at 1, state_modify. unfold push_peer, mbind, state_bind, bucket_at.
    cbn [buckets]. rewrite list_lookup_insert_eq by (apply lookup_lt_Some in Hlk; done).
    cbn. unfold with_bucket. by rewrite list_insert_insert_eq.
Qed.

Lemma insert_node_run t now n :
  table_ok t → ∃ o t', (insert_node now n : TableM _) t = (Ok o, t') ∧ table_ok t' ∧
    local_node_id t' = local_node_id t.
Proof.
  intros Ht. destruct (insert_inner_run t now n Ht) as (b & o & flag & b' & _ & Hrun & Hb' & _).
  exists (o, flag). eexists. split; [unfold insert_node; by erewrite bind_run by reflexivity|].
  split; [by apply with_bucket_ok|done].
Qed.

Lemma replace_peer_run t id :
  table_ok t → ∃ o t', (replace_peer id : TableM _) t = (Ok o, t') ∧ table_ok t' ∧
    local_node_id t' = local_node_id t.
Proof.
  intros Ht. set (i := bucket_number (local_node_id t) id).
  destruct (bucket_at_run t i Ht) as (b & Hlk & Hb & Hrun); [apply bucket_number_lt|].
  unfold replace_peer. erewrite bind_run by reflexivity. fold i. unfold replace_peer_inner.
  rewrite (bind_run _ _ _ _ _ Hrun).
  destruct (list_find _ (peers b)) as [[k p]|] eqn:Ef; [|by eauto].
  apply list_find_Some in Ef as (Hk & _).
  destruct (last (replacements b)) as [q|] eqn:Eq; do 2 eexists; (split; [reflexivity|split; [|reflexivity]]);
    apply with_bucket_ok; [done|by eapply bucket_ok_replace|done|by apply bucket_ok_remove].
Qed.

(** ** Reachable tables *)

Inductive table_step t t' : Prop :=
| StepInsert now n r : (insert_node now n : TableM _) t = (r, t') → table_step t t'
| StepReplace id r : (replace_peer id : TableM _) t = (r, t') → table_step t t'
| StepPong now id r : (pong_answered now id : TableM _) t = (r, t') → table_step t t'
| StepPing now id hash r : (update_peer_ping now id hash : TableM _) t = (r, t') → table_step t t'
| StepRevalidate now id hash r :
    (update_peer_ping_with_revalidation now id hash : TableM _) t = (r, t') → table_step t t'
| StepChannels id c r : (set_channels id c : TableM _) t = (r, t') → table_step t t'
| StepUpdate id f r : (∀ p, node (f p) = node p) →
    (get_by_node_id_mut id f : TableM _) t = (r, t') → table_step t t'.

Lemma update_run t id f :
  table_ok t → (∀ p, node (f p) = node p) →
  ∃ t', (get_by_node_id_mut id f : TableM unit) t = (Ok tt, t') ∧ table_ok t' ∧
    local_node_id t' = local_node_id t.
Proof.
  intros Ht Hf. unfold get_by_node_id_mut. erewrite bind_run by reflexivity.
  apply update_peer_run; [done|apply bucket_number_lt|done].
Qed.

Lemma set_channels_run t id c :
  table_ok t → ∃ t', (set_channels id c : TableM unit) t = (Ok tt, t') ∧ table_ok t' ∧
    local_node_id t' = local_node_id t.
Proof.
  intros Ht. unfold set_channels. set (i := bucket_number _ _).
  destruct (bucket_at_run t i Ht) as (b & -> & _); [apply bucket_number_lt|].
  by apply update_peer_run; [|apply bucket_number_lt|].
Qed.

Lemma table_step_ok t t' :
  table_step t t' → table_ok t → table_ok t' ∧ local_node_id t' = local_node_id t.
Proof.
  intros Hs Ht.
  destruct Hs as [now n r Hr|id r Hr|now id r Hr|now id hash r Hr|now id hash r Hr|id c r Hr|id f r Hf Hr].
  - destruct (insert_node_run t now n Ht) as (o & t1 & Hrun & ?). rewrite Hrun in Hr. by simplify_eq.
  - destruct (replace_peer_run t id Ht) as (o & t1 & Hrun & ?). rewrite Hrun in Hr. by simplify_eq.
  - destruct (update_run t id (pong now) Ht) as (t1 & Hrun & ?); [done|].
    unfold pong_answered in Hr. rewrite Hrun in Hr. by simplify_eq.
  - destruct (update_run t id (ping hash now) Ht) as (t1 & Hrun & ?); [done|].
    unfold update_peer_ping in Hr. rewrite Hrun in Hr. by simplify_eq.
  - destruct (update_run t id (ping_with_revalidation hash now) Ht) as (t1 & Hrun & ?); [done|].
    unfold update_peer_ping_with_revalidation in Hr. rewrite Hrun in Hr. by simplify_eq.
  - destruct (set_channels_run t id c Ht) as (t1 & Hrun & ?). rewrite Hrun in Hr. by simplify_eq.
  - destruct (update_run t id f Ht Hf) as (t1 & Hrun & ?). rewrite Hrun in Hr. by simplify_eq.
Qed.

Lemma new_ok local_id : table_ok (new local_id).
Proof.
  split; [apply length_replicate|]. intros i b Hi. apply lookup_replicate in Hi as [-> _].
  split; cbn; [lia|lia|]. split; constructor.
Qed.

Lemma reachable_ok local_id t : rtc table_step (new local_id) t → table_ok t.
Proof.
  intros Hr. pose proof (new_ok local_id) as Hok. induction Hr as [|t1 t2 t3 Hs _ IH]; [done|].
  by apply IH, (table_step_ok t1).
Qed.

(** ** Finding peers *)

Definition find_peer (id : list Z) (l : list PeerData) : option PeerData :=
  snd <$> list_find (λ p, has_id id p = true) l.

Lemma get_by_node_id_run t id b :
  buckets t !! bucket_number id (local_node_id t) = Some b →
  (get_by_node_id id : TableM _) t = (Ok (find_peer id (peers b)), t).
Proof.
  intros Hb. unfold get_by_node_id. erewrite bind_run by reflexivity.
  erewrite bind_run by (unfold bucket_at; rewrite Hb; reflexivity). done.
Qed.

Lemma find_peer_cons id q l :
  find_peer id (q :: l) = if decide (peer_id q = id) then Some q else find_peer id l.
Proof.
  unfold find_peer. cbn [list_find]. destruct (decide (has_id id q = true)) as [Hq|Hq].
  - apply has_id_spec in Hq. by rewrite decide_True.
  - rewrite decide_False by (by intros ?%has_id_spec). by destruct (list_find _ l) as [[k r]|].
Qed.

Lemma find_peer_app id l k :
  find_peer id (l ++ k) = match find_peer id l with Some p => Some p | None => find_peer id k end.
Proof.
  induction l as [|q l IH]; [done|]. cbn [app]. rewrite !find_peer_cons. case_decide; [done|exact IH].
Qed.

Lemma find_peer_None id l : id ∉ peer_id <$> l → find_peer id l = None.
Proof.
  induction l as [|q l IH]; [done|]. rewrite fmap_cons, not_elem_of_cons. intros [Hq Hl].
  rewrite find_peer_cons, decide_False by done. by apply IH.
Qed.

(** What an insertion leaves of the other nodes. *)
Lemma with_bucket_find i b b' t id :
  table_ok t → buckets t !! i = Some b → find_peer id (peers b') = find_peer id (peers b) →
  ((get_by_node_id id : TableM _) (with_bucket i b' t)).1 = ((get_by_node_id id : TableM _) t).1.
Proof.
  intros Ht Hb He. set (j := bucket_number id (local_node_id t)).
  destruct (bucket_at_run t j Ht) as (c & Hc & _); [apply bucket_number_lt|].
  rewrite (get_by_node_id_run t id c Hc). destruct (decide (i = j)) as [->|Hne].
  - rewrite (get_by_node_id_run _ id b'); [simplify_eq; cbn; by rewrite He|].
    apply with_bucket_lookup; [done|apply bucket_number_lt].
  - rewrite (get_by_node_id_run _ id c); [done|]. cbn. by rewrite list_lookup_insert_ne.
Qed.
End proofs.

(** C35 The table of peers.  In every table that insertions, replacements, pings and
    pongs reach from an empty one, the 256 buckets have at most 16 peers and 10
    replacements, no node is in a bucket twice and each is in the bucket of its
    distance, so that no insertion panics.  A node that is inserted is found; one
    that is not, because its bucket is full, is the last replacement; a node that
    was known leaves the table as it was; and the other nodes are found as before. *)
Theorem peer_table_correct `{CryptoLaws} `{BuildProfile} {Channels Sender E : Type}
    (local_id : list Z) (t : @KademliaTable Channels Sender) (now : Z) (n : Node) :
  rtc (table_step (E := E)) (new local_id) t →
  table_ok t ∧
  ∃ o flag t', (insert_node now n : StateT _ E _) t = (Ok (o, flag), t') ∧ table_ok t' ∧
    (∀ id, id ≠ node_id n →
       ((get_by_node_id id : StateT _ E _) t').1 = ((get_by_node_id id : StateT _ E _) t).1) ∧
    match o with
    | Some p => p = peer_new n now 0 false ∧
        ((get_by_node_id (node_id n) : StateT _ E _) t').1 = Ok (if flag : bool then Some p else None)
    | None => flag = false ∧ t' = t
    end.
Proof.
  intros Hr. pose proof (reachable_ok local_id t Hr) as Ht. split; [done|].
  destruct (insert_inner_run (E := E) t now n Ht) as (b & o & flag & b' & Hb & Hrun & Hb' & Ho).
  set (i := bucket_number (node_id n) (local_node_id t)) in *.
  exists o, flag, (with_bucket i b' t). split_and!; [|by apply with_bucket_ok|..].
  { unfold insert_node. by erewrite bind_run by reflexivity. }
  - intros id Hid. apply with_bucket_find with b; [done..|].
    destruct o as [p|]; [|by destruct Ho as (_ & -> & _)]. destruct Ho as (-> & _ & -> & _).
    destruct flag; [|done]. rewrite find_peer_app. destruct (find_peer id (peers b)); [done|].
    rewrite find_peer_cons. by rewrite decide_False by (by intros ?).
  - destruct o as [p|]; cycle 1.
    { destruct Ho as (-> & -> & _). split; [done|]. unfold with_bucket.
      rewrite list_insert_id by done. by destruct t. }
    destruct Ho as (-> & Hnew & Hpeers & _). split; [done|].
    rewrite (get_by_node_id_run _ _ b');
      [cbn [fst]|apply with_bucket_lookup; [done|apply bucket_number_lt]].
    assert (find_peer (node_id n) (peers b) = None) as Hno.
    { apply find_peer_None. intros Hin. apply Hnew. rewrite fmap_app, elem_of_app. by left. }
    rewrite Hpeers. destruct flag; [|by rewrite Hno].
    rewrite find_peer_app, Hno, find_peer_cons. by rewrite decide_True.
Qed.

(** ** Concrete tables *)

#[local] Instance table_build : BuildProfile := true.

Notation DemoM := (StateT (@KademliaTable unit unit) Empty_set).

Definition demo_node (i : Z) : Node :=
  {| ip := [127; 0; 0; 1]; udp_port := 30303; tcp_port := 30303; node_id := replicate 64 i |}.

Definition demo_insert (i : Z) (t : @KademliaTable unit unit) : @KademliaTable unit unit :=
  ((insert_node 100 (demo_node i) : DemoM _) t).2.

Definition local_demo : list Z := replicate 64 0xff.
Definition first_table : @KademliaTable unit unit := demo_insert 1 (new local_demo).

Lemma first_table_reached : rtc (table_step (E := Empty_set)) (new local_demo) first_table.
Proof. apply rtc_once. eapply (StepInsert _ _ 100 (demo_node 1)). apply surjective_pairing. Qed.

Example peer_table_correct_witness :
  ∃ o flag t', (insert_node 101 (demo_node 2) : DemoM _) first_table = (Ok (o, flag), t') ∧ table_ok t'.
Proof.
  destruct (peer_table_correct (E := Empty_set) local_demo first_table 101 (demo_node 2)
    first_table_reached) as (_ & o & flag & t' & Hrun & Ht' & _).
  exists o, flag, t'. split; [exact Hrun|exact Ht'].
Defined.

Definition full_table : @KademliaTable unit unit := Eval vm_compute in
  foldl (λ t i, demo_insert (Z.of_nat i) t) (new local_demo) (seq 0 40).

Definition closest_demo : list Node := Eval vm_compute in
  match (get_closest_nodes (replicate 64 200) : DemoM _) full_table with (Ok l, _) => l | _ => [] end.

(** The nodes that [get_closest_nodes] answers are not the closest: a nearer node
    replaces the first one that is farther, not the farthest, so that of 36 peers
    node 3 is left out while node 4, which is farther away, stays. *)
Theorem closest_nodes_not_closest :
  let target := replicate 64 200 in
  (get_closest_nodes target : DemoM _) full_table = (Ok closest_demo, full_table) ∧
  replicate 64 3 ∈ peer_id <$> all_peers full_table ∧
  replicate 64 3 ∉ node_id <$> closest_demo ∧ replicate 64 4 ∈ node_id <$> closest_demo ∧
  (bucket_number target (replicate 64 3%Z) < bucket_number target (replicate 64 4%Z))%nat.
Proof.
  cbv zeta. split; [vm_compute; reflexivity|].
  split; [apply (bool_decide_unpack _); vm_compute; exact I|].
  split; [apply (bool_decide_unpack _); vm_compute; exact I|].
  split; [apply (bool_decide_unpack _); vm_compute; exact I|].
  apply Nat.ltb_lt. vm_compute. reflexivity.
Qed.
