(* ===== verification/Rlpx.v ===== *)
(** * RLPx messages

    crates/networking/p2p/rlpx: the messages of the p2p, eth and snap protocols with
    their encodings (message.rs, p2p.rs, eth/blocks.rs, eth/transactions.rs,
    eth/receipts.rs, eth/status.rs, snap.rs), the answers that are read from the
    store, and the checks on the status of a peer (eth/backend.rs).  Snappy and the
    secp256k1 keys of k256 are parameters.  An encoder gives the bytes that it
    appends to its buffer. *)

From stdpp Require Import base option list numbers strings pretty gmap.
From S2P Require Import Prelude Rlp RlpStruct LevmHost Trie Tx BlockTypes Chain Store.

Local Open Scope Z_scope.
Local Open Scope rlp_scope.

(** ** Strings and quadruples (rlp/encode.rs, rlp/decode.rs) *)

Definition cont (b : Z) : bool := (0x80 <=? b) && (b <=? 0xBF).
Definition within (a b c : Z) : bool := (a <=? c) && (c <=? b).

(** [str::from_utf8]: the well-formed byte sequences of the Unicode standard. *)
Fixpoint utf8_valid (bs : list Z) : bool :=
  match bs with
  | [] => true
  | a :: bs1 =>
      if a <? 0x80 then utf8_valid bs1
      else
        match bs1 with
        | [] => false
        | b :: bs2 =>
            if within 0xC2 0xDF a then cont b && utf8_valid bs2
            else
              match bs2 with
              | [] => false
              | c :: bs3 =>
                  if within 0xE0 0xEF a then
                    (if a =? 0xE0 then within 0xA0 0xBF b
                     else if a =? 0xED then within 0x80 0x9F b else cont b)
                    && cont c && utf8_valid bs3
                  else
                    match bs3 with
                    | [] => false
                    | d :: bs4 =>
                        within 0xF0 0xF4 a
                        && (if a =? 0xF0 then within 0x90 0xBF b
                            else if a =? 0xF4 then within 0x80 0x8F b else cont b)
                        && cont c && cont d && utf8_valid bs4
                    end
              end
        end
  end.

(** A [String] by its bytes. *)
Definition RString := list Z.
#[global] Typeclasses Opaque RString.

Definition decode_string (rlp : list Z) : Decoded (list Z * list Z) :=
  '(str_bytes, rest) ← decode_bytes rlp;
  if utf8_valid str_bytes then Ok (str_bytes, rest) else Err MalformedData.

#[export] Instance RString_encode : RLPEncode RString := mk_encode encode_slice.
#[export] Instance RString_decode : RLPDecode RString := decode_string.

(** The bytes of an ASCII text. *)
Definition text (s : string) : list Z := Z.of_N ∘ Ascii.N_of_ascii <$> String.list_ascii_of_string s.

Definition Quadruple (A B C D : Type) : Type := A * B * C * D.
#[global] Typeclasses Opaque Quadruple.
#[export] Instance Quadruple_encode `{RLPEncode A, RLPEncode B, RLPEncode C, RLPEncode D} :
  RLPEncode (Quadruple A B C D) := mk_encode encode_quadruple.
#[export] Instance Quadruple_decode `{RLPDecode A, RLPDecode B, RLPDecode C, RLPDecode D} :
  RLPDecode (Quadruple A B C D) := decode_quadruple.

(** ** Compression (utils.rs) *)

Inductive RLPEncodeError := EncodeInvalidCompression.
Notation Encoded A := (Outcome RLPEncodeError A).

(** The crates snap and k256. *)
Class Snappy := {
  snap_compress : list Z → option (list Z);
  snap_decompress : list Z → option (list Z);
}.
Class NodeKeys := {
  PublicKey : Type;
  (** The uncompressed point of a key, [to_encoded_point(false)], and the key of a point. *)
  to_encoded_point : PublicKey → list Z;
  from_encoded_point : list Z → option PublicKey;
}.

(** [debug_assert_eq!] is compiled in the profiles that check overflows. *)
Definition pubkey2id `{BuildProfile} `{NodeKeys} {E} (pk : PublicKey) : Outcome E (ByteArray 64) :=
  match to_encoded_point pk with
  | [] => Panic
  | tag :: id =>
      if overflow_checks && negb (tag =? 4) then Panic
      else if len id =? 64 then Ok id else Panic
  end.

(** [from_untagged_bytes] puts the tag of an uncompressed point first. *)
Definition id2pubkey `{NodeKeys} (id : ByteArray 64) : option PublicKey :=
  from_encoded_point (4 :: id).

Definition snappy_compress `{Snappy} (encoded_data : list Z) : Encoded (list Z) :=
  ok_or (snap_compress encoded_data) EncodeInvalidCompression.
Definition snappy_decompress `{Snappy} (msg_data : list Z) : Decoded (list Z) :=
  ok_or (snap_decompress msg_data) InvalidCompression.

(** The list of the fields, compressed. *)
Definition send `{Snappy} (e : Encoder.t) : Encoded (list Z) :=
  snappy_compress (Encoder.finish [] e).
Definition receive `{Snappy} (msg_data : list Z) : Decoded Decoder.t :=
  decompressed_data ← snappy_decompress msg_data;
  Decoder.new decompressed_data.

Definition u32_eqb (a : u32) (b : Z) : bool := Z.eqb a b.
Definition u64_eqb (a : u64) (b : Z) : bool := Z.eqb a b.

(** [H256::from_slice] panics unless it gets 32 bytes. *)
Definition hash_from_slice {E} (bs : list Z) : Outcome E H256 :=
  if len bs =? 32 then Ok bs else Panic.

(** ** p2p.rs *)

Module Capability.
Inductive t := P2p | Eth | Snap.

Definition encode (self : t) : list Z :=
  match self with
  | P2p => encode_slice (text "p2p")
  | Eth => encode_slice (text "eth")
  | Snap => encode_slice (text "snap")
  end.

Definition decode_unfinished (rlp : list Z) : Decoded (t * list Z) :=
  '(cap_string, rest) ← decode_string rlp;
  if bytes_eqb cap_string (text "p2p") then Ok (P2p, rest)
  else if bytes_eqb cap_string (text "eth") then Ok (Eth, rest)
  else if bytes_eqb cap_string (text "snap") then Ok (Snap, rest)
  else Err UnexpectedString.
End Capability.

#[export] Instance Capability_encode : RLPEncode Capability.t := mk_encode Capability.encode.
#[export] Instance Capability_decode : RLPDecode Capability.t := Capability.decode_unfinished.

Module HelloMessage.
Record t `{NodeKeys} := { capabilities : list (Capability.t * u8); node_id : PublicKey }.

(** It is not compressed. *)
Definition encode `{BuildProfile} `{NodeKeys} (self : t) : Encoded (list Z) :=
  id ← pubkey2id (node_id self);
  Ok (Encoder.finish [] (Encoder.new ⊕ (5 : u8) ⊕ (text "Ethereum(++)/1.0.0" : RString)
    ⊕ capabilities self ⊕ (0 : u8) ⊕ id)).

Definition decode `{NodeKeys} (msg_data : list Z) : Decoded t :=
  decoder ← Decoder.new msg_data;
  '(protocol_version, decoder) ← Decoder.decode_field (T := u64) decoder "protocolVersion";
  if negb (u64_eqb protocol_version 5) then Panic
  else
    '(_, decoder) ← Decoder.decode_field (T := RString) decoder "clientId";
    '(capabilities, decoder) ←
      Decoder.decode_field (T := list (Capability.t * u8)) decoder "capabilities";
    '(_, decoder) ← Decoder.decode_field (T := u16) decoder "listenPort";
    '(node_id, _) ← Decoder.decode_field (T := ByteArray 64) decoder "nodeId";
    node_id ← ok_or (id2pubkey node_id) MalformedData;
    Ok {| capabilities := capabilities; node_id := node_id |}.
End HelloMessage.

Module DisconnectMessage.
Record t := { reason : option u8 }.
Definition byte_reason (b : Z) : t := {| reason := Some b |}.

Definition encode `{Snappy} (self : t) : Encoded (list Z) :=
  snappy_compress
    (match reason self with
     | Some value => Encoder.finish [] (Encoder.new ⊕ (value : u8))
     | None => encode_vec (T := u8) []
     end).

Definition decode `{Snappy} (msg_data : list Z) : Decoded t :=
  decompressed_data ← snappy_decompress msg_data;
  match decompressed_data with
  | [] => Ok {| reason := None |}
  | [b] => Ok (byte_reason b)
  | _ =>
      decoder ← Decoder.new decompressed_data;
      '(reason, _) ← Decoder.decode_optional_field (T := u8) decoder;
      Ok {| reason := reason |}
  end.
End DisconnectMessage.

(** [PingMessage] and [PongMessage] have no fields and the same encodings. *)
Module PingMessage.
Definition encode `{Snappy} : Encoded (list Z) := snappy_compress (encode_vec (T := u8) []).

Definition decode `{Snappy} (msg_data : list Z) : Decoded unit :=
  decoder ← receive msg_data;
  match Decoder.finish_unchecked decoder with [] => Ok tt | _ => Panic end.
End PingMessage.

(** ** eth/status.rs *)

Module StatusMessage.
Record t := {
  eth_version : u32;
  network_id : u64;
  total_difficulty : u256;
  block_hash : H256;
  genesis : H256;
  fork_id : ForkId.t;
}.

Definition encode `{Snappy} (self : t) : Encoded (list Z) :=
  send (Encoder.new ⊕ eth_version self ⊕ network_id self ⊕ total_difficulty self
    ⊕ block_hash self ⊕ genesis self ⊕ fork_id self).

Definition decode `{Snappy} (msg_data : list Z) : Decoded t :=
  decoder ← receive msg_data;
  '(eth_version, decoder) ← Decoder.decode_field (T := u32) decoder "protocolVersion";
  if negb (u32_eqb eth_version 68) then Panic
  else
    '(network_id, decoder) ← Decoder.decode_field (T := u64) decoder "networkId";
    '(total_difficulty, decoder) ← Decoder.decode_field (T := u256) decoder "totalDifficulty";
    '(block_hash, decoder) ← Decoder.decode_field (T := H256) decoder "blockHash";
    '(genesis, decoder) ← Decoder.decode_field (T := H256) decoder "genesis";
    '(fork_id, _) ← Decoder.decode_field (T := ForkId.t) decoder "forkId";
    Ok {| eth_version := eth_version; network_id := network_id;
          total_difficulty := total_difficulty; block_hash := block_hash; genesis := genesis;
          fork_id := fork_id |}.
End StatusMessage.

(** ** eth/blocks.rs *)

Module HashOrNumber.
Inductive t := Hash (hash : H256) | Number (number : u64).

Definition encode (self : t) : list Z :=
  match self with Hash hash => encode hash | Number number => encode number end.
Definition length (self : t) : Z :=
  match self with Hash hash => rlp_length hash | Number number => rlp_length number end.

Definition HASH_FIRST_BYTE_DECODER : Z := 160.

Definition decode_unfinished (buf : list Z) : Decoded (t * list Z) :=
  match buf with
  | [] => Err InvalidLength
  | first_byte :: _ =>
      if first_byte =? HASH_FIRST_BYTE_DECODER then
        '(hash, rest) ← decode_unfinished (T := H256) buf;
        Ok (Hash hash, rest)
      else
        '(number, rest) ← decode_unfinished (T := u64) buf;
        Ok (Number number, rest)
  end.
End HashOrNumber.

#[export] Instance HashOrNumber_encode : RLPEncode HashOrNumber.t :=
  {| encode := HashOrNumber.encode; rlp_length := HashOrNumber.length |}.
#[export] Instance HashOrNumber_decode : RLPDecode HashOrNumber.t := HashOrNumber.decode_unfinished.

(** [as i64] and the arithmetic of [i64]. *)
Definition as_i64 (x : Z) : Z := (x + 2 ^ 63) mod 2 ^ 64 - 2 ^ 63.
Definition i64_result `{BuildProfile} {E} (x : Z) : Outcome E Z :=
  if (- 2 ^ 63 <=? x) && (x <? 2 ^ 63) then Ok x
  else if overflow_checks then Panic else Ok (as_i64 x).
Definition as_u64 (x : Z) : Z := x mod 2 ^ 64.

Module GetBlockHeaders.
Record t := {
  id : u64;
  startblock : HashOrNumber.t;
  limit : u64;
  skip : u64;
  reverse : bool;
}.

Definition BLOCK_HEADER_LIMIT : Z := 1024.

Definition encode `{Snappy} (self : t) : Encoded (list Z) :=
  send (Encoder.new ⊕ id self
    ⊕ ((startblock self, limit self, skip self, if reverse self then 1 else 0)
        : Quadruple HashOrNumber.t u64 u64 u8)).

Definition new (id : u64) (params : Quadruple HashOrNumber.t u64 u64 bool) : t :=
  let '(start_block, limit, skip, reverse) := params in
  {| id := id; startblock := start_block; limit := limit; skip := skip; reverse := reverse |}.

Definition decode `{Snappy} (msg_data : list Z) : Decoded t :=
  decoder ← receive msg_data;
  '(id, decoder) ← Decoder.decode_field (T := u64) decoder "request-id";
  '(params, _) ← Decoder.decode_field (T := Quadruple HashOrNumber.t u64 u64 bool) decoder
    "get headers request params";
  Ok (new id params).

(** The loop of [fetch_headers]; an error of the store empties the answer. *)
Fixpoint headers_from `{BuildProfile} (steps : nat) (block_skip current_block : Z) (s : Store.t)
    (headers : list BlockHeader.t) : Outcome Empty_set (list BlockHeader.t) :=
  match steps with
  | O => Ok headers
  | S steps =>
      match (Store.get_block_header (as_u64 current_block) s).1 with
      | Ok (Some block_header) =>
          next ← i64_result (current_block + block_skip);
          headers_from steps block_skip next s (headers ++ [block_header])
      | Ok None => Ok headers
      | Err _ => Ok []
      | Panic => Panic
      | NoFuel => NoFuel
      end
  end.

Definition start_of (self : t) (s : Store.t) : option Z :=
  match startblock self with
  | HashOrNumber.Hash block_hash =>
      match (Store.get_block_number block_hash s).1 with Ok number => number | _ => None end
  | HashOrNumber.Number block_num => Some block_num
  end.

Definition fetch_headers `{BuildProfile} (self : t) (s : Store.t) :
    Outcome Empty_set (list BlockHeader.t) :=
  match start_of self s with
  | None => Ok []
  | Some start_block =>
      let current_block := as_i64 start_block in
      step ← u_add 64 (skip self) 1;
      block_skip ← (if reverse self then i64_result (- as_i64 step) else Ok (as_i64 step));
      let limit := if BLOCK_HEADER_LIMIT <? limit self then BLOCK_HEADER_LIMIT else limit self in
      headers_from (Z.to_nat limit) block_skip current_block s []
  end.
End GetBlockHeaders.

Module BlockHeaders.
Record t := { id : u64; block_headers : list BlockHeader.t }.

Definition encode `{Snappy} (self : t) : Encoded (list Z) :=
  send (Encoder.new ⊕ id self ⊕ block_headers self).

Definition decode `{Snappy} (msg_data : list Z) : Decoded t :=
  decoder ← receive msg_data;
  '(id, decoder) ← Decoder.decode_field (T := u64) decoder "request-id";
  '(block_headers, _) ← Decoder.decode_field (T := list BlockHeader.t) decoder "headers";
  Ok {| id := id; block_headers := block_headers |}.
End BlockHeaders.

Module GetBlockBodies.
Record t := { id : u64; block_hashes : list H256 }.

Definition BLOCK_BODY_LIMIT : nat := 1024.

Definition encode `{Snappy} (self : t) : Encoded (list Z) :=
  send (Encoder.new ⊕ id self ⊕ block_hashes self).

Definition decode `{Snappy} (msg_data : list Z) : Decoded t :=
  decoder ← receive msg_data;
  '(id, decoder) ← Decoder.decode_field (T := u64) decoder "request-id";
  '(block_hashes, _) ← Decoder.decode_field (T := list H256) decoder "blockHashes";
  Ok {| id := id; block_hashes := block_hashes |}.

Fixpoint bodies_of (hashes : list H256) (s : Store.t) (block_bodies : list BlockBody.t) :
    Outcome Empty_set (list BlockBody.t) :=
  match hashes with
  | [] => Ok block_bodies
  | block_hash :: hashes =>
      match (Store.get_block_body_by_hash block_hash s).1 with
      | Ok (Some block) =>
          let block_bodies := block_bodies ++ [block] in
          if (BLOCK_BODY_LIMIT <=? length block_bodies)%nat then Ok block_bodies
          else bodies_of hashes s block_bodies
      | Ok None => bodies_of hashes s block_bodies
      | Err _ => Ok []
      | Panic => Panic
      | NoFuel => NoFuel
      end
  end.

Definition fetch_blocks (self : t) (s : Store.t) : Outcome Empty_set (list BlockBody.t) :=
  bodies_of (block_hashes self) s [].
End GetBlockBodies.

Module BlockBodies.
Record t := { id : u64; block_bodies : list BlockBody.t }.

Definition encode `{Snappy} (self : t) : Encoded (list Z) :=
  send (Encoder.new ⊕ id self ⊕ block_bodies self).

Definition decode `{Snappy} (msg_data : list Z) : Decoded t :=
  decoder ← receive msg_data;
  '(id, decoder) ← Decoder.decode_field (T := u64) decoder "request-id";
  '(block_bodies, _) ← Decoder.decode_field (T := list BlockBody.t) decoder "blockBodies";
  Ok {| id := id; block_bodies := block_bodies |}.
End BlockBodies.

(** ** eth/receipts.rs *)

Module GetReceipts.
Record t := { id : u64; block_hashes : list H256 }.

Definition encode `{Snappy} (self : t) : Encoded (list Z) :=
  send (Encoder.new ⊕ id self ⊕ block_hashes self).

Definition decode `{Snappy} (msg_data : list Z) : Decoded t :=
  decoder ← receive msg_data;
  '(id, decoder) ← Decoder.decode_field (T := u64) decoder "request-id";
  '(block_hashes, _) ← Decoder.decode_field (T := list H256) decoder "blockHashes";
  Ok {| id := id; block_hashes := block_hashes |}.
End GetReceipts.

Module Receipts.
Record t := { id : u64; receipts : list (list Receipt.t) }.

Definition encode `{Snappy} (self : t) : Encoded (list Z) :=
  send (Encoder.new ⊕ id self ⊕ receipts self).

Definition decode `{Snappy} (msg_data : list Z) : Decoded t :=
  decoder ← receive msg_data;
  '(id, decoder) ← Decoder.decode_field (T := u64) decoder "request-id";
  '(receipts, _) ← Decoder.decode_field (T := list (list Receipt.t)) decoder "receipts";
  Ok {| id := id; receipts := receipts |}.
End Receipts.

(** ** eth/transactions.rs *)

Module Transactions.
Record t := { transactions : list Transaction }.

Definition TRANSACTION_LIMIT : nat := 256.

Definition encode `{Snappy} (self : t) : Encoded (list Z) :=
  send (foldl (λ encoder tx, encoder ⊕ tx) Encoder.new (transactions self)).

(** The [while let] loop: it ends at the first field that is no transaction. *)
Fixpoint decode_loop (fuel : nat) (decoder : Decoder.t) (transactions : list Transaction) :
    Decoded (list Transaction) :=
  match fuel with
  | O => NoFuel
  | S fuel =>
      match Decoder.decode_field (T := Transaction) decoder "p2p transaction" with
      | Ok (tx, updated_decoder) =>
          if (TRANSACTION_LIMIT <? length transactions)%nat then Ok transactions
          else decode_loop fuel updated_decoder (transactions ++ [tx])
      | Err _ => Ok transactions
      | Panic => Panic
      | NoFuel => NoFuel
      end
  end.

Definition decode_fuel : nat := TRANSACTION_LIMIT + 2.

Definition decode `{Snappy} (msg_data : list Z) : Decoded t :=
  decoder ← receive msg_data;
  transactions ← decode_loop decode_fuel decoder [];
  Ok {| transactions := transactions |}.
End Transactions.

(** [usize] as a field. *)
Definition usize := Z.
#[global] Typeclasses Opaque usize.
#[export] Instance usize_encode : RLPEncode usize := mk_encode encode_usize.
#[export] Instance usize_decode : RLPDecode usize := decode_usize.

Module NewPooledTransactionHashes.
Record t := {
  transaction_types : Bytes;
  transaction_sizes : list usize;
  transaction_hashes : list H256;
}.

Definition new `{Crypto} (transactions : list Transaction) : t := {|
  transaction_types := map (λ tx, TxType.to_u8 (Transaction.tx_type tx)) transactions;
  transaction_sizes := map (λ tx, 1 + len (Transaction.data tx)) transactions;
  transaction_hashes := map Transaction.compute_hash transactions;
|}.

Definition get_transactions_to_request (self : t) : StoreM (list (list Z)) :=
  Store.filter_unknown_transactions (transaction_hashes self).

Definition encode `{Snappy} (self : t) : Encoded (list Z) :=
  send (Encoder.new ⊕ transaction_types self ⊕ transaction_sizes self ⊕ transaction_hashes self).

Definition same_length (types : Bytes) (sizes : list usize) (hashes : list H256) : bool :=
  (length hashes =? length sizes)%nat && (length sizes =? length types)%nat.

Definition decode `{Snappy} (msg_data : list Z) : Decoded t :=
  decoder ← receive msg_data;
  '(transaction_types, decoder) ← Decoder.decode_field (T := Bytes) decoder "transactionTypes";
  '(transaction_sizes, decoder) ←
    Decoder.decode_field (T := list usize) decoder "transactionSizes";
  '(transaction_hashes, _) ← Decoder.decode_field (T := list H256) decoder "transactionHashes";
  if same_length transaction_types transaction_sizes transaction_hashes then
    Ok {| transaction_types := transaction_types; transaction_sizes := transaction_sizes;
          transaction_hashes := transaction_hashes |}
  else
    Err (CustomText
      "transaction_hashes, transaction_sizes and transaction_types must have the same length").
End NewPooledTransactionHashes.

Module GetPooledTransactions.
Record t := { id : u64; transaction_hashes : list H256 }.

Definition encode `{Snappy} (self : t) : Encoded (list Z) :=
  send (Encoder.new ⊕ id self ⊕ transaction_hashes self).

Definition decode `{Snappy} (msg_data : list Z) : Decoded t :=
  decoder ← receive msg_data;
  '(id, decoder) ← Decoder.decode_field (T := u64) decoder "request-id";
  '(transaction_hashes, _) ← Decoder.decode_field (T := list H256) decoder "transactionHashes";
  Ok {| id := id; transaction_hashes := transaction_hashes |}.
End GetPooledTransactions.

Module PooledTransactions.
Record t := { id : u64; pooled_transactions : list Transaction }.

Definition encode `{Snappy} (self : t) : Encoded (list Z) :=
  send (Encoder.new ⊕ id self ⊕ pooled_transactions self).

Definition decode `{Snappy} (msg_data : list Z) : Decoded t :=
  decoder ← receive msg_data;
  '(id, decoder) ← Decoder.decode_field (T := u64) decoder "request-id";
  '(pooled_transactions, _) ←
    Decoder.decode_field (T := list Transaction) decoder "pooledTransactions";
  Ok {| id := id; pooled_transactions := pooled_transactions |}.
End PooledTransactions.

(** ** snap.rs *)

Module AccountStateSlim.
Record t := { nonce : u64; balance : u256; storage_root : Bytes; code_hash : Bytes }.

Definition encode (x : t) : list Z :=
  Encoder.finish [] (Encoder.new ⊕ nonce x ⊕ balance x ⊕ storage_root x ⊕ code_hash x).

Definition decode_unfinished (rlp : list Z) : Decoded (t * list Z) :=
  decoder ← Decoder.new rlp;
  '(nonce, decoder) ← Decoder.decode_field (T := u64) decoder "nonce";
  '(balance, decoder) ← Decoder.decode_field (T := u256) decoder "balance";
  '(storage_root, decoder) ← Decoder.decode_field (T := Bytes) decoder "storage_root";
  '(code_hash, decoder) ← Decoder.decode_field (T := Bytes) decoder "code_hash";
  rest ← Decoder.finish decoder;
  Ok ({| nonce := nonce; balance := balance; storage_root := storage_root;
         code_hash := code_hash |}, rest).

Section conversions.
Context `{Crypto}.

(** [From<AccountState>]. *)
Definition from_account_state (value : AccountState.t) : t := {|
  nonce := AccountState.nonce value;
  balance := AccountState.balance value;
  storage_root := if bytes_eqb (AccountState.storage_root value) EMPTY_TRIE_HASH then []
                  else AccountState.storage_root value;
  code_hash := if bytes_eqb (AccountState.code_hash value) EMPTY_KECCACK_HASH then []
               else AccountState.code_hash value;
|}.

(** [From<AccountStateSlim> for AccountState]. *)
Definition hash_or {E} (default : H256) (bs : Bytes) : Outcome E H256 :=
  match (bs : list Z) with [] => Ok default | _ => hash_from_slice bs end.
Definition to_account_state {E} (value : t) : Outcome E AccountState.t :=
  storage_root ← hash_or EMPTY_TRIE_HASH (storage_root value);
  code_hash ← hash_or EMPTY_KECCACK_HASH (code_hash value);
  Ok {| AccountState.nonce := nonce value; AccountState.balance := balance value;
        AccountState.storage_root := storage_root; AccountState.code_hash := code_hash |}.
End conversions.
End AccountStateSlim.

#[export] Instance AccountStateSlim_encode : RLPEncode AccountStateSlim.t :=
  mk_encode AccountStateSlim.encode.
#[export] Instance AccountStateSlim_decode : RLPDecode AccountStateSlim.t :=
  AccountStateSlim.decode_unfinished.

Module AccountRangeUnit.
Record t := { hash : H256; account : AccountStateSlim.t }.

Definition encode (x : t) : list Z := Encoder.finish [] (Encoder.new ⊕ hash x ⊕ account x).

Definition decode_unfinished (rlp : list Z) : Decoded (t * list Z) :=
  decoder ← Decoder.new rlp;
  '(hash, decoder) ← Decoder.decode_field (T := H256) decoder "hash";
  '(account, decoder) ← Decoder.decode_field (T := AccountStateSlim.t) decoder "account";
  rest ← Decoder.finish decoder;
  Ok ({| hash := hash; account := account |}, rest).
End AccountRangeUnit.

#[export] Instance AccountRangeUnit_encode : RLPEncode AccountRangeUnit.t :=
  mk_encode AccountRangeUnit.encode.
#[export] Instance AccountRangeUnit_decode : RLPDecode AccountRangeUnit.t :=
  AccountRangeUnit.decode_unfinished.

Module StorageSlot.
Record t := { hash : H256; data : u256 }.

(** The value is the byte string of its own encoding. *)
Definition encode (x : t) : list Z :=
  Encoder.finish [] (Encoder.encode_bytes (Encoder.new ⊕ hash x) (encode (data x))).

Definition decode_unfinished (rlp : list Z) : Decoded (t * list Z) :=
  decoder ← Decoder.new rlp;
  '(hash, decoder) ← Decoder.decode_field (T := H256) decoder "hash";
  '(data, decoder) ← Decoder.get_encoded_item decoder;
  '(data, _) ← decode_bytes data;
  data ← decode (T := u256) data;
  rest ← Decoder.finish decoder;
  Ok ({| hash := hash; data := data |}, rest).
End StorageSlot.

#[export] Instance StorageSlot_encode : RLPEncode StorageSlot.t := mk_encode StorageSlot.encode.
#[export] Instance StorageSlot_decode : RLPDecode StorageSlot.t := StorageSlot.decode_unfinished.

Module GetAccountRange.
Record t := {
  id : u64;
  root_hash : H256;
  starting_hash : H256;
  limit_hash : H256;
  response_bytes : u64;
}.

Definition encode `{Snappy} (self : t) : Encoded (list Z) :=
  send (Encoder.new ⊕ id self ⊕ root_hash self ⊕ starting_hash self ⊕ limit_hash self
    ⊕ response_bytes self).

Definition decode `{Snappy} (msg_data : list Z) : Decoded t :=
  decoder ← receive msg_data;
  '(id, decoder) ← Decoder.decode_field (T := u64) decoder "request-id";
  '(root_hash, decoder) ← Decoder.decode_field (T := H256) decoder "rootHash";
  '(starting_hash, decoder) ← Decoder.decode_field (T := H256) decoder "startingHash";
  '(limit_hash, decoder) ← Decoder.decode_field (T := H256) decoder "limitHash";
  '(response_bytes, decoder) ← Decoder.decode_field (T := u64) decoder "responseBytes";
  _ ← Decoder.finish decoder;
  Ok {| id := id; root_hash := root_hash; starting_hash := starting_hash;
        limit_hash := limit_hash; response_bytes := response_bytes |}.
End GetAccountRange.

Module AccountRange.
Record t := { id : u64; accounts : list AccountRangeUnit.t; proof : list Bytes }.

Definition encode `{Snappy} (self : t) : Encoded (list Z) :=
  send (Encoder.new ⊕ id self ⊕ accounts self ⊕ proof self).

Definition decode `{Snappy} (msg_data : list Z) : Decoded t :=
  decoder ← receive msg_data;
  '(id, decoder) ← Decoder.decode_field (T := u64) decoder "request-id";
  '(accounts, decoder) ← Decoder.decode_field (T := list AccountRangeUnit.t) decoder "accounts";
  '(proof, decoder) ← Decoder.decode_field (T := list Bytes) decoder "proof";
  _ ← Decoder.finish decoder;
  Ok {| id := id; accounts := accounts; proof := proof |}.
End AccountRange.

Module GetStorageRanges.
Record t := {
  id : u64;
  root_hash : H256;
  account_hashes : list H256;
  starting_hash : H256;
  limit_hash : H256;
  response_bytes : u64;
}.

Definition encode `{Snappy} (self : t) : Encoded (list Z) :=
  send (Encoder.new ⊕ id self ⊕ root_hash self ⊕ account_hashes self ⊕ starting_hash self
    ⊕ limit_hash self ⊕ response_bytes self).

(** An empty hash stands for the first or the last one. *)
Definition decode `{Snappy} (msg_data : list Z) : Decoded t :=
  decoder ← receive msg_data;
  '(id, decoder) ← Decoder.decode_field (T := u64) decoder "request-id";
  '(root_hash, decoder) ← Decoder.decode_field (T := H256) decoder "rootHash";
  '(account_hashes, decoder) ← Decoder.decode_field (T := list H256) decoder "accountHashes";
  '(starting_hash, decoder) ← Decoder.decode_field (T := Bytes) decoder "startingHash";
  starting_hash ← AccountStateSlim.hash_or (replicate 32 0) starting_hash;
  '(limit_hash, decoder) ← Decoder.decode_field (T := Bytes) decoder "limitHash";
  limit_hash ← AccountStateSlim.hash_or (replicate 32 0xFF) limit_hash;
  '(response_bytes, decoder) ← Decoder.decode_field (T := u64) decoder "responseBytes";
  _ ← Decoder.finish decoder;
  Ok {| id := id; root_hash := root_hash; account_hashes := account_hashes;
        starting_hash := starting_hash; limit_hash := limit_hash;
        response_bytes := response_bytes |}.
End GetStorageRanges.

Module StorageRanges.
Record t := { id : u64; slots : list (list StorageSlot.t); proof : list Bytes }.

Definition encode `{Snappy} (self : t) : Encoded (list Z) :=
  send (Encoder.new ⊕ id self ⊕ slots self ⊕ proof self).

Definition decode `{Snappy} (msg_data : list Z) : Decoded t :=
  decoder ← receive msg_data;
  '(id, decoder) ← Decoder.decode_field (T := u64) decoder "request-id";
  '(slots, decoder) ← Decoder.decode_field (T := list (list StorageSlot.t)) decoder "slots";
  '(proof, decoder) ← Decoder.decode_field (T := list Bytes) decoder "proof";
  _ ← Decoder.finish decoder;
  Ok {| id := id; slots := slots; proof := proof |}.
End StorageRanges.

Module GetByteCodes.
Record t := { id : u64; hashes : list H256; bytes : u64 }.

Definition encode `{Snappy} (self : t) : Encoded (list Z) :=
  send (Encoder.new ⊕ id self ⊕ hashes self ⊕ bytes self).

Definition decode `{Snappy} (msg_data : list Z) : Decoded t :=
  decoder ← receive msg_data;
  '(id, decoder) ← Decoder.decode_field (T := u64) decoder "request-id";
  '(hashes, decoder) ← Decoder.decode_field (T := list H256) decoder "hashes";
  '(bytes, decoder) ← Decoder.decode_field (T := u64) decoder "bytes";
  _ ← Decoder.finish decoder;
  Ok {| id := id; hashes := hashes; bytes := bytes |}.
End GetByteCodes.

Module ByteCodes.
Record t := { id : u64; codes : list Bytes }.

Definition encode `{Snappy} (self : t) : Encoded (list Z) :=
  send (Encoder.new ⊕ id self ⊕ codes self).

Definition decode `{Snappy} (msg_data : list Z) : Decoded t :=
  decoder ← receive msg_data;
  '(id, decoder) ← Decoder.decode_field (T := u64) decoder "request-id";
  '(codes, decoder) ← Decoder.decode_field (T := list Bytes) decoder "codes";
  _ ← Decoder.finish decoder;
  Ok {| id := id; codes := codes |}.
End ByteCodes.

Module GetTrieNodes.
Record t := { id : u64; root_hash : H256; paths : list (list Bytes); bytes : u64 }.

Definition encode `{Snappy} (self : t) : Encoded (list Z) :=
  send (Encoder.new ⊕ id self ⊕ root_hash self ⊕ paths self ⊕ bytes self).

Definition decode `{Snappy} (msg_data : list Z) : Decoded t :=
  decoder ← receive msg_data;
  '(id, decoder) ← Decoder.decode_field (T := u64) decoder "request-id";
  '(root_hash, decoder) ← Decoder.decode_field (T := H256) decoder "root_hash";
  '(paths, decoder) ← Decoder.decode_field (T := list (list Bytes)) decoder "paths";
  '(bytes, decoder) ← Decoder.decode_field (T := u64) decoder "bytes";
  _ ← Decoder.finish decoder;
  Ok {| id := id; root_hash := root_hash; paths := paths; bytes := bytes |}.
End GetTrieNodes.

Module TrieNodes.
Record t := { id : u64; nodes : list Bytes }.

Definition encode `{Snappy} (self : t) : Encoded (list Z) :=
  send (Encoder.new ⊕ id self ⊕ nodes self).

Definition decode `{Snappy} (msg_data : list Z) : Decoded t :=
  decoder ← receive msg_data;
  '(id, decoder) ← Decoder.decode_field (T := u64) decoder "request-id";
  '(nodes, decoder) ← Decoder.decode_field (T := list Bytes) decoder "nodes";
  _ ← Decoder.finish decoder;
  Ok {| id := id; nodes := nodes |}.
End TrieNodes.

(** ** message.rs *)

Module Message.
Inductive t `{NodeKeys} :=
| Hello (msg : HelloMessage.t)
| Disconnect (msg : DisconnectMessage.t)
| Ping
| Pong
| Status (msg : StatusMessage.t)
| GetBlockHeaders (msg : GetBlockHeaders.t)
| BlockHeaders (msg : BlockHeaders.t)
| Transactions (msg : Transactions.t)
| GetBlockBodies (msg : GetBlockBodies.t)
| BlockBodies (msg : BlockBodies.t)
| GetReceipts (msg : GetReceipts.t)
| Receipts (msg : Receipts.t)
| NewPooledTransactionHashes (msg : NewPooledTransactionHashes.t)
| GetPooledTransactions (msg : GetPooledTransactions.t)
| GetAccountRange (msg : GetAccountRange.t)
| AccountRange (msg : AccountRange.t)
| GetStorageRanges (msg : GetStorageRanges.t)
| StorageRanges (msg : StorageRanges.t)
| GetByteCodes (msg : GetByteCodes.t)
| ByteCodes (msg : ByteCodes.t)
| GetTrieNodes (msg : GetTrieNodes.t)
| TrieNodes (msg : TrieNodes.t).

Section codec.
Context `{BuildProfile} `{NodeKeys} `{Snappy}.

Definition decode (msg_id : Z) (msg_data : list Z) : Decoded t :=
  match msg_id with
  | 0x00 => Hello <$> HelloMessage.decode msg_data
  | 0x01 => Disconnect <$> DisconnectMessage.decode msg_data
  | 0x02 => (λ _, Ping) <$> PingMessage.decode msg_data
  | 0x03 => (λ _, Pong) <$> PingMessage.decode msg_data
  | 0x10 => Status <$> StatusMessage.decode msg_data
  | 0x12 => Transactions <$> Transactions.decode msg_data
  | 0x13 => GetBlockHeaders <$> GetBlockHeaders.decode msg_data
  | 0x14 => BlockHeaders <$> BlockHeaders.decode msg_data
  | 0x15 => GetBlockBodies <$> GetBlockBodies.decode msg_data
  | 0x16 => BlockBodies <$> BlockBodies.decode msg_data
  | 0x18 => NewPooledTransactionHashes <$> NewPooledTransactionHashes.decode msg_data
  | 0x19 => GetPooledTransactions <$> GetPooledTransactions.decode msg_data
  | 0x1F => GetReceipts <$> GetReceipts.decode msg_data
  | 0x20 => Receipts <$> Receipts.decode msg_data
  | 0x21 => GetAccountRange <$> GetAccountRange.decode msg_data
  | 0x22 => AccountRange <$> AccountRange.decode msg_data
  | 0x23 => GetStorageRanges <$> GetStorageRanges.decode msg_data
  | 0x24 => StorageRanges <$> StorageRanges.decode msg_data
  | 0x25 => GetByteCodes <$> GetByteCodes.decode msg_data
  | 0x26 => ByteCodes <$> ByteCodes.decode msg_data
  | 0x27 => GetTrieNodes <$> GetTrieNodes.decode msg_data
  | 0x28 => TrieNodes <$> TrieNodes.decode msg_data
  | _ => Err MalformedData
  end.

(** [code.encode(buf)], then the message. *)
Definition tagged (code : Z) (msg_data : Encoded (list Z)) : Encoded (list Z) :=
  msg_data ← msg_data;
  Ok (encode_u8 code ++ msg_data).

Definition encode (self : t) : Encoded (list Z) :=
  match self with
  | Hello msg => tagged 0x00 (HelloMessage.encode msg)
  | Disconnect msg => tagged 0x01 (DisconnectMessage.encode msg)
  | Ping => tagged 0x02 PingMessage.encode
  | Pong => tagged 0x03 PingMessage.encode
  | Status msg => tagged 0x10 (StatusMessage.encode msg)
  | Transactions msg => tagged 0x12 (Transactions.encode msg)
  | GetBlockHeaders msg => tagged 0x13 (GetBlockHeaders.encode msg)
  | BlockHeaders msg => tagged 0x14 (BlockHeaders.encode msg)
  | GetBlockBodies msg => tagged 0x15 (GetBlockBodies.encode msg)
  | BlockBodies msg => tagged 0x16 (BlockBodies.encode msg)
  | NewPooledTransactionHashes msg => tagged 0x18 (NewPooledTransactionHashes.encode msg)
  | GetPooledTransactions msg => tagged 0x19 (GetPooledTransactions.encode msg)
  | GetReceipts msg => tagged 0x1F (GetReceipts.encode msg)
  | Receipts msg => tagged 0x20 (Receipts.encode msg)
  | GetAccountRange msg => tagged 0x21 (GetAccountRange.encode msg)
  | AccountRange msg => tagged 0x22 (AccountRange.encode msg)
  | GetStorageRanges msg => tagged 0x23 (GetStorageRanges.encode msg)
  | StorageRanges msg => tagged 0x24 (StorageRanges.encode msg)
  | GetByteCodes msg => tagged 0x25 (GetByteCodes.encode msg)
  | ByteCodes msg => tagged 0x26 (ByteCodes.encode msg)
  | GetTrieNodes msg => tagged 0x27 (GetTrieNodes.encode msg)
  | TrieNodes msg => tagged 0x28 (TrieNodes.encode msg)
  end.

(** What [receive] of connection.rs does with the data of a frame. *)
Definition of_frame (frame_data : list Z) : Decoded t :=
  '(msg_id, msg_data) ← decode_u8 frame_data;
  decode msg_id msg_data.
End codec.
End Message.

(** ** eth/backend.rs *)

(** The errors that the modelled functions raise; those of the connection are not here. *)
Inductive RLPxError :=
| RLPxStore (e : StoreError)
| NotFound (what : string)
| HandshakeError (what : string)
| BadRequest (what : string).
Notation RLPxM := (StateT Store.t RLPxError).

Definition rlpx_store {A} (m : StoreM A) : RLPxM A := state_map_err RLPxStore m.

Module Backend.
Definition ETH_VERSION : Z := 68.

Section backend.
Context `{Crypto} `{Crc32}.

(** The blocks that must always be available: the configuration, the hash of the
    genesis block, the latest header and the fork id. *)
Definition chain_status : RLPxM (ChainConfig.t * list Z * BlockHeader.t * ForkId.t) :=
  chain_config ← rlpx_store Store.get_chain_config;
  genesis_header ← rlpx_store (Store.get_block_header 0);
  genesis_header ← state_lift (ok_or genesis_header (NotFound "Genesis Block"));
  block_number ← rlpx_store Store.get_latest_block_number;
  block_header ← rlpx_store (Store.get_block_header block_number);
  block_header ← state_lift (ok_or block_header (NotFound ("Block " +:+ pretty block_number)));
  let genesis := compute_block_hash genesis_header in
  mret (chain_config, genesis, block_header,
        ForkId.new chain_config genesis (BlockHeader.timestamp block_header) block_number).

Definition get_status : RLPxM StatusMessage.t :=
  '(chain_config, genesis, block_header, fork_id) ← chain_status;
  mret {| StatusMessage.eth_version := ETH_VERSION;
          StatusMessage.network_id := ChainConfig.chain_id chain_config;
          StatusMessage.total_difficulty :=
            default 0 (ChainConfig.terminal_total_difficulty chain_config);
          StatusMessage.block_hash := compute_block_hash block_header;
          StatusMessage.genesis := genesis; StatusMessage.fork_id := fork_id |}.

Definition fork_id_eqb (a b : ForkId.t) : bool :=
  bytes_eqb (ForkId.fork_hash a) (ForkId.fork_hash b) && (ForkId.fork_next a =? ForkId.fork_next b).

Definition validate_status (msg_data : StatusMessage.t) : RLPxM unit :=
  '(chain_config, genesis, _, fork_id) ← chain_status;
  state_lift
    (_ ← reject_if (negb (StatusMessage.network_id msg_data =? ChainConfig.chain_id chain_config))
           (HandshakeError "Network Id does not match");
     _ ← reject_if (negb (StatusMessage.eth_version msg_data =? ETH_VERSION))
           (HandshakeError "Eth protocol version does not match");
     _ ← reject_if (negb (bytes_eqb (StatusMessage.genesis msg_data) genesis))
           (HandshakeError "Genesis does not match");
     reject_if (negb (fork_id_eqb (StatusMessage.fork_id msg_data) fork_id))
       (HandshakeError "Fork Id does not match")).
End backend.
End Backend.
