(* ===== verification/RlpxProofs.v ===== *)
(** * RLPx messages survive their encodings

    The codecs of the types of Rlpx.v, and the round trip of every message from the
    frame that it is written to. *)

From stdpp Require Import base option list numbers strings gmap.
From S2P Require Import Prelude Rlp RlpProofs RlpStruct LevmHost LevmDemo Trie Tx TxProofs.
From S2P Require Import TrieCodec BlockTypes BlockCodecs Chain ChainProofs Store WorldState Rlpx.

Local Open Scope Z_scope.
Local Open Scope rlp_scope.

(** ** The codecs of the new field types *)

#[export] Instance RString_valid : RLPValid RString := λ s, bytes s ∧ utf8_valid s = true.

#[export] Instance RString_codec : RLPCodec RString.
Proof.
  split.
  - done.
  - intros x rest [Hb Hu] Hl. change (decode_unfinished ?l) with (decode_string l).
    unfold decode_string. pose proof (codec_roundtrip (T := Bytes) x rest Hb Hl) as E.
    change (decode_unfinished (encode ?y ++ ?r)) with (decode_bytes (encode_slice y ++ r)) in E.
    change (encode x) with (encode_slice x). rewrite E. cbn. by rewrite Hu.
  - intros x d rest E. change (decode_unfinished d) with (decode_string d) in E.
    unfold decode_string in E. destruct (decode_bytes d) as [[y r]| | |] eqn:Ed; try done. cbn in E.
    destruct (utf8_valid y); [|done]. injection E as <- <-.
    by apply (codec_progress (T := Bytes) y).
  - intros d E. change (decode_unfinished d) with (decode_string d) in E. unfold decode_string in E.
    pose proof (codec_fuel (T := Bytes) d) as Hf. change (decode_unfinished d) with (decode_bytes d) in Hf.
    destruct (decode_bytes d) as [[y r]| | |]; try done. cbn in E. by destruct (utf8_valid y).
  - intros x [Hb _]. by apply (codec_bytes (T := Bytes)).
Qed.

#[export] Instance usize_valid : RLPValid usize := in_u 64.
#[export] Instance usize_codec : RLPCodec usize.
Proof. exact u64_codec. Qed.

#[export] Instance Capability_valid : RLPValid Capability.t := λ _, True.

Definition cap_text (c : Capability.t) : RString :=
  match c with
  | Capability.P2p => text "p2p"
  | Capability.Eth => text "eth"
  | Capability.Snap => text "snap"
  end.

Lemma cap_text_valid c : rlp_valid (cap_text c).
Proof. destruct c; (split; [check_bytes|reflexivity]). Qed.

#[export] Instance Capability_codec : RLPCodec Capability.t.
Proof.
  assert (∀ c : Capability.t, encode c = encode (cap_text c)) as Ec by (by intros []).
  split.
  - done.
  - intros c rest _ Hl. change (decode_unfinished ?l) with (Capability.decode_unfinished l).
    rewrite Ec in Hl |- *. unfold Capability.decode_unfinished.
    pose proof (codec_roundtrip _ rest (cap_text_valid c) Hl) as E.
    change (decode_unfinished ?l) with (decode_string l) in E. rewrite E. by destruct c.
  - intros c d rest E. change (decode_unfinished d) with (Capability.decode_unfinished d) in E.
    unfold Capability.decode_unfinished in E.
    destruct (decode_string d) as [[s r]| | |] eqn:Ed; try done. cbn [mbind outcome_bind] in E.
    apply (codec_progress (T := RString)) in Ed.
    repeat (case_match; [injection E as <- <-; exact Ed|]). done.
  - intros d E. change (decode_unfinished d) with (Capability.decode_unfinished d) in E.
    unfold Capability.decode_unfinished in E. pose proof (codec_fuel (T := RString) d) as Hf.
    change (decode_unfinished d) with (decode_string d) in Hf.
    destruct (decode_string d) as [[s r]| | |]; try done. cbn [mbind outcome_bind] in E.
    by repeat case_match.
  - intros c _. rewrite Ec. apply (codec_bytes (T := RString)), cap_text_valid.
Qed.

#[export] Instance HashOrNumber_valid : RLPValid HashOrNumber.t := λ x,
  match x with
  | HashOrNumber.Hash hash => rlp_valid hash
  | HashOrNumber.Number number => rlp_valid number
  end.

(** The first byte tells the two forms apart. *)
Lemma hash_first (hash : H256) : rlp_valid hash → ∃ l, encode hash = 160 :: l.
Proof.
  intros [Hb Hl]. change (encode hash) with (encode_slice hash). unfold encode_slice.
  destruct hash as [|a [|b hash]]; try done.
  assert (len (a :: b :: hash) = 32) as El by (unfold len; by rewrite Hl).
  rewrite El. by eexists.
Qed.

Lemma number_first (number : u64) : rlp_valid number → ∃ b l, encode number = b :: l ∧ b ≠ 160.
Proof.
  intros _. change (encode number) with (encode_uint 8 number). unfold encode_uint, put_stripped.
  destruct (number =? 0); [by eexists _, _|]. destruct (number <=? 0x7f) eqn:E.
  - eexists _, _. split; [done|]. propify. lia.
  - eexists _, _. split; [done|].
    pose proof (strip_zeros_length (be_encode 8 number)) as Hl. rewrite be_encode_length in Hl.
    unfold RLP_NULL, len. lia.
Qed.

#[export] Instance HashOrNumber_codec : RLPCodec HashOrNumber.t.
Proof.
  split.
  - intros [hash|number]; [exact (codec_length hash)|exact (codec_length number)].
  - intros [hash|number] rest Hv Hl;
      change (decode_unfinished ?l) with (HashOrNumber.decode_unfinished l).
    + change (encode (HashOrNumber.Hash hash)) with (encode hash) in *.
      pose proof (codec_roundtrip hash rest Hv Hl) as E. destruct (hash_first hash Hv) as [l El].
      rewrite El in *. unfold HashOrNumber.decode_unfinished. cbn [app] in *.
      by rewrite E.
    + change (encode (HashOrNumber.Number number)) with (encode number) in *.
      pose proof (codec_roundtrip number rest Hv Hl) as E.
      destruct (number_first number Hv) as (b & l & El & Hb).
      rewrite El in *. unfold HashOrNumber.decode_unfinished, HashOrNumber.HASH_FIRST_BYTE_DECODER.
      cbn [app] in *. rewrite (proj2 (Z.eqb_neq _ _) Hb). by rewrite E.
  - intros x d rest. change (decode_unfinished d) with (HashOrNumber.decode_unfinished d).
    unfold HashOrNumber.decode_unfinished. destruct d as [|b d]; [done|].
    case_match; intros Hd; apply bind_Ok in Hd as ([y r] & Ey & [= _ <-]);
      by apply codec_progress in Ey.
  - intros d. change (decode_unfinished d) with (HashOrNumber.decode_unfinished d).
    unfold HashOrNumber.decode_unfinished. destruct d as [|b d]; [done|].
    case_match; (apply bind_fuel; [apply codec_fuel|by intros []]).
  - intros [hash|number] Hv; [exact (codec_bytes hash Hv)|exact (codec_bytes number Hv)].
Qed.

(** The flag is written as a [u8] and read as a [bool]. *)
Lemma flag_encode (b : bool) : encode ((if b then 1 else 0) : u8) = encode b.
Proof. by destruct b. Qed.

#[export] Instance AccountStateSlim_valid : RLPValid AccountStateSlim.t := λ x,
  rlp_valid (AccountStateSlim.nonce x) ∧ rlp_valid (AccountStateSlim.balance x) ∧
  rlp_valid (AccountStateSlim.storage_root x) ∧ rlp_valid (AccountStateSlim.code_hash x).
#[export] Instance AccountStateSlim_codec : RLPCodec AccountStateSlim.t.
Proof. struct_codec AccountStateSlim.encode AccountStateSlim.decode_unfinished. Qed.

#[export] Instance AccountRangeUnit_valid : RLPValid AccountRangeUnit.t := λ x,
  rlp_valid (AccountRangeUnit.hash x) ∧ rlp_valid (AccountRangeUnit.account x).
#[export] Instance AccountRangeUnit_codec : RLPCodec AccountRangeUnit.t.
Proof. struct_codec AccountRangeUnit.encode AccountRangeUnit.decode_unfinished. Qed.

#[export] Instance StorageSlot_valid : RLPValid StorageSlot.t := λ x,
  rlp_valid (StorageSlot.hash x) ∧ rlp_valid (StorageSlot.data x).

Lemma encode_slice_lower bs : len bs ≤ len (encode_slice bs).
Proof.
  assert (∃ p, encode_slice bs = p ++ bs) as [p ->].
  { destruct bs as [|b [|c bs]]; [by eexists|..]; unfold encode_slice.
    - destruct (b <? RLP_NULL); [by exists []|by exists [RLP_NULL + 1]].
    - by eexists. }
  rewrite len_app. pose proof (len_nonneg p). lia.
Qed.

(** A step that does not touch what follows the struct. *)
Lemma struct_body_pure {B A} r (m : Decoded B) (k : B → Decoded (A * list Z)) :
  m ≠ NoFuel → (∀ x, m = Ok x → struct_body r (k x)) → struct_body r (x ← m; k x).
Proof. intros Hm Hk. destruct m; [by apply Hk|done..]. Qed.

Lemma item_prefix_fuel d : get_item_with_prefix d ≠ NoFuel.
Proof. apply bind_fuel; [apply item_bounds_fuel|]. by intros [? [? ?]]. Qed.

Lemma slot_body d :
  struct_body (Decoder.remaining d)
    ('(hash, decoder) ← Decoder.decode_field (T := H256) d "hash";
     '(data, decoder) ← Decoder.get_encoded_item decoder;
     '(data, _) ← decode_bytes data;
     data ← decode (T := u256) data;
     rest ← Decoder.finish decoder;
     Ok ({| StorageSlot.hash := hash; StorageSlot.data := data |}, rest)).
Proof.
  apply (struct_body_field (T := H256)). intros hash d1 _. apply struct_body_pure.
  { apply bind_fuel; [apply item_prefix_fuel|by intros []]. }
  intros [item d2] Hi. apply bind_Ok in Hi as ([f r] & _ & [= <- <-]). cbn beta iota.
  apply struct_body_pure; [apply decode_bytes_fuel|]. intros [bs r2] _.
  apply struct_body_pure.
  { apply bind_fuel; [apply codec_fuel|]. by intros [? []]. }
  intros data _.
  exact (struct_body_finish {| Decoder.payload := r; Decoder.remaining := Decoder.remaining d1 |} _).
Qed.

#[export] Instance StorageSlot_codec : RLPCodec StorageSlot.t.
Proof.
  split.
  - done.
  - intros [hash data] rest [Hh Hd] Hl. cbn [StorageSlot.hash StorageSlot.data] in *.
    change (decode_unfinished ?l) with (StorageSlot.decode_unfinished l).
    change (encode {| StorageSlot.hash := hash; StorageSlot.data := data |})
      with (as_list (encode hash ++ encode_slice (encode data))) in *.
    apply struct_roundtrip_new; [done|]. intros Hn. rewrite len_app in Hn.
    pose proof (len_encode_nonneg hash). pose proof (encode_slice_lower (encode data)).
    pose proof (len_nonneg (encode_slice (encode data))). pose proof (codec_bytes data Hd) as Hb.
    rewrite decode_field_ok by (done || lia). cbn [mbind outcome_bind].
    unfold Decoder.get_encoded_item. cbn [Decoder.payload Decoder.remaining].
    rewrite <-(app_nil_r (encode_slice _)).
    rewrite get_item_with_prefix_item by (apply slice_is_item; [done|lia]).
    cbn [mbind outcome_bind].
    rewrite <-(app_nil_r (encode_slice _)).
    rewrite decode_bytes_slice by (done || lia). cbn [mbind outcome_bind].
    rewrite <-(app_nil_r (encode data)). unfold decode. by rewrite codec_roundtrip by (done || lia).
  - intros x d. apply struct_new. apply slot_body.
  - intros d. apply (struct_new _ _), slot_body.
  - intros [hash data] [Hh Hd]. apply as_list_bytes. apply Forall_app.
    split; [by apply codec_bytes|]. apply encode_slice_bytes. by apply codec_bytes.
Qed.

(** ** The messages *)

(** What the documentation of the crates says: the raw format of snappy stores the
    length of the data, at most 2^32 - 1, and is inverted by its decoder; the
    uncompressed point of SEC1 is the tag 4 and two coordinates, and is inverted by
    the reader of points. *)
Class SnappyLaws `{Snappy} := {
  snap_inverse d c : snap_compress d = Some c → snap_decompress c = Some d;
  snap_size d c : snap_compress d = Some c → len d < 2 ^ 32;
}.
Class NodeKeysLaws `{NodeKeys} := {
  point_tagged pk : ∃ id, to_encoded_point pk = 4 :: id ∧ length id = 64%nat ∧ bytes id;
  point_inverse pk : from_encoded_point (to_encoded_point pk) = Some pk;
}.

Section messages.
Context `{BuildProfile} `{NodeKeys, !NodeKeysLaws} `{Snappy, !SnappyLaws}.

Lemma decompress_compress d c :
  snappy_compress d = Ok c → snappy_decompress c = Ok d ∧ len d ≤ isize_max.
Proof.
  unfold snappy_compress, snappy_decompress. intros E%ok_or_Ok.
  rewrite (snap_inverse _ _ E). split; [done|]. apply snap_size in E.
  assert (2 ^ 32 ≤ isize_max) by done. lia.
Qed.

Lemma receive_send e c :
  send e = Ok c →
  receive c = Ok {| Decoder.payload := e; Decoder.remaining := [] |} ∧ len e ≤ isize_max.
Proof.
  intros [Ed Hl]%decompress_compress. unfold receive. rewrite Ed. cbn [mbind outcome_bind].
  rewrite finish_as_list in *. cbn [app] in *. pose proof (as_list_length e).
  rewrite <-(app_nil_r (as_list e)), decoder_new_ok by lia. split; [done|lia].
Qed.

Lemma node_id_roundtrip {E} pk :
  ∃ id, pubkey2id (E := E) pk = Ok id ∧ rlp_valid id ∧ id2pubkey id = Some pk.
Proof.
  destruct (point_tagged pk) as (id & Ep & Hl & Hb). exists id. unfold pubkey2id. rewrite Ep.
  rewrite Z.eqb_refl, andb_false_r. unfold len. rewrite Hl. split; [done|].
  split; [done|]. unfold id2pubkey. rewrite <-Ep. apply point_inverse.
Qed.
End messages.

(** Reads back the fields of a message that was sent; [E] is its encoding and the
    validity of its fields is among the hypotheses. *)
Ltac message_fields E :=
  let Hl := fresh "Hlen" in
  apply receive_send in E as [E Hl]; rewrite E; clear E;
  unfold Encoder.new in *; rewrite ?field_app in *; cbn [app mbind outcome_bind] in *;
  rewrite <-?app_assoc in *; field_sizes Hl; repeat read_field.
Ltac message_roundtrip enc dec :=
  let Hv := fresh "Hv" in
  let E := fresh "E" in
  intros Hv E; unfold enc in E; unfold dec; split_valid Hv; message_fields E;
  lazymatch goal with |- _ = Ok ?m => by destruct m end.

Section roundtrips.
Context `{Snappy, !SnappyLaws}.

#[export] Instance BlockHeaders_valid : RLPValid BlockHeaders.t := λ m,
  rlp_valid (BlockHeaders.id m) ∧ rlp_valid (BlockHeaders.block_headers m).
Lemma BlockHeaders_roundtrip c m :
  rlp_valid m → BlockHeaders.encode m = Ok c → BlockHeaders.decode c = Ok m.
Proof. message_roundtrip (@BlockHeaders.encode) (@BlockHeaders.decode). Qed.

#[export] Instance GetBlockBodies_valid : RLPValid GetBlockBodies.t := λ m,
  rlp_valid (GetBlockBodies.id m) ∧ rlp_valid (GetBlockBodies.block_hashes m).
Lemma GetBlockBodies_roundtrip c m :
  rlp_valid m → GetBlockBodies.encode m = Ok c → GetBlockBodies.decode c = Ok m.
Proof. message_roundtrip (@GetBlockBodies.encode) (@GetBlockBodies.decode). Qed.

#[export] Instance BlockBodies_valid : RLPValid BlockBodies.t := λ m,
  rlp_valid (BlockBodies.id m) ∧ rlp_valid (BlockBodies.block_bodies m).
Lemma BlockBodies_roundtrip c m :
  rlp_valid m → BlockBodies.encode m = Ok c → BlockBodies.decode c = Ok m.
Proof. message_roundtrip (@BlockBodies.encode) (@BlockBodies.decode). Qed.

#[export] Instance GetReceipts_valid : RLPValid GetReceipts.t := λ m,
  rlp_valid (GetReceipts.id m) ∧ rlp_valid (GetReceipts.block_hashes m).
Lemma GetReceipts_roundtrip c m :
  rlp_valid m → GetReceipts.encode m = Ok c → GetReceipts.decode c = Ok m.
Proof. message_roundtrip (@GetReceipts.encode) (@GetReceipts.decode). Qed.

#[export] Instance Receipts_valid : RLPValid Receipts.t := λ m,
  rlp_valid (Receipts.id m) ∧ rlp_valid (Receipts.receipts m).
Lemma Receipts_roundtrip c m :
  rlp_valid m → Receipts.encode m = Ok c → Receipts.decode c = Ok m.
Proof. message_roundtrip (@Receipts.encode) (@Receipts.decode). Qed.

#[export] Instance GetPooledTransactions_valid : RLPValid GetPooledTransactions.t := λ m,
  rlp_valid (GetPooledTransactions.id m) ∧
  rlp_valid (GetPooledTransactions.transaction_hashes m).
Lemma GetPooledTransactions_roundtrip c m :
  rlp_valid m → GetPooledTransactions.encode m = Ok c → GetPooledTransactions.decode c = Ok m.
Proof. message_roundtrip (@GetPooledTransactions.encode) (@GetPooledTransactions.decode). Qed.

#[export] Instance PooledTransactions_valid : RLPValid PooledTransactions.t := λ m,
  rlp_valid (PooledTransactions.id m) ∧ rlp_valid (PooledTransactions.pooled_transactions m).
Lemma PooledTransactions_roundtrip c m :
  rlp_valid m → PooledTransactions.encode m = Ok c → PooledTransactions.decode c = Ok m.
Proof. message_roundtrip (@PooledTransactions.encode) (@PooledTransactions.decode). Qed.

#[export] Instance GetAccountRange_valid : RLPValid GetAccountRange.t := λ m,
  rlp_valid (GetAccountRange.id m) ∧ rlp_valid (GetAccountRange.root_hash m) ∧
  rlp_valid (GetAccountRange.starting_hash m) ∧ rlp_valid (GetAccountRange.limit_hash m) ∧
  rlp_valid (GetAccountRange.response_bytes m).
Lemma GetAccountRange_roundtrip c m :
  rlp_valid m → GetAccountRange.encode m = Ok c → GetAccountRange.decode c = Ok m.
Proof. message_roundtrip (@GetAccountRange.encode) (@GetAccountRange.decode). Qed.

#[export] Instance AccountRange_valid : RLPValid AccountRange.t := λ m,
  rlp_valid (AccountRange.id m) ∧ rlp_valid (AccountRange.accounts m) ∧
  rlp_valid (AccountRange.proof m).
Lemma AccountRange_roundtrip c m :
  rlp_valid m → AccountRange.encode m = Ok c → AccountRange.decode c = Ok m.
Proof. message_roundtrip (@AccountRange.encode) (@AccountRange.decode). Qed.

#[export] Instance StorageRanges_valid : RLPValid StorageRanges.t := λ m,
  rlp_valid (StorageRanges.id m) ∧ rlp_valid (StorageRanges.slots m) ∧
  rlp_valid (StorageRanges.proof m).
Lemma StorageRanges_roundtrip c m :
  rlp_valid m → StorageRanges.encode m = Ok c → StorageRanges.decode c = Ok m.
Proof. message_roundtrip (@StorageRanges.encode) (@StorageRanges.decode). Qed.

#[export] Instance GetByteCodes_valid : RLPValid GetByteCodes.t := λ m,
  rlp_valid (GetByteCodes.id m) ∧ rlp_valid (GetByteCodes.hashes m) ∧
  rlp_valid (GetByteCodes.bytes m).
Lemma GetByteCodes_roundtrip c m :
  rlp_valid m → GetByteCodes.encode m = Ok c → GetByteCodes.decode c = Ok m.
Proof. message_roundtrip (@GetByteCodes.encode) (@GetByteCodes.decode). Qed.

#[export] Instance ByteCodes_valid : RLPValid ByteCodes.t := λ m,
  rlp_valid (ByteCodes.id m) ∧ rlp_valid (ByteCodes.codes m).
Lemma ByteCodes_roundtrip c m :
  rlp_valid m → ByteCodes.encode m = Ok c → ByteCodes.decode c = Ok m.
Proof. message_roundtrip (@ByteCodes.encode) (@ByteCodes.decode). Qed.

#[export] Instance GetTrieNodes_valid : RLPValid GetTrieNodes.t := λ m,
  rlp_valid (GetTrieNodes.id m) ∧ rlp_valid (GetTrieNodes.root_hash m) ∧
  rlp_valid (GetTrieNodes.paths m) ∧ rlp_valid (GetTrieNodes.bytes m).
Lemma GetTrieNodes_roundtrip c m :
  rlp_valid m → GetTrieNodes.encode m = Ok c → GetTrieNodes.decode c = Ok m.
Proof. message_roundtrip (@GetTrieNodes.encode) (@GetTrieNodes.decode). Qed.

#[export] Instance TrieNodes_valid : RLPValid TrieNodes.t := λ m,
  rlp_valid (TrieNodes.id m) ∧ rlp_valid (TrieNodes.nodes m).
Lemma TrieNodes_roundtrip c m :
  rlp_valid m → TrieNodes.encode m = Ok c → TrieNodes.decode c = Ok m.
Proof. message_roundtrip (@TrieNodes.encode) (@TrieNodes.decode). Qed.


#[export] Instance StatusMessage_valid : RLPValid StatusMessage.t := λ m,
  StatusMessage.eth_version m = 68 ∧
  rlp_valid (StatusMessage.eth_version m) ∧ rlp_valid (StatusMessage.network_id m) ∧
  rlp_valid (StatusMessage.total_difficulty m) ∧ rlp_valid (StatusMessage.block_hash m) ∧
  rlp_valid (StatusMessage.genesis m) ∧ rlp_valid (StatusMessage.fork_id m).
Lemma StatusMessage_roundtrip c m :
  rlp_valid m → StatusMessage.encode m = Ok c → StatusMessage.decode c = Ok m.
Proof.
  intros Hv E. unfold StatusMessage.encode in E. unfold StatusMessage.decode. split_valid Hv.
  message_fields E. unfold u32_eqb. rewrite (proj2 (Z.eqb_eq _ _)) by done. cbn [negb].
  repeat read_field. by destruct m.
Qed.

#[export] Instance GetBlockHeaders_valid : RLPValid GetBlockHeaders.t := λ m,
  rlp_valid (GetBlockHeaders.id m) ∧ rlp_valid (GetBlockHeaders.startblock m) ∧
  rlp_valid (GetBlockHeaders.limit m) ∧ rlp_valid (GetBlockHeaders.skip m).

Lemma quadruple_flag {A B C} `{RLPEncode A, RLPEncode B, RLPEncode C} e (a : A) (b : B) (c : C) f :
  (e ⊕ ((a, b, c, if (f : bool) then 1 else 0) : Quadruple A B C u8))
  = e ⊕ ((a, b, c, f) : Quadruple A B C bool).
Proof. by destruct f. Qed.

Lemma quadruple_field {A B C D} `{RLPCodec A, RLPCodec B, RLPCodec C, RLPCodec D}
    (a : A) (b : B) (c : C) (d : D) r name :
  rlp_valid a → rlp_valid b → rlp_valid c → rlp_valid d →
  len (encode ((a, b, c, d) : Quadruple A B C D)) ≤ isize_max →
  Decoder.decode_field (T := Quadruple A B C D)
    {| Decoder.payload := encode ((a, b, c, d) : Quadruple A B C D); Decoder.remaining := r |} name
  = Ok ((a, b, c, d), {| Decoder.payload := []; Decoder.remaining := r |}).
Proof.
  intros Ha Hb Hc Hd Hl. change (encode (_ : Quadruple A B C D)) with (encode_quadruple (a, b, c, d)) in *.
  unfold Decoder.decode_field. cbn [Decoder.payload Decoder.remaining].
  change (decode_unfinished ?l) with (decode_quadruple (T1 := A) (T2 := B) (T3 := C) (T4 := D) l).
  rewrite <-(app_nil_r (encode_quadruple _)), decode_quadruple_roundtrip; try done.
  unfold encode_quadruple in Hl. rewrite len_app in Hl.
  match type of Hl with len ?x + _ ≤ _ => pose proof (len_nonneg x) end. lia.
Qed.

Lemma GetBlockHeaders_roundtrip c m :
  rlp_valid m → GetBlockHeaders.encode m = Ok c → GetBlockHeaders.decode c = Ok m.
Proof.
  intros Hv E. unfold GetBlockHeaders.encode in E. unfold GetBlockHeaders.decode. split_valid Hv.
  rewrite quadruple_flag in E. message_fields E.
  rewrite quadruple_field by (done || lia). by destruct m.
Qed.

#[export] Instance NewPooledTransactionHashes_valid : RLPValid NewPooledTransactionHashes.t := λ m,
  rlp_valid (NewPooledTransactionHashes.transaction_types m) ∧
  rlp_valid (NewPooledTransactionHashes.transaction_sizes m) ∧
  rlp_valid (NewPooledTransactionHashes.transaction_hashes m) ∧
  NewPooledTransactionHashes.same_length (NewPooledTransactionHashes.transaction_types m)
    (NewPooledTransactionHashes.transaction_sizes m)
    (NewPooledTransactionHashes.transaction_hashes m) = true.
Lemma NewPooledTransactionHashes_roundtrip c m :
  rlp_valid m → NewPooledTransactionHashes.encode m = Ok c →
  NewPooledTransactionHashes.decode c = Ok m.
Proof.
  intros Hv E. unfold NewPooledTransactionHashes.encode in E.
  unfold NewPooledTransactionHashes.decode. split_valid Hv. message_fields E.
  case_match; [by destruct m|done].
Qed.

#[export] Instance GetStorageRanges_valid : RLPValid GetStorageRanges.t := λ m,
  rlp_valid (GetStorageRanges.id m) ∧ rlp_valid (GetStorageRanges.root_hash m) ∧
  rlp_valid (GetStorageRanges.account_hashes m) ∧ rlp_valid (GetStorageRanges.starting_hash m) ∧
  rlp_valid (GetStorageRanges.limit_hash m) ∧ rlp_valid (GetStorageRanges.response_bytes m).

Lemma hash_or_valid {E} d (hash : H256) :
  rlp_valid hash → AccountStateSlim.hash_or (E := E) d hash = Ok hash.
Proof.
  intros [_ Hl]. unfold AccountStateSlim.hash_or, hash_from_slice, len.
  destruct hash as [|b hash]; [done|]. by rewrite Hl.
Qed.

(** The bounds are written as hashes and read as byte strings. *)
Lemma hash_as_bytes (hash : H256) e : (e ⊕ hash) = e ⊕ (hash : Bytes).
Proof. done. Qed.

Lemma GetStorageRanges_roundtrip c m :
  rlp_valid m → GetStorageRanges.encode m = Ok c → GetStorageRanges.decode c = Ok m.
Proof.
  intros Hv E. unfold GetStorageRanges.encode in E. unfold GetStorageRanges.decode. split_valid Hv.
  assert (rlp_valid (GetStorageRanges.starting_hash m : Bytes)) by by apply H4.
  assert (rlp_valid (GetStorageRanges.limit_hash m : Bytes)) by by apply H5.
  rewrite (hash_as_bytes (GetStorageRanges.starting_hash m)) in E.
  rewrite (hash_as_bytes (GetStorageRanges.limit_hash m)) in E.
  message_fields E. rewrite !hash_or_valid by done. by destruct m.
Qed.

(** At most as many transactions as the loop keeps. *)
#[export] Instance Transactions_valid : RLPValid Transactions.t := λ m,
  Forall rlp_valid (Transactions.transactions m) ∧
  (length (Transactions.transactions m) ≤ S Transactions.TRANSACTION_LIMIT)%nat.

Lemma transactions_written txs e :
  foldl (λ encoder (tx : Transaction), encoder ⊕ tx) e txs = e ++ concat (encode <$> txs).
Proof.
  revert e. induction txs as [|tx txs IH]; intros e; cbn; [by rewrite app_nil_r|].
  by rewrite IH, field_app, <-app_assoc.
Qed.

Lemma no_transaction r : ∃ e, Decoder.decode_field (T := Transaction)
  {| Decoder.payload := []; Decoder.remaining := r |} "p2p transaction" = Err e.
Proof. by eexists. Qed.

Lemma transactions_read fuel txs done r :
  Forall rlp_valid txs → len (concat (encode <$> txs)) ≤ isize_max →
  (length txs < fuel)%nat → (length done + length txs ≤ S Transactions.TRANSACTION_LIMIT)%nat →
  Transactions.decode_loop fuel
    {| Decoder.payload := concat (encode <$> txs); Decoder.remaining := r |} done
  = Ok (done ++ txs).
Proof.
  intros Hv. revert fuel done. induction Hv as [|tx txs Htx Hv IH]; intros fuel done Hl Hf Hn.
  - destruct fuel as [|fuel]; [cbn in Hf; lia|]. cbn [Transactions.decode_loop fmap list_fmap concat].
    destruct (no_transaction r) as [e ->]. by rewrite app_nil_r.
  - destruct fuel as [|fuel]; [cbn in Hf; lia|]. cbn [length] in Hf, Hn.
    change (concat (encode <$> tx :: txs)) with (encode tx ++ concat (encode <$> txs)) in *.
    rewrite len_app in Hl. pose proof (len_nonneg (encode tx)).
    pose proof (len_nonneg (concat (encode <$> txs))). cbn [Transactions.decode_loop].
    rewrite decode_field_ok by (done || lia).
    rewrite (proj2 (Nat.ltb_ge _ _)) by lia.
    rewrite IH; [by rewrite <-app_assoc|lia|lia|]. rewrite length_app. cbn [length]. lia.
Qed.

Lemma Transactions_roundtrip c m :
  rlp_valid m → Transactions.encode m = Ok c → Transactions.decode c = Ok m.
Proof.
  intros [Hv Hn] E. unfold Transactions.encode in E. unfold Transactions.decode.
  apply receive_send in E as [-> Hl]. rewrite transactions_written in *. unfold Encoder.new in *.
  cbn [app mbind outcome_bind] in *.
  rewrite transactions_read; [by destruct m|done|done|..|done].
  unfold Transactions.decode_fuel. cbn [length]. lia.
Qed.

(** ** The messages of the base protocol *)

Lemma empty_list_plain : encode_vec (T := u8) [] = as_list [].
Proof. done. Qed.

Lemma ping_roundtrip c : PingMessage.encode = Ok c → PingMessage.decode c = Ok tt.
Proof.
  unfold PingMessage.encode, PingMessage.decode. rewrite empty_list_plain.
  intros E. by destruct (receive_send [] c E) as [-> _].
Qed.

(** A message without a reason is written as an empty list, which the reader takes
    for the byte 0xc0. *)
Definition read_reason (m : DisconnectMessage.t) : DisconnectMessage.t :=
  match DisconnectMessage.reason m with
  | Some _ => m
  | None => {| DisconnectMessage.reason := Some 0xc0 |}
  end.

#[export] Instance DisconnectMessage_valid : RLPValid DisconnectMessage.t := λ m,
  match DisconnectMessage.reason m with Some r => rlp_valid r | None => True end.

(** A list with a reason has at least two bytes. *)
Lemma reason_plain (r : u8) : ∃ a b l, as_list (encode r) = a :: b :: l.
Proof.
  pose proof (as_list_length (encode r)) as Hlt.
  assert (0 < len (encode r)).
  { change (encode r) with (encode_uint 1 r). unfold encode_uint, put_stripped.
    repeat case_match; rewrite len_cons; match goal with |- context [len ?x] => pose proof (len_nonneg x) end; lia. }
  destruct (as_list (encode r)) as [|a [|b l]]; rewrite ?len_cons, ?len_nil in Hlt; [lia..|].
  by eexists _, _, _.
Qed.

Lemma DisconnectMessage_roundtrip c m :
  rlp_valid m → DisconnectMessage.encode m = Ok c → DisconnectMessage.decode c = Ok (read_reason m).
Proof.
  destruct m as [[r|]]; intros Hv E; unfold DisconnectMessage.encode in E;
    cbn [DisconnectMessage.reason] in E; apply decompress_compress in E as [E Hl];
    unfold DisconnectMessage.decode; rewrite E; cbn [mbind outcome_bind]; [|done].
  change (Encoder.finish [] (Encoder.new ⊕ r)) with (as_list (encode r)) in *.
  destruct (reason_plain r) as (a & b & l & El). rewrite El, <-El, <-(app_nil_r (as_list _)).
  pose proof (as_list_length (encode r)). rewrite decoder_new_ok by lia. cbn [mbind outcome_bind].
  rewrite decode_optional_field_last by (done || lia). done.
Qed.

Section hello.
Context `{BuildProfile} `{NodeKeys, !NodeKeysLaws}.

(** Hello is not compressed, so nothing else bounds its size. *)
#[export] Instance HelloMessage_valid : RLPValid HelloMessage.t := λ m,
  rlp_valid (HelloMessage.capabilities m) ∧
  len (encode (HelloMessage.capabilities m)) ≤ 2 ^ 32.

Definition client_id : RString := text "Ethereum(++)/1.0.0".

Lemma hello_plain (caps : list (Capability.t * u8)) (id : ByteArray 64) :
  Encoder.finish [] (Encoder.new ⊕ (5 : u8) ⊕ (text "Ethereum(++)/1.0.0" : RString)
    ⊕ caps ⊕ (0 : u8) ⊕ id)
  = as_list (encode (5 : u64) ++ encode client_id ++ encode caps ++ encode (0 : u16) ++ encode id).
Proof.
  rewrite finish_as_list. unfold Encoder.new. rewrite !field_app, <-!app_assoc. done.
Qed.

Lemma HelloMessage_roundtrip c m :
  rlp_valid m → HelloMessage.encode m = Ok c → HelloMessage.decode c = Ok m.
Proof.
  intros [Hv Hl] E. unfold HelloMessage.encode in E.
  destruct (node_id_roundtrip (E := RLPEncodeError) (HelloMessage.node_id m)) as (id & Ei & Hid & Hk).
  rewrite Ei in E. cbn [mbind outcome_bind] in E. injection E as <-. unfold HelloMessage.decode.
  rewrite hello_plain, <-(app_nil_r (as_list _)).
  assert (len (encode id) ≤ 73) as Hn.
  { change (encode id) with (encode_slice id). etrans; [apply encode_slice_upper|].
    destruct Hid as [_ Hid]. unfold len. by rewrite Hid. }
  pose proof (len_encode_nonneg (HelloMessage.capabilities m)). pose proof (len_encode_nonneg id).
  assert (2 ^ 32 + 1000 ≤ isize_max) by done.
  assert (len (encode client_id) = 19) by done.
  assert (len (encode (5 : u64)) = 1) by done. assert (len (encode (0 : u16)) = 1) by done.
  assert (rlp_valid client_id) by (split; [check_bytes|reflexivity]).
  assert (rlp_valid (5 : u64)) by done. assert (rlp_valid (0 : u16)) by done.
  rewrite decoder_new_ok by (rewrite !len_app; lia). cbn [mbind outcome_bind]. read_field.
  change (negb (u64_eqb 5 5)) with false. cbv iota. repeat read_field.
  rewrite Hk. by destruct m.
Qed.
End hello.
End roundtrips.

(** ** Frames *)

Section frames.
Context `{BuildProfile} `{NodeKeys, !NodeKeysLaws} `{Snappy, !SnappyLaws}.

(** The numbers of a message fit their types, its hashes have 32 bytes, and it keeps
    to what the receiver asks for: version 68 of eth, and no more transactions than
    are read. *)
Definition message_ok (m : Message.t) : Prop :=
  match m with
  | Message.Hello msg => rlp_valid msg
  | Message.Disconnect msg => rlp_valid msg
  | Message.Ping | Message.Pong => True
  | Message.Status msg => rlp_valid msg
  | Message.GetBlockHeaders msg => rlp_valid msg
  | Message.BlockHeaders msg => rlp_valid msg
  | Message.Transactions msg => rlp_valid msg
  | Message.GetBlockBodies msg => rlp_valid msg
  | Message.BlockBodies msg => rlp_valid msg
  | Message.GetReceipts msg => rlp_valid msg
  | Message.Receipts msg => rlp_valid msg
  | Message.NewPooledTransactionHashes msg => rlp_valid msg
  | Message.GetPooledTransactions msg => rlp_valid msg
  | Message.GetAccountRange msg => rlp_valid msg
  | Message.AccountRange msg => rlp_valid msg
  | Message.GetStorageRanges msg => rlp_valid msg
  | Message.StorageRanges msg => rlp_valid msg
  | Message.GetByteCodes msg => rlp_valid msg
  | Message.ByteCodes msg => rlp_valid msg
  | Message.GetTrieNodes msg => rlp_valid msg
  | Message.TrieNodes msg => rlp_valid msg
  end.

Definition received (m : Message.t) : Message.t :=
  match m with
  | Message.Disconnect msg => Message.Disconnect (read_reason msg)
  | m => m
  end.

Lemma tagged_frame code e frame :
  in_u 8 code → Message.tagged code e = Ok frame →
  ∃ data, e = Ok data ∧ Message.of_frame frame = Message.decode code data.
Proof.
  intros Hc (data & -> & [= <-])%bind_Ok. exists data. split; [done|]. unfold Message.of_frame.
  assert (len (encode (code : u8)) ≤ isize_max) as Hl.
  { etrans; [apply (encode_uint_upper 1)|]. done. }
  pose proof (codec_roundtrip (code : u8) data Hc Hl) as E.
  change (decode_unfinished ?l) with (decode_u8 l) in E.
  change (encode (code : u8)) with (encode_u8 code) in E. by rewrite E.
Qed.

(** C37. Every message that a peer writes to a frame is the message that the other
    peer reads from it, for all 22 messages of the base, eth and snap protocols; only
    a Disconnect without a reason arrives with the reason 0xc0. *)
Theorem message_roundtrip_frame m frame :
  message_ok m → Message.encode m = Ok frame → Message.of_frame frame = Ok (received m).
Proof.
  intros Hm E. destruct m; unfold Message.encode in E;
    (apply tagged_frame in E as (data & E & ->); [|done]); unfold Message.decode;
    [ rewrite (HelloMessage_roundtrip _ _ Hm E)
    | rewrite (DisconnectMessage_roundtrip _ _ Hm E)
    | rewrite (ping_roundtrip _ E) | rewrite (ping_roundtrip _ E)
    | rewrite (StatusMessage_roundtrip _ _ Hm E)
    | rewrite (GetBlockHeaders_roundtrip _ _ Hm E)
    | rewrite (BlockHeaders_roundtrip _ _ Hm E)
    | rewrite (Transactions_roundtrip _ _ Hm E)
    | rewrite (GetBlockBodies_roundtrip _ _ Hm E)
    | rewrite (BlockBodies_roundtrip _ _ Hm E)
    | rewrite (GetReceipts_roundtrip _ _ Hm E)
    | rewrite (Receipts_roundtrip _ _ Hm E)
    | rewrite (NewPooledTransactionHashes_roundtrip _ _ Hm E)
    | rewrite (GetPooledTransactions_roundtrip _ _ Hm E)
    | rewrite (GetAccountRange_roundtrip _ _ Hm E)
    | rewrite (AccountRange_roundtrip _ _ Hm E)
    | rewrite (GetStorageRanges_roundtrip _ _ Hm E)
    | rewrite (StorageRanges_roundtrip _ _ Hm E)
    | rewrite (GetByteCodes_roundtrip _ _ Hm E)
    | rewrite (ByteCodes_roundtrip _ _ Hm E)
    | rewrite (GetTrieNodes_roundtrip _ _ Hm E)
    | rewrite (TrieNodes_roundtrip _ _ Hm E) ]; done.
Qed.
End frames.

(** A peer that asks to skip [u64::MAX] blocks makes a build with overflow checks
    panic. *)
Lemma fetch_headers_overflow `{BuildProfile} (request : GetBlockHeaders.t) s start :
  GetBlockHeaders.skip request = 2 ^ 64 - 1 → GetBlockHeaders.start_of request s = Some start →
  overflow_checks = true → GetBlockHeaders.fetch_headers request s = Panic.
Proof.
  intros Hs Hst Ho. unfold GetBlockHeaders.fetch_headers. rewrite Hst, Hs.
  unfold u_add, in_width. by rewrite Ho.
Qed.

(** ** Concrete peers *)

(** Snappy that stores its input, and two keys. *)
#[local] Instance demo_snappy : Snappy := {
  snap_compress d := if len d <? 2 ^ 32 then Some d else None;
  snap_decompress c := Some c;
}.
#[local] Instance demo_snappy_laws : SnappyLaws.
Proof.
  split; intros d c; change (snap_compress d) with (if len d <? 2 ^ 32 then Some d else None);
    destruct (len d <? 2 ^ 32) eqn:E; try done; intros [= <-]; first [done|by apply Z.ltb_lt].
Qed.

#[local] Instance demo_keys : NodeKeys := {
  PublicKey := bool;
  to_encoded_point pk := 4 :: replicate 64 (if (pk : bool) then 17 else 34);
  from_encoded_point p := Some (match p with _ :: 17 :: _ => true | _ => false end);
}.
#[local] Instance demo_keys_laws : NodeKeysLaws.
Proof.
  split; intros [].
  - exists (replicate 64 17). split; [done|]. split; [done|check_bytes].
  - exists (replicate 64 34). split; [done|]. split; [done|check_bytes].
  - done.
  - done.
Qed.

Definition demo_hello : Message.t := Message.Hello {|
  HelloMessage.capabilities := [(Capability.P2p, 5 : u8); (Capability.Eth, 68); (Capability.Snap, 1)];
  HelloMessage.node_id := true : PublicKey |}.
Definition demo_request : Message.t := Message.GetBlockHeaders {|
  GetBlockHeaders.id := 7; GetBlockHeaders.startblock := HashOrNumber.Hash (replicate 32 9);
  GetBlockHeaders.limit := 192; GetBlockHeaders.skip := 0; GetBlockHeaders.reverse := true |}.

#[local] Instance rlpx_build : BuildProfile := true.

Definition frame_of (m : Message.t) : list Z :=
  match Message.encode m with Ok frame => frame | _ => [] end.

Example message_roundtrip_frame_witness :
  Message.of_frame (frame_of demo_hello) = Ok demo_hello ∧
  Message.of_frame (frame_of demo_request) = Ok demo_request ∧
  Message.of_frame [0x01; 0xc0]
    = Ok (Message.Disconnect {| DisconnectMessage.reason := Some 0xc0 |}).
Proof.
  split_and!.
  - apply (message_roundtrip_frame demo_hello); [|reflexivity].
    split; [|done]. repeat constructor; done.
  - apply (message_roundtrip_frame demo_request); [|reflexivity].
    split; [done|]. split; [check_array|done].
  - apply (message_roundtrip_frame (Message.Disconnect {| DisconnectMessage.reason := None |}));
      [done|reflexivity].
Defined.
