(* ===== verification/Snap.v ===== *)
(** * The answers of a snap peer

    crates/networking/p2p/snap.rs: what a node answers to the four requests of the snap
    protocol out of its store.  The iterators of the store are lists here (Store.v), of
    which [fuel] bounds the nodes that are visited. *)

From stdpp Require Import base option list numbers strings gmap.
From S2P Require Import Prelude Rlp RlpProofs RlpStruct LevmHost LevmDemo TrieNode Trie Tx.
From S2P Require Import BlockTypes Chain Store Rlpx.

Local Open Scope Z_scope.

(** [>=] on hashes. *)
Definition hash_ge (a b : list Z) : bool :=
  match Nibbles.cmp a b with Lt => false | _ => true end.

Definition proof_to_encodable (proof : list (list Z)) : list Bytes := proof.
Definition encodable_to_proof (proof : list Bytes) : list (list Z) := proof.

(** [accounts.last().map(|acc| acc.hash)]. *)
Definition last_account (accounts : list AccountRangeUnit.t) : option (list Z) :=
  match last accounts with Some acc => Some (AccountRangeUnit.hash acc) | None => None end.
Definition last_slot (account_slots : list StorageSlot.t) : option (list Z) :=
  match last account_slots with Some slot => Some (StorageSlot.hash slot) | None => None end.

Section requests.
Context `{BuildProfile} `{Crypto}.

(** The size that an account counts for. *)
Definition account_size {E} (account : AccountStateSlim.t) : Outcome E Z :=
  u_add 64 32 (rlp_length account).

(** The loop over the accounts: it ends at the first account that reaches the limit
    hash or exhausts the bytes. *)
Fixpoint account_loop {E} (request : GetAccountRange.t) (items : list (list Z * AccountState.t))
    (accounts : list AccountRangeUnit.t) (bytes_used : Z) :
    Outcome E (list AccountRangeUnit.t) :=
  match items with
  | [] => Ok accounts
  | (hash, account) :: items =>
      '(accounts, bytes_used) ←
        (if hash_ge hash (GetAccountRange.starting_hash request) then
           let account := AccountStateSlim.from_account_state account in
           size ← account_size account;
           bytes_used ← u_add 64 bytes_used size;
           Ok (accounts ++ [{| AccountRangeUnit.hash := hash;
                               AccountRangeUnit.account := account |}], bytes_used)
         else Ok (accounts, bytes_used));
      if hash_ge hash (GetAccountRange.limit_hash request)
         || (GetAccountRange.response_bytes request <=? bytes_used)
      then Ok accounts
      else account_loop request items accounts bytes_used
  end.

Definition process_account_range_request (fuel : nat) (request : GetAccountRange.t) :
    StoreM AccountRange.t :=
  items ← Store.iter_accounts fuel (GetAccountRange.root_hash request);
  accounts ← state_lift (account_loop request items [] 0);
  proof ← Store.get_account_range_proof (GetAccountRange.root_hash request)
    (GetAccountRange.starting_hash request) (last_account accounts);
  mret {| AccountRange.id := GetAccountRange.id request; AccountRange.accounts := accounts;
          AccountRange.proof := proof_to_encodable proof |}.

(** The loop over the slots of one account: the slots, whether the bytes were exhausted,
    and the bytes used. *)
Fixpoint slot_loop {E} (request : GetStorageRanges.t) (items : list (list Z * Z))
    (account_slots : list StorageSlot.t) (bytes_used : Z) :
    Outcome E (list StorageSlot.t * bool * Z) :=
  match items with
  | [] => Ok (account_slots, false, bytes_used)
  | (hash, data) :: items =>
      '(account_slots, bytes_used) ←
        (if hash_ge hash (GetStorageRanges.starting_hash request) then
           bytes_used ← u_add 64 bytes_used 64;
           Ok (account_slots ++ [{| StorageSlot.hash := hash; StorageSlot.data := data |}],
               bytes_used)
         else Ok (account_slots, bytes_used));
      let exhausted := GetStorageRanges.response_bytes request <=? bytes_used in
      if hash_ge hash (GetStorageRanges.limit_hash request) || exhausted
      then Ok (account_slots, exhausted, bytes_used)
      else slot_loop request items account_slots bytes_used
  end.

Definition hash_is_zero (hash : list Z) : bool := forallb (Z.eqb 0) hash.

Fixpoint storage_loop (fuel : nat) (request : GetStorageRanges.t) (account_hashes : list (list Z))
    (slots : list (list StorageSlot.t)) (proof : list Bytes) (bytes_used : Z) :
    StoreM StorageRanges.t :=
  let answer slots proof := {| StorageRanges.id := GetStorageRanges.id request;
    StorageRanges.slots := slots; StorageRanges.proof := proof |} in
  match account_hashes with
  | [] => mret (answer slots proof)
  | hashed_address :: account_hashes =>
      items ← Store.iter_storage fuel (GetStorageRanges.root_hash request) hashed_address;
      '(account_slots, res_capped, bytes_used) ←
        state_lift (match items with
                    | Some items => slot_loop request items [] bytes_used
                    | None => Ok ([], false, bytes_used)
                    end);
      proof ←
        (if negb (hash_is_zero (GetStorageRanges.starting_hash request))
            || (res_capped && negb (vec_is_empty account_slots)) then
           more ← Store.get_storage_range_proof (GetStorageRanges.root_hash request) hashed_address
             (GetStorageRanges.starting_hash request) (last_slot account_slots);
           mret (proof ++ proof_to_encodable (default [] more))
         else mret proof);
      let slots := if vec_is_empty account_slots then slots else slots ++ [account_slots] in
      if GetStorageRanges.response_bytes request <=? bytes_used then mret (answer slots proof)
      else storage_loop fuel request account_hashes slots proof bytes_used
  end.

Definition process_storage_ranges_request (fuel : nat) (request : GetStorageRanges.t) :
    StoreM StorageRanges.t :=
  storage_loop fuel request (GetStorageRanges.account_hashes request) [] [] 0.

Fixpoint codes_loop (request : GetByteCodes.t) (hashes : list (list Z)) (codes : list Bytes)
    (bytes_used : Z) : StoreM (list Bytes) :=
  match hashes with
  | [] => mret codes
  | code_hash :: hashes =>
      code ← Store.get_account_code code_hash;
      '(codes, bytes_used) ←
        state_lift (match code with
                    | Some code =>
                        bytes_used ← u_add 64 bytes_used (len code);
                        Ok (codes ++ [code], bytes_used)
                    | None => Ok (codes, bytes_used)
                    end);
      if GetByteCodes.bytes request <=? bytes_used then mret codes
      else codes_loop request hashes codes bytes_used
  end.

Definition process_byte_codes_request (request : GetByteCodes.t) : StoreM ByteCodes.t :=
  codes ← codes_loop request (GetByteCodes.hashes request) [] 0;
  mret {| ByteCodes.id := GetByteCodes.id request; ByteCodes.codes := codes |}.

Fixpoint nodes_loop (root_hash : list Z) (pathsets : list (list Bytes)) (nodes : list Bytes)
    (remaining_bytes : Z) : RLPxM (list Bytes) :=
  match pathsets with
  | [] => mret nodes
  | [] :: _ => state_throw (BadRequest "zero-item pathset requested")
  | paths :: pathsets =>
      trie_nodes ← rlpx_store (Store.get_trie_nodes root_hash (encodable_to_proof paths)
        remaining_bytes);
      let nodes := nodes ++ proof_to_encodable trie_nodes in
      let remaining_bytes := Z.max 0 (remaining_bytes - len (concat trie_nodes)) in
      if remaining_bytes =? 0 then mret nodes
      else nodes_loop root_hash pathsets nodes remaining_bytes
  end.

Definition process_trie_nodes_request (request : GetTrieNodes.t) : RLPxM TrieNodes.t :=
  nodes ← nodes_loop (GetTrieNodes.root_hash request) (GetTrieNodes.paths request) []
    (GetTrieNodes.bytes request);
  mret {| TrieNodes.id := GetTrieNodes.id request; TrieNodes.nodes := nodes |}.
End requests.
