(* ===== verification/SnapProofs.v ===== *)
(** * A snap peer serves the state

    The answer to a GetAccountRange request is the part of the state that it asks for:
    the accounts from the first hash on, in the order of their hashes and without gaps,
    up to the first one that reaches the limit hash or exhausts the bytes. *)

From stdpp Require Import base option list numbers strings gmap sorting.
From S2P Require Import Prelude Rlp RlpProofs RlpStruct LevmHost LevmDemo.
From S2P Require Import TrieNode TrieCodec Trie TrieLogic TrieMap TrieOps TrieCorrect TrieCommit.
From S2P Require Import TrieHashed TrieProof TrieIter TrieTheorems VerifyRange VerifyRangeProofs.
From S2P Require Import Tx TxProofs BlockTypes BlockCodecs BlockRoots Chain ChainProofs.
From S2P Require Import Store StoreLogic Blockchain ForkChoice BlockImport WorldState GenesisState.
From S2P Require Import Rlpx RlpxProofs Snap.

Local Open Scope Z_scope.

(** ** The order of the hashes *)

Lemma cmp_Eq a b : Nibbles.cmp a b = Eq → a = b.
Proof.
  revert b. induction a as [|x a IH]; intros [|y b]; try done. cbn.
  destruct (Z.compare_spec x y) as [->| |]; [|done..]. by intros ->%IH.
Qed.

Lemma cmp_opp a b : Nibbles.cmp b a = CompOpp (Nibbles.cmp a b).
Proof.
  revert b. induction a as [|x a IH]; intros [|y b]; try done. cbn.
  rewrite (Z.compare_antisym x y). destruct (x ?= y); [apply IH|done..].
Qed.

(** What comes before the start comes before the limit. *)
Lemma hash_below a b c : hash_ge a b = false → hash_ge c b = true → hash_ge a c = false.
Proof.
  unfold hash_ge. intros Hab Hcb. destruct (Nibbles.cmp a b) eqn:Eab; try done.
  destruct (Nibbles.cmp a c) eqn:Eac; [|done|].
  - apply cmp_Eq in Eac as ->. by rewrite Eab in Hcb.
  - assert (Nibbles.cmp c a = Lt) as Eca by (by rewrite cmp_opp, Eac).
    by rewrite (cmp_trans _ _ _ Eca Eab) in Hcb.
Qed.

Lemma sorted_filter {A} (R : relation A) (P : A → Prop) `{∀ x, Decision (P x)} l :
  StronglySorted R l → StronglySorted R (filter P l).
Proof.
  induction 1 as [|x l Hs IH Hx]; [constructor|]. rewrite filter_cons. case_decide; [|done].
  constructor; [done|]. rewrite Forall_forall in Hx |- *. intros y [_ Hy]%list_elem_of_filter. auto.
Qed.

(** ** The loop *)

Section served.
Context `{BuildProfile} `{Crypto}.

Notation item := (list Z * AccountState.t)%type.

Definition unit_of (x : item) : AccountRangeUnit.t := {|
  AccountRangeUnit.hash := x.1;
  AccountRangeUnit.account := AccountStateSlim.from_account_state x.2;
|}.

(** The bytes that accounts count for. *)
Definition size_of (x : item) : Z := 32 + len (encode (AccountStateSlim.from_account_state x.2)).
Definition sizes_of (l : list item) : Z := foldr (λ x n, size_of x + n) 0 l.

(** Whether an answer ends with these accounts, [used] bytes being used before. *)
Definition reached (request : GetAccountRange.t) (used : Z) (l : list item) : bool :=
  match last l with
  | None => false
  | Some x => hash_ge x.1 (GetAccountRange.limit_hash request)
              || (GetAccountRange.response_bytes request <=? used + sizes_of l)
  end.

Lemma reached_cons request used x l :
  reached request used (x :: l)
  = if vec_is_empty l then reached request used [x] else reached request (used + size_of x) l.
Proof.
  destruct l as [|y l]; [done|]. cbn [vec_is_empty]. unfold reached.
  change (last (x :: y :: l)) with (last (y :: l)). destruct (last (y :: l)) as [z|] eqn:El.
  - by change (sizes_of (x :: y :: l)) with (size_of x + sizes_of (y :: l)); rewrite Z.add_assoc.
  - by apply last_None in El.
Qed.

(** [taken] is the shortest prefix of [l] that ends the answer, or all of [l]. *)
Record shortest (request : GetAccountRange.t) (used : Z) (l taken : list item) : Prop := {
  sh_prefix : taken `prefix_of` l;
  sh_open p : p `prefix_of` taken → p ≠ taken → reached request used p = false;
  sh_done : taken = l ∨ reached request used taken = true;
}.

Lemma shortest_nil request used : shortest request used [] [].
Proof. split; [done| |by left]. intros p Hp Hne. by apply prefix_nil_inv in Hp. Qed.

Lemma shortest_stop request used x l :
  reached request used [x] = true → shortest request used (x :: l) [x].
Proof.
  intros Hr. split; [by exists l| |by right]. intros p Hp Hne.
  destruct p as [|y p]; [done|]. apply prefix_cons_inv_1 in Hp as Hy. subst y.
  apply prefix_cons_inv_2, prefix_nil_inv in Hp. by subst p.
Qed.

Lemma shortest_cons request used x l taken :
  reached request used [x] = false → shortest request (used + size_of x) l taken →
  shortest request used (x :: l) (x :: taken).
Proof.
  intros Hr [Hp Ho Hd]. split.
  - by apply prefix_cons.
  - intros [|y p] Hpre Hne; [done|]. apply prefix_cons_inv_1 in Hpre as Hy. subst y.
    apply prefix_cons_inv_2 in Hpre. rewrite reached_cons. destruct p; [done|].
    cbn [vec_is_empty]. apply Ho; congruence.
  - destruct Hd as [->|Hd]; [by left|right]. rewrite reached_cons. by destruct taken.
Qed.

Definition asked (request : GetAccountRange.t) (l : list item) : list item :=
  filter (λ x, hash_ge x.1 (GetAccountRange.starting_hash request) = true) l.

Lemma u_add_run {E} w a b : 0 ≤ a + b < 2 ^ w → u_add (E := E) w a b = Ok (a + b).
Proof.
  intros Hr. unfold u_add, in_width, fits.
  by rewrite (proj2 (Z.leb_le _ _)), (proj2 (Z.ltb_lt _ _)) by lia.
Qed.

Lemma size_nonneg x : 0 ≤ size_of x.
Proof.
  unfold size_of. pose proof (len_encode_nonneg (AccountStateSlim.from_account_state x.2)). lia.
Qed.

Lemma account_size_run {E} x :
  size_of x < 2 ^ 63 →
  account_size (E := E) (AccountStateSlim.from_account_state x.2) = Ok (size_of x).
Proof.
  intros Hx. unfold account_size. rewrite codec_length. apply u_add_run.
  unfold size_of in *.
  pose proof (len_encode_nonneg (AccountStateSlim.from_account_state x.2)). lia.
Qed.

Lemma account_loop_spec {E} request items accounts used :
  hash_ge (GetAccountRange.limit_hash request) (GetAccountRange.starting_hash request) = true →
  GetAccountRange.response_bytes request < 2 ^ 63 →
  Forall (λ x, size_of x < 2 ^ 63) items →
  0 ≤ used < GetAccountRange.response_bytes request →
  ∃ taken, account_loop (E := E) request items accounts used = Ok (accounts ++ (unit_of <$> taken)) ∧
    shortest request used (asked request items) taken.
Proof.
  intros Hlim Hresp Hsz. revert accounts used.
  induction Hsz as [|[h a] items Hx Hsz IH]; intros accounts used Hused.
  { exists []. rewrite app_nil_r. split; [done|]. apply shortest_nil. }
  unfold asked. rewrite filter_cons. cbn [account_loop fst].
  destruct (hash_ge h (GetAccountRange.starting_hash request)) eqn:Eh.
  - rewrite decide_True by done. rewrite (account_size_run (h, a)) by done. cbn [mbind outcome_bind snd].
    pose proof (size_nonneg (h, a)). rewrite u_add_run by lia. cbn [mbind outcome_bind].
    assert (hash_ge h (GetAccountRange.limit_hash request)
      || (GetAccountRange.response_bytes request <=? used + size_of (h, a))
      = reached request used [(h, a)]) as -> by (by cbn; rewrite Z.add_0_r).
    destruct (reached request used [(h, a)]) eqn:Er.
    + exists [(h, a)]. split; [done|]. by apply shortest_stop.
    + destruct (IH (accounts ++ [unit_of (h, a)]) (used + size_of (h, a))) as (taken & Ht & Hs).
      { apply orb_false_iff in Er as [_ Er%Z.leb_gt]. cbn [sizes_of foldr] in Er. lia. }
      exists ((h, a) :: taken). split; [|by apply shortest_cons].
      etrans; [exact Ht|]. by rewrite <-app_assoc.
  - rewrite decide_False by congruence. cbn [mbind outcome_bind].
    rewrite (hash_below _ _ _ Eh Hlim), (proj2 (Z.leb_gt _ _)) by lia. by apply IH.
Qed.
(** A request for zero bytes gets no account at all if the state has one before the
    starting hash, whatever follows it. *)
Lemma zero_bytes_no_account {E} request h a items :
  hash_ge h (GetAccountRange.starting_hash request) = false →
  GetAccountRange.response_bytes request = 0 →
  account_loop (E := E) request ((h, a) :: items) [] 0 = Ok [].
Proof. intros Hh Hr. cbn [account_loop]. rewrite Hh, Hr. cbn. by rewrite orb_true_r. Qed.
End served.

(** ** The accounts of a state *)

Lemma Forall2_elem_l {A B} (P : A → B → Prop) l k x :
  Forall2 P l k → x ∈ l → ∃ y, y ∈ k ∧ P x y.
Proof.
  intros Hf [i Hi]%list_elem_of_lookup. destruct (Forall2_lookup_l _ _ _ _ _ Hf Hi) as (y & Hy & Hp).
  exists y. split; [by eapply list_elem_of_lookup_2|done].
Qed.
Lemma Forall2_elem_r {A B} (P : A → B → Prop) l k y :
  Forall2 P l k → y ∈ k → ∃ x, x ∈ l ∧ P x y.
Proof. intros Hf%Forall2_flip Hy. by apply (Forall2_elem_l _ _ _ _ Hf). Qed.

Section state.
Context `{CryptoLaws}.

Lemma map_while_all {V} (dec : list Z → Decoded V) (out : list (list Z * list Z)) :
  (∀ k v, (k, v) ∈ out → length k = 32%nat ∧ ∃ x, dec v = Ok x) →
  ∃ items, Store.map_while_decoded dec out = Ok items ∧
    Forall2 (λ e x, e.1 = x.1 ∧ dec e.2 = Ok x.2) out items.
Proof.
  induction out as [|[k v] out IH]; intros Hout; [by exists []|].
  destruct (Hout k v) as (Hk & x & Hx); [constructor|].
  destruct IH as (items & Hi & Hf); [intros k' v' Hin; apply Hout; by constructor|].
  exists ((k, x) :: items). cbn [Store.map_while_decoded]. rewrite Hk, Hx, Hi. split; [done|].
  by constructor.
Qed.

Notation account_before := (λ a b : list Z * AccountState.t, Nibbles.cmp a.1 b.1 = Lt).

Lemma sorted_keys {V W} (R : list Z → list Z → Prop) (l : list (list Z * V)) (l' : list (list Z * W)) :
  l.*1 = l'.*1 → StronglySorted (λ a b, R a.1 b.1) l → StronglySorted (λ a b, R a.1 b.1) l'.
Proof.
  revert l'. induction l as [|x l IH]; intros [|y l'] E Hs; try done; [constructor|].
  injection E as Exy E. apply StronglySorted_inv in Hs as [Hs Hx].
  constructor; [by apply IH|]. rewrite <-Exy.
  change (l.*1 = l'.*1) in E. apply (Forall_fmap fst (R x.1)). change (Forall (R x.1) (l'.*1)). rewrite <-E.
  by apply (Forall_fmap fst (R x.1)).
Qed.

Lemma open_state_trie_run root s :
  Store.open_state_trie root s = (Ok (trie_open (state_db s) root), s).
Proof. by destruct s. Qed.

(** The iterator lists the accounts of the state, in the order of their hashes. *)
Lemma iter_accounts_run s root W :
  world_at s root W →
  ∃ fuel0 items (A : gmap (list Z) AccountState.t),
    (∀ fuel, (fuel0 ≤ fuel)%nat → Store.iter_accounts fuel root s = (Ok items, s)) ∧
    StronglySorted account_before items ∧
    (∀ h a, (h, a) ∈ items ↔ A !! h = Some a) ∧
    (∀ h a, (h, a) ∈ items → bytes h) ∧
    ∀ h, option_Forall2 (account_rep (storage_db s h)) (A !! h) (W !! h).
Proof.
  intros (A & Ht & Hlen & HA).
  destruct (content_ok _ _ Ht (collision_free_nil _)) as (fuel0 & out & Hout & Hs & Hin).
  assert (∀ k v, (k, v) ∈ out ↔ ∃ a, A !! k = Some a ∧ v = encode a) as Hin'.
  { intros k v. rewrite Hin. unfold accounts_map. rewrite lookup_fmap.
    destruct (A !! k); cbn; naive_solver. }
  assert (∀ k a, A !! k = Some a → decode (T := AccountState.t) (encode a) = Ok a) as Hdec.
  { intros k a Ea. specialize (HA k). rewrite Ea in HA. inversion HA as [? w Hr|]; subst.
    apply ar_valid in Hr. by apply decode_encode, account_state_size. }
  destruct (map_while_all (decode (T := AccountState.t)) out) as (items & Hi & Hf).
  { intros k v (a & Ea & ->)%Hin'. split.
    - apply Hlen in Ea. unfold len in Ea. lia.
    - exists a. by apply (Hdec k). }
  assert (∀ h a, (h, a) ∈ items ↔ A !! h = Some a) as Hitems.
  { intros h a. split.
    + intros Hi'. destruct (Forall2_elem_r _ _ _ _ Hf Hi') as ([k v] & Hkv & Hk & Hv).
      cbn [fst snd] in Hk, Hv. subst k. apply Hin' in Hkv as (a' & Ea & ->).
      rewrite (Hdec _ _ Ea) in Hv. congruence.
    + intros Ea. assert ((h, encode a) ∈ out) as He by (apply Hin'; eauto).
      destruct (Forall2_elem_l _ _ _ _ Hf He) as ([k a'] & Hka & Hk & Hv).
      cbn [fst snd] in Hk, Hv. subst k. rewrite (Hdec _ _ Ea) in Hv. congruence. }
  exists fuel0, items, A. split_and!; [|..|done].
  - intros fuel Hfuel. unfold Store.iter_accounts.
    erewrite bind_run; [|apply open_state_trie_run]. apply trie_result_run. unfold Store.trie_items.
    by rewrite (Hout fuel Hfuel).
  - apply (sorted_keys (λ a b, Nibbles.cmp a b = Lt) out); [|exact Hs].
    clear -Hf. induction Hf as [|x y out items [Hxy _] _ IH]; [done|]. cbn. by rewrite Hxy, IH.
  - done.
  - intros h a Ha%Hitems. destruct Ht as [HM _]. apply (HM h (encode a)). unfold accounts_map.
    by rewrite lookup_fmap, Ha.
Qed.

(** The slim form of an account, which leaves out the hashes of an empty trie and an
    empty code, is small and gives the account back. *)
Lemma slim_hash_upper (d h : list Z) :
  length h = 32%nat → len (encode ((if bytes_eqb h d then [] else h) : Bytes)) ≤ 41.
Proof.
  intros Hl. etrans; [apply encode_slice_upper|]. destruct (bytes_eqb h d); [done|].
  unfold len. by rewrite Hl.
Qed.

Lemma slim_size x : rlp_valid (x.2 : AccountState.t) → size_of x < 2 ^ 63.
Proof.
  intros (_ & _ & [_ Hr] & [_ Hc]). unfold size_of.
  change (encode (AccountStateSlim.from_account_state x.2))
    with (AccountStateSlim.encode (AccountStateSlim.from_account_state x.2)).
  unfold AccountStateSlim.encode, Encoder.new. rewrite finish_as_list, !field_app. cbn [app].
  match goal with |- context [as_list ?e] => pose proof (as_list_upper e) as Hu end.
  rewrite !len_app in Hu.
  pose proof (encode_uint_upper 8 (AccountState.nonce x.2)) as H1.
  pose proof (encode_u256_upper (AccountState.balance x.2)) as H2.
  pose proof (slim_hash_upper EMPTY_TRIE_HASH _ Hr) as H3.
  pose proof (slim_hash_upper EMPTY_KECCACK_HASH _ Hc) as H4.
  cbn [AccountStateSlim.nonce AccountStateSlim.balance AccountStateSlim.storage_root
    AccountStateSlim.code_hash AccountStateSlim.from_account_state] in *.
  change (encode (AccountState.nonce x.2)) with (encode_uint 8 (AccountState.nonce x.2)) in *.
  lia.
Qed.

Lemma slim_roundtrip {E} a :
  rlp_valid (a : AccountState.t) →
  AccountStateSlim.to_account_state (E := E) (AccountStateSlim.from_account_state a) = Ok a.
Proof.
  intros (_ & _ & Hr & Hc). destruct a as [nonce balance root code]. cbn in *.
  unfold AccountStateSlim.to_account_state, AccountStateSlim.from_account_state. cbn.
  assert (∀ (d h : list Z), length h = 32%nat →
    AccountStateSlim.hash_or (E := E) d (if bytes_eqb h d then [] else h) = Ok h) as Hh.
  { intros d h Hl. destruct (bytes_eqb h d) eqn:Ee; [by apply bytes_eqb_spec in Ee as ->|].
    unfold AccountStateSlim.hash_or, hash_from_slice, len. destruct h; [done|]. by rewrite Hl. }
  rewrite (Hh _ root) by apply Hr. cbn. rewrite (Hh _ code) by apply Hc. done.
Qed.

Lemma get_proof_run (t : Trie InMemoryTrieDB) M key :
  trie_ok t M → collision_free (state t) → bytes key → ∃ proof, get_proof t key = Ok proof.
Proof.
  intros Ht Hc Hk. destruct (root t) as [h|] eqn:Er.
  - pose proof Ht as [_ Hn]. rewrite Er in Hn. destruct Hn as (n & -> & Hkn & _).
    destruct (get_proof_spec t M n key) as (ns & -> & _); [done..|]. by eexists.
  - unfold get_proof. rewrite Er. by eexists.
Qed.
End state.

(** ** The answer *)

Section theorem.
Context `{BuildProfile} `{CryptoLaws}.

Lemma range_proof_run (t : Trie InMemoryTrieDB) M start last_hash s :
  trie_ok t M → collision_free (state t) → bytes start →
  match last_hash with Some h => bytes h | None => True end →
  ∃ first final, Store.range_proof t start last_hash s = (Ok (first ++ final), s) ∧
    get_proof t start = Ok first ∧
    match last_hash with Some h => get_proof t h = Ok final | None => final = [] end.
Proof.
  intros Ht Hc Hs Hl. destruct (get_proof_run t M start) as [first Hf]; [done..|].
  unfold Store.range_proof. erewrite bind_run; [|by apply trie_result_run].
  destruct last_hash as [h|].
  - destruct (get_proof_run t M h) as [final Hp]; [done..|]. exists first, final.
    erewrite bind_run; [|by apply trie_result_run]. done.
  - exists first, []. by rewrite app_nil_r.
Qed.

(** C39. A node that has a state answers GetAccountRange with that state: [all] are
    its accounts from the starting hash on, in the order of the hashes, and the answer
    has the shortest prefix of them that reaches the limit hash or the size that was
    asked for.  The slim form of each account gives the account back, and the proof has
    the paths to the starting hash and to the last account. *)
Theorem account_range_served s W request :
  let start : list Z := GetAccountRange.starting_hash request in
  let t := trie_open (state_db s) (GetAccountRange.root_hash request) in
  world_at s (GetAccountRange.root_hash request) W →
  bytes start → hash_ge (GetAccountRange.limit_hash request) start = true →
  0 < GetAccountRange.response_bytes request < 2 ^ 63 →
  ∃ fuel0 all taken first final,
    (∀ fuel, (fuel0 ≤ fuel)%nat → process_account_range_request fuel request s
       = (Ok {| AccountRange.id := GetAccountRange.id request;
                AccountRange.accounts := unit_of <$> taken;
                AccountRange.proof := first ++ final |}, s)) ∧
    StronglySorted (λ a b, Nibbles.cmp a.1 b.1 = Lt) all ∧
    (∀ h, h ∈ all.*1 ↔ is_Some (W !! h) ∧ hash_ge h start = true) ∧
    (∀ h a, (h, a) ∈ all → ∃ w, W !! h = Some w ∧ account_rep (storage_db s h) a w ∧
       AccountStateSlim.to_account_state (E := StoreError)
         (AccountRangeUnit.account (unit_of (h, a))) = Ok a) ∧
    shortest request 0 all taken ∧
    get_proof t start = Ok first ∧
    match last taken with Some x => get_proof t x.1 = Ok final | None => final = [] end.
Proof.
  intros start t HW Hst Hlim Hresp.
  destruct (iter_accounts_run s _ W HW) as (fuel0 & items & A & Hrun & Hsort & Hin & Hb & HA).
  assert (∀ h a, (h, a) ∈ items → ∃ w, W !! h = Some w ∧ account_rep (storage_db s h) a w) as Hrep.
  { intros h a Ha%Hin. specialize (HA h). rewrite Ha in HA. inversion HA; subst; eauto. }
  destruct (account_loop_spec (E := StoreError) request items [] 0) as (taken & Hloop & Hsh);
    [done|lia| |lia|].
  { apply Forall_forall. intros [h a] (w & _ & Hr)%Hrep. apply slim_size, Hr. }
  destruct HW as (A' & Ht & _ & _).
  destruct (range_proof_run t _ start (fst <$> last taken) s Ht (collision_free_nil _) Hst)
    as (first & final & Hp & Hfirst & Hfinal).
  { destruct (last taken) as [[h a]|] eqn:El; [|done]. cbn. apply (Hb h a).
    apply last_Some_elem_of in El. destruct Hsh as [[rest Hpre] _ _].
    assert ((h, a) ∈ asked request items) as Hh by (rewrite Hpre; apply elem_of_app; by left).
    by apply list_elem_of_filter in Hh as [_ Hh]. }
  exists fuel0, (asked request items), taken, first, final. split_and!.
  - intros fuel Hf. unfold process_account_range_request.
    rewrite (bind_run _ _ _ _ _ (Hrun fuel Hf)). cbn [app] in Hloop.
    erewrite bind_run; [|unfold state_lift; by rewrite Hloop].
    unfold Store.get_account_range_proof.
    assert (last_account (unit_of <$> taken) = fst <$> last taken) as ->.
    { unfold last_account. rewrite fmap_last. by destruct (last taken). }
    erewrite bind_run; [|erewrite bind_run; [exact Hp|apply open_state_trie_run]]. done.
  - by apply sorted_filter.
  - intros h. rewrite list_elem_of_fmap. split.
    + intros ([h' a] & -> & [Hh Hi]%list_elem_of_filter). destruct (Hrep _ _ Hi) as (w & Hw & _). eauto.
    + intros [[w Hw] Hh]. specialize (HA h). rewrite Hw in HA. inversion HA as [a ? Ha Ea|]; subst.
      exists (h, a). split; [done|]. apply list_elem_of_filter. split; [done|]. by apply Hin.
  - intros h a [_ Hi]%list_elem_of_filter. destruct (Hrep _ _ Hi) as (w & Hw & Hr).
    exists w. split_and!; [done..|]. apply slim_roundtrip, Hr.
  - done.
  - done.
  - by destruct (last taken).
Qed.
End theorem.

(** ** The state of a genesis file *)

#[local] Instance snap_build : BuildProfile := true.

Definition genesis_root : list Z :=
  hash_no_commit (genesis_trie demo_alloc (trie_open node_map_default EMPTY_TRIE_HASH)).
Definition genesis_store : Store.t := (Store.setup_genesis_state_trie demo_alloc Store.new).2.

Lemma genesis_store_world : world_at genesis_store genesis_root (genesis_world demo_alloc ∅).
Proof.
  destruct (genesis_committed demo_alloc Store.new eq_refl (two_entries _ demo_account_ok)
    demo_alloc_distinct demo_alloc_safe) as (s' & Hr & _ & HW).
  unfold genesis_store. by rewrite Hr.
Qed.

Definition range_request : GetAccountRange.t := {|
  GetAccountRange.id := 1; GetAccountRange.root_hash := genesis_root;
  GetAccountRange.starting_hash := replicate 32 0; GetAccountRange.limit_hash := replicate 32 0xff;
  GetAccountRange.response_bytes := 4000;
|}.

Example account_range_served_witness :
  ∃ fuel answer all,
    process_account_range_request fuel range_request genesis_store = (Ok answer, genesis_store) ∧
    (∀ h, h ∈ all.*1 ↔ is_Some (genesis_world demo_alloc ∅ !! h) ∧ hash_ge h (replicate 32 0) = true) ∧
    ∃ taken, AccountRange.accounts answer = unit_of <$> taken ∧ shortest range_request 0 all taken.
Proof.
  destruct (account_range_served genesis_store _ range_request genesis_store_world)
    as (fuel & all & taken & first & final & Hrun & _ & Hall & _ & Hs & _).
  - check_bytes.
  - reflexivity.
  - split; reflexivity.
  - exists fuel. eexists _, all. split; [by apply Hrun|]. split; [exact Hall|]. by exists taken.
Defined.
