(* ===== verification/L2Bridge.v ===== *)
(** * The L2 bridge: commitments, withdrawal proofs and their verification

    crates/l2: the Merkle tree of withdrawals (utils/merkle_tree.rs), the encoding
    of state diffs (proposer/state_diff.rs), what the committer computes of a block
    before it sends it (proposer/l1_committer.rs), the proof that the SDK builds
    for a claim (sdk/src/sdk.rs), and its verification by the contract
    (contracts/src/l1/CommonBridge.sol).  The clients of L1 and L2 are not
    modelled. *)

From stdpp Require Import base option list numbers strings gmap.
From S2P Require Import Prelude Rlp LevmHost Trie Tx BlockTypes Chain Store Blockchain.

Local Open Scope Z_scope.

Notation Hash := (list Z) (only parsing).

(** ** merkle_tree.rs *)

Inductive MerkleError := LeftElementIsNone | DataVectorIsEmpty.

(** [chunks(2)]: the left element and the right one, which is the left again when
    there is none; no chunk is empty, so no chunk is an error. *)
Fixpoint chunks (data : list Hash) : list (Hash * Hash) :=
  match data with
  | l :: r :: data => (l, r) :: chunks data
  | [l] => [(l, l)]
  | [] => []
  end.

Section merkle.
Context `{Crypto}.

Definition pair_hash (chunk : Hash * Hash) : Hash := keccak (chunk.1 ++ chunk.2).
Definition level (data : list Hash) : list Hash := pair_hash <$> chunks data.

(** [while data.len() > 1 || first]; each round halves the elements. *)
Fixpoint merkelize_loop (fuel : nat) (first : bool) (data : list Hash) :
    Outcome MerkleError (list Hash) :=
  match fuel with
  | O => NoFuel
  | S fuel =>
      if (1 <? len data) || first then merkelize_loop fuel false (level data) else Ok data
  end.

Definition merkle_fuel (data : list Hash) : nat := (length data + 2)%nat.

Definition merkelize (data : list Hash) : Outcome MerkleError Hash :=
  data ← merkelize_loop (merkle_fuel data) true data;
  ok_or (head data) DataVectorIsEmpty.

(** The closure of [merkle_proof] on a chunk, with the variables it captures. *)
Definition proof_step (current_target : Hash) (captured : list Hash * Hash) (chunk : Hash * Hash) :
    list Hash * Hash :=
  let '(proof, target_hash) := captured in
  let '(l, r) := chunk in
  if bytes_eqb l current_target then (proof ++ [r], pair_hash chunk)
  else if bytes_eqb r current_target then (proof ++ [l], pair_hash chunk)
  else (proof, target_hash).

Fixpoint merkle_proof_loop (fuel : nat) (first : bool) (data : list Hash)
    (captured : list Hash * Hash) : Outcome MerkleError (list Hash) :=
  match fuel with
  | O => NoFuel
  | S fuel =>
      if (1 <? len data) || first then
        merkle_proof_loop fuel false (level data)
          (foldl (proof_step captured.2) captured (chunks data))
      else Ok captured.1
  end.

Definition merkle_proof (data : list Hash) (base_element : Hash) :
    Outcome MerkleError (option (list Hash)) :=
  if bool_decide (base_element ∈ data) then
    proof ← merkle_proof_loop (merkle_fuel data) true data ([], base_element);
    Ok (Some proof)
  else Ok None.

(** ** CommonBridge.sol *)

Fixpoint fold_proof (leaf : Hash) (index : Z) (proof : list Hash) : Hash :=
  match proof with
  | [] => leaf
  | sibling :: proof =>
      fold_proof (if index mod 2 =? 0 then keccak (leaf ++ sibling) else keccak (sibling ++ leaf))
        (index / 2) proof
  end.

(** [_verifyWithdrawProof]: [root] is [blockWithdrawalsLogs[withdrawalBlockNumber]]. *)
Definition verify_withdraw_proof (root : Hash) (sender : Hash) (l2_withdrawal_tx_hash : Hash)
    (claimed_amount withdrawal_log_index : Z) (withdrawal_proof : list Hash) : bool :=
  let withdrawal_leaf := keccak (sender ++ be_encode 32 claimed_amount ++ l2_withdrawal_tx_hash) in
  bytes_eqb (fold_proof withdrawal_leaf withdrawal_log_index withdrawal_proof) root.

(** [getDepositLogsVersionedHash] on the first [number] logs, without its
    requirements on [number]. *)
Definition deposit_logs_versioned_hash (logs : list Hash) : Z :=
  Z.lor (Z.shiftl (len logs) 240) (be_decode (keccak (concat logs)) mod 2 ^ 240).
End merkle.

(** ** state_diff.rs *)

Inductive StateDiffError :=
| UnsupportedVersion (version : Z)
| BytecodeAndBytecodeHashSet
| EmptyAccountDiff
| LengthTooBig.

Record AccountStateDiff := {
  new_balance : option Z;
  nonce_diff : Z;
  storage_diff : list (Hash * Z);
  bytecode : option (list Z);
  bytecode_hash : option Hash;
}.

Module AccountStateDiffType.
Inductive t := NewBalance | NonceDiff | StorageDiff | Bytecode | BytecodeHash.
Definition to_u8 (x : t) : Z :=
  match x with NewBalance => 1 | NonceDiff => 2 | StorageDiff => 4 | Bytecode => 8 | BytecodeHash => 16 end.
Definition try_from (value : Z) : option t :=
  match value with
  | 1 => Some NewBalance
  | 2 => Some NonceDiff
  | 4 => Some StorageDiff
  | 8 => Some Bytecode
  | 16 => Some BytecodeHash
  | _ => None
  end.
End AccountStateDiffType.

Record WithdrawalLog := { wl_address : Hash; wl_amount : Z; wl_tx_hash : Hash }.
Record DepositLog := { dl_address : Hash; dl_amount : Z; dl_nonce : Z }.

Record StateDiff := {
  version : Z;
  modified_accounts : gmap Hash AccountStateDiff;
  withdrawal_logs : list WithdrawalLog;
  deposit_logs : list DepositLog;
}.

Notation DiffResult := (Outcome StateDiffError).

(** [len.try_into().map_err(StateDiffError::from)?] to a [u16], and its bytes. *)
Definition u16_length {A} (l : list A) : DiffResult (list Z) :=
  n ← ok_or (try_into 16 (len l)) LengthTooBig;
  Ok (be_encode 2 n).

(** The bytes of a field, with the bit of its type. *)
Definition field (ty : AccountStateDiffType.t) (bs : list Z) : Z * list Z :=
  (AccountStateDiffType.to_u8 ty, bs).

Definition encode_slots (slots : list (Hash * Z)) : list Z :=
  concat ((λ kv, kv.1 ++ be_encode 32 kv.2) <$> slots).

Definition optional {A} (o : option A) (f : A → DiffResult (Z * list Z)) : DiffResult (Z * list Z) :=
  match o with Some a => f a | None => Ok (0, []) end.

(** [AccountStateDiff::encode]: the length of the bytecode is that of the storage,
    as in the source. *)
Definition encode_account (self : AccountStateDiff) : DiffResult (Z * list Z) :=
  _ ← reject_if (bool_decide (is_Some (bytecode self)) && bool_decide (is_Some (bytecode_hash self)))
        BytecodeAndBytecodeHashSet;
  balance ← optional (new_balance self)
              (λ b, Ok (field AccountStateDiffType.NewBalance (be_encode 32 b)));
  nonce ← Ok (if nonce_diff self =? 0 then (0, [])
              else field AccountStateDiffType.NonceDiff (be_encode 2 (nonce_diff self)));
  slots ← (match storage_diff self with
           | [] => Ok (0, [])
           | slots =>
               n ← u16_length slots;
               Ok (field AccountStateDiffType.StorageDiff (n ++ encode_slots slots))
           end);
  code ← optional (bytecode self) (λ code,
           n ← u16_length (storage_diff self);
           Ok (field AccountStateDiffType.Bytecode (n ++ code)));
  code_hash ← optional (bytecode_hash self)
                (λ h, Ok (field AccountStateDiffType.BytecodeHash h));
  let type_ := balance.1 + nonce.1 + slots.1 + code.1 + code_hash.1 in
  _ ← reject_if (type_ =? 0) EmptyAccountDiff;
  Ok (type_, balance.2 ++ nonce.2 ++ slots.2 ++ code.2 ++ code_hash.2).

Fixpoint encode_accounts (accounts : list (Hash * AccountStateDiff)) : DiffResult (list Z) :=
  match accounts with
  | [] => Ok []
  | (address, diff) :: accounts =>
      '(type_, diff_encoded) ← encode_account diff;
      rest ← encode_accounts accounts;
      Ok (type_ :: address ++ diff_encoded ++ rest)
  end.

Definition encode_withdrawal (w : WithdrawalLog) : list Z :=
  wl_address w ++ be_encode 32 (wl_amount w) ++ wl_tx_hash w.
Definition encode_deposit (d : DepositLog) : list Z := dl_address d ++ be_encode 32 (dl_amount d).

Definition encode_state_diff `{HashMapIter} (self : StateDiff) : DiffResult (list Z) :=
  _ ← reject_if (negb (version self =? 1)) (UnsupportedVersion (version self));
  modified_accounts_len ← u16_length (hash_iter (modified_accounts self));
  accounts ← encode_accounts (hash_iter (modified_accounts self));
  Ok (version self :: modified_accounts_len ++ accounts
      ++ concat (encode_withdrawal <$> withdrawal_logs self)
      ++ concat (encode_deposit <$> deposit_logs self)).

(** ** l1_committer.rs *)

Inductive CommitterError :=
| FailedToRetrieveBlockFromStorage (e : StoreError)
| FailedToRetrieveDataFromStorage
| FailedToGenerateBlobsBundle (e : BlobsBundleError)
| FailedToGetInformationFromStorage
| FailedToEncodeStateDiff (e : StateDiffError)
| FailedToReExecuteBlock (e : EvmError)
| FailedToDecodeDepositHash
| FailedToMerkelize (e : MerkleError)
| InvalidWithdrawalTransaction
| TryIntoError.

Notation CommitterResult := (Outcome CommitterError).
Notation CommitterM := (StateT Store.t CommitterError).

Definition committer_store {A} (m : StoreM A) : CommitterM A :=
  state_map_err FailedToRetrieveBlockFromStorage m.

Definition as_withdrawal (tx : Transaction) : option PrivilegedL2Transaction.t :=
  match tx with
  | PrivilegedL2Transaction priv_tx =>
      match PrivilegedL2Transaction.tx_type priv_tx with
      | PrivilegedTxType.Withdrawal => Some priv_tx
      | PrivilegedTxType.Deposit => None
      end
  | _ => None
  end.
Definition as_deposit (tx : Transaction) : option PrivilegedL2Transaction.t :=
  match tx with
  | PrivilegedL2Transaction priv_tx =>
      match PrivilegedL2Transaction.tx_type priv_tx with
      | PrivilegedTxType.Deposit => Some priv_tx
      | PrivilegedTxType.Withdrawal => None
      end
  | _ => None
  end.

Section committer.
Context `{Crypto}.

Definition get_block_withdrawals (block : Block.t) : list (Hash * PrivilegedL2Transaction.t) :=
  omap (λ tx, (λ w, (Transaction.compute_hash tx, w)) <$> as_withdrawal tx)
    (BlockBody.transactions (Block.body block)).

Definition get_withdrawals_merkle_root (withdrawals_hashes : list Hash) : CommitterResult Hash :=
  match withdrawals_hashes with
  | [] => Ok (replicate 32 0)
  | _ => map_err FailedToMerkelize (merkelize withdrawals_hashes)
  end.

Definition get_block_deposits (block : Block.t) : list PrivilegedL2Transaction.t :=
  omap as_deposit (BlockBody.transactions (Block.body block)).

(** [H256::from_slice] takes the 32 bytes; [get(2..32)] is there since a hash has 32. *)
Definition get_deposit_hash (deposit_hashes : list Hash) : CommitterResult Hash :=
  match deposit_hashes with
  | [] => Ok (replicate 32 0)
  | _ =>
      deposit_hashes_len ← ok_or (try_into 16 (len deposit_hashes)) TryIntoError;
      let hash := keccak (concat deposit_hashes) in
      _ ← reject_if (len hash <? 32) FailedToDecodeDepositHash;
      Ok (be_encode 2 deposit_hashes_len ++ take 30 (drop 2 hash))
  end.

(** The hashes that [main_logic] collects. *)
Fixpoint withdrawal_hashes (withdrawals : list (Hash * PrivilegedL2Transaction.t)) :
    CommitterResult (list Hash) :=
  match withdrawals with
  | [] => Ok []
  | (_, tx) :: withdrawals =>
      hash ← ok_or (Transaction.get_withdrawal_hash tx) InvalidWithdrawalTransaction;
      rest ← withdrawal_hashes withdrawals;
      Ok (hash :: rest)
  end.

(** The root that [main_logic] commits to. *)
Definition withdrawal_logs_merkle_root (block : Block.t) : CommitterResult Hash :=
  hashes ← withdrawal_hashes (get_block_withdrawals block);
  get_withdrawals_merkle_root hashes.

Context `{BuildProfile} `{Execution} `{HashMapIter} `{Kzg}.

Definition receiver (tx : PrivilegedL2Transaction.t) : Hash :=
  match PrivilegedL2Transaction.to tx with Call address => address | Create => replicate 20 0 end.

Definition account_diff (update : AccountUpdate.t) (info : AccountInfo.t) (prev_nonce : Z) :
    CommitterResult AccountStateDiff :=
  diff ← u_sub 64 (AccountInfo.nonce info) prev_nonce;
  diff ← ok_or (try_into 16 diff) TryIntoError;
  Ok {| new_balance := Some (AccountInfo.balance info); nonce_diff := diff;
        storage_diff := AccountUpdate.added_storage update; bytecode := AccountUpdate.code update;
        bytecode_hash := None |}.

(** The loop over the account updates. *)
Fixpoint collect_diffs (block_number : Z) (updates : list AccountUpdate.t)
    (accounts : gmap Hash AccountStateDiff) : CommitterM (gmap Hash AccountStateDiff) :=
  match updates with
  | [] => mret accounts
  | update :: updates =>
      parent_number ← state_lift (u_sub 64 block_number 1);
      acc ← committer_store (Store.get_account_info parent_number (AccountUpdate.address update));
      let prev_nonce := match acc with Some acc => AccountInfo.nonce acc | None => 0 end in
      info ← state_lift (ok_or (AccountUpdate.info update) FailedToRetrieveDataFromStorage);
      diff ← state_lift (account_diff update info prev_nonce);
      collect_diffs block_number updates (<[AccountUpdate.address update := diff]> accounts)
  end.

Definition prepare_state_diff (block : Block.t)
    (withdrawals : list (Hash * PrivilegedL2Transaction.t))
    (deposits : list PrivilegedL2Transaction.t) : CommitterM StateDiff :=
  store ← state_gets id;
  '(_, account_updates) ← state_lift (map_err FailedToReExecuteBlock (execute_block store block));
  accounts ← collect_diffs (BlockHeader.number (Block.header block)) account_updates ∅;
  mret {|
    version := 1; modified_accounts := accounts;
    withdrawal_logs := (λ '(hash, tx), {| wl_address := receiver tx;
      wl_amount := PrivilegedL2Transaction.value tx; wl_tx_hash := hash |}) <$> withdrawals;
    deposit_logs := (λ tx, {| dl_address := receiver tx;
      dl_amount := PrivilegedL2Transaction.value tx;
      dl_nonce := PrivilegedL2Transaction.nonce tx |}) <$> deposits;
  |}.

Definition generate_blobs_bundle (state_diff : StateDiff) : CommitterResult BlobsBundle.t :=
  blob_data ← map_err FailedToEncodeStateDiff (encode_state_diff state_diff);
  blob ← (map_err FailedToGenerateBlobsBundle (blob_from_bytes blob_data) : CommitterResult Blob);
  map_err FailedToGenerateBlobsBundle (BlobsBundle.create_from_blobs [blob]).

(** What [send_commitment] is called with. *)
Record Commitment := {
  co_block_number : Z;
  co_withdrawal_logs_merkle_root : Hash;
  co_deposit_logs_hash : Hash;
  co_blobs_bundle : BlobsBundle.t;
}.

(** A round of [main_logic], after the number of the block to commit is known and
    before it is sent; [None] when the block is not there yet. *)
Definition commit_block (block_number_to_fetch : Z) : CommitterM (option Commitment) :=
  body ← committer_store (Store.get_block_body block_number_to_fetch);
  match body with
  | None => mret None
  | Some body =>
      header ← committer_store (Store.get_block_header block_number_to_fetch);
      header ← state_lift (ok_or header FailedToGetInformationFromStorage);
      let block := Block.new header body in
      let withdrawals := get_block_withdrawals block in
      let deposits := get_block_deposits block in
      root ← state_lift (withdrawal_logs_merkle_root block);
      deposit_hash ← state_lift (get_deposit_hash (omap Transaction.get_deposit_hash deposits));
      state_diff ← prepare_state_diff block withdrawals deposits;
      bundle ← state_lift (generate_blobs_bundle state_diff);
      mret (Some {| co_block_number := BlockHeader.number header;
                    co_withdrawal_logs_merkle_root := root;
                    co_deposit_logs_hash := deposit_hash; co_blobs_bundle := bundle |})
  end.

(** ** sdk.rs *)

(** [get_withdraw_merkle_proof] on the transactions of the block of the receipt,
    which come with their hashes; [None] for its errors. *)
Definition withdrawal_hash_of (tx : Transaction) : option Hash :=
  match tx with
  | PrivilegedL2Transaction tx => Transaction.get_withdrawal_hash tx
  | _ => None
  end.
Definition is_withdrawal (tx : Transaction) : bool :=
  match as_withdrawal tx with Some _ => true | None => false end.

Definition get_withdraw_merkle_proof (transactions : list (Hash * Transaction)) (tx_hash : Hash) :
    option (Z * list Hash) :=
  '(index, (_, tx)) ← list_find (λ t, t.1 = tx_hash)
    (base.filter (λ t, is_withdrawal t.2 = true) transactions);
  tx_withdrawal_hash ← withdrawal_hash_of tx;
  match merkle_proof (omap (λ t, withdrawal_hash_of t.2) transactions) tx_withdrawal_hash with
  | Ok (Some path) => Some (Z.of_nat index, path)
  | _ => None
  end.
End committer.
