(* ===== verification/L2BridgeProofs.v ===== *)
(** * The withdrawal tree

    The Merkle tree of L2Bridge.v always yields a root for a nonempty list; the
    proof of a leaf leads to the root, and only leaves have such proofs. *)

From stdpp Require Import base option list numbers strings gmap.
From S2P Require Import Prelude Rlp LevmHost Trie Tx TxProofs BlockTypes Chain ChainProofs Store.
From S2P Require Import Blockchain L2Bridge.

Local Open Scope Z_scope.

(** ** Chunks and levels *)

Lemma chunks_ind (P : list Hash → Prop) :
  P [] → (∀ l, P [l]) → (∀ l r data, P data → P (l :: r :: data)) → ∀ data, P data.
Proof.
  intros H0 H1 H2. fix go 1. intros [|l [|r data]]; [exact H0|apply H1|apply H2, go].
Qed.

Lemma chunks_spec data i c :
  chunks data !! i = Some c →
  data !! (2 * i)%nat = Some c.1 ∧
  (data !! S (2 * i) = Some c.2 ∨ data !! S (2 * i) = None ∧ c.2 = c.1).
Proof.
  revert i. induction data as [|l|l r data IH] using chunks_ind; intros i; [done| |].
  - destruct i as [|i]; [|done]. cbn. intros [= <-]. auto.
  - destruct i as [|i]; cbn; [intros [= <-]; auto|].
    intros Hc. destruct (IH i Hc) as [E1 E2].
    replace (i + S (i + 0))%nat with (S (2 * i)) by lia. auto.
Qed.

Lemma chunks_at data i x :
  data !! i = Some x → ∃ c, chunks data !! (i / 2)%nat = Some c ∧
    x = if Nat.even i then c.1 else c.2.
Proof.
  revert i. induction data as [|l|l r data IH] using chunks_ind; intros i; [done| |].
  - destruct i as [|i]; [|done]. intros [= <-]. by exists (l, l).
  - destruct i as [|[|i]]; cbn [lookup list_lookup].
    + intros [= <-]. by exists (l, r).
    + intros [= <-]. by exists (l, r).
    + intros Hx. destruct (IH i Hx) as (c & Hc & E). exists c.
      replace (S (S i) / 2)%nat with (S (i / 2)).
      * by split.
      * replace (S (S i)) with (i + 1 * 2)%nat by lia. rewrite Nat.div_add by lia. lia.
Qed.

Lemma div2_succ_le n : (Nat.div2 (S n) ≤ n)%nat.
Proof. by apply Nat.div2_decr. Qed.

Lemma length_chunks data : length (chunks data) = (Nat.div2 (S (length data)))%nat.
Proof. induction data as [|l|l r data IH] using chunks_ind; [done..|]. cbn. by rewrite IH. Qed.

Lemma two_or_more {A} (x y : A) l : (1 <? len (x :: y :: l)) = true.
Proof. apply Z.ltb_lt. unfold len. cbn [length]. lia. Qed.

Section merkle.
Context `{Crypto}.

Lemma length_level data : length (level data) = Nat.div2 (S (length data)).
Proof. unfold level. by rewrite length_fmap, length_chunks. Qed.

Lemma level_at data i x :
  data !! i = Some x → ∃ c, chunks data !! (i / 2)%nat = Some c ∧
    level data !! (i / 2)%nat = Some (pair_hash c) ∧ x = if Nat.even i then c.1 else c.2.
Proof.
  intros Hx. destruct (chunks_at data i x Hx) as (c & Hc & E). exists c.
  split_and!; [done| |done]. unfold level. by rewrite list_lookup_fmap, Hc.
Qed.

Definition levels (k : nat) (data : list Hash) : list Hash := Nat.iter k level data.

Lemma levels_succ k data : levels k (level data) = levels (S k) data.
Proof. unfold levels. symmetry. apply Nat.iter_succ_r. Qed.

(** The tree has a root: the loop ends with one element. *)
Lemma merkelize_loop_root fuel data :
  data ≠ [] → (length data ≤ fuel)%nat →
  ∃ k root, merkelize_loop fuel false data = Ok [root] ∧ levels k data = [root] ∧
    (k < length data)%nat.
Proof.
  revert data. induction fuel as [|fuel IH]; intros data Hd Hl; [destruct data; [done|cbn in Hl; lia]|].
  destruct data as [|x [|y data]]; [done|exists 0%nat, x; split_and!; [reflexivity..|cbn; lia]|].
  destruct (IH (level (x :: y :: data))) as (k & root & E & Er & Hk).
  - done.
  - rewrite length_level. cbn in *. pose proof (div2_succ_le (length data)). cbn in *. lia.
  - exists (S k), root. rewrite <-levels_succ. split_and!; [|done|].
    + cbn [merkelize_loop]. by rewrite two_or_more.
    + rewrite length_level in Hk. cbn in *. pose proof (div2_succ_le (length data)). cbn in *. lia.
Qed.

Lemma level_nonempty data : data ≠ [] → level data ≠ [].
Proof. by destruct data as [|x [|y data]]. Qed.

Lemma level_length_le data : (length (level data) ≤ length data)%nat.
Proof. rewrite length_level. apply div2_succ_le. Qed.

Lemma merkelize_root data :
  data ≠ [] → ∃ k root, merkelize data = Ok root ∧ levels k data = [root] ∧
    (k ≤ length data)%nat.
Proof.
  intros Hd. unfold merkelize, merkle_fuel.
  destruct (merkelize_loop_root (length data + 1) (level data)) as (k & root & E & Er & Hk).
  - by apply level_nonempty.
  - pose proof (level_length_le data). lia.
  - exists (S k), root. rewrite <-levels_succ. split_and!; [|done|pose proof (level_length_le data); lia].
    replace (length data + 2)%nat with (S (length data + 1)) by lia.
    cbn [merkelize_loop]. rewrite orb_true_r, E. done.
Qed.

(** ** The proof of a leaf leads to the root *)

(** The bytes that are hashed at the levels of the tree. *)
Definition pair_bytes (c : Hash * Hash) : list Z := c.1 ++ c.2.
Definition level_inputs (data : list Hash) : list (list Z) := pair_bytes <$> chunks data.
Definition tree_inputs (data : list Hash) : list (list Z) :=
  k ← seq 0 (length data); level_inputs (levels k data).

(** [keccak] has no collision on these inputs. *)
Definition no_hash_collision (inputs : list (list Z)) : Prop :=
  ∀ x y, x ∈ inputs → y ∈ inputs → keccak x = keccak y → x = y.

Lemma no_hash_collision_subset xs ys : xs ⊆ ys → no_hash_collision ys → no_hash_collision xs.
Proof. intros Hs Hy x y Hx Hy'. apply Hy; by apply Hs. Qed.

Lemma tree_inputs_elem data k x :
  (k < length data)%nat → x ∈ level_inputs (levels k data) → x ∈ tree_inputs data.
Proof.
  intros Hk Hx. unfold tree_inputs. apply list_elem_of_bind. exists k. split; [done|].
  apply elem_of_seq. lia.
Qed.

Lemma chunks_left_NoDup data : NoDup data → NoDup (chunks data).
Proof.
  intros Hd. apply NoDup_alt. intros i j c Hi Hj.
  apply chunks_spec in Hi as [Hi _]. apply chunks_spec in Hj as [Hj _].
  pose proof (NoDup_lookup _ _ _ _ Hd Hi Hj). lia.
Qed.

Lemma level_NoDup data :
  NoDup data → Forall (λ h, length h = 32%nat) data → no_hash_collision (level_inputs data) →
  NoDup (level data).
Proof.
  intros Hd Hl Hc. apply NoDup_fmap_2_strong; [|by apply chunks_left_NoDup].
  intros c c' Hin Hin' E.
  assert (pair_bytes c = pair_bytes c') as Eb.
  { apply Hc; [by apply list_elem_of_fmap_2..|exact E]. }
  rewrite Forall_forall in Hl.
  apply list_elem_of_lookup in Hin as [i Hi]. apply list_elem_of_lookup in Hin' as [j Hj].
  apply chunks_spec in Hi as [Hi _]. apply chunks_spec in Hj as [Hj _].
  apply app_inj_1 in Eb as [E1 E2]; [by destruct c, c'; cbn in *; subst|].
  rewrite !Hl; [done|by eapply list_elem_of_lookup_2..].
Qed.

Context {HC : CryptoLaws _}.

Lemma level_hashes data : Forall (λ h, length h = 32%nat) (level data).
Proof. apply Forall_fmap, Forall_true. intros c. apply keccak_length. Qed.

Lemma levels_hashes k data :
  Forall (λ h, length h = 32%nat) data → Forall (λ h, length h = 32%nat) (levels k data).
Proof. intros Hd. destruct k; [done|apply level_hashes]. Qed.

Lemma levels_NoDup k data :
  NoDup data → Forall (λ h, length h = 32%nat) data → no_hash_collision (tree_inputs data) →
  (k ≤ length data)%nat → NoDup (levels k data).
Proof.
  intros Hd Hl Hc. induction k as [|k IH]; intros Hk; [done|].
  apply level_NoDup; [apply IH; lia|by apply levels_hashes|].
  eapply no_hash_collision_subset; [|done]. intros x Hx. eapply tree_inputs_elem; [|done]. lia.
Qed.

Lemma proof_step_other x captured cs :
  Forall (λ c : Hash * Hash, c.1 ≠ x ∧ c.2 ≠ x) cs → foldl (proof_step x) captured cs = captured.
Proof.
  revert captured. induction cs as [|[l r] cs IH]; intros [p t] Hf; [done|].
  inversion Hf as [|? ? [Hx Hy] Hf']; subst. cbn in *. unfold bytes_eqb.
  rewrite !bool_decide_eq_false_2 by done. by apply IH.
Qed.

Lemma chunk_elsewhere data i x j c :
  NoDup data → data !! i = Some x → chunks data !! j = Some c → j ≠ (i / 2)%nat →
  c.1 ≠ x ∧ c.2 ≠ x.
Proof.
  intros Hd Hx Hc Hj. apply chunks_spec in Hc as [H1 H2].
  pose proof (Nat.div_mod i 2) as Hi. pose proof (Nat.mod_upper_bound i 2).
  assert (c.1 ≠ x) as Hn.
  { intros Ec. rewrite Ec in H1. pose proof (NoDup_lookup _ _ _ _ Hd Hx H1). lia. }
  split; [done|]. intros Ec. destruct H2 as [H2|[_ H2]]; [|congruence]. rewrite Ec in H2.
  pose proof (NoDup_lookup _ _ _ _ Hd Hx H2). lia.
Qed.

(** A round of [merkle_proof] finds the chunk of its target. *)
Lemma proof_round data i x c p t :
  NoDup data → data !! i = Some x → chunks data !! (i / 2)%nat = Some c →
  x = (if Nat.even i then c.1 else c.2) →
  foldl (proof_step x) (p, t) (chunks data) =
    (p ++ [if Nat.even i then c.2 else c.1], pair_hash c).
Proof.
  intros Hd Hx Hc E.
  assert (∀ j c', chunks data !! j = Some c' → j ≠ (i / 2)%nat → c'.1 ≠ x ∧ c'.2 ≠ x) as Ho
    by (intros; by eapply chunk_elsewhere).
  rewrite <-(take_drop_middle _ _ _ Hc), foldl_app,
    (proof_step_other x (p, t) (take _ _)).
  - cbn [foldl]. rewrite proof_step_other.
    + destruct c as [l r]. cbn [proof_step fst snd] in *. destruct (Nat.even i) eqn:Ei; subst.
      * unfold bytes_eqb. by rewrite bool_decide_eq_true_2.
      * unfold bytes_eqb. rewrite bool_decide_eq_false_2, bool_decide_eq_true_2; [done..|].
        intros ->. apply chunks_spec in Hc as [H1 _].
        pose proof (NoDup_lookup _ _ _ _ Hd Hx H1) as Eq. rewrite Eq in Ei.
        by rewrite Nat.even_mul in Ei.
    + apply Forall_lookup. intros j c' Hj. rewrite lookup_drop in Hj.
      apply (Ho _ _ Hj). lia.
  - apply Forall_lookup. intros j c' Hj. apply lookup_take_Some in Hj as [Hj Hlt].
    apply (Ho _ _ Hj). lia.
Qed.

Lemma even_mod_2 i : (Z.of_nat i mod 2 =? 0) = Nat.even i.
Proof.
  apply eq_true_iff_eq. rewrite Z.eqb_eq, Nat.even_spec. split.
  - intros Hm. exists (i / 2)%nat. change 2 with (Z.of_nat 2) in Hm.
    rewrite <-Nat2Z.inj_mod in Hm. pose proof (Nat.div_mod i 2). lia.
  - intros [k ->]. rewrite Nat2Z.inj_mul, Z.mul_comm. by apply Z.mod_mul.
Qed.

(** One step of the contract follows one round of the tree. *)
Lemma fold_proof_round i x c sibling proof :
  x = (if Nat.even i then c.1 else c.2) → sibling = (if Nat.even i then c.2 else c.1) →
  fold_proof x (Z.of_nat i) (sibling :: proof) =
    fold_proof (pair_hash c) (Z.of_nat (i / 2)) proof.
Proof.
  intros -> ->. cbn [fold_proof]. rewrite even_mod_2, Nat2Z.inj_div.
  by destruct (Nat.even i), c.
Qed.

Lemma proof_loop_correct fuel data i x p :
  data !! i = Some x → (length data ≤ fuel)%nat →
  (∀ k, (k < length data)%nat → NoDup (levels k data)) →
  ∃ proof, merkle_proof_loop fuel false data (p, x) = Ok (p ++ proof) ∧
    merkelize_loop fuel false data = Ok [fold_proof x (Z.of_nat i) proof].
Proof.
  revert data i x p. induction fuel as [|fuel IH]; intros data i x p Hx Hl Hn;
    [destruct data; [done|cbn in Hl; lia]|].
  destruct data as [|y [|z data]]; [done|destruct i; [|done]|].
  { cbn in Hx. injection Hx as ->. exists []. cbn. by rewrite app_nil_r. }
  destruct (level_at _ _ _ Hx) as (c & Hc & Hlev & E).
  pose proof (Hn 0%nat ltac:(cbn; lia)) as Hd.
  pose proof (div2_succ_le (length data)).
  destruct (IH _ _ _ (p ++ [if Nat.even i then c.2 else c.1]) Hlev) as (proof & E1 & E2).
  - rewrite length_level. cbn in *. lia.
  - intros k Hk. rewrite levels_succ. apply Hn. rewrite length_level in Hk. cbn in *. lia.
  - exists ((if Nat.even i then c.2 else c.1) :: proof).
    cbn [merkle_proof_loop merkelize_loop snd]. rewrite !two_or_more. cbn [orb].
    erewrite proof_round, fold_proof_round by done. by rewrite E1, <-app_assoc.
Qed.

(** The proof that [merkle_proof] gives of the [i]th leaf leads to the root. *)
Lemma merkle_proof_correct data i x :
  data !! i = Some x → NoDup data → Forall (λ h, length h = 32%nat) data →
  no_hash_collision (tree_inputs data) →
  ∃ proof, merkle_proof data x = Ok (Some proof) ∧
    merkelize data = Ok (fold_proof x (Z.of_nat i) proof).
Proof.
  intros Hx Hd Hl Hc. destruct (level_at _ _ _ Hx) as (c & Hck & Hlev & E).
  pose proof (level_length_le data).
  destruct (proof_loop_correct (length data + 1) (level data) (i / 2) (pair_hash c)
    [if Nat.even i then c.2 else c.1] Hlev) as (proof & E1 & E2).
  - lia.
  - intros k Hk. rewrite levels_succ. apply levels_NoDup; [done..|]. lia.
  - exists ((if Nat.even i then c.2 else c.1) :: proof). unfold merkle_proof, merkelize, merkle_fuel.
    replace (length data + 2)%nat with (S (length data + 1)) by lia.
    rewrite bool_decide_eq_true_2 by (by eapply list_elem_of_lookup_2).
    cbn [merkle_proof_loop merkelize_loop snd]. rewrite !orb_true_r.
    erewrite proof_round, fold_proof_round by done. rewrite app_nil_l, E1, E2. done.
Qed.

(** ** Only leaves have proofs *)

(** What the contract hashes on the way up. *)
Fixpoint path_inputs (leaf : Hash) (index : Z) (proof : list Hash) : list (list Z) :=
  match proof with
  | [] => []
  | sibling :: proof =>
      let node := if index mod 2 =? 0 then leaf ++ sibling else sibling ++ leaf in
      node :: path_inputs (keccak node) (index / 2) proof
  end.

Lemma fold_proof_path leaf index sibling proof :
  ∃ node, (node = leaf ++ sibling ∨ node = sibling ++ leaf) ∧
    fold_proof leaf index (sibling :: proof) = fold_proof (keccak node) (index / 2) proof ∧
    path_inputs leaf index (sibling :: proof) = node :: path_inputs (keccak node) (index / 2) proof.
Proof. cbn. destruct (index mod 2 =? 0); eauto. Qed.

Section sound.
Context (data : list Hash) (messages : list (list Z)).
Hypothesis (Hdata : data = keccak <$> messages).
Hypothesis (Hmessages : Forall (λ m, length m = 84%nat) messages).

Lemma data_hashes : Forall (λ h, length h = 32%nat) data.
Proof. rewrite Hdata. apply Forall_fmap, Forall_true. intros m. apply keccak_length. Qed.

(** The halves of a node of 64 bytes that is hashed into a level are in the level below. *)
Lemma level_inv k (a b : list Z) inputs :
  no_hash_collision inputs → a ++ b ∈ inputs → tree_inputs data ⊆ inputs → messages ⊆ inputs →
  length a = 32%nat → length b = 32%nat → (k ≤ length data)%nat →
  keccak (a ++ b) ∈ levels k data →
  ∃ k', k = S k' ∧ a ∈ levels k' data ∧ b ∈ levels k' data.
Proof.
  intros Hc Hin Ht Hm Ha Hb Hk Hl. destruct k as [|k].
  - cbn in Hl. rewrite Hdata in Hl. apply list_elem_of_fmap_1 in Hl as (m & E & Hm').
    apply Hc in E; [|done|by apply Hm]. rewrite Forall_forall in Hmessages.
    specialize (Hmessages m Hm'). subst m. rewrite length_app in Hmessages. lia.
  - exists k. split; [done|]. cbn in Hl. fold (levels k data) in Hl.
    apply list_elem_of_fmap_1 in Hl as (c & E & Hin').
    apply (Hc (a ++ b) (pair_bytes c)) in E; [|done|].
    + apply list_elem_of_lookup in Hin' as [i Hi]. apply chunks_spec in Hi as [H1 H2].
      pose proof (levels_hashes k data data_hashes) as Hl. rewrite Forall_forall in Hl.
      apply app_inj_1 in E as [-> ->];
        [|rewrite Ha, Hl; [done|by eapply list_elem_of_lookup_2]].
      split; [by eapply list_elem_of_lookup_2|].
      destruct H2 as [H2|[_ ->]]; by eapply list_elem_of_lookup_2.
    + apply Ht. eapply tree_inputs_elem; [|apply list_elem_of_fmap_2, Hin']. lia.
Qed.

Lemma path_sound leaf index proof k inputs :
  no_hash_collision inputs → path_inputs leaf index proof ⊆ inputs →
  tree_inputs data ⊆ inputs → messages ⊆ inputs →
  length leaf = 32%nat → Forall (λ h, length h = 32%nat) proof → (k ≤ length data)%nat →
  fold_proof leaf index proof ∈ levels k data →
  ∃ k', (k' ≤ k)%nat ∧ leaf ∈ levels k' data.
Proof.
  intros Hc Hp Ht Hm. revert leaf index Hp.
  induction proof as [|sibling proof IH]; intros leaf index Hp Hl Hf Hk Hin; [by exists k|].
  apply Forall_cons in Hf as [Hs Hf'].
  destruct (fold_proof_path leaf index sibling proof) as (node & En & E1 & E2).
  rewrite E1 in Hin. rewrite E2 in Hp.
  destruct (IH (keccak node) (index / 2)) as (k' & Hk' & Hin'); [set_solver|apply keccak_length|done..|].
  assert (node ∈ inputs) as Hn by set_solver.
  destruct En as [-> | ->]; eapply level_inv in Hin' as (k'' & -> & ? & ?); try done; try lia;
    exists k''; by (split; [lia|]).
Qed.

(** A leaf of 84 bytes that leads to the root is one of the messages. *)
Lemma merkle_proof_sound message index proof :
  data ≠ [] → length message = 84%nat → Forall (λ h, length h = 32%nat) proof →
  no_hash_collision (message :: messages ++ tree_inputs data
    ++ path_inputs (keccak message) index proof) →
  merkelize data = Ok (fold_proof (keccak message) index proof) → message ∈ messages.
Proof.
  intros Hne Hl Hf Hc E. destruct (merkelize_root data Hne) as (k & root & E' & Hr & Hk).
  rewrite E in E'. injection E' as <-.
  destruct (path_sound (keccak message) index proof k
    (message :: messages ++ tree_inputs data ++ path_inputs (keccak message) index proof))
    as (k' & Hk' & Hin); [done|set_solver..|apply keccak_length|done|done| |].
  { rewrite Hr. by apply list_elem_of_singleton. }
  destruct k' as [|k'].
  - cbn in Hin. rewrite Hdata in Hin. apply list_elem_of_fmap_1 in Hin as (m & Em & Hm).
    apply Hc in Em; [by subst|set_solver..].
  - cbn in Hin. fold (levels k' data) in Hin. apply list_elem_of_fmap_1 in Hin as (c & Ec & Hin').
    apply (Hc message (pair_bytes c)) in Ec; [|set_solver|].
    + subst message. apply list_elem_of_lookup in Hin' as [i Hi]. apply chunks_spec in Hi as [H1 H2].
      pose proof (levels_hashes k' data data_hashes) as Hl'. rewrite Forall_forall in Hl'.
      unfold pair_bytes in Hl. rewrite length_app in Hl.
      rewrite (Hl' c.1), (Hl' c.2) in Hl; [done|..|by eapply list_elem_of_lookup_2].
      destruct H2 as [H2|[_ ->]]; by eapply list_elem_of_lookup_2.
    + assert (pair_bytes c ∈ tree_inputs data); [|set_solver].
      eapply tree_inputs_elem; [|apply list_elem_of_fmap_2, Hin']. lia.
Qed.
End sound.
End merkle.

(** ** The withdrawals of a block *)

Section withdrawals.
Context `{Crypto} {HC : CryptoLaws _}.

(** The bytes of the leaf of a withdrawal. *)
Definition claim_message (to : list Z) (value : Z) (tx_hash : Hash) : list Z :=
  to ++ be_encode 32 value ++ tx_hash.
Definition withdrawal_message (tx : Transaction) : option (list Z) :=
  w ← as_withdrawal tx;
  match PrivilegedL2Transaction.to w with
  | Call to => Some (claim_message to (PrivilegedL2Transaction.value w) (Transaction.compute_hash tx))
  | Create => None
  end.

Definition messages_of (block : Block.t) : list (list Z) :=
  omap withdrawal_message (BlockBody.transactions (Block.body block)).

Lemma withdrawal_hash_message tx :
  withdrawal_hash_of tx = keccak <$> withdrawal_message tx.
Proof.
  destruct tx as [t|t|t|t|t]; try done.
  unfold withdrawal_message, withdrawal_hash_of, as_withdrawal, Transaction.get_withdrawal_hash.
  destruct (PrivilegedL2Transaction.tx_type t); [done|]. cbn [mbind option_bind].
  destruct (PrivilegedL2Transaction.to t); reflexivity.
Qed.

Lemma as_withdrawal_Some tx w :
  as_withdrawal tx = Some w → tx = PrivilegedL2Transaction w ∧
    PrivilegedL2Transaction.tx_type w = PrivilegedTxType.Withdrawal.
Proof.
  destruct tx as [t|t|t|t|t]; try done. cbn.
  destruct (PrivilegedL2Transaction.tx_type t) eqn:E; [done|]. by intros [= <-].
Qed.

(** The committer hashes every withdrawal, and the SDK the same list. *)
Lemma withdrawal_hashes_Ok (txs : list Transaction) hashes :
  withdrawal_hashes (omap (λ tx, (λ w, (Transaction.compute_hash tx, w)) <$> as_withdrawal tx) txs)
    = Ok hashes →
  hashes = omap withdrawal_hash_of txs ∧
  Forall (λ tx, is_withdrawal tx = true → is_Some (withdrawal_message tx)) txs.
Proof.
  revert hashes. induction txs as [|tx txs IH]; intros hashes; [by intros [= <-]|].
  cbn [omap list_omap]. destruct (as_withdrawal tx) as [w|] eqn:Ew; cbn.
  - destruct (as_withdrawal_Some tx w Ew) as [-> Et].
    intros (hash & Eh & (rest & Er & [= <-])%bind_Ok)%bind_Ok. apply ok_or_Ok in Eh.
    destruct (IH rest Er) as [-> Hf]. cbn. rewrite Eh. split; [done|].
    constructor; [|done]. intros _. pose proof (withdrawal_hash_message (PrivilegedL2Transaction w)) as E.
    cbn [withdrawal_hash_of] in E. rewrite Eh in E. destruct (withdrawal_message _); [by eexists|done].
  - intros Er. destruct (IH hashes Er) as [-> Hf].
    assert (withdrawal_message tx = None) as En by (unfold withdrawal_message; by rewrite Ew).
    rewrite withdrawal_hash_message, En. split; [done|]. constructor; [|done].
    unfold is_withdrawal. by rewrite Ew.
Qed.

Lemma hashes_of_messages (txs : list Transaction) :
  omap withdrawal_hash_of txs = keccak <$> omap withdrawal_message txs.
Proof.
  induction txs as [|tx txs IH]; [done|]. cbn. rewrite withdrawal_hash_message.
  destruct (withdrawal_message tx); cbn; by rewrite IH.
Qed.

(** The [i]th withdrawal has the [i]th hash. *)
Lemma filter_withdrawal_at (txs : list (Hash * Transaction)) i t :
  Forall (λ t : Hash * Transaction,
    is_withdrawal t.2 = true → is_Some (withdrawal_message t.2)) txs →
  base.filter (λ t : Hash * Transaction, is_withdrawal t.2 = true) txs !! i = Some t →
  ∃ m, withdrawal_message t.2 = Some m ∧
    omap (λ t : Hash * Transaction, withdrawal_hash_of t.2) txs !! i = Some (keccak m).
Proof.
  revert i. induction txs as [|t' txs IH]; intros i Hf; [done|].
  apply Forall_cons in Hf as [Ht Hf]. rewrite filter_cons. cbn [omap list_omap].
  rewrite withdrawal_hash_message. case_decide as Hw.
  - destruct (Ht Hw) as [m Em]. rewrite Em. destruct i as [|i]; cbn.
    + intros [= <-]. eauto.
    + by apply IH.
  - assert (withdrawal_message t'.2 = None) as ->; [|by apply IH].
    unfold withdrawal_message, is_withdrawal in *. by destruct (as_withdrawal t'.2).
Qed.

Lemma claim_message_inj to value hash to' value' hash' :
  length hash = length hash' → claim_message to value hash = claim_message to' value' hash' →
  hash = hash'.
Proof.
  unfold claim_message. rewrite !app_assoc. intros Hl E. by apply app_inj_2 in E as [_ E].
Qed.

Lemma withdrawal_message_Some tx m :
  withdrawal_message tx = Some m ↔ ∃ w to, as_withdrawal tx = Some w ∧
    PrivilegedL2Transaction.to w = Call to ∧
    m = claim_message to (PrivilegedL2Transaction.value w) (Transaction.compute_hash tx).
Proof.
  unfold withdrawal_message. destruct (as_withdrawal tx) as [w|]; cbn [mbind option_bind];
    [|by split; [|intros (? & ? & ? & _)]].
  destruct (PrivilegedL2Transaction.to w) as [to|] eqn:E; split; try done.
  - intros [= <-]. by exists w, to.
  - intros (w' & to' & [= <-] & E' & ->). congruence.
  - intros (w' & to' & [= <-] & E' & _). congruence.
Qed.

(** The transactions that the SDK reads come with their hashes. *)
Definition with_hashes (txs : list Transaction) : list (Hash * Transaction) :=
  (λ tx, (Transaction.compute_hash tx, tx)) <$> txs.

Lemma messages_NoDup (txs : list Transaction) :
  NoDup (Transaction.compute_hash <$> txs) → NoDup (omap withdrawal_message txs).
Proof.
  induction txs as [|tx txs IH]; intros Hd; [constructor|].
  apply NoDup_cons in Hd as [Hn Hd]. cbn. destruct (withdrawal_message tx) as [m|] eqn:Em; [|by apply IH].
  constructor; [|by apply IH]. intros (tx' & Hin & Em')%list_elem_of_omap. apply Hn.
  apply list_elem_of_fmap. exists tx'. split; [|done].
  apply withdrawal_message_Some in Em as (w & to & _ & _ & ->).
  apply withdrawal_message_Some in Em' as (w' & to' & _ & _ & E).
  eapply claim_message_inj; [|exact E]. unfold Transaction.compute_hash. by rewrite !keccak_length.
Qed.

Lemma omap_with_hashes txs :
  omap (λ t : Hash * Transaction, withdrawal_hash_of t.2) (with_hashes txs) =
    omap withdrawal_hash_of txs.
Proof. unfold with_hashes. induction txs as [|tx txs IH]; [done|]. cbn. by rewrite IH. Qed.

Lemma hashes_distinct (txs : list Transaction) tx tx' :
  NoDup (Transaction.compute_hash <$> txs) → tx ∈ txs → tx' ∈ txs →
  Transaction.compute_hash tx = Transaction.compute_hash tx' → tx = tx'.
Proof.
  intros Hd [i Hi]%list_elem_of_lookup [j Hj]%list_elem_of_lookup E.
  assert (i = j) as <- by (eapply (NoDup_lookup _ i j _ Hd); rewrite list_lookup_fmap;
    [by rewrite Hi|by rewrite Hj, E]).
  congruence.
Qed.

Lemma sdk_finds (txs : list Transaction) tx w :
  tx ∈ txs → as_withdrawal tx = Some w → NoDup (Transaction.compute_hash <$> txs) →
  let ws := base.filter (λ t : Hash * Transaction, is_withdrawal t.2 = true) (with_hashes txs) in
  let entry := (Transaction.compute_hash tx, tx) in
  ∃ i, list_find (λ t : Hash * Transaction, t.1 = Transaction.compute_hash tx) ws = Some (i, entry) ∧
    ws !! i = Some entry.
Proof.
  intros Hin Hw Hd ws entry. assert (entry ∈ ws) as Hws.
  { apply list_elem_of_filter. split; [unfold is_withdrawal; cbn; by rewrite Hw|].
    by apply (list_elem_of_fmap_2 (λ tx, (Transaction.compute_hash tx, tx))). }
  destruct (list_find _ ws) as [[i [h tx']]|] eqn:El; last first.
  { apply list_find_None in El. rewrite Forall_forall in El. by destruct (El _ Hws). }
  exists i. apply list_find_Some in El as (Hi & Eh & _). cbn in Eh. subst h.
  assert (tx' = tx) as ->; [|done].
  apply list_elem_of_lookup_2, list_elem_of_filter in Hi as [_ Hi].
  apply list_elem_of_fmap_1 in Hi as (tx'' & [= E <-] & Hi). by apply (hashes_distinct txs).
Qed.

(** The claim that the SDK makes of a withdrawal of a committed block is accepted. *)
Lemma sdk_claim_accepted (txs : list Transaction) hashes tx w :
  withdrawal_hashes (omap (λ tx, (λ w, (Transaction.compute_hash tx, w)) <$> as_withdrawal tx) txs)
    = Ok hashes →
  tx ∈ txs → as_withdrawal tx = Some w →
  NoDup (Transaction.compute_hash <$> txs) →
  no_hash_collision (omap withdrawal_message txs ++ tree_inputs hashes) →
  ∃ index proof to root, PrivilegedL2Transaction.to w = Call to ∧
    get_withdraw_merkle_proof (with_hashes txs) (Transaction.compute_hash tx) = Some (index, proof) ∧
    get_withdrawals_merkle_root hashes = Ok root ∧
    verify_withdraw_proof root to (Transaction.compute_hash tx) (PrivilegedL2Transaction.value w)
      index proof = true.
Proof.
  intros Eh Hin Hw Hd Hc. apply withdrawal_hashes_Ok in Eh as [Eh Hf].
  assert (Forall (λ t : Hash * Transaction,
    is_withdrawal t.2 = true → is_Some (withdrawal_message t.2)) (with_hashes txs)) as Hf'
    by (by apply Forall_fmap).
  destruct (sdk_finds txs tx w Hin Hw Hd) as (i & El & Hi).
  destruct (filter_withdrawal_at _ _ _ Hf' Hi) as (m & Em & Hm). cbn [snd] in Em.
  rewrite omap_with_hashes, <-Eh in Hm. rewrite hashes_of_messages in Eh.
  destruct (merkle_proof_correct hashes i (keccak m)) as (proof & Ep & Er); [done|..].
  { rewrite Eh. apply NoDup_fmap_2_strong; [|by apply messages_NoDup].
    intros x y Hx Hy. apply Hc; apply elem_of_app; by left. }
  { rewrite Eh. apply Forall_fmap, Forall_true. intros. apply keccak_length. }
  { eapply no_hash_collision_subset; [|exact Hc]. set_solver. }
  pose proof (withdrawal_hash_message tx) as Ew. rewrite Em in Ew. cbn in Ew.
  apply withdrawal_message_Some in Em as (w' & to & Hw' & Eto & ->).
  rewrite Hw in Hw'. injection Hw' as <-.
  exists (Z.of_nat i), proof, to, (fold_proof (keccak (claim_message to
    (PrivilegedL2Transaction.value w) (Transaction.compute_hash tx))) (Z.of_nat i) proof).
  split_and!; [done| | |].
  - unfold get_withdraw_merkle_proof. rewrite El. cbn [mbind option_bind].
    rewrite Ew, omap_with_hashes, hashes_of_messages, <-Eh. cbn [mbind option_bind fmap option_fmap option_map].
    by rewrite Ep.
  - unfold get_withdrawals_merkle_root. destruct hashes; [done|]. by rewrite Er.
  - by apply bytes_eqb_spec.
Qed.

(** ** Accepted claims *)

(** What an accepted claim hashes: its leaf, the tree, and its way up. *)
Definition claim_inputs (block : Block.t) (sender tx_hash : Hash) (amount index : Z)
    (proof : list Hash) : list (list Z) :=
  let message := claim_message sender amount tx_hash in
  message :: messages_of block ++ tree_inputs (keccak <$> messages_of block)
    ++ path_inputs (keccak message) index proof.

Lemma message_length to value hash :
  length to = 20%nat → length hash = 32%nat → length (claim_message to value hash) = 84%nat.
Proof.
  intros Ht Hh. unfold claim_message. by rewrite !length_app, be_encode_length, Ht, Hh.
Qed.

Lemma claim_message_eq to value hash to' value' hash' :
  length to = length to' → in_u 256 value → in_u 256 value' →
  claim_message to value hash = claim_message to' value' hash' →
  to = to' ∧ value = value' ∧ hash = hash'.
Proof.
  intros Hl Hv Hv' E. apply app_inj_1 in E as [-> E]; [|done].
  apply app_inj_1 in E as [E ->]; [|by rewrite !be_encode_length].
  split_and!; try done. rewrite <-(be_decode_encode 32 value), <-(be_decode_encode 32 value'); [congruence|..];
    unfold in_u in *; change (256 ^ Z.of_nat 32) with (2 ^ 256); lia.
Qed.

Lemma withdrawal_fields tx m :
  tx_fields_ok tx → withdrawal_message tx = Some m → ∃ w to, as_withdrawal tx = Some w ∧
    PrivilegedL2Transaction.to w = Call to ∧ length to = 20%nat ∧
    in_u 256 (PrivilegedL2Transaction.value w) ∧
    m = claim_message to (PrivilegedL2Transaction.value w) (Transaction.compute_hash tx).
Proof.
  intros Hok (w & to & Hw & Eto & ->)%withdrawal_message_Some. exists w, to.
  apply as_withdrawal_Some in Hw as [-> Et]. cbn in Hok.
  destruct Hok as (_ & _ & _ & _ & _ & Hto & Hv & _). rewrite Eto in Hto.
  split_and!; [cbn; by rewrite Et|done|apply Hto|done..].
Qed.

Lemma merkle_root_messages block root :
  withdrawal_logs_merkle_root block = Ok root → root ≠ replicate 32 0 →
  messages_of block ≠ [] ∧ merkelize (keccak <$> messages_of block) = Ok root.
Proof.
  unfold withdrawal_logs_merkle_root. intros (hashes & Eh & Er)%bind_Ok Hz.
  apply withdrawal_hashes_Ok in Eh as [Eh _]. rewrite hashes_of_messages in Eh.
  fold (messages_of block) in Eh. subst hashes. unfold get_withdrawals_merkle_root in Er.
  destruct (messages_of block) as [|m ms]; cbn [fmap list_fmap] in Er; [congruence|].
  by apply map_err_Ok in Er.
Qed.

(** A claim that the contract accepts against the root of a block is of a withdrawal of
    the block, by its receiver and of its value. *)
Lemma accepted_claim_is_withdrawal block root sender tx_hash amount index proof :
  withdrawal_logs_merkle_root block = Ok root → root ≠ replicate 32 0 →
  Forall tx_fields_ok (BlockBody.transactions (Block.body block)) →
  length sender = 20%nat → length tx_hash = 32%nat → in_u 256 amount →
  Forall (λ h, length h = 32%nat) proof →
  no_hash_collision (claim_inputs block sender tx_hash amount index proof) →
  verify_withdraw_proof root sender tx_hash amount index proof = true →
  ∃ tx w, tx ∈ BlockBody.transactions (Block.body block) ∧ as_withdrawal tx = Some w ∧
    PrivilegedL2Transaction.to w = Call sender ∧ PrivilegedL2Transaction.value w = amount ∧
    Transaction.compute_hash tx = tx_hash.
Proof.
  intros Hr Hz Htx Hs Hh Ha Hp Hc Hv. rewrite Forall_forall in Htx.
  destruct (merkle_root_messages block root Hr Hz) as [Hne Em].
  apply bytes_eqb_spec in Hv. subst root.
  assert (claim_message sender amount tx_hash ∈ messages_of block) as Hin.
  { eapply (merkle_proof_sound (keccak <$> messages_of block)); [done|..|exact Hc|exact Em].
    - apply Forall_forall. intros m (tx & Hin & Et)%list_elem_of_omap.
      destruct (withdrawal_fields tx m (Htx _ Hin) Et) as (w & to & _ & _ & Hl & _ & ->).
      apply message_length; [done|apply keccak_length].
    - intros E. by apply fmap_nil_inv in E.
    - by apply message_length.
    - done. }
  apply list_elem_of_omap in Hin as (tx & Hin & Et).
  destruct (withdrawal_fields tx _ (Htx _ Hin) Et) as (w & to & Hw & Eto & Hl & Hv & E).
  apply claim_message_eq in E as (E1 & E2 & E3); [|by rewrite Hl|done..].
  exists tx, w. split_and!; [done..|by rewrite Eto, E1|done|done].
Qed.
End withdrawals.
