(* ===== verification/L2Contracts.v ===== *)
(** * The L1 contracts of the bridge

    crates/l2/contracts/src/l1: CommonBridge.sol holds the deposits and pays out the
    withdrawals, OnChainProposer.sol commits to blocks and verifies them.  A call
    either reverts, which is [Err], or gives the new state of both contracts.  The
    RISC Zero verifier, and the code at any address that is not one of the two
    contracts, are parameters.  [nonReentrant] is OpenZeppelin's: it refuses a call
    while another guarded one is running.  [claimWithdrawal] is two definitions, the
    code before its call of the receiver returns and the code after, since in
    between the receiver may call either contract. *)

From stdpp Require Import base option list numbers strings gmap.
From S2P Require Import Prelude LevmHost Chain L2Bridge.

Local Open Scope Z_scope.

Inductive Revert :=
| Required (message : string)
| Reentered
| CheckedArithmetic
| ForeignCall
| InvalidProof.

Notation CallResult A := (Outcome Revert A).

Definition zero32 : list Z := replicate 32 0.
Definition require (condition : bool) (message : string) : CallResult unit :=
  if condition then Ok tt else Err (Required message).
(** [uint256] addition, checked since Solidity 0.8. *)
Definition add256 (x y : Z) : CallResult Z := ok_or (checked_add 256 x y) CheckedArithmetic.

(** The arguments of [claimWithdrawal], with its sender. *)
Record Claim := {
  msg_sender : list Z;
  l2WithdrawalTxHash : list Z;
  claimedAmount : Z;
  withdrawalBlockNumber : Z;
  withdrawalLogIndex : Z;
  withdrawalProof : list (list Z);
}.

(** A mapping has the default value at the keys that are not there. [claiming] is
    the claim whose receiver is being called; [payouts] are the claims that were paid and
    [deposits] the [DepositInitiated] events, oldest first; [forced] is the ether that
    came without a call, from a [SELFDESTRUCT] or as a block reward. *)
Record CommonBridge := {
  claimedWithdrawals : gset (list Z);
  blockWithdrawalsLogs : gmap Z (list Z);
  depositLogs : list (list Z);
  ON_CHAIN_PROPOSER : list Z;
  lastFetchedL1Block : Z;
  depositId : Z;
  balance : Z;
  claiming : option Claim;
  payouts : list Claim;
  deposits : list (list Z * Z);
  forced : Z;
}.

Record BlockCommitmentInfo := { commitmentHash : list Z; bc_depositLogs : list Z }.

Record OnChainProposer := {
  blockCommitments : gmap Z BlockCommitmentInfo;
  lastVerifiedBlock : Z;
  lastCommittedBlock : Z;
  authorizedSequencerAddresses : gset (list Z);
  BRIDGE : list Z;
  R0VERIFIER : list Z;
}.

Record Contracts := { bridge : CommonBridge; proposer : OnChainProposer }.

Definition zero_address : list Z := replicate 20 0.
Definition DEV_MODE : list Z := replicate 19 0 ++ [0xAA].

(** The addresses of the contracts, and the code elsewhere: [IRiscZeroVerifier.verify],
    and what a call of the other interfaces gives at another address. *)
Class Deployment := {
  bridge_address : list Z;
  proposer_address : list Z;
  r0_verify : list Z → list Z → list Z → list Z → bool;
  foreign_lastVerifiedBlock : list Z → option Z;
  foreign_getDepositLogsVersionedHash : list Z → Z → option (list Z);
  foreign_publishWithdrawals : list Z → Z → list Z → option unit;
  foreign_removeDepositLogs : list Z → Z → option unit;
}.

(** The state after the constructors. *)
Definition created : Contracts := {|
  bridge := {| claimedWithdrawals := ∅; blockWithdrawalsLogs := ∅; depositLogs := [];
    ON_CHAIN_PROPOSER := zero_address; lastFetchedL1Block := 0; depositId := 0; balance := 0;
    claiming := None; payouts := []; deposits := []; forced := 0 |};
  proposer := {| blockCommitments := ∅; lastVerifiedBlock := 0; lastCommittedBlock := 0;
    authorizedSequencerAddresses := ∅; BRIDGE := zero_address; R0VERIFIER := zero_address |};
|}.

Definition with_bridge (c : Contracts) (b : CommonBridge) : Contracts :=
  {| bridge := b; proposer := proposer c |}.
Definition with_proposer (c : Contracts) (p : OnChainProposer) : Contracts :=
  {| bridge := bridge c; proposer := p |}.

Definition nonReentrant (b : CommonBridge) : CallResult unit :=
  match claiming b with Some _ => Err Reentered | None => Ok tt end.

Section contracts.
Context `{Crypto} `{Deployment}.

(** ** CommonBridge.sol *)

Definition bridge_initialize (onChainProposer : list Z) (block_number : Z) (b : CommonBridge) :
    CallResult CommonBridge :=
  _ ← nonReentrant b;
  _ ← require (bytes_eqb (ON_CHAIN_PROPOSER b) zero_address)
        "CommonBridge: contract already initialized";
  _ ← require (negb (bytes_eqb onChainProposer zero_address))
        "CommonBridge: onChainProposer is the zero address";
  _ ← require (negb (bytes_eqb onChainProposer bridge_address))
        "CommonBridge: onChainProposer is the contract address";
  Ok {| claimedWithdrawals := claimedWithdrawals b; blockWithdrawalsLogs := blockWithdrawalsLogs b;
        depositLogs := depositLogs b; ON_CHAIN_PROPOSER := onChainProposer;
        lastFetchedL1Block := block_number; depositId := 0; balance := balance b;
        claiming := claiming b; payouts := payouts b; deposits := deposits b; forced := forced b |}.

(** Ether that the contract cannot refuse. *)
Definition force_ether (value : Z) (b : CommonBridge) : CommonBridge :=
  {| claimedWithdrawals := claimedWithdrawals b; blockWithdrawalsLogs := blockWithdrawalsLogs b;
     depositLogs := depositLogs b; ON_CHAIN_PROPOSER := ON_CHAIN_PROPOSER b;
     lastFetchedL1Block := lastFetchedL1Block b; depositId := depositId b;
     balance := balance b + value; claiming := claiming b; payouts := payouts b;
     deposits := deposits b; forced := forced b + value |}.

Definition deposit_log (to : list Z) (value id : Z) : list Z :=
  keccak (to ++ be_encode 32 value ++ be_encode 32 id).

(** [deposit], and [receive] with [to] the sender. *)
Definition deposit (to : list Z) (msg_value : Z) (b : CommonBridge) : CallResult CommonBridge :=
  _ ← require (0 <? msg_value) "CommonBridge: amount to deposit is zero";
  id ← add256 (depositId b) 1;
  Ok {| claimedWithdrawals := claimedWithdrawals b; blockWithdrawalsLogs := blockWithdrawalsLogs b;
        depositLogs := depositLogs b ++ [deposit_log to msg_value (depositId b)];
        ON_CHAIN_PROPOSER := ON_CHAIN_PROPOSER b; lastFetchedL1Block := lastFetchedL1Block b;
        depositId := id; balance := balance b + msg_value; claiming := claiming b;
        payouts := payouts b; deposits := deposits b ++ [(to, msg_value)];
        forced := forced b |}.

Definition getDepositLogsVersionedHash (number : Z) (b : CommonBridge) : CallResult (list Z) :=
  _ ← require (0 <? number) "CommonBridge: number is zero (get)";
  _ ← require (number <=? len (depositLogs b))
        "CommonBridge: number is greater than the length of depositLogs (get)";
  Ok (be_encode 32 (deposit_logs_versioned_hash (take (Z.to_nat number) (depositLogs b)))).

Definition onlyOnChainProposer (sender : list Z) (b : CommonBridge) : CallResult unit :=
  require (bytes_eqb sender (ON_CHAIN_PROPOSER b)) "CommonBridge: caller is not the OnChainProposer".

(** The first loop of [removeDepositLogs] moves the logs down by [number], [i] being the
    index that it is at; the second pops the last [number]. *)
Fixpoint move_logs (steps : nat) (i number : nat) (logs : list (list Z)) : list (list Z) :=
  match steps with
  | O => logs
  | S steps =>
      move_logs steps (S i) number
        (match logs !! (i + number)%nat with Some log => <[i := log]> logs | None => logs end)
  end.

Definition removeDepositLogs (sender : list Z) (number : Z) (b : CommonBridge) : CallResult CommonBridge :=
  _ ← onlyOnChainProposer sender b;
  _ ← require (number <=? len (depositLogs b))
        "CommonBridge: number is greater than the length of depositLogs (remove)";
  let n := Z.to_nat number in
  let moved := move_logs (length (depositLogs b) - n) 0 n (depositLogs b) in
  Ok {| claimedWithdrawals := claimedWithdrawals b; blockWithdrawalsLogs := blockWithdrawalsLogs b;
        depositLogs := take (length moved - n) moved; ON_CHAIN_PROPOSER := ON_CHAIN_PROPOSER b;
        lastFetchedL1Block := lastFetchedL1Block b; depositId := depositId b; balance := balance b;
        claiming := claiming b; payouts := payouts b; deposits := deposits b; forced := forced b |}.

Definition logs_root (b : CommonBridge) (block : Z) : list Z :=
  default zero32 (blockWithdrawalsLogs b !! block).

Definition publishWithdrawals (sender : list Z) (withdrawalLogsBlockNumber : Z)
    (withdrawalsLogsMerkleRoot : list Z) (b : CommonBridge) : CallResult CommonBridge :=
  _ ← onlyOnChainProposer sender b;
  _ ← require (bytes_eqb (logs_root b withdrawalLogsBlockNumber) zero32)
        "CommonBridge: withdrawal logs already published";
  Ok {| claimedWithdrawals := claimedWithdrawals b;
        blockWithdrawalsLogs := <[withdrawalLogsBlockNumber := withdrawalsLogsMerkleRoot]>
          (blockWithdrawalsLogs b);
        depositLogs := depositLogs b; ON_CHAIN_PROPOSER := ON_CHAIN_PROPOSER b;
        lastFetchedL1Block := lastFetchedL1Block b; depositId := depositId b; balance := balance b;
        claiming := claiming b; payouts := payouts b; deposits := deposits b; forced := forced b |}.

(** ** OnChainProposer.sol *)

Definition proposer_initialize (bridge_ r0verifier : list Z) (sequencerAddresses : list (list Z))
    (p : OnChainProposer) : CallResult OnChainProposer :=
  _ ← require (bytes_eqb (BRIDGE p) zero_address) "OnChainProposer: contract already initialized";
  _ ← require (negb (bytes_eqb bridge_ zero_address))
        "OnChainProposer: bridge is the zero address";
  _ ← require (negb (bytes_eqb bridge_ proposer_address))
        "OnChainProposer: bridge is the contract address";
  _ ← require (bytes_eqb (R0VERIFIER p) zero_address)
        "OnChainProposer: contract already initialized";
  _ ← require (negb (bytes_eqb r0verifier zero_address))
        "OnChainProposer: r0verifier is the zero address";
  _ ← require (negb (bytes_eqb r0verifier proposer_address))
        "OnChainProposer: r0verifier is the contract address";
  Ok {| blockCommitments := blockCommitments p; lastVerifiedBlock := lastVerifiedBlock p;
        lastCommittedBlock := 0xFFFFFFFFFFFFFFFF;
        authorizedSequencerAddresses :=
          authorizedSequencerAddresses p ∪ list_to_set sequencerAddresses;
        BRIDGE := bridge_; R0VERIFIER := r0verifier |}.

Definition onlySequencer (sender : list Z) (p : OnChainProposer) : CallResult unit :=
  require (bool_decide (sender ∈ authorizedSequencerAddresses p))
    "OnChainProposer: caller is not the sequencer".

Definition commitment_of (p : OnChainProposer) (block : Z) : BlockCommitmentInfo :=
  default {| commitmentHash := zero32; bc_depositLogs := zero32 |} (blockCommitments p !! block).

(** The calls of [ICommonBridge(BRIDGE)]. *)
Definition call_getDepositLogsVersionedHash (number : Z) (c : Contracts) : CallResult (list Z) :=
  if bytes_eqb (BRIDGE (proposer c)) bridge_address
  then getDepositLogsVersionedHash number (bridge c)
  else ok_or (foreign_getDepositLogsVersionedHash (BRIDGE (proposer c)) number) ForeignCall.
Definition call_publishWithdrawals (block : Z) (root : list Z) (c : Contracts) :
    CallResult Contracts :=
  if bytes_eqb (BRIDGE (proposer c)) bridge_address
  then with_bridge c <$> publishWithdrawals proposer_address block root (bridge c)
  else (λ _, c) <$> ok_or (foreign_publishWithdrawals (BRIDGE (proposer c)) block root) ForeignCall.
Definition call_removeDepositLogs (number : Z) (c : Contracts) : CallResult Contracts :=
  if bytes_eqb (BRIDGE (proposer c)) bridge_address
  then with_bridge c <$> removeDepositLogs proposer_address number (bridge c)
  else (λ _, c) <$> ok_or (foreign_removeDepositLogs (BRIDGE (proposer c)) number) ForeignCall.

(** [uint16(bytes2(logs))]. *)
Definition logs_count (logs : list Z) : Z := be_decode (take 2 logs).

Definition commit (sender : list Z) (blockNumber : Z)
    (commitment withdrawalsLogsMerkleRoot depositLogs_ : list Z) (c : Contracts) :
    CallResult Contracts :=
  let p := proposer c in
  _ ← onlySequencer sender p;
  next ← add256 (lastCommittedBlock p) 1;
  _ ← require ((blockNumber =? next) ||
               ((blockNumber =? 0) && (lastCommittedBlock p =? 0xFFFFFFFFFFFFFFFF)))
        "OnChainProposer: blockNumber is not the immediate succesor of lastCommittedBlock";
  _ ← require (bytes_eqb (commitmentHash (commitment_of p blockNumber)) zero32)
        "OnChainProposer: block already committed";
  _ ← (if negb (bytes_eqb depositLogs_ zero32) then
         savedDepositLogs ← call_getDepositLogsVersionedHash (logs_count depositLogs_) c;
         require (bytes_eqb savedDepositLogs depositLogs_) "OnChainProposer: invalid deposit logs"
       else Ok tt);
  c ← (if negb (bytes_eqb withdrawalsLogsMerkleRoot zero32)
       then call_publishWithdrawals blockNumber withdrawalsLogsMerkleRoot c
       else Ok c);
  Ok (with_proposer c {|
    blockCommitments := <[blockNumber :=
      {| commitmentHash := commitment; bc_depositLogs := depositLogs_ |}]> (blockCommitments p);
    lastVerifiedBlock := lastVerifiedBlock p; lastCommittedBlock := blockNumber;
    authorizedSequencerAddresses := authorizedSequencerAddresses p;
    BRIDGE := BRIDGE p; R0VERIFIER := R0VERIFIER p |}).

(** [blockNumber - 1] does not underflow, since [blockNumber] is a successor. *)
Definition verify (sender : list Z) (blockNumber : Z) (blockProof imageId journalDigest : list Z)
    (c : Contracts) : CallResult Contracts :=
  let p := proposer c in
  _ ← onlySequencer sender p;
  next ← add256 (lastVerifiedBlock p) 1;
  _ ← require (blockNumber =? next) "OnChainProposer: block already verified";
  _ ← require (negb (bytes_eqb (commitmentHash (commitment_of p blockNumber)) zero32))
        "OnChainProposer: block not committed";
  _ ← (if negb (bytes_eqb (R0VERIFIER p) DEV_MODE) then
         (if r0_verify (R0VERIFIER p) blockProof imageId journalDigest then Ok tt
          else Err InvalidProof)
       else Ok tt);
  let deposits_amount := logs_count (bc_depositLogs (commitment_of p blockNumber)) in
  c ← (if 0 <? deposits_amount then call_removeDepositLogs deposits_amount c else Ok c);
  Ok (with_proposer c {|
    blockCommitments := delete (blockNumber - 1) (blockCommitments p);
    lastVerifiedBlock := blockNumber; lastCommittedBlock := lastCommittedBlock p;
    authorizedSequencerAddresses := authorizedSequencerAddresses p;
    BRIDGE := BRIDGE p; R0VERIFIER := R0VERIFIER p |}).

(** ** claimWithdrawal *)

Definition call_lastVerifiedBlock (c : Contracts) : CallResult Z :=
  if bytes_eqb (ON_CHAIN_PROPOSER (bridge c)) proposer_address
  then Ok (lastVerifiedBlock (proposer c))
  else ok_or (foreign_lastVerifiedBlock (ON_CHAIN_PROPOSER (bridge c))) ForeignCall.

(** Up to the call of the sender, which takes the amount from the balance. *)
Definition claim_call (claim : Claim) (c : Contracts) : CallResult Contracts :=
  let b := bridge c in
  _ ← nonReentrant b;
  _ ← require (negb (bytes_eqb (logs_root b (withdrawalBlockNumber claim)) zero32))
        "CommonBridge: the block that emitted the withdrawal logs was not committed";
  lastVerified ← call_lastVerifiedBlock c;
  _ ← require (withdrawalBlockNumber claim <=? lastVerified)
        "CommonBridge: the block that emitted the withdrawal logs was not verified";
  _ ← require (negb (bool_decide (l2WithdrawalTxHash claim ∈ claimedWithdrawals b)))
        "CommonBridge: the withdrawal was already claimed";
  _ ← require (verify_withdraw_proof (logs_root b (withdrawalBlockNumber claim))
                 (msg_sender claim) (l2WithdrawalTxHash claim) (claimedAmount claim)
                 (withdrawalLogIndex claim) (withdrawalProof claim))
        "CommonBridge: invalid withdrawal proof";
  _ ← require (claimedAmount claim <=? balance b) "CommonBridge: failed to send the claimed amount";
  Ok (with_bridge c {|
    claimedWithdrawals := claimedWithdrawals b; blockWithdrawalsLogs := blockWithdrawalsLogs b;
    depositLogs := depositLogs b; ON_CHAIN_PROPOSER := ON_CHAIN_PROPOSER b;
    lastFetchedL1Block := lastFetchedL1Block b; depositId := depositId b;
    balance := balance b - claimedAmount claim; claiming := Some claim;
    payouts := payouts b ++ [claim]; deposits := deposits b; forced := forced b |}).

(** After the sender was called with success. *)
Definition claim_return (c : Contracts) : option Contracts :=
  let b := bridge c in
  claim ← claiming b;
  Some (with_bridge c {|
    claimedWithdrawals := {[ l2WithdrawalTxHash claim ]} ∪ claimedWithdrawals b;
    blockWithdrawalsLogs := blockWithdrawalsLogs b;
    depositLogs := depositLogs b; ON_CHAIN_PROPOSER := ON_CHAIN_PROPOSER b;
    lastFetchedL1Block := lastFetchedL1Block b; depositId := depositId b; balance := balance b;
    claiming := None; payouts := payouts b; deposits := deposits b; forced := forced b |}).
End contracts.
