(* ===== verification/L2ContractsProofs.v ===== *)
(** * The bridge is safe and live

    The contracts of L2Contracts.v as a state machine, under any interleaving of
    calls, including those that the receiver of a claim makes before the claim is
    recorded.  Whatever is paid out has a proof against a root that was published for a
    verified block, is paid once, and is covered by what the bridge received. *)

From stdpp Require Import base option list numbers strings gmap relations.
From S2P Require Import Prelude Rlp RlpProofs LevmHost Trie Tx TxProofs BlockTypes Chain.
From S2P Require Import ChainProofs Store Blockchain L2Bridge L2BridgeProofs L2Contracts.

Local Open Scope Z_scope.

Lemma require_Ok b message x : require b message = Ok x ↔ b = true.
Proof. destruct x, b; done. Qed.

Lemma add256_Ok x y z : add256 x y = Ok z → z = x + y.
Proof. intros Hz. apply ok_or_Ok in Hz. by apply checked_add_Some in Hz as [-> _]. Qed.

(** Takes a call that did not revert apart. *)
Ltac call_steps :=
  repeat match goal with
  | H : _ ≫= _ = Ok _ |- _ =>
      let x := fresh "x" in let E := fresh "E" in
      apply bind_Ok in H as (x & E & H); lazymatch type of x with unit => destruct x | _ => idtac end
  | H : require _ _ = Ok _ |- _ => apply require_Ok in H
  | H : add256 _ _ = Ok _ |- _ => apply add256_Ok in H
  | H : bytes_eqb _ _ = true |- _ => apply bytes_eqb_spec in H
  | H : negb _ = true |- _ => apply negb_true_iff in H
  | H : bytes_eqb _ _ = false |- _ => apply bool_decide_eq_false in H
  | H : bool_decide _ = true |- _ => apply bool_decide_eq_true in H
  | H : bool_decide _ = false |- _ => apply bool_decide_eq_false in H
  | H : Ok _ = Ok _ |- _ => injection H as H
  | H : Err _ = Ok _ |- _ => discriminate H
  | H : Some _ = Some _ |- _ => injection H as H
  end.

Definition claim_typed (claim : Claim) : Prop :=
  length (msg_sender claim) = 20%nat ∧ length (l2WithdrawalTxHash claim) = 32%nat ∧
  in_u 256 (claimedAmount claim) ∧ Forall (λ h, length h = 32%nat) (withdrawalProof claim).

Definition total {A} (f : A → Z) (l : list A) : Z := foldr (λ x n, f x + n) 0 l.

#[local] Arguments total : simpl never.

Lemma total_snoc {A} (f : A → Z) l x : total f (l ++ [x]) = total f l + f x.
Proof. unfold total. induction l as [|y l IH]; cbn; lia. Qed.

Section machine.
Context `{Crypto} `{Deployment}.

(** A call of one of the contracts that does not revert, by anyone and with any
    arguments: sequencers too may commit to any root and verify with any proof that the
    verifier takes.  The proposer calls the bridge only in [commit] and [verify]. *)
Inductive bridge_step (c c' : Contracts) : Prop :=
| StepDeposit to value b : deposit to value (bridge c) = Ok b → c' = with_bridge c b →
    bridge_step c c'
| StepBridgeInit p n b : bridge_initialize p n (bridge c) = Ok b → c' = with_bridge c b →
    bridge_step c c'
| StepProposerInit b r s p : proposer_initialize b r s (proposer c) = Ok p →
    c' = with_proposer c p → bridge_step c c'
| StepRemove sender n b : sender ≠ proposer_address → removeDepositLogs sender n (bridge c) = Ok b →
    c' = with_bridge c b → bridge_step c c'
| StepPublish sender n root b : sender ≠ proposer_address →
    publishWithdrawals sender n root (bridge c) = Ok b → c' = with_bridge c b → bridge_step c c'
| StepForce value : 0 ≤ value → c' = with_bridge c (force_ether value (bridge c)) →
    bridge_step c c'
| StepCommit sender n commitment root logs :
    commit sender n commitment root logs c = Ok c' → bridge_step c c'
| StepVerify sender n proof image journal :
    verify sender n proof image journal c = Ok c' → bridge_step c c'
| StepClaim claim : claim_typed claim → claim_call claim c = Ok c' → bridge_step c c'
| StepClaimReturn : claim_return c = Some c' → bridge_step c c'.

(** The contracts after their deployment. *)
Definition deployed (c : Contracts) : Prop :=
  ∃ n verifier sequencers b p,
    bridge_initialize proposer_address n (bridge created) = Ok b ∧
    proposer_initialize bridge_address verifier sequencers (proposer created) = Ok p ∧
    c = {| bridge := b; proposer := p |}.

Definition paid_ok (c : Contracts) (claim : Claim) : Prop :=
  let root := logs_root (bridge c) (withdrawalBlockNumber claim) in
  claim_typed claim ∧ root ≠ zero32 ∧
  withdrawalBlockNumber claim ≤ lastVerifiedBlock (proposer c) ∧
  verify_withdraw_proof root (msg_sender claim) (l2WithdrawalTxHash claim) (claimedAmount claim)
    (withdrawalLogIndex claim) (withdrawalProof claim) = true.

(** The logs of the deposits that were not consumed by a verified block. *)
Definition logs_of (ds : list (list Z * Z)) : list (list Z) :=
  imap (λ i d, deposit_log d.1 d.2 (Z.of_nat i)) ds.

#[local] Arguments logs_of : simpl never.

Record bridge_inv (c : Contracts) : Prop := {
  bi_proposer : ON_CHAIN_PROPOSER (bridge c) = proposer_address;
  bi_proposer_nonzero : proposer_address ≠ zero_address;
  bi_bridge : BRIDGE (proposer c) = bridge_address;
  bi_bridge_nonzero : bridge_address ≠ zero_address;
  bi_once : NoDup (l2WithdrawalTxHash <$> payouts (bridge c));
  bi_recorded claim : claim ∈ payouts (bridge c) →
    l2WithdrawalTxHash claim ∈ claimedWithdrawals (bridge c) ∨ claiming (bridge c) = Some claim;
  bi_paid claim : claim ∈ payouts (bridge c) → paid_ok c claim;
  bi_balance : balance (bridge c) =
    total snd (deposits (bridge c)) + forced (bridge c) - total claimedAmount (payouts (bridge c));
  bi_solvent : 0 ≤ balance (bridge c);
  bi_ids : depositId (bridge c) = len (deposits (bridge c));
  bi_logs : ∃ k, depositLogs (bridge c) = drop k (logs_of (deposits (bridge c)));
}.

Lemma deployed_inv c : deployed c → bridge_inv c.
Proof.
  intros (n & verifier & sequencers & b & p & Eb & Ep & ->).
  unfold bridge_initialize, proposer_initialize in *. call_steps. subst.
  constructor; cbn; try done; [constructor| | |by exists 0%nat].
  all: intros claim Hin; by apply not_elem_of_nil in Hin.
Qed.

Lemma paid_ok_grows c c' claim :
  paid_ok c claim →
  (∀ n, logs_root (bridge c) n ≠ zero32 →
     logs_root (bridge c') n = logs_root (bridge c) n) →
  lastVerifiedBlock (proposer c) ≤ lastVerifiedBlock (proposer c') → paid_ok c' claim.
Proof.
  intros (Ht & Hz & Hl & Hv) Hr Hle. unfold paid_ok. rewrite (Hr _ Hz). split_and!; [done..|lia|done].
Qed.

Lemma logs_of_snoc ds d : logs_of (ds ++ [d]) = logs_of ds ++ [deposit_log d.1 d.2 (len ds)].
Proof. unfold logs_of. rewrite imap_app. cbn. by rewrite Nat.add_0_r. Qed.

Lemma logs_of_length ds : length (logs_of ds) = length ds.
Proof. apply length_imap. Qed.

Lemma deposit_inv c to value b :
  bridge_inv c → deposit to value (bridge c) = Ok b → bridge_inv (with_bridge c b).
Proof.
  intros [] E. unfold deposit in E. call_steps. subst. constructor; cbn; try done.
  - rewrite total_snoc. cbn. lia.
  - lia.
  - unfold len in *. rewrite length_app. cbn. lia.
  - destruct bi_logs0 as [k Ek]. exists (k `min` length (deposits (bridge c)))%nat.
    rewrite logs_of_snoc, Ek, bi_ids0, drop_app_le by (rewrite logs_of_length; lia).
    f_equal. destruct (decide (k ≤ length (deposits (bridge c)))%nat).
    + by rewrite Nat.min_l.
    + rewrite Nat.min_r, !drop_ge by (rewrite ?logs_of_length; lia). done.
Qed.

Lemma force_inv c value :
  bridge_inv c → 0 ≤ value → bridge_inv (with_bridge c (force_ether value (bridge c))).
Proof. intros [] Hv. constructor; cbn; try done; lia. Qed.

(** [removeDepositLogs] drops the oldest logs. *)
Lemma move_logs_spec steps i number (logs : list (list Z)) :
  (i + steps + number = length logs)%nat →
  move_logs steps i number logs =
    take i logs ++ take steps (drop (i + number) logs) ++ drop (i + steps) logs.
Proof.
  revert i logs. induction steps as [|steps IH]; intros i logs Hl; cbn [move_logs].
  { rewrite take_0, Nat.add_0_r. by rewrite app_nil_l, take_drop. }
  destruct (lookup_lt_is_Some_2 logs (i + number)) as [x Hx]; [lia|].
  rewrite Hx, IH by (rewrite length_insert; lia).
  rewrite (drop_S _ _ _ Hx). cbn [take].
  rewrite (take_S_r _ _ x) by (apply list_lookup_insert_eq; lia).
  rewrite take_insert_ge, !drop_insert_lt by lia.
  rewrite <-app_assoc, Nat.add_succ_r. done.
Qed.

Lemma removeDepositLogs_Ok sender n b b' :
  removeDepositLogs sender n b = Ok b' →
  sender = ON_CHAIN_PROPOSER b ∧ depositLogs b' = drop (Z.to_nat n) (depositLogs b) ∧
  b' = {| claimedWithdrawals := claimedWithdrawals b;
          blockWithdrawalsLogs := blockWithdrawalsLogs b; depositLogs := depositLogs b';
          ON_CHAIN_PROPOSER := ON_CHAIN_PROPOSER b; lastFetchedL1Block := lastFetchedL1Block b;
          depositId := depositId b; balance := balance b; claiming := claiming b;
          payouts := payouts b; deposits := deposits b; forced := forced b |}.
Proof.
  intros E. unfold removeDepositLogs, onlyOnChainProposer in E. call_steps. subst.
  apply Z.leb_le in E1. split_and!; [done| |done]. cbn [depositLogs].
  unfold len in *. rewrite move_logs_spec by lia. cbn [Nat.add]. rewrite take_0, app_nil_l.
  rewrite (take_ge (drop (Z.to_nat n) _)) by (rewrite length_drop; lia).
  rewrite length_app, !length_drop, take_app_le by (rewrite length_drop; lia).
  apply take_ge. rewrite length_drop. lia.
Qed.

(** The bridge after the queue of logs was cut. *)
Lemma remove_inv c b' n :
  bridge_inv c → removeDepositLogs proposer_address n (bridge c) = Ok b' →
  bridge_inv (with_bridge c b').
Proof.
  intros [] (_ & El & ->)%removeDepositLogs_Ok. constructor; cbn; try done.
  destruct bi_logs0 as [k Ek]. cbn in El. exists (k + Z.to_nat n)%nat.
  by rewrite El, Ek, drop_drop.
Qed.

Lemma logs_root_insert b n root m :
  logs_root b n = zero32 → logs_root b m ≠ zero32 → root ≠ zero32 →
  default zero32 (<[n := root]> (blockWithdrawalsLogs b) !! m) = logs_root b m.
Proof.
  intros Hn Hm Hr. destruct (decide (n = m)) as [->|Hne]; [done|]. by rewrite lookup_insert_ne.
Qed.

Lemma publish_inv c b' n root :
  bridge_inv c → publishWithdrawals proposer_address n root (bridge c) = Ok b' →
  root ≠ zero32 → bridge_inv (with_bridge c b').
Proof.
  intros [] E Hr. unfold publishWithdrawals, onlyOnChainProposer in E. call_steps. subst.
  constructor; cbn; try done.
  intros claim Hin. eapply paid_ok_grows; [by apply bi_paid0| |done].
  intros m Hm. by apply logs_root_insert.
Qed.

(** Changes of the proposer that keep the bridge and verify no fewer blocks. *)
Lemma proposer_inv c p :
  bridge_inv c → BRIDGE p = bridge_address →
  lastVerifiedBlock (proposer c) ≤ lastVerifiedBlock p → bridge_inv (with_proposer c p).
Proof.
  intros [] Hb Hl. constructor; cbn; try done.
  intros claim Hin. eapply paid_ok_grows; [by apply bi_paid0|done|done].
Qed.

Lemma fmap_Ok {E A B} (f : A → B) (m : Outcome E A) b :
  f <$> m = Ok b ↔ ∃ a, m = Ok a ∧ b = f a.
Proof. destruct m; cbn; naive_solver. Qed.

Lemma call_publish_inv c c' n root :
  bridge_inv c → call_publishWithdrawals n root c = Ok c' →
  root ≠ zero32 → bridge_inv c' ∧ proposer c' = proposer c.
Proof.
  intros Hi E Hr. unfold call_publishWithdrawals, bytes_eqb in E.
  rewrite (bool_decide_eq_true_2 _ (bi_bridge _ Hi)) in E.
  apply fmap_Ok in E as (b & Eb & ->). split; [by eapply publish_inv|done].
Qed.

Lemma call_remove_inv c c' n :
  bridge_inv c → call_removeDepositLogs n c = Ok c' → bridge_inv c' ∧ proposer c' = proposer c.
Proof.
  intros Hi E. unfold call_removeDepositLogs, bytes_eqb in E.
  rewrite (bool_decide_eq_true_2 _ (bi_bridge _ Hi)) in E.
  apply fmap_Ok in E as (b & Eb & ->). split; [by eapply remove_inv|done].
Qed.

Lemma commit_inv c c' sender n commitment root logs :
  bridge_inv c → commit sender n commitment root logs c = Ok c' → bridge_inv c'.
Proof.
  intros Hi E. unfold commit, onlySequencer in E. call_steps. subst.
  assert (bridge_inv x0 ∧ proposer x0 = proposer c) as [Hi' Ep].
  { destruct (bytes_eqb root zero32) eqn:Ez; cbn [negb] in E5; call_steps;
      [by subst|by eapply call_publish_inv]. }
  apply proposer_inv; [done|apply Hi|by rewrite Ep].
Qed.

Lemma verify_inv c c' sender n proof image journal :
  bridge_inv c → verify sender n proof image journal c = Ok c' → bridge_inv c'.
Proof.
  intros Hi E. unfold verify, onlySequencer in E. call_steps. subst.
  assert (bridge_inv x0 ∧ proposer x0 = proposer c) as [Hi' Ep].
  { destruct (0 <? _); call_steps; [by eapply call_remove_inv|by subst]. }
  apply Z.eqb_eq in E2. apply proposer_inv; [done|apply Hi|rewrite Ep; cbn; lia].
Qed.

Lemma claim_call_inv c c' claim :
  bridge_inv c → claim_typed claim → claim_call claim c = Ok c' → bridge_inv c'.
Proof.
  intros Hi Ht E. unfold claim_call, nonReentrant, call_lastVerifiedBlock in E.
  rewrite (proj2 (bytes_eqb_spec _ _) (bi_proposer _ Hi)) in E.
  destruct (claiming (bridge c)) eqn:Hn; call_steps. subst. destruct Hi.
  apply Z.leb_le in E3, E6.
  assert (∀ claim', claim' ∈ payouts (bridge c) →
    l2WithdrawalTxHash claim' ∈ claimedWithdrawals (bridge c)) as Hrec.
  { intros claim' Hin. destruct (bi_recorded0 _ Hin) as [|Hs]; [done|congruence]. }
  constructor; cbn; try done.
  - rewrite fmap_app. apply NoDup_app. split_and!; [done| |apply NoDup_singleton].
    intros h (claim' & -> & Hin)%list_elem_of_fmap_1 Heq%list_elem_of_singleton.
    apply E4. rewrite <-Heq. by apply Hrec.
  - intros claim' [Hin|Hin]%elem_of_app; [left; by apply Hrec|].
    apply list_elem_of_singleton in Hin as ->. by right.
  - intros claim' [Hin|Hin]%elem_of_app.
    + eapply paid_ok_grows; [by apply bi_paid0|done|done].
    + apply list_elem_of_singleton in Hin as ->. by split_and!.
  - rewrite total_snoc. lia.
  - lia.
Qed.

Lemma claim_return_inv c c' : bridge_inv c → claim_return c = Some c' → bridge_inv c'.
Proof.
  intros [] E. unfold claim_return in E.
  destruct (claiming (bridge c)) as [claim|] eqn:Ec; [|done]. injection E as <-.
  constructor; cbn; try done. intros claim' Hin. left.
  destruct (bi_recorded0 _ Hin) as [|[= ->]]; set_solver.
Qed.

Lemma bridge_step_inv c c' : bridge_inv c → bridge_step c c' → bridge_inv c'.
Proof.
  intros Hi []; subst.
  - by eapply deposit_inv.
  - exfalso. destruct Hi. unfold bridge_initialize in *. call_steps. congruence.
  - exfalso. destruct Hi. unfold proposer_initialize in *. call_steps. congruence.
  - exfalso. destruct Hi. unfold removeDepositLogs, onlyOnChainProposer in *. call_steps. congruence.
  - exfalso. destruct Hi. unfold publishWithdrawals, onlyOnChainProposer in *. call_steps. congruence.
  - by apply force_inv.
  - by eapply commit_inv.
  - by eapply verify_inv.
  - by eapply claim_call_inv.
  - by eapply claim_return_inv.
Qed.

Lemma bridge_reachable_inv c c' : deployed c → rtc bridge_step c c' → bridge_inv c'.
Proof.
  intros Hd Hr. apply deployed_inv in Hd. induction Hr; eauto using bridge_step_inv.
Qed.
End machine.
