(* ===== verification/L2Theorems.v ===== *)
(** * Withdrawals through the bridge

    The committer and the SDK of L2Bridge.v, the contracts of L2Contracts.v: only
    withdrawals of committed blocks are paid, and each of them can be claimed. *)

From stdpp Require Import base option list numbers strings gmap relations.
From S2P Require Import Prelude Rlp RlpProofs LevmHost LevmDemo Trie Tx TxProofs BlockTypes Chain.
From S2P Require Import ChainProofs Store StoreLogic Blockchain MempoolPool MempoolTheorems.
From S2P Require Import L2Bridge L2BridgeProofs L2Contracts L2ContractsProofs.

Local Open Scope Z_scope.

Section theorems.
Context `{Crypto} {HC : CryptoLaws _} `{Deployment}.

(** The hashes of a claim against a block. *)
Definition inputs_of (block : Block.t) (claim : Claim) : list (list Z) :=
  claim_inputs block (msg_sender claim) (l2WithdrawalTxHash claim) (claimedAmount claim)
    (withdrawalLogIndex claim) (withdrawalProof claim).

(** The root published for the block of a claim is the one that the committer computes
    of [block].  The contracts check neither the root that a sequencer commits to nor
    that the proof of the block is about it. *)
Definition honest_root (c : Contracts) (claim : Claim) (block : Block.t) : Prop :=
  withdrawal_logs_merkle_root block = Ok (logs_root (bridge c) (withdrawalBlockNumber claim)).

(** [claim] is of this withdrawal. *)
Definition claims (claim : Claim) (tx : Transaction) : Prop :=
  ∃ w, as_withdrawal tx = Some w ∧
    PrivilegedL2Transaction.to w = Call (msg_sender claim) ∧
    PrivilegedL2Transaction.value w = claimedAmount claim ∧
    Transaction.compute_hash tx = l2WithdrawalTxHash claim.

(** C4 What the bridge pays, whatever calls the two contracts receive after their
    deployment, from anyone including dishonest sequencers, and those of a receiver
    during its claim included: no withdrawal is paid twice; every claim that was paid
    names a block that is at most the last verified one, and has a Merkle proof
    against the root that was published for it; and what was paid and what is left is
    what was deposited or forced into the contract, never negative.  If moreover that
    root is the one that the committer computes of a block, which nothing in the
    contracts enforces, then the claim is of a withdrawal transaction of this block,
    by its receiver and of its value, unless the hash collides on the inputs of the
    proof. *)
Theorem payouts_are_withdrawals (c0 c : Contracts) :
  deployed c0 → rtc bridge_step c0 c →
  NoDup (l2WithdrawalTxHash <$> payouts (bridge c)) ∧
  balance (bridge c) + total claimedAmount (payouts (bridge c))
    = total snd (deposits (bridge c)) + forced (bridge c) ∧
  0 ≤ balance (bridge c) ∧
  ∀ claim, claim ∈ payouts (bridge c) → paid_ok c claim ∧
    ∀ block, honest_root c claim block →
      Forall tx_fields_ok (BlockBody.transactions (Block.body block)) →
      no_hash_collision (inputs_of block claim) →
      ∃ tx, tx ∈ BlockBody.transactions (Block.body block) ∧ claims claim tx.
Proof.
  intros Hd Hr. destruct (bridge_reachable_inv c0 c Hd Hr).
  split_and!; [done|lia|done|]. intros claim Hin. split; [by apply bi_paid|].
  intros block Hroot Htx Hc. destruct (bi_paid claim Hin) as ((Hs & Hh & Ha & Hp) & Hz & Hl & Hv).
  destruct (accepted_claim_is_withdrawal block _ (msg_sender claim)
    (l2WithdrawalTxHash claim) (claimedAmount claim) (withdrawalLogIndex claim)
    (withdrawalProof claim) Hroot) as (tx & w & Htx' & Hw & Hto & Hval & Hhash); try done.
  exists tx. split; [done|]. by exists w.
Qed.

(** A claim that meets the requirements is paid, and recorded when the receiver returns. *)
Lemma claim_call_accepts claim c :
  let root := logs_root (bridge c) (withdrawalBlockNumber claim) in
  ON_CHAIN_PROPOSER (bridge c) = proposer_address → claiming (bridge c) = None → root ≠ zero32 →
  withdrawalBlockNumber claim ≤ lastVerifiedBlock (proposer c) →
  l2WithdrawalTxHash claim ∉ claimedWithdrawals (bridge c) →
  verify_withdraw_proof root (msg_sender claim) (l2WithdrawalTxHash claim) (claimedAmount claim)
    (withdrawalLogIndex claim) (withdrawalProof claim) = true →
  claimedAmount claim ≤ balance (bridge c) →
  ∃ c1, claim_call claim c = Ok c1 ∧
    balance (bridge c1) = balance (bridge c) - claimedAmount claim ∧
    claiming (bridge c1) = Some claim.
Proof.
  intros root Hp Hn Hz Hl Hnew Hv Hbal. unfold claim_call, nonReentrant, call_lastVerifiedBlock.
  rewrite Hn, (proj2 (bytes_eqb_spec _ _) Hp). fold root. unfold require.
  assert (bytes_eqb root zero32 = false) as -> by (by apply bool_decide_eq_false_2).
  cbn [mbind outcome_bind negb]. rewrite (proj2 (Z.leb_le _ _) Hl).
  rewrite (bool_decide_eq_false_2 (_ ∈ _)) by done. cbn [negb]. rewrite Hv.
  rewrite (proj2 (Z.leb_le _ _) Hbal). by eexists.
Qed.

Lemma claim_return_records c claim :
  claiming (bridge c) = Some claim → ∃ c2, claim_return c = Some c2 ∧
    l2WithdrawalTxHash claim ∈ claimedWithdrawals (bridge c2).
Proof. unfold claim_return. intros ->. eexists. split; [done|]. cbn. set_solver. Qed.

Context `{BuildProfile} `{Execution} `{HashMapIter} `{Kzg}.

(** The committer commits to the root of the body that the store has. *)
Lemma commit_block_root n s s' co body :
  commit_block n s = (Ok (Some co), s') → (Store.get_block_body n s).1 = Ok (Some body) →
  ∃ hashes, withdrawal_hashes (omap (λ tx, (λ w, (Transaction.compute_hash tx, w)) <$> as_withdrawal tx)
      (BlockBody.transactions body)) = Ok hashes ∧
    get_withdrawals_merkle_root hashes = Ok (co_withdrawal_logs_merkle_root co).
Proof.
  intros E Eb. unfold commit_block in E.
  apply bind_Ok_inv in E as (body' & s1 & E1 & E).
  assert ((committer_store (Store.get_block_body n) s).1 = Ok body') as E1' by (by rewrite E1).
  apply state_map_err_Ok in E1'. rewrite E1' in Eb. injection Eb as ->.
  apply bind_Ok_inv in E as (header & s2 & _ & E).
  apply bind_Ok_inv in E as (header' & s3 & _ & E).
  apply bind_Ok_inv in E as (root & s4 & Er & E).
  apply bind_Ok_inv in E as (deposit_hash & s5 & _ & E).
  apply bind_Ok_inv in E as (diff & s6 & _ & E).
  apply bind_Ok_inv in E as (bundle & s7 & _ & E).
  injection E as <- <-. cbn. injection Er as Er _.
  unfold withdrawal_logs_merkle_root in Er. apply bind_Ok in Er as (hashes & Eh & Er). eauto.
Qed.

(** C9 Every withdrawal of a committed block can be claimed.  When the committer
    commits to a block, and the contracts hold its root, have verified a block of that
    number or a later one, have the funds and have not paid the withdrawal yet, then
    the proof that the SDK builds from the transactions of the block makes
    [claimWithdrawal] pay the receiver, and the withdrawal is then recorded as
    claimed; provided that no two transactions of the block have one hash and the
    hash has no collision in the tree. *)
Theorem withdrawal_claimable n s s' co body tx w c :
  commit_block n s = (Ok (Some co), s') → (Store.get_block_body n s).1 = Ok (Some body) →
  let txs := BlockBody.transactions body in
  tx ∈ txs → as_withdrawal tx = Some w → NoDup (Transaction.compute_hash <$> txs) →
  no_hash_collision (omap withdrawal_message txs ++ tree_inputs (omap withdrawal_hash_of txs)) →
  ON_CHAIN_PROPOSER (bridge c) = proposer_address → claiming (bridge c) = None →
  logs_root (bridge c) n = co_withdrawal_logs_merkle_root co →
  co_withdrawal_logs_merkle_root co ≠ zero32 → n ≤ lastVerifiedBlock (proposer c) →
  Transaction.compute_hash tx ∉ claimedWithdrawals (bridge c) →
  PrivilegedL2Transaction.value w ≤ balance (bridge c) →
  ∃ index proof claim c1 c2,
    get_withdraw_merkle_proof (with_hashes txs) (Transaction.compute_hash tx) = Some (index, proof) ∧
    claims claim tx ∧ withdrawalBlockNumber claim = n ∧
    withdrawalLogIndex claim = index ∧ withdrawalProof claim = proof ∧
    claim_call claim c = Ok c1 ∧
    balance (bridge c1) = balance (bridge c) - PrivilegedL2Transaction.value w ∧
    claim_return c1 = Some c2 ∧
    Transaction.compute_hash tx ∈ claimedWithdrawals (bridge c2).
Proof.
  intros Ec Eb txs Hin Hw Hd Hc Hp Hn Hroot Hz Hl Hnew Hbal.
  destruct (commit_block_root n s s' co body Ec Eb) as (hashes & Eh & Er).
  destruct (withdrawal_hashes_Ok _ _ Eh) as [E _]. unfold txs in Hc. rewrite <-E in Hc.
  destruct (sdk_claim_accepted _ hashes tx w Eh Hin Hw Hd Hc)
    as (index & proof & to & root & Hto & Eproof & Er' & Hv).
  rewrite Er in Er'. injection Er' as <-.
  set (claim := {| msg_sender := to; l2WithdrawalTxHash := Transaction.compute_hash tx;
    claimedAmount := PrivilegedL2Transaction.value w; withdrawalBlockNumber := n;
    withdrawalLogIndex := index; withdrawalProof := proof |}).
  destruct (claim_call_accepts claim c) as (c1 & E1 & Eb1 & Ec1); try done.
  { cbn. by rewrite Hroot. }
  { cbn. by rewrite Hroot. }
  destruct (claim_return_records c1 claim Ec1) as (c2 & E2 & Hin2).
  exists index, proof, claim, c1, c2. split_and!; try done. by exists w.
Qed.

Lemma collect_diffs_info block_number updates accounts s s' r :
  collect_diffs block_number updates accounts s = (Ok r, s') →
  Forall (λ u, is_Some (AccountUpdate.info u)) updates.
Proof.
  revert accounts s. induction updates as [|update updates IH]; intros accounts s E; [constructor|].
  cbn [collect_diffs] in E.
  apply bind_Ok_inv in E as (parent & s1 & _ & E). apply bind_Ok_inv in E as (acc & s2 & _ & E).
  apply bind_Ok_inv in E as (info & s3 & Ei & E). apply bind_Ok_inv in E as (diff & s4 & _ & E).
  constructor; [|by eapply IH]. injection Ei as Ei _. apply ok_or_Ok in Ei. by rewrite Ei.
Qed.

(** C40 A block whose execution reports an account without new account info is never
    committed.  These are the destroyed accounts and the accounts of which only the
    storage changed: the committer takes the missing info for a failure of the
    storage, at every attempt. *)
Theorem update_without_info_never_committed n s header body receipts updates update :
  (Store.get_block_body n s).1 = Ok (Some body) →
  (Store.get_block_header n s).1 = Ok (Some header) →
  execute_block s (Block.new header body) = Ok (receipts, updates) →
  update ∈ updates → AccountUpdate.info update = None →
  ∀ co, (commit_block n s).1 ≠ Ok (Some co).
Proof.
  intros Eb Eh Ex Hin Hu co Hco. destruct (commit_block n s) as [r s'] eqn:E. cbn in Hco. subst r.
  unfold commit_block in E.
  apply bind_Ok_inv in E as (body' & s1 & E1 & E).
  assert (committer_store (Store.get_block_body n) s = (Ok (Some body), s)) as E1'.
  { apply map_err_run_ok. rewrite read_only_run by read_only. by rewrite Eb. }
  rewrite E1' in E1. injection E1 as <- <-.
  apply bind_Ok_inv in E as (header' & s2 & E2 & E).
  assert (committer_store (Store.get_block_header n) s = (Ok (Some header), s)) as E2'.
  { apply map_err_run_ok. rewrite read_only_run by read_only. by rewrite Eh. }
  rewrite E2' in E2. injection E2 as <- <-.
  apply bind_Ok_inv in E as (? & s3 & [= <- <-] & E).
  apply bind_Ok_inv in E as (root & s4 & [= _ <-] & E).
  apply bind_Ok_inv in E as (deposit_hash & s5 & [= _ <-] & E).
  apply bind_Ok_inv in E as (diff & s6 & Ed & _). unfold prepare_state_diff in Ed.
  apply bind_Ok_inv in Ed as (st & s7 & [= <- <-] & Ed).
  apply bind_Ok_inv in Ed as ([rs us] & s8 & Er & Ed). injection Er as Er <-.
  rewrite Ex in Er. injection Er as <- <-.
  apply bind_Ok_inv in Ed as (accounts & s9 & Ec & _).
  apply collect_diffs_info in Ec. rewrite Forall_forall in Ec.
  destruct (Ec update Hin) as [info Ei]. congruence.
Qed.
End theorems.

(** ** A block with three withdrawals *)

#[local] Instance l2_build : BuildProfile := true.
#[local] Instance l2_iter : HashMapIter :=
  {| hash_iter V m := map_to_list m; hash_iter_perm V m := Permutation_refl _ |}.
#[local] Instance l2_kzg : Kzg := {|
  blob_to_kzg_commitment _ := Some (replicate 48 1);
  compute_blob_kzg_proof _ _ := Some (replicate 48 2);
  kzg_verify_blob_proof _ _ _ := Some true;
|}.
#[local] Instance l2_execution : Execution := λ _ _,
  Ok ([], [{| AccountUpdate.address := rich_sender; AccountUpdate.removed := false;
              AccountUpdate.info := Some {| AccountInfo.code_hash := replicate 32 3;
                AccountInfo.balance := 5; AccountInfo.nonce := 3 |};
              AccountUpdate.code := None; AccountUpdate.added_storage := [] |}]).

Definition demo_withdrawal (k : Z) : PrivilegedL2Transaction.t := {|
  PrivilegedL2Transaction.chain_id := 1; PrivilegedL2Transaction.nonce := k;
  PrivilegedL2Transaction.max_priority_fee_per_gas := 2;
  PrivilegedL2Transaction.max_fee_per_gas := 100; PrivilegedL2Transaction.gas_limit := 21000;
  PrivilegedL2Transaction.to := Call (replicate 20 k); PrivilegedL2Transaction.value := 100 * k;
  PrivilegedL2Transaction.data := []; PrivilegedL2Transaction.access_list := [];
  PrivilegedL2Transaction.tx_type := PrivilegedTxType.Withdrawal;
  PrivilegedL2Transaction.signature_y_parity := true;
  PrivilegedL2Transaction.signature_r := 5; PrivilegedL2Transaction.signature_s := 6;
|}.

Definition l2_txs : list Transaction :=
  [PrivilegedL2Transaction (demo_withdrawal 1); pay_tx 0;
   PrivilegedL2Transaction (demo_withdrawal 2); PrivilegedL2Transaction (demo_withdrawal 3)].
Definition l2_body (txs : list Transaction) : BlockBody.t :=
  {| BlockBody.transactions := txs; BlockBody.ommers := []; BlockBody.withdrawals := Some [] |}.
Definition l2_blocks (n : Z) : Block.t :=
  Block.new (demo_link (replicate 32 0) n 1010) (l2_body (if n =? 1 then l2_txs else [])).

Definition l2_store : Store.t := Eval vm_compute in
  (Store.set_canonical_block 1 (compute_block_hash (Block.header (l2_blocks 1)))
     (Store.add_block (l2_blocks 1) rich_base).2).2.
Definition l2_root : list Z := Eval vm_compute in
  match withdrawal_logs_merkle_root (l2_blocks 1) with Ok root => root | _ => [] end.

Definition commits_to (r : CommitterResult (option Commitment)) (root : list Z) : bool :=
  match r with Ok (Some co) => bytes_eqb (co_withdrawal_logs_merkle_root co) root | _ => false end.

Lemma l2_commits : commits_to (commit_block 1 l2_store).1 l2_root = true.
Proof. vm_cast_no_check (eq_refl true). Qed.

Lemma commits_to_spec n s root :
  commits_to (commit_block n s).1 root = true →
  ∃ co s', commit_block n s = (Ok (Some co), s') ∧ co_withdrawal_logs_merkle_root co = root.
Proof.
  destruct (commit_block n s) as [r s']. cbn. destruct r as [[co|]| | |]; try done.
  intros E%bytes_eqb_spec. eauto.
Qed.

(** The check of the hypotheses on the hash. *)
Definition no_collision_check (inputs : list (list Z)) : bool :=
  let hashed := (λ x, (x, keccak x)) <$> inputs in
  forallb (λ a, forallb (λ b, negb (bytes_eqb a.2 b.2) || bytes_eqb a.1 b.1) hashed) hashed.

Lemma no_collision_check_ok inputs : no_collision_check inputs = true → no_hash_collision inputs.
Proof.
  intros Hc x y Hx Hy E. unfold no_collision_check in Hc.
  apply (list_elem_of_fmap_2 (λ x, (x, keccak x))), list_elem_of_In in Hx, Hy.
  rewrite forallb_forall in Hc. specialize (Hc _ Hx).
  rewrite forallb_forall in Hc. specialize (Hc _ Hy). cbn [fst snd] in Hc.
  apply orb_true_iff in Hc as [Hc|Hc]; [|by apply bytes_eqb_spec].
  apply negb_true_iff, bool_decide_eq_false in Hc. by destruct (Hc E).
Qed.

Definition l2_inputs : list (list Z) :=
  omap withdrawal_message l2_txs ++ tree_inputs (omap withdrawal_hash_of l2_txs).

Lemma l2_inputs_apart : no_collision_check l2_inputs = true.
Proof. vm_cast_no_check (eq_refl true). Qed.

(** ** The contracts with these blocks *)

#[local] Instance l2_deployment : Deployment := {|
  bridge_address := replicate 20 0xb1; proposer_address := replicate 20 0xb2;
  r0_verify _ _ _ _ := true; foreign_lastVerifiedBlock _ := None;
  foreign_getDepositLogsVersionedHash _ _ := None; foreign_publishWithdrawals _ _ _ := None;
  foreign_removeDepositLogs _ _ := None;
|}.
Definition sequencer : list Z := replicate 20 0x5e.

(** The state after a call, for calls that do not revert. *)
Definition after {A} (r : CallResult A) (d : A) : A := match r with Ok a => a | _ => d end.

Definition l2_deployed : Contracts := Eval vm_compute in {|
  bridge := after (bridge_initialize proposer_address 17 (bridge created)) (bridge created);
  proposer := after (proposer_initialize bridge_address DEV_MODE [sequencer] (proposer created))
    (proposer created) |}.
Definition l2_funded : Contracts := Eval vm_compute in
  with_bridge l2_deployed (after (deposit (replicate 20 9) 1000 (bridge l2_deployed)) (bridge l2_deployed)).
Definition l2_commit_0 : Contracts := Eval vm_compute in
  after (commit sequencer 0 (replicate 32 1) zero32 zero32 l2_funded) l2_funded.
Definition l2_commit_1 : Contracts := Eval vm_compute in
  after (commit sequencer 1 (replicate 32 1) l2_root zero32 l2_commit_0) l2_commit_0.
Definition l2_verified : Contracts := Eval vm_compute in
  after (verify sequencer 1 [] [] [] l2_commit_1) l2_commit_1.

Definition l2_withdrawal : Transaction := PrivilegedL2Transaction (demo_withdrawal 3).
Definition l2_path : Z * list (list Z) := Eval vm_compute in
  default (0, []) (get_withdraw_merkle_proof (with_hashes l2_txs) (Transaction.compute_hash l2_withdrawal)).
Definition l2_claim : Claim := Eval vm_compute in {|
  msg_sender := replicate 20 3; l2WithdrawalTxHash := Transaction.compute_hash l2_withdrawal;
  claimedAmount := 300; withdrawalBlockNumber := 1; withdrawalLogIndex := l2_path.1;
  withdrawalProof := l2_path.2 |}.
Definition l2_called : Contracts := Eval vm_compute in after (claim_call l2_claim l2_verified) l2_verified.
Definition l2_claimed : Contracts := Eval vm_compute in default l2_called (claim_return l2_called).

Lemma l2_root_committed : withdrawal_logs_merkle_root (l2_blocks 1) = Ok l2_root.
Proof. vm_compute. reflexivity. Qed.

Lemma l2_deployed_ok : deployed l2_deployed.
Proof. exists 17, DEV_MODE, [sequencer]. eexists _, _. split_and!; vm_compute; reflexivity. Qed.

Lemma l2_claim_typed : claim_typed l2_claim.
Proof.
  split_and!; [reflexivity..| |].
  - change (in_u 256 300). unfold in_u. lia.
  - repeat constructor.
Qed.

(** Deposits, commitments, a verification and a claim. *)
Lemma l2_reached : rtc bridge_step l2_deployed l2_claimed.
Proof.
  apply (rtc_l _ _ l2_funded).
  { eapply (StepDeposit _ _ (replicate 20 9) 1000); [|reflexivity].
    vm_cast_no_check (eq_refl (Ok (E := Revert) (bridge l2_funded))). }
  apply (rtc_l _ _ l2_commit_0).
  { eapply (StepCommit _ _ sequencer 0 (replicate 32 1) zero32 zero32).
    vm_cast_no_check (eq_refl (Ok (E := Revert) l2_commit_0)). }
  apply (rtc_l _ _ l2_commit_1).
  { eapply (StepCommit _ _ sequencer 1 (replicate 32 1) l2_root zero32).
    vm_cast_no_check (eq_refl (Ok (E := Revert) l2_commit_1)). }
  apply (rtc_l _ _ l2_verified).
  { eapply (StepVerify _ _ sequencer 1 [] [] []).
    vm_cast_no_check (eq_refl (Ok (E := Revert) l2_verified)). }
  apply (rtc_l _ _ l2_called).
  { eapply (StepClaim _ _ l2_claim); [apply l2_claim_typed|].
    vm_cast_no_check (eq_refl (Ok (E := Revert) l2_called)). }
  apply rtc_once, StepClaimReturn. vm_cast_no_check (eq_refl (Some l2_claimed)).
Qed.

Lemma l2_fields_ok n : Forall tx_fields_ok (BlockBody.transactions (Block.body (l2_blocks n))).
Proof.
  cbn. destruct (n =? 1); [|constructor].
  repeat constructor; cbn; repeat (apply Forall_cons; split); unfold in_u; try lia.
Qed.

Lemma l2_claim_apart : no_collision_check (inputs_of (l2_blocks 1) l2_claim) = true.
Proof. vm_cast_no_check (eq_refl true). Qed.

Lemma l2_payouts : payouts (bridge l2_claimed) = [l2_claim].
Proof. reflexivity. Qed.

Example payouts_are_withdrawals_witness :
  payouts (bridge l2_claimed) = [l2_claim] ∧
  balance (bridge l2_claimed) + total claimedAmount (payouts (bridge l2_claimed)) = 1000 ∧
  paid_ok l2_claimed l2_claim ∧
  ∃ tx, tx ∈ BlockBody.transactions (Block.body (l2_blocks 1)) ∧ claims l2_claim tx.
Proof.
  destruct (payouts_are_withdrawals l2_deployed l2_claimed l2_deployed_ok l2_reached)
    as (_ & Hb & _ & Hp).
  split; [exact l2_payouts|]. split; [rewrite Hb; reflexivity|].
  destruct (Hp l2_claim) as [Hok Hw]; [rewrite l2_payouts; by apply list_elem_of_singleton|].
  split; [exact Hok|]. apply (Hw (l2_blocks 1)).
  - exact l2_root_committed.
  - apply l2_fields_ok.
  - apply no_collision_check_ok, l2_claim_apart.
Defined.

Lemma l2_body_stored : (Store.get_block_body 1 l2_store).1 = Ok (Some (l2_body l2_txs)).
Proof. vm_cast_no_check (eq_refl (Ok (E := StoreError) (Some (l2_body l2_txs)))). Qed.

Lemma l2_hashes_apart : NoDup (Transaction.compute_hash <$> l2_txs).
Proof. apply (bool_decide_unpack (NoDup (Transaction.compute_hash <$> l2_txs))). vm_cast_no_check I. Qed.

Example withdrawal_claimable_witness :
  ∃ index proof claim c1 c2,
    get_withdraw_merkle_proof (with_hashes l2_txs) (Transaction.compute_hash l2_withdrawal)
      = Some (index, proof) ∧
    claims claim l2_withdrawal ∧ withdrawalBlockNumber claim = 1 ∧
    withdrawalLogIndex claim = index ∧ withdrawalProof claim = proof ∧
    claim_call claim l2_verified = Ok c1 ∧
    balance (bridge c1) = balance (bridge l2_verified) - 300 ∧
    claim_return c1 = Some c2 ∧
    Transaction.compute_hash l2_withdrawal ∈ claimedWithdrawals (bridge c2).
Proof.
  destruct (commits_to_spec 1 l2_store l2_root l2_commits) as (co & s' & Ec & Er).
  apply (withdrawal_claimable 1 l2_store s' co (l2_body l2_txs) l2_withdrawal (demo_withdrawal 3)
    l2_verified Ec l2_body_stored); rewrite ?Er.
  - cbn [BlockBody.transactions l2_body]. unfold l2_txs. by do 3 right; left.
  - reflexivity.
  - exact l2_hashes_apart.
  - apply no_collision_check_ok. exact l2_inputs_apart.
  - reflexivity.
  - reflexivity.
  - reflexivity.
  - discriminate.
  - cbn. lia.
  - apply not_elem_of_empty.
  - cbn. lia.
Defined.

(** An execution that changes the storage of a contract and nothing else. *)
Definition storage_update : AccountUpdate.t :=
  {| AccountUpdate.address := replicate 20 7; AccountUpdate.removed := false;
     AccountUpdate.info := None; AccountUpdate.code := None;
     AccountUpdate.added_storage := [(replicate 32 1, 5)] |}.
#[local] Instance storage_execution : Execution := λ _ _, Ok ([], [storage_update]).

Lemma l2_header_stored :
  (Store.get_block_header 1 l2_store).1 = Ok (Some (demo_link (replicate 32 0) 1 1010)).
Proof.
  vm_cast_no_check (eq_refl (Ok (E := StoreError) (Some (demo_link (replicate 32 0) 1 1010)))).
Qed.

Example update_without_info_never_committed_witness :
  execute_block l2_store (Block.new (demo_link (replicate 32 0) 1 1010) (l2_body l2_txs))
    = Ok ([], [storage_update])
  ∧ ∀ co, (commit_block 1 l2_store).1 ≠ Ok (Some co).
Proof.
  split; [reflexivity|].
  apply (update_without_info_never_committed 1 l2_store (demo_link (replicate 32 0) 1 1010)
    (l2_body l2_txs) [] [storage_update] storage_update l2_body_stored l2_header_stored).
  - reflexivity.
  - by apply list_elem_of_singleton.
  - reflexivity.
Defined.
